(* ===== verification/_CoqProject ===== *)
-Q . S2P
Prelude.v
Bytes.v
Ordered.v
Text.v
F64.v
StorageTrait.v
Pagedb.v
PagedbMem.v
Checksum.v
IndexKey.v
SortedKeys.v
SortedMaintain.v
SortedQuery.v
VectorClock.v
Sequence.v
StreamSeq.v
FlowControl.v
OutboundQueue.v
Outbound.v
SyncPush.v
SyncDelivery.v
CrdtQueue.v
CrdtFlush.v
CrdtOutbox.v
CrdtCases.v
Graph.v
GraphBfs.v
GraphWcc.v
GraphKcore.v
GraphRun.v
QueryValue.v
Joins.v
JoinSpec.v
MergeJoin.v
JoinCases.v
Aggregate.v
AggSpec.v
AggCases.v
Lateral.v
Recursive.v
RecursiveSpec.v
RecursiveCases.v
History.v
HistorySpec.v
HistoryBackfill.v
HistoryPage.v
HistoryCases.v
IndexDefs.v
IndexStore.v
IndexDurable.v
IndexSpec.v
IndexUnique.v
IndexSession.v
IndexFlush.v
IndexRestart.v
IndexRange.v
IndexRows.v
IndexLegacy.v
IndexCases.v
ArrayQueue.v
ArrayWindow.v
ArrayPush.v
ArrayDelivery.v
ArraySeq.v
ArrayCases.v
