(* ===== verification/Prelude.v ===== *)
(** * NodeDB-Lite: a verification library

    NodeDB-Lite ([src/nodedb-lite/]) is an embedded multi-model database: one
    process, one key-value store on disk, and above it CRDT documents, key-value
    collections with secondary and sorted indexes, graph, columnar, timeseries,
    vector, full-text and spatial engines, an SQL layer, and a client that
    synchronises with a server called Origin.  This library models the parts
    below in Rocq and proves what each promises.

    ** How the parts interact

    Everything durable goes through the trait [StorageEngine]
    ([src/nodedb-lite/src/storage/engine.rs]): namespaced rows, atomic batches and
    ordered scans.  [PagedbStorage] implements it over the page store of the crate
    [pagedb].  Index maintenance turns a change of a row into writes of the same
    batch; index reads are range scans.  A local write also goes into an outbound
    queue, itself rows of the store; a push tick gives a queued entry a stream
    number, stores it and sends it; Origin's acknowledgement retires it.  CRDT
    documents keep their own outbox, persisted by a flush that runs beside the
    writers.

    ** Files

    - [Prelude.v]: results and their monad ([let?]), options ([let*]), integer
      widths with wrap-around, list lemmas, tactics ([arith], [result_inv]) and
      the hint databases [lite] and [lite_arith].
    - [Bytes.v], [Ordered.v], [Text.v], [F64.v]: byte strings with their
      lexicographic order and big- and little-endian integers; finite maps as
      sorted rows; UTF-8, decimal and hexadecimal text; [f64] as bit patterns and
      as the Standard Library's [spec_float], with the exactness of whole numbers
      below 2^53.
    - [StorageTrait.v]: the trait as a class [StorageEngine], a store as a function
      from namespaces to maps, the laws an implementation promises
      ([StorageLaws]) and when it makes progress ([StorageProgress]).
    - [Pagedb.v], [PagedbMem.v]: [src/nodedb-lite/src/storage/pagedb_storage/]:
      flat keys, reads, the batch path with its duplicate check, scans by pages;
      the crate's transactions are a class with laws.  The instance shows that the
      backend satisfies the trait; the memory store shows the laws are satisfiable.
    - [Checksum.v]: [storage/checksum.rs].
    - [IndexKey.v]: [index/key.rs]: order-preserving keys.
    - [SortedKeys.v], [SortedMaintain.v], [SortedQuery.v]:
      [query/kv_ops/sorted/]: scores, windows, maintenance, rank and range reads.
    - [VectorClock.v], [Sequence.v], [StreamSeq.v]: [sync/clock.rs], local
      sequences and [sync/stream_seq.rs].
    - [FlowControl.v]: [sync/flow_control.rs], AIMD batch sizes and the window.
    - [OutboundQueue.v], [Outbound.v], [SyncPush.v], [SyncDelivery.v]:
      [sync/outbound/], the delegate functions of [nodedb/sync_delegate/], the push
      ticks of [sync/transport/push/] and the acknowledgement handlers.
    - [CrdtQueue.v], [CrdtFlush.v], [CrdtOutbox.v], [CrdtCases.v]:
      [engine/crdt/engine/], the CRDT part of [nodedb/core/flush/execute.rs] and
      the restore of the outbox in [nodedb/core/open/restore/crdt.rs].
    - [Graph.v], [GraphBfs.v], [GraphWcc.v], [GraphKcore.v], [GraphRun.v]:
      [query/graph_ops/algorithms.rs].
    - [QueryValue.v], [Joins.v], [JoinSpec.v], [MergeJoin.v], [JoinCases.v]:
      [query/query_ops/joins/]: values and rows, the hash join and its executors,
      the nested-loop and the sort-merge join, against one reference join.
    - [Aggregate.v], [AggSpec.v], [AggCases.v]: [query/query_ops/aggregate.rs],
      [aggregate_numeric.rs], [facets.rs].
    - [Lateral.v]: [query/query_ops/lateral_loop.rs], [lateral_top_k.rs].
    - [Recursive.v], [RecursiveSpec.v], [RecursiveCases.v]:
      [query/query_ops/recursive_scan.rs], [recursive_value.rs].
    - [History.v], [HistorySpec.v], [HistoryBackfill.v], [HistoryPage.v],
      [HistoryCases.v]: [engine/document/history/]: versions of documents, their
      pointers, the rebuild of the pointers and the pages of current documents.
    - [IndexDefs.v], [IndexStore.v], [IndexDurable.v], [IndexLegacy.v]:
      [index/catalog.rs], [document.rs], [store.rs], [maintain.rs], [lookup.rs],
      [durable.rs], [ddl.rs], [legacy.rs] and the build of strict and key-value
      indexes of [rebuild.rs]: definitions, the catalog in memory, the unique check,
      reads, loads, flushes, row commits and index DDL.
    - [IndexSpec.v], [IndexUnique.v], [IndexSession.v], [IndexRange.v]: the catalog as
      a view of the rows, over sessions of writes and DDL.  [IndexFlush.v],
      [IndexRestart.v], [IndexRows.v]: the catalog and the store.  [IndexCases.v]:
      concrete catalogs.
    - [ArrayQueue.v], [ArrayWindow.v], [ArrayPush.v]: [sync/array/pending.rs],
      [sync/client/array_push.rs], [sync/array/reject_policy.rs],
      [sync/transport/push/array.rs] and [dispatch_array.rs]: the queue, the window and
      the two tasks as steps.  [ArrayDelivery.v], [ArraySeq.v]: what every run keeps.
      [ArrayCases.v]: a scheduler and concrete runs.

    A state is a [Record], an operation a function from state to result and state;
    an error is a value of [result LiteError].  A failing storage operation may
    have happened or not (the laws of [StorageTrait.v] say which outcomes there
    are); theorems about sequences of operations cover both.

    ** What the theorems show

    - Storage: any sequence of trait operations on the backend behaves as on a map
      per namespace; a batch is atomic and applies in order; paged scans lose
      nothing.
    - Keys: the byte order of encoded values is the order of the values; an index
      scan finds exactly the rows with the value; encodings round-trip.
    - Sorted indexes: maintenance keeps the two key families equal to what the rows
      prescribe; rank, range and top reads agree with sorting the rows;
      windows start where the calendar says.
    - Synchronisation: queues are FIFO lists with backpressure; a queued KV write
      stays stored until Origin settles it or no frame encodes for it; a message is sent
      only under a stored number; frontiers do not go back; the window and batch size
      stay in bounds and the window reopens.  A local sequence stays between its bounds
      while its sums fit an [i64].
    - CRDT outbox: over every interleaving of writers with the steps of flushes, a
      queued mutation is marked or stored, unless a rotation of the peer id renumbered
      it; a flush and a restart restore a queue without rotated entries.
    - Graph: breadth-first distances, components and core numbers are the
      mathematical ones (edges count one whatever their weight), and every algorithm
      terminates with the rows it should have.
    - Queries, on keys that are nulls, booleans, integers, floats or strings without a
      vertical bar: the hash, nested-loop and sort-merge joins (but for the sort-merge
      semi join) return the join on equal keys; GROUP BY returns one row per key with the
      aggregates of its rows.  Both entries of a lateral join agree; a distinct recursive
      scan returns the rows its links lead to within its iterations and its limit; a
      value recursion returns the iterates of its step.
    - History: the rows of a collection are a list of versions per document; reads
      answer from it, now or as of a time from 1970 on; lost pointers are rebuilt.
    - Secondary indexes: over any session in which no write that brings back a deleted
      document is refused, an index holds exactly the entries of the live rows, equality
      and range lookups return the documents they should, and unique indexes stay unique.
      A flush and a restart restore the catalog of document collections whatever
      interleaved, moves of indexes apart; strict and key-value rows commit with their
      entries or not at all; entries of older layouts are removed once.
    - Array push: in every interleaving of the push loop, the receive loop, Origin, lost
      connections and restarts an operation leaves the queue only when it was applied,
      refused for good or cannot be framed, and keeps one stream number.  Fewer than 2^63
      windows are opened by a client, so a token is not used twice.
    Theorems about concrete runs record where the code does not do what its comments
    say; the manifest lists them as findings.

    ** Bounds and fuel

    [usize] is 64 bits.  Integers keep their width where the source can overflow.
    Loops that are not structural have fuel: scans by pages have one unit per row
    and one more, graph searches one per node, union-find one per node, peeling one
    pass per node and one level per degree, the rebuild of pointers one page per row
    and one more.  In each case the theorem says that the fuel suffices.  The fuel of
    a recursive query is the source's own iteration cap.  Rust's [sort_by] is stable,
    and so is [stable_sort] of [Ordered.v].

    ** Assumptions

    Crates outside the repository are classes with laws: [pagedb] transactions, the
    CRC-32C function, MessagePack codecs (an encoded value decodes to itself), the
    coerced comparison of [nodedb_types] (symmetric, and equal values coerce to a
    common number, time, text or boolean), Loro
    documents (no law), the adjacency index of [nodedb_graph] (in-edges are the
    out-edges reversed, degrees count edges), and of the query crates expression
    evaluation, filters, exact sums and the text of values.  Every class has an
    instance in the library, on which the witnesses run.

    ** Not modelled

    Parts that only pass values between other crates or the operating system: the
    foreign-function and WebAssembly bindings, the websocket connection, encrypted
    storage, configuration and identity, SQL planning and the visitors that dispatch
    plans to operators.  Parts whose substance is in other crates: the columnar,
    timeseries, vector, full-text, spatial and array engines (tiles, segments,
    HNSW, BM25, R-trees) and strict documents.  Parts that are not modelled though
    they are the program's own: the DDL of collections and the rebuild of indexes at
    open, which read rows of the engines, opening and recovery, the public collection
    methods, the sync client session, what array synchronisation receives from Origin,
    graph pattern matching and fusion, and the KV operations that build rows. *)

From Stdlib Require Import ZArith Lia.
From stdpp Require Import prelude gmap sorting.

Local Open Scope Z_scope.

(** ** Results

    [Result<T, E>] of the source.  The error type is a parameter; the storage
    layer instantiates it with its [LiteError]. *)

Inductive result (E A : Type) : Type :=
| Ok (a : A)
| Err (e : E).
Arguments Ok {E A} a.
Arguments Err {E A} e.

Definition rbind {E A B : Type} (r : result E A) (k : A → result E B) : result E B :=
  match r with
  | Ok a => k a
  | Err e => Err e
  end.

Definition rmap {E A B : Type} (f : A → B) (r : result E A) : result E B :=
  match r with
  | Ok a => Ok (f a)
  | Err e => Err e
  end.

Definition rmap_err {E F A : Type} (f : E → F) (r : result E A) : result F A :=
  match r with
  | Ok a => Ok a
  | Err e => Err (f e)
  end.

(** [Option::ok_or]. *)
Definition ok_or {E A : Type} (o : option A) (e : E) : result E A :=
  match o with
  | Some a => Ok a
  | None => Err e
  end.

(** [Result::ok]. *)
Definition r_ok {E A : Type} (r : result E A) : option A :=
  match r with
  | Ok a => Some a
  | Err _ => None
  end.

Declare Scope lite_scope.
Delimit Scope lite_scope with lite.

(** The [?] operator: [let? x := e in k] returns [e]'s error at once. *)
Notation "'let?' x ':=' e 'in' k" := (rbind e (λ x, k))
  (at level 10, x pattern, e at level 100, k at level 200,
   format "'[v' 'let?'  x  ':='  e  'in' '/' k ']'") : lite_scope.

(** The same for [Option]. *)
Notation "'let*' x ':=' e 'in' k" := (mbind (λ x, k) (e : option _))
  (at level 10, x pattern, e at level 100, k at level 200,
   format "'[v' 'let*'  x  ':='  e  'in' '/' k ']'") : lite_scope.

Open Scope lite_scope.

Definition is_ok {E A : Type} (r : result E A) : bool :=
  match r with Ok _ => true | Err _ => false end.

Lemma rbind_Ok {E A B} (r : result E A) (k : A → result E B) b :
  rbind r k = Ok b ↔ ∃ a, r = Ok a ∧ k a = Ok b.
Proof. destruct r; simpl; naive_solver. Qed.

Lemma rbind_Err {E A B} (r : result E A) (k : A → result E B) e :
  rbind r k = Err e ↔ r = Err e ∨ ∃ a, r = Ok a ∧ k a = Err e.
Proof. destruct r; simpl; naive_solver. Qed.

Lemma ok_or_Ok {E A} (o : option A) (e : E) a : ok_or o e = Ok a ↔ o = Some a.
Proof. destruct o; simpl; naive_solver. Qed.

(** A loop [for x in xs { acc = f(acc, x)?; }]. *)
Fixpoint rfold {E A S : Type} (f : S → A → result E S) (s : S) (l : list A) : result E S :=
  match l with
  | [] => Ok s
  | x :: l' => let? s' := f s x in rfold f s' l'
  end.

Lemma rfold_app {E A S} (f : S → A → result E S) s l1 l2 :
  rfold f s (l1 ++ l2) = rbind (rfold f s l1) (λ s', rfold f s' l2).
Proof.
  revert s. induction l1 as [|x l1 IH]; intros s; simpl; [done|].
  destruct (f s x); simpl; [apply IH|done].
Qed.

(** A fold keeps what its steps keep. *)
Lemma rfold_ind {E A S} (P : S → Prop) (f : S → A → result E S) s l s' :
  (∀ s x s', x ∈ l → P s → f s x = Ok s' → P s') → P s → rfold f s l = Ok s' → P s'.
Proof.
  revert s. induction l as [|x l IH]; intros s Hf Hs Hr; cbn [rfold] in Hr; [by injection Hr as <-|].
  destruct (f s x) as [s1|e] eqn:H1; [|done]. cbn [rbind] in Hr.
  apply (IH s1); [|by apply (Hf s x); [left|..]|done]. intros s2 y s3 Hy. apply Hf. by right.
Qed.

(** [iter().map(f).collect::<Result<Vec<_>, _>>()]. *)
Fixpoint rmapM {E A B : Type} (f : A → result E B) (l : list A) : result E (list B) :=
  match l with
  | [] => Ok []
  | x :: l' => let? y := f x in let? ys := rmapM f l' in Ok (y :: ys)
  end.

Lemma rmapM_Ok {E A B} (f : A → result E B) l ys :
  rmapM f l = Ok ys ↔ Forall2 (λ x y, f x = Ok y) l ys.
Proof.
  revert ys. induction l as [|x l IH]; intros ys; simpl.
  - split; [intros [= <-]; constructor | by inversion 1].
  - rewrite rbind_Ok. split.
    + intros (y & Hy & (ys' & Hys & [= <-])%rbind_Ok).
      constructor; [done|]. by apply IH.
    + inversion 1 as [|? y ? ys' Hy Hys]; subst. exists y; split; [done|].
      apply IH in Hys. by rewrite Hys.
Qed.

Lemma rmapM_pure {E A B} (g : A → B) (f : A → result E B) l :
  Forall (λ x, f x = Ok (g x)) l → rmapM f l = Ok (g <$> l).
Proof. induction 1 as [|x l Hx _ IH]; simpl; [done|]. by rewrite Hx; simpl; rewrite IH. Qed.

(** ** Machine integers

    A [u64], [i64] or [usize] is a [Z]; its range and its wrap-around are
    written out.  [usize] is 64 bits wide. *)

Definition u64_max : Z := 2 ^ 64 - 1.
Definition usize_max : Z := u64_max.
Definition u32_max : Z := 2 ^ 32 - 1.
Definition i64_min : Z := - 2 ^ 63.
Definition i64_max : Z := 2 ^ 63 - 1.

Definition u64_ok (z : Z) : Prop := 0 ≤ z ≤ u64_max.
Definition i64_ok (z : Z) : Prop := i64_min ≤ z ≤ i64_max.

(** Wrap-around of [u64] arithmetic ([fetch_add], release-mode [+]). *)
Definition wrap_u64 (z : Z) : Z := z mod 2 ^ 64.
(** Wrap-around of [i64] arithmetic: two's complement. *)
Definition wrap_i64 (z : Z) : Z := (z + 2 ^ 63) mod 2 ^ 64 - 2 ^ 63.

Definition checked_add_u64 (a b : Z) : option Z :=
  if a + b <=? u64_max then Some (a + b) else None.
Definition saturating_add_u64 (a b : Z) : Z := Z.min (a + b) u64_max.
Definition saturating_sub_u64 (a b : Z) : Z := Z.max (a - b) 0.

(** [i as u64] for an [i64], and [u as i64] for a [u64]. *)
Definition i64_as_u64 (z : Z) : Z := z mod 2 ^ 64.
Definition u64_as_i64 (z : Z) : Z := wrap_i64 z.

Create HintDb lite_arith.

#[global] Hint Unfold u64_max usize_max u32_max i64_min i64_max u64_ok i64_ok : lite_arith.

Ltac arith := autounfold with lite_arith in *; lia.

(** Goals between [comparison]s: split every comparison of integers. *)
Ltac zcompare :=
  repeat match goal with
  | |- context [Z.compare ?a ?b] => destruct (Z.compare_spec a b)
  end; cbn [CompOpp]; first [done | exfalso; arith].

Lemma wrap_u64_id z : u64_ok z → wrap_u64 z = z.
Proof. intros ?. apply Z.mod_small. arith. Qed.

Lemma wrap_u64_ok z : u64_ok (wrap_u64 z).
Proof.
  unfold u64_ok, u64_max, wrap_u64.
  pose proof (Z.mod_pos_bound z (2 ^ 64) ltac:(done)). lia.
Qed.

Lemma wrap_i64_id z : i64_ok z → wrap_i64 z = z.
Proof. intros ?. unfold wrap_i64. rewrite Z.mod_small; [lia|arith]. Qed.

Lemma wrap_i64_ok z : i64_ok (wrap_i64 z).
Proof.
  unfold i64_ok, i64_min, i64_max, wrap_i64.
  pose proof (Z.mod_pos_bound (z + 2 ^ 63) (2 ^ 64) ltac:(done)). lia.
Qed.

Lemma u64_as_i64_as_u64 z : i64_ok z → u64_as_i64 (i64_as_u64 z) = z.
Proof.
  intros Hz. unfold u64_as_i64, i64_as_u64, wrap_i64.
  rewrite Zplus_mod_idemp_l. rewrite Z.mod_small; [lia|arith].
Qed.

Lemma checked_add_u64_Some a b c :
  checked_add_u64 a b = Some c ↔ c = a + b ∧ a + b ≤ u64_max.
Proof.
  unfold checked_add_u64. destruct (Z.leb_spec (a + b) u64_max); naive_solver lia.
Qed.

(** ** Tactics and hints *)

(** Split the conjunctions and existentials of the context. *)
Ltac destruct_hyps :=
  repeat match goal with
  | H : _ ∧ _ |- _ => destruct H
  | H : ∃ _, _ |- _ => destruct H
  end.

(** Invert every [result] binding in the context. *)
Ltac result_inv :=
  repeat match goal with
  | H : rbind _ _ = Ok _ |- _ => apply rbind_Ok in H; destruct H as (? & ? & H)
  | H : ok_or _ _ = Ok _ |- _ => apply ok_or_Ok in H
  | H : Ok _ = Ok _ |- _ => injection H as H
  | H : Err _ = Err _ |- _ => injection H as H
  | H : Ok _ = Err _ |- _ => discriminate H
  | H : Err _ = Ok _ |- _ => discriminate H
  end; simplify_eq/=.

Create HintDb lite discriminated.

#[export] Hint Resolve wrap_u64_ok wrap_i64_ok : lite.

(** ** Lists *)

(** [Vec::iter().rposition(p)]: the last index where [p] holds. *)
Fixpoint rposition {A} (p : A → bool) (l : list A) : option nat :=
  match l with
  | [] => None
  | x :: l' =>
      match rposition p l' with
      | Some i => Some (S i)
      | None => if p x then Some 0%nat else None
      end
  end.

(** [iter().position(p)]: the first index where [p] holds. *)
Fixpoint position {A} (p : A → bool) (l : list A) : option nat :=
  match l with
  | [] => None
  | x :: l' => if p x then Some 0%nat else S <$> position p l'
  end.

(** [iter().take_while(p)]. *)
Fixpoint take_while {A} (p : A → bool) (l : list A) : list A :=
  match l with
  | [] => []
  | x :: l' => if p x then x :: take_while p l' else []
  end.

(** [slice.get(n..)]: [None] when [n] is past the end. *)
Definition get_from {A} (n : nat) (l : list A) : option (list A) :=
  if (n <=? length l)%nat then Some (drop n l) else None.

(** [slice.get(..n)]. *)
Definition get_to {A} (n : nat) (l : list A) : option (list A) :=
  if (n <=? length l)%nat then Some (take n l) else None.

Lemma get_from_app {A} (l1 l2 : list A) : get_from (length l1) (l1 ++ l2) = Some l2.
Proof.
  unfold get_from. rewrite length_app, drop_app_length.
  by rewrite (proj2 (Nat.leb_le _ _)) by lia.
Qed.

Lemma get_to_app {A} (l1 l2 : list A) : get_to (length l1) (l1 ++ l2) = Some l1.
Proof.
  unfold get_to. rewrite length_app, take_app_length.
  by rewrite (proj2 (Nat.leb_le _ _)) by lia.
Qed.

Lemma rposition_app_last {A} (p : A → bool) l1 x l2 :
  p x = true → Forall (λ y, p y = false) l2 →
  rposition p (l1 ++ x :: l2) = Some (length l1).
Proof.
  intros Hx Hl2. induction l1 as [|y l1 IH]; simpl.
  - assert (rposition p l2 = None) as ->; [|by rewrite Hx].
    induction Hl2 as [|y l2 Hy _ IH]; simpl; [done|]. by rewrite IH, Hy.
  - by rewrite IH.
Qed.

Lemma position_app_first {A} (p : A → bool) l1 x l2 :
  p x = true → Forall (λ y, p y = false) l1 →
  position p (l1 ++ x :: l2) = Some (length l1).
Proof.
  intros Hx. induction 1 as [|y l1 Hy _ IH]; simpl; [by rewrite Hx|].
  by rewrite Hy, IH.
Qed.

Lemma position_Some {A} (p : A → bool) l i :
  position p l = Some i →
  ∃ x, l !! i = Some x ∧ p x = true ∧ ∀ j y, (j < i)%nat → l !! j = Some y → p y = false.
Proof.
  revert i. induction l as [|x l IH]; intros i; simpl; [done|].
  destruct (p x) eqn:Hx.
  - intros [= <-]. exists x; repeat split; [done|]. lia.
  - intros (i' & Hi & ->)%fmap_Some. destruct (IH i' Hi) as (y & Hy & Hp & Hlt).
    exists y; repeat split; [done..|]. intros [|j] z Hj Hz; simplify_eq/=; [done|].
    eapply Hlt; [|done]. lia.
Qed.

Lemma position_None {A} (p : A → bool) l :
  position p l = None ↔ Forall (λ x, p x = false) l.
Proof.
  induction l as [|x l IH]; simpl; [done|]. rewrite Forall_cons.
  destruct (p x); [naive_solver|]. rewrite fmap_None, IH. naive_solver.
Qed.

Lemma filter_none {A} (P : A → Prop) `{∀ x, Decision (P x)} (l : list A) :
  (∀ x, x ∈ l → ¬ P x) → filter P l = [].
Proof.
  induction l as [|x l IH]; intros Hl; [done|]. rewrite filter_cons, decide_False;
    [apply IH|apply Hl]; set_solver.
Qed.

Lemma filter_all {A} (P : A → Prop) `{∀ x, Decision (P x)} (l : list A) :
  (∀ x, x ∈ l → P x) → filter P l = l.
Proof.
  induction l as [|x l IH]; intros Hl; [done|]. rewrite filter_cons, decide_True;
    [f_equal; apply IH|apply Hl]; set_solver.
Qed.

Lemma filter_ext {A} (P Q : A → Prop) `{∀ x, Decision (P x), ∀ x, Decision (Q x)} (l : list A) :
  (∀ x, x ∈ l → P x ↔ Q x) → filter P l = filter Q l.
Proof.
  induction l as [|x l IH]; intros Hl; [done|]. rewrite !filter_cons.
  rewrite IH by set_solver. assert (P x ↔ Q x) by (apply Hl; set_solver).
  destruct (decide (P x)), (decide (Q x)); tauto.
Qed.
