(* ===== verification/Bytes.v ===== *)
(** * Bytes, byte order and fixed-width integer encodings

    The keys and values of the storage layer are byte strings compared
    lexicographically.  This file fixes the byte type, the order with its
    instances, the big- and little-endian encodings of the source's
    [to_be_bytes] / [to_le_bytes], and the lemmas the key codecs share. *)

From Stdlib Require Import ZArith Lia Strings.Byte.
From Stdlib Require String.
From stdpp Require Import prelude gmap sorting.
From S2P Require Import Prelude.

Local Open Scope Z_scope.

Notation byte := Corelib.Init.Byte.byte.
Notation bytes := (list byte).

(** ** Bytes as integers *)

Definition bz (b : byte) : Z := Z.of_N (Byte.to_N b).

(** The low eight bits of an integer, [z as u8]. *)
Definition zb (z : Z) : byte :=
  match Byte.of_N (Z.to_N (z mod 256)) with
  | Some b => b
  | None => x00
  end.

Lemma bz_range b : 0 ≤ bz b < 256.
Proof. unfold bz. pose proof (Byte.to_N_bounded b). lia. Qed.

Lemma bz_zb z : bz (zb z) = z mod 256.
Proof.
  unfold bz, zb. pose proof (Z.mod_pos_bound z 256 ltac:(done)) as Hz.
  destruct (Byte.of_N (Z.to_N (z mod 256))) as [b|] eqn:Hb.
  - apply Byte.to_of_N in Hb. rewrite Hb. lia.
  - apply Byte.of_N_None_iff in Hb. lia.
Qed.

Lemma bz_zb_small z : 0 ≤ z < 256 → bz (zb z) = z.
Proof. intros. by rewrite bz_zb, Z.mod_small. Qed.

Lemma zb_bz b : zb (bz b) = b.
Proof.
  unfold zb, bz. pose proof (Byte.to_N_bounded b).
  rewrite Z.mod_small by lia. rewrite N2Z.id. by rewrite Byte.of_to_N.
Qed.

#[global] Instance bz_inj : Inj (=) (=) bz.
Proof. intros a b H. by rewrite <-(zb_bz a), <-(zb_bz b), H. Qed.

#[global] Instance byte_eq_dec : EqDecision byte := Byte.byte_eq_dec.

#[global] Program Instance byte_countable : Countable byte :=
  inj_countable Byte.to_N Byte.of_N _.
Next Obligation. intros b. apply Byte.of_to_N. Qed.

(** A string literal as its bytes. *)
Definition bs (s : String.string) : bytes := String.list_byte_of_string s.
Arguments bs s%_string_scope.

(** ** Lexicographic order *)

Fixpoint bytes_cmp (a b : bytes) : comparison :=
  match a, b with
  | [], [] => Eq
  | [], _ :: _ => Lt
  | _ :: _, [] => Gt
  | x :: a', y :: b' =>
      match bz x ?= bz y with
      | Eq => bytes_cmp a' b'
      | c => c
      end
  end.

Definition bytes_ltb (a b : bytes) : bool :=
  match bytes_cmp a b with Lt => true | _ => false end.
Definition bytes_leb (a b : bytes) : bool :=
  match bytes_cmp a b with Gt => false | _ => true end.

Definition bytes_lt (a b : bytes) : Prop := bytes_cmp a b = Lt.
Definition bytes_le (a b : bytes) : Prop := bytes_cmp a b ≠ Gt.

Infix "<b" := bytes_lt (at level 70) : lite_scope.
Infix "<=b" := bytes_le (at level 70) : lite_scope.

Lemma bytes_cmp_refl a : bytes_cmp a a = Eq.
Proof. induction a as [|x a IH]; simpl; [done|]. by rewrite Z.compare_refl. Qed.

Lemma bytes_cmp_eq a b : bytes_cmp a b = Eq ↔ a = b.
Proof.
  split; [|intros ->; apply bytes_cmp_refl].
  revert b. induction a as [|x a IH]; intros [|y b]; simpl; try done.
  destruct (Z.compare_spec (bz x) (bz y)) as [Heq| |]; try done.
  apply (inj bz) in Heq as ->. intros H. f_equal. by apply IH.
Qed.

Lemma bytes_cmp_antisym a b : bytes_cmp b a = CompOpp (bytes_cmp a b).
Proof.
  revert b. induction a as [|x a IH]; intros [|y b]; simpl; try done.
  rewrite (Z.compare_antisym (bz x) (bz y)).
  destruct (bz x ?= bz y); simpl; [apply IH|done..].
Qed.

Lemma bytes_lt_trans a b c : a <b b → b <b c → a <b c.
Proof.
  unfold bytes_lt. revert b c.
  induction a as [|x a IH]; intros [|y b] [|z c]; simpl; try done.
  destruct (Z.compare_spec (bz x) (bz y)) as [Hxy|Hxy|Hxy];
    destruct (Z.compare_spec (bz y) (bz z)) as [Hyz|Hyz|Hyz]; try done; intros H1 H2.
  - rewrite Hxy, Hyz, Z.compare_refl. eauto.
  - by rewrite (proj2 (Z.compare_lt_iff _ _)) by lia.
  - by rewrite (proj2 (Z.compare_lt_iff _ _)) by lia.
  - by rewrite (proj2 (Z.compare_lt_iff _ _)) by lia.
Qed.

Lemma bytes_lt_irrefl a : ¬ a <b a.
Proof. unfold bytes_lt. by rewrite bytes_cmp_refl. Qed.

Lemma bytes_le_lt_or_eq a b : a <=b b ↔ a <b b ∨ a = b.
Proof.
  unfold bytes_le, bytes_lt. rewrite <-bytes_cmp_eq.
  destruct (bytes_cmp a b); naive_solver.
Qed.

Lemma bytes_not_le a b : ¬ a <=b b ↔ b <b a.
Proof.
  unfold bytes_le, bytes_lt. rewrite (bytes_cmp_antisym a b).
  destruct (bytes_cmp a b); simpl; naive_solver.
Qed.

Lemma bytes_lt_le_trans a b c : a <b b → b <=b c → a <b c.
Proof. rewrite bytes_le_lt_or_eq. intros H [?| ->]; eauto using bytes_lt_trans. Qed.

Lemma bytes_le_lt_trans a b c : a <=b b → b <b c → a <b c.
Proof. rewrite bytes_le_lt_or_eq. intros [?| ->]; eauto using bytes_lt_trans. Qed.

#[global] Instance bytes_le_total_order : TotalOrder bytes_le.
Proof.
  split; [split; [split|]|].
  - intros a. rewrite bytes_le_lt_or_eq. by right.
  - intros a b c Hab Hbc. rewrite bytes_le_lt_or_eq in Hab. rewrite bytes_le_lt_or_eq.
    destruct Hab as [Hab| ->]; [left; eauto using bytes_lt_le_trans|].
    by apply bytes_le_lt_or_eq.
  - intros a b. rewrite !bytes_le_lt_or_eq. intros [Ha|?] [Hb|?]; try done.
    destruct (bytes_lt_irrefl a). eauto using bytes_lt_trans.
  - intros a b. unfold strict. destruct (bytes_cmp a b) eqn:Hab.
    + right; left. by apply bytes_cmp_eq.
    + left. rewrite bytes_not_le. split; [apply bytes_le_lt_or_eq; by left|done].
    + right; right. rewrite bytes_not_le. assert (b <b a).
      { unfold bytes_lt. by rewrite bytes_cmp_antisym, Hab. }
      split; [apply bytes_le_lt_or_eq; by left|done].
Qed.

#[global] Instance bytes_le_dec : RelDecision bytes_le.
Proof. intros a b. unfold bytes_le. destruct (bytes_cmp a b); [left|left|right]; congruence. Defined.
#[global] Instance bytes_lt_dec : RelDecision bytes_lt.
Proof. intros a b. unfold bytes_lt. destruct (bytes_cmp a b); [right|left|right]; congruence. Defined.

Lemma bytes_leb_le a b : bytes_leb a b = true ↔ a <=b b.
Proof. unfold bytes_leb, bytes_le. destruct (bytes_cmp a b); naive_solver. Qed.
Lemma bytes_ltb_lt a b : bytes_ltb a b = true ↔ a <b b.
Proof. unfold bytes_ltb, bytes_lt. destruct (bytes_cmp a b); naive_solver. Qed.
Lemma bytes_leb_false a b : bytes_leb a b = false ↔ b <b a.
Proof. rewrite <-bytes_not_le, <-bytes_leb_le. destruct (bytes_leb a b); naive_solver. Qed.
Lemma bytes_ltb_false a b : bytes_ltb a b = false ↔ b <=b a.
Proof.
  rewrite <-not_true_iff_false, bytes_ltb_lt, <-bytes_not_le.
  split; [apply dec_stable | tauto].
Qed.

Lemma sorted_nodup_strict (l : list bytes) :
  NoDup l → StronglySorted bytes_le l → StronglySorted bytes_lt l.
Proof.
  intros Hnd Hs. induction Hs as [|k l _ IH Hall]; [constructor|].
  apply NoDup_cons in Hnd as [Hnotin Hnd]. constructor; [by apply IH|].
  rewrite Forall_forall in *. intros k' Hk'.
  destruct (proj1 (bytes_le_lt_or_eq _ _) (Hall k' Hk')); [done|by subst].
Qed.

(** ** Order and concatenation *)

Lemma bytes_cmp_app p a b : bytes_cmp (p ++ a) (p ++ b) = bytes_cmp a b.
Proof. induction p as [|x p IH]; simpl; [done|]. by rewrite Z.compare_refl. Qed.

Lemma bytes_cmp_app_eqlen a1 a2 b1 b2 :
  length a1 = length a2 →
  bytes_cmp (a1 ++ b1) (a2 ++ b2) =
    match bytes_cmp a1 a2 with Eq => bytes_cmp b1 b2 | c => c end.
Proof.
  revert a2. induction a1 as [|x a1 IH]; intros [|y a2] [=]; simpl; [done|].
  destruct (bz x ?= bz y); [by apply IH|done..].
Qed.

Lemma bytes_le_app p a : p <=b p ++ a.
Proof.
  unfold bytes_le. rewrite <-(app_nil_r p) at 1. rewrite bytes_cmp_app. by destruct a.
Qed.

Lemma bytes_nil_le a : [] <=b a.
Proof. by destruct a. Qed.

(** Appending a zero byte gives the least key above. *)
Lemma bytes_succ_le a k : a ++ [x00] <=b k ↔ a <b k.
Proof.
  unfold bytes_le, bytes_lt. revert k.
  induction a as [|x a IH]; intros [|y k]; cbn [app bytes_cmp].
  - split; [|done]. by intros [].
  - pose proof (bz_range y). change (bz x00) with 0. split; [done|intros _].
    destruct (Z.compare_spec 0 (bz y)); [by destruct k|done|lia].
  - split; [|done]. by intros [].
  - destruct (bz x ?= bz y); [apply IH|done|]. split; [|done]. by intros [].
Qed.

(** [key.starts_with(prefix)]. *)
Fixpoint starts_with (p k : bytes) : bool :=
  match p, k with
  | [], _ => true
  | x :: p', y :: k' => if decide (x = y) then starts_with p' k' else false
  | _ :: _, [] => false
  end.

Lemma starts_with_spec p k : starts_with p k = true ↔ ∃ r, k = p ++ r.
Proof.
  revert k. induction p as [|x p IH]; intros [|y k]; simpl; [naive_solver..|].
  case_decide as Hxy.
  - subst. rewrite IH. naive_solver.
  - naive_solver.
Qed.

Lemma starts_with_app p r : starts_with p (p ++ r) = true.
Proof. apply starts_with_spec. eauto. Qed.

Lemma starts_with_false p k : starts_with p k = false ↔ ¬ ∃ r, k = p ++ r.
Proof. rewrite <-starts_with_spec. by destruct (starts_with p k). Qed.

(** [key.strip_prefix(prefix)]. *)
Definition strip_prefix (p k : bytes) : option bytes :=
  if starts_with p k then Some (drop (length p) k) else None.

Lemma strip_prefix_app p r : strip_prefix p (p ++ r) = Some r.
Proof. unfold strip_prefix. by rewrite starts_with_app, drop_app_length. Qed.

Lemma strip_prefix_Some p k r : strip_prefix p k = Some r ↔ k = p ++ r.
Proof.
  split; [|intros ->; apply strip_prefix_app].
  unfold strip_prefix. destruct (starts_with p k) eqn:H; [|done].
  apply starts_with_spec in H as [r' ->]. rewrite drop_app_length. naive_solver.
Qed.

(** Two prefixes of one string with equal length are equal. *)
Lemma app_inj_eqlen {A} (a1 a2 b1 b2 : list A) :
  length a1 = length a2 → a1 ++ b1 = a2 ++ b2 → a1 = a2 ∧ b1 = b2.
Proof. intros ??. by apply app_inj_1. Qed.

(** ** Fixed-width integers *)

(** [to_be_bytes] on [n] bytes. *)
Fixpoint be_bytes (n : nat) (z : Z) : bytes :=
  match n with
  | O => []
  | S n' => zb (z / 256 ^ Z.of_nat n') :: be_bytes n' z
  end.

(** [from_be_bytes]. *)
Fixpoint be_val (l : bytes) : Z :=
  match l with
  | [] => 0
  | b :: l' => bz b * 256 ^ Z.of_nat (length l') + be_val l'
  end.

Definition le_bytes (n : nat) (z : Z) : bytes := reverse (be_bytes n z).
Definition le_val (l : bytes) : Z := be_val (reverse l).

Lemma length_be_bytes n z : length (be_bytes n z) = n.
Proof. induction n; simpl; auto. Qed.

Lemma length_le_bytes n z : length (le_bytes n z) = n.
Proof. unfold le_bytes. by rewrite length_reverse, length_be_bytes. Qed.

Lemma pow256_pos n : 0 < 256 ^ Z.of_nat n.
Proof. apply Z.pow_pos_nonneg; lia. Qed.

Lemma pow256_S n : 256 ^ Z.of_nat (S n) = 256 * 256 ^ Z.of_nat n.
Proof. rewrite Nat2Z.inj_succ, Z.pow_succ_r; lia. Qed.

Lemma be_val_bound l : 0 ≤ be_val l < 256 ^ Z.of_nat (length l).
Proof.
  induction l as [|b l IH]; [simpl; lia|].
  cbn [be_val length]. rewrite pow256_S.
  pose proof (bz_range b). pose proof (pow256_pos (length l)). nia.
Qed.

Lemma be_val_bytes n z : be_val (be_bytes n z) = z mod 256 ^ Z.of_nat n.
Proof.
  induction n as [|n IH]; [by rewrite Z.mod_1_r|].
  cbn [be_val be_bytes]. rewrite length_be_bytes, bz_zb, IH, pow256_S.
  pose proof (pow256_pos n). rewrite (Z.mul_comm 256).
  rewrite Z.rem_mul_r by lia. ring.
Qed.

Lemma be_val_bytes_small n z : 0 ≤ z < 256 ^ Z.of_nat n → be_val (be_bytes n z) = z.
Proof. intros. by rewrite be_val_bytes, Z.mod_small. Qed.

Lemma be_val_inj l1 l2 : length l1 = length l2 → be_val l1 = be_val l2 → l1 = l2.
Proof.
  revert l2. induction l1 as [|x l1 IH]; intros [|y l2] Hl; try discriminate Hl; [done|].
  injection Hl as Hl. cbn [be_val]. rewrite <-Hl. intros H. pose proof (be_val_bound l1). pose proof (be_val_bound l2) as H2.
  rewrite <-Hl in H2. pose proof (pow256_pos (length l1)).
  assert (bz x = bz y) as Hxy by nia. apply (inj bz) in Hxy as ->.
  f_equal. apply IH; [done|]. nia.
Qed.

Lemma be_bytes_val l : be_bytes (length l) (be_val l) = l.
Proof.
  apply be_val_inj; [apply length_be_bytes|].
  rewrite be_val_bytes. apply Z.mod_small, be_val_bound.
Qed.

Lemma be_bytes_inj n z1 z2 :
  0 ≤ z1 < 256 ^ Z.of_nat n → 0 ≤ z2 < 256 ^ Z.of_nat n →
  be_bytes n z1 = be_bytes n z2 → z1 = z2.
Proof. intros H1 H2 H%(f_equal be_val). by rewrite !be_val_bytes_small in H. Qed.

Lemma le_val_bytes n z : le_val (le_bytes n z) = z mod 256 ^ Z.of_nat n.
Proof. unfold le_val, le_bytes. by rewrite reverse_involutive, be_val_bytes. Qed.

Lemma le_val_bytes_small n z : 0 ≤ z < 256 ^ Z.of_nat n → le_val (le_bytes n z) = z.
Proof. intros. by rewrite le_val_bytes, Z.mod_small. Qed.

Lemma le_bytes_val l : le_bytes (length l) (le_val l) = l.
Proof.
  unfold le_bytes, le_val. rewrite <-(length_reverse l), be_bytes_val.
  apply reverse_involutive.
Qed.

Lemma le_val_bound l : 0 ≤ le_val l < 256 ^ Z.of_nat (length l).
Proof. unfold le_val. rewrite <-(length_reverse l). apply be_val_bound. Qed.

(** Big-endian order is numeric order. *)
Lemma bytes_cmp_be_val a b :
  length a = length b → bytes_cmp a b = (be_val a ?= be_val b).
Proof.
  revert b. induction a as [|x a IH]; intros [|y b] Hl; try discriminate Hl; [done|].
  injection Hl as Hl. cbn [be_val bytes_cmp]. rewrite <-Hl.
  pose proof (be_val_bound a). pose proof (be_val_bound b) as Hb. rewrite <-Hl in Hb.
  pose proof (pow256_pos (length a)). rewrite (IH b Hl).
  destruct (Z.compare_spec (bz x) (bz y)) as [Hxy|Hxy|Hxy]; symmetry.
  - rewrite Hxy. destruct (Z.compare_spec (be_val a) (be_val b));
      [apply Z.compare_eq_iff|apply Z.compare_lt_iff|apply Z.compare_gt_iff]; lia.
  - apply Z.compare_lt_iff. nia.
  - apply Z.compare_gt_iff. nia.
Qed.

Lemma bytes_cmp_be_bytes n z1 z2 :
  0 ≤ z1 < 256 ^ Z.of_nat n → 0 ≤ z2 < 256 ^ Z.of_nat n →
  bytes_cmp (be_bytes n z1) (be_bytes n z2) = (z1 ?= z2).
Proof.
  intros. rewrite bytes_cmp_be_val by (by rewrite !length_be_bytes).
  by rewrite !be_val_bytes_small.
Qed.

(** The widths the source uses. *)
Notation u64_be := (be_bytes 8).
Notation u32_be := (be_bytes 4).
Notation u64_le := (le_bytes 8).

Lemma u64_be_val z : u64_ok z → be_val (u64_be z) = z.
Proof. intros. apply be_val_bytes_small. change (256 ^ Z.of_nat 8) with (2 ^ 64). arith. Qed.

Lemma u64_le_val z : u64_ok z → le_val (u64_le z) = z.
Proof. intros. apply le_val_bytes_small. change (256 ^ Z.of_nat 8) with (2 ^ 64). arith. Qed.

Lemma be_val_u64_ok l : length l = 8%nat → u64_ok (be_val l).
Proof.
  intros Hl. pose proof (be_val_bound l) as H. rewrite Hl in H.
  change (256 ^ Z.of_nat 8) with (2 ^ 64) in H. arith.
Qed.

Lemma u64_be_cmp z1 z2 :
  u64_ok z1 → u64_ok z2 → bytes_cmp (u64_be z1) (u64_be z2) = (z1 ?= z2).
Proof.
  intros. apply bytes_cmp_be_bytes; change (256 ^ Z.of_nat 8) with (2 ^ 64); arith.
Qed.

Lemma u64_be_inj z1 z2 : u64_ok z1 → u64_ok z2 → u64_be z1 = u64_be z2 → z1 = z2.
Proof.
  intros. eapply (be_bytes_inj 8); [| |done]; change (256 ^ Z.of_nat 8) with (2 ^ 64); arith.
Qed.

(** [i64::to_le_bytes] / [i64::from_le_bytes]: two's complement. *)
Definition i64_le (z : Z) : bytes := u64_le (i64_as_u64 z).
Definition i64_le_val (l : bytes) : Z := u64_as_i64 (le_val l).

Lemma i64_le_val_bytes z : i64_ok z → i64_le_val (i64_le z) = z.
Proof.
  intros Hz. unfold i64_le_val, i64_le. rewrite u64_le_val; [by apply u64_as_i64_as_u64|].
  apply wrap_u64_ok.
Qed.

#[export] Hint Resolve bytes_nil_le bytes_le_app bz_range be_val_bound length_be_bytes
  length_le_bytes starts_with_app : lite.
#[export] Hint Rewrite length_be_bytes length_le_bytes bytes_cmp_app @length_app : bytes.

#[global] Arguments be_bytes : simpl never.
#[global] Arguments le_bytes : simpl never.
