(* ===== verification/Ordered.v ===== *)
(** * Maps enumerated in key order

    A storage scan returns the rows of a map sorted by key.  [entries] is that
    enumeration; the lemmas say that a strictly sorted list with the rows of the
    map is the enumeration, and how insertion, deletion and filtering act on
    it. *)

From Stdlib Require Import ZArith Lia.
From stdpp Require Import prelude gmap sorting.
From S2P Require Import Prelude Bytes.

Local Open Scope Z_scope.

(** [iter().take(n)] for an [n : usize]: [n] is never turned into a unary
    number, so the bound can be [usize::MAX]. *)
Fixpoint takeZ {A} (n : Z) (l : list A) : list A :=
  match l with
  | [] => []
  | x :: l' => if n <=? 0 then [] else x :: takeZ (n - 1) l'
  end.

Lemma takeZ_take {A} n (l : list A) : takeZ n l = take (Z.to_nat n) l.
Proof.
  revert n. induction l as [|x l IH]; intros n; simpl; [by rewrite take_nil|].
  destruct (Z.leb_spec n 0) as [Hn|Hn].
  - by replace (Z.to_nat n) with 0%nat by lia.
  - rewrite IH. replace (Z.to_nat n) with (S (Z.to_nat (n - 1))) by lia. done.
Qed.

Lemma takeZ_all {A} n (l : list A) : Z.of_nat (length l) ≤ n → takeZ n l = l.
Proof. intros. rewrite takeZ_take. apply take_ge. lia. Qed.

Section ordered.
Context {V : Type}.
Implicit Types (m : gmap bytes V) (l : list (bytes * V)) (k : bytes) (v : V).

(** Strictly increasing keys. *)
Definition ksorted l : Prop := StronglySorted (λ p q, p.1 <b q.1) l.

Definition kv_le (p q : bytes * V) : Prop := p.1 <=b q.1.
#[global] Instance kv_le_dec : RelDecision kv_le.
Proof. intros p q. unfold kv_le. apply _. Defined.
#[global] Instance kv_le_trans : Transitive kv_le.
Proof. intros p q r. unfold kv_le. apply transitivity. Qed.
#[global] Instance kv_le_total : Total kv_le.
Proof. intros p q. unfold kv_le. apply total, _. Qed.

Definition entries m : list (bytes * V) := merge_sort kv_le (map_to_list m).

Lemma entries_perm m : entries m ≡ₚ map_to_list m.
Proof. apply merge_sort_Permutation. Qed.

Lemma elem_of_entries m k v : (k, v) ∈ entries m ↔ m !! k = Some v.
Proof. rewrite entries_perm. apply elem_of_map_to_list. Qed.

Lemma length_entries m : length (entries m) = size m.
Proof. by rewrite entries_perm, length_map_to_list. Qed.

Lemma ksorted_nodup l : ksorted l → NoDup (l.*1).
Proof.
  induction 1 as [|[k v] l _ IH Hall]; simpl; constructor; [|done].
  intros (p & Hp & Hin)%list_elem_of_fmap. rewrite Forall_forall in Hall.
  apply Hall in Hin. simpl in *. subst. by eapply bytes_lt_irrefl.
Qed.

Lemma kv_le_strict l :
  NoDup (l.*1) → StronglySorted kv_le l → ksorted l.
Proof.
  induction 2 as [|p l _ IH Hall]; [constructor|].
  inversion_clear H as [|? ? Hnotin Hnd]. constructor; [by apply IH|].
  rewrite Forall_forall in *. intros q Hq.
  destruct (proj1 (bytes_le_lt_or_eq _ _) (Hall q Hq)) as [|Heq]; [done|].
  destruct Hnotin. rewrite Heq. by apply list_elem_of_fmap_2.
Qed.

Lemma entries_ksorted m : ksorted (entries m).
Proof.
  apply kv_le_strict.
  - rewrite entries_perm. apply NoDup_fst_map_to_list.
  - apply StronglySorted_merge_sort; apply _.
Qed.

Lemma ksorted_le l : ksorted l → StronglySorted kv_le l.
Proof.
  induction 1 as [|p l _ IH Hall]; constructor; [done|].
  eapply Forall_impl; [done|]. intros q Hq. apply bytes_le_lt_or_eq. by left.
Qed.

Lemma ksorted_lookup_unique l k v1 v2 :
  ksorted l → (k, v1) ∈ l → (k, v2) ∈ l → v1 = v2.
Proof.
  intros Hs H1 H2. apply ksorted_nodup in Hs.
  apply list_elem_of_lookup in H1 as [i Hi]. apply list_elem_of_lookup in H2 as [j Hj].
  assert (i = j) as ->; [|congruence].
  eapply NoDup_lookup; [done|..]; rewrite list_lookup_fmap, ?Hi, ?Hj; done.
Qed.

Lemma ksorted_unique l1 l2 :
  ksorted l1 → ksorted l2 → (∀ p, p ∈ l1 ↔ p ∈ l2) → l1 = l2.
Proof.
  intros H1 H2 Hiff. apply (StronglySorted_unique_strong kv_le).
  - intros [k1 v1] [k2 v2] Hin1 Hin2 Hle1 Hle2. unfold kv_le in *; simpl in *.
    assert (k1 = k2) as <- by (by apply (anti_symm bytes_le)).
    f_equal. eapply (ksorted_lookup_unique l1); [done..|]. by apply Hiff.
  - by apply ksorted_le.
  - by apply ksorted_le.
  - apply NoDup_Permutation; [..|done]; by eapply (NoDup_fmap_1 fst), ksorted_nodup.
Qed.

Lemma entries_unique m l :
  ksorted l → (∀ k v, (k, v) ∈ l ↔ m !! k = Some v) → l = entries m.
Proof.
  intros Hs Hl. apply ksorted_unique; [done|apply entries_ksorted|].
  intros [k v]. by rewrite Hl, elem_of_entries.
Qed.

Lemma entries_empty : entries ∅ = [].
Proof. symmetry. apply entries_unique; [constructor|]. intros. set_solver. Qed.

Lemma ksorted_app l1 l2 :
  ksorted l1 → ksorted l2 → (∀ p q, p ∈ l1 → q ∈ l2 → p.1 <b q.1) → ksorted (l1 ++ l2).
Proof. intros. apply StronglySorted_app_2; auto. Qed.

Lemma ksorted_app_inv l1 l2 :
  ksorted (l1 ++ l2) →
  ksorted l1 ∧ ksorted l2 ∧ ∀ p q, p ∈ l1 → q ∈ l2 → p.1 <b q.1.
Proof. unfold ksorted. rewrite StronglySorted_app. naive_solver. Qed.

Lemma ksorted_filter (P : bytes * V → Prop) `{∀ x, Decision (P x)} l :
  ksorted l → ksorted (filter P l).
Proof.
  induction 1 as [|p l _ IH Hall]; [constructor|].
  rewrite filter_cons. case_decide; [|done]. constructor; [done|].
  rewrite Forall_forall in *. intros q [_ Hq]%list_elem_of_filter. by apply Hall.
Qed.

Lemma ksorted_take n l : ksorted l → ksorted (take n l).
Proof.
  intros Hs. rewrite <-(take_drop n l) in Hs. by apply ksorted_app_inv in Hs as (?&_&_).
Qed.

(** Inserting above every key appends. *)
Lemma entries_insert_last m k v :
  (∀ k', is_Some (m !! k') → k' <b k) →
  entries (<[k := v]> m) = entries m ++ [(k, v)].
Proof.
  intros Hlt. symmetry. apply entries_unique.
  - apply ksorted_app; [apply entries_ksorted|repeat constructor|].
    intros [k1 v1] q Hp ->%list_elem_of_singleton. simpl.
    apply Hlt. apply elem_of_entries in Hp. eauto.
  - intros k1 v1. rewrite elem_of_app, elem_of_entries, list_elem_of_singleton.
    rewrite lookup_insert. case_decide as Hk; [|naive_solver].
    subst. split; [|naive_solver]. intros [Hm|]; [|naive_solver].
    destruct (bytes_lt_irrefl k1). apply Hlt. eauto.
Qed.

Lemma entries_delete m k :
  entries (delete k m) = filter (λ p, p.1 ≠ k) (entries m).
Proof.
  symmetry. apply entries_unique; [apply ksorted_filter, entries_ksorted|].
  intros k1 v1. rewrite list_elem_of_filter, elem_of_entries, lookup_delete.
  case_decide; naive_solver.
Qed.

(** Overwriting an existing key keeps its place. *)
Lemma entries_insert_existing m k v :
  is_Some (m !! k) →
  entries (<[k := v]> m) =
    (λ p, if decide (p.1 = k) then (k, v) else p) <$> entries m.
Proof.
  intros [v0 Hv0]. symmetry. apply entries_unique.
  - assert (∀ p, (if decide (p.1 = k) then (k, v) else p).1 = p.1) as Hfst
      by (intros p; case_decide; by subst).
    eapply StronglySorted_fmap; [|apply entries_ksorted].
    intros p q Hpq. by rewrite !Hfst.
  - intros k1 v1. rewrite list_elem_of_fmap, lookup_insert. split.
    + intros ([k2 v2] & Heq & Hin). apply elem_of_entries in Hin. simpl in *.
      case_decide; simplify_eq; [by rewrite decide_True|by rewrite decide_False].
    + case_decide as Hk; intros Hm.
      * simplify_eq. exists (k1, v0). rewrite elem_of_entries; simpl.
        by rewrite decide_True.
      * exists (k1, v1). rewrite elem_of_entries; simpl. by rewrite decide_False.
Qed.

(** A filtered enumeration is the enumeration of the filtered map. *)
Lemma entries_filter (P : bytes * V → Prop) `{∀ x, Decision (P x)} m :
  filter P (entries m) = entries (filter P m).
Proof.
  apply entries_unique; [apply ksorted_filter, entries_ksorted|].
  intros k v. rewrite list_elem_of_filter, elem_of_entries, map_lookup_filter_Some.
  naive_solver.
Qed.

(** The rows a cut at a key keeps form a final segment. *)
Lemma ksorted_filter_ge_app l1 l2 k :
  ksorted (l1 ++ l2) →
  (∀ p, p ∈ l1 → p.1 <b k) → (∀ p, p ∈ l2 → k <=b p.1) →
  filter (λ p, k <=b p.1) (l1 ++ l2) = l2.
Proof.
  intros _ H1 H2. rewrite filter_app.
  assert (filter (λ p, k <=b p.1) l1 = []) as ->.
  { apply filter_none. intros p Hp Hle.
    apply (bytes_lt_irrefl k). eauto using bytes_le_lt_trans. }
  by apply filter_all.
Qed.
End ordered.

#[export] Hint Resolve entries_ksorted ksorted_filter ksorted_take : lite.

(** ** Stable sorting

    [slice::sort_by] and its kin are stable: elements the order finds equal keep their
    places. *)
Section stable_sort.
Context {A : Type} (R : relation A) `{!RelDecision R}.

(** Before the first element that is not smaller. *)
Fixpoint insert_stable (x : A) (l : list A) : list A :=
  match l with
  | [] => [x]
  | y :: l' => if decide (R x y) then x :: l else y :: insert_stable x l'
  end.

Definition stable_sort (l : list A) : list A := foldr insert_stable [] l.

Lemma insert_stable_perm x l : insert_stable x l ≡ₚ x :: l.
Proof.
  induction l as [|y l IH]; simpl; [done|]. case_decide; [done|]. rewrite IH. constructor.
Qed.

Lemma stable_sort_perm l : stable_sort l ≡ₚ l.
Proof. induction l as [|x l IH]; simpl; [done|]. by rewrite insert_stable_perm, IH. Qed.

(** A list in order stays as it is. *)
Lemma stable_sort_id l : StronglySorted R l → stable_sort l = l.
Proof.
  induction 1 as [|x l Hs IH Hall]; simpl; [done|]. rewrite IH.
  destruct l as [|y l]; simpl; [done|]. apply Forall_cons in Hall as [Hxy _]. by rewrite decide_True.
Qed.

Lemma insert_stable_sorted `{!Total R} (P : A → Prop) x l :
  (∀ a b c, P a → P b → P c → R a b → R b c → R a c) → P x → Forall P l →
  StronglySorted R l → StronglySorted R (insert_stable x l).
Proof.
  intros Ht Hx Hp Hs. induction Hs as [|y l Hs IH Hall]; simpl; [repeat constructor|].
  apply Forall_cons in Hp as [Hy Hp]. case_decide as Hxy.
  - constructor; [by constructor|]. constructor; [done|].
    rewrite Forall_forall in *. intros z Hz. apply (Ht x y z); auto.
  - apply total_not in Hxy. constructor; [by apply IH|].
    rewrite insert_stable_perm. by constructor.
Qed.

(** The result is in order when the order is one on the elements. *)
Lemma stable_sort_sorted_on `{!Total R} (P : A → Prop) l :
  (∀ a b c, P a → P b → P c → R a b → R b c → R a c) → Forall P l → StronglySorted R (stable_sort l).
Proof.
  intros Ht Hp. induction Hp as [|x l Hx Hp IH]; simpl; [constructor|].
  apply (insert_stable_sorted P); [done|done|by rewrite stable_sort_perm|done].
Qed.

Lemma stable_sort_sorted `{!Total R, !Transitive R} l : StronglySorted R (stable_sort l).
Proof.
  apply (stable_sort_sorted_on (λ _, True)); [|by apply Forall_true].
  intros a b c _ _ _. apply transitivity.
Qed.
End stable_sort.

(** ** Scans of a prefix *)

Lemma prefix_between p a b :
  p <=b a → a <b b → starts_with p b = true → starts_with p a = true.
Proof.
  intros Hpa Hab [r ->]%starts_with_spec. apply starts_with_spec.
  revert a Hpa Hab. unfold bytes_le, bytes_lt.
  induction p as [|x p IH]; intros [|y a] Hpa Hab; [by exists []|by exists (y :: a)|done|].
  cbn [bytes_cmp app] in *. destruct (Z.compare_spec (bz x) (bz y)) as [Heq| |].
  - apply (inj bz) in Heq as ->. rewrite Z.compare_refl in Hab. destruct (IH a) as [r' ->]; [done|done|].
    by exists r'.
  - destruct (Z.compare_spec (bz y) (bz x)); [lia|lia|done].
  - done.
Qed.

(** In a sorted list of keys from the prefix on, the rows under the prefix come
    first: stopping at the first other key is filtering. *)
Lemma take_while_prefix {V} (l : list (bytes * V)) p :
  ksorted l → (∀ q, q ∈ l → p <=b q.1) →
  take_while (λ q, starts_with p q.1) l = filter (λ q, starts_with p q.1 = true) l.
Proof.
  induction 1 as [|q l _ IH Hall]; intros Hge; [done|]. cbn [take_while]. rewrite filter_cons.
  destruct (starts_with p q.1) eqn:Hq.
  - rewrite decide_True by done. f_equal. apply IH. intros r Hr. apply Hge, elem_of_cons. by right.
  - rewrite decide_False by done. symmetry. apply filter_none. intros r Hr Hp.
    rewrite Forall_forall in Hall. specialize (Hall r Hr).
    assert (starts_with p q.1 = true) as H; [|congruence].
    eapply prefix_between; [apply Hge, elem_of_cons; by left|done|done].
Qed.

(** ** Hash maps

    The iteration order of a [HashMap] is a parameter: any order of the entries,
    which may differ from one map to the next (the first two arguments tell the maps
    of a program apart). *)
Class HashOrder := {
  hash_iter : ∀ {K A} `{Countable K}, nat → nat → gmap K A → list (K * A);
  hash_iter_perm {K A} `{Countable K} i j (m : gmap K A) : hash_iter i j m ≡ₚ map_to_list m
}.
