(* ===== verification/Text.v ===== *)
(** * Text: UTF-8, number formatting and parsing

    The pieces of the Rust standard library the key codecs use: UTF-8 validation
    ([str::from_utf8]), [{:016x}] and [{:020}] formatting,
    [u64::from_str_radix(_, 16)], [str::parse::<i64>] and [str::trim].  A
    [String] or [&str] is its UTF-8 bytes. *)

From Stdlib Require Import ZArith Lia Strings.Byte.
From stdpp Require Import prelude gmap sorting.
From S2P Require Import Prelude Bytes.

Local Open Scope Z_scope.

(** ** UTF-8 *)

Definition in_range (b : byte) (lo hi : Z) : bool := (lo <=? bz b) && (bz b <=? hi).
Definition cont (b : byte) : bool := in_range b 0x80 0xBF.

(** The bytes after one well-formed UTF-8 character, byte ranges as in Unicode
    table 3-7. *)
Definition utf8_char (l : bytes) : option bytes :=
  match l with
  | b0 :: l1 =>
    if bz b0 <? 0x80 then Some l1
    else match l1 with
    | b1 :: l2 =>
      if in_range b0 0xC2 0xDF then (if cont b1 then Some l2 else None)
      else match l2 with
      | b2 :: l3 =>
        if in_range b0 0xE0 0xE0 then (if in_range b1 0xA0 0xBF && cont b2 then Some l3 else None)
        else if in_range b0 0xED 0xED then (if in_range b1 0x80 0x9F && cont b2 then Some l3 else None)
        else if in_range b0 0xE1 0xEF then (if cont b1 && cont b2 then Some l3 else None)
        else match l3 with
        | b3 :: l4 =>
          let tail := cont b2 && cont b3 in
          if in_range b0 0xF0 0xF0 then (if in_range b1 0x90 0xBF && tail then Some l4 else None)
          else if in_range b0 0xF1 0xF3 then (if cont b1 && tail then Some l4 else None)
          else if in_range b0 0xF4 0xF4 then (if in_range b1 0x80 0x8F && tail then Some l4 else None)
          else None
        | [] => None
        end
      | [] => None
      end
    | [] => None
    end
  | [] => None
  end.

(** Each character takes a byte, so the length of the input is enough fuel. *)
Fixpoint utf8_chars (fuel : nat) (l : bytes) : bool :=
  match l, fuel with
  | [], _ => true
  | _, O => false
  | _, S n => match utf8_char l with Some r => utf8_chars n r | None => false end
  end.

Definition utf8_valid (l : bytes) : bool := utf8_chars (length l) l.

(** [str::from_utf8(bytes).ok()]. *)
Definition from_utf8 (l : bytes) : option bytes :=
  if utf8_valid l then Some l else None.

Lemma utf8_char_app l r t : utf8_char l = Some r → utf8_char (l ++ t) = Some (r ++ t).
Proof.
  destruct l as [|b0 [|b1 [|b2 [|b3 l]]]]; simpl; repeat case_match; naive_solver.
Qed.

Lemma utf8_char_length l r : utf8_char l = Some r → (length r < length l)%nat.
Proof.
  destruct l as [|b0 [|b1 [|b2 [|b3 l]]]]; simpl; repeat case_match;
    intros ?; simplify_eq; simpl; lia.
Qed.

Lemma utf8_chars_fuel n1 n2 l :
  (length l ≤ n1)%nat → (length l ≤ n2)%nat → utf8_chars n1 l = utf8_chars n2 l.
Proof.
  revert n2 l. induction n1 as [|n1 IH]; intros [|n2] [|b l] H1 H2;
    simpl in H1, H2; try done; try lia. cbn [utf8_chars].
  destruct (utf8_char (b :: l)) as [r|] eqn:Hr; [|done].
  apply utf8_char_length in Hr. simpl in Hr. apply IH; lia.
Qed.

Lemma utf8_valid_cons l r : utf8_char l = Some r → utf8_valid l = utf8_valid r.
Proof.
  intros H. unfold utf8_valid. destruct l as [|b l]; [done|].
  cbn [length utf8_chars]. rewrite H. apply utf8_char_length in H. simpl in H.
  apply utf8_chars_fuel; lia.
Qed.

Lemma utf8_valid_app a b : utf8_valid a = true → utf8_valid (a ++ b) = utf8_valid b.
Proof.
  remember (length a) as n eqn:Hn. revert a Hn.
  induction (lt_wf n) as [n _ IH]. intros [|b0 a] -> Ha; [done|].
  destruct (utf8_char (b0 :: a)) as [r|] eqn:Hr.
  - rewrite (utf8_valid_cons _ (r ++ b)) by (by apply utf8_char_app).
    eapply IH; [|done|]; [by apply utf8_char_length in Hr|].
    by rewrite <-(utf8_valid_cons _ _ Hr).
  - unfold utf8_valid in Ha. cbn [length utf8_chars] in Ha. by rewrite Hr in Ha.
Qed.

Definition ascii_byte (b : byte) : bool := bz b <? 0x80.

Lemma utf8_ascii l : Forall (λ b, ascii_byte b = true) l → utf8_valid l = true.
Proof.
  unfold ascii_byte. induction 1 as [|b l Hb _ IH]; [done|].
  rewrite (utf8_valid_cons _ l); [done|]. simpl. by rewrite Hb.
Qed.

Lemma utf8_app a b : utf8_valid a = true → utf8_valid b = true → utf8_valid (a ++ b) = true.
Proof. intros. by rewrite utf8_valid_app. Qed.

(** ** Digits *)

(** The character of a digit below 16, lowercase. *)
Definition digit_char (d : Z) : byte := if d <? 10 then zb (48 + d) else zb (87 + d).

(** [char::to_digit(radix)]: upper and lower case letters. *)
Definition to_digit (r : Z) (b : byte) : option Z :=
  let c := bz b in
  let d :=
    if (48 <=? c) && (c <=? 57) then c - 48
    else if (97 <=? c) && (c <=? 122) then c - 87
    else if (65 <=? c) && (c <=? 90) then c - 55
    else 255 in
  if d <? r then Some d else None.

(** [n] digits of [z] in radix [r], most significant first. *)
Fixpoint digits (r : Z) (n : nat) (z : Z) : bytes :=
  match n with
  | O => []
  | S n' => digit_char ((z / r ^ Z.of_nat n') mod r) :: digits r n' z
  end.

(** [{z:016x}] for a [u64]: sixteen digits always suffice. *)
Definition fmt_hex16 (z : Z) : bytes := digits 16 16 z.

(** [{z:020}] for an [i64]: zero padding comes after the sign. *)
Definition fmt_dec20 (z : Z) : bytes :=
  if z <? 0 then x2d :: digits 10 19 (- z) else digits 10 20 z.

(** The accumulation loop of [from_str_radix]: checked multiply, then checked
    add ([neg = false]) or subtract. *)
Fixpoint parse_digits (r lo hi : Z) (neg : bool) (acc : Z) (l : bytes) : option Z :=
  match l with
  | [] => Some acc
  | b :: l' =>
      match to_digit r b with
      | None => None
      | Some d =>
          let acc' := acc * r in
          if (acc' <? lo) || (hi <? acc') then None
          else
            let acc'' := if neg then acc' - d else acc' + d in
            if (acc'' <? lo) || (hi <? acc'') then None
            else parse_digits r lo hi neg acc'' l'
      end
  end.

(** [u64::from_str_radix(s, r)]. *)
Definition parse_u64 (r : Z) (s : bytes) : option Z :=
  match s with
  | [] => None
  | [x2b] | [x2d] => None
  | x2b :: ds => parse_digits r 0 u64_max false 0 ds
  | _ => parse_digits r 0 u64_max false 0 s
  end.

(** [s.parse::<i64>()]. *)
Definition parse_i64 (s : bytes) : option Z :=
  match s with
  | [] => None
  | [x2b] | [x2d] => None
  | x2b :: ds => parse_digits 10 i64_min i64_max false 0 ds
  | x2d :: ds => parse_digits 10 i64_min i64_max true 0 ds
  | _ => parse_digits 10 i64_min i64_max false 0 s
  end.

Lemma length_digits r n z : length (digits r n z) = n.
Proof. induction n; simpl; auto. Qed.

Lemma length_fmt_hex16 z : length (fmt_hex16 z) = 16%nat.
Proof. apply length_digits. Qed.

Lemma length_fmt_dec20 z : length (fmt_dec20 z) = 20%nat.
Proof. unfold fmt_dec20. destruct (z <? 0); cbn [length]; by rewrite length_digits. Qed.

Lemma bz_digit_char d : 0 ≤ d < 16 → bz (digit_char d) = if d <? 10 then 48 + d else 87 + d.
Proof.
  intros. unfold digit_char. destruct (Z.ltb_spec d 10); rewrite bz_zb_small; lia.
Qed.

Lemma to_digit_char r d : 0 ≤ d < r → r ≤ 16 → to_digit r (digit_char d) = Some d.
Proof.
  intros. unfold to_digit. rewrite bz_digit_char by lia.
  destruct (Z.ltb_spec d 10).
  - rewrite (proj2 (Z.leb_le 48 _)) by lia. rewrite (proj2 (Z.leb_le _ 57)) by lia. simpl.
    replace (48 + d - 48) with d by lia. by rewrite (proj2 (Z.ltb_lt _ _)) by lia.
  - rewrite (proj2 (Z.leb_gt _ 57)) by lia. rewrite andb_false_r.
    rewrite (proj2 (Z.leb_le 97 _)) by lia. rewrite (proj2 (Z.leb_le _ 122)) by lia. simpl.
    replace (87 + d - 87) with d by lia. by rewrite (proj2 (Z.ltb_lt _ _)) by lia.
Qed.

(** Parsing the [n] low digits of [z] onto an accumulator that stays in range. *)
Lemma parse_digits_fmt r lo hi (neg : bool) n z acc :
  2 ≤ r ≤ 16 → lo ≤ 0 ≤ hi → 0 ≤ z →
  (if neg then acc ≤ 0 else 0 ≤ acc) →
  (let m := z mod r ^ Z.of_nat n in
   let v := acc * r ^ Z.of_nat n + (if neg then - m else m) in
   lo ≤ v ≤ hi →
   parse_digits r lo hi neg acc (digits r n z) = Some v).
Proof.
  intros Hr Hb Hz. revert acc. induction n as [|n IH]; intros acc Hacc m v Hv; subst m v.
  { cbn [digits parse_digits]. change (r ^ Z.of_nat 0) with 1 in *.
    rewrite Z.mod_1_r. f_equal. destruct neg; lia. }
  assert (0 < r ^ Z.of_nat n) as Hpos by (apply Z.pow_pos_nonneg; lia).
  assert (r ^ Z.of_nat (S n) = r * r ^ Z.of_nat n) as HS
    by (rewrite Nat2Z.inj_succ, Z.pow_succ_r; lia).
  set (P := r ^ Z.of_nat n) in *. set (d := (z / P) mod r).
  assert (0 ≤ d < r) as Hd by (apply Z.mod_pos_bound; lia).
  assert (z mod (r ^ Z.of_nat (S n)) = z mod P + P * d) as Hmod.
  { rewrite HS, Z.mul_comm. rewrite Z.rem_mul_r by lia. done. }
  pose proof (Z.mod_pos_bound z P Hpos) as Hm.
  rewrite HS in Hv. rewrite HS in Hmod. rewrite Hmod in Hv.
  cbn [digits parse_digits]. fold P. fold d. rewrite to_digit_char by lia.
  assert ((acc * r <? lo) || (hi <? acc * r) = false) as ->.
  { apply orb_false_iff. rewrite !Z.ltb_ge. destruct neg; nia. }
  set (acc' := if neg then acc * r - d else acc * r + d).
  assert (acc * (r * P) + (if neg then - (z mod P + P * d) else z mod P + P * d) =
          acc' * P + (if neg then - (z mod P) else z mod P)) as Heq.
  { subst acc'. destruct neg; ring. }
  rewrite Heq in Hv.
  assert ((acc' <? lo) || (hi <? acc') = false) as ->.
  { apply orb_false_iff. rewrite !Z.ltb_ge. subst acc'. destruct neg; nia. }
  rewrite HS, Hmod, Heq. apply IH; [|done]. subst acc'. destruct neg; nia.
Qed.

Lemma digits_ascii r n z : 2 ≤ r ≤ 16 → Forall (λ b, ascii_byte b = true) (digits r n z).
Proof.
  intros Hr. induction n as [|n IH]; simpl; constructor; [|done].
  unfold ascii_byte. pose proof (Z.mod_pos_bound (z / r ^ Z.of_nat n) r ltac:(lia)).
  rewrite bz_digit_char by lia. case_match; apply Z.ltb_lt; lia.
Qed.

(** A digit string starts and contains neither sign characters nor NUL. *)
Definition digit_byte (b : byte) : Prop := (48 ≤ bz b ≤ 57) ∨ (97 ≤ bz b ≤ 102).

Lemma digits_bytes r n z : 2 ≤ r ≤ 16 → Forall digit_byte (digits r n z).
Proof.
  intros Hr. induction n as [|n IH]; simpl; constructor; [|done].
  unfold digit_byte. pose proof (Z.mod_pos_bound (z / r ^ Z.of_nat n) r ltac:(lia)).
  rewrite bz_digit_char by lia. case_match eqn:Hd; lia.
Qed.

Lemma parse_u64_digit_string r s :
  s ≠ [] → Forall digit_byte s → parse_u64 r s = parse_digits r 0 u64_max false 0 s.
Proof.
  destruct s as [|b s]; [done|]. intros _ [Hb _]%Forall_cons.
  unfold digit_byte in Hb. assert (b ≠ x2b ∧ b ≠ x2d) as [].
  { split; intros ->; unfold bz in Hb; simpl in Hb; lia. }
  destruct b; try done; by destruct s.
Qed.

Lemma parse_i64_digit_string s :
  s ≠ [] → Forall digit_byte s → parse_i64 s = parse_digits 10 i64_min i64_max false 0 s.
Proof.
  destruct s as [|b s]; [done|]. intros _ [Hb _]%Forall_cons.
  unfold digit_byte in Hb. assert (b ≠ x2b ∧ b ≠ x2d) as [].
  { split; intros ->; unfold bz in Hb; simpl in Hb; lia. }
  destruct b; try done; by destruct s.
Qed.

(** [u64::from_str_radix(&format!("{z:016x}"), 16) == Ok(z)]. *)
Lemma parse_fmt_hex16 z : u64_ok z → parse_u64 16 (fmt_hex16 z) = Some z.
Proof.
  intros Hz. rewrite parse_u64_digit_string; [|done|by apply digits_bytes].
  unfold fmt_hex16.
  rewrite (parse_digits_fmt 16 0 u64_max false 16 z 0); rewrite ?Z.mod_small;
    try (change (16 ^ Z.of_nat 16) with (2 ^ 64)); try (f_equal; lia); arith.
Qed.

(** [format!("{z:020}").parse::<i64>() == Ok(z)]. *)
Lemma parse_fmt_dec20 z : i64_ok z → parse_i64 (fmt_dec20 z) = Some z.
Proof.
  intros Hz. unfold fmt_dec20. destruct (Z.ltb_spec z 0).
  - transitivity (parse_digits 10 i64_min i64_max true 0 (digits 10 19 (- z))); [done|].
    assert (- z < 10 ^ Z.of_nat 19) by (change (10 ^ Z.of_nat 19) with 10000000000000000000; arith).
    rewrite (parse_digits_fmt 10 i64_min i64_max true 19 (- z) 0); rewrite ?Z.mod_small;
      try (f_equal; lia); arith.
  - rewrite parse_i64_digit_string; [|done|by apply digits_bytes].
    assert (z < 10 ^ Z.of_nat 20) by (change (10 ^ Z.of_nat 20) with 100000000000000000000; arith).
    rewrite (parse_digits_fmt 10 i64_min i64_max false 20 z 0); rewrite ?Z.mod_small;
      try (f_equal; lia); arith.
Qed.

(** Fixed-width digit strings sort as the numbers do. *)
Lemma digit_char_cmp d1 d2 :
  0 ≤ d1 < 16 → 0 ≤ d2 < 16 → (bz (digit_char d1) ?= bz (digit_char d2)) = (d1 ?= d2).
Proof.
  intros. rewrite !bz_digit_char by done.
  destruct (Z.ltb_spec d1 10), (Z.ltb_spec d2 10), (Z.compare_spec d1 d2);
    first [apply Z.compare_eq_iff|apply Z.compare_lt_iff|apply Z.compare_gt_iff]; lia.
Qed.

Lemma digits_cmp r n z1 z2 :
  2 ≤ r ≤ 16 →
  bytes_cmp (digits r n z1) (digits r n z2) =
    (z1 mod r ^ Z.of_nat n ?= z2 mod r ^ Z.of_nat n).
Proof.
  intros Hr. induction n as [|n IH]; [by rewrite !Z.mod_1_r|].
  assert (0 < r ^ Z.of_nat n) as Hpos by (apply Z.pow_pos_nonneg; lia).
  rewrite Nat2Z.inj_succ, Z.pow_succ_r, (Z.mul_comm r), !Z.rem_mul_r by lia.
  cbn [digits bytes_cmp]. set (P := r ^ Z.of_nat n) in *.
  pose proof (Z.mod_pos_bound (z1 / P) r ltac:(lia)).
  pose proof (Z.mod_pos_bound (z2 / P) r ltac:(lia)).
  pose proof (Z.mod_pos_bound z1 P ltac:(lia)). pose proof (Z.mod_pos_bound z2 P ltac:(lia)).
  rewrite digit_char_cmp by lia. rewrite IH. fold P.
  destruct (Z.compare_spec ((z1 / P) mod r) ((z2 / P) mod r)) as [Hd|Hd|Hd]; symmetry.
  - rewrite Hd. destruct (Z.compare_spec (z1 mod P) (z2 mod P));
      [apply Z.compare_eq_iff|apply Z.compare_lt_iff|apply Z.compare_gt_iff]; lia.
  - apply Z.compare_lt_iff. nia.
  - apply Z.compare_gt_iff. nia.
Qed.

Lemma fmt_hex16_cmp z1 z2 :
  u64_ok z1 → u64_ok z2 → bytes_cmp (fmt_hex16 z1) (fmt_hex16 z2) = (z1 ?= z2).
Proof.
  intros. unfold fmt_hex16. rewrite digits_cmp by lia.
  change (16 ^ Z.of_nat 16) with (2 ^ 64). rewrite !Z.mod_small by arith. done.
Qed.

Lemma fmt_hex16_inj z1 z2 : u64_ok z1 → u64_ok z2 → fmt_hex16 z1 = fmt_hex16 z2 → z1 = z2.
Proof.
  intros H1 H2 H. apply (f_equal (parse_u64 16)) in H.
  rewrite !parse_fmt_hex16 in H by done. congruence.
Qed.

Lemma fmt_dec20_cmp_nonneg z1 z2 :
  0 ≤ z1 ≤ i64_max → 0 ≤ z2 ≤ i64_max → bytes_cmp (fmt_dec20 z1) (fmt_dec20 z2) = (z1 ?= z2).
Proof.
  intros. unfold fmt_dec20. rewrite !(proj2 (Z.ltb_ge _ _)) by lia. rewrite digits_cmp by lia.
  change (10 ^ Z.of_nat 20) with 100000000000000000000.
  rewrite !Z.mod_small by arith. done.
Qed.

(** Among negative numbers the padded decimal order is the reverse order. *)
Lemma fmt_dec20_cmp_neg z1 z2 :
  i64_min ≤ z1 < 0 → i64_min ≤ z2 < 0 → bytes_cmp (fmt_dec20 z1) (fmt_dec20 z2) = (z2 ?= z1).
Proof.
  intros. unfold fmt_dec20. rewrite !(proj2 (Z.ltb_lt _ _)) by lia.
  cbn [bytes_cmp]. rewrite Z.compare_refl, digits_cmp by lia.
  change (10 ^ Z.of_nat 19) with 10000000000000000000.
  rewrite !Z.mod_small by arith. apply Z.compare_opp.
Qed.

Lemma fmt_dec20_inj z1 z2 : i64_ok z1 → i64_ok z2 → fmt_dec20 z1 = fmt_dec20 z2 → z1 = z2.
Proof.
  intros H1 H2 H. apply (f_equal parse_i64) in H.
  rewrite !parse_fmt_dec20 in H by done. congruence.
Qed.

Lemma fmt_dec20_ascii z : Forall (λ b, ascii_byte b = true) (fmt_dec20 z).
Proof. unfold fmt_dec20. case_match; [constructor; [done|]|]; apply digits_ascii; lia. Qed.

Lemma fmt_hex16_ascii z : Forall (λ b, ascii_byte b = true) (fmt_hex16 z).
Proof. apply digits_ascii. lia. Qed.

(** ** Trimming *)

(** The input after one leading character with the Unicode [White_Space]
    property, if it starts with one. *)
Definition strip_ws (l : bytes) : option bytes :=
  match l with
  | (x09 | x0a | x0b | x0c | x0d | x20) :: r => Some r
  | xc2 :: (x85 | xa0) :: r => Some r
  | xe1 :: x9a :: x80 :: r => Some r
  | xe2 :: x80 :: b :: r =>
      if in_range b 0x80 0x8A || in_range b 0xA8 0xA9 || in_range b 0xAF 0xAF
      then Some r else None
  | xe2 :: x81 :: x9f :: r => Some r
  | xe3 :: x80 :: x80 :: r => Some r
  | _ => None
  end.

(** The same at the end of the text, on the reversed bytes. *)
Definition ascii_ws (b : byte) : bool :=
  match b with x09 | x0a | x0b | x0c | x0d | x20 => true | _ => false end.

Definition strip_wide_ws_rev (l : bytes) : option bytes :=
  match l with
  | (x85 | xa0) :: xc2 :: r => Some r
  | x80 :: x9a :: xe1 :: r => Some r
  | x9f :: x81 :: xe2 :: r => Some r
  | x80 :: x80 :: xe3 :: r => Some r
  | b :: x80 :: xe2 :: r =>
      if in_range b 0x80 0x8A || in_range b 0xA8 0xA9 || in_range b 0xAF 0xAF
      then Some r else None
  | _ => None
  end.

Definition strip_ws_rev (l : bytes) : option bytes :=
  match l with
  | b :: r =>
      if ascii_ws b then Some r
      else if ascii_byte b then None
      else strip_wide_ws_rev l
  | [] => None
  end.

Fixpoint strip_all (strip : bytes → option bytes) (fuel : nat) (l : bytes) : bytes :=
  match fuel, strip l with
  | S n, Some r => strip_all strip n r
  | _, _ => l
  end.

(** [str::trim]. Every stripped character takes a byte. *)
Definition trim (l : bytes) : bytes :=
  let l1 := strip_all strip_ws (length l) l in
  reverse (strip_all strip_ws_rev (length l1) (reverse l1)).

(** Text that starts and ends with a sign or digit is its own trim. *)
Definition sign_or_digit (b : byte) : Prop := b = x2d ∨ digit_byte b.

Lemma strip_ws_sign_or_digit b l : sign_or_digit b → strip_ws (b :: l) = None.
Proof. intros [->|H]; [done|]. destruct b; try done; unfold digit_byte, bz in H; simpl in H; lia. Qed.

Lemma strip_ws_rev_sign_or_digit b l : sign_or_digit b → strip_ws_rev (b :: l) = None.
Proof. intros [->|H]; [done|]. destruct b; try done; unfold digit_byte, bz in H; simpl in H; lia. Qed.

Lemma strip_all_none strip n l : strip l = None → strip_all strip n l = l.
Proof. intros H. destruct n; simpl; [done|by rewrite H]. Qed.

Lemma trim_id l : l ≠ [] → Forall sign_or_digit l → trim l = l.
Proof.
  intros Hne Hl. unfold trim. rewrite (strip_all_none strip_ws).
  2:{ destruct l as [|b l]; [by destruct Hne|]. apply Forall_cons in Hl as [Hb _].
      by apply strip_ws_sign_or_digit. }
  rewrite strip_all_none; [apply reverse_involutive|].
  rewrite <-Forall_reverse in Hl. destruct (reverse l) as [|b r] eqn:Hr.
  { destruct Hne. by rewrite <-(reverse_involutive l), Hr. }
  apply Forall_cons in Hl as [Hb _]. by apply strip_ws_rev_sign_or_digit.
Qed.

Lemma fmt_dec20_sign_or_digit z : Forall sign_or_digit (fmt_dec20 z).
Proof.
  unfold fmt_dec20. case_match; [constructor; [by left|]|];
    (eapply Forall_impl; [apply digits_bytes; lia|by right]).
Qed.

Lemma trim_fmt_dec20 z : trim (fmt_dec20 z) = fmt_dec20 z.
Proof.
  apply trim_id; [|apply fmt_dec20_sign_or_digit].
  intros H%(f_equal length). by rewrite length_fmt_dec20 in H.
Qed.

#[global] Arguments digits : simpl never.
#[global] Arguments fmt_hex16 : simpl never.
#[global] Arguments fmt_dec20 : simpl never.

#[global] Arguments fmt_hex16 : simpl never.
#[global] Arguments fmt_dec20 : simpl never.
#[global] Arguments parse_u64 : simpl never.
#[global] Arguments parse_i64 : simpl never.

(** ** Integers without padding *)

(** The decimal digits of a number that has at most [n] of them. *)
Fixpoint dec_digits (n : nat) (z : Z) : bytes :=
  match n with
  | O => []
  | S n' => (if z <? 10 then [] else dec_digits n' (z / 10)) ++ [zb (48 + z mod 10)]
  end.

(** [{z}] for a 64-bit integer: twenty digits always suffice. *)
Definition fmt_int (z : Z) : bytes :=
  if z <? 0 then x2d :: dec_digits 20 (- z) else dec_digits 20 z.

Definition dec_value (l : bytes) : Z := foldl (λ a b, 10 * a + (bz b - 48)) 0 l.

Lemma dec_value_digits n z : 0 ≤ z < 10 ^ Z.of_nat n → dec_value (dec_digits n z) = z.
Proof.
  revert z. induction n as [|n IH]; intros z Hz; [unfold dec_value; simpl in *; lia|].
  cbn [dec_digits]. unfold dec_value. rewrite foldl_app. fold (dec_value (if z <? 10 then [] else dec_digits n (z / 10))).
  cbn [foldl]. pose proof (Z.mod_pos_bound z 10 ltac:(lia)). pose proof (Z.div_mod z 10 ltac:(lia)).
  rewrite bz_zb_small by lia.
  assert (dec_value (if z <? 10 then [] else dec_digits n (z / 10)) = z / 10) as ->; [|lia].
  destruct (Z.ltb_spec z 10); [unfold dec_value; simpl; rewrite Z.div_small; lia|].
  rewrite Nat2Z.inj_succ, Z.pow_succ_r in Hz by lia. apply IH. split; [apply Z.div_pos; lia|].
  apply Z.div_lt_upper_bound; lia.
Qed.

Lemma dec_digits_range n z : Forall (λ b, 48 ≤ bz b ≤ 57) (dec_digits n z).
Proof.
  revert z. induction n as [|n IH]; intros z; [constructor|]. cbn [dec_digits]. apply Forall_app. split.
  - destruct (z <? 10); [constructor|apply IH].
  - constructor; [|constructor]. pose proof (Z.mod_pos_bound z 10 ltac:(lia)). rewrite bz_zb_small; lia.
Qed.

(** The characters of an integer: digits and the minus sign. *)
Lemma fmt_int_chars z : Forall (λ b, 48 ≤ bz b ≤ 57 ∨ b = x2d) (fmt_int z).
Proof.
  assert (∀ w, Forall (λ b, 48 ≤ bz b ≤ 57 ∨ b = x2d) (dec_digits 20 w)) as Hd.
  { intros w. eapply Forall_impl; [apply dec_digits_range|]. by left. }
  unfold fmt_int. destruct (z <? 0); [constructor; [by right|]|]; apply Hd.
Qed.

Lemma fmt_int_inj z1 z2 :
  - 10 ^ 19 ≤ z1 < 10 ^ 19 → - 10 ^ 19 ≤ z2 < 10 ^ 19 → fmt_int z1 = fmt_int z2 → z1 = z2.
Proof.
  assert (∀ w, x2d ∉ dec_digits 20 w) as Hno.
  { intros w Hin. pose proof (dec_digits_range 20 w) as Hr. rewrite Forall_forall in Hr.
    specialize (Hr _ Hin). change (bz x2d) with 45 in Hr. lia. }
  intros H1 H2. unfold fmt_int. destruct (Z.ltb_spec z1 0), (Z.ltb_spec z2 0); intros He.
  - assert (dec_digits 20 (- z1) = dec_digits 20 (- z2)) as Hd by congruence.
    apply (f_equal dec_value) in Hd. rewrite !dec_value_digits in Hd by lia. lia.
  - destruct (Hno z2). rewrite <-He. apply elem_of_cons. by left.
  - destruct (Hno z1). rewrite He. apply elem_of_cons. by left.
  - apply (f_equal dec_value) in He. rewrite !dec_value_digits in He by lia. done.
Qed.
#[global] Arguments fmt_int : simpl never.
