(* ===== verification/F64.v ===== *)
(** * 64-bit floating point

    Rust's [f64] for the parts of the program that compare, encode or average
    floating-point numbers.  A value is either its 64-bit pattern
    ([f64::to_bits]) or the Standard Library's [spec_float]; [sf_of_bits] decodes
    the IEEE 754 binary64 layout.  Arithmetic is [SpecFloat]'s with precision 53
    and maximal exponent 1024, round to nearest even. *)

From Stdlib Require Import ZArith Lia Floats.SpecFloat.
From stdpp Require Import prelude.
From S2P Require Import Prelude.

Local Open Scope Z_scope.

Definition f64_sign_bit : Z := 2 ^ 63.
(** The pattern of positive infinity: every exponent bit, no mantissa bit. *)
Definition f64_inf_mag : Z := 2047 * 2 ^ 52.

(** The value of a pattern without its sign bit. *)
Definition sf_of_mag (s : bool) (a : Z) : spec_float :=
  let e := a / 2 ^ 52 in
  let m := a mod 2 ^ 52 in
  if e =? 0 then
    if m =? 0 then S754_zero s else S754_finite s (Z.to_pos m) (-1074)
  else if e =? 2047 then
    if m =? 0 then S754_infinity s else S754_nan
  else S754_finite s (Z.to_pos (2 ^ 52 + m)) (e - 1075).

Definition f64_negative (bits : Z) : bool := f64_sign_bit <=? bits.
Definition f64_mag (bits : Z) : Z := bits mod 2 ^ 63.

Definition sf_of_bits (bits : Z) : spec_float :=
  sf_of_mag (f64_negative bits) (f64_mag bits).

(** [f.is_nan()] and [f == 0.0] on patterns. *)
Definition f64_is_nan (bits : Z) : bool := f64_inf_mag <? f64_mag bits.
Definition f64_is_zero (bits : Z) : bool := f64_mag bits =? 0.

Definition bits_of_sf (x : spec_float) : Z :=
  let sign (s : bool) := if s then f64_sign_bit else 0 in
  match x with
  | S754_zero s => sign s
  | S754_infinity s => sign s + f64_inf_mag
  | S754_nan => f64_inf_mag + 2 ^ 51
  | S754_finite s m e =>
      if Z.pos m <? 2 ^ 52 then sign s + Z.pos m
      else sign s + (e + 1075) * 2 ^ 52 + (Z.pos m - 2 ^ 52)
  end.

(** Arithmetic at binary64. *)
Notation f64_add := (SFadd 53 1024).
Notation f64_sub := (SFsub 53 1024).
Notation f64_mul := (SFmul 53 1024).
Notation f64_div := (SFdiv 53 1024).
(** [z as f64] for an integer. *)
Definition f64_of_Z (z : Z) : spec_float := binary_normalize 53 1024 z 0 false.
(** [i as f64], as a pattern. *)
Definition i64_as_f64 (i : Z) : Z := bits_of_sf (f64_of_Z i).

(** [f as u64]: truncation toward zero, saturating; NaN is 0. *)
Definition f64_as_u64 (bits : Z) : Z :=
  match sf_of_bits bits with
  | S754_finite false m e =>
      Z.min (if 0 <=? e then Z.pos m * 2 ^ e else Z.pos m / 2 ^ (- e)) u64_max
  | S754_infinity false => u64_max
  | _ => 0
  end.

(** [f >= 0.0] and [f.is_finite()] on patterns. *)
Definition f64_ge_zero (bits : Z) : bool :=
  negb (f64_is_nan bits) && (negb (f64_negative bits) || f64_is_zero bits).
Definition f64_is_finite (bits : Z) : bool := f64_mag bits <? f64_inf_mag.

(** ** Comparison is comparison of magnitudes *)

Lemma f64_bits_split bits :
  u64_ok bits →
  bits = (if f64_negative bits then f64_sign_bit else 0) + f64_mag bits ∧
  0 ≤ f64_mag bits < 2 ^ 63.
Proof.
  unfold f64_negative, f64_mag, f64_sign_bit. intros Hb. autounfold with lite_arith in *.
  destruct (Z.leb_spec (2 ^ 63) bits); pose proof (Z.mod_pos_bound bits (2 ^ 63)); split; try lia.
  - rewrite <-(Z.mod_unique bits (2 ^ 63) 1 (bits - 2 ^ 63)); lia.
  - rewrite Z.mod_small; lia.
Qed.

Lemma pos_compare_to_pos a b :
  0 < a → 0 < b → Pos.compare_cont Eq (Z.to_pos a) (Z.to_pos b) = (a ?= b).
Proof.
  intros. change (Pos.compare_cont Eq (Z.to_pos a) (Z.to_pos b))
    with (Z.pos (Z.to_pos a) ?= Z.pos (Z.to_pos b)).
  by rewrite !Z2Pos.id.
Qed.

(** Exponent first, mantissa second: the order of two positive patterns. *)
Lemma mag_lex a b :
  0 ≤ a → 0 ≤ b →
  (a ?= b) = match a / 2 ^ 52 ?= b / 2 ^ 52 with
             | Eq => a mod 2 ^ 52 ?= b mod 2 ^ 52
             | c => c
             end.
Proof.
  intros. pose proof (Z.div_mod a (2 ^ 52) ltac:(lia)). pose proof (Z.div_mod b (2 ^ 52) ltac:(lia)).
  pose proof (Z.mod_pos_bound a (2 ^ 52) ltac:(lia)).
  pose proof (Z.mod_pos_bound b (2 ^ 52) ltac:(lia)).
  destruct (Z.compare_spec (a / 2 ^ 52) (b / 2 ^ 52)) as [He|?|?];
    [destruct (Z.compare_spec (a mod 2 ^ 52) (b mod 2 ^ 52))| | ]; try (rewrite <-He in * );
    [apply Z.compare_eq_iff|apply Z.compare_lt_iff|apply Z.compare_gt_iff
    |apply Z.compare_lt_iff|apply Z.compare_gt_iff]; nia.
Qed.

Definition comp_sign (s : bool) (c : comparison) : comparison := if s then CompOpp c else c.

(** A pattern is zero, finite or infinite; its value in each case. *)
Lemma sf_of_mag_cases s a :
  0 ≤ a ≤ f64_inf_mag →
  (a = 0 ∧ sf_of_mag s a = S754_zero s) ∨
  (a = f64_inf_mag ∧ sf_of_mag s a = S754_infinity s) ∨
  (0 < a < f64_inf_mag ∧ ∃ m e, sf_of_mag s a = S754_finite s (Z.to_pos m) e ∧ 0 < m ∧
     (a / 2 ^ 52 = 0 ∧ m = a mod 2 ^ 52 ∧ e = -1074 ∨
      0 < a / 2 ^ 52 ∧ m = 2 ^ 52 + a mod 2 ^ 52 ∧ e = a / 2 ^ 52 - 1075)).
Proof.
  unfold f64_inf_mag, sf_of_mag. intros Ha.
  pose proof (Z.div_mod a (2 ^ 52) ltac:(lia)) as Hdm.
  pose proof (Z.mod_pos_bound a (2 ^ 52) ltac:(lia)) as Hm.
  assert (0 ≤ a / 2 ^ 52) by (apply Z.div_pos; lia).
  destruct (Z.eqb_spec (a / 2 ^ 52) 0) as [He|He].
  - rewrite He in *. destruct (Z.eqb_spec (a mod 2 ^ 52) 0) as [Hz|Hz]; [left; split; [lia|done]|].
    right; right. split; [lia|]. eexists _, _. split; [done|]. split; [lia|]. left. done.
  - destruct (Z.eqb_spec (a / 2 ^ 52) 2047) as [He'|He'].
    + rewrite He' in Hdm. rewrite (proj2 (Z.eqb_eq (a mod 2 ^ 52) 0)) by lia.
      right; left. split; [lia|done].
    + right; right. split; [nia|]. eexists _, _. split; [done|]. split; [lia|]. right.
      split; [lia|done].
Qed.

Lemma sf_mag_compare s a b :
  0 ≤ a ≤ f64_inf_mag → 0 ≤ b ≤ f64_inf_mag →
  SFcompare (sf_of_mag s a) (sf_of_mag s b) = Some (comp_sign s (a ?= b)).
Proof.
  intros Ha Hb.
  destruct (sf_of_mag_cases s a Ha) as [(Ea & ->)|[(Ea & ->)|(Ra & m1 & e1 & -> & Hm1 & Ca)]];
  destruct (sf_of_mag_cases s b Hb) as [(Eb & ->)|[(Eb & ->)|(Rb & m2 & e2 & -> & Hm2 & Cb)]].
  all: unfold f64_inf_mag in *.
  all: try (destruct (Z.compare_spec a b); destruct s; first [done | exfalso; lia]).
  cbn [SFcompare]. rewrite pos_compare_to_pos by done.
  rewrite (mag_lex a b) by lia.
  pose proof (Z.mod_pos_bound a (2 ^ 52) ltac:(lia)) as HMa.
  pose proof (Z.mod_pos_bound b (2 ^ 52) ltac:(lia)) as HMb.
  assert ((match e1 ?= e2 with Eq => m1 ?= m2 | c => c end) =
          (match a / 2 ^ 52 ?= b / 2 ^ 52 with
           | Eq => a mod 2 ^ 52 ?= b mod 2 ^ 52 | c => c end)) as <-.
  { destruct Ca as [(?&->&->)|(?&->&->)], Cb as [(?&->&->)|(?&->&->)].
    - by rewrite H, H0.
    - destruct (Z.compare_spec (-1074) (b / 2 ^ 52 - 1075)); try lia;
      destruct (Z.compare_spec (a / 2 ^ 52) (b / 2 ^ 52)); try lia; try done.
      apply Z.compare_lt_iff. lia.
    - destruct (Z.compare_spec (a / 2 ^ 52 - 1075) (-1074)); try lia;
      destruct (Z.compare_spec (a / 2 ^ 52) (b / 2 ^ 52)); try lia; try done.
      apply Z.compare_gt_iff. lia.
    - unfold Z.sub. rewrite !(Z.add_comm _ (- (1075))), Z.add_compare_mono_l.
      by rewrite Z.add_compare_mono_l. }
  destruct s, (e1 ?= e2); done.
Qed.

(** The order of the numbers two non-NaN patterns denote. *)
Lemma sf_bits_compare x y :
  u64_ok x → u64_ok y → f64_is_nan x = false → f64_is_nan y = false →
  SFcompare (sf_of_bits x) (sf_of_bits y) =
  Some (if f64_is_zero x && f64_is_zero y then Eq
        else match f64_negative x, f64_negative y with
             | true, false => Lt
             | false, true => Gt
             | s, _ => comp_sign s (f64_mag x ?= f64_mag y)
             end).
Proof.
  unfold f64_is_nan, f64_is_zero, sf_of_bits. intros Hx Hy Nx%Z.ltb_ge Ny%Z.ltb_ge.
  apply f64_bits_split in Hx as [_ Hx]. apply f64_bits_split in Hy as [_ Hy].
  destruct (Bool.bool_dec (f64_negative x) (f64_negative y)) as [Hs|Hs].
  - rewrite <-Hs, sf_mag_compare by lia.
    destruct (Z.eqb_spec (f64_mag x) 0) as [->|], (Z.eqb_spec (f64_mag y) 0) as [->|];
      by destruct (f64_negative x).
  - destruct (sf_of_mag_cases (f64_negative x) (f64_mag x))
      as [(-> & ->)|[(-> & ->)|(? & m1 & e1 & -> & _)]]; [lia|..];
    destruct (sf_of_mag_cases (f64_negative y) (f64_mag y))
      as [(-> & ->)|[(-> & ->)|(? & m2 & e2 & -> & _)]]; try lia;
    destruct (f64_negative x), (f64_negative y); try done; simpl;
    try (rewrite (proj2 (Z.eqb_neq _ _)) by lia); simpl; try done;
    try (rewrite (proj2 (Z.eqb_neq _ _)) by lia); done.
Qed.

(** ** Whole numbers below 2^53 are exact *)

Lemma iter_pos_nat {A} (f : A → A) p x : SpecFloat.iter_pos f p x = Nat.iter (Pos.to_nat p) f x.
Proof.
  revert x. induction p as [p IH|p IH|]; intros x; cbn [SpecFloat.iter_pos]; [| |done]; rewrite !IH, <-Nat.iter_add.
  - rewrite Pos2Nat.inj_xI, Nat.iter_succ_r. f_equal. lia.
  - rewrite Pos2Nat.inj_xO. f_equal. lia.
Qed.

Lemma digits2_log2 p : Z.pos (digits2_pos p) = Z.log2 (Z.pos p) + 1.
Proof.
  induction p as [p IH|p IH|]; simpl digits2_pos; [| |done]; rewrite Pos2Z.inj_succ, IH.
  - rewrite Pos2Z.inj_xI, Z.log2_succ_double by lia. lia.
  - rewrite Pos2Z.inj_xO, Z.log2_double by lia. lia.
Qed.

Lemma shr_exact (n : nat) m :
  0 < m → Nat.iter n shr_1 (Build_shr_record (m * 2 ^ Z.of_nat n) false false)
            = Build_shr_record m false false.
Proof.
  intros Hm. induction n as [|n IH]; [by rewrite Z.mul_1_r|].
  rewrite Nat.iter_succ_r. rewrite <-IH. f_equal.
  rewrite Nat2Z.inj_succ, Z.pow_succ_r by lia.
  assert (0 < m * 2 ^ Z.of_nat n) as Hp by (apply Z.mul_pos_pos; [done|]; apply Z.pow_pos_nonneg; lia).
  replace (m * (2 * 2 ^ Z.of_nat n)) with (2 * (m * 2 ^ Z.of_nat n)) by lia.
  by destruct (m * 2 ^ Z.of_nat n).
Qed.

(** The canonical form of a positive whole number: 53 digits. *)
Definition f64_whole (z : Z) : spec_float :=
  S754_finite false (Z.to_pos (z * 2 ^ (52 - Z.log2 z))) (Z.log2 z - 52).

Lemma log2_53 z : 0 < z < 2 ^ 53 → 0 ≤ Z.log2 z ≤ 52.
Proof.
  intros Hz. split; [apply Z.log2_nonneg|]. assert (Z.log2 z < 53); [|lia]. apply (proj1 (Z.log2_lt_pow2 z 53 ltac:(lia))). lia.
Qed.

Lemma fexp_whole d : 0 ≤ d ≤ 52 → fexp 53 1024 (d + 1) = d - 52.
Proof. intros. unfold fexp, emin. lia. Qed.

Lemma Zdigits2_log2 m : 0 < m → Zdigits2 m = Z.log2 m + 1.
Proof. intros. destruct m; try lia. apply digits2_log2. Qed.

Lemma log2_shifted z k : 0 < z → 0 ≤ k → Z.log2 (z * 2 ^ k) = Z.log2 z + k.
Proof. intros. rewrite Z.log2_mul_pow2 by lia. lia. Qed.

Lemma shr_fexp_exact z e :
  0 < z < 2 ^ 53 → e ≤ Z.log2 z - 52 →
  shr_fexp 53 1024 (z * 2 ^ (- e)) e loc_Exact =
  (Build_shr_record (z * 2 ^ (52 - Z.log2 z)) false false, Z.log2 z - 52).
Proof.
  intros Hz He. pose proof (log2_53 z Hz) as Hd. unfold shr_fexp.
  assert (0 < 2 ^ (- e)) by (apply Z.pow_pos_nonneg; lia).
  rewrite Zdigits2_log2, log2_shifted by lia.
  replace (Z.log2 z + - e + 1 + e) with (Z.log2 z + 1) by lia. rewrite fexp_whole by done.
  cbn [shr_record_of_loc]. unfold shr.
  destruct (Z.log2 z - 52 - e) as [|p|p] eqn:Hs; [|..|lia].
  - replace (- e) with (52 - Z.log2 z) by lia. f_equal. lia.
  - rewrite iter_pos_nat.
    replace (z * 2 ^ (- e)) with (z * 2 ^ (52 - Z.log2 z) * 2 ^ Z.of_nat (Pos.to_nat p)).
    { rewrite shr_exact; [f_equal; lia|]. apply Z.mul_pos_pos; [lia|]. apply Z.pow_pos_nonneg; lia. }
    rewrite <-Z.mul_assoc, <-Z.pow_add_r by lia. do 2 f_equal. lia.
Qed.

Lemma round_aux_exact z e :
  0 < z < 2 ^ 53 → e ≤ Z.log2 z - 52 →
  binary_round_aux 53 1024 false (z * 2 ^ (- e)) e loc_Exact = f64_whole z.
Proof.
  intros Hz He. pose proof (log2_53 z Hz) as Hd. unfold binary_round_aux.
  rewrite shr_fexp_exact by done. cbn [shr_m loc_of_shr_record round_nearest_even].
  replace (52 - Z.log2 z) with (- (Z.log2 z - 52)) by lia. rewrite shr_fexp_exact by lia.
  cbn [shr_m]. unfold f64_whole.
  assert (0 < z * 2 ^ (52 - Z.log2 z)) by (apply Z.mul_pos_pos; [lia|]; apply Z.pow_pos_nonneg; lia).
  destruct (z * 2 ^ (52 - Z.log2 z)) as [|m|m]; [lia| |lia].
  by rewrite (proj2 (Z.leb_le _ _)) by lia.
Qed.

(** A mantissa and exponent of a whole number, in any alignment. *)
Lemma round_exact z p e :
  0 < z < 2 ^ 53 → -1000 ≤ e ≤ 0 → Z.pos p = z * 2 ^ (- e) →
  binary_round 53 1024 false p e = f64_whole z.
Proof.
  intros Hz He Hp. pose proof (log2_53 z Hz) as Hd. unfold binary_round.
  rewrite digits2_log2, Hp, log2_shifted by lia.
  replace (Z.log2 z + - e + 1 + e) with (Z.log2 z + 1) by lia. rewrite fexp_whole by done.
  unfold shl_align. destruct (Z.log2 z - 52 - e) as [|k|k] eqn:Hk.
  - rewrite Hp. apply round_aux_exact; [done|lia].
  - rewrite Hp. apply round_aux_exact; [done|lia].
  - rewrite <-(round_aux_exact z (Z.log2 z - 52)) by (done || lia). f_equal.
    assert (∀ q, Z.pos (Pos.iter xO p q) = Z.pos p * 2 ^ Z.pos q) as Hit.
    { intros q. induction q as [|q IH] using Pos.peano_ind; [simpl; lia|].
      rewrite Pos.iter_succ, Pos2Z.inj_xO, IH, Pos2Z.inj_succ, Z.pow_succ_r by lia. lia. }
    rewrite Hit, Hp, <-Z.mul_assoc, <-Z.pow_add_r by lia. do 2 f_equal. lia.
Qed.

Lemma f64_of_Z_whole z : 0 < z < 2 ^ 53 → f64_of_Z z = f64_whole z.
Proof.
  intros Hz. unfold f64_of_Z, binary_normalize. destruct z as [|p|p]; [lia| |lia].
  apply round_exact; [done|lia|]. simpl. lia.
Qed.

Lemma shl_align_value mx ex e :
  e ≤ ex → Z.pos (fst (shl_align mx ex e)) = Z.pos mx * 2 ^ (ex - e).
Proof.
  intros He. unfold shl_align. destruct (e - ex) as [|k|k] eqn:Hk; [|lia|]; simpl.
  - replace (ex - e) with 0 by lia. lia.
  - replace (ex - e) with (Z.pos k) by lia. clear.
    induction k as [|k IH] using Pos.peano_ind; [simpl; lia|].
    rewrite Pos.iter_succ, Pos2Z.inj_xO, IH, Pos2Z.inj_succ, Z.pow_succ_r by lia. lia.
Qed.

(** Adding two whole numbers is exact while the sum is below 2^53. *)
Lemma f64_add_whole a b :
  0 ≤ a → 0 ≤ b → a + b < 2 ^ 53 → f64_add (f64_of_Z a) (f64_of_Z b) = f64_of_Z (a + b).
Proof.
  intros Ha Hb Hab.
  destruct (decide (a = 0)) as [->|Ha0].
  { rewrite Z.add_0_l. destruct (decide (b = 0)) as [->|Hb0]; [done|].
    by rewrite (f64_of_Z_whole b) by lia. }
  destruct (decide (b = 0)) as [->|Hb0].
  { rewrite Z.add_0_r. by rewrite (f64_of_Z_whole a) by lia. }
  rewrite !f64_of_Z_whole by lia. unfold f64_whole at 1 2, SFadd.
  pose proof (log2_53 a ltac:(lia)). pose proof (log2_53 b ltac:(lia)).
  set (e := Z.min (Z.log2 a - 52) (Z.log2 b - 52)). cbn [cond_Zopp].
  rewrite !shl_align_value by (unfold e; lia).
  assert (∀ x, 0 < x → 0 ≤ Z.log2 x ≤ 52 → e ≤ Z.log2 x - 52 →
    Z.pos (Z.to_pos (x * 2 ^ (52 - Z.log2 x))) * 2 ^ (Z.log2 x - 52 - e) = x * 2 ^ (- e)) as Hal.
  { intros x Hx Hl Hle. rewrite Z2Pos.id.
    - rewrite <-Z.mul_assoc, <-Z.pow_add_r by lia. do 2 f_equal. lia.
    - apply Z.mul_pos_pos; [lia|]. apply Z.pow_pos_nonneg; lia. }
  rewrite !Hal by (unfold e; lia). rewrite <-Z.mul_add_distr_r.
  assert (0 < (a + b) * 2 ^ (- e)) as Hpos
    by (apply Z.mul_pos_pos; [lia|]; apply Z.pow_pos_nonneg; unfold e; lia).
  unfold binary_normalize. destruct ((a + b) * 2 ^ (- e)) as [|p|p] eqn:Hp; [lia| |lia].
  rewrite (round_exact (a + b)); [done|lia|unfold e; lia|done].
Qed.

(** Comparing whole numbers is exact. *)
Lemma f64_ltb_whole a b :
  0 ≤ a < 2 ^ 53 → 0 ≤ b < 2 ^ 53 → SFltb (f64_of_Z a) (f64_of_Z b) = (a <? b).
Proof.
  intros Ha Hb.
  destruct (decide (a = 0)) as [->|Ha0].
  { destruct (decide (b = 0)) as [->|Hb0]; [done|]. rewrite (f64_of_Z_whole b) by lia.
    symmetry. apply Z.ltb_lt. lia. }
  rewrite (f64_of_Z_whole a) by lia. destruct (decide (b = 0)) as [->|Hb0].
  { symmetry. apply Z.ltb_ge. lia. }
  rewrite (f64_of_Z_whole b) by lia. unfold SFltb, f64_whole, SFcompare.
  pose proof (log2_53 a ltac:(lia)). pose proof (log2_53 b ltac:(lia)).
  destruct (Z.compare_spec (Z.log2 a - 52) (Z.log2 b - 52)) as [He|Hlt|Hgt].
  - replace (Z.log2 b) with (Z.log2 a) by lia.
    assert (0 < 2 ^ (52 - Z.log2 a)) as Hp by (apply Z.pow_pos_nonneg; lia).
    rewrite pos_compare_to_pos by (apply Z.mul_pos_pos; lia).
    destruct (Z.compare_spec (a * 2 ^ (52 - Z.log2 a)) (b * 2 ^ (52 - Z.log2 a))), (Z.ltb_spec a b);
      try done; nia.
  - symmetry. apply Z.ltb_lt. apply Z.log2_lt_cancel. lia.
  - symmetry. apply Z.ltb_ge. apply Z.lt_le_incl, Z.log2_lt_cancel. lia.
Qed.

Lemma f64_ltb_inf a : 0 ≤ a < 2 ^ 53 → SFltb (f64_of_Z a) (S754_infinity false) = true.
Proof.
  intros Ha. destruct (decide (a = 0)) as [->|]; [done|]. by rewrite (f64_of_Z_whole a) by lia.
Qed.
