(* ===== verification/StorageTrait.v ===== *)
(** * The [StorageEngine] interface

    [src/nodedb-lite/src/storage/engine.rs].  Every durable component of the
    program talks to storage through this trait.  The file holds the trait's
    data types, the abstract store it promises (one finite map per namespace),
    the class of operations and the class of laws.  Clients are proved against
    the laws; [Pagedb.v] discharges them for the backend. *)

From Stdlib Require Import ZArith Lia Strings.Byte.
From stdpp Require Import prelude gmap sorting.
From S2P Require Import Prelude Bytes Ordered.

Local Open Scope Z_scope.

(** ** Errors

    [LiteError] with the source's variants.  The human-readable text a variant
    carries is not modelled: no code branches on it. *)
Inductive LiteError :=
| Storage | LockPoisoned | JoinError | Serialization | InvalidNamespace (ns : Z)
| BadRequest | CollectionNotFound | UniqueViolation | NotNullViolation | Sync | Query
| ArrowTypeConversion | Backpressure | Unsupported | WorkerFailed | Encryption | Corrupted
| FtsIndex | TextIndexMissing | FtsQueryInvalid | FtsSearch | CounterFault | TypeMismatch
| DataException | NumericValueOutOfRange | UndefinedObject | ObjectNotReady
| ConstraintViolation | RetryableRefusal | AuthorizationDenied | PrevalidationRejected.

#[global] Instance LiteError_eq_dec : EqDecision LiteError.
Proof. solve_decision. Defined.

Notation res := (result LiteError).

(** ** Namespaces

    The variants of [nodedb_types::Namespace] the program names.  The enum is
    declared outside the repository; its discriminants are a parameter of the
    backend. *)
Inductive Namespace :=
| Meta | Graph | Kv | Vector | Strict | Array | Fts | Crdt | Columnar | ArrayDelta | Spatial
| LatestVersion | GraphHistory | LoroState | DocumentHistory | ArrayOpLog | StrictHistory
| ColumnarPending | FtsIndexPending | FtsDeletePending | SpatialDeletePending
| VectorInsertPending | VectorDeletePending | TimeseriesPending | SpatialInsertPending
| KvPushPending.

#[global] Instance Namespace_eq_dec : EqDecision Namespace.
Proof. solve_decision. Defined.

(** ** Rows, writes and bounded scans *)

Notation KvPair := (bytes * bytes)%type.

Inductive WriteOp :=
| Put (ns : Namespace) (key value : bytes)
| Delete (ns : Namespace) (key : bytes).

Definition op_ns (op : WriteOp) : Namespace :=
  match op with Put ns _ _ | Delete ns _ => ns end.
Definition op_key (op : WriteOp) : bytes :=
  match op with Put _ k _ | Delete _ k => k end.

(** The budget that excludes the next matching record. *)
Inductive PrefixScanLimit := Records | Bytes.

#[global] Instance PrefixScanLimit_eq_dec : EqDecision PrefixScanLimit.
Proof. solve_decision. Defined.

Record PrefixScan := mkPrefixScan {
  ps_entries : list KvPair;
  ps_limit : option PrefixScanLimit
}.

Definition PrefixScan_default : PrefixScan := mkPrefixScan [] None.

Definition check_prefix_cursor (prefix : bytes) (after_key : option bytes) : res unit :=
  if match after_key with Some key => negb (starts_with prefix key) | None => false end
  then Err BadRequest
  else Ok tt.

Definition prefix_scan_budget_error : LiteError := Backpressure.

(** The trait's default methods: a backend without bounded scans answers only
    the empty request. *)
Definition default_scan_prefix_bounded (limit : Z) : res (list KvPair) :=
  if limit =? 0 then Ok [] else Err Unsupported.

Definition default_scan_prefix_budgeted (max_records : Z) : res PrefixScan :=
  if max_records =? 0 then Ok PrefixScan_default else Err Unsupported.

Definition default_scan_prefix_from_budgeted (prefix : bytes) (after_key : option bytes)
    (max_records : Z) : res PrefixScan :=
  if max_records =? 0 then Ok PrefixScan_default
  else let? _ := check_prefix_cursor prefix after_key in Err Unsupported.

(** Serialized key-plus-value bytes. *)
Definition row_bytes (p : KvPair) : Z := Z.of_nat (length p.1) + Z.of_nat (length p.2).
Definition rows_bytes (l : list KvPair) : Z := foldr (λ p n, row_bytes p + n) 0 l.

Lemma rows_bytes_app l1 l2 : rows_bytes (l1 ++ l2) = rows_bytes l1 + rows_bytes l2.
Proof. induction l1 as [|p l1 IH]; simpl; [done|]. unfold rows_bytes in *. simpl in *. lia. Qed.

Lemma rows_bytes_nonneg l : 0 ≤ rows_bytes l.
Proof. induction l as [|p l IH]; simpl; [done|]. unfold row_bytes. lia. Qed.

(** ** The abstract store

    What the trait promises: a map per namespace.  Two stores are equivalent
    when they agree on every namespace. *)
Definition Store : Type := Namespace → gmap bytes bytes.

#[global] Instance store_equiv : Equiv Store := λ m1 m2, ∀ ns, m1 ns = m2 ns.

#[global] Instance store_equivalence : Equivalence (≡@{Store}).
Proof.
  split; [by intros m ns | by intros m1 m2 H ns; rewrite H |].
  intros m1 m2 m3 H1 H2 ns. by rewrite H1.
Qed.

Definition st_put (m : Store) (ns : Namespace) (k v : bytes) : Store :=
  λ ns', if decide (ns' = ns) then <[k := v]> (m ns) else m ns'.
Definition st_delete (m : Store) (ns : Namespace) (k : bytes) : Store :=
  λ ns', if decide (ns' = ns) then delete k (m ns) else m ns'.

Definition st_op (m : Store) (op : WriteOp) : Store :=
  match op with
  | Put ns k v => st_put m ns k v
  | Delete ns k => st_delete m ns k
  end.
Definition st_ops (m : Store) (ops : list WriteOp) : Store := foldl st_op m ops.

#[global] Instance st_put_proper : Proper ((≡) ==> (=) ==> (=) ==> (=) ==> (≡)) st_put.
Proof. intros m1 m2 H ns ? <- k ? <- v ? <- ns'. unfold st_put. case_decide; by rewrite H. Qed.
#[global] Instance st_delete_proper : Proper ((≡) ==> (=) ==> (=) ==> (≡)) st_delete.
Proof. intros m1 m2 H ns ? <- k ? <- ns'. unfold st_delete. case_decide; by rewrite H. Qed.
#[global] Instance st_op_proper : Proper ((≡) ==> (=) ==> (≡)) st_op.
Proof. intros m1 m2 H [ns k v|ns k] ? <-; simpl; by rewrite H. Qed.
#[global] Instance st_ops_proper : Proper ((≡) ==> (=) ==> (≡)) st_ops.
Proof.
  intros m1 m2 H ops ? <-. revert m1 m2 H.
  induction ops as [|op ops IH]; intros m1 m2 H; simpl; [done|]. apply IH. by rewrite H.
Qed.

Lemma st_put_eq m ns k v : st_put m ns k v ns = <[k := v]> (m ns).
Proof. unfold st_put. by rewrite decide_True. Qed.
Lemma st_put_ne m ns ns' k v : ns' ≠ ns → st_put m ns k v ns' = m ns'.
Proof. intros. unfold st_put. by rewrite decide_False. Qed.
Lemma st_delete_eq m ns k : st_delete m ns k ns = delete k (m ns).
Proof. unfold st_delete. by rewrite decide_True. Qed.
Lemma st_delete_ne m ns ns' k : ns' ≠ ns → st_delete m ns k ns' = m ns'.
Proof. intros. unfold st_delete. by rewrite decide_False. Qed.

(** Optional range bounds: an absent bound is open. *)
Definition opt_from (start : option bytes) (k : bytes) : Prop :=
  match start with Some s => s <=b k | None => True end.
Definition opt_until (end_ : option bytes) (k : bytes) : Prop :=
  match end_ with Some e => k <b e | None => True end.
Definition opt_after (after : option bytes) (k : bytes) : Prop :=
  match after with Some a => a <b k | None => True end.

#[global] Instance opt_from_dec a k : Decision (opt_from a k).
Proof. destruct a; simpl; apply _. Defined.
#[global] Instance opt_until_dec a k : Decision (opt_until a k).
Proof. destruct a; simpl; apply _. Defined.
#[global] Instance opt_after_dec a k : Decision (opt_after a k).
Proof. destruct a; simpl; apply _. Defined.

(** The scans of the trait, on the abstract store. *)
Definition st_scan_prefix (m : Store) (ns : Namespace) (prefix : bytes) : list KvPair :=
  filter (λ p, starts_with prefix p.1 = true) (entries (m ns)).
Definition st_scan_from (m : Store) (ns : Namespace) (start : bytes) : list KvPair :=
  filter (λ p, start <=b p.1) (entries (m ns)).
Definition st_scan_bounded (m : Store) (ns : Namespace) (start end_ : option bytes)
    : list KvPair :=
  filter (λ p, opt_from start p.1 ∧ opt_until end_ p.1) (entries (m ns)).

(** The rows of a prefix after an exclusive cursor. *)
Definition st_rows_after (m : Store) (ns : Namespace) (prefix : bytes) (after : option bytes)
    : list KvPair :=
  filter (λ p, starts_with prefix p.1 = true ∧ opt_after after p.1) (entries (m ns)).

(** What a budgeted scan of [rows] may answer: an initial segment within both
    budgets, complete exactly when no limit is reported. *)
Record budget_ok (rows : list KvPair) (max_records max_bytes : Z) (r : PrefixScan) : Prop := {
  bo_prefix : ps_entries r `prefix_of` rows;
  bo_records : Z.of_nat (length (ps_entries r)) ≤ max_records;
  bo_bytes : rows_bytes (ps_entries r) ≤ max_bytes;
  bo_complete : ps_limit r = None ↔ ps_entries r = rows
}.

(** ** Operations and laws *)

(** One method per method of the trait that stores or reads rows.  A read takes
    the store; a write returns the store it leaves, also when it fails. *)
Class StorageEngine (S : Type) := {
  se_get : S → Namespace → bytes → res (option bytes);
  se_put : S → Namespace → bytes → bytes → res unit * S;
  se_delete : S → Namespace → bytes → res unit * S;
  se_scan_prefix : S → Namespace → bytes → res (list KvPair);
  se_scan_prefix_bounded : S → Namespace → bytes → Z → res (list KvPair);
  se_scan_prefix_budgeted : S → Namespace → bytes → Z → Z → res PrefixScan;
  se_scan_prefix_from_budgeted :
    S → Namespace → bytes → option bytes → Z → Z → res PrefixScan;
  se_batch_write : S → list WriteOp → res unit * S;
  se_count : S → Namespace → res Z;
  se_scan_range : S → Namespace → bytes → Z → res (list KvPair);
  se_scan_range_bounded :
    S → Namespace → option bytes → option bytes → option Z → res (list KvPair)
}.

(** The contract.  A successful read answers from the abstract store; a
    successful write changes it exactly as named; a failed write either did
    nothing or did all of it (the outcome of a failed commit is unknown, but a
    batch is never applied in part).  A list a scan materialises has at most
    [usize::MAX] elements. *)
Class StorageLaws (S : Type) `{StorageEngine S} := {
  contents : S → Store;
  get_ok s ns k v : se_get s ns k = Ok v → v = contents s ns !! k;
  put_ok s ns k v s' :
    se_put s ns k v = (Ok tt, s') → contents s' ≡ st_put (contents s) ns k v;
  put_err s ns k v e s' :
    se_put s ns k v = (Err e, s') →
    contents s' ≡ contents s ∨ contents s' ≡ st_put (contents s) ns k v;
  delete_ok s ns k s' :
    se_delete s ns k = (Ok tt, s') → contents s' ≡ st_delete (contents s) ns k;
  delete_err s ns k e s' :
    se_delete s ns k = (Err e, s') →
    contents s' ≡ contents s ∨ contents s' ≡ st_delete (contents s) ns k;
  batch_ok s ops s' :
    se_batch_write s ops = (Ok tt, s') → contents s' ≡ st_ops (contents s) ops;
  batch_err s ops e s' :
    se_batch_write s ops = (Err e, s') →
    contents s' ≡ contents s ∨ contents s' ≡ st_ops (contents s) ops;
  scan_prefix_ok s ns p l :
    se_scan_prefix s ns p = Ok l → l = st_scan_prefix (contents s) ns p;
  scan_prefix_bounded_ok s ns p n l :
    0 ≤ n → se_scan_prefix_bounded s ns p n = Ok l →
    l = takeZ n (st_scan_prefix (contents s) ns p);
  scan_prefix_budgeted_ok s ns p mr mb r :
    0 < mr → 0 ≤ mb → se_scan_prefix_budgeted s ns p mr mb = Ok r →
    budget_ok (st_scan_prefix (contents s) ns p) mr mb r;
  scan_prefix_from_budgeted_ok s ns p after mr mb r :
    0 < mr → 0 ≤ mb → se_scan_prefix_from_budgeted s ns p after mr mb = Ok r →
    budget_ok (st_rows_after (contents s) ns p after) mr mb r ∧
    (ps_entries r = [] → st_rows_after (contents s) ns p after = []);
  count_ok s ns n :
    se_count s ns = Ok n → n = Z.of_nat (size (contents s ns)) ∧ n ≤ u64_max;
  scan_range_ok s ns start n l :
    se_scan_range s ns start n = Ok l →
    l = takeZ n (st_scan_from (contents s) ns start) ∧
    Z.of_nat (length (st_scan_from (contents s) ns start)) ≤ usize_max;
  scan_range_bounded_ok s ns start end_ limit l :
    se_scan_range_bounded s ns start end_ limit = Ok l →
    l = takeZ (default usize_max limit) (st_scan_bounded (contents s) ns start end_) ∧
    Z.of_nat (length (st_scan_bounded (contents s) ns start end_)) ≤ usize_max
}.

(** When operations succeed: on a healthy store no operation fails.  Theorems
    that say the code returns a result are proved on healthy stores. *)
Class StorageProgress (S : Type) `{StorageLaws S} := {
  healthy : S → Prop;
  healthy_get s ns k : healthy s → ∃ v, se_get s ns k = Ok v;
  healthy_put s ns k v : healthy s → ∃ s', se_put s ns k v = (Ok tt, s');
  healthy_delete s ns k : healthy s → ∃ s', se_delete s ns k = (Ok tt, s');
  healthy_batch s ops : healthy s → ∃ s', se_batch_write s ops = (Ok tt, s');
  healthy_scan_prefix s ns p : healthy s → ∃ l, se_scan_prefix s ns p = Ok l;
  healthy_count s ns : healthy s → ∃ n, se_count s ns = Ok n;
  healthy_scan_range s ns start n : healthy s → ∃ l, se_scan_range s ns start n = Ok l;
  healthy_scan_range_bounded s ns a b n :
    healthy s → ∃ l, se_scan_range_bounded s ns a b n = Ok l
}.

(** A read of a healthy store answers from its contents. *)
Lemma read_get {S} `{StorageProgress S} (s : S) ns k : healthy s → se_get s ns k = Ok (contents s ns !! k).
Proof. intros Hh. destruct (healthy_get s ns k Hh) as [v Hv]. by rewrite Hv, (get_ok s ns k v Hv). Qed.

Lemma read_scan {S} `{StorageProgress S} (s : S) ns p : healthy s → se_scan_prefix s ns p = Ok (st_scan_prefix (contents s) ns p).
Proof. intros Hh. destruct (healthy_scan_prefix s ns p Hh) as [l Hl]. by rewrite Hl, (scan_prefix_ok s ns p l Hl). Qed.

(** The state-passing form of [?] for a write: [put! (r, s') := w in k]
    stops with the store the failed write left. *)
Notation "'write!' s' ':=' w 'in' k" :=
  (match w with (Ok _, s') => k | (Err e, s') => (Err e, s') end)
  (at level 10, s' name, w at level 100, k at level 200,
   format "'[v' 'write!'  s'  ':='  w  'in' '/' k ']'") : lite_scope.

(** ** Facts about scans *)

Lemma st_scan_prefix_sorted m ns p : ksorted (st_scan_prefix m ns p).
Proof. apply ksorted_filter, entries_ksorted. Qed.

Lemma elem_of_st_scan_prefix m ns p k v :
  (k, v) ∈ st_scan_prefix m ns p ↔ starts_with p k = true ∧ m ns !! k = Some v.
Proof. unfold st_scan_prefix. by rewrite list_elem_of_filter, elem_of_entries. Qed.

Lemma st_scan_from_nil m ns : st_scan_from m ns [] = entries (m ns).
Proof. apply filter_all. intros. apply bytes_nil_le. Qed.

Lemma elem_of_st_rows_after m ns p after k v :
  (k, v) ∈ st_rows_after m ns p after ↔
    starts_with p k = true ∧ opt_after after k ∧ m ns !! k = Some v.
Proof. unfold st_rows_after. rewrite list_elem_of_filter, elem_of_entries. simpl. tauto. Qed.

Lemma st_rows_after_None m ns p : st_rows_after m ns p None = st_scan_prefix m ns p.
Proof. apply filter_ext. simpl. tauto. Qed.

(** ** Batches, key by key *)

Lemma st_ops_untouched m ops ns k :
  (∀ op, op ∈ ops → op_ns op = ns → op_key op ≠ k) → st_ops m ops ns !! k = m ns !! k.
Proof.
  revert m. induction ops as [|op ops IH]; intros m Hop; [done|].
  cbn [st_ops foldl]. fold (st_ops (st_op m op) ops). rewrite IH.
  2:{ intros o Ho. apply Hop, elem_of_cons. by right. }
  specialize (Hop op ltac:(apply elem_of_cons; by left)).
  destruct op as [ns0 k0 v0|ns0 k0]; simpl in *; unfold st_put, st_delete;
    case_decide as Hd; try done; subst; rewrite ?lookup_insert_ne, ?lookup_delete_ne; auto.
Qed.

(** When every operation on a key puts the same value, that value is stored. *)
Lemma st_ops_all_put m ops ns k v :
  (∃ op, op ∈ ops ∧ op_ns op = ns ∧ op_key op = k) →
  (∀ op, op ∈ ops → op_ns op = ns → op_key op = k → op = Put ns k v) →
  st_ops m ops ns !! k = Some v.
Proof.
  revert m. induction ops as [|op ops IH]; intros m (o & Hin & Hn & Hk) Hall.
  { by apply elem_of_nil in Hin. }
  cbn [st_ops foldl]. fold (st_ops (st_op m op) ops).
  destruct (decide (Exists (λ op, op_ns op = ns ∧ op_key op = k) ops)) as [Hex|Hno].
  { apply IH; [by apply Exists_exists|]. intros o' Ho'. apply Hall, elem_of_cons. by right. }
  rewrite st_ops_untouched.
  - apply elem_of_cons in Hin as [->|Hin]; [|by destruct Hno; apply Exists_exists; eauto].
    rewrite (Hall op) by (done || (apply elem_of_cons; by left)). simpl. rewrite st_put_eq.
    by rewrite lookup_insert, decide_True.
  - intros o' Ho' Hn' Hk'. destruct Hno. apply Exists_exists. eauto.
Qed.

Lemma st_ops_all_delete m ops ns k :
  (∃ op, op ∈ ops ∧ op_ns op = ns ∧ op_key op = k) →
  (∀ op, op ∈ ops → op_ns op = ns → op_key op = k → op = Delete ns k) →
  st_ops m ops ns !! k = None.
Proof.
  revert m. induction ops as [|op ops IH]; intros m (o & Hin & Hn & Hk) Hall.
  { by apply elem_of_nil in Hin. }
  cbn [st_ops foldl]. fold (st_ops (st_op m op) ops).
  destruct (decide (Exists (λ op, op_ns op = ns ∧ op_key op = k) ops)) as [Hex|Hno].
  { apply IH; [by apply Exists_exists|]. intros o' Ho'. apply Hall, elem_of_cons. by right. }
  rewrite st_ops_untouched.
  - apply elem_of_cons in Hin as [->|Hin]; [|by destruct Hno; apply Exists_exists; eauto].
    rewrite (Hall op) by (done || (apply elem_of_cons; by left)). simpl. rewrite st_delete_eq.
    by rewrite lookup_delete, decide_True.
  - intros o' Ho' Hn' Hk'. destruct Hno. apply Exists_exists. eauto.
Qed.

#[export] Hint Resolve st_scan_prefix_sorted : lite.
#[export] Hint Rewrite st_put_eq st_delete_eq : store.

(** Case analysis on the namespaces of a store after writes. *)
Ltac store_simpl :=
  repeat first
    [ rewrite st_put_eq | rewrite st_delete_eq
    | rewrite st_put_ne by done | rewrite st_delete_ne by done ].

(** ** Traces

    A client's session is a sequence of requests.  [store_step] is what one
    request may answer on the abstract store: a read that fails changes nothing
    and a write that fails was applied whole or not at all. *)
Inductive Request :=
| RGet (ns : Namespace) (k : bytes)
| RPut (ns : Namespace) (k v : bytes)
| RDelete (ns : Namespace) (k : bytes)
| RBatch (ops : list WriteOp)
| RScanPrefix (ns : Namespace) (p : bytes)
| RScanRange (ns : Namespace) (start end_ : option bytes) (limit : option Z)
| RCount (ns : Namespace).

Inductive Response :=
| AValue (v : option bytes)
| AUnit
| ARows (l : list KvPair)
| ACount (n : Z)
| AFailed (e : LiteError).

(** The write a request asks for; reads ask for none. *)
Definition request_ops (r : Request) : list WriteOp :=
  match r with
  | RPut ns k v => [Put ns k v]
  | RDelete ns k => [Delete ns k]
  | RBatch ops => ops
  | _ => []
  end.

(** The answer to a request that succeeds. *)
Definition store_answer (m : Store) (r : Request) : Response :=
  match r with
  | RGet ns k => AValue (m ns !! k)
  | RPut _ _ _ | RDelete _ _ | RBatch _ => AUnit
  | RScanPrefix ns p => ARows (st_scan_prefix m ns p)
  | RScanRange ns a b n => ARows (takeZ (default usize_max n) (st_scan_bounded m ns a b))
  | RCount ns => ACount (Z.of_nat (size (m ns)))
  end.

Inductive store_step (m : Store) (r : Request) : Response → Store → Prop :=
| step_ok m' : m' ≡ st_ops m (request_ops r) → store_step m r (store_answer m r) m'
| step_lost e m' : m' ≡ m → store_step m r (AFailed e) m'
| step_unknown e m' : m' ≡ st_ops m (request_ops r) → store_step m r (AFailed e) m'.

Inductive store_steps : Store → list (Request * Response) → Store → Prop :=
| steps_nil m m' : m' ≡ m → store_steps m [] m'
| steps_cons m r a m1 tr m2 :
    store_step m r a m1 → store_steps m1 tr m2 → store_steps m ((r, a) :: tr) m2.

Section traces.
Context {S : Type} `{StorageLaws S}.

Definition read_answer {A} (f : A → Response) (r : res A) (s : S) : Response * S :=
  (match r with Ok a => f a | Err e => AFailed e end, s).
Definition write_answer (p : res unit * S) : Response * S :=
  (match p.1 with Ok _ => AUnit | Err e => AFailed e end, p.2).

Definition run_request (s : S) (r : Request) : Response * S :=
  match r with
  | RGet ns k => read_answer AValue (se_get s ns k) s
  | RPut ns k v => write_answer (se_put s ns k v)
  | RDelete ns k => write_answer (se_delete s ns k)
  | RBatch ops => write_answer (se_batch_write s ops)
  | RScanPrefix ns p => read_answer ARows (se_scan_prefix s ns p) s
  | RScanRange ns a b n => read_answer ARows (se_scan_range_bounded s ns a b n) s
  | RCount ns => read_answer ACount (se_count s ns) s
  end.

Fixpoint run_requests (s : S) (rs : list Request) : list (Request * Response) * S :=
  match rs with
  | [] => ([], s)
  | r :: rs =>
      let '(a, s1) := run_request s r in
      let '(tr, s2) := run_requests s1 rs in ((r, a) :: tr, s2)
  end.

Lemma read_refines {A} (f : A → Response) (x : res A) s r :
  (∀ a, x = Ok a → f a = store_answer (contents s) r) → request_ops r = [] →
  store_step (contents s) r (read_answer f x s).1 (contents (read_answer f x s).2).
Proof.
  intros Hx Hr. destruct x as [a|e]; simpl; [rewrite (Hx a) by done|by apply step_lost].
  apply step_ok. by rewrite Hr.
Qed.

Lemma write_refines (p : res unit * S) s r :
  (∀ s', p = (Ok tt, s') → contents s' ≡ st_ops (contents s) (request_ops r)) →
  (∀ e s', p = (Err e, s') → contents s' ≡ contents s ∨
                             contents s' ≡ st_ops (contents s) (request_ops r)) →
  store_answer (contents s) r = AUnit →
  store_step (contents s) r (write_answer p).1 (contents (write_answer p).2).
Proof.
  destruct p as [[[]|e] s']; intros Hok Herr Ha; simpl.
  - rewrite <-Ha. by apply step_ok, Hok.
  - by destruct (Herr e s') as [|]; [|apply step_lost|apply step_unknown].
Qed.

(** One request against an engine that keeps the laws is a step of the store. *)
Lemma run_request_refines s r :
  store_step (contents s) r (run_request s r).1 (contents (run_request s r).2).
Proof.
  destruct r; simpl;
    [apply read_refines | apply write_refines | apply write_refines | apply write_refines
    | apply read_refines.. ]; try done; simpl.
  - intros a ->%get_ok. done.
  - intros s'. apply put_ok.
  - intros e s'. apply put_err.
  - intros s'. apply delete_ok.
  - intros e s'. apply delete_err.
  - intros s'. apply batch_ok.
  - intros e s'. apply batch_err.
  - intros a ->%scan_prefix_ok. done.
  - intros a [-> _]%scan_range_bounded_ok. done.
  - intros a [-> _]%count_ok. done.
Qed.

Lemma run_requests_refines rs s :
  store_steps (contents s) (run_requests s rs).1 (contents (run_requests s rs).2).
Proof.
  revert s. induction rs as [|r rs IH]; intros s; simpl; [by constructor|].
  pose proof (run_request_refines s r). destruct (run_request s r) as [a s1].
  specialize (IH s1). destruct (run_requests s1 rs) as [tr s2]. by econstructor.
Qed.
End traces.
