(* ===== verification/Pagedb.v ===== *)
(** * The pagedb backend

    [src/nodedb-lite/src/storage/pagedb_storage]: the [StorageEngine] of every
    target.  pagedb itself (a transactional B+ tree over byte strings) is outside
    the repository: it is the class [Pagedb] of operations with the class
    [PagedbLaws] of what its documentation promises.  The functions of
    [keys.rs], [errors.rs], [engine/rows.rs] and [engine/scans.rs] are defined on
    top, and the file proves that they implement the storage contract. *)

From Stdlib Require Import ZArith Lia Strings.Byte.
From stdpp Require Import prelude gmap sorting.
From S2P Require Import Prelude Bytes Ordered StorageTrait.

Local Open Scope Z_scope.

(** ** pagedb *)

(** The variants of [pagedb::PagedbError] the program names; the others are
    [POther]. *)
Inductive PagedbError := PQuota | PUnsupported | PCorruption | PChecksumFailure | POther.

Notation pres := (result PagedbError).

Class Pagedb (D T : Type) := {
  begin_read : D → pres T;
  begin_write : D → pres T;
  txn_get : T → bytes → pres (option bytes);
  txn_scan_prefix : T → bytes → pres (list KvPair);
  txn_scan_prefix_from : T → bytes → bytes → Z → pres (list KvPair);
  txn_scan_prefix_from_bounded : T → bytes → bytes → Z → Z → pres PrefixScan;
  txn_scan : T → bytes → bytes → pres (list KvPair);
  txn_put : T → bytes → bytes → pres T;
  txn_delete : T → bytes → pres T;
  txn_put_batch : T → list KvPair → pres T;
  txn_delete_batch : T → list bytes → pres T;
  txn_commit : D → T → pres unit * D
}.

Definition map_puts (m : gmap bytes bytes) (kvs : list KvPair) : gmap bytes bytes :=
  foldl (λ m p, <[p.1 := p.2]> m) m kvs.
Definition map_deletes (m : gmap bytes bytes) (ks : list bytes) : gmap bytes bytes :=
  foldl (λ m k, delete k m) m ks.

(** A transaction works on a copy; commit publishes it.  The batch calls want
    their keys sorted.  A scan returns rows in key order; a materialised list
    has at most [usize::MAX] elements. *)
Class PagedbLaws (D T : Type) `{Pagedb D T} := {
  db_map : D → gmap bytes bytes;
  txn_map : T → gmap bytes bytes;
  begin_read_ok d t : begin_read d = Ok t → txn_map t = db_map d;
  begin_write_ok d t : begin_write d = Ok t → txn_map t = db_map d;
  txn_get_ok t k v : txn_get t k = Ok v → v = txn_map t !! k;
  txn_scan_prefix_ok t p l :
    txn_scan_prefix t p = Ok l →
    l = filter (λ q, starts_with p q.1 = true) (entries (txn_map t)) ∧
    Z.of_nat (length l) ≤ usize_max;
  txn_scan_prefix_from_ok t p start n l :
    txn_scan_prefix_from t p start n = Ok l →
    l = takeZ n (filter (λ q, starts_with p q.1 = true ∧ start <=b q.1)
                   (entries (txn_map t)));
  txn_scan_prefix_from_bounded_ok t p start mr mb r :
    0 ≤ mr → 0 ≤ mb → txn_scan_prefix_from_bounded t p start mr mb = Ok r →
    budget_ok (filter (λ q, starts_with p q.1 = true ∧ start <=b q.1) (entries (txn_map t)))
      mr mb r ∧
    (ps_entries r = [] → ps_limit r ≠ Some Records ∨ mr = 0);
  txn_scan_ok t a b l :
    txn_scan t a b = Ok l →
    l = filter (λ q, a <=b q.1 ∧ q.1 <b b) (entries (txn_map t)) ∧
    Z.of_nat (length l) ≤ usize_max;
  txn_put_ok t k v t' : txn_put t k v = Ok t' → txn_map t' = <[k := v]> (txn_map t);
  txn_delete_ok t k t' : txn_delete t k = Ok t' → txn_map t' = delete k (txn_map t);
  txn_put_batch_ok t kvs t' :
    ksorted kvs → txn_put_batch t kvs = Ok t' → txn_map t' = map_puts (txn_map t) kvs;
  txn_delete_batch_ok t ks t' :
    StronglySorted bytes_lt ks → txn_delete_batch t ks = Ok t' →
    txn_map t' = map_deletes (txn_map t) ks;
  txn_commit_ok d t d' : txn_commit d t = (Ok tt, d') → db_map d' = txn_map t;
  txn_commit_err d t e d' :
    txn_commit d t = (Err e, d') → db_map d' = db_map d ∨ db_map d' = txn_map t
}.

(** The discriminants of [Namespace]: distinct bytes, none of them [0xFF]
    ([ns_end] asserts it). *)
Class NamespaceBytes := {
  ns_byte : Namespace → byte;
  ns_byte_inj :: Inj (=) (=) ns_byte;
  ns_byte_lt ns : bz (ns_byte ns) < 255
}.

(** ** Errors: [errors.rs] *)

Definition is_corruption (e : PagedbError) : bool :=
  match e with PCorruption | PChecksumFailure => true | _ => false end.

Definition from_pagedb_error (e : PagedbError) : LiteError :=
  if is_corruption e then Corrupted
  else match e with
       | PQuota => Storage
       | PUnsupported => WorkerFailed
       | _ => Storage
       end.

Definition lift {A} (r : pres A) : res A := rmap_err from_pagedb_error r.

(** ** Composite keys: [keys.rs] *)

Section keys.
Context {NB : NamespaceBytes}.

Definition prefix_key (ns : Namespace) (key : bytes) : bytes := ns_byte ns :: key.

(** The stack-allocated key of the read path: a 64-byte buffer, or the heap. *)
Inductive KeyBuf :=
| Stack (data : bytes) (len : nat)
| Heap (v : bytes).

Definition KeyBuf_new (ns : Namespace) (key : bytes) : KeyBuf :=
  let total := (1 + length key)%nat in
  if (total <=? 64)%nat
  then Stack (ns_byte ns :: key ++ replicate (64 - total) x00) total
  else Heap (ns_byte ns :: key).

Definition KeyBuf_as_slice (k : KeyBuf) : bytes :=
  match k with
  | Stack data len => take len data
  | Heap v => v
  end.

Definition strip_ns (composite : bytes) : bytes :=
  if (1 <? length composite)%nat then drop 1 composite else [].

(** The assertion of the source is the law [ns_byte_lt]. *)
Definition ns_end (ns : Namespace) : bytes := [zb (bz (ns_byte ns) + 1)].

Lemma KeyBuf_prefix_key ns key : KeyBuf_as_slice (KeyBuf_new ns key) = prefix_key ns key.
Proof.
  unfold KeyBuf_new, prefix_key. case_match; [|done]. simpl. f_equal.
  by rewrite take_app_length.
Qed.

Lemma strip_ns_prefix_key ns k : strip_ns (prefix_key ns k) = k.
Proof. unfold strip_ns. by destruct k. Qed.

Lemma prefix_key_inj ns1 ns2 k1 k2 :
  prefix_key ns1 k1 = prefix_key ns2 k2 → ns1 = ns2 ∧ k1 = k2.
Proof. intros [= Hb ->]. by apply (inj ns_byte) in Hb. Qed.

Lemma prefix_key_cmp ns k1 k2 :
  bytes_cmp (prefix_key ns k1) (prefix_key ns k2) = bytes_cmp k1 k2.
Proof. apply (bytes_cmp_app [ns_byte ns]). Qed.

(** The rows of a namespace lie between its byte and its end marker. *)
Lemma ns_range ns q :
  [ns_byte ns] <=b q → q <b ns_end ns → ∃ k, q = prefix_key ns k.
Proof.
  unfold bytes_le, bytes_lt, ns_end, prefix_key. pose proof (ns_byte_lt ns).
  pose proof (bz_range (ns_byte ns)).
  destruct q as [|b k]; [done|]. cbn [bytes_cmp]. rewrite bz_zb_small by lia.
  intros H1 H2.
  destruct (Z.compare_spec (bz (ns_byte ns)) (bz b)) as [Heq|Hlt|Hgt]; [|exfalso|done].
  - apply (inj bz) in Heq as ->. eauto.
  - destruct (Z.compare_spec (bz b) (bz (ns_byte ns) + 1)); [by destruct k|lia|done].
Qed.

Lemma prefix_key_before_end ns k : prefix_key ns k <b ns_end ns.
Proof.
  unfold bytes_lt, ns_end, prefix_key. pose proof (ns_byte_lt ns).
  pose proof (bz_range (ns_byte ns)). cbn [bytes_cmp]. rewrite bz_zb_small by lia.
  by rewrite (proj2 (Z.compare_lt_iff _ _)) by lia.
Qed.

(** The view of one namespace of the flat map. *)
Definition unprefix (ns : Namespace) (p : KvPair) : option KvPair :=
  match p.1 with
  | b :: k => if decide (b = ns_byte ns) then Some (k, p.2) else None
  | [] => None
  end.
Definition ns_view (m : gmap bytes bytes) (ns : Namespace) : gmap bytes bytes :=
  list_to_map (omap (unprefix ns) (map_to_list m)).

Lemma elem_of_unprefix m ns k v :
  (k, v) ∈ omap (unprefix ns) (map_to_list m) ↔ m !! prefix_key ns k = Some v.
Proof.
  rewrite list_elem_of_omap. unfold unprefix, prefix_key. split.
  - intros ([[|b k'] v'] & Hin & Heq); simplify_eq/=. case_decide; simplify_eq.
    by apply elem_of_map_to_list.
  - intros Hm. exists (ns_byte ns :: k, v). rewrite elem_of_map_to_list. simpl.
    by rewrite decide_True.
Qed.

Lemma ns_view_lookup m ns k : ns_view m ns !! k = m !! prefix_key ns k.
Proof.
  unfold ns_view. apply option_eq. intros v.
  rewrite <-elem_of_unprefix. split; [apply elem_of_list_to_map_2|].
  intros Hin. apply elem_of_list_to_map_1'; [|done].
  intros v'. rewrite elem_of_unprefix. rewrite elem_of_unprefix in Hin. congruence.
Qed.

Lemma ns_view_insert m ns ns' k v :
  ns_view (<[prefix_key ns k := v]> m) ns' = st_put (ns_view m) ns k v ns'.
Proof.
  apply map_eq. intros k'. unfold st_put. rewrite ns_view_lookup.
  case_decide as Hns.
  - subst. rewrite !lookup_insert, ns_view_lookup.
    destruct (decide (k = k')) as [->|Hk]; [by rewrite !decide_True|].
    by rewrite !decide_False by (by try intros [_ ?]%prefix_key_inj).
  - rewrite lookup_insert_ne, ns_view_lookup; [done|]. by intros [? _]%prefix_key_inj.
Qed.

Lemma ns_view_delete m ns ns' k :
  ns_view (delete (prefix_key ns k) m) ns' = st_delete (ns_view m) ns k ns'.
Proof.
  apply map_eq. intros k'. unfold st_delete. rewrite ns_view_lookup.
  case_decide as Hns.
  - subst. rewrite !lookup_delete, ns_view_lookup.
    destruct (decide (k = k')) as [->|Hk]; [by rewrite !decide_True|].
    by rewrite !decide_False by (by try intros [_ ?]%prefix_key_inj).
  - rewrite lookup_delete_ne, ns_view_lookup; [done|]. by intros [? _]%prefix_key_inj.
Qed.

(** A scan of the flat map confined to one namespace, stripped, is the scan of
    the view. *)
Lemma strip_scan m ns (P Q : KvPair → Prop)
    `{∀ x, Decision (P x), ∀ x, Decision (Q x)} :
  (∀ q v, P (q, v) ↔ ∃ k, q = prefix_key ns k ∧ Q (k, v)) →
  (λ p, (strip_ns p.1, p.2)) <$> filter P (entries m) = filter Q (entries (ns_view m ns)).
Proof.
  intros HPQ. apply ksorted_unique.
  - assert (ksorted (filter P (entries m))) as Hs by eauto with lite.
    assert (∀ p, p ∈ filter P (entries m) → ∃ k, p.1 = prefix_key ns k) as Hin.
    { intros [q v] [HP _]%list_elem_of_filter. apply HPQ in HP as (k & -> & _). by exists k. }
    revert Hs Hin. generalize (filter P (entries m)).
    induction 1 as [|p l _ IH Hall]; intros Hin; [constructor|].
    constructor; [apply IH; set_solver|].
    destruct (Hin p) as [k Hk]; [set_solver|]. apply Forall_fmap.
    rewrite Forall_forall in *. intros q Hq. destruct (Hin q) as [k' Hk']; [set_solver|].
    apply Hall in Hq. simpl. rewrite Hk, Hk' in *.
    rewrite !strip_ns_prefix_key. unfold bytes_lt in *. by rewrite prefix_key_cmp in Hq.
  - eauto with lite.
  - intros [k v]. rewrite list_elem_of_fmap, list_elem_of_filter, elem_of_entries, ns_view_lookup.
    split.
    + intros ([q w] & [= -> ->] & [HP Hm%elem_of_entries]%list_elem_of_filter).
      apply HPQ in HP as (k' & -> & HQ). simpl.
      by rewrite strip_ns_prefix_key.
    + intros [HQ Hm]. exists (prefix_key ns k, v). simpl. rewrite strip_ns_prefix_key.
      rewrite list_elem_of_filter, elem_of_entries, HPQ. eauto.
Qed.
End keys.

(** ** Rows and scans: [engine/rows.rs], [engine/scans.rs] *)

Section storage.
Context {D T : Type} {PD : Pagedb D T} {NB : NamespaceBytes}.

Definition get_rows (d : D) (ns : Namespace) (key : bytes) : res (option bytes) :=
  let composite := KeyBuf_new ns key in
  let? txn := lift (begin_read d) in
  lift (txn_get txn (KeyBuf_as_slice composite)).

(** Commit a transaction built from [d]; before commit nothing is visible. *)
Definition commit_rows (d : D) (r : res T) : res unit * D :=
  match r with
  | Err e => (Err e, d)
  | Ok txn => let '(r, d') := txn_commit d txn in (lift r, d')
  end.

Definition put_rows (d : D) (ns : Namespace) (key value : bytes) : res unit * D :=
  let composite := prefix_key ns key in
  commit_rows d
    (let? txn := lift (begin_write d) in
     lift (txn_put txn composite value)).

Definition delete_rows (d : D) (ns : Namespace) (key : bytes) : res unit * D :=
  let composite := prefix_key ns key in
  commit_rows d
    (let? txn := lift (begin_write d) in
     lift (txn_delete txn composite)).

Definition flat_key (op : WriteOp) : bytes := prefix_key (op_ns op) (op_key op).

(** One operation of the sequential path. *)
Definition apply_one (txn : T) (op : WriteOp) : res T :=
  match op with
  | Put _ _ value => lift (txn_put txn (flat_key op) value)
  | Delete _ _ => lift (txn_delete txn (flat_key op))
  end.

Definition batch_puts (ops : list WriteOp) : list KvPair :=
  omap (λ op, match op with Put _ _ v => Some (flat_key op, v) | Delete _ _ => None end) ops.
Definition batch_deletes (ops : list WriteOp) : list bytes :=
  omap (λ op, match op with Put _ _ _ => None | Delete _ _ => Some (flat_key op) end) ops.

(** Fill a write transaction: in order when a key repeats, else sorted puts
    and sorted deletes through the batch calls. *)
Definition batch_txn (txn : T) (ops : list WriteOp) : res T :=
  let all_keys := flat_key <$> ops in
  let unique_count := size (list_to_set all_keys : gset bytes) in
  if (unique_count <? length all_keys)%nat
  then rfold apply_one txn ops
  else
    let puts := merge_sort kv_le (batch_puts ops) in
    let deletes := merge_sort bytes_le (batch_deletes ops) in
    let? txn := match puts with [] => Ok txn | _ => lift (txn_put_batch txn puts) end in
    match deletes with [] => Ok txn | _ => lift (txn_delete_batch txn deletes) end.

Definition batch_write_rows (d : D) (ops : list WriteOp) : res unit * D :=
  match ops with
  | [] => (Ok tt, d)
  | _ => commit_rows d (let? txn := lift (begin_write d) in batch_txn txn ops)
  end.

Definition count_rows (d : D) (ns : Namespace) : res Z :=
  let ns_prefix := [ns_byte ns] in
  let? txn := lift (begin_read d) in
  let? raw := lift (txn_scan_prefix txn ns_prefix) in
  Ok (Z.of_nat (length raw)).

Definition strip_row (p : KvPair) : KvPair := (strip_ns p.1, p.2).

Definition scan_prefix_rows (d : D) (ns : Namespace) (prefix : bytes) : res (list KvPair) :=
  let ns_prefix := prefix_key ns prefix in
  let? txn := lift (begin_read d) in
  let? raw := lift (txn_scan_prefix txn ns_prefix) in
  Ok (strip_row <$> raw).

Definition scan_prefix_bounded_rows (d : D) (ns : Namespace) (prefix : bytes) (limit : Z)
    : res (list KvPair) :=
  if limit =? 0 then Ok []
  else
    let ns_prefix := prefix_key ns prefix in
    let? txn := lift (begin_read d) in
    let? raw := lift (txn_scan_prefix_from txn ns_prefix ns_prefix limit) in
    Ok (strip_row <$> raw).

Definition scan_range_rows (d : D) (ns : Namespace) (start : bytes) (limit : Z)
    : res (list KvPair) :=
  let start_key := prefix_key ns start in
  let end_key := ns_end ns in
  let? txn := lift (begin_read d) in
  let? raw := lift (txn_scan txn start_key end_key) in
  Ok (strip_row <$> takeZ limit raw).

Definition scan_range_bounded_rows (d : D) (ns : Namespace) (start end_ : option bytes)
    (limit : option Z) : res (list KvPair) :=
  let start_key := match start with Some s => prefix_key ns s | None => [ns_byte ns] end in
  let end_key := match end_ with Some e => prefix_key ns e | None => ns_end ns end in
  let? txn := lift (begin_read d) in
  let? raw := lift (txn_scan txn start_key end_key) in
  let effective_limit := default usize_max limit in
  Ok (strip_row <$> takeZ effective_limit raw).

(** The accumulation loop of [scan_budgeted]: stop before the first row that
    passes [max_bytes]. *)
Fixpoint budget_rows (max_bytes bytes_ : Z) (limit : option PrefixScanLimit)
    (raw : list KvPair) : PrefixScan :=
  match raw with
  | [] => mkPrefixScan [] limit
  | (key, value) :: raw' =>
      let key := strip_ns key in
      let next_bytes :=
        let* n := checked_add_u64 (Z.of_nat (length key)) (Z.of_nat (length value)) in
        checked_add_u64 bytes_ n in
      match next_bytes with
      | Some n =>
          if n <=? max_bytes
          then
            let r := budget_rows max_bytes n limit raw' in
            mkPrefixScan ((key, value) :: ps_entries r) (ps_limit r)
          else mkPrefixScan [] (Some Bytes)
      | None => mkPrefixScan [] (Some Bytes)
      end
  end.

Definition scan_budgeted (d : D) (ns : Namespace) (prefix : bytes) (after_key : option bytes)
    (max_records max_bytes : Z) (reject_oversized : bool) : res PrefixScan :=
  if max_records =? 0 then Ok PrefixScan_default
  else
    let? _ := check_prefix_cursor prefix after_key in
    let ns_prefix := prefix_key ns prefix in
    let start := prefix_key ns (default prefix after_key) in
    let start := match after_key with Some _ => start ++ [x00] | None => start end in
    let? txn := lift (begin_read d) in
    let? raw := lift (txn_scan_prefix_from_bounded txn ns_prefix start max_records
                        (saturating_add_u64 max_bytes max_records)) in
    let result := budget_rows max_bytes 0 (ps_limit raw) (ps_entries raw) in
    if reject_oversized && (length (ps_entries result) =? 0)%nat &&
       bool_decide (ps_limit result = Some Bytes)
    then Err prefix_scan_budget_error
    else Ok result.

(** [engine/native.rs]: the trait methods. *)
#[global] Instance pagedb_storage : StorageEngine D := {|
  se_get := get_rows;
  se_put := put_rows;
  se_delete := delete_rows;
  se_scan_prefix := scan_prefix_rows;
  se_scan_prefix_bounded := scan_prefix_bounded_rows;
  se_scan_prefix_budgeted s ns p mr mb := scan_budgeted s ns p None mr mb false;
  se_scan_prefix_from_budgeted s ns p after mr mb := scan_budgeted s ns p after mr mb true;
  se_batch_write := batch_write_rows;
  se_count := count_rows;
  se_scan_range := scan_range_rows;
  se_scan_range_bounded := scan_range_bounded_rows
|}.
End storage.

(** ** The backend implements the contract *)

Section refinement.
Context {D T : Type} {PD : Pagedb D T} {PL : PagedbLaws D T} {NB : NamespaceBytes}.
Implicit Types (d : D) (t : T) (m : gmap bytes bytes) (ops : list WriteOp).

Definition pagedb_contents (d : D) : Store := ns_view (db_map d).

Lemma lift_Ok {A} (r : pres A) a : lift r = Ok a ↔ r = Ok a.
Proof. destruct r; simpl; naive_solver. Qed.

Lemma commit_rows_Ok d r d' :
  commit_rows d r = (Ok tt, d') → ∃ t, r = Ok t ∧ db_map d' = txn_map t.
Proof.
  unfold commit_rows. destruct r as [t|e]; [|done].
  destruct (txn_commit d t) as [[[]|?] d''] eqn:Hc; simpl; intros; simplify_eq.
  eauto using txn_commit_ok.
Qed.

Lemma commit_rows_Err d r e d' :
  commit_rows d r = (Err e, d') →
  db_map d' = db_map d ∨ ∃ t, r = Ok t ∧ db_map d' = txn_map t.
Proof.
  unfold commit_rows. destruct r as [t|e']; [|naive_solver].
  destruct (txn_commit d t) as [[[]|?] d''] eqn:Hc; simpl; intros; simplify_eq.
  apply txn_commit_err in Hc. naive_solver.
Qed.

(** The flat effect of an operation list. *)
Definition flat_op m (op : WriteOp) : gmap bytes bytes :=
  match op with
  | Put _ _ v => <[flat_key op := v]> m
  | Delete _ _ => delete (flat_key op) m
  end.
Definition flat_ops m ops : gmap bytes bytes := foldl flat_op m ops.
Definition op_effect (op : WriteOp) : option bytes :=
  match op with Put _ _ v => Some v | Delete _ _ => None end.

Lemma ns_view_ops m ops : ns_view (flat_ops m ops) ≡ st_ops (ns_view m) ops.
Proof.
  revert m. induction ops as [|op ops IH]; intros m; simpl; [done|].
  rewrite IH. apply st_ops_proper; [|done]. intros ns'.
  destruct op; [apply ns_view_insert|apply ns_view_delete].
Qed.

Lemma flat_op_lookup m op q :
  flat_op m op !! q = if decide (flat_key op = q) then op_effect op else m !! q.
Proof. destruct op; simpl; [apply lookup_insert|apply lookup_delete]. Qed.

(** With distinct keys the order of operations does not matter: the map after
    them is determined key by key. *)
Lemma flat_ops_other m ops q : q ∉ flat_key <$> ops → flat_ops m ops !! q = m !! q.
Proof.
  revert m. induction ops as [|op ops IH]; intros m Hq; simpl; [done|].
  rewrite fmap_cons, not_elem_of_cons in Hq. destruct Hq as [Hne Hq].
  change (flat_ops (flat_op m op) ops !! q = m !! q). rewrite IH by done.
  rewrite flat_op_lookup, decide_False; congruence.
Qed.

Lemma flat_ops_elem m ops op :
  NoDup (flat_key <$> ops) → op ∈ ops → flat_ops m ops !! flat_key op = op_effect op.
Proof.
  revert m. induction ops as [|op' ops IH]; intros m Hnd Hin; [set_solver|].
  rewrite fmap_cons in Hnd. apply NoDup_cons in Hnd as [Hnotin Hnd].
  change (flat_ops (flat_op m op') ops !! flat_key op = op_effect op).
  apply elem_of_cons in Hin as [->|Hin]; [|by apply IH].
  rewrite flat_ops_other by done. by rewrite flat_op_lookup, decide_True.
Qed.

Lemma map_puts_app m kvs1 kvs2 : map_puts m (kvs1 ++ kvs2) = map_puts (map_puts m kvs1) kvs2.
Proof. apply foldl_app. Qed.

Lemma map_puts_other m kvs q : q ∉ kvs.*1 → map_puts m kvs !! q = m !! q.
Proof.
  revert m. induction kvs as [|[k v] kvs IH]; intros m Hq; simpl; [done|].
  rewrite fmap_cons, not_elem_of_cons in Hq. destruct Hq as [Hne Hq].
  unfold map_puts in *. simpl. rewrite IH by done. by apply lookup_insert_ne.
Qed.

Lemma map_puts_elem m kvs k v :
  NoDup (kvs.*1) → (k, v) ∈ kvs → map_puts m kvs !! k = Some v.
Proof.
  revert m. induction kvs as [|[k' v'] kvs IH]; intros m Hnd Hin; [set_solver|].
  rewrite fmap_cons in Hnd. apply NoDup_cons in Hnd as [Hnotin Hnd].
  change (map_puts (<[k' := v']> m) kvs !! k = Some v).
  apply elem_of_cons in Hin as [[= -> ->]|Hin]; [|by apply IH].
  rewrite map_puts_other by done. apply lookup_insert_eq.
Qed.

Lemma map_deletes_lookup m ks q :
  map_deletes m ks !! q = if decide (q ∈ ks) then None else m !! q.
Proof.
  revert m. induction ks as [|k ks IH]; intros m; [by rewrite decide_False by set_solver|].
  change (map_deletes (delete k m) ks !! q = if decide (q ∈ k :: ks) then None else m !! q).
  rewrite IH, lookup_delete. repeat case_decide; set_solver.
Qed.

Lemma elem_of_batch_puts ops q v :
  (q, v) ∈ batch_puts ops ↔ ∃ ns k, Put ns k v ∈ ops ∧ q = prefix_key ns k.
Proof.
  unfold batch_puts. rewrite list_elem_of_omap. split.
  - intros ([ns k v'|ns k] & Hin & Heq); simplify_eq/=. eauto.
  - intros (ns & k & Hin & ->). by exists (Put ns k v).
Qed.

Lemma elem_of_batch_deletes ops q :
  q ∈ batch_deletes ops ↔ ∃ ns k, Delete ns k ∈ ops ∧ q = prefix_key ns k.
Proof.
  unfold batch_deletes. rewrite list_elem_of_omap. split.
  - intros ([ns k v'|ns k] & Hin & Heq); simplify_eq/=. eauto.
  - intros (ns & k & Hin & ->). by exists (Delete ns k).
Qed.

Lemma batch_keys_sublist ops :
  (batch_puts ops).*1 `sublist_of` (flat_key <$> ops) ∧
  batch_deletes ops `sublist_of` (flat_key <$> ops).
Proof.
  induction ops as [|[ns k v|ns k] ops [IH1 IH2]]; simpl; split;
    try constructor; done.
Qed.

Lemma batch_puts_nodup ops : NoDup (flat_key <$> ops) → NoDup ((batch_puts ops).*1).
Proof. intros. eapply sublist_NoDup; [done|apply batch_keys_sublist]. Qed.
Lemma batch_deletes_nodup ops : NoDup (flat_key <$> ops) → NoDup (batch_deletes ops).
Proof. intros. eapply sublist_NoDup; [done|apply batch_keys_sublist]. Qed.

(** The batch path, sorted puts then sorted deletes, is the sequential path
    when the keys are distinct. *)
Lemma batch_path_sequential m ops :
  NoDup (flat_key <$> ops) →
  map_deletes (map_puts m (merge_sort kv_le (batch_puts ops)))
    (merge_sort bytes_le (batch_deletes ops)) = flat_ops m ops.
Proof.
  intros Hnd. apply map_eq. intros q. rewrite map_deletes_lookup.
  assert (∀ q, q ∈ merge_sort bytes_le (batch_deletes ops) ↔ q ∈ batch_deletes ops) as Hdel
    by (intros ?; by rewrite merge_sort_Permutation).
  assert (NoDup ((merge_sort kv_le (batch_puts ops)).*1)) as Hnd'.
  { rewrite merge_sort_Permutation. by apply batch_puts_nodup. }
  destruct (decide (q ∈ flat_key <$> ops)) as [Hq|Hq].
  - apply list_elem_of_fmap in Hq as (op & -> & Hin). rewrite flat_ops_elem by done.
    destruct op as [ns k v|ns k]; simpl.
    + rewrite decide_False.
      * apply map_puts_elem; [done|]. rewrite merge_sort_Permutation.
        apply elem_of_batch_puts. eauto.
      * intros (ns' & k' & Hin' & Heq)%Hdel%elem_of_batch_deletes.
        apply list_elem_of_lookup in Hin as [i Hi], Hin' as [j Hj].
        assert (i = j) as ->; [|congruence].
        eapply (NoDup_lookup _ _ _ (prefix_key ns k) Hnd);
          rewrite list_lookup_fmap, ?Hi, ?Hj; simpl; [done|]. unfold flat_key. simpl.
        by rewrite <-Heq.
    + rewrite decide_True; [done|]. apply Hdel, elem_of_batch_deletes. eauto.
  - rewrite flat_ops_other by done. rewrite decide_False.
    + apply map_puts_other. rewrite merge_sort_Permutation.
      destruct (batch_keys_sublist ops) as [Hsub _].
      intros Hin. apply Hq. by eapply elem_of_sublist.
    + destruct (batch_keys_sublist ops) as [_ Hsub].
      intros Hin%Hdel. apply Hq. by eapply elem_of_sublist.
Qed.

Lemma apply_seq_map ops t t' :
  rfold apply_one t ops = Ok t' → txn_map t' = flat_ops (txn_map t) ops.
Proof.
  revert t. induction ops as [|op ops IH]; intros t; simpl; [naive_solver|].
  intros (t1 & H1 & H2)%rbind_Ok. apply IH in H2. rewrite H2. f_equal.
  destruct op; simpl in *; apply lift_Ok in H1; eauto using txn_put_ok, txn_delete_ok.
Qed.

Lemma unique_keys_nodup (l : list bytes) :
  (size (list_to_set l : gset bytes) <? length l)%nat = false → NoDup l.
Proof.
  rewrite Nat.ltb_ge. induction l as [|x l IH]; simpl; [constructor|].
  assert (∀ l : list bytes, size (list_to_set l : gset bytes) ≤ length l)%nat as Hle.
  { clear. induction l as [|x l IH]; simpl; [done|]. rewrite size_union_alt, size_singleton.
    pose proof (subseteq_size (list_to_set l ∖ {[x]} : gset bytes) (list_to_set l)
                  ltac:(set_solver)). lia. }
  specialize (Hle l). destruct (decide (x ∈ l)) as [Hx|Hx].
  - assert ({[x]} ∪ list_to_set l = (list_to_set l : gset bytes)) as -> by set_solver. lia.
  - rewrite size_union, size_singleton by set_solver. intros. constructor; [done|].
    apply IH. lia.
Qed.

(** The transaction a batch builds has the in-order effect, on both paths. *)
Lemma batch_txn_map d t t' ops :
  begin_write d = Ok t → batch_txn t ops = Ok t' → txn_map t' = flat_ops (db_map d) ops.
Proof.
  intros Ht%begin_write_ok. unfold batch_txn. case_match eqn:Hu.
  { rewrite <-Ht. apply apply_seq_map. }
  apply unique_keys_nodup in Hu. rewrite <-Ht, <-batch_path_sequential by done.
  intros (t1 & H1 & H2)%rbind_Ok.
  assert (txn_map t1 = map_puts (txn_map t) (merge_sort kv_le (batch_puts ops))) as <-.
  { assert (ksorted (merge_sort kv_le (batch_puts ops))) as Hs.
    { apply kv_le_strict; [|apply StronglySorted_merge_sort; apply _].
      rewrite merge_sort_Permutation. by apply batch_puts_nodup. }
    destruct (merge_sort kv_le _); [naive_solver|].
    apply lift_Ok in H1. by apply txn_put_batch_ok in H1. }
  assert (StronglySorted bytes_lt (merge_sort bytes_le (batch_deletes ops))) as Hs.
  { apply sorted_nodup_strict; [|apply StronglySorted_merge_sort; apply _].
    rewrite merge_sort_Permutation. by apply batch_deletes_nodup. }
  destruct (merge_sort bytes_le _); [naive_solver|].
  apply lift_Ok in H2. by apply txn_delete_batch_ok in H2.
Qed.

Lemma batch_write_Ok d ops d' :
  batch_write_rows d ops = (Ok tt, d') → pagedb_contents d' ≡ st_ops (pagedb_contents d) ops.
Proof.
  unfold batch_write_rows, pagedb_contents. destruct ops as [|op ops]; [naive_solver|].
  intros (t' & (t & Ht%lift_Ok & Hb)%rbind_Ok & Hd')%commit_rows_Ok.
  rewrite Hd', (batch_txn_map d t t' _ Ht Hb). apply ns_view_ops.
Qed.

Lemma batch_write_Err d ops e d' :
  batch_write_rows d ops = (Err e, d') →
  pagedb_contents d' ≡ pagedb_contents d ∨
  pagedb_contents d' ≡ st_ops (pagedb_contents d) ops.
Proof.
  unfold batch_write_rows, pagedb_contents. destruct ops as [|op ops]; [naive_solver|].
  intros [->|(t' & (t & Ht%lift_Ok & Hb)%rbind_Ok & Hd')]%commit_rows_Err; [by left|].
  right. rewrite Hd', (batch_txn_map d t t' _ Ht Hb). apply ns_view_ops.
Qed.

(** *** Reads and scans *)

Lemma begin_read_map d t : lift (begin_read d) = Ok t → txn_map t = db_map d.
Proof. intros H%lift_Ok. by apply begin_read_ok. Qed.

Lemma starts_with_prefix_key ns p q :
  starts_with (prefix_key ns p) q = true ↔
    ∃ k, q = prefix_key ns k ∧ starts_with p k = true.
Proof.
  setoid_rewrite starts_with_spec. unfold prefix_key. split.
  - intros [r ->]. eauto.
  - intros (k & -> & r & ->). by exists r.
Qed.

Lemma scan_prefix_flat m ns p :
  strip_row <$> filter (λ q, starts_with (prefix_key ns p) q.1 = true) (entries m) =
  filter (λ q, starts_with p q.1 = true) (entries (ns_view m ns)).
Proof. apply strip_scan. intros q v. apply starts_with_prefix_key. Qed.

Lemma prefix_key_le ns k1 k2 : prefix_key ns k1 <=b prefix_key ns k2 ↔ k1 <=b k2.
Proof. unfold bytes_le. by rewrite prefix_key_cmp. Qed.
Lemma prefix_key_lt ns k1 k2 : prefix_key ns k1 <b prefix_key ns k2 ↔ k1 <b k2.
Proof. unfold bytes_lt. by rewrite prefix_key_cmp. Qed.

Lemma ns_byte_le ns k : [ns_byte ns] <=b prefix_key ns k.
Proof. apply (prefix_key_le ns []), bytes_nil_le. Qed.

Definition flat_start (ns : Namespace) (start : option bytes) : bytes :=
  match start with Some s => prefix_key ns s | None => [ns_byte ns] end.
Definition flat_end (ns : Namespace) (end_ : option bytes) : bytes :=
  match end_ with Some e => prefix_key ns e | None => ns_end ns end.

Lemma flat_range ns start end_ q :
  flat_start ns start <=b q ∧ q <b flat_end ns end_ ↔
    ∃ k, q = prefix_key ns k ∧ opt_from start k ∧ opt_until end_ k.
Proof.
  assert ([ns_byte ns] <=b flat_start ns start) as Hlo.
  { destruct start; simpl; [apply ns_byte_le|reflexivity]. }
  assert (∀ q, q <b flat_end ns end_ → q <b ns_end ns) as Hhi.
  { intros q' Hq. destruct end_; simpl in *; [|done].
    eapply bytes_lt_trans; [done|]. apply prefix_key_before_end. }
  split.
  - intros [H1 H2]. destruct (ns_range ns q) as [k ->].
    { by etransitivity. } { by apply Hhi. }
    exists k. split; [done|]. destruct start, end_; simpl in *;
      rewrite ?prefix_key_le, ?prefix_key_lt in *; done.
  - intros (k & -> & H1 & H2). destruct start, end_; simpl in *;
      rewrite ?prefix_key_le, ?prefix_key_lt; eauto using prefix_key_before_end, ns_byte_le.
Qed.

Lemma scan_range_flat m ns start end_ :
  strip_row <$> filter (λ q, flat_start ns start <=b q.1 ∧ q.1 <b flat_end ns end_) (entries m) =
  filter (λ q, opt_from start q.1 ∧ opt_until end_ q.1) (entries (ns_view m ns)).
Proof. apply strip_scan. intros q v. apply flat_range. Qed.

Lemma takeZ_fmap {A B} (f : A → B) n l : f <$> takeZ n l = takeZ n (f <$> l).
Proof. by rewrite !takeZ_take, fmap_take. Qed.

(** *** The byte budget *)

Definition strip_rows (l : list KvPair) : list KvPair := strip_row <$> l.

Lemma budget_rows_spec mb b lim raw :
  0 ≤ b →
  let r := budget_rows mb b lim raw in
  ∃ n, ps_entries r = take n (strip_rows raw) ∧
    (ps_entries r ≠ [] → b + rows_bytes (ps_entries r) ≤ mb) ∧
    (ps_entries r = strip_rows raw ∧ ps_limit r = lim ∨
     (n < length raw)%nat ∧ ps_limit r = Some Bytes).
Proof.
  revert b. induction raw as [|[key value] raw IH]; intros b Hb r; subst r.
  { exists 0%nat. simpl. naive_solver. }
  cbn [budget_rows]. set (key' := strip_ns key).
  destruct (let* n := _ in checked_add_u64 b n) as [n|] eqn:Hn.
  2:{ exists 0%nat. simpl. split; [done|]. split; [done|]. right. split; [lia|done]. }
  destruct (checked_add_u64 (Z.of_nat (length key')) (Z.of_nat (length value)))
    as [w|] eqn:Hw; simpl in Hn; [|done].
  apply checked_add_u64_Some in Hw as [-> _]. apply checked_add_u64_Some in Hn as [-> _].
  destruct (Z.leb_spec (b + (Z.of_nat (length key') + Z.of_nat (length value))) mb).
  2:{ exists 0%nat. simpl. split; [done|]. split; [done|]. right. split; [lia|done]. }
  edestruct (IH (b + (Z.of_nat (length key') + Z.of_nat (length value)))) as (i & Hi & Hbi & Hc);
    [lia|]. exists (S i). cbn [ps_entries ps_limit]. split; [|split].
  - cbn [strip_rows fmap list_fmap take]. by rewrite Hi.
  - intros _. cbn [rows_bytes foldr]. fold (rows_bytes (ps_entries (budget_rows mb
      (b + (Z.of_nat (length key') + Z.of_nat (length value))) lim raw))).
    unfold row_bytes at 1. cbn [fst snd].
    destruct (ps_entries (budget_rows mb _ lim raw)) eqn:Hr.
    + simpl. lia.
    + specialize (Hbi ltac:(done)). lia.
  - destruct Hc as [[Hc1 Hc2]|[Hc1 Hc2]]; [left|right].
    + split; [|done]. cbn [strip_rows fmap list_fmap]. by rewrite Hc1.
    + split; [simpl; lia|done].
Qed.

Lemma length_strip_rows l : length (strip_rows l) = length l.
Proof. apply length_fmap. Qed.

(** The physical start key of a page: the prefix itself, or the least key after
    the cursor. *)
Definition page_start (ns : Namespace) (prefix : bytes) (after : option bytes) : bytes :=
  let start := prefix_key ns (default prefix after) in
  match after with Some _ => start ++ [x00] | None => start end.

Lemma page_rows_flat m ns p after :
  strip_rows (filter (λ q, starts_with (prefix_key ns p) q.1 = true ∧
                           page_start ns p after <=b q.1) (entries m)) =
  filter (λ q, starts_with p q.1 = true ∧ opt_after after q.1) (entries (ns_view m ns)).
Proof.
  apply strip_scan. intros q v. cbn [fst].
  rewrite starts_with_prefix_key. unfold page_start. destruct after as [a|]; cbn [default opt_after].
  - assert (∀ k, prefix_key ns a ++ [x00] <=b prefix_key ns k ↔ a <b k) as Hle.
    { intros k. change (prefix_key ns a ++ [x00]) with (prefix_key ns (a ++ [x00])).
      by rewrite prefix_key_le, bytes_succ_le. }
    split.
    + intros [(k & -> & Hk) Ha%Hle]. eauto.
    + intros (k & -> & Hk & Ha%Hle). eauto.
  - split; [naive_solver|]. intros (k & -> & Hk & _). split; [eauto|].
    rewrite prefix_key_le. apply starts_with_spec in Hk as [r ->]. apply bytes_le_app.
Qed.

Lemma strip_rows_prefix l1 l2 : l1 `prefix_of` l2 → strip_rows l1 `prefix_of` strip_rows l2.
Proof. intros [k ->]. exists (strip_rows k). apply fmap_app. Qed.

Lemma prefix_of_length {A} (l1 l2 : list A) :
  l1 `prefix_of` l2 → length l1 = length l2 → l1 = l2.
Proof.
  intros [k ->]. rewrite length_app. intros. destruct k; [by rewrite app_nil_r|simpl in *; lia].
Qed.

(** Cutting a page of physical rows down to the logical byte budget keeps it a
    budgeted page of the stripped rows. *)
Lemma budget_rows_ok rows mr mb mb' raw :
  0 ≤ mb → budget_ok rows mr mb' raw →
  budget_ok (strip_rows rows) mr mb (budget_rows mb 0 (ps_limit raw) (ps_entries raw)).
Proof.
  intros Hmb [Hpre Hrec _ Hcomp].
  destruct (budget_rows_spec mb 0 (ps_limit raw) (ps_entries raw)) as (n & Hn & Hb & Hc); [lia|].
  set (r := budget_rows mb 0 (ps_limit raw) (ps_entries raw)) in *.
  assert (length (ps_entries r) ≤ length (ps_entries raw))%nat as Hlen
    by (rewrite Hn, length_take, length_strip_rows; lia).
  split.
  - etransitivity; [|apply strip_rows_prefix, Hpre]. rewrite Hn. apply prefix_take.
  - lia.
  - destruct (ps_entries r) eqn:Hr; [simpl; lia|]. rewrite <-Hr in *.
    specialize (Hb ltac:(by rewrite Hr)). lia.
  - destruct Hc as [[He Hl]|[Hlt Hl]].
    + rewrite Hl, He, Hcomp. split; [by intros ->|].
      intros Heq%(f_equal length). rewrite !length_strip_rows in Heq.
      by apply prefix_of_length.
    + rewrite Hl. split; [done|]. intros Heq%(f_equal length).
      rewrite Hn, length_take, !length_strip_rows in Heq.
      apply prefix_length in Hpre. lia.
Qed.

Lemma scan_budgeted_Ok d ns p after mr mb rej r :
  0 < mr → 0 ≤ mb → scan_budgeted d ns p after mr mb rej = Ok r →
  budget_ok (st_rows_after (pagedb_contents d) ns p after) mr mb r ∧
  (rej = true → ps_entries r = [] → st_rows_after (pagedb_contents d) ns p after = []).
Proof.
  intros Hmr Hmb. unfold scan_budgeted. rewrite (proj2 (Z.eqb_neq _ _)) by lia.
  intros (_ & _ & (t & Ht%begin_read_map & (raw & Hraw%lift_Ok & H)%rbind_Ok)%rbind_Ok)%rbind_Ok.
  apply txn_scan_prefix_from_bounded_ok in Hraw as [Hraw Hempty];
    [|lia|unfold saturating_add_u64; unfold u64_max; lia].
  rewrite Ht in Hraw. apply (budget_rows_ok _ _ mb) in Hraw as Hok; [|done].
  fold (page_start ns p after) in Hok. rewrite page_rows_flat in Hok.
  change (budget_ok (st_rows_after (pagedb_contents d) ns p after) mr mb
    (budget_rows mb 0 (ps_limit raw) (ps_entries raw))) in Hok.
  destruct (budget_rows_spec mb 0 (ps_limit raw) (ps_entries raw)) as (n & _ & _ & Hc); [lia|].
  set (r0 := budget_rows mb 0 (ps_limit raw) (ps_entries raw)) in *.
  case_match eqn:Hrej; [done|]. injection H as <-. split; [done|].
  intros -> He. rewrite He in Hrej. simpl in Hrej. apply bool_decide_eq_false in Hrej.
  destruct Hok as [_ _ _ Hcomp]. rewrite <-He. symmetry. apply Hcomp.
  destruct Hc as [[Hc1 Hc2]|[_ Hc2]]; [|by rewrite Hc2 in Hrej].
  rewrite He in Hc1. symmetry in Hc1. apply fmap_nil_inv in Hc1.
  destruct (ps_limit r0) as [[]|] eqn:Hlim; [|done..].
  apply Hempty in Hc1 as [|]; [congruence|lia].
Qed.

(** The storage contract, discharged. *)
#[global] Instance pagedb_storage_laws : StorageLaws D.
Proof.
  refine {| contents := pagedb_contents |}; simpl.
  - intros d ns k v (t & Ht%begin_read_map & Hg%lift_Ok)%rbind_Ok.
    apply txn_get_ok in Hg. rewrite KeyBuf_prefix_key in Hg.
    unfold pagedb_contents. by rewrite ns_view_lookup, <-Ht.
  - intros d ns k v d' (t' & (t & Ht%lift_Ok & Hp%lift_Ok)%rbind_Ok & Hd)%commit_rows_Ok ns'.
    unfold pagedb_contents. rewrite Hd, (txn_put_ok _ _ _ _ Hp), (begin_write_ok _ _ Ht).
    apply ns_view_insert.
  - intros d ns k v e d' [Hd|(t' & (t & Ht%lift_Ok & Hp%lift_Ok)%rbind_Ok & Hd)]%commit_rows_Err;
      unfold pagedb_contents; rewrite Hd; [by left|right]. intros ns'.
    rewrite (txn_put_ok _ _ _ _ Hp), (begin_write_ok _ _ Ht). apply ns_view_insert.
  - intros d ns k d' (t' & (t & Ht%lift_Ok & Hp%lift_Ok)%rbind_Ok & Hd)%commit_rows_Ok ns'.
    unfold pagedb_contents. rewrite Hd, (txn_delete_ok _ _ _ Hp), (begin_write_ok _ _ Ht).
    apply ns_view_delete.
  - intros d ns k e d' [Hd|(t' & (t & Ht%lift_Ok & Hp%lift_Ok)%rbind_Ok & Hd)]%commit_rows_Err;
      unfold pagedb_contents; rewrite Hd; [by left|right]. intros ns'.
    rewrite (txn_delete_ok _ _ _ Hp), (begin_write_ok _ _ Ht). apply ns_view_delete.
  - apply batch_write_Ok.
  - apply batch_write_Err.
  - intros d ns p l (t & Ht%begin_read_map & (raw & Hraw%lift_Ok & [= <-])%rbind_Ok)%rbind_Ok.
    apply txn_scan_prefix_ok in Hraw as [-> _]. rewrite Ht. apply scan_prefix_flat.
  - intros d ns p n l Hn. unfold scan_prefix_bounded_rows. case_match eqn:Hn0.
    { intros [= <-]. apply Z.eqb_eq in Hn0 as ->. by rewrite takeZ_take. }
    intros (t & Ht%begin_read_map & (raw & Hraw%lift_Ok & [= <-])%rbind_Ok)%rbind_Ok.
    apply txn_scan_prefix_from_ok in Hraw as ->. rewrite Ht, takeZ_fmap. f_equal.
    change (prefix_key ns p) with (page_start ns p None) at 2.
    etransitivity; [apply (page_rows_flat _ _ _ None)|].
    apply filter_ext. simpl. tauto.
  - intros d ns p mr mb r Hmr Hmb H. apply scan_budgeted_Ok in H as [H _]; [|done..].
    by rewrite st_rows_after_None in H.
  - intros d ns p after mr mb r Hmr Hmb H. apply scan_budgeted_Ok in H as [H1 H2]; auto.
  - intros d ns n (t & Ht%begin_read_map & (raw & Hraw%lift_Ok & [= <-])%rbind_Ok)%rbind_Ok.
    apply txn_scan_prefix_ok in Hraw as [Hr ?]. split; [|done].
    pose proof (scan_prefix_flat (db_map d) ns []) as Hf.
    rewrite (filter_all (λ p : KvPair, starts_with [] p.1 = true)) in Hf by done.
    apply (f_equal length) in Hf.
    rewrite length_fmap, length_entries in Hf. unfold pagedb_contents.
    rewrite <-Hf, <-Ht, Hr. done.
  - intros d ns start n l
      (t & Ht%begin_read_map & (raw & Hraw%lift_Ok & [= <-])%rbind_Ok)%rbind_Ok.
    apply txn_scan_ok in Hraw as [Hr Hlen].
    pose proof (scan_range_flat (db_map d) ns (Some start) None) as Hf. rewrite <-Ht in Hf.
    simpl in Hf. rewrite <-Hr in Hf. rewrite takeZ_fmap, Hf, Ht.
    rewrite <-(length_fmap strip_row), Hf, Ht in Hlen.
    assert (st_scan_from (pagedb_contents d) ns start =
      filter (λ q, opt_from (Some start) q.1 ∧ opt_until None q.1)
        (entries (ns_view (db_map d) ns))) as -> by (apply filter_ext; simpl; tauto).
    done.
  - intros d ns start end_ limit l
      (t & Ht%begin_read_map & (raw & Hraw%lift_Ok & [= <-])%rbind_Ok)%rbind_Ok.
    apply txn_scan_ok in Hraw as [Hr Hlen].
    pose proof (scan_range_flat (db_map d) ns start end_) as Hf. rewrite <-Ht in Hf.
    fold (flat_start ns start) in Hr. fold (flat_end ns end_) in Hr.
    rewrite <-Hr in Hf. rewrite takeZ_fmap, Hf, Ht.
    rewrite <-(length_fmap strip_row), Hf, Ht in Hlen. done.
Defined.
End refinement.
