(* ===== verification/PagedbMem.v ===== *)
(** * The storage theorems, and pagedb in memory

    The theorems that make the backend of [Pagedb.v] correct, and an instance
    of the pagedb interface held in one finite map.  The instance shows that
    the laws assumed of pagedb can hold together, and runs every example of the
    development that needs storage. *)

From Stdlib Require Import ZArith Lia Strings.Byte.
From stdpp Require Import prelude gmap sorting strings.
From S2P Require Import Prelude Bytes Ordered StorageTrait Pagedb.

Local Open Scope Z_scope.

(** ** An in-memory pagedb *)

Definition MemDb : Type := gmap bytes bytes.
Definition MemTxn : Type := gmap bytes bytes.

(** A scan that would not fit a [Vec] fails. *)
Definition mem_rows (l : list KvPair) : pres (list KvPair) :=
  if Z.of_nat (length l) <=? usize_max then Ok l else Err POther.

Fixpoint mem_page (max_records max_bytes : Z) (rows : list KvPair) : PrefixScan :=
  match rows with
  | [] => mkPrefixScan [] None
  | r :: rows' =>
      if max_records =? 0 then mkPrefixScan [] (Some Records)
      else if row_bytes r <=? max_bytes
           then let p := mem_page (max_records - 1) (max_bytes - row_bytes r) rows' in
                mkPrefixScan (r :: ps_entries p) (ps_limit p)
           else mkPrefixScan [] (Some Bytes)
  end.

#[global] Instance mem_pagedb : Pagedb MemDb MemTxn := {|
  begin_read d := Ok d;
  begin_write d := Ok d;
  txn_get t k := Ok (t !! k);
  txn_scan_prefix t p := mem_rows (filter (λ q, starts_with p q.1 = true) (entries t));
  txn_scan_prefix_from t p start n :=
    Ok (takeZ n (filter (λ q, starts_with p q.1 = true ∧ start <=b q.1) (entries t)));
  txn_scan_prefix_from_bounded t p start mr mb :=
    Ok (mem_page mr mb (filter (λ q, starts_with p q.1 = true ∧ start <=b q.1) (entries t)));
  txn_scan t a b := mem_rows (filter (λ q, a <=b q.1 ∧ q.1 <b b) (entries t));
  txn_put t k v := Ok (<[k := v]> t);
  txn_delete t k := Ok (delete k t);
  txn_put_batch t kvs := Ok (map_puts t kvs);
  txn_delete_batch t ks := Ok (map_deletes t ks);
  txn_commit _ t := (Ok tt, t)
|}.

Lemma mem_rows_Ok l l' : mem_rows l = Ok l' → l' = l ∧ Z.of_nat (length l') ≤ usize_max.
Proof. unfold mem_rows. case_match eqn:H; [|done]. intros [= <-]. split; [done|lia]. Qed.

Lemma mem_page_ok mr mb rows :
  0 ≤ mr → 0 ≤ mb → budget_ok rows mr mb (mem_page mr mb rows).
Proof.
  revert mr mb. induction rows as [|r rows IH]; intros mr mb Hmr Hmb; simpl.
  { split; simpl; try done; lia. }
  case_match eqn:Hz.
  { split; simpl; try done; try lia. apply prefix_nil. }
  case_match eqn:Hb; [|split; simpl; try done; try lia; apply prefix_nil].
  destruct (IH (mr - 1) (mb - row_bytes r)) as [H1 H2 H3 H4]; [lia..|].
  split; cbn [ps_entries ps_limit length].
  - by apply prefix_cons.
  - lia.
  - unfold rows_bytes in *. cbn [foldr]. lia.
  - rewrite H4. split; [by intros ->|by intros [= ?]].
Qed.

Lemma mem_page_empty mr mb rows :
  ps_entries (mem_page mr mb rows) = [] →
  ps_limit (mem_page mr mb rows) ≠ Some Records ∨ mr = 0.
Proof.
  destruct rows; simpl; [by left|]. case_match; simpl; [right; lia|].
  case_match; simpl; [done|by left].
Qed.

#[global] Instance mem_pagedb_laws : PagedbLaws MemDb MemTxn.
Proof.
  refine {| db_map := id; txn_map := id |}; simpl.
  all: try (intros; congruence).
  - intros t p l H%mem_rows_Ok. done.
  - intros t p start mr mb r ?? [= <-]. split; [by apply mem_page_ok|apply mem_page_empty].
  - intros t a b l H%mem_rows_Ok. done.
Defined.

(** Discriminants for the examples: the position in the declaration. *)
Definition mem_ns_code (ns : Namespace) : Z :=
  match ns with
  | Meta => 0 | Graph => 1 | Kv => 2 | Vector => 3 | Strict => 4 | Array => 5 | Fts => 6
  | Crdt => 7 | Columnar => 8 | ArrayDelta => 9 | Spatial => 10 | LatestVersion => 11
  | GraphHistory => 12 | LoroState => 13 | DocumentHistory => 14 | ArrayOpLog => 15
  | StrictHistory => 16 | ColumnarPending => 17 | FtsIndexPending => 18
  | FtsDeletePending => 19 | SpatialDeletePending => 20 | VectorInsertPending => 21
  | VectorDeletePending => 22 | TimeseriesPending => 23 | SpatialInsertPending => 24
  | KvPushPending => 25
  end.

#[global] Instance mem_namespace_bytes : NamespaceBytes.
Proof.
  refine {| ns_byte ns := zb (mem_ns_code ns) |}.
  - intros [] []; vm_compute; congruence.
  - intros []; by vm_compute.
Defined.

Lemma mem_rows_small (P : KvPair → Prop) `{∀ x, Decision (P x)} (d : gmap bytes bytes) :
  Z.of_nat (size d) ≤ usize_max → mem_rows (filter P (entries d)) = Ok (filter P (entries d)).
Proof.
  intros Hd. unfold mem_rows. rewrite (proj2 (Z.leb_le _ _)); [done|].
  pose proof (length_filter P (entries d)) as Hl. rewrite length_entries in Hl. lia.
Qed.

(** In memory nothing fails while the rows fit a [Vec]. *)
#[global] Instance mem_progress : StorageProgress MemDb.
Proof.
  refine {| healthy (d : MemDb) := Z.of_nat (size d) ≤ usize_max |}; simpl.
  - intros. unfold get_rows. simpl. eauto.
  - intros. unfold put_rows. simpl. eauto.
  - intros. unfold delete_rows. simpl. eauto.
  - intros d ops Hd. unfold batch_write_rows. destruct ops as [|op ops]; [eauto|].
    assert (∃ t, batch_txn (T:=MemTxn) d (op :: ops) = Ok t) as [t Ht].
    { unfold batch_txn. case_match.
      - clear. generalize (op :: ops). intros l. revert d.
        induction l as [|o l IH]; intros d; simpl; [eauto|].
        destruct o; simpl; apply IH.
      - repeat case_match; simpl; eauto. }
    simpl. rewrite Ht. simpl. eauto.
  - intros d ns p Hd. unfold scan_prefix_rows. simpl. rewrite mem_rows_small by done. simpl. eauto.
  - intros d ns Hd. unfold count_rows. simpl. rewrite mem_rows_small by done. simpl. eauto.
  - intros d ns start n Hd. unfold scan_range_rows. simpl. rewrite mem_rows_small by done.
    simpl. eauto.
  - intros d ns a b n Hd. unfold scan_range_bounded_rows. simpl.
    rewrite mem_rows_small by done. simpl. eauto.
Defined.

Lemma mem_empty_contents ns : contents (∅ : MemDb) ns = ∅.
Proof.
  apply map_eq. intros k. change (contents (∅ : MemDb) ns) with (ns_view ∅ ns).
  by rewrite ns_view_lookup, !lookup_empty.
Qed.

(** ** Paging *)

(** The cursor for the page after [rows]: its last key. *)
Definition next_cursor (after : option bytes) (rows : list KvPair) : option bytes :=
  match last rows with Some p => Some p.1 | None => after end.

(** In a sorted list, the rows after the last key of an initial segment are the
    rest. *)
Lemma filter_after_segment (l1 l2 : list KvPair) p :
  ksorted (l1 ++ l2) → last l1 = Some p → filter (λ q, p.1 <b q.1) (l1 ++ l2) = l2.
Proof.
  intros Hs Hl. apply last_Some in Hl as [l ->].
  apply ksorted_app_inv in Hs as (Hs1 & Hs2 & H12).
  rewrite filter_app, filter_none, filter_all; [done| |].
  - intros q Hq. apply (H12 p q); [set_solver|done].
  - intros q Hq. apply elem_of_app in Hq as [Hq| ->%list_elem_of_singleton].
    + apply ksorted_app_inv in Hs1 as (_ & _ & Hlt).
      assert (q.1 <b p.1) as Hqp by (apply Hlt; set_solver).
      intros Hpq. by apply (bytes_lt_irrefl p.1), (bytes_lt_trans _ q.1).
    + apply bytes_lt_irrefl.
Qed.

Lemma rows_after_cursor (m : Store) ns p after page rest :
  st_rows_after m ns p after = page ++ rest →
  st_rows_after m ns p (next_cursor after page) = rest.
Proof.
  intros Heq. unfold next_cursor. destruct (last page) as [q|] eqn:Hl.
  2:{ apply last_None in Hl as ->. done. }
  assert (ksorted (page ++ rest)) as Hs
    by (rewrite <-Heq; apply ksorted_filter, entries_ksorted).
  rewrite <-(filter_after_segment page rest q Hs Hl), <-Heq.
  unfold st_rows_after. rewrite list_filter_filter. apply filter_ext. intros x. simpl.
  assert (q ∈ st_rows_after m ns p after) as Hq.
  { rewrite Heq. apply last_Some in Hl as [? ->]. set_solver. }
  destruct q as [k v]. apply elem_of_st_rows_after in Hq as (_ & Ha & _). simpl.
  split; [|tauto]. intros [? Hlt]. split; [done|]. split; [done|].
  destruct after as [a|]; [|done]. simpl in *. by apply (bytes_lt_trans _ k).
Qed.

(** ** The theorems *)

(** C1: any session of requests against the pagedb backend is a trace of one
    finite map per namespace: reads answer from the map, successful writes
    change it exactly as named, a failed write or batch took place whole or not
    at all, and no request touches another namespace. *)
Theorem storage_trace_refinement {D T} {PD : Pagedb D T} {PL : PagedbLaws D T}
    {NB : NamespaceBytes} (rs : list Request) (d : D) :
  store_steps (pagedb_contents d) (run_requests d rs).1
    (pagedb_contents (run_requests d rs).2).
Proof. exact (run_requests_refines (H0 := pagedb_storage_laws) rs d). Qed.

(** C27: paging through a prefix loses and repeats nothing.  A page holds the next
    rows in key order within both budgets; the rows after its last key are
    exactly the rest; a page is empty only when no row is left; and it reports
    no limit exactly when it reached the end. *)
Theorem scan_pages_complete {D T} {PD : Pagedb D T} {PL : PagedbLaws D T}
    {NB : NamespaceBytes} (d : D) ns p after max_records max_bytes r :
  0 < max_records → 0 ≤ max_bytes →
  scan_budgeted d ns p after max_records max_bytes true = Ok r →
  let rows := st_rows_after (pagedb_contents d) ns p after in
  let rest := st_rows_after (pagedb_contents d) ns p (next_cursor after (ps_entries r)) in
  rows = ps_entries r ++ rest ∧
  (ps_entries r = [] → rows = []) ∧
  (ps_limit r = None ↔ rest = []) ∧
  Z.of_nat (length (ps_entries r)) ≤ max_records ∧
  rows_bytes (ps_entries r) ≤ max_bytes.
Proof.
  intros Hmr Hmb Hr rows rest.
  apply scan_budgeted_Ok in Hr as [[[l Hl] Hrec Hbytes Hcomp] Hempty]; [|done..].
  assert (rest = l) as Hrest by (by apply rows_after_cursor). fold rows in Hl, Hcomp, Hempty.
  split; [by rewrite Hrest|]. split; [auto|]. split; [|done].
  rewrite Hcomp, Hrest, Hl. split.
  - intros Heq%(f_equal length). rewrite length_app in Heq. destruct l; [done|simpl in *; lia].
  - intros ->. by rewrite app_nil_r.
Qed.

(** ** Examples *)

Definition ex_db : MemDb :=
  (batch_write_rows ∅ [Put Kv (bs "a:2") (bs "two"); Put Kv (bs "a:1") (bs "one");
                       Put Meta (bs "a:1") (bs "m"); Put Kv (bs "a:3") (bs "three");
                       Delete Kv (bs "a:3"); Put Kv (bs "b") (bs "x")]).2.

Example ex_db_scan : scan_prefix_rows ex_db Kv (bs "a:") =
  Ok [(bs "a:1", bs "one"); (bs "a:2", bs "two")].
Proof. vm_compute. reflexivity. Qed.

Lemma storage_trace_refinement_witness :
  store_steps (pagedb_contents ex_db)
    [(RPut Kv (bs "k") (bs "v"), AUnit); (RGet Kv (bs "k"), AValue (Some (bs "v")));
     (RDelete Kv (bs "k"), AUnit); (RGet Kv (bs "k"), AValue None)]
    (pagedb_contents (run_requests ex_db
       [RPut Kv (bs "k") (bs "v"); RGet Kv (bs "k"); RDelete Kv (bs "k"); RGet Kv (bs "k")]).2).
Proof.
  exact (storage_trace_refinement
    [RPut Kv (bs "k") (bs "v"); RGet Kv (bs "k"); RDelete Kv (bs "k"); RGet Kv (bs "k")] ex_db).
Defined.

Lemma scan_pages_complete_witness :
  st_rows_after (pagedb_contents ex_db) Kv (bs "a:") None =
  [(bs "a:1", bs "one")] ++ st_rows_after (pagedb_contents ex_db) Kv (bs "a:") (Some (bs "a:1")).
Proof.
  refine (proj1 (scan_pages_complete ex_db Kv (bs "a:") None 1 100
    (mkPrefixScan [(bs "a:1", bs "one")] (Some Records)) _ _ _)); vm_compute; done.
Defined.
