(* ===== verification/Checksum.v ===== *)
(** * Checksummed envelopes

    [src/nodedb-lite/src/storage/checksum.rs]: the [payload ++ crc32c] envelope
    of every persisted checkpoint.  The checksum function is outside the
    repository and is a parameter of which only its range (a [u32]) is used. *)

From Stdlib Require Import ZArith Lia Strings.Byte.
From stdpp Require Import prelude strings.
From S2P Require Import Prelude Bytes.

Local Open Scope Z_scope.

Class Crc32c := {
  crc32c : bytes → Z;
  crc32c_range p : 0 ≤ crc32c p < 2 ^ 32
}.

Section envelope.
Context {CRC : Crc32c}.

Definition MIN_ENVELOPE_SIZE : nat := 5.

Definition wrap (payload : bytes) : bytes :=
  let checksum := crc32c payload in
  payload ++ le_bytes 4 checksum.

Definition unwrap (envelope : bytes) : option bytes :=
  if (length envelope <? MIN_ENVELOPE_SIZE)%nat then None
  else
    let split := (length envelope - 4)%nat in
    let payload := take split envelope in
    let stored_checksum := le_val (drop split envelope) in
    let computed := crc32c payload in
    if negb (computed =? stored_checksum) then None else Some payload.

Lemma length_wrap p : length (wrap p) = (length p + 4)%nat.
Proof. unfold wrap. by rewrite length_app, length_le_bytes. Qed.

Lemma unwrap_wrap p : p ≠ [] → unwrap (wrap p) = Some p.
Proof.
  intros Hp. unfold unwrap. rewrite length_wrap.
  rewrite (proj2 (Nat.ltb_ge _ _)) by (unfold MIN_ENVELOPE_SIZE; destruct p; [done|simpl; lia]).
  replace (length p + 4 - 4)%nat with (length p) by lia. unfold wrap.
  rewrite take_app_length, drop_app_length, le_val_bytes_small by apply crc32c_range.
  by rewrite Z.eqb_refl.
Qed.

(** C32: the envelope round-trips and detects damage: an envelope opens to a payload
    exactly when the payload is not empty and the envelope is, byte for byte,
    the one [wrap] makes of it.  An envelope whose checksum bytes were altered,
    or whose payload was altered without a matching checksum, is refused. *)
Theorem unwrap_iff_wrapped envelope payload :
  unwrap envelope = Some payload ↔ payload ≠ [] ∧ envelope = wrap payload.
Proof.
  split; [|by intros [? ->]; apply unwrap_wrap].
  unfold unwrap, MIN_ENVELOPE_SIZE. case_match eqn:Hl; [done|]. apply Nat.ltb_ge in Hl.
  set (split := (length envelope - 4)%nat). case_match eqn:Hc; [done|].
  apply negb_false_iff, Z.eqb_eq in Hc. intros [= <-]. split.
  - intros H%(f_equal length). rewrite length_take in H. simpl in H. lia.
  - unfold wrap. rewrite Hc.
    assert (length (drop split envelope) = 4%nat) as <- by (rewrite length_drop; lia).
    by rewrite le_bytes_val, take_drop.
Qed.
End envelope.

(** ** Examples: CRC-32C (Castagnoli), bit by bit *)

Definition crc_bit (c : Z) : Z :=
  if Z.odd c then Z.lxor (Z.shiftr c 1) 2197175160 else Z.shiftr c 1.
Definition crc_step (c : Z) (b : byte) : Z := Nat.iter 8 crc_bit (Z.lxor c (bz b)).
Definition crc_castagnoli (p : bytes) : Z :=
  Z.land (Z.lxor (foldl crc_step 4294967295 p) 4294967295) 4294967295.

#[local] Program Instance crc_example : Crc32c := {| crc32c := crc_castagnoli |}.
Next Obligation.
  intros p. unfold crc_castagnoli. rewrite (Z.land_ones _ 32) by lia.
  apply Z.mod_pos_bound. lia.
Qed.

Example crc_check_value : crc32c (bs "123456789") = 3808858755.
Proof. vm_compute. reflexivity. Qed.

Lemma unwrap_iff_wrapped_witness :
  unwrap (wrap (bs "loro")) = Some (bs "loro") ∧ unwrap (wrap []) = None.
Proof.
  split; [|vm_compute; reflexivity].
  apply (proj2 (unwrap_iff_wrapped (wrap (bs "loro")) (bs "loro"))). done.
Defined.
