(* ===== verification/IndexKey.v ===== *)
(** * Keys of the secondary indexes

    [src/nodedb-lite/src/index/key.rs]: the storage keys of index definitions
    and entries, and the order-preserving value encoding the entries sort by.

    [Value] is an enum of another crate; its constructors are the variants the
    code names, with the text of a decimal and an opaque [Other] for the rest.
    Parsing text as a number or a timestamp, the MessagePack encoding of the
    other values and the pattern of [f64::NAN] are parameters. *)

From Stdlib Require Import ZArith Lia Strings.Byte Floats.SpecFloat.
From stdpp Require Import prelude gmap strings.
From S2P Require Import Prelude Bytes Text F64.

Local Open Scope Z_scope.

(** ** Keys *)

Definition ROOT : bytes := xff :: bs "idx".
Definition ENTRY : byte := x01.
Definition DEF : byte := x02.
Definition FORMAT : byte := x03.
Definition LEGACY_CLEARED : byte := x04.
Definition SORTED_DEF : byte := x05.

Definition TAG_BOOL : byte := x10.
Definition TAG_NUMBER : byte := x20.
Definition TAG_DATETIME : byte := x30.
Definition TAG_STRING : byte := x40.
Definition TAG_OTHER : byte := x50.

Definition TERMINATOR : bytes := [x00; x01].
Definition ESCAPED_ZERO : bytes := [x00; xff].

Definition push_component (key component : bytes) : bytes :=
  let n := Z.of_nat (length component) in
  let len := if n <=? u32_max then n else u32_max in
  key ++ u32_be len ++ component.

Definition read_component (bytes_ : bytes) : option (bytes * bytes) :=
  let* len_bytes := get_to 4 bytes_ in
  let len := be_val len_bytes in
  let* e := checked_add_u64 4 len in
  let* upto := get_to (Z.to_nat e) bytes_ in
  let* component := from_utf8 (drop 4 upto) in
  let* rest := get_from (Z.to_nat e) bytes_ in
  Some (component, rest).

Definition format_key : bytes := ROOT ++ [FORMAT].
Definition legacy_cleared_key : bytes := ROOT ++ [LEGACY_CLEARED].
Definition defs_prefix : bytes := ROOT ++ [DEF].
Definition def_key (collection name : bytes) : bytes :=
  push_component (push_component defs_prefix collection) name.
Definition sorted_defs_prefix : bytes := ROOT ++ [SORTED_DEF].
Definition sorted_def_key (name : bytes) : bytes := push_component sorted_defs_prefix name.
Definition entries_prefix : bytes := ROOT ++ [ENTRY].
Definition collection_prefix (collection : bytes) : bytes :=
  push_component entries_prefix collection.
Definition index_prefix (collection name : bytes) : bytes :=
  push_component (collection_prefix collection) name.

Definition entry_key (index_prefix encoded_value doc_id : bytes) : bytes :=
  index_prefix ++ encoded_value ++ doc_id.

(** The escaped payload's scan: at offset [i], looking at a byte and the next. *)
Fixpoint escaped_len (i : nat) (l : bytes) : option nat :=
  match l with
  | b0 :: ((b1 :: rest) as tl) =>
      if decide (b0 = x00) then
        if decide (b1 = x01) then Some (i + 2)%nat
        else if decide (b1 = xff) then escaped_len (i + 2) rest
        else None
      else escaped_len (i + 1) tl
  | _ => None
  end.

Definition encoded_len (l : bytes) : option nat :=
  match l with
  | [] => None
  | tag :: payload =>
      if decide (tag = TAG_BOOL) then if (2 <=? length l)%nat then Some 2%nat else None
      else if decide (tag = TAG_NUMBER ∨ tag = TAG_DATETIME)
      then if (9 <=? length l)%nat then Some 9%nat else None
      else if decide (tag = TAG_STRING ∨ tag = TAG_OTHER) then escaped_len 1 payload
      else None
  end.

Record ParsedEntry := mkParsedEntry { pe_collection : bytes; pe_doc_id : bytes }.

Definition parse_entry (key : bytes) : option ParsedEntry :=
  let* rest := strip_prefix entries_prefix key in
  let* c := read_component rest in
  let '(collection, rest) := c in
  let* i := read_component rest in
  let '(_, rest) := i in
  let* value_len := encoded_len rest in
  let* tail := get_from value_len rest in
  let* doc_id := from_utf8 tail in
  Some (mkParsedEntry collection doc_id).

Definition entry_doc_id (key index_prefix : bytes) : option bytes :=
  let* rest := strip_prefix index_prefix key in
  let* value_len := encoded_len rest in
  let* tail := get_from value_len rest in
  from_utf8 tail.

(** Document ids of rows keyed by bytes: lowercase hex. *)
Definition doc_id_of_key (l : bytes) : bytes :=
  concat ((λ b, [digit_char (Z.shiftr (bz b) 4); digit_char (Z.land (bz b) 15)]) <$> l).

Definition nibble (c : byte) : option Z :=
  if in_range c 48 57 then Some (bz c - 48)
  else if in_range c 97 102 then Some (bz c - 97 + 10)
  else None.

(** [chunks(2).map(..).collect()] on an even number of bytes. *)
Fixpoint key_of_pairs (l : bytes) : option bytes :=
  match l with
  | c1 :: c2 :: rest =>
      let* h := nibble c1 in
      let* lo := nibble c2 in
      let* tail := key_of_pairs rest in
      Some (zb (Z.lor (Z.shiftl h 4) lo) :: tail)
  | _ => Some []
  end.

Definition key_of_doc_id (id : bytes) : option bytes :=
  if Nat.even (length id) then key_of_pairs id else None.

(** ** Value encoding *)

Inductive Value (O : Type) :=
| VNull
| VBool (b : bool)
| VInteger (i : Z)
| VFloat (bits : Z)
| VDecimal (text : bytes)
| VDateTime (micros : Z)
| VNaiveDateTime (micros : Z)
| VString (s : bytes)
| VArray (items : list (Value O))
| VObject (fields : gmap bytes (Value O))
| VOther (o : O).
Arguments VNull {O}.
Arguments VBool {O}.
Arguments VInteger {O}.
Arguments VFloat {O}.
Arguments VDecimal {O}.
Arguments VDateTime {O}.
Arguments VNaiveDateTime {O}.
Arguments VString {O}.
Arguments VArray {O}.
Arguments VObject {O}.
Arguments VOther {O}.

(** What the encoding uses of other crates and of the platform. *)
Class ValueCodec (O : Type) := {
  parse_f64 : bytes → option Z;
  parse_datetime : bytes → option Z;
  to_msgpack : Value O → option bytes;
  F64_NAN : Z;
  F64_NAN_ok : u64_ok F64_NAN ∧ f64_is_nan F64_NAN = true;
  parse_f64_ok s f : parse_f64 s = Some f → u64_ok f;
  parse_datetime_ok s t : parse_datetime s = Some t → i64_ok t
}.

Section encoding.
Context {O : Type} {VC : ValueCodec O}.

Definition f64_sortable (bits : Z) : Z :=
  if negb (Z.land bits (Z.shiftl 1 63) =? 0) then Z.lnot bits mod 2 ^ 64
  else Z.lxor bits (Z.shiftl 1 63).

Definition encode_number (f : Z) : bytes :=
  let f := if f64_is_zero f then 0 else if f64_is_nan f then F64_NAN else f in
  TAG_NUMBER :: u64_be (f64_sortable f).

Definition encode_datetime (micros : Z) : bytes :=
  let sortable := Z.lxor (i64_as_u64 micros) (Z.shiftl 1 63) in
  TAG_DATETIME :: u64_be sortable.

Definition escape_byte (b : byte) : bytes := if decide (b = x00) then ESCAPED_ZERO else [b].

Definition encode_escaped (tag : byte) (payload : bytes) : bytes :=
  tag :: concat (escape_byte <$> payload) ++ TERMINATOR.

Definition encode_typed (value : Value O) : option bytes :=
  match value with
  | VNull | VArray _ | VObject _ => None
  | VBool b => Some [TAG_BOOL; if b then x01 else x00]
  | VInteger i => Some (encode_number (i64_as_f64 i))
  | VFloat f => Some (encode_number f)
  | VDecimal d => encode_number <$> parse_f64 d
  | VDateTime t | VNaiveDateTime t => Some (encode_datetime t)
  | VString s => Some (encode_escaped TAG_STRING s)
  | VOther _ =>
      let* b := to_msgpack value in
      Some (encode_escaped TAG_OTHER b)
  end.

Definition encode_coercible (value : Value O) : list bytes :=
  match value with
  | VString s =>
      [encode_escaped TAG_STRING s]
      ++ match parse_f64 s with Some n => [encode_number n] | None => [] end
      ++ match parse_datetime s with Some t => [encode_datetime t] | None => [] end
  | _ => match encode_typed value with Some e => [e] | None => [] end
  end.
End encoding.

(** ** Fixed-width payloads sort as their values *)

Lemma sign_bit : Z.shiftl 1 63 = f64_sign_bit.
Proof. reflexivity. Qed.

Lemma land_sign_bit x : u64_ok x → (Z.land x f64_sign_bit =? 0) = negb (f64_negative x).
Proof.
  intros Hx. assert (Z.land x f64_sign_bit = (x / 2 ^ 63) * 2 ^ 63) as ->.
  { unfold f64_sign_bit. apply Z.bits_inj'. intros n Hn.
    rewrite Z.land_spec, Z.pow2_bits_eqb by lia. destruct (Z.eqb_spec 63 n) as [<-|Hne].
    - rewrite Z.mul_pow2_bits by lia. rewrite <-Z.shiftr_div_pow2 by lia.
      by rewrite Z.shiftr_spec, andb_true_r.
    - rewrite andb_false_r. symmetry. destruct (Z.lt_ge_cases n 63).
      { by rewrite Z.mul_pow2_bits_low. }
      rewrite Z.mul_pow2_bits by lia. apply Z.bits_above_log2; [apply Z.div_pos; arith|].
      assert (x / 2 ^ 63 < 2) by (apply Z.div_lt_upper_bound; arith).
      assert (0 ≤ x / 2 ^ 63) by (apply Z.div_pos; arith).
      assert (Z.log2 (x / 2 ^ 63) ≤ Z.log2 1) by (apply Z.log2_le_mono; lia). simpl in *. lia. }
  unfold f64_negative, f64_sign_bit. destruct (Z.leb_spec (2 ^ 63) x); simpl.
  - assert (1 ≤ x / 2 ^ 63) by (apply Z.div_le_lower_bound; lia). lia.
  - rewrite Z.div_small by arith. done.
Qed.

(** Flipping the top bit adds or removes [2^63]. *)
Lemma lxor_sign_bit x :
  u64_ok x → Z.lxor x f64_sign_bit = if f64_negative x then x - f64_sign_bit else x + f64_sign_bit.
Proof.
  intros Hx. pose proof (land_sign_bit x Hx) as Hl. destruct (f64_negative x) eqn:Hn; simpl in Hl.
  - unfold f64_negative, f64_sign_bit in *. apply Z.leb_le in Hn.
    assert (x = Z.lxor (x - 2 ^ 63) (2 ^ 63)) as Hx'.
    { rewrite <-Z.add_nocarry_lxor; [lia|]. apply Z.eqb_eq.
      pose proof (land_sign_bit (x - 2 ^ 63)) as H. unfold f64_sign_bit in H.
      rewrite H by arith. unfold f64_negative, f64_sign_bit.
      by rewrite (proj2 (Z.leb_gt _ _)) by arith. }
    rewrite Hx' at 1. by rewrite Z.lxor_assoc, Z.lxor_nilpotent, Z.lxor_0_r.
  - apply Z.eqb_eq in Hl. symmetry. by apply Z.add_nocarry_lxor.
Qed.

Lemma f64_sortable_spec x :
  u64_ok x → f64_sortable x = if f64_negative x then u64_max - x else x + f64_sign_bit.
Proof.
  intros Hx. unfold f64_sortable. rewrite sign_bit, land_sign_bit, negb_involutive by done.
  destruct (f64_negative x) eqn:Hn; [|by rewrite lxor_sign_bit, Hn].
  replace (Z.lnot x) with (u64_max - x + (-1) * 2 ^ 64) by (unfold Z.lnot; arith).
  rewrite Z.mod_add by lia. apply Z.mod_small. arith.
Qed.

Lemma f64_sortable_ok x : u64_ok x → u64_ok (f64_sortable x).
Proof.
  intros Hx. rewrite f64_sortable_spec by done. unfold f64_negative, f64_sign_bit in *.
  destruct (Z.leb_spec (2 ^ 63) x); arith.
Qed.

Lemma i64_sortable_spec t : i64_ok t → Z.lxor (i64_as_u64 t) (Z.shiftl 1 63) = t + 2 ^ 63.
Proof.
  intros Ht. rewrite sign_bit, lxor_sign_bit by apply wrap_u64_ok.
  unfold f64_negative, f64_sign_bit, i64_as_u64.
  destruct (Z.lt_ge_cases t 0).
  - rewrite <-(Z.mod_unique t (2 ^ 64) (-1) (t + 2 ^ 64)) by arith.
    rewrite (proj2 (Z.leb_le _ _)) by arith. lia.
  - rewrite Z.mod_small by arith. rewrite (proj2 (Z.leb_gt _ _)) by arith. lia.
Qed.

Section order.
Context {O : Type} {VC : ValueCodec O}.
Implicit Types v : Value O.

(** The pattern [encode_number] stores. *)
Definition norm_f64 (f : Z) : Z :=
  if f64_is_zero f then 0 else if f64_is_nan f then F64_NAN else f.

Lemma norm_f64_ok f : u64_ok f → u64_ok (norm_f64 f).
Proof. intros. unfold norm_f64. repeat case_match; [by compute|apply F64_NAN_ok|done]. Qed.

Lemma encode_number_bits f : encode_number f = TAG_NUMBER :: u64_be (f64_sortable (norm_f64 f)).
Proof. reflexivity. Qed.

Lemma encode_number_cmp f g :
  u64_ok f → u64_ok g → f64_is_nan f = false → f64_is_nan g = false →
  SFcompare (sf_of_bits f) (sf_of_bits g) = Some (bytes_cmp (encode_number f) (encode_number g)).
Proof.
  intros Hf Hg Nf Ng. rewrite sf_bits_compare by done. f_equal.
  rewrite !encode_number_bits. change (?t :: u64_be ?a) with ([t] ++ u64_be a).
  rewrite bytes_cmp_app, u64_be_cmp by (by apply f64_sortable_ok, norm_f64_ok).
  rewrite !f64_sortable_spec by by apply norm_f64_ok. unfold norm_f64. rewrite Nf, Ng.
  apply f64_bits_split in Hf as [Ef Rf]. apply f64_bits_split in Hg as [Eg Rg].
  assert (f64_negative 0 = false) as N0 by reflexivity.
  unfold f64_is_zero in *.
  destruct (Z.eqb_spec (f64_mag f) 0) as [Zf|Zf], (Z.eqb_spec (f64_mag g) 0) as [Zg|Zg];
    rewrite ?N0; cbn [andb]; [by rewrite Z.compare_refl|..];
    destruct (f64_negative f) eqn:Hnf, (f64_negative g) eqn:Hng;
    unfold f64_sign_bit, comp_sign in *; zcompare.
Qed.

Lemma encode_datetime_cmp t u :
  i64_ok t → i64_ok u → bytes_cmp (encode_datetime t) (encode_datetime u) = (t ?= u).
Proof.
  intros Ht Hu. unfold encode_datetime. rewrite !i64_sortable_spec by done.
  change (?t :: u64_be ?a) with ([t] ++ u64_be a).
  rewrite bytes_cmp_app, u64_be_cmp by arith.
  rewrite !(Z.add_comm _ (2 ^ 63)). apply Z.add_compare_mono_l.
Qed.
End order.

(** ** Escaped payloads *)

Definition escaped (payload : bytes) : bytes := concat (escape_byte <$> payload) ++ TERMINATOR.

Lemma encode_escaped_eq tag p : encode_escaped tag p = tag :: escaped p.
Proof. reflexivity. Qed.

Lemma escaped_cons b p : escaped (b :: p) = escape_byte b ++ escaped p.
Proof. unfold escaped. cbn [fmap list_fmap concat]. by rewrite app_assoc. Qed.

Lemma escape_byte_nz b : b ≠ x00 → escape_byte b = [b].
Proof. intros. unfold escape_byte. by rewrite decide_False. Qed.

Lemma bz_pos b : b ≠ x00 → 0 < bz b.
Proof.
  intros Hb. pose proof (bz_range b). destruct (decide (bz b = 0)) as [Hz|]; [|lia].
  destruct Hb. by apply (inj bz).
Qed.

(** Escaped payloads sort as the payloads whatever follows them: no escaped
    payload runs into what follows. *)
Lemma escaped_cmp p q x y :
  bytes_cmp (escaped p ++ x) (escaped q ++ y) =
  match bytes_cmp p q with Eq => bytes_cmp x y | c => c end.
Proof.
  revert q. induction p as [|b p IH]; intros [|c q].
  - apply (bytes_cmp_app TERMINATOR).
  - rewrite escaped_cons. destruct (decide (c = x00)) as [->|Hc]; [done|].
    rewrite escape_byte_nz by done. pose proof (bz_pos c Hc).
    change (escaped [] ++ x) with (x00 :: x01 :: x). cbn [bytes_cmp app].
    change (bz x00) with 0. zcompare.
  - rewrite escaped_cons. destruct (decide (b = x00)) as [->|Hb]; [done|].
    rewrite escape_byte_nz by done. pose proof (bz_pos b Hb).
    change (escaped [] ++ y) with (x00 :: x01 :: y). cbn [bytes_cmp app].
    change (bz x00) with 0. zcompare.
  - rewrite !escaped_cons. cbn [bytes_cmp].
    destruct (decide (b = c)) as [<-|Hbc].
    { rewrite Z.compare_refl, <-!app_assoc, bytes_cmp_app. apply IH. }
    assert (bz b ≠ bz c) by (by intros ?%(inj bz)).
    assert (bytes_cmp (escape_byte b ++ escaped p ++ x) (escape_byte c ++ escaped q ++ y)
            = (bz b ?= bz c)) as He.
    { pose proof (bz_range b). pose proof (bz_range c). pose proof (bz_pos b). pose proof (bz_pos c).
      unfold escape_byte, ESCAPED_ZERO. case_decide as Db; case_decide as Dc;
        [congruence|rewrite Db in *|rewrite Dc in *|]; cbn [app bytes_cmp];
        change (bz x00) with 0 in *; zcompare. }
    rewrite <-!app_assoc, He. destruct (Z.compare_spec (bz b) (bz c)); done.
Qed.

Lemma escaped_inj p q x y : escaped p ++ x = escaped q ++ y → p = q ∧ x = y.
Proof.
  intros H. pose proof (escaped_cmp p q x y) as Hc. rewrite H, bytes_cmp_refl in Hc.
  destruct (bytes_cmp p q) eqn:Hp; try done. split; by apply bytes_cmp_eq.
Qed.

Lemma escaped_len_app i p x : escaped_len i (escaped p ++ x) = Some (i + length (escaped p))%nat.
Proof.
  revert i. induction p as [|b p IH]; intros i; [simpl; f_equal; lia|].
  rewrite escaped_cons, <-app_assoc. unfold escape_byte. case_decide as Hb.
  - cbn [app escaped_len ESCAPED_ZERO]. rewrite decide_True, decide_False, decide_True by done.
    rewrite IH. simpl. f_equal. lia.
  - cbn [app length].
    destruct (escaped p ++ x) as [|c l] eqn:Hl.
    { by destruct p as [|c p]; [|rewrite escaped_cons in Hl; unfold escape_byte in Hl; case_decide]. }
    change (escaped_len i (b :: c :: l)) with
      (if decide (b = x00) then
        if decide (c = x01) then Some (i + 2)%nat
        else if decide (c = xff) then escaped_len (i + 2) l else None
       else escaped_len (i + 1) (c :: l)).
    rewrite decide_False, IH by done. f_equal. lia.
Qed.

(** ** Encoded values are self-delimiting *)

(** An encoding: a tag and a payload of its class, fixed-width or escaped. *)
Definition payload_ok (tag : byte) (n : bytes) : Prop :=
  (tag = TAG_BOOL ∧ length n = 1%nat) ∨
  ((tag = TAG_NUMBER ∨ tag = TAG_DATETIME) ∧ length n = 8%nat) ∨
  ((tag = TAG_STRING ∨ tag = TAG_OTHER) ∧ ∃ p, n = escaped p).
Definition encoding (e : bytes) : Prop := ∃ tag n, e = tag :: n ∧ payload_ok tag n.

Lemma encoded_len_app e x : encoding e → encoded_len (e ++ x) = Some (length e).
Proof.
  intros (t & n & -> & He). unfold encoded_len. cbn [app].
  destruct He as [[-> Hn]|[[Ht Hn]|[Ht [p ->]]]].
  - rewrite decide_True by done. cbn [length]. rewrite length_app, Hn. done.
  - rewrite decide_False by (by destruct Ht; subst). rewrite decide_True by done.
    cbn [length]. rewrite length_app, Hn. done.
  - rewrite decide_False by (by destruct Ht; subst).
    rewrite decide_False by (by destruct Ht; subst; intros [|]).
    rewrite decide_True by done. by rewrite escaped_len_app.
Qed.

(** Payloads of one tag have one width or are both escaped. *)
Lemma payload_cmp t n1 n2 x y :
  payload_ok t n1 → payload_ok t n2 →
  bytes_cmp (n1 ++ x) (n2 ++ y) = match bytes_cmp n1 n2 with Eq => bytes_cmp x y | c => c end.
Proof.
  intros H1 H2.
  assert (length n1 = length n2 ∨ ∃ p q, n1 = escaped p ∧ n2 = escaped q) as [Hl|(p & q & -> & ->)].
  { destruct H1 as [[T1 ?]|[[T1 ?]|[T1 [p ->]]]], H2 as [[T2 ?]|[[T2 ?]|[T2 [q ->]]]];
      eauto; try (left; lia); exfalso;
      repeat match goal with H : _ ∨ _ |- _ => destruct H end; subst; discriminate. }
  - by apply bytes_cmp_app_eqlen.
  - rewrite escaped_cmp. pose proof (escaped_cmp p q [] []) as Hpq.
    rewrite !app_nil_r in Hpq. rewrite Hpq. by destruct (bytes_cmp p q).
Qed.

(** Two encodings followed by anything compare as the encodings, and only equal
    encodings look at what follows. *)
Lemma encoding_cmp e1 e2 x y :
  encoding e1 → encoding e2 →
  bytes_cmp (e1 ++ x) (e2 ++ y) = match bytes_cmp e1 e2 with Eq => bytes_cmp x y | c => c end.
Proof.
  intros (t1 & n1 & -> & H1) (t2 & n2 & -> & H2). cbn [app bytes_cmp].
  destruct (Z.compare_spec (bz t1) (bz t2)) as [Ht%(inj bz)| |]; [|done..].
  subst t2. by apply (payload_cmp t1).
Qed.

Lemma encoding_app_inj e1 e2 x y : encoding e1 → encoding e2 → e1 ++ x = e2 ++ y → e1 = e2 ∧ x = y.
Proof.
  intros H1 H2 H. pose proof (encoding_cmp e1 e2 x y H1 H2) as Hc.
  rewrite H, bytes_cmp_refl in Hc. destruct (bytes_cmp e1 e2) eqn:He; try done.
  split; by apply bytes_cmp_eq.
Qed.

Section typed.
Context {O : Type} {VC : ValueCodec O}.
Implicit Types v : Value O.

Lemma encode_number_encoding f : encoding (encode_number f).
Proof.
  eexists _, _. split; [apply encode_number_bits|]. right; left. split; [by left|apply length_be_bytes].
Qed.

Lemma encode_typed_encoding v e : encode_typed v = Some e → encoding e.
Proof.
  destruct v; simpl; try done.
  - intros [= <-]. eexists _, _. split; [done|]. by left.
  - intros [= <-]. apply encode_number_encoding.
  - intros [= <-]. apply encode_number_encoding.
  - destruct (parse_f64 text); simpl; [|done]. intros [= <-]. apply encode_number_encoding.
  - intros [= <-]. eexists _, _. split; [done|].
    right; left. split; [by right|apply length_be_bytes].
  - intros [= <-]. eexists _, _. split; [done|].
    right; left. split; [by right|apply length_be_bytes].
  - intros [= <-]. eexists _, _. split; [done|]. right; right. split; [by left|by eexists].
  - destruct (to_msgpack _); simpl; [|done]. intros [= <-].
    eexists _, _. split; [done|]. right; right. split; [by right|by eexists].
Qed.

Lemma encode_coercible_encoding v e : e ∈ encode_coercible v → encoding e.
Proof.
  assert (e ∈ option_list (encode_typed v) → encoding e) as Htyped.
  { destruct (encode_typed v) as [e'|] eqn:He; simpl; [|set_solver].
    intros ->%list_elem_of_singleton. by eapply encode_typed_encoding. }
  assert (∀ s, v = VString s → e ∈ encode_coercible v → encoding e) as Hstring.
  { intros s -> Hin. cbn [encode_coercible] in Hin. rewrite !elem_of_app in Hin. destruct Hin as [Hin|[Hin|Hin]].
    - apply list_elem_of_singleton in Hin as ->. eexists _, _. split; [done|]. right; right. split; [by left|by eexists].
    - destruct (parse_f64 s); [|set_solver]. apply list_elem_of_singleton in Hin as ->. apply encode_number_encoding.
    - destruct (parse_datetime s); [|set_solver]. apply list_elem_of_singleton in Hin as ->.
      eexists _, _. split; [done|]. right; left. split; [by right|apply length_be_bytes]. }
  destruct v; try exact Htyped. by eapply Hstring.
Qed.

(** The number a value is indexed as. *)
Definition number_of v : option Z :=
  match v with
  | VInteger i => Some (i64_as_f64 i)
  | VFloat f => Some f
  | VDecimal d => parse_f64 d
  | _ => None
  end.

(** The order index entries promise: classes first, then the values. *)
Inductive IndexClass := KBool (b : bool) | KNumber (f : Z) | KTime (t : Z) | KText (s : bytes).

Definition index_class v : option IndexClass :=
  match v with
  | VBool b => Some (KBool b)
  | VInteger _ | VFloat _ | VDecimal _ => KNumber <$> number_of v
  | VDateTime t | VNaiveDateTime t => Some (KTime t)
  | VString s => Some (KText s)
  | _ => None
  end.

Definition class_rank (k : IndexClass) : Z :=
  match k with KBool _ => 0 | KNumber _ => 1 | KTime _ => 2 | KText _ => 3 end.

(** Numbers compare as IEEE numbers; a NaN is comparable to nothing. *)
Definition class_cmp (k1 k2 : IndexClass) : option comparison :=
  match k1, k2 with
  | KBool a, KBool b => Some (Z.b2z a ?= Z.b2z b)
  | KNumber f, KNumber g => SFcompare (sf_of_bits f) (sf_of_bits g)
  | KTime t, KTime u => Some (t ?= u)
  | KText s, KText t => Some (bytes_cmp s t)
  | _, _ => Some (class_rank k1 ?= class_rank k2)
  end.

(** The integers and patterns of a value are in range. *)
Definition class_ok (k : IndexClass) : Prop :=
  match k with
  | KNumber f => u64_ok f ∧ f64_is_nan f = false
  | KTime t => i64_ok t
  | _ => True
  end.

Definition encode_class (k : IndexClass) : bytes :=
  match k with
  | KBool b => [TAG_BOOL; if b then x01 else x00]
  | KNumber f => encode_number f
  | KTime t => encode_datetime t
  | KText s => encode_escaped TAG_STRING s
  end.

Lemma encode_typed_class v k : index_class v = Some k → encode_typed v = Some (encode_class k).
Proof.
  destruct v; simpl; try done; try (by intros [= <-]).
  destruct (parse_f64 text); simpl; [by intros [= <-]|done].
Qed.

Lemma class_cmp_encode k1 k2 :
  class_ok k1 → class_ok k2 → class_cmp k1 k2 = Some (bytes_cmp (encode_class k1) (encode_class k2)).
Proof.
  destruct k1, k2; cbn [class_ok class_cmp encode_class]; intros H1 H2; try reflexivity.
  - by destruct b, b0.
  - apply encode_number_cmp; tauto.
  - by rewrite encode_datetime_cmp.
  - f_equal. rewrite !encode_escaped_eq. cbn [bytes_cmp]. rewrite Z.compare_refl.
    rewrite <-(app_nil_r (escaped s)), <-(app_nil_r (escaped s0)), escaped_cmp.
    by destruct (bytes_cmp s s0).
Qed.

(** C11: the value encoding preserves order.  The encodings of two indexable values
    compare as bytes exactly as the values do: booleans before numbers before
    timestamps before strings, numbers by IEEE comparison whatever mix of
    integers, floats and decimals they came from, timestamps by time and
    strings by their bytes. *)
Theorem encode_typed_order v1 v2 k1 k2 :
  index_class v1 = Some k1 → index_class v2 = Some k2 → class_ok k1 → class_ok k2 →
  ∃ e1 e2, encode_typed v1 = Some e1 ∧ encode_typed v2 = Some e2 ∧
           class_cmp k1 k2 = Some (bytes_cmp e1 e2).
Proof.
  intros E1%encode_typed_class E2%encode_typed_class H1 H2.
  eexists _, _. split; [exact E1|]. split; [exact E2|]. by apply class_cmp_encode.
Qed.
End typed.

(** ** Components *)

(** A name an index key can carry: UTF-8, with a length that fits its prefix. *)
Definition name_ok (s : bytes) : Prop :=
  utf8_valid s = true ∧ Z.of_nat (length s) ≤ u32_max.

Definition component (s : bytes) : bytes := u32_be (Z.of_nat (length s)) ++ s.

Lemma push_component_ok key s : name_ok s → push_component key s = key ++ component s.
Proof. intros [_ Hl]. unfold push_component. by rewrite (proj2 (Z.leb_le _ _)). Qed.

Lemma component_len_val s : name_ok s → be_val (u32_be (Z.of_nat (length s))) = Z.of_nat (length s).
Proof.
  intros [_ Hl]. apply be_val_bytes_small. change (256 ^ Z.of_nat 4) with (2 ^ 32). arith.
Qed.

Lemma component_inj s t x y :
  name_ok s → name_ok t → component s ++ x = component t ++ y → s = t ∧ x = y.
Proof.
  intros Hs Ht. unfold component. rewrite <-!app_assoc. intros H.
  apply app_inj_eqlen in H as [Hl H]; [|by rewrite !length_be_bytes].
  apply (f_equal be_val) in Hl. rewrite !component_len_val in Hl by done.
  apply app_inj_eqlen in H; [done|lia].
Qed.

Lemma read_component_app s x : name_ok s → read_component (component s ++ x) = Some (s, x).
Proof.
  intros Hs. unfold read_component, component.
  assert (get_to 4 ((u32_be (Z.of_nat (length s)) ++ s) ++ x) =
          Some (u32_be (Z.of_nat (length s)))) as ->.
  { rewrite <-app_assoc. rewrite <-(length_be_bytes 4 (Z.of_nat (length s))) at 1.
    apply get_to_app. }
  cbn [mbind option_bind]. rewrite component_len_val by done.
  destruct Hs as [Hu Hl].
  rewrite (proj2 (checked_add_u64_Some 4 _ (4 + Z.of_nat (length s)))) by (split; [done|arith]).
  cbn [mbind option_bind].
  replace (Z.to_nat (4 + Z.of_nat (length s)))
    with (length (u32_be (Z.of_nat (length s)) ++ s)) by (rewrite length_app, length_be_bytes; lia).
  rewrite get_to_app, get_from_app. cbn [mbind option_bind].
  rewrite drop_app_length' by (by rewrite length_be_bytes).
  unfold from_utf8. by rewrite Hu.
Qed.

Lemma index_prefix_eq c n :
  name_ok c → name_ok n → index_prefix c n = entries_prefix ++ component c ++ component n.
Proof.
  intros. unfold index_prefix, collection_prefix. rewrite !push_component_ok by done.
  by rewrite app_assoc.
Qed.

(** The key of an encoded value of a document splits into what it was built from. *)
Lemma parse_encoded c n e doc :
  name_ok c → name_ok n → encoding e → utf8_valid doc = true →
  parse_entry (entry_key (index_prefix c n) e doc) = Some (mkParsedEntry c doc) ∧
  entry_doc_id (entry_key (index_prefix c n) e doc) (index_prefix c n) = Some doc.
Proof.
  intros Hc Hn He Hd. unfold entry_key, entry_doc_id.
  rewrite strip_prefix_app. cbn [mbind option_bind].
  rewrite encoded_len_app by done. cbn [mbind option_bind]. rewrite get_from_app.
  cbn [mbind option_bind]. unfold from_utf8 at 1. rewrite Hd. split; [|done].
  unfold parse_entry. rewrite index_prefix_eq, <-!app_assoc, strip_prefix_app by done.
  cbn [mbind option_bind]. rewrite read_component_app by done. cbn [mbind option_bind].
  rewrite read_component_app by done. cbn [mbind option_bind].
  rewrite encoded_len_app by done. cbn [mbind option_bind]. rewrite get_from_app.
  cbn [mbind option_bind]. unfold from_utf8. by rewrite Hd.
Qed.

(** A prefix of an index and an encoded value finds the entries of that value. *)
Lemma scan_encoded c n c' n' e e' doc :
  name_ok c → name_ok n → name_ok c' → name_ok n' → encoding e → encoding e' →
  starts_with (index_prefix c n ++ e) (entry_key (index_prefix c' n') e' doc) = true ↔
  c = c' ∧ n = n' ∧ e = e'.
Proof.
  intros Hc Hn Hc' Hn' He He'.
  rewrite starts_with_spec. unfold entry_key. rewrite !index_prefix_eq by done. split.
  - intros [r H]. rewrite <-!app_assoc in H. apply app_inv_head in H.
    apply component_inj in H as [<- H]; [|done..].
    apply component_inj in H as [<- H]; [|done..].
    apply encoding_app_inj in H as [<- _]; done.
  - intros (<- & <- & <-). exists doc. by rewrite <-!app_assoc.
Qed.

(** Entry keys parse back.  Splitting the key of an entry gives the collection
    and the document id it was built from, whatever the index, the value and
    the document id are. *)
Theorem parse_entry_roundtrip {O} {VC : ValueCodec O} c n (v : Value O) e doc :
  name_ok c → name_ok n → encode_typed v = Some e → utf8_valid doc = true →
  parse_entry (entry_key (index_prefix c n) e doc) = Some (mkParsedEntry c doc) ∧
  entry_doc_id (entry_key (index_prefix c n) e doc) (index_prefix c n) = Some doc.
Proof. intros Hc Hn He%encode_typed_encoding Hd. by apply parse_encoded. Qed.

(** An equality lookup scans one value of one index.  The prefix a lookup scans
    with, an index prefix followed by an encoded value, is a prefix of an entry
    key exactly when the entry belongs to that collection and that index and
    holds that encoded value: lengths before names and self-delimiting values
    keep neighbours out. *)
Theorem equality_scan_exact {O} {VC : ValueCodec O} c n c' n' (v v' : Value O) e e' doc :
  name_ok c → name_ok n → name_ok c' → name_ok n' →
  encode_typed v = Some e → encode_typed v' = Some e' →
  starts_with (index_prefix c n ++ e) (entry_key (index_prefix c' n') e' doc) = true ↔
  c = c' ∧ n = n' ∧ e = e'.
Proof. intros Hc Hn Hc' Hn' He%encode_typed_encoding He'%encode_typed_encoding. by apply scan_encoded. Qed.

(** Within one index, entries sort by value and then by document id. *)
Theorem entry_key_order {O} {VC : ValueCodec O} p (v1 v2 : Value O) e1 e2 d1 d2 :
  encode_typed v1 = Some e1 → encode_typed v2 = Some e2 →
  bytes_cmp (entry_key p e1 d1) (entry_key p e2 d2) =
  match bytes_cmp e1 e2 with Eq => bytes_cmp d1 d2 | c => c end.
Proof.
  intros H1%encode_typed_encoding H2%encode_typed_encoding. unfold entry_key.
  rewrite bytes_cmp_app. by apply encoding_cmp.
Qed.

(** ** Document ids of rows keyed by bytes *)

Lemma nibble_digit_char d : 0 ≤ d < 16 → nibble (digit_char d) = Some d.
Proof.
  intros Hd. unfold nibble, in_range. rewrite bz_digit_char by done.
  destruct (Z.ltb_spec d 10).
  - rewrite !(proj2 (Z.leb_le _ _)) by lia. simpl. f_equal. lia.
  - rewrite (proj2 (Z.leb_gt (87 + d) 57)) by lia. rewrite andb_false_r.
    rewrite !(proj2 (Z.leb_le _ _)) by lia. simpl. f_equal. lia.
Qed.

Lemma digit_char_byte d c :
  bz c = (if d <? 10 then 48 + d else 87 + d) → digit_char d = c.
Proof.
  intros Hc. pose proof (bz_range c). apply (inj bz). rewrite Hc.
  unfold digit_char. case_match; rewrite bz_zb_small; lia.
Qed.

Lemma nibble_Some c d : nibble c = Some d → 0 ≤ d < 16 ∧ digit_char d = c.
Proof.
  unfold nibble. destruct (in_range c 48 57) eqn:H1; [|destruct (in_range c 97 102) eqn:H2; [|done]].
  - unfold in_range in H1. intros [= <-]. split; [lia|]. apply digit_char_byte.
    destruct (Z.ltb_spec (bz c - 48) 10); lia.
  - unfold in_range in H2. intros [= <-]. split; [lia|]. apply digit_char_byte.
    destruct (Z.ltb_spec (bz c - 97 + 10) 10); lia.
Qed.

Lemma high_low b : 0 ≤ Z.shiftr (bz b) 4 < 16 ∧ 0 ≤ Z.land (bz b) 15 < 16 ∧
  Z.lor (Z.shiftl (Z.shiftr (bz b) 4) 4) (Z.land (bz b) 15) = bz b.
Proof. destruct b; vm_compute; intuition congruence. Qed.

(** Two nibbles make one byte whose halves they are. *)
Lemma nibbles_byte h l : 0 ≤ h < 16 → 0 ≤ l < 16 →
  let b := zb (Z.lor (Z.shiftl h 4) l) in Z.shiftr (bz b) 4 = h ∧ Z.land (bz b) 15 = l.
Proof.
  intros Hh Hl. assert (∀ f : Z → Z → bool,
    forallb (λ h, forallb (f h) (seqZ 0 16)) (seqZ 0 16) = true → f h l = true) as Hall.
  { intros f Hf%Is_true_eq_left. apply forallb_True in Hf. rewrite Forall_forall in Hf.
    specialize (Hf h). rewrite elem_of_seqZ in Hf. specialize (Hf ltac:(lia)).
    apply forallb_True in Hf. rewrite Forall_forall in Hf. specialize (Hf l).
    rewrite elem_of_seqZ in Hf. apply Is_true_eq_true, Hf. lia. }
  cbv zeta. specialize (Hall (λ h l, (Z.shiftr (bz (zb (Z.lor (Z.shiftl h 4) l))) 4 =? h) &&
    (Z.land (bz (zb (Z.lor (Z.shiftl h 4) l))) 15 =? l))).
  specialize (Hall ltac:(vm_compute; reflexivity)).
  apply andb_true_iff in Hall as [?%Z.eqb_eq ?%Z.eqb_eq]. done.
Qed.

Lemma doc_id_cons b l :
  doc_id_of_key (b :: l) =
  digit_char (Z.shiftr (bz b) 4) :: digit_char (Z.land (bz b) 15) :: doc_id_of_key l.
Proof. reflexivity. Qed.

Lemma key_of_pairs_doc_id l : key_of_pairs (doc_id_of_key l) = Some l.
Proof.
  induction l as [|b l IH]; [done|]. rewrite doc_id_cons. cbn [key_of_pairs].
  destruct (high_low b) as (Hh & Hl & Hb).
  rewrite !nibble_digit_char by done. cbn [mbind option_bind]. rewrite IH.
  cbn [mbind option_bind]. by rewrite Hb, zb_bz.
Qed.

Lemma length_doc_id l : length (doc_id_of_key l) = (2 * length l)%nat.
Proof. induction l as [|b l IH]; [done|]. rewrite doc_id_cons. cbn [length]. lia. Qed.

Lemma key_of_pairs_inv n id k :
  (length id < n)%nat → Nat.even (length id) = true →
  key_of_pairs id = Some k → id = doc_id_of_key k.
Proof.
  revert id k. induction n as [|n IH]; [lia|]. intros [|c1 [|c2 id]] k Hn He; cbn [key_of_pairs].
  - by intros [= <-].
  - done.
  - destruct (nibble c1) as [h|] eqn:H1; cbn [mbind option_bind]; [|done].
    destruct (nibble c2) as [l|] eqn:H2; cbn [mbind option_bind]; [|done].
    destruct (key_of_pairs id) as [k'|] eqn:Hk; cbn [mbind option_bind]; [|done].
    intros [= <-]. apply nibble_Some in H1 as [R1 <-]. apply nibble_Some in H2 as [R2 <-].
    rewrite doc_id_cons. destruct (nibbles_byte h l R1 R2) as [-> ->].
    rewrite <-(IH id k'); [done| |done|done]. simpl in Hn. lia.
Qed.

Lemma doc_id_ascii l : Forall (λ b, ascii_byte b = true) (doc_id_of_key l).
Proof.
  induction l as [|b l IH]; [constructor|]. rewrite doc_id_cons.
  destruct (high_low b) as (Hh & Hl & _). unfold ascii_byte.
  constructor; [|constructor; [|done]]; rewrite bz_digit_char by done;
    case_match; apply Z.ltb_lt; lia.
Qed.

(** The document id of a byte key is valid text, determines the key, and
    nothing but such an id reads back: [key_of_doc_id] inverts
    [doc_id_of_key] exactly. *)
Theorem doc_id_roundtrip id key :
  (key_of_doc_id id = Some key ↔ id = doc_id_of_key key) ∧
  utf8_valid (doc_id_of_key key) = true.
Proof.
  split; [|apply utf8_ascii, doc_id_ascii]. unfold key_of_doc_id. split.
  - case_match eqn:He; [|done]. by apply (key_of_pairs_inv (S (length id))); [lia|].
  - intros ->. rewrite length_doc_id, Nat.even_mul. apply key_of_pairs_doc_id.
Qed.

(** No text key of the Meta namespace is an index key. *)
Lemma text_key_not_index k r : utf8_valid k = true → k ≠ ROOT ++ r.
Proof. intros Hu ->. by vm_compute in Hu. Qed.

(** ** Examples *)

Definition ex_parse_f64 (s : bytes) : option Z :=
  let* i := parse_i64 s in
  if decide (0 ≤ i64_as_f64 i ≤ u64_max) then Some (i64_as_f64 i) else None.

#[local] Program Instance ex_codec : ValueCodec unit := {|
  parse_f64 := ex_parse_f64;
  parse_datetime _ := None;
  to_msgpack _ := Some (bs "uuid");
  F64_NAN := 0x7FF8000000000000
|}.
Next Obligation. split; [|done]. by compute. Qed.
Next Obligation.
  unfold ex_parse_f64. intros s f. destruct (parse_i64 s); simpl; [|done].
  case_decide; [|done]. by intros [= <-].
Qed.
Next Obligation. done. Qed.

Lemma encode_typed_order_witness :
  ∃ e1 e2, encode_typed (VInteger (-3) : Value unit) = Some e1 ∧
    encode_typed (VDecimal (bs "12") : Value unit) = Some e2 ∧ bytes_cmp e1 e2 = Lt.
Proof.
  destruct (encode_typed_order (VInteger (-3)) (VDecimal (bs "12"))
    (KNumber (i64_as_f64 (-3))) (KNumber (i64_as_f64 12))) as (e1 & e2 & H1 & H2 & H3);
    [by vm_compute..|].
  exists e1, e2. split; [done|]. split; [done|].
  assert (Some Lt = Some (bytes_cmp e1 e2)) by (rewrite <-H3; vm_compute; reflexivity). congruence.
Defined.

Lemma name_ok_ex s : utf8_valid s = true → Z.of_nat (length s) <=? u32_max = true → name_ok s.
Proof. intros ? ?%Z.leb_le. done. Qed.

Lemma parse_entry_roundtrip_witness :
  ∃ e, encode_typed (VString (bs "x") : Value unit) = Some e ∧
    parse_entry (entry_key (index_prefix (bs "users") (bs "by_name")) e (bs "d1")) =
    Some (mkParsedEntry (bs "users") (bs "d1")).
Proof.
  eexists. split; [reflexivity|].
  refine (proj1 (parse_entry_roundtrip (bs "users") (bs "by_name") (VString (bs "x")) _ (bs "d1")
    _ _ _ _)); try apply name_ok_ex; reflexivity.
Defined.

Lemma equality_scan_exact_witness :
  ∃ e, encode_typed (VBool true : Value unit) = Some e ∧
    starts_with (index_prefix (bs "a") (bs "bc") ++ e)
      (entry_key (index_prefix (bs "ab") (bs "c")) e (bs "d")) = false.
Proof.
  eexists. split; [reflexivity|]. apply not_true_iff_false.
  rewrite (equality_scan_exact (bs "a") (bs "bc") (bs "ab") (bs "c") (VBool true) (VBool true));
    try apply name_ok_ex; try reflexivity. intros [? _]. done.
Defined.

Lemma entry_key_order_witness :
  ∃ e1 e2, encode_typed (VString (bs "a") : Value unit) = Some e1 ∧
    encode_typed (VString (bs "ab") : Value unit) = Some e2 ∧
    bytes_cmp (entry_key [] e1 (bs "z")) (entry_key [] e2 (bs "b")) = Lt.
Proof.
  eexists _, _. split; [reflexivity|]. split; [reflexivity|].
  by rewrite (entry_key_order [] (VString (bs "a")) (VString (bs "ab"))).
Defined.
