(* ===== verification/SortedKeys.v ===== *)
(** * Sorted indexes: keys, scores and windows

    [src/nodedb-lite/src/query/kv_ops/sorted/keys.rs], [window.rs], [def.rs] and
    [src/nodedb-lite/src/index/sorted_def.rs]: how the entries of a leaderboard
    are encoded, which of them the current window shows, and which entry a stored
    row contributes.  Planning the entries of a write is in [SortedMaintain.v],
    reading them in [SortedQuery.v]. *)

From Stdlib Require Import ZArith Lia Strings.Byte Floats.SpecFloat.
From stdpp Require Import prelude gmap strings.
From S2P Require Import Prelude Bytes Text F64 StorageTrait IndexKey.

Local Open Scope Z_scope.

(** ** Definitions of [sorted_def.rs] *)

Inductive WindowKind := WNone | Daily | Weekly | Monthly | Custom.

#[global] Instance WindowKind_eq_dec : EqDecision WindowKind.
Proof. solve_decision. Defined.

Record WindowDef := mkWindowDef {
  kind : WindowKind;
  timestamp_column : bytes;
  timestamp_desc : bool;
  start_ms : Z;
  end_ms : Z
}.

Definition WindowDef_none : WindowDef := mkWindowDef WNone [] false 0 0.

Definition is_windowed (w : WindowDef) : bool := negb (bool_decide (kind w = WNone)).

Record SortedIndexDef := mkSortedIndexDef {
  sd_name : bytes;
  sd_collection : bytes;
  score_column : bytes;
  score_desc : bool;
  key_column : bytes;
  window : WindowDef
}.

(** ** Keys of [keys.rs] *)

Definition SORTED_ROOT : bytes := bs "kv_sorted:".
Definition SCORE : byte := x73.
Definition PK : byte := x70.
Definition FIELD_LEN : nat := 8.

Definition sorted_entries_prefix (index_name : bytes) : bytes :=
  let n := Z.of_nat (length index_name) in
  let len := if n <=? u32_max then n else u32_max in
  SORTED_ROOT ++ u32_be len ++ index_name.

Definition score_prefix (index_name : bytes) : bytes := sorted_entries_prefix index_name ++ [SCORE].

Definition score_key (index_name score pk : bytes) : bytes :=
  score_prefix index_name ++ score ++ pk.

Definition pk_entry_key (index_name pk : bytes) : bytes :=
  sorted_entries_prefix index_name ++ [PK] ++ pk.

#[global] Arguments sorted_entries_prefix : simpl never.
#[global] Arguments score_prefix : simpl never.
#[global] Arguments score_key : simpl never.
#[global] Arguments pk_entry_key : simpl never.

Definition f64_to_sort_bytes (score : Z) : bytes :=
  let bits := score in
  let key_bits :=
    if Z.shiftr bits 63 =? 0 then Z.lxor bits (Z.shiftl 1 63) else Z.lnot bits mod 2 ^ 64 in
  u64_be key_bits.

Definition sort_bytes_to_f64 (b : bytes) : Z :=
  let bits := be_val b in
  if negb (Z.shiftr bits 63 =? 0) then Z.lxor bits (Z.shiftl 1 63) else Z.lnot bits mod 2 ^ 64.

Definition complement (b : bytes) : bytes := (λ x, zb (Z.lxor (bz x) 255)) <$> b.

Definition encode_score (score : Z) (desc : bool) : bytes :=
  let b := f64_to_sort_bytes score in if desc then complement b else b.

Definition decode_score (b : bytes) (desc : bool) : Z :=
  let b := if desc then complement b else b in sort_bytes_to_f64 b.

Record PkEntry := mkPkEntry {
  pe_score : bytes;
  pe_ts : option bytes;
  pe_deadline : Z
}.

#[global] Instance PkEntry_eq_dec : EqDecision PkEntry.
Proof. solve_decision. Defined.

Definition PkEntry_encode (e : PkEntry) : bytes :=
  pe_score e ++ u64_le (pe_deadline e) ++ match pe_ts e with Some ts => ts | None => [] end.

Definition PkEntry_decode (b : bytes) : option PkEntry :=
  let* score := get_to FIELD_LEN b in
  let* upto := get_to (2 * FIELD_LEN) b in
  let deadline_bytes := drop FIELD_LEN upto in
  let* ts :=
    if (length b =? 2 * FIELD_LEN)%nat then Some None
    else if (length b =? 3 * FIELD_LEN)%nat then Some (Some (drop (2 * FIELD_LEN) b))
    else None in
  Some (mkPkEntry score ts (le_val deadline_bytes)).

Definition same_position (e o : PkEntry) : bool :=
  bool_decide (pe_score e = pe_score o) && bool_decide (pe_ts e = pe_ts o).

Definition windowed_score_key (index_name score ts pk : bytes) : bytes :=
  score_prefix index_name ++ score ++ ts ++ pk.

Definition PkEntry_score_key (e : PkEntry) (index_name pk : bytes) : bytes :=
  match pe_ts e with
  | Some ts => windowed_score_key index_name (pe_score e) ts pk
  | None => score_key index_name (pe_score e) pk
  end.

Definition score_value (e : PkEntry) : bytes := u64_le (pe_deadline e).

(** ** Windows of [window.rs] *)

Definition MS_PER_DAY : Z := 86400000.

Definition extract_ts_from_value {O} (columns : gmap bytes (Value O)) (column : bytes) : option Z :=
  let* v := columns !! column in
  match v with
  | VInteger n => if 0 <=? n then Some n else None
  | VFloat f => if f64_ge_zero f && f64_is_finite f then Some (f64_as_u64 f) else None
  | _ => None
  end.

Definition encode_ts (ts_ms : Z) (desc : bool) : bytes :=
  let b := u64_be ts_ms in if desc then complement b else b.

Definition decode_ts (b : bytes) (desc : bool) : Z :=
  let b := if desc then complement b else b in be_val b.

Definition start_of_day (now_ms : Z) : Z := now_ms / MS_PER_DAY * MS_PER_DAY.

(** Unsigned subtraction and multiplication wrap, as in a release build. *)
Definition start_of_week (now_ms : Z) : Z :=
  let days := now_ms / MS_PER_DAY in
  let since_monday := (days + 3) mod 7 in
  wrap_u64 (wrap_u64 (days - since_monday) * MS_PER_DAY).

(** Howard Hinnant's [civil_from_days], on Euclidean division. *)
Definition civil_year_month (days : Z) : Z * Z :=
  let z := days + 719468 in
  let era := z / 146097 in
  let doe := z mod 146097 in
  let yoe := (doe - doe / 1460 + doe / 36524 - doe / 146096) / 365 in
  let doy := doe - (365 * yoe + yoe / 4 - yoe / 100) in
  let mp := (5 * doy + 2) / 153 in
  let month := if mp <? 10 then mp + 3 else mp - 9 in
  let year := yoe + era * 400 + (if month <=? 2 then 1 else 0) in
  (year, month).

Definition days_from_civil (year month day : Z) : Z :=
  let year := if month <=? 2 then year - 1 else year in
  let era := year / 400 in
  let yoe := year mod 400 in
  let mp := if 2 <? month then month - 3 else month + 9 in
  let doy := (153 * mp + 2) / 5 + day - 1 in
  let doe := yoe * 365 + yoe / 4 - yoe / 100 + doy in
  era * 146097 + doe - 719468.

Definition start_of_month (now_ms : Z) : Z :=
  let days := u64_as_i64 (now_ms / MS_PER_DAY) in
  let '(year, month) := civil_year_month days in
  wrap_u64 (i64_as_u64 (days_from_civil year month 1) * MS_PER_DAY).

Definition window_start (w : WindowDef) (now_ms : Z) : option Z :=
  match kind w with
  | WNone => None
  | Daily => Some (start_of_day now_ms)
  | Weekly => Some (start_of_week now_ms)
  | Monthly => Some (start_of_month now_ms)
  | Custom =>
      if (start_ms w <=? now_ms) && (now_ms <? end_ms w) then Some (start_ms w) else Some u64_max
  end.

(** ** Building a definition: [def.rs] *)

Record RegisterSortedIndex := mkRegister {
  rq_collection : bytes;
  rq_index_name : bytes;
  rq_sort_columns : list (bytes * bytes);
  rq_key_column : bytes;
  rq_window_type : bytes;
  rq_window_timestamp_column : bytes;
  rq_window_start_ms : Z;
  rq_window_end_ms : Z
}.

Definition to_ascii_lowercase (s : bytes) : bytes :=
  (λ b, if in_range b 65 90 then zb (bz b + 32) else b) <$> s.
Definition eq_ignore_ascii_case (s t : bytes) : bool :=
  bool_decide (to_ascii_lowercase s = to_ascii_lowercase t).

Definition is_desc (direction : bytes) : bool := eq_ignore_ascii_case direction (bs "DESC").

Definition window_kind (window_type : bytes) : res WindowKind :=
  let t := to_ascii_lowercase window_type in
  if bool_decide (t = []) || bool_decide (t = bs "none") then Ok WNone
  else if bool_decide (t = bs "daily") then Ok Daily
  else if bool_decide (t = bs "weekly") then Ok Weekly
  else if bool_decide (t = bs "monthly") then Ok Monthly
  else if bool_decide (t = bs "custom") then Ok Custom
  else Err BadRequest.

Definition find_column (column : bytes) (l : list (bytes * bytes)) : option (bytes * bytes) :=
  head (filter (λ c, c.1 = column) l).

Definition build_window (req : RegisterSortedIndex) (k : WindowKind) : res WindowDef :=
  if bool_decide (k = WNone) then Ok WindowDef_none
  else
    let column := rq_window_timestamp_column req in
    match find_column column (rq_sort_columns req) with
    | None => Err BadRequest
    | Some (_, direction) =>
        Ok (mkWindowDef k column (is_desc direction) (rq_window_start_ms req) (rq_window_end_ms req))
    end.

Definition SortedIndexDef_build (req : RegisterSortedIndex) : res SortedIndexDef :=
  if bool_decide (rq_index_name req = []) then Err BadRequest
  else if bool_decide (rq_collection req = []) then Err BadRequest
  else match rq_sort_columns req with
  | [] => Err BadRequest
  | (score_column, score_direction) :: others =>
      let? k := window_kind (rq_window_type req) in
      let? w := build_window req k in
      if existsb (λ c, negb (is_windowed w) || negb (bool_decide (c.1 = timestamp_column w))) others
      then Err Unsupported
      else Ok (mkSortedIndexDef (rq_index_name req) (rq_collection req) score_column
                 (is_desc score_direction) (rq_key_column req) w)
  end.

(** ** Stored KV rows: [reads.rs] *)

Definition DEADLINE_PREFIX_LEN : nat := 8.

Definition kv_key (collection key : bytes) : bytes := collection ++ [x00] ++ key.

Definition encode_value (deadline_ms : Z) (value : bytes) : bytes := u64_le deadline_ms ++ value.

Definition decode_value (stored : bytes) : option (Z * bytes) :=
  if (length stored <? DEADLINE_PREFIX_LEN)%nat then None
  else Some (le_val (take DEADLINE_PREFIX_LEN stored), drop DEADLINE_PREFIX_LEN stored).

Definition split_kv_key (composite : bytes) : option (bytes * bytes) :=
  let* sep := position (λ b, bool_decide (b = x00)) composite in
  let* coll := from_utf8 (take sep composite) in
  Some (coll, drop (sep + 1) composite).

(** The entry a stored row contributes; decoding a row's body to its columns is
    MessagePack, a parameter. *)
Section entry.
Context {O : Type} (decode_kv_map : bytes → res (option (gmap bytes (Value O)))).

Definition entry_for (def : SortedIndexDef) (stored : bytes) (now_ms : Z) : res (option PkEntry) :=
  match decode_value stored with
  | None => Ok None
  | Some (deadline, body) =>
      if negb (deadline =? 0) && (deadline <=? now_ms) then Ok None
      else
        let? columns := decode_kv_map body in
        match columns with
        | None => Ok None
        | Some columns =>
            match
              match columns !! score_column def with
              | Some (VInteger n) => Some (i64_as_f64 n)
              | Some (VFloat f) => Some f
              | _ => None
              end
            with
            | None => Ok None
            | Some score =>
                let mk ts := Ok (Some (mkPkEntry (encode_score score (score_desc def)) ts deadline)) in
                if is_windowed (window def) then
                  match extract_ts_from_value columns (timestamp_column (window def)) with
                  | Some ts_ms => mk (Some (encode_ts ts_ms (timestamp_desc (window def))))
                  | None => Ok None
                  end
                else mk None
            end
        end
  end.
End entry.

(** ** Scores *)

Lemma shiftr_63 x : u64_ok x → (Z.shiftr x 63 =? 0) = negb (f64_negative x).
Proof.
  intros Hx. rewrite Z.shiftr_div_pow2 by lia. unfold f64_negative, f64_sign_bit.
  destruct (Z.leb_spec (2 ^ 63) x); simpl.
  - assert (1 ≤ x / 2 ^ 63) by (apply Z.div_le_lower_bound; lia). lia.
  - rewrite Z.div_small by arith. done.
Qed.

Lemma f64_to_sort_bytes_spec x : u64_ok x → f64_to_sort_bytes x = u64_be (f64_sortable x).
Proof.
  intros Hx. unfold f64_to_sort_bytes, f64_sortable.
  rewrite shiftr_63, sign_bit, land_sign_bit, negb_involutive by done.
  by destruct (f64_negative x).
Qed.

Lemma u64_not x : u64_ok x → Z.lnot x mod 2 ^ 64 = u64_max - x.
Proof.
  intros Hx. replace (Z.lnot x) with (u64_max - x + (-1) * 2 ^ 64) by (unfold Z.lnot; arith).
  rewrite Z.mod_add by lia. apply Z.mod_small. arith.
Qed.

Lemma sort_bytes_roundtrip x : u64_ok x → sort_bytes_to_f64 (f64_to_sort_bytes x) = x.
Proof.
  intros Hx. rewrite f64_to_sort_bytes_spec by done. unfold sort_bytes_to_f64.
  pose proof (f64_sortable_ok x Hx) as Hs. rewrite u64_be_val by done.
  rewrite shiftr_63, negb_involutive, sign_bit, lxor_sign_bit, u64_not by done.
  rewrite f64_sortable_spec by done. destruct (f64_negative x) eqn:Hn;
    unfold f64_negative, f64_sign_bit in *.
  - apply Z.leb_le in Hn. rewrite (proj2 (Z.leb_gt _ (u64_max - x))) by arith. arith.
  - apply Z.leb_gt in Hn. rewrite (proj2 (Z.leb_le _ (x + 2 ^ 63))) by arith. arith.
Qed.

Lemma byte_not_range x : 0 ≤ Z.lxor (bz x) 255 < 256.
Proof. destruct x; vm_compute; intuition congruence. Qed.

Lemma bz_not x : bz (zb (Z.lxor (bz x) 255)) = 255 - bz x.
Proof. by destruct x. Qed.

Lemma length_complement b : length (complement b) = length b.
Proof. apply length_fmap. Qed.

Lemma complement_involutive b : complement (complement b) = b.
Proof.
  unfold complement. rewrite <-list_fmap_compose. rewrite <-(list_fmap_id b) at 2.
  apply list_fmap_ext. intros i x _. apply (inj bz). simpl. by destruct x.
Qed.

Lemma complement_cmp a b :
  length a = length b → bytes_cmp (complement a) (complement b) = CompOpp (bytes_cmp a b).
Proof.
  revert b. induction a as [|x a IH]; intros [|y b] Hl; try discriminate Hl; [done|].
  injection Hl as Hl. cbn [complement fmap list_fmap bytes_cmp]. rewrite !bz_not.
  fold (complement a) (complement b). rewrite IH by done.
  destruct (Z.compare_spec (255 - bz x) (255 - bz y)), (Z.compare_spec (bz x) (bz y)); done || lia.
Qed.

Lemma length_encode_score s desc : length (encode_score s desc) = FIELD_LEN.
Proof.
  unfold encode_score, f64_to_sort_bytes. destruct desc;
    rewrite ?length_complement; apply length_be_bytes.
Qed.
Lemma length_encode_ts t desc : length (encode_ts t desc) = FIELD_LEN.
Proof.
  unfold encode_ts. destruct desc; rewrite ?length_complement; apply length_be_bytes.
Qed.

Lemma decode_encode_ts t desc : u64_ok t → decode_ts (encode_ts t desc) desc = t.
Proof.
  intros. unfold decode_ts, encode_ts. destruct desc; rewrite ?complement_involutive;
    by apply u64_be_val.
Qed.

Definition dir_cmp (desc : bool) (c : comparison) : comparison := if desc then CompOpp c else c.

Lemma encode_score_cmp s t desc :
  u64_ok s → u64_ok t →
  bytes_cmp (encode_score s desc) (encode_score t desc) =
  dir_cmp desc (f64_sortable s ?= f64_sortable t).
Proof.
  intros Hs Ht. unfold encode_score.
  assert (bytes_cmp (f64_to_sort_bytes s) (f64_to_sort_bytes t) =
          (f64_sortable s ?= f64_sortable t)) as Hc.
  { rewrite !f64_to_sort_bytes_spec by done. by apply u64_be_cmp; apply f64_sortable_ok. }
  destruct desc; [|done]. rewrite complement_cmp, Hc; [done|].
  unfold f64_to_sort_bytes. by rewrite !length_be_bytes.
Qed.

(** C33: a score survives its key, bit for bit, in either direction, and keys rank as
    the numbers: a score that is numerically less sorts before the other in an
    ascending index and after it in a descending one. *)
Theorem score_encoding s t desc c :
  u64_ok s → u64_ok t →
  decode_score (encode_score s desc) desc = s ∧
  (f64_is_nan s = false → f64_is_nan t = false →
   SFcompare (sf_of_bits s) (sf_of_bits t) = Some c → c ≠ Eq →
   bytes_cmp (encode_score s desc) (encode_score t desc) = dir_cmp desc c).
Proof.
  intros Hs Ht. split.
  { unfold decode_score, encode_score. destruct desc; rewrite ?complement_involutive;
      by apply sort_bytes_roundtrip. }
  intros Ns Nt. rewrite sf_bits_compare, encode_score_cmp, !f64_sortable_spec by done.
  apply f64_bits_split in Hs as [Es Rs]. apply f64_bits_split in Ht as [Et Rt].
  intros [= <-]. destruct (f64_is_zero s && f64_is_zero t) eqn:Hz; [done|].
  intros _. f_equal. unfold f64_is_zero in *.
  destruct (f64_negative s), (f64_negative t); unfold f64_sign_bit, comp_sign in *; zcompare.
Qed.

(** ** The stored form of an entry *)

Definition entry_wf (e : PkEntry) : Prop :=
  length (pe_score e) = FIELD_LEN ∧ u64_ok (pe_deadline e) ∧
  match pe_ts e with Some ts => length ts = FIELD_LEN | None => True end.

Lemma pk_entry_decode_encode b e :
  PkEntry_decode b = Some e ↔ entry_wf e ∧ b = PkEntry_encode e.
Proof.
  split.
  - unfold PkEntry_decode, get_to, FIELD_LEN.
    destruct (Nat.leb_spec 8 (length b)); cbn [mbind option_bind]; [|done].
    destruct (Nat.leb_spec (2 * 8) (length b)); cbn [mbind option_bind]; [|done].
    set (d := drop 8 (take (2 * 8) b)).
    assert (length d = 8%nat) as Hd by (subst d; rewrite length_drop, length_take; lia).
    assert (u64_le (le_val d) = d) as Hle by (rewrite <-Hd at 1; apply le_bytes_val).
    assert (u64_ok (le_val d)) as Hok.
    { pose proof (le_val_bound d) as Hv. rewrite Hd in Hv.
      change (256 ^ Z.of_nat 8) with (2 ^ 64) in Hv. arith. }
    assert (b = take 8 b ++ d ++ drop (2 * 8) b) as Hb.
    { subst d. rewrite skipn_firstn_comm. change (2 * 8 - 8)%nat with 8%nat.
      change (2 * 8)%nat with (8 + 8)%nat. by rewrite <-drop_drop, !take_drop. }
    clearbody d. destruct (Nat.eqb_spec (length b) (2 * 8)) as [H2|H2];
      [|destruct (Nat.eqb_spec (length b) (3 * 8)) as [H3|H3]; [|done]];
      cbn [mbind option_bind]; intros [= <-];
      unfold entry_wf, PkEntry_encode, FIELD_LEN; cbn [pe_score pe_ts pe_deadline];
      rewrite length_take, Hle.
    + split; [split; [lia|done]|]. rewrite Hb at 1. rewrite (drop_ge b) by lia. done.
    + split; [split; [lia|]; split; [done|]; rewrite length_drop; lia|]. exact Hb.
  - intros [(Hs & Hd & Ht) ->]. destruct e as [s ts d]. unfold PkEntry_decode, PkEntry_encode.
    cbn [pe_score pe_ts pe_deadline] in *.
    pose proof (length_le_bytes 8 d) as Hl.
    unfold FIELD_LEN in *. rewrite <-Hs at 1. rewrite get_to_app. cbn [mbind option_bind].
    rewrite app_assoc.
    replace (2 * 8)%nat with (length (s ++ u64_le d)) at 1 by (rewrite length_app; lia).
    rewrite get_to_app. cbn [mbind option_bind].
    rewrite (drop_app_length' s) by done. rewrite u64_le_val by done.
    rewrite !length_app, Hs, Hl. destruct ts as [ts|]; cbn [length].
    + rewrite Ht. simpl. rewrite drop_app_length' by (rewrite length_app; lia). done.
    + done.
Qed.

(** A stored entry decodes to what was stored, and only bytes [encode] writes
    decode: decoding is exactly the inverse of encoding on well-formed entries. *)
Theorem pk_entry_roundtrip b e :
  PkEntry_decode b = Some e ↔ entry_wf e ∧ b = PkEntry_encode e.
Proof. apply pk_entry_decode_encode. Qed.

(** ** The calendar *)

(** The proleptic Gregorian calendar, written as its rules. *)
Definition leap_year (y : Z) : bool :=
  (y mod 4 =? 0) && (negb (y mod 100 =? 0) || (y mod 400 =? 0)).

Definition days_in_month (y m : Z) : Z :=
  if m =? 2 then if leap_year y then 29 else 28
  else if (m =? 4) || (m =? 6) || (m =? 9) || (m =? 11) then 30 else 31.

(** Days from 0001-01-01 to the first of January of [y]. *)
Definition days_before_year (y : Z) : Z :=
  365 * (y - 1) + (y - 1) / 4 - (y - 1) / 100 + (y - 1) / 400.

Definition days_before_month (y m : Z) : Z :=
  foldr (λ k acc, days_in_month y k + acc) 0 (seqZ 1 (m - 1)).

(** The day count since 1970-01-01 of the first day of a month. *)
Definition month_first_day (y m : Z) : Z :=
  days_before_year y + days_before_month y m - 719162.

(** Four centuries repeat: everything shifts by 146097 days. *)
Lemma leap_year_period y k : leap_year (y + 400 * k) = leap_year y.
Proof.
  unfold leap_year. replace (y + 400 * k) with (y + 100 * k * 4) by lia. rewrite Z.mod_add by lia.
  replace (y + 100 * k * 4) with (y + 4 * k * 100) by lia. rewrite Z.mod_add by lia.
  replace (y + 4 * k * 100) with (y + k * 400) by lia. by rewrite Z.mod_add.
Qed.

Lemma days_in_month_period y k m : days_in_month (y + 400 * k) m = days_in_month y m.
Proof. unfold days_in_month. by rewrite leap_year_period. Qed.

Lemma month_first_day_period y k m :
  month_first_day (y + 400 * k) m = month_first_day y m + 146097 * k.
Proof.
  unfold month_first_day, days_before_month, days_before_year.
  replace (y + 400 * k - 1) with (y - 1 + 400 * k) by lia.
  replace (y - 1 + 400 * k) with (y - 1 + 100 * k * 4) at 2 by lia.
  replace (y - 1 + 400 * k) with (y - 1 + 4 * k * 100) at 2 by lia.
  replace (y - 1 + 400 * k) with (y - 1 + k * 400) at 2 by lia.
  rewrite !Z.div_add by lia.
  assert (∀ l, foldr (λ j acc, days_in_month (y + 400 * k) j + acc) 0 l =
               foldr (λ j acc, days_in_month y j + acc) 0 l) as ->; [|lia].
  induction l as [|j l IH]; simpl; [done|]. by rewrite IH, days_in_month_period.
Qed.

Lemma civil_period d k :
  civil_year_month (d + 146097 * k) = ((civil_year_month d).1 + 400 * k, (civil_year_month d).2).
Proof.
  unfold civil_year_month. replace (d + 146097 * k + 719468) with (d + 719468 + k * 146097) by lia.
  rewrite Z.div_add, Z.mod_add by lia. cbn [fst snd]. f_equal. lia.
Qed.

Lemma days_from_civil_period y k m d :
  days_from_civil (y + 400 * k) m d = days_from_civil y m d + 146097 * k.
Proof.
  unfold days_from_civil. destruct (m <=? 2).
  - replace (y + 400 * k - 1) with (y - 1 + k * 400) by lia. rewrite Z.div_add, Z.mod_add by lia. lia.
  - replace (y + 400 * k) with (y + k * 400) by lia. rewrite Z.div_add, Z.mod_add by lia. lia.
Qed.

(** One period of 400 years starting in March, checked year by year.  [day_of_era] numbers
    the days of the period, [year_start] is the first of March. *)
Definition shifted_day (doe : Z) : Z := doe - doe / 1460 + doe / 36524 - doe / 146096.

Definition year_start (yoe : Z) : Z := 365 * yoe + yoe / 4 - yoe / 100.
Definition year_end (yoe : Z) : Z := if yoe =? 399 then 146097 else year_start (yoe + 1).

Definition month_start (mp : Z) : Z := (153 * mp + 2) / 5.
Definition civil_month (mp : Z) : Z := if mp <? 10 then mp + 3 else mp - 9.
Definition civil_year (yoe mp : Z) : Z := yoe + if civil_month mp <=? 2 then 1 else 0.

Definition month_ok (yoe mp : Z) : bool :=
  let y := civil_year yoe mp in
  let m := civil_month mp in
  (month_first_day y m =? year_start yoe + month_start mp - 719468) &&
  (days_from_civil y m 1 =? month_first_day y m) &&
  (days_in_month y m =? (if mp =? 11 then year_end yoe - year_start yoe else month_start (mp + 1))
                        - month_start mp).

Definition year_ok (yoe : Z) : bool :=
  (shifted_day (year_start yoe) / 365 =? yoe) &&
  (shifted_day (year_end yoe - 1) / 365 =? yoe) &&
  (337 <? year_end yoe - year_start yoe) && (year_end yoe - year_start yoe <=? 366) &&
  forallb (month_ok yoe) (seqZ 0 12).

Definition doy_ok (doy : Z) : bool :=
  let mp := (5 * doy + 2) / 153 in
  (0 <=? mp) && (mp <=? 11) && (month_start mp <=? doy) &&
  ((mp =? 11) || (doy <? month_start (mp + 1))).

Lemma forallb_seqZ (p : Z → bool) n x :
  forallb p (seqZ 0 n) = true → 0 ≤ x < n → p x = true.
Proof.
  intros Hp%Is_true_eq_left Hx. apply forallb_True in Hp. rewrite Forall_forall in Hp.
  apply Is_true_eq_true, Hp, elem_of_seqZ. lia.
Qed.

Lemma years_ok yoe : 0 ≤ yoe < 400 → year_ok yoe = true.
Proof. apply forallb_seqZ. vm_compute. reflexivity. Qed.

Lemma doys_ok doy : 0 ≤ doy < 366 → doy_ok doy = true.
Proof. apply forallb_seqZ. vm_compute. reflexivity. Qed.

Lemma shifted_day_step d : 0 ≤ d → shifted_day d ≤ shifted_day (d + 1).
Proof.
  intros Hd. unfold shifted_day.
  replace (d / 146096) with (d / 36524 / 4) by (by rewrite Z.div_div).
  replace ((d + 1) / 146096) with ((d + 1) / 36524 / 4) by (by rewrite Z.div_div).
  assert ((d + 1) / 1460 ≤ d / 1460 + 1).
  { replace (d / 1460 + 1) with ((d + 1 * 1460) / 1460) by (apply Z.div_add; lia).
    apply Z.div_le_mono; lia. }
  assert (d / 36524 ≤ (d + 1) / 36524) as Hq by (apply Z.div_le_mono; lia).
  revert Hq. generalize (d / 36524) ((d + 1) / 36524). intros q q' Hq.
  assert (q - q / 4 ≤ q' - q' / 4) by (clear -Hq; Z.to_euclidean_division_equations; lia).
  lia.
Qed.

Lemma shifted_day_mono a b : 0 ≤ a → a ≤ b → shifted_day a ≤ shifted_day b.
Proof.
  intros Ha Hab. replace b with (a + (b - a)) by lia. assert (0 ≤ b - a) as Hk by lia.
  revert Hk. generalize (b - a). apply (natlike_ind (λ k, shifted_day a ≤ shifted_day (a + k))).
  - by rewrite Z.add_0_r.
  - intros k Hk IH. rewrite Z.add_succ_r, <-Z.add_1_r.
    etransitivity; [exact IH|]. apply shifted_day_step. lia.
Qed.

Lemma shifted_div_mono a b : 0 ≤ a → a ≤ b → shifted_day a / 365 ≤ shifted_day b / 365.
Proof. intros. apply Z.div_le_mono; [lia|]. by apply shifted_day_mono. Qed.

(** The year of the period a day belongs to. *)
Lemma year_of_day doe :
  0 ≤ doe < 146097 →
  let yoe := shifted_day doe / 365 in
  0 ≤ yoe < 400 ∧ year_start yoe ≤ doe < year_end yoe.
Proof.
  intros Hd yoe. assert (0 ≤ yoe ≤ 399) as Hy.
  { change 0 with (shifted_day 0 / 365). change 399 with (shifted_day 146096 / 365).
    subst yoe. split; apply shifted_div_mono; lia. }
  assert (∀ y, 0 ≤ y < 400 → shifted_day (year_start y) / 365 = y ∧
                             shifted_day (year_end y - 1) / 365 = y ∧ 0 ≤ year_start y) as Hends.
  { intros y Hyr. pose proof (years_ok y Hyr) as Hok. unfold year_ok in Hok.
    assert (0 ≤ year_start y) by (unfold year_start; Z.to_euclidean_division_equations; lia). lia. }
  split; [lia|]. split.
  - destruct (Z.le_gt_cases (year_start yoe) doe) as [|Hlt]; [done|]. exfalso.
    assert (yoe ≠ 0) by (intros Hz; rewrite Hz in Hlt; change (year_start 0) with 0 in Hlt; lia).
    destruct (Hends (yoe - 1)) as (_ & He & _); [lia|].
    assert (year_end (yoe - 1) = year_start yoe) as Hye.
    { unfold year_end. rewrite (proj2 (Z.eqb_neq _ _)) by lia. f_equal. lia. }
    rewrite Hye in He. pose proof (shifted_div_mono doe (year_start yoe - 1)). fold yoe in H0. lia.
  - destruct (Z.lt_ge_cases doe (year_end yoe)) as [|Hge]; [done|]. exfalso.
    unfold year_end in Hge. destruct (Z.eqb_spec yoe 399); [lia|].
    destruct (Hends (yoe + 1)) as (He & _ & Hnn); [lia|].
    pose proof (shifted_div_mono (year_start (yoe + 1)) doe Hnn Hge). fold yoe in H. lia.
Qed.

(** The calendar on one period. *)
Lemma civil_day_ok d :
  - 719468 ≤ d < 146097 - 719468 →
  let '(y, m) := civil_year_month d in
  1 ≤ m ≤ 12 ∧
  month_first_day y m ≤ d < month_first_day y m + days_in_month y m ∧
  days_from_civil y m 1 = month_first_day y m.
Proof.
  intros Hd. unfold civil_year_month. set (doe := d + 719468) in *.
  rewrite (Z.div_small doe), (Z.mod_small doe) by lia.
  change (doe - doe / 1460 + doe / 36524 - doe / 146096) with (shifted_day doe).
  destruct (year_of_day doe) as [Hy Hr]; [lia|]. set (yoe := shifted_day doe / 365) in *.
  pose proof (years_ok yoe Hy) as Hyok. unfold year_ok in Hyok.
  apply andb_true_iff in Hyok as [Hyok Hmonths].
  assert (0 ≤ doe - year_start yoe < 366) as Hdoy by lia.
  change (doe - (365 * yoe + yoe / 4 - yoe / 100)) with (doe - year_start yoe).
  set (doy := doe - year_start yoe) in *. pose proof (doys_ok doy Hdoy) as Hdok.
  unfold doy_ok in Hdok. set (mp := (5 * doy + 2) / 153) in *.
  pose proof (forallb_seqZ _ _ mp Hmonths) as Hm. unfold month_ok in Hm.
  change (if mp <? 10 then mp + 3 else mp - 9) with (civil_month mp).
  replace (yoe + 0 * 400 + (if civil_month mp <=? 2 then 1 else 0)) with (civil_year yoe mp)
    by (unfold civil_year; lia).
  assert (1 ≤ civil_month mp ≤ 12) by (unfold civil_month; destruct (Z.ltb_spec mp 10); lia).
  specialize (Hm ltac:(lia)).
  assert (d = year_start yoe + doy - 719468) by (subst doy doe; lia).
  assert (doy < year_end yoe - year_start yoe) by (subst doy; lia).
  clearbody yoe doy mp. destruct (Z.eqb_spec mp 11); lia.
Qed.

Lemma civil_calendar_aux days :
  let '(y, m) := civil_year_month days in
  1 ≤ m ≤ 12 ∧
  month_first_day y m ≤ days < month_first_day y m + days_in_month y m ∧
  days_from_civil y m 1 = month_first_day y m.
Proof.
  pose proof (Z.div_mod (days + 719468) 146097 ltac:(lia)) as Hdm.
  pose proof (Z.mod_pos_bound (days + 719468) 146097 ltac:(lia)) as Hr.
  set (r := (days + 719468) mod 146097) in *. set (k := (days + 719468) / 146097) in *.
  replace days with (r - 719468 + 146097 * k) by lia. rewrite civil_period.
  pose proof (civil_day_ok (r - 719468) ltac:(lia)) as Hok.
  destruct (civil_year_month (r - 719468)) as [y m]. cbn [fst snd].
  rewrite month_first_day_period, days_in_month_period, days_from_civil_period.
  clearbody r k. lia.
Qed.

(** C26: the civil calendar is right for every day, before and after 1970:
    [civil_year_month] names the Gregorian month that contains the day, and
    [days_from_civil] gives the first day of that month. *)
Theorem civil_calendar days :
  let '(y, m) := civil_year_month days in
  1 ≤ m ≤ 12 ∧
  month_first_day y m ≤ days < month_first_day y m + days_in_month y m ∧
  days_from_civil y m 1 = month_first_day y m.
Proof. apply civil_calendar_aux. Qed.

(** ** Windows *)

(** Where the window that holds [now] starts, for each kind of window, in milliseconds
    since 1970-01-01.  No Monday of the epoch comes before 1970-01-05. *)
Definition window_starts (w : WindowDef) (now start : Z) : Prop :=
  match kind w with
  | WNone => False
  | Daily => start mod MS_PER_DAY = 0 ∧ start ≤ now < start + MS_PER_DAY
  | Weekly =>
      4 * MS_PER_DAY ≤ now ∧ start mod MS_PER_DAY = 0 ∧ (start / MS_PER_DAY + 3) mod 7 = 0 ∧
        start ≤ now < start + 7 * MS_PER_DAY ∨
      now < 4 * MS_PER_DAY ∧ start = 2 ^ 64 - 3 * MS_PER_DAY
  | Monthly =>
      ∃ y m, 1 ≤ m ≤ 12 ∧ start = month_first_day y m * MS_PER_DAY ∧
        start ≤ now < start + days_in_month y m * MS_PER_DAY
  | Custom =>
      start_ms w ≤ now < end_ms w ∧ start = start_ms w ∨
      ¬ start_ms w ≤ now < end_ms w ∧ start = u64_max
  end.

Lemma start_of_week_spec now :
  4 * MS_PER_DAY ≤ now ≤ u64_max →
  let days := now / MS_PER_DAY in
  start_of_week now = (days - (days + 3) mod 7) * MS_PER_DAY ∧ 4 ≤ days.
Proof.
  intros Hnow days. unfold start_of_week. fold days.
  assert (days * MS_PER_DAY ≤ now < days * MS_PER_DAY + MS_PER_DAY) as Hd.
  { subst days. pose proof (Z.div_mod now MS_PER_DAY ltac:(done)).
    pose proof (Z.mod_pos_bound now MS_PER_DAY ltac:(done)). lia. }
  assert (4 ≤ days) by (subst days; apply Z.div_le_lower_bound; [done|lia]).
  clearbody days. pose proof (Z.mod_pos_bound (days + 3) 7 ltac:(done)).
  assert (0 ≤ days - (days + 3) mod 7).
  { pose proof (Z.div_mod (days + 3) 7 ltac:(done)). lia. }
  unfold MS_PER_DAY in *.
  rewrite (wrap_u64_id (days - _)) by arith. rewrite wrap_u64_id by arith. done.
Qed.

(** Before the first Monday of 1970 the subtraction wraps: the weekly window starts in the
    far future and hides every entry. *)
Lemma start_of_week_epoch now : 0 ≤ now < 4 * MS_PER_DAY → start_of_week now = 2 ^ 64 - 3 * MS_PER_DAY.
Proof.
  intros Hnow. assert (0 ≤ now / MS_PER_DAY < 4) as Hd.
  { split; [apply Z.div_pos; [lia|done]|apply Z.div_lt_upper_bound; [done|lia]]. }
  unfold start_of_week. generalize dependent (now / MS_PER_DAY). intros days Hd.
  assert (days = 0 ∨ days = 1 ∨ days = 2 ∨ days = 3) as [->|[->|[->| ->]]] by lia; by vm_compute.
Qed.

Lemma month_first_day_nonneg d :
  0 ≤ d → 0 ≤ month_first_day (civil_year_month d).1 (civil_year_month d).2.
Proof.
  intros Hd. destruct (Z.lt_ge_cases d 31).
  - apply Z.leb_le. revert d Hd H. intros d H1 H2.
    apply (forallb_seqZ (λ d, 0 <=? month_first_day (civil_year_month d).1 (civil_year_month d).2) 31);
      [vm_compute; reflexivity|lia].
  - pose proof (civil_calendar_aux d) as Hc. destruct (civil_year_month d) as [y m].
    assert (days_in_month y m ≤ 31) by (unfold days_in_month; repeat case_match; lia).
    cbn [fst snd]. lia.
Qed.

(** C34: the window of a read starts where its kind says, at any clock.  An index without
    a window has no start; otherwise the start is the last UTC midnight, the last UTC
    Monday, the first of the current UTC month, or the custom start while the custom range
    lasts and the end of time outside it.  Before Monday 1970-01-05 the weekly start wraps
    to the far future instead. *)
Theorem window_start_spec w now :
  0 ≤ now ≤ u64_max →
  match window_start w now with
  | Some start => window_starts w now start
  | None => kind w = WNone
  end.
Proof.
  intros Hnow. unfold window_start, window_starts. destruct (kind w); [done|..].
  - unfold start_of_day. split; [apply Z.mod_mul; done|].
    pose proof (Z.div_mod now MS_PER_DAY ltac:(done)).
    pose proof (Z.mod_pos_bound now MS_PER_DAY ltac:(done)). lia.
  - destruct (Z.lt_ge_cases now (4 * MS_PER_DAY)) as [Hlt|Hge]; [right; split; [done|apply start_of_week_epoch; lia]|left].
    split; [done|]. destruct (start_of_week_spec now ltac:(lia)) as [-> H4].
    split; [by apply Z.mod_mul|]. rewrite Z.div_mul by done.
    pose proof (Z.div_mod now MS_PER_DAY ltac:(done)).
    pose proof (Z.mod_pos_bound now MS_PER_DAY ltac:(done)).
    set (days := now / MS_PER_DAY) in *. pose proof (Z.mod_pos_bound (days + 3) 7 ltac:(done)).
    split.
    + pose proof (Z.div_mod (days + 3) 7 ltac:(done)) as Hq.
      replace (days - (days + 3) mod 7 + 3) with ((days + 3) / 7 * 7) by lia. by apply Z.mod_mul.
    + clearbody days. unfold MS_PER_DAY in *. lia.
  - unfold start_of_month.
    pose proof (Z.div_mod now MS_PER_DAY ltac:(done)).
    pose proof (Z.mod_pos_bound now MS_PER_DAY ltac:(done)).
    assert (0 ≤ now / MS_PER_DAY) by (apply Z.div_pos; [arith|done]).
    set (days := now / MS_PER_DAY) in *. clearbody days.
    assert (u64_as_i64 days = days) as ->.
    { apply wrap_i64_id. unfold MS_PER_DAY in *. arith. }
    pose proof (civil_calendar_aux days) as Hc. pose proof (month_first_day_nonneg days) as Hn.
    destruct (civil_year_month days) as [y m]. destruct Hc as (Hm & Hr & ->). cbn [fst snd] in Hn.
    remember (month_first_day y m) as f eqn:Ef. assert (0 ≤ f) as Hf by auto.
    unfold i64_as_u64. rewrite Z.mod_small by (unfold MS_PER_DAY in *; arith).
    rewrite wrap_u64_id by (unfold MS_PER_DAY in *; arith).
    exists y, m. split; [done|]. split; [by rewrite Ef|]. unfold MS_PER_DAY in *. nia.
  - destruct ((start_ms w <=? now) && (now <? end_ms w)) eqn:Hc; [left|right]; (split; [|done]); lia.
Qed.

(** ** Examples *)

Lemma score_encoding_witness :
  bytes_cmp (encode_score (i64_as_f64 (-2)) true) (encode_score (i64_as_f64 7) true) = Gt ∧
  decode_score (encode_score (i64_as_f64 7) true) true = i64_as_f64 7.
Proof.
  split.
  - apply (proj2 (score_encoding (i64_as_f64 (-2)) (i64_as_f64 7) true Lt ltac:(by compute)
      ltac:(by compute))); by vm_compute.
  - apply (proj1 (score_encoding (i64_as_f64 7) 0 true Eq ltac:(by compute) ltac:(by compute))).
Defined.

Lemma pk_entry_roundtrip_witness :
  PkEntry_decode (PkEntry_encode (mkPkEntry (encode_score 0 false) (Some (u64_be 5)) 9)) =
  Some (mkPkEntry (encode_score 0 false) (Some (u64_be 5)) 9).
Proof.
  apply (proj2 (pk_entry_roundtrip _ _)). split; [|done].
  split; [done|]. split; [by compute|done].
Defined.

(** 2024-02-29T12:00:00Z falls in a month that starts on 2024-02-01. *)
Lemma window_start_spec_witness :
  window_starts (mkWindowDef Monthly (bs "ts") false 0 0) 1709208000000 1706745600000.
Proof.
  pose proof (window_start_spec (mkWindowDef Monthly (bs "ts") false 0 0) 1709208000000 ltac:(by compute)) as Hs.
  assert (window_start (mkWindowDef Monthly (bs "ts") false 0 0) 1709208000000 = Some 1706745600000) as He by (by vm_compute).
  by rewrite He in Hs.
Defined.
