(* ===== verification/SortedMaintain.v ===== *)
(** * Sorted indexes: the entries a write implies

    [src/nodedb-lite/src/query/kv_ops/sorted/maintain.rs] and the backfill of
    [register.rs].  Every batch of KV rows carries the index writes planned here,
    so rows and entries commit together.  The abstract state of one index is the
    map from primary keys to entries; [index_rows] says which storage rows
    represent it, and the theorems say that planned writes take one represented
    map to the next. *)

From Stdlib Require Import ZArith Lia Strings.Byte.
From stdpp Require Import prelude gmap strings.
From S2P Require Import Prelude Bytes Ordered Text F64 StorageTrait IndexKey SortedKeys.

Local Open Scope Z_scope.

(** ** The code *)

Definition plan_change (index_name pk : bytes) (old new : option PkEntry) : list WriteOp :=
  match old, new with
  | None, None => []
  | Some old, None =>
      [Delete Meta (PkEntry_score_key old index_name pk); Delete Meta (pk_entry_key index_name pk)]
  | old, Some new =>
      if bool_decide (old = Some new) then []
      else
        (match old with
         | Some o =>
             if negb (same_position o new) then [Delete Meta (PkEntry_score_key o index_name pk)]
             else []
         | None => []
         end)
        ++ [Put Meta (PkEntry_score_key new index_name pk) (score_value new);
            Put Meta (pk_entry_key index_name pk) (PkEntry_encode new)]
  end.

Notation Overlay := (gmap (bytes * bytes) (option PkEntry)).

Section plan.
Context {S : Type} `{StorageEngine S}.
Context {O : Type} (decode_kv_map : bytes → res (option (gmap bytes (Value O)))).

Definition stored_entry (storage : S) (index_name pk : bytes) : res (option PkEntry) :=
  let? stored := se_get storage Meta (pk_entry_key index_name pk) in
  match stored with
  | None => Ok None
  | Some b => match PkEntry_decode b with Some e => Ok (Some e) | None => Err Corrupted end
  end.

(** The body of the inner loop: one index of the row's collection. *)
Definition plan_def (storage : S) (now : Z) (pk : bytes) (stored : option bytes)
    (st : Overlay * list WriteOp) (def : SortedIndexDef) : res (Overlay * list WriteOp) :=
  let '(overlay, out) := st in
  let slot := (sd_name def, pk) in
  let? old :=
    match overlay !! slot with
    | Some entry => Ok entry
    | None => stored_entry storage (sd_name def) pk
    end in
  let? new :=
    match stored with
    | Some value => entry_for decode_kv_map def value now
    | None => Ok None
    end in
  Ok (<[slot := new]> overlay, out ++ plan_change (sd_name def) pk old new).

(** The row an operation writes: its key and its new value. *)
Definition kv_row (op : WriteOp) : option (bytes * option bytes) :=
  match op with
  | Put Kv key value => Some (key, Some value)
  | Delete Kv key => Some (key, None)
  | _ => None
  end.

Definition plan_op (storage : S) (now : Z) (defs_by_collection : gmap bytes (list SortedIndexDef))
    (st : Overlay * list WriteOp) (op : WriteOp) : res (Overlay * list WriteOp) :=
  match kv_row op with
  | None => Ok st
  | Some (key, stored) =>
      match split_kv_key key with
      | None => Ok st
      | Some (collection, pk) =>
          match defs_by_collection !! collection with
          | None => Ok st
          | Some defs => rfold (plan_def storage now pk stored) st defs
          end
      end
  end.

Definition plan_sorted_ops (storage : S) (now : Z)
    (defs_by_collection : gmap bytes (list SortedIndexDef)) (ops : list WriteOp)
    : res (list WriteOp) :=
  if bool_decide (defs_by_collection = ∅) then Ok []
  else
    let? st := rfold (plan_op storage now defs_by_collection) (∅, []) ops in
    Ok st.2.

(** [register.rs]: the entries of the rows already stored. *)
Definition backfill_row (def : SortedIndexDef) (now : Z) (st : list WriteOp * Z) (row : KvPair)
    : res (list WriteOp * Z) :=
  let '(ops, count) := st in
  match split_kv_key row.1 with
  | None => Ok st
  | Some (collection, pk) =>
      if negb (bool_decide (collection = sd_collection def)) then Ok st
      else
        let? entry := entry_for decode_kv_map def row.2 now in
        match entry with
        | None => Ok st
        | Some entry =>
            Ok (ops ++ [Put Meta (PkEntry_score_key entry (sd_name def) pk) (score_value entry);
                        Put Meta (pk_entry_key (sd_name def) pk) (PkEntry_encode entry)],
                wrap_u64 (count + 1))
        end
  end.

Definition backfill (storage : S) (def : SortedIndexDef) (now : Z) : res (list WriteOp * Z) :=
  let? rows := se_scan_prefix storage Kv (kv_key (sd_collection def) []) in
  rfold (backfill_row def now) ([], 0) rows.
End plan.

(** ** The map an index represents *)

Definition index_entry_ok (windowed : bool) (e : PkEntry) : Prop :=
  entry_wf e ∧ (windowed = true ↔ is_Some (pe_ts e)).

Definition index_ok (windowed : bool) (a : gmap bytes PkEntry) : Prop :=
  ∀ pk e, a !! pk = Some e → index_entry_ok windowed e.

(** The rows of Meta that represent [a] under [name]: one row per primary key
    and one per score, and no other score row. *)
Definition index_rows (mm : gmap bytes bytes) (name : bytes) (a : gmap bytes PkEntry) : Prop :=
  (∀ pk, mm !! pk_entry_key name pk = PkEntry_encode <$> a !! pk) ∧
  (∀ rest v, mm !! (score_prefix name ++ rest) = Some v ↔
     ∃ pk e, a !! pk = Some e ∧ PkEntry_score_key e name pk = score_prefix name ++ rest ∧
             v = score_value e).

(** The abstract write: a row gets its entry or loses it. *)
Definition set_entry (a : gmap bytes PkEntry) (pk : bytes) (new : option PkEntry)
    : gmap bytes PkEntry :=
  match new with Some e => <[pk := e]> a | None => delete pk a end.

Lemma lookup_set_entry a pk new pk' :
  set_entry a pk new !! pk' = if decide (pk = pk') then new else a !! pk'.
Proof.
  destruct new; simpl; [apply lookup_insert|apply lookup_delete].
Qed.

Lemma set_entry_id a pk : set_entry a pk (a !! pk) = a.
Proof.
  apply map_eq. intros pk'. rewrite lookup_set_entry. by case_decide; subst.
Qed.

(** ** Key arithmetic *)

Lemma sorted_entries_prefix_eq name :
  Z.of_nat (length name) ≤ u32_max → sorted_entries_prefix name = SORTED_ROOT ++ component name.
Proof. intros. unfold sorted_entries_prefix. by rewrite (proj2 (Z.leb_le _ _)). Qed.

Lemma sorted_prefix_inj n1 n2 x y :
  name_ok n1 → name_ok n2 →
  sorted_entries_prefix n1 ++ x = sorted_entries_prefix n2 ++ y → n1 = n2 ∧ x = y.
Proof.
  intros H1 H2. rewrite !sorted_entries_prefix_eq by (apply H1 || apply H2).
  rewrite <-!app_assoc. intros H%app_inv_head. by apply component_inj in H.
Qed.

(** The bytes of a score key after its prefix. *)
Definition score_rest (e : PkEntry) (pk : bytes) : bytes :=
  pe_score e ++ match pe_ts e with Some ts => ts | None => [] end ++ pk.

Lemma score_key_rest e name pk : PkEntry_score_key e name pk = score_prefix name ++ score_rest e pk.
Proof. unfold PkEntry_score_key, score_rest. by destruct (pe_ts e). Qed.

(** Fields before the primary key are fixed-width: a score key determines them. *)
Lemma score_rest_inj w e1 e2 pk1 pk2 :
  index_entry_ok w e1 → index_entry_ok w e2 → score_rest e1 pk1 = score_rest e2 pk2 →
  pe_score e1 = pe_score e2 ∧ pe_ts e1 = pe_ts e2 ∧ pk1 = pk2.
Proof.
  intros [(L1 & _ & T1) W1] [(L2 & _ & T2) W2] H. unfold score_rest in H.
  apply app_inj_eqlen in H as [Hs H]; [|congruence].
  destruct (pe_ts e1) as [t1|], (pe_ts e2) as [t2|].
  - apply app_inj_eqlen in H as [-> ->]; [done|congruence].
  - destruct (proj1 W2) as [? ?]; [by apply W1|done].
  - destruct (proj1 W1) as [? ?]; [by apply W2|done].
  - done.
Qed.

Lemma pk_key_not_score name pk rest : pk_entry_key name pk ≠ score_prefix name ++ rest.
Proof.
  unfold pk_entry_key, score_prefix. rewrite <-app_assoc. intros H%app_inv_head. discriminate H.
Qed.

Lemma pk_entry_key_inj name pk1 pk2 : pk_entry_key name pk1 = pk_entry_key name pk2 → pk1 = pk2.
Proof. unfold pk_entry_key. intros H%app_inv_head%app_inv_head. done. Qed.

Lemma score_prefix_inj name r1 r2 : score_prefix name ++ r1 = score_prefix name ++ r2 → r1 = r2.
Proof. apply app_inv_head. Qed.

Lemma if_score_key {A} name r1 r2 (x y : A)
    {D : Decision (score_prefix name ++ r1 = score_prefix name ++ r2)} :
  (if decide (score_prefix name ++ r1 = score_prefix name ++ r2) then x else y) =
  (if decide (r1 = r2) then x else y).
Proof.
  destruct (decide (r1 = r2)) as [->|Hr]; [by rewrite decide_True|].
  rewrite decide_False; [done|]. by intros ?%score_prefix_inj.
Qed.

(** ** Planned writes *)

(** The lookups after the writes of one change. *)
Definition meta_after (m : Store) (ops : list WriteOp) : gmap bytes bytes := st_ops m ops Meta.

Lemma st_ops_app m ops1 ops2 : st_ops m (ops1 ++ ops2) = st_ops (st_ops m ops1) ops2.
Proof. apply foldl_app. Qed.

Section change.
Context (m : Store) (name : bytes) (a : gmap bytes PkEntry) (w : bool).
Hypothesis Hrows : index_rows (m Meta) name a.
Hypothesis Hok : index_ok w a.

(** A changed entry as a lookup: what a score row holds afterwards. *)
Lemma score_rows_change mm' pk new :
  (∀ e, new = Some e → index_entry_ok w e) →
  (∀ rest, mm' !! (score_prefix name ++ rest) =
     match new with
     | Some e => if decide (score_rest e pk = rest) then Some (score_value e)
                 else match a !! pk with
                      | Some o => if decide (score_rest o pk = rest) then None
                                  else m Meta !! (score_prefix name ++ rest)
                      | None => m Meta !! (score_prefix name ++ rest)
                      end
     | None => match a !! pk with
               | Some o => if decide (score_rest o pk = rest) then None
                           else m Meta !! (score_prefix name ++ rest)
               | None => m Meta !! (score_prefix name ++ rest)
               end
     end) →
  (∀ pk', mm' !! pk_entry_key name pk' = PkEntry_encode <$> set_entry a pk new !! pk') →
  index_rows mm' name (set_entry a pk new).
Proof.
  intros Hnew Hscore Hpk. split; [done|]. intros rest v.
  assert (∀ v, match a !! pk with
    | Some o => if decide (score_rest o pk = rest) then None else m Meta !! (score_prefix name ++ rest)
    | None => m Meta !! (score_prefix name ++ rest)
    end = Some v ↔ ∃ pk' e, pk' ≠ pk ∧ a !! pk' = Some e ∧
      PkEntry_score_key e name pk' = score_prefix name ++ rest ∧ v = score_value e) as Hold.
  { intros v'. destruct Hrows as [_ Hs]. split.
    - intros Hl. assert (m Meta !! (score_prefix name ++ rest) = Some v') as Hm
        by (destruct (a !! pk); [case_decide; done|done]).
      apply Hs in Hm as (pk' & e & Ha & Hk & ->). exists pk', e. split; [|done].
      intros ->. rewrite Ha in Hl. rewrite score_key_rest in Hk. apply score_prefix_inj in Hk.
      by rewrite decide_True in Hl.
    - intros (pk' & e & Hne & Ha & Hk & ->).
      assert (m Meta !! (score_prefix name ++ rest) = Some (score_value e)) as Hm by (apply Hs; eauto).
      destruct (a !! pk) as [o|] eqn:Ho; [|done]. rewrite decide_False; [done|]. intros Hr.
      rewrite score_key_rest in Hk. apply score_prefix_inj in Hk. subst rest.
      destruct (score_rest_inj w o e pk pk') as (_ & _ & ?); eauto. }
  rewrite Hscore. setoid_rewrite lookup_set_entry. destruct new as [e|].
  - case_decide as Hr.
    + split.
      * intros [= <-]. exists pk, e. rewrite decide_True, score_key_rest, Hr by done. done.
      * intros (pk' & e' & He' & Hk & ->). rewrite score_key_rest in Hk.
        apply score_prefix_inj in Hk. case_decide; [congruence|].
        destruct (score_rest_inj w e e' pk pk') as (_ & _ & ?);
          [by apply Hnew|by eapply Hok|congruence|congruence].
    + rewrite Hold. split.
      * intros (pk' & e' & ? & ? & ? & ?). exists pk', e'. by rewrite decide_False.
      * intros (pk' & e' & He' & Hk & ->). case_decide as Hp; [|by eauto 10].
        simplify_eq. rewrite score_key_rest in Hk. by apply score_prefix_inj in Hk.
  - rewrite Hold. split.
    + intros (pk' & e' & ? & ? & ? & ?). exists pk', e'. by rewrite decide_False.
    + intros (pk' & e' & He' & Hk & ->). case_decide as Hp; [done|by eauto 10].
Qed.

(** Planned writes for one row and one index take the represented map to the
    next one. *)
Lemma plan_change_rows pk new :
  (∀ e, new = Some e → index_entry_ok w e) →
  index_rows (st_ops m (plan_change name pk (a !! pk) new) Meta) name (set_entry a pk new).
Proof.
  intros Hnew. destruct Hrows as [Hpk _].
  destruct (decide (a !! pk = new)) as [Heq|Hne].
  { rewrite <-Heq, set_entry_id. destruct (a !! pk) as [o|] eqn:Ho; cbn [plan_change]; [|done].
    by rewrite bool_decide_eq_true_2. }
  apply score_rows_change; [done|..].
  - intros rest. destruct (a !! pk) as [o|] eqn:Ho, new as [e|]; cbn [plan_change]; [| |  |done].
    + rewrite bool_decide_eq_false_2 by done. unfold same_position.
      destruct (decide (pe_score o = pe_score e ∧ pe_ts o = pe_ts e)) as [[Hs Ht]|Hp].
      * rewrite !bool_decide_eq_true_2 by done. cbn [negb andb app st_ops foldl st_op]. store_simpl.
        rewrite lookup_insert_ne by apply pk_key_not_score.
        rewrite lookup_insert, score_key_rest, if_score_key.
        assert (score_rest o pk = score_rest e pk) as Hr by (unfold score_rest; by rewrite Hs, Ht).
        rewrite Hr. by case_decide.
      * assert (bool_decide (pe_score o = pe_score e) && bool_decide (pe_ts o = pe_ts e) = false)
          as -> by (repeat case_bool_decide; tauto).
        cbn [negb andb app st_ops foldl st_op]. store_simpl.
        rewrite lookup_insert_ne by apply pk_key_not_score.
        by rewrite lookup_insert, lookup_delete, !score_key_rest, !if_score_key.
    + cbn [negb andb app st_ops foldl st_op]. store_simpl. rewrite lookup_delete_ne by apply pk_key_not_score.
      by rewrite lookup_delete, score_key_rest, if_score_key.
    + rewrite bool_decide_eq_false_2 by done. cbn [negb andb app st_ops foldl st_op]. store_simpl.
      rewrite lookup_insert_ne by apply pk_key_not_score.
      by rewrite lookup_insert, score_key_rest, if_score_key.
  - intros pk'. rewrite lookup_set_entry. specialize (Hpk pk').
    assert (∀ e, PkEntry_score_key e name pk ≠ pk_entry_key name pk') as Hn
      by (intros e; rewrite score_key_rest; intros H; by apply (pk_key_not_score name pk' (score_rest e pk))).
    destruct (a !! pk) as [o|] eqn:Ho, new as [e|]; cbn [plan_change]; [| | |done].
    + rewrite bool_decide_eq_false_2 by done. rewrite st_ops_app. cbn [negb andb app st_ops foldl st_op]. store_simpl.
      rewrite lookup_insert. case_decide as Hd.
      { apply pk_entry_key_inj in Hd as ->. by rewrite decide_True. }
      rewrite (decide_False (P := pk = pk')) by congruence. rewrite lookup_insert_ne by done.
      destruct (negb (same_position o e)); cbn [st_ops foldl st_op]; store_simpl; [|done].
      by rewrite lookup_delete_ne.
    + cbn [negb andb app st_ops foldl st_op]. store_simpl. rewrite lookup_delete. case_decide as Hd.
      { apply pk_entry_key_inj in Hd as ->. by rewrite decide_True. }
      rewrite (decide_False (P := pk = pk')) by congruence. by rewrite lookup_delete_ne.
    + rewrite bool_decide_eq_false_2 by done. cbn [negb andb app st_ops foldl st_op]. store_simpl.
      rewrite lookup_insert. case_decide as Hd.
      { apply pk_entry_key_inj in Hd as ->. by rewrite decide_True. }
      rewrite (decide_False (P := pk = pk')) by congruence. by rewrite lookup_insert_ne.
Qed.
End change.

(** Writes to one namespace depend on that namespace only. *)
Lemma st_ops_ns_ext m0 m ns ops :
  Forall (λ op, op_ns op = ns) ops → m ns = m0 ns → st_ops m ops ns = st_ops m0 ops ns.
Proof.
  intros Hops. revert m m0. induction Hops as [|op ops Hop _ IH]; intros m m0 Heq; simpl; [done|].
  apply IH. destruct op; simpl in *; subst; store_simpl; by rewrite Heq.
Qed.

(** ** Indexes do not touch each other *)

(** Writes confined to one namespace and one key prefix. *)
Definition ops_under (ns : Namespace) (p : bytes) (ops : list WriteOp) : Prop :=
  Forall (λ op, op_ns op = ns ∧ starts_with p (op_key op) = true) ops.

Lemma st_ops_outside m ns p ops ns' k :
  ops_under ns p ops → ns' ≠ ns ∨ starts_with p k = false →
  st_ops m ops ns' !! k = m ns' !! k.
Proof.
  intros Hops Hk. revert m. induction Hops as [|op ops [Hn Hp] _ IH]; intros m; [done|].
  cbn [st_ops foldl]. fold (st_ops (st_op m op) ops). rewrite IH.
  assert (ns' ≠ ns ∨ k ≠ op_key op) as Hk' by (destruct Hk as [|Hk]; [by left|right; congruence]).
  destruct op as [ns0 k0 v0|ns0 k0]; simpl in *; subst ns0; unfold st_put, st_delete;
    case_decide as Hd; try done; subst; destruct Hk' as [|Hk']; try done.
  - by rewrite lookup_insert_ne.
  - by rewrite lookup_delete_ne.
Qed.

Lemma starts_with_app_r p x : starts_with p (p ++ x) = true.
Proof. apply starts_with_app. Qed.

Lemma plan_change_under name pk old new :
  ops_under Meta (sorted_entries_prefix name) (plan_change name pk old new).
Proof.
  assert (∀ e, starts_with (sorted_entries_prefix name) (PkEntry_score_key e name pk) = true) as H1.
  { intros e. rewrite score_key_rest. unfold score_prefix. rewrite <-app_assoc. apply starts_with_app. }
  assert (starts_with (sorted_entries_prefix name) (pk_entry_key name pk) = true) as H2
    by apply starts_with_app.
  unfold ops_under.
  destruct old as [o|], new as [e|]; cbn [plan_change];
    [destruct (bool_decide (Some o = Some e)), (negb (same_position o e))|
    |destruct (bool_decide (None = Some e))|]; cbn [app];
    repeat constructor; cbn [op_ns op_key]; auto.
Qed.

Lemma sorted_prefix_other n1 n2 x :
  name_ok n1 → name_ok n2 → n1 ≠ n2 →
  starts_with (sorted_entries_prefix n1) (sorted_entries_prefix n2 ++ x) = false.
Proof.
  intros H1 H2 Hne. apply starts_with_false. intros [r H].
  apply sorted_prefix_inj in H as [? _]; done.
Qed.

(** Writes outside the rows of an index leave what it represents. *)
Lemma index_rows_outside m ops p name a :
  index_rows (m Meta) name a → ops_under Meta p ops →
  (∀ x, starts_with p (sorted_entries_prefix name ++ x) = false) →
  index_rows (st_ops m ops Meta) name a.
Proof.
  intros [Hpk Hs] Hops Hout. split.
  - intros pk. rewrite (st_ops_outside m Meta p); [done|done|]. right. apply Hout.
  - intros rest v. rewrite (st_ops_outside m Meta p); [done|done|]. right.
    unfold score_prefix. rewrite <-app_assoc. apply Hout.
Qed.

(** ** What a row contributes *)

Section maintain.
Context {S : Type} `{StorageLaws S}.
Context {O : Type} (decode_kv_map : bytes → res (option (gmap bytes (Value O)))).

Lemma decode_value_ok b d v : decode_value b = Some (d, v) → u64_ok d.
Proof.
  unfold decode_value, DEADLINE_PREFIX_LEN. case_match eqn:Hl; [done|]. intros [= <- _].
  apply Nat.ltb_ge in Hl. pose proof (le_val_bound (take 8 b)) as Hb.
  rewrite length_take, Nat.min_l in Hb by done. change (256 ^ Z.of_nat 8) with (2 ^ 64) in Hb. arith.
Qed.

Lemma entry_for_ok def stored now e :
  entry_for decode_kv_map def stored now = Ok (Some e) →
  index_entry_ok (is_windowed (window def)) e.
Proof.
  unfold entry_for. destruct (decode_value stored) as [[d body]|] eqn:Hd; [|done].
  apply decode_value_ok in Hd. case_match; [done|].
  intros (columns & _ & Hc)%rbind_Ok. destruct columns as [columns|]; [|done].
  case_match; [|done]. destruct (is_windowed (window def)) eqn:Hw.
  - case_match; [|done]. injection Hc as <-. unfold index_entry_ok, entry_wf. simpl.
    rewrite length_encode_score, length_encode_ts. naive_solver.
  - injection Hc as <-. unfold index_entry_ok, entry_wf. simpl.
    rewrite length_encode_score. split; [done|]. split; [done|]. by intros [? [=]].
Qed.

Definition row_effect (def : SortedIndexDef) (now : Z) (stored : option bytes)
    : res (option PkEntry) :=
  match stored with
  | Some value => entry_for decode_kv_map def value now
  | None => Ok None
  end.

(** The abstract meaning of one operation for one index on [collection]: a row
    written gets the entry its value deserves, a row deleted loses its entry. *)
Definition rank_op (def : SortedIndexDef) (collection : bytes) (now : Z)
    (a : gmap bytes PkEntry) (op : WriteOp) : res (gmap bytes PkEntry) :=
  match kv_row op with
  | None => Ok a
  | Some (key, stored) =>
      match split_kv_key key with
      | None => Ok a
      | Some (c, pk) =>
          if decide (c = collection)
          then let? new := row_effect def now stored in Ok (set_entry a pk new)
          else Ok a
      end
  end.

(** The loop invariant, seen from one index. *)
Record loop_inv (m : Store) (def : SortedIndexDef) (a0 a : gmap bytes PkEntry)
    (st : Overlay * list WriteOp) : Prop := {
  li_rows : index_rows (st_ops m st.2 Meta) (sd_name def) a;
  li_ok : index_ok (is_windowed (window def)) a;
  li_overlay pk : a !! pk = match st.1 !! (sd_name def, pk) with
                            | Some e => e
                            | None => a0 !! pk
                            end
}.

Lemma stored_entry_ok s name a w pk e :
  index_rows (contents s Meta) name a → index_ok w a →
  stored_entry s name pk = Ok e → e = a !! pk.
Proof.
  intros [Hpk _] Hok. unfold stored_entry. intros (v & ->%get_ok & He)%rbind_Ok.
  rewrite Hpk in He. destruct (a !! pk) as [e0|] eqn:Ha; simpl in He; [|by injection He].
  rewrite (proj2 (pk_entry_decode_encode (PkEntry_encode e0) e0)) in He; [by injection He|].
  split; [|done]. by apply (Hok pk).
Qed.

Lemma loop_inv_plan m def a0 a pk stored now s ov out st' :
  contents s = m → index_rows (m Meta) (sd_name def) a0 →
  index_ok (is_windowed (window def)) a0 →
  loop_inv m def a0 a (ov, out) →
  plan_def decode_kv_map s now pk stored (ov, out) def = Ok st' →
  ∃ new, row_effect def now stored = Ok new ∧ loop_inv m def a0 (set_entry a pk new) st'.
Proof.
  intros Hm Hrows0 Hok0 [Hrows Hok Hov]. unfold plan_def.
  intros (old & Hold & (new & Hnew & [= <-])%rbind_Ok)%rbind_Ok.
  assert (old = a !! pk) as ->.
  { rewrite Hov. simpl. destruct (ov !! (sd_name def, pk)); [by injection Hold|].
    subst m. by eapply stored_entry_ok. }
  exists new. split; [done|].
  assert (∀ e, new = Some e → index_entry_ok (is_windowed (window def)) e) as Hnok.
  { intros e ->. destruct stored as [v|]; [|done]. by apply entry_for_ok in Hnew. }
  simpl in *. split; simpl.
  - rewrite st_ops_app. apply (plan_change_rows _ _ _ (is_windowed (window def))); done.
  - intros pk' e. rewrite lookup_set_entry. case_decide; [apply Hnok|apply Hok].
  - intros pk'. rewrite lookup_set_entry. destruct (decide (pk = pk')) as [->|Hne].
    + by rewrite lookup_insert, decide_True.
    + rewrite lookup_insert_ne by congruence. apply Hov.
Qed.

(** Planning for another index changes nothing for this one. *)
Lemma loop_inv_other m def def' a0 a pk stored now s st st' :
  name_ok (sd_name def) → name_ok (sd_name def') → sd_name def' ≠ sd_name def →
  loop_inv m def a0 a st → plan_def decode_kv_map s now pk stored st def' = Ok st' →
  loop_inv m def a0 a st'.
Proof.
  intros Hn Hn' Hne [Hrows Hok Hov]. destruct st as [ov out]. unfold plan_def.
  intros (old & _ & (new & _ & [= <-])%rbind_Ok)%rbind_Ok. simpl in *. split; simpl; [|done|].
  - rewrite st_ops_app. eapply index_rows_outside; [done|apply plan_change_under|].
    intros x. by apply sorted_prefix_other.
  - intros pk'. rewrite lookup_insert_ne by congruence. apply Hov.
Qed.

Lemma loop_inv_others m def a0 a pk stored now s ds st st' :
  name_ok (sd_name def) → (∀ d, d ∈ ds → name_ok (sd_name d) ∧ sd_name d ≠ sd_name def) →
  loop_inv m def a0 a st → rfold (plan_def decode_kv_map s now pk stored) st ds = Ok st' →
  loop_inv m def a0 a st'.
Proof.
  intros Hn. revert st. induction ds as [|d ds IH]; intros st Hds Hi; simpl; [by intros [= <-]|].
  intros (st1 & H1 & H2)%rbind_Ok. apply (IH st1); [|  |done].
  { intros d' Hd'. apply Hds, elem_of_cons. by right. }
  destruct (Hds d) as [??]; [apply elem_of_cons; by left|]. by eapply loop_inv_other.
Qed.

(** Planned writes go to Meta. *)
Lemma plan_ops_meta s now defs ops st st' :
  Forall (λ op, op_ns op = Meta) st.2 → rfold (plan_op decode_kv_map s now defs) st ops = Ok st' →
  Forall (λ op, op_ns op = Meta) st'.2.
Proof.
  revert st. induction ops as [|op ops IH]; intros st Hst; simpl; [by intros [= <-]|].
  intros (st1 & H1 & H2)%rbind_Ok. apply (IH st1); [|done]. revert H1. unfold plan_op.
  destruct (kv_row op) as [[key stored]|]; [|by intros [= <-]].
  destruct (split_kv_key key) as [[c pk]|]; [|by intros [= <-]].
  destruct (defs !! c) as [ds|]; [|by intros [= <-]]. clear -Hst. revert st Hst.
  induction ds as [|d ds IH]; intros st Hst; simpl; [by intros [= <-]|].
  intros (st2 & H1 & H2)%rbind_Ok. apply (IH st2); [|done]. destruct st as [ov out].
  revert H1. unfold plan_def. intros (old & _ & (new & _ & [= <-])%rbind_Ok)%rbind_Ok. simpl.
  apply Forall_app. split; [done|]. eapply Forall_impl; [apply plan_change_under|naive_solver].
Qed.

(** The definitions in use: names fit their keys and name one index each. *)
Definition defs_ok (defs : gmap bytes (list SortedIndexDef)) : Prop :=
  (∀ c ds d, defs !! c = Some ds → d ∈ ds → name_ok (sd_name d)) ∧
  (∀ c ds, defs !! c = Some ds → NoDup (sd_name <$> ds)) ∧
  (∀ c1 c2 ds1 ds2 d1 d2, defs !! c1 = Some ds1 → defs !! c2 = Some ds2 →
     d1 ∈ ds1 → d2 ∈ ds2 → sd_name d1 = sd_name d2 → c1 = c2).

Lemma loop_inv_op m def a0 a now s defs c ds st op st' :
  defs_ok defs → defs !! c = Some ds → def ∈ ds →
  contents s = m → index_rows (m Meta) (sd_name def) a0 →
  index_ok (is_windowed (window def)) a0 →
  loop_inv m def a0 a st → plan_op decode_kv_map s now defs st op = Ok st' →
  ∃ a', rank_op def c now a op = Ok a' ∧ loop_inv m def a0 a' st'.
Proof.
  intros (Hnames & Hnd & Huniq) Hc Hdef Hm Hr0 Hok0 Hi. unfold plan_op, rank_op.
  destruct (kv_row op) as [[key stored]|]; [|intros [= <-]; eauto].
  destruct (split_kv_key key) as [[c' pk]|]; [|intros [= <-]; eauto].
  destruct (defs !! c') as [ds'|] eqn:Hc'.
  2:{ intros [= <-]. rewrite decide_False by congruence. eauto. }
  case_decide as Heq.
  - subst c'. rewrite Hc in Hc'. injection Hc' as <-.
    apply list_elem_of_split in Hdef as (l1 & l2 & ->). rewrite rfold_app.
    intros (st1 & H1 & H2)%rbind_Ok. simpl in H2. apply rbind_Ok in H2 as (st2 & H2 & H3).
    specialize (Hnd _ _ Hc). rewrite fmap_app, fmap_cons in Hnd.
    apply NoDup_app in Hnd as (Hd1 & Hd12 & Hd2). apply NoDup_cons in Hd2 as [Hd2 _].
    assert (name_ok (sd_name def)) as Hn by (eapply Hnames; [done|set_solver]).
    assert (loop_inv m def a0 a st1) as Hi1.
    { eapply loop_inv_others; [done| |done|exact H1]. intros d Hd. split; [eapply Hnames; [done|set_solver]|].
      intros Hx. apply (Hd12 (sd_name d)); [by apply list_elem_of_fmap_2|rewrite Hx; set_solver]. }
    destruct st1 as [ov1 out1].
    eapply loop_inv_plan in Hi1 as (new & Hnew & Hi2); [|done..].
    rewrite Hnew. simpl. eexists. split; [done|].
    eapply loop_inv_others; [done| |done|exact H3]. intros d Hd.
    split; [eapply Hnames; [done|set_solver]|]. intros Hx. apply Hd2. rewrite <-Hx.
    by apply list_elem_of_fmap_2.
  - intros Hf. exists a. split; [done|]. eapply loop_inv_others; [by apply (Hnames c ds)| |exact Hi|exact Hf].
    intros d Hd. split; [by apply (Hnames c' ds')|]. intros Hx. apply Heq.
    eapply (Huniq c' c); eauto.
Qed.

Lemma loop_inv_ops m def a0 a now s defs c ds ops st st' :
  defs_ok defs → defs !! c = Some ds → def ∈ ds →
  contents s = m → index_rows (m Meta) (sd_name def) a0 →
  index_ok (is_windowed (window def)) a0 →
  loop_inv m def a0 a st → rfold (plan_op decode_kv_map s now defs) st ops = Ok st' →
  ∃ a', rfold (rank_op def c now) a ops = Ok a' ∧ loop_inv m def a0 a' st'.
Proof.
  intros Hd Hc Hdef Hm Hr Hk. revert a st. induction ops as [|op ops IH]; intros a st Hi; simpl.
  { intros [= <-]. eauto. }
  intros (st1 & H1' & H2')%rbind_Ok. eapply loop_inv_op in H1' as (a1 & Ha1 & Hi1); [|done..].
  rewrite Ha1. simpl. by eapply IH.
Qed.

(** C10: sorted indexes follow their rows.  If the stored entries of an index
    represent a map from primary keys to entries, then after a batch of KV
    writes together with the writes planned for it they represent the map in
    which, operation by operation, a written row has the entry its value
    deserves and a deleted row has none: no stale score survives, whether rows
    are written twice in one batch, change their score, or leave the index. *)
Theorem plan_sorted_ops_sound s now defs c ds def ops out a :
  defs_ok defs → defs !! c = Some ds → def ∈ ds →
  index_rows (contents s Meta) (sd_name def) a →
  index_ok (is_windowed (window def)) a →
  Forall (λ op, op_ns op = Kv) ops →
  plan_sorted_ops decode_kv_map s now defs ops = Ok out →
  ∃ a', rfold (rank_op def c now) a ops = Ok a' ∧
        index_ok (is_windowed (window def)) a' ∧
        index_rows (st_ops (contents s) (ops ++ out) Meta) (sd_name def) a'.
Proof.
  intros Hdefs Hc Hdef Hr Hok Hkv. unfold plan_sorted_ops.
  rewrite bool_decide_eq_false_2 by (intros ->; by rewrite lookup_empty in Hc).
  intros ([ov out'] & Hf & [= <-])%rbind_Ok. simpl. pose proof Hf as Hf0.
  assert (loop_inv (contents s) def a a (∅, [])) as Hi.
  { split; [done|done|]. intros pk. simpl. by rewrite lookup_empty. }
  eapply loop_inv_ops in Hf as (a' & Ha' & [Hr' Hok' _]); [|done..].
  exists a'. split; [done|]. split; [done|]. simpl in Hr'. rewrite st_ops_app.
  assert (Forall (λ op, op_ns op = Meta) out') as Hmeta
    by (apply (plan_ops_meta s now defs ops (∅, []) (ov, out')); [constructor|done]).
  rewrite (st_ops_ns_ext (contents s)); [done|done|].
  apply map_eq. intros k. apply (st_ops_outside _ Kv []); [|by left].
  eapply Forall_impl; [exact Hkv|done].
Qed.

(** Planning succeeds on a healthy store: represented entries decode, so the
    only failure left is a row whose body does not decode. *)
Context {SP : StorageProgress S}.

Lemma stored_entry_total s name a w pk :
  healthy s → index_rows (contents s Meta) name a → index_ok w a →
  ∃ e, stored_entry s name pk = Ok e.
Proof.
  intros Hs [Hpk _] Hok. unfold stored_entry.
  destruct (healthy_get s Meta (pk_entry_key name pk) Hs) as [v Hv]. rewrite Hv. simpl.
  apply get_ok in Hv as ->. rewrite Hpk. destruct (a !! pk) as [e|] eqn:Ha; simpl; [|eauto].
  rewrite (proj2 (pk_entry_decode_encode (PkEntry_encode e) e)); [eauto|].
  split; [|done]. by apply (Hok pk).
Qed.

Lemma plan_sorted_ops_total s now defs ops :
  healthy s → (∀ b, ∃ c, decode_kv_map b = Ok c) →
  (∀ c ds d, defs !! c = Some ds → d ∈ ds →
     ∃ a w, index_rows (contents s Meta) (sd_name d) a ∧ index_ok w a) →
  ∃ out, plan_sorted_ops decode_kv_map s now defs ops = Ok out.
Proof.
  intros Hs Hbody Hdefs. unfold plan_sorted_ops. case_match; [eauto|].
  assert (∀ d v, ∃ e, entry_for decode_kv_map d v now = Ok e) as Hentry.
  { intros d v. unfold entry_for. destruct (decode_value v) as [[dl body]|]; [|eauto].
    case_match; [eauto|]. destruct (Hbody body) as [c ->]. simpl. repeat case_match; eauto. }
  assert (∀ st, ∃ st', rfold (plan_op decode_kv_map s now defs) st ops = Ok st') as Hall.
  { induction ops as [|op ops IH]; intros st; simpl; [eauto|].
    assert (∃ st', plan_op decode_kv_map s now defs st op = Ok st') as [st' ->]; [|apply IH].
    unfold plan_op. destruct (kv_row op) as [[key stored]|]; [|eauto].
    destruct (split_kv_key key) as [[c pk]|]; [|eauto].
    destruct (defs !! c) as [ds|] eqn:Hc; [|eauto]. specialize (Hdefs c ds).
    assert (∀ d, d ∈ ds → ∃ e, stored_entry s (sd_name d) pk = Ok e) as Hst.
    { intros d Hd. destruct (Hdefs d Hc Hd) as (a & w & ? & ?). by eapply stored_entry_total. }
    clear -Hst Hentry. revert st. induction ds as [|d ds IH]; intros st; simpl; [eauto|].
    assert (∃ st', plan_def decode_kv_map s now pk stored st d = Ok st') as [st' ->].
    { destruct st as [ov out]. unfold plan_def. destruct (ov !! (sd_name d, pk)); simpl;
        [|destruct (Hst d) as [e ->]; [apply elem_of_cons; by left|simpl]];
        (destruct stored as [v|]; simpl; [destruct (Hentry d v) as [e' ->]; simpl|]); eauto. }
    simpl. apply IH. intros d' Hd'. apply Hst, elem_of_cons. by right. }
  destruct (Hall (∅, [])) as [st' ->]. simpl. eauto.
Qed.
End maintain.
