(* ===== verification/SortedQuery.v ===== *)
(** * Sorted indexes: rank, top-k, range, count and score

    [src/nodedb-lite/src/query/kv_ops/sorted/query.rs].  A read first commits the
    buffered writes of the public KV API; the store here is the one after that
    flush.  The clock is an argument.  Results are the rows the code returns:
    [(rank, key)] pairs, a count, a score pattern or NULL ([None]). *)

From Stdlib Require Import ZArith Lia Strings.Byte.
From stdpp Require Import prelude gmap sorting strings.
From S2P Require Import Prelude Bytes Ordered Text F64 StorageTrait Pagedb PagedbMem.
From S2P Require Import IndexKey SortedKeys SortedMaintain.

Local Open Scope Z_scope.

Record Visible := mkVisible { v_score : bytes; v_pk : bytes }.

Definition is_expired (deadline now_ms : Z) : bool := negb (deadline =? 0) && (deadline <=? now_ms).

(** The catalog of sorted indexes, by name. *)
Notation Catalog := (gmap bytes SortedIndexDef).

Section query.
Context {S : Type} `{StorageEngine S}.

(** One row of the scan: skipped, shown, or corrupt. *)
Definition visible_row (def : SortedIndexDef) (now_ms : Z) (start : option Z) (prefix : bytes)
    (pk_offset : nat) (acc : list Visible) (row : KvPair) : res (list Visible) :=
  let? rest :=
    match get_from (length prefix) row.1 with
    | Some rest => if (pk_offset <=? length rest)%nat then Ok rest else Err Corrupted
    | None => Err Corrupted
    end in
  if negb (length row.2 =? FIELD_LEN)%nat then Err Corrupted
  else if is_expired (le_val row.2) now_ms then Ok acc
  else if match start with
          | Some start =>
              decode_ts (take FIELD_LEN (drop FIELD_LEN rest)) (timestamp_desc (window def)) <? start
          | None => false
          end
  then Ok acc
  else Ok (acc ++ [mkVisible (take FIELD_LEN rest) (drop pk_offset rest)]).

Definition visible_entries (s : S) (def : SortedIndexDef) (now_ms : Z) : res (list Visible) :=
  let start := window_start (window def) now_ms in
  let prefix := score_prefix (sd_name def) in
  let pk_offset := if is_windowed (window def) then (2 * FIELD_LEN)%nat else FIELD_LEN in
  let? rows := se_scan_prefix s Meta prefix in
  rfold (visible_row def now_ms start prefix pk_offset) [] rows.

(** [(position + 1, key)] rows. *)
Definition ranked_rows (entries : list (nat * Visible)) : list (Z * bytes) :=
  (λ p, (Z.of_nat p.1 + 1, v_pk p.2)) <$> entries.

Definition enumerate {A} (l : list A) : list (nat * A) := imap pair l.

Definition require (c : Catalog) (index_name : bytes) : res SortedIndexDef :=
  ok_or (c !! index_name) UndefinedObject.

Definition kv_sorted_index_score (c : Catalog) (s : S) (index_name primary_key : bytes) (now : Z)
    : res (option Z) :=
  match c !! index_name with
  | None => Ok None
  | Some def =>
      let? stored := se_get s Meta (pk_entry_key (sd_name def) primary_key) in
      match stored with
      | None => Ok None
      | Some b =>
          match PkEntry_decode b with
          | None => Err Corrupted
          | Some entry =>
              if is_expired (pe_deadline entry) now then Ok None
              else Ok (Some (decode_score (pe_score entry) (score_desc def)))
          end
      end
  end.

Definition kv_sorted_index_rank (c : Catalog) (s : S) (index_name primary_key : bytes) (now : Z)
    : res (option Z) :=
  match c !! index_name with
  | None => Ok None
  | Some def =>
      let? entries := visible_entries s def now in
      Ok ((λ p, Z.of_nat p + 1) <$> position (λ e, bool_decide (v_pk e = primary_key)) entries)
  end.

Definition kv_sorted_index_top_k (c : Catalog) (s : S) (index_name : bytes) (k now : Z)
    : res (list (Z * bytes)) :=
  let? def := require c index_name in
  let? entries := visible_entries s def now in
  Ok (ranked_rows (enumerate (takeZ k entries))).

Definition score_bound (bound : option bytes) : res (option bytes) :=
  match bound with
  | None => Ok None
  | Some b => if (length b =? FIELD_LEN)%nat then Ok (Some b) else Err BadRequest
  end.

Definition in_bounds (lower upper : option bytes) (e : Visible) : bool :=
  match lower with Some l => bytes_leb l (v_score e) | None => true end &&
  match upper with Some u => bytes_leb (v_score e) u | None => true end.

Definition kv_sorted_index_range (c : Catalog) (s : S) (index_name : bytes)
    (score_min score_max : option bytes) (now : Z) : res (list (Z * bytes)) :=
  let? def := require c index_name in
  let? min := score_bound score_min in
  let? max := score_bound score_max in
  let '(lower, upper) :=
    if score_desc def then (complement <$> max, complement <$> min) else (min, max) in
  let? entries := visible_entries s def now in
  Ok (ranked_rows (filter (λ p, in_bounds lower upper p.2 = true) (enumerate entries))).

Definition kv_sorted_index_count (c : Catalog) (s : S) (index_name : bytes) (now : Z) : res Z :=
  let? def := require c index_name in
  let? entries := visible_entries s def now in
  Ok (Z.of_nat (length entries)).
End query.

(** ** The ranking an index represents *)

(** The entries of a map in key order: by score, then timestamp, then key. *)
Definition rank_le (p q : bytes * PkEntry) : Prop := score_rest p.2 p.1 <=b score_rest q.2 q.1.

#[global] Instance rank_le_dec p q : Decision (rank_le p q).
Proof. apply bytes_le_dec. Defined.

Definition ranking (a : gmap bytes PkEntry) : list (bytes * PkEntry) :=
  merge_sort rank_le (map_to_list a).

(** Whether a read at [now] shows an entry. *)
Definition entry_visible (def : SortedIndexDef) (now : Z) (p : bytes * PkEntry) : bool :=
  ((pe_deadline p.2 =? 0) || (now <? pe_deadline p.2)) &&
  match window_start (window def) now, pe_ts p.2 with
  | Some start, Some ts => start <=? decode_ts ts (timestamp_desc (window def))
  | _, _ => true
  end.

Definition show_entry (p : bytes * PkEntry) : Visible := mkVisible (pe_score p.2) p.1.

Definition visible_ranking (def : SortedIndexDef) (now : Z) (a : gmap bytes PkEntry)
    : list Visible :=
  show_entry <$> filter (λ p, entry_visible def now p = true) (ranking a).

Definition score_row (name : bytes) (p : bytes * PkEntry) : KvPair :=
  (PkEntry_score_key p.2 name p.1, score_value p.2).

#[global] Instance rank_le_trans : Transitive rank_le.
Proof. intros p q r H1 H2. unfold rank_le in *. by etransitivity. Qed.
#[global] Instance rank_le_total : Total rank_le.
Proof. intros p q. unfold rank_le. apply (total bytes_le). Qed.

Lemma elem_of_ranking a pk e : (pk, e) ∈ ranking a ↔ a !! pk = Some e.
Proof. unfold ranking. by rewrite merge_sort_Permutation, elem_of_map_to_list. Qed.

Lemma ranking_sorted a : StronglySorted rank_le (ranking a).
Proof. apply StronglySorted_merge_sort; apply _. Qed.

Lemma ranking_nodup a : NoDup ((ranking a).*1).
Proof. unfold ranking. rewrite merge_sort_Permutation. apply NoDup_fst_map_to_list. Qed.

(** Strictly: two rows of one index have different score keys. *)
Lemma ranking_strict w a :
  index_ok w a →
  StronglySorted (λ p q, score_rest p.2 p.1 <b score_rest q.2 q.1) (ranking a).
Proof.
  intros Hok. pose proof (ranking_sorted a) as Hs. pose proof (ranking_nodup a) as Hn.
  assert (∀ p, p ∈ ranking a → index_entry_ok w p.2) as Hin.
  { intros [pk e] H%elem_of_ranking. by apply (Hok pk). }
  revert Hs Hn Hin. generalize (ranking a). induction 1 as [|p l _ IH Hall]; intros Hn Hin; [constructor|].
  rewrite fmap_cons in Hn. apply NoDup_cons in Hn as [Hp Hn]. constructor; [apply IH; [done|set_solver]|].
  rewrite Forall_forall in *. intros q Hq. destruct (proj1 (bytes_le_lt_or_eq _ _) (Hall q Hq)) as [|Heq];
    [done|]. exfalso. apply Hp.
  destruct (score_rest_inj w p.2 q.2 p.1 q.1) as (_ & _ & Hpk); [apply Hin; set_solver..|done|].
  rewrite Hpk. by apply list_elem_of_fmap_2.
Qed.

Lemma scan_ranking m name a w :
  index_rows (m Meta) name a → index_ok w a →
  st_scan_prefix m Meta (score_prefix name) = score_row name <$> ranking a.
Proof.
  intros [_ Hs] Hok. apply ksorted_unique.
  - apply st_scan_prefix_sorted.
  - pose proof (ranking_strict w a Hok) as Hr. revert Hr. generalize (ranking a).
    induction 1 as [|p l _ IH Hall]; [constructor|]. rewrite fmap_cons. constructor; [done|].
    apply Forall_fmap. eapply Forall_impl; [exact Hall|]. intros q Hq. simpl.
    rewrite !score_key_rest. unfold bytes_lt in *. by rewrite bytes_cmp_app.
  - intros [k v]. rewrite elem_of_st_scan_prefix, list_elem_of_fmap. split.
    + intros [Hp Hm]. apply starts_with_spec in Hp as [rest ->].
      apply Hs in Hm as (pk & e & Ha & Hk & ->). exists (pk, e). unfold score_row. simpl.
      rewrite Hk. split; [done|]. by apply elem_of_ranking.
    + intros ([pk e] & [= -> ->] & Ha%elem_of_ranking). cbn [fst snd]. rewrite score_key_rest. split.
      * apply starts_with_app.
      * apply Hs. exists pk, e. by rewrite score_key_rest.
Qed.

Lemma is_expired_spec deadline now : is_expired deadline now = negb ((deadline =? 0) || (now <? deadline)).
Proof. unfold is_expired. rewrite negb_orb. f_equal. apply Z.leb_antisym. Qed.

Lemma visible_row_entry def now acc p :
  index_entry_ok (is_windowed (window def)) p.2 →
  visible_row def now (window_start (window def) now) (score_prefix (sd_name def))
    (if is_windowed (window def) then (2 * FIELD_LEN)%nat else FIELD_LEN) acc
    (score_row (sd_name def) p) =
  Ok (if entry_visible def now p then acc ++ [show_entry p] else acc).
Proof.
  destruct p as [pk [sc ts dl]]. cbn [snd fst]. intros [(Hsc & Hdl & Hts) Hw].
  unfold visible_row, score_row, entry_visible. cbn [fst snd pe_deadline pe_ts].
  rewrite score_key_rest, get_from_app. unfold score_rest. cbn [pe_score pe_ts] in *.
  unfold score_value. cbn [pe_deadline]. rewrite length_le_bytes, u64_le_val by done.
  change (8 =? FIELD_LEN)%nat with true. cbn [negb].
  destruct (is_windowed (window def)) eqn:Hwin.
  - destruct ts as [ts|]; [|by destruct (proj1 Hw)].
    rewrite (proj2 (Nat.leb_le _ _)) by (rewrite !length_app, Hsc, Hts; lia). cbn [rbind].
    rewrite is_expired_spec. destruct ((dl =? 0) || (now <? dl)); cbn [negb andb]; [|done].
    rewrite (drop_app_length' sc) by done. rewrite (take_app_length' ts) by done.
    rewrite (take_app_length' sc) by done.
    replace (sc ++ ts ++ pk) with ((sc ++ ts) ++ pk) by (by rewrite app_assoc).
    rewrite drop_app_length' by (rewrite length_app, Hsc, Hts; done).
    destruct (window_start (window def) now) as [st|]; [|done].
    rewrite Z.ltb_antisym. by destruct (st <=? decode_ts ts (timestamp_desc (window def))).
  - destruct ts as [ts|]; [by discriminate (proj2 Hw (mk_is_Some _ _ eq_refl))|]. cbn [app].
    rewrite (proj2 (Nat.leb_le _ _)) by (rewrite !length_app, Hsc; lia). cbn [rbind].
    rewrite is_expired_spec. destruct ((dl =? 0) || (now <? dl)); cbn [negb andb]; [|done].
    rewrite take_app_length', drop_app_length' by done.
    unfold is_windowed in Hwin. unfold window_start. destruct (kind (window def)); try done.
Qed.

Lemma take_imap {A B} (f : nat → A → B) n l : take n (imap f l) = imap f (take n l).
Proof.
  revert f n. induction l as [|x l IH]; intros f [|n]; simpl; [done..|].
  f_equal. apply IH.
Qed.

Lemma strongly_sorted_filter {A} (R : A → A → Prop) (P : A → Prop) `{∀ x, Decision (P x)} l :
  StronglySorted R l → StronglySorted R (filter P l).
Proof.
  induction 1 as [|x l _ IH Hall]; [constructor|]. rewrite filter_cons. case_decide; [|done].
  constructor; [done|]. rewrite Forall_forall in *. intros y [_ Hy]%list_elem_of_filter. by apply Hall.
Qed.

(** In a strictly sorted list an element has as many predecessors as its
    position says. *)
Lemma sorted_position {A} (R : A → A → Prop) `{∀ x y, Decision (R x y)} l i x :
  (∀ y, ¬ R y y) → (∀ y z, R y z → ¬ R z y) →
  StronglySorted R l → l !! i = Some x → length (filter (λ y, R y x) l) = i.
Proof.
  intros Hirr Has Hs. revert i. induction Hs as [|y l Hs IH Hall]; intros i Hi; [done|].
  rewrite Forall_forall in Hall. destruct i as [|i]; simpl in Hi.
  - injection Hi as ->. rewrite filter_cons, decide_False by done.
    rewrite filter_none; [done|]. intros z Hz. apply Has. by apply Hall.
  - rewrite filter_cons, decide_True by (apply Hall; by eapply list_elem_of_lookup_2).
    simpl. f_equal. by apply IH.
Qed.

(** The order of the ranking, and the number of visible entries before one. *)
Definition ranks_before (p q : bytes * PkEntry) : Prop :=
  score_rest p.2 p.1 <b score_rest q.2 q.1.

#[global] Instance ranks_before_dec p q : Decision (ranks_before p q).
Proof. apply bytes_lt_dec. Defined.

Definition visible_before (def : SortedIndexDef) (now : Z) (a : gmap bytes PkEntry)
    (p : bytes * PkEntry) : nat :=
  length (filter (λ q, ranks_before q p)
            (filter (λ q, entry_visible def now q = true) (map_to_list a))).

Lemma visible_position def now a w i p :
  index_ok w a →
  filter (λ q, entry_visible def now q = true) (ranking a) !! i = Some p →
  i = visible_before def now a p.
Proof.
  intros Hok Hi. unfold visible_before.
  assert (ranking a ≡ₚ map_to_list a) as <- by apply merge_sort_Permutation.
  symmetry. eapply sorted_position; [| | |done].
  - intros y. apply bytes_lt_irrefl.
  - intros y z H1 H2. apply (bytes_lt_irrefl (score_rest y.2 y.1)).
    by apply (bytes_lt_trans _ (score_rest z.2 z.1)).
  - apply strongly_sorted_filter. by apply (ranking_strict w).
Qed.

Lemma StronglySorted_sublist {A} (R : A → A → Prop) (k l : list A) :
  k `sublist_of` l → StronglySorted R l → StronglySorted R k.
Proof.
  induction 1 as [|x k l Hk IH|x k l Hk IH]; intros Hs; [done| |]; apply StronglySorted_inv in Hs as [Hs Hall]; [|by apply IH].
  constructor; [by apply IH|]. rewrite Forall_forall in *. intros y Hy. apply Hall. by eapply sublist_subseteq.
Qed.

Lemma enumerate_take {A} n (l : list A) : enumerate (take n l) `sublist_of` enumerate l.
Proof. unfold enumerate. rewrite <-take_imap. apply sublist_take. Qed.

Lemma enumerate_increasing {A} (l : list A) :
  StronglySorted Z.lt ((λ p : nat * A, Z.of_nat p.1 + 1) <$> enumerate l).
Proof.
  unfold enumerate. rewrite fmap_imap.
  induction l as [|x l IH] using rev_ind; [constructor|]. rewrite imap_app. cbn.
  apply StronglySorted_app_2; [|done|repeat constructor]. intros y z Hy Hz.
  apply elem_of_lookup_imap in Hy as (j & v & -> & Hj%lookup_lt_Some). apply list_elem_of_singleton in Hz as ->. cbn. lia.
Qed.

Section reads.
Context {S : Type} `{StorageLaws S}.
Context (s : S) (def : SortedIndexDef) (a : gmap bytes PkEntry).
Hypothesis Hrows : index_rows (contents s Meta) (sd_name def) a.
Hypothesis Hok : index_ok (is_windowed (window def)) a.

(** A read of a represented index answers its ranking, and never finds it
    corrupt. *)
Lemma visible_entries_ranking now :
  visible_entries s def now =
  rbind (se_scan_prefix s Meta (score_prefix (sd_name def))) (λ _, Ok (visible_ranking def now a)).
Proof.
  unfold visible_entries. destruct (se_scan_prefix s Meta _) as [rows|] eqn:Hscan; [|done].
  cbn [rbind]. apply scan_prefix_ok in Hscan as ->.
  rewrite (scan_ranking _ _ a (is_windowed (window def))) by done. unfold visible_ranking.
  assert (∀ p, p ∈ ranking a → index_entry_ok (is_windowed (window def)) p.2) as Hin.
  { intros [pk e] Hp%elem_of_ranking. by apply (Hok pk). }
  change (show_entry <$> filter (λ p, entry_visible def now p = true) (ranking a)) with
    ([] ++ (show_entry <$> filter (λ p, entry_visible def now p = true) (ranking a))).
  revert Hin. generalize (ranking a) as l, (@nil Visible) as acc.
  induction l as [|p l IH]; intros acc Hin; [by rewrite app_nil_r|].
  rewrite fmap_cons. cbn [rfold]. rewrite visible_row_entry by (apply Hin; set_solver).
  cbn [rbind]. rewrite IH by set_solver. f_equal. rewrite filter_cons.
  destruct (entry_visible def now p) eqn:Hv.
  - rewrite decide_True by done. by rewrite fmap_cons, <-app_assoc.
  - rewrite decide_False by done. done.
Qed.

Lemma position_visible now pk i :
  position (λ e, bool_decide (v_pk e = pk)) (visible_ranking def now a) = Some i ↔
  ∃ e, filter (λ q, entry_visible def now q = true) (ranking a) !! i = Some (pk, e).
Proof.
  assert (NoDup ((filter (λ q, entry_visible def now q = true) (ranking a)).*1)) as Hnd.
  { eapply sublist_NoDup; [apply (ranking_nodup a)|]. apply fmap_sublist, sublist_filter. }
  unfold visible_ranking. revert Hnd. generalize (filter (λ q, entry_visible def now q = true) (ranking a)).
  intros l. revert i. induction l as [|[pk' e'] l IH]; intros i Hnd; simpl; [naive_solver|].
  apply NoDup_cons in Hnd as [Hp Hnd]. case_bool_decide as Hpk; simpl in *.
  - subst pk'. split.
    + intros [= <-]. exists e'. done.
    + intros [e He]. destruct i as [|i]; [done|]. simpl in He. exfalso. apply Hp.
      by apply (list_elem_of_fmap_2 fst l (pk, e)), list_elem_of_lookup_2 with i.
  - destruct i as [|i]; simpl.
    + split; [by destruct (position _ _)|]. intros [e [= -> ->]]. done.
    + rewrite <-IH by done. destruct (position _ _); naive_solver.
Qed.

(** The rank of a row is one more than the number of visible entries that come
    before it by score, then timestamp, then key; a row has no rank exactly
    when it has no entry, or its entry is expired or outside the current
    window.  The read succeeds whenever the storage scan does. *)
Theorem sorted_rank_counts (c : Catalog) now pk rows :
  c !! sd_name def = Some def →
  se_scan_prefix s Meta (score_prefix (sd_name def)) = Ok rows →
  match a !! pk with
  | Some e =>
      kv_sorted_index_rank c s (sd_name def) pk now =
      Ok (if entry_visible def now (pk, e)
          then Some (1 + Z.of_nat (visible_before def now a (pk, e))) else None)
  | None => kv_sorted_index_rank c s (sd_name def) pk now = Ok None
  end.
Proof.
  intros Hc Hscan. unfold kv_sorted_index_rank.
  rewrite Hc, visible_entries_ranking, Hscan. cbn [rbind].
  destruct (position _ _) as [i|] eqn:Hp; simpl.
  - apply position_visible in Hp as [e He].
    pose proof (visible_position def now a (is_windowed (window def)) i (pk, e) Hok He) as ->.
    apply list_elem_of_lookup_2, list_elem_of_filter in He as [Hv Ha%elem_of_ranking].
    rewrite Ha, Hv. do 2 f_equal. lia.
  - destruct (a !! pk) as [e|] eqn:Ha; [|done].
    destruct (entry_visible def now (pk, e)) eqn:Hv; [|done]. exfalso.
    assert ((pk, e) ∈ filter (λ q, entry_visible def now q = true) (ranking a)) as Hin
      by (by rewrite list_elem_of_filter, elem_of_ranking).
    apply list_elem_of_lookup in Hin as [i Hi].
    assert (position (λ e, bool_decide (v_pk e = pk)) (visible_ranking def now a) = Some i) as Hs
      by (apply position_visible; eauto).
    congruence.
Qed.

(** The score bytes of an entry in ascending order, whatever the index order. *)
Definition ascending_score (e : PkEntry) : bytes :=
  if score_desc def then complement (pe_score e) else pe_score e.

Lemma score_bound_ok (b : option bytes) : (∀ x, b = Some x → length x = FIELD_LEN) → score_bound b = Ok b.
Proof. destruct b as [b|]; [|done]. intros Hx. unfold score_bound. by rewrite (proj2 (Nat.eqb_eq _ _)) by auto. Qed.

Lemma bytes_leb_complement x y :
  length x = length y → bytes_leb x (complement y) = bytes_leb y (complement x).
Proof.
  intros Hl. unfold bytes_leb. rewrite <-(complement_involutive x) at 1.
  rewrite complement_cmp by (by rewrite length_complement).
  rewrite (bytes_cmp_antisym (complement x) y). by destruct (bytes_cmp y (complement x)).
Qed.

Lemma in_bounds_spec lower upper v :
  in_bounds lower upper v = true ↔
  (∀ b, lower = Some b → b <=b v_score v) ∧ (∀ b, upper = Some b → v_score v <=b b).
Proof.
  unfold in_bounds. rewrite andb_true_iff. f_equiv; [destruct lower|destruct upper]; rewrite ?bytes_leb_le; naive_solver.
Qed.

Lemma in_bounds_ascending lo hi lower upper e pk :
  (∀ b, lo = Some b → length b = FIELD_LEN) → (∀ b, hi = Some b → length b = FIELD_LEN) →
  length (pe_score e) = FIELD_LEN →
  (if score_desc def then (complement <$> hi, complement <$> lo) else (lo, hi)) = (lower, upper) →
  in_bounds lower upper (show_entry (pk, e)) = true ↔
  (∀ b, lo = Some b → b <=b ascending_score e) ∧ (∀ b, hi = Some b → ascending_score e <=b b).
Proof.
  intros Hlo Hhi He Hb. rewrite in_bounds_spec. unfold ascending_score, show_entry. cbn [v_score snd].
  destruct (score_desc def); [|by injection Hb as <- <-]. injection Hb as <- <-. rewrite Logic.and_comm. f_equiv.
  - destruct lo as [b|]; [|naive_solver]. cbn [fmap option_fmap option_map].
    assert (pe_score e <=b complement b ↔ b <=b complement (pe_score e)); [|naive_solver].
    rewrite <-!bytes_leb_le, bytes_leb_complement; [done|]. by rewrite He, (Hlo b).
  - destruct hi as [b|]; [|naive_solver]. cbn [fmap option_fmap option_map].
    assert (complement b <=b pe_score e ↔ complement (pe_score e) <=b b); [|naive_solver].
    rewrite <-!bytes_leb_le. rewrite <-(complement_involutive (pe_score e)) at 1.
    rewrite bytes_leb_complement, complement_involutive; [done|]. by rewrite length_complement, length_complement, He, (Hhi b).
Qed.

Lemma visible_lookup now i pk e :
  filter (λ q, entry_visible def now q = true) (ranking a) !! i = Some (pk, e) ↔
  a !! pk = Some e ∧ entry_visible def now (pk, e) = true ∧ i = visible_before def now a (pk, e).
Proof.
  split.
  - intros Hi. pose proof (visible_position def now a _ i _ Hok Hi) as Hpos.
    apply list_elem_of_lookup_2, list_elem_of_filter in Hi as [Hv Ha%elem_of_ranking]. done.
  - intros (Ha & Hv & ->).
    assert ((pk, e) ∈ filter (λ q, entry_visible def now q = true) (ranking a)) as [i Hi]%list_elem_of_lookup
      by (by rewrite list_elem_of_filter, elem_of_ranking).
    by rewrite <-(visible_position def now a _ i _ Hok Hi).
Qed.

(** Rows of ranks and keys, in order of rank: the visible entries that satisfy [P]. *)
Definition ranks_of now (P : Z → PkEntry → Prop) (out : list (Z * bytes)) : Prop :=
  StronglySorted Z.lt out.*1 ∧
  ∀ n pk, (n, pk) ∈ out ↔
    ∃ e, a !! pk = Some e ∧ entry_visible def now (pk, e) = true ∧
      n = 1 + Z.of_nat (visible_before def now a (pk, e)) ∧ P n e.

Lemma enumerate_visible now i pk e :
  filter (λ q, entry_visible def now q = true) (ranking a) !! i = Some (pk, e) →
  (i, show_entry (pk, e)) ∈ enumerate (visible_ranking def now a).
Proof.
  intros Hi. apply list_elem_of_lookup. exists i. unfold enumerate, visible_ranking.
  by rewrite list_lookup_imap, list_lookup_fmap, Hi.
Qed.

Lemma ranked_rows_ranks now (L : list (nat * Visible)) (P : Z → PkEntry → Prop) :
  L `sublist_of` enumerate (visible_ranking def now a) →
  (∀ i pk e, filter (λ q, entry_visible def now q = true) (ranking a) !! i = Some (pk, e) →
     (i, show_entry (pk, e)) ∈ L ↔ P (1 + Z.of_nat i) e) →
  ranks_of now P (ranked_rows L).
Proof.
  intros Hsub HP.
  assert (∀ i v, (i, v) ∈ L → ∃ pk e, v = show_entry (pk, e) ∧
    filter (λ q, entry_visible def now q = true) (ranking a) !! i = Some (pk, e)) as Hin.
  { intros i v Hv. eapply sublist_subseteq in Hv; [|exact Hsub].
    apply elem_of_lookup_imap in Hv as (j & x & [= -> ->] & Hj).
    apply list_lookup_fmap_Some in Hj as ([pk e] & -> & Hj). eauto. }
  split.
  - unfold ranked_rows. rewrite <-list_fmap_compose.
    eapply StronglySorted_sublist; [by apply fmap_sublist, Hsub|apply enumerate_increasing].
  - intros n pk. unfold ranked_rows. rewrite list_elem_of_fmap. split.
    + intros ([i v] & [= -> ->] & Hv). destruct (Hin i v Hv) as (pk & e & -> & Hi).
      pose proof (proj1 (visible_lookup now i pk e) Hi) as (Ha & Hvis & Hpos). exists e. cbn [show_entry v_pk fst snd].
      split_and!; [done|done|lia|]. replace (Z.of_nat i + 1) with (1 + Z.of_nat i) by lia. by apply (HP i pk).
    + intros (e & Ha & Hvis & -> & HPe). exists (visible_before def now a (pk, e), show_entry (pk, e)). cbn [fst snd].
      split; [f_equal; lia|]. apply HP; [by apply visible_lookup|done].
Qed.

(** C25: reads of a sorted index.  A range read returns exactly the visible entries, those
    that are not expired and lie in the current window, whose score lies between the
    bounds, both inclusive, in either index direction; a top-[k] read those of rank [k]
    and less; a count their number.  Each entry comes with its rank, one more than the
    number of visible entries before it by score, timestamp and key, in order of rank. *)
Theorem sorted_reads_spec (c : Catalog) now rows lo hi k :
  c !! sd_name def = Some def →
  se_scan_prefix s Meta (score_prefix (sd_name def)) = Ok rows →
  (∀ b, lo = Some b → length b = FIELD_LEN) → (∀ b, hi = Some b → length b = FIELD_LEN) →
  (∃ out, kv_sorted_index_range c s (sd_name def) lo hi now = Ok out ∧
     ranks_of now (λ _ e, (∀ b, lo = Some b → b <=b ascending_score e) ∧
                          (∀ b, hi = Some b → ascending_score e <=b b)) out) ∧
  (∃ out, kv_sorted_index_top_k c s (sd_name def) k now = Ok out ∧ ranks_of now (λ n _, n <= k) out) ∧
  kv_sorted_index_count c s (sd_name def) now =
    Ok (Z.of_nat (length (filter (λ q, entry_visible def now q = true) (map_to_list a)))).
Proof.
  intros Hc Hscan Hlo Hhi.
  unfold kv_sorted_index_range, kv_sorted_index_top_k, kv_sorted_index_count, require.
  rewrite Hc. cbn [ok_or rbind]. rewrite !score_bound_ok by done. cbn [rbind].
  rewrite visible_entries_ranking, Hscan. cbn [rbind]. split_and!.
  - destruct (if score_desc def then _ else _) as [lower upper] eqn:Hb. eexists. split; [reflexivity|].
    apply ranked_rows_ranks; [apply sublist_filter|]. intros i pk e Hi.
    rewrite list_elem_of_filter. cbn [snd]. rewrite (in_bounds_ascending lo hi); [|done|done| |done].
    + split; [by intros [? _]|]. intros Hin. split; [done|by apply enumerate_visible].
    + apply visible_lookup in Hi as (Ha & _). apply (Hok pk e Ha).
  - eexists. split; [reflexivity|]. rewrite takeZ_take.
    apply ranked_rows_ranks; [apply enumerate_take|]. intros i pk e Hi. unfold enumerate.
    rewrite <-take_imap, elem_of_take. setoid_rewrite list_lookup_imap. split.
    + intros (j & Hj & Hlt). apply fmap_Some in Hj as (x & _ & [= -> _]). lia.
    + intros Hle. exists i. split; [|lia]. unfold visible_ranking. by rewrite list_lookup_fmap, Hi.
  - do 2 f_equal. unfold visible_ranking. rewrite length_fmap.
    assert (ranking a ≡ₚ map_to_list a) as <- by apply merge_sort_Permutation. done.
Qed.
End reads.

(** ** Examples *)

(** Rows whose body is one byte, the score. *)
Definition ex_decode_map (body : bytes) : res (option (gmap bytes (Value unit))) :=
  match body with
  | [b] => Ok (Some {[ bs "score" := VInteger (bz b) ]})
  | _ => Ok None
  end.

Definition ex_def : SortedIndexDef :=
  mkSortedIndexDef (bs "board") (bs "players") (bs "score") true (bs "id") WindowDef_none.

Definition ex_defs : gmap bytes (list SortedIndexDef) := {[ bs "players" := [ex_def] ]}.

(** The same row written twice in one batch. *)
Definition ex_ops : list WriteOp :=
  [Put Kv (kv_key (bs "players") (bs "ann")) (encode_value 0 [x05]);
   Put Kv (kv_key (bs "players") (bs "ann")) (encode_value 0 [x09])].

Lemma index_rows_empty mm name : mm = ∅ → index_rows mm name ∅.
Proof.
  intros ->. split.
  - intros pk. by rewrite !lookup_empty.
  - intros rest v. rewrite lookup_empty. split; [done|]. intros (pk & e & Ha & _).
    by rewrite lookup_empty in Ha.
Qed.

Lemma index_ok_empty w : index_ok w ∅.
Proof. intros pk e Ha. by rewrite lookup_empty in Ha. Qed.

Lemma ex_defs_ok : defs_ok ex_defs.
Proof.
  unfold ex_defs. split; [|split].
  - intros c ds d [<- <-]%lookup_singleton_Some ->%list_elem_of_singleton. by apply name_ok_ex.
  - intros c ds [<- <-]%lookup_singleton_Some. apply NoDup_singleton.
  - intros c1 c2 ds1 ds2 d1 d2 [<- _]%lookup_singleton_Some [<- _]%lookup_singleton_Some. done.
Qed.

Lemma plan_sorted_ops_sound_witness :
  ∃ out a', plan_sorted_ops ex_decode_map (∅ : MemDb) 7 ex_defs ex_ops = Ok out ∧
    a' !! bs "ann" = Some (mkPkEntry (encode_score (i64_as_f64 9) true) None 0) ∧
    index_rows (st_ops (contents (∅ : MemDb)) (ex_ops ++ out) Meta) (bs "board") a'.
Proof.
  destruct (plan_sorted_ops ex_decode_map (∅ : MemDb) 7 ex_defs ex_ops) as [out|] eqn:Hp;
    [|vm_compute in Hp; discriminate].
  destruct (plan_sorted_ops_sound ex_decode_map (∅ : MemDb) 7 ex_defs (bs "players") [ex_def]
    ex_def ex_ops out ∅) as (a' & Ha & _ & Hr);
    [apply ex_defs_ok|reflexivity|by left|apply index_rows_empty, mem_empty_contents|apply index_ok_empty
    |by repeat constructor|done|].
  exists out, a'. split; [done|]. split; [|done].
  assert (rmap (λ a : gmap bytes PkEntry, a !! bs "ann")
    (rfold (rank_op ex_decode_map ex_def (bs "players") 7) ∅ ex_ops) =
    Ok (Some (mkPkEntry (encode_score (i64_as_f64 9) true) None 0))) as Hann
    by (vm_compute; reflexivity).
  rewrite Ha in Hann. cbn [rmap] in Hann. by injection Hann.
Defined.

(** An index with one entry. *)
Definition ex_entry : PkEntry := mkPkEntry (encode_score (i64_as_f64 5) true) None 0.
Definition ex_index : gmap bytes PkEntry := set_entry ∅ (bs "ann") (Some ex_entry).
Definition ex_board : MemDb :=
  (batch_write_rows (∅ : MemDb) (plan_change (bs "board") (bs "ann") None (Some ex_entry))).2.

Lemma ex_entry_ok : index_entry_ok false ex_entry.
Proof. split; [|split; [done|by intros [? [=]]]]. split; [done|]. split; [by compute|done]. Qed.

Lemma ex_index_ok : index_ok false ex_index.
Proof.
  intros pk e. unfold ex_index. rewrite lookup_set_entry. case_decide; [|by rewrite lookup_empty].
  intros [= <-]. apply ex_entry_ok.
Qed.

Lemma ex_board_written :
  se_batch_write (∅ : MemDb) (plan_change (bs "board") (bs "ann") None (Some ex_entry)) =
  (Ok tt, ex_board).
Proof.
  unfold ex_board. cbn [se_batch_write pagedb_storage].
  rewrite (surjective_pairing (batch_write_rows (∅ : MemDb) _)) at 1. f_equal.
Qed.

Lemma ex_board_rows : index_rows (contents ex_board Meta) (bs "board") ex_index.
Proof.
  rewrite (batch_ok _ _ _ ex_board_written Meta).
  refine (plan_change_rows (contents (∅ : MemDb)) (bs "board") ∅ false _ (index_ok_empty false)
    (bs "ann") (Some ex_entry) _).
  - apply index_rows_empty, mem_empty_contents.
  - intros e [= <-]. apply ex_entry_ok.
Qed.

Definition ex_catalog : Catalog := {[ bs "board" := ex_def ]}.

Lemma sorted_rank_counts_witness :
  kv_sorted_index_rank ex_catalog ex_board (bs "board") (bs "ann") 7 = Ok (Some 1).
Proof.
  eapply (sorted_rank_counts ex_board ex_def ex_index ex_board_rows ex_index_ok ex_catalog 7
    (bs "ann")); vm_compute; reflexivity.
Defined.

Lemma sorted_reads_spec_witness :
  kv_sorted_index_count ex_catalog ex_board (bs "board") 7 = Ok 1.
Proof.
  destruct (se_scan_prefix ex_board Meta (score_prefix (bs "board"))) as [rows|] eqn:Hrows; [|vm_compute in Hrows; discriminate].
  destruct (sorted_reads_spec ex_board ex_def ex_index ex_board_rows ex_index_ok ex_catalog 7 rows None
    (Some (encode_score (i64_as_f64 5) false)) 10) as (_ & _ & Hcount); [reflexivity|exact Hrows|done|by intros b [= <-]|].
  etransitivity; [exact Hcount|]. by vm_compute.
Defined.
