(* ===== verification/VectorClock.v ===== *)
(** * Vector clocks

    [src/nodedb-lite/src/sync/clock.rs].  A clock is a map from peers to counters;
    an absent peer counts 0, so two clocks are equivalent when every peer reads
    the same.  A [HashMap] is iterated in no particular order: the loops are
    written over a list of entries and proved independent of its order. *)

From Stdlib Require Import ZArith Lia Strings.Byte.
From stdpp Require Import prelude gmap strings.
From S2P Require Import Prelude Bytes Text.

Local Open Scope Z_scope.

Record VectorClock := mkVectorClock { vc_entries : gmap Z Z }.

Definition vc_new : VectorClock := mkVectorClock ∅.

Definition vc_set (c : VectorClock) (peer_id counter : Z) : VectorClock :=
  mkVectorClock (<[peer_id := counter]> (vc_entries c)).

Definition vc_get (c : VectorClock) (peer_id : Z) : Z := default 0 (vc_entries c !! peer_id).

Definition vc_advance (c : VectorClock) (peer_id counter : Z) : VectorClock :=
  let entry := default 0 (vc_entries c !! peer_id) in
  mkVectorClock (<[peer_id := if entry <? counter then counter else entry]> (vc_entries c)).

(** [merge], given the entries of the other clock in some order. *)
Definition vc_merge_entries (c : VectorClock) (l : list (Z * Z)) : VectorClock :=
  foldl (λ c p, vc_advance c p.1 p.2) c l.
Definition vc_merge (c other : VectorClock) : VectorClock :=
  vc_merge_entries c (map_to_list (vc_entries other)).

Definition vc_dominates (c other : VectorClock) : bool :=
  forallb (λ p, p.2 <=? vc_get c p.1) (map_to_list (vc_entries other)).

Definition vc_diff (c remote : VectorClock) : list (Z * Z * Z) :=
  omap (λ p, let local_counter := vc_get c p.1 in
             if local_counter <? p.2 then Some (p.1, p.2, local_counter) else None)
       (map_to_list (vc_entries remote)).

Definition vc_to_wire (c : VectorClock) : gmap bytes Z :=
  list_to_map ((λ p, (fmt_hex16 p.1, p.2)) <$> map_to_list (vc_entries c)).

Definition vc_from_wire (wire : gmap bytes Z) : VectorClock :=
  mkVectorClock (list_to_map (omap (λ p, (λ peer, (peer, p.2)) <$> parse_u64 16 p.1)
                                   (map_to_list wire))).

Definition vc_peer_count (c : VectorClock) : nat := size (vc_entries c).
Definition vc_peers (c : VectorClock) : list Z := (map_to_list (vc_entries c)).*1.

(** ** The order of clocks *)

#[global] Instance vc_equiv : Equiv VectorClock := λ a b, ∀ p, vc_get a p = vc_get b p.

#[global] Instance vc_equivalence : Equivalence (≡@{VectorClock}).
Proof. split; [done| |]; repeat intro; [symmetry|etransitivity]; eauto. Qed.

Definition vc_le (a b : VectorClock) : Prop := ∀ p, vc_get a p ≤ vc_get b p.

(** Peer ids and counters are [u64]. *)
Definition vc_ok (c : VectorClock) : Prop :=
  ∀ p n, vc_entries c !! p = Some n → u64_ok p ∧ u64_ok n.

Lemma vc_get_nonneg c p : vc_ok c → 0 ≤ vc_get c p.
Proof.
  intros Hc. unfold vc_get. destruct (vc_entries c !! p) as [n|] eqn:Hp; simpl; [|lia].
  apply Hc in Hp as [_ Hn]. arith.
Qed.

Lemma vc_get_advance c p n q :
  vc_get (vc_advance c p n) q = if decide (p = q) then Z.max (vc_get c q) n else vc_get c q.
Proof.
  unfold vc_get, vc_advance. simpl. rewrite lookup_insert. case_decide; [subst|done].
  simpl. destruct (Z.ltb_spec (default 0 (vc_entries c !! q)) n); lia.
Qed.

(** What merging a list of entries leaves: the greatest counter seen. *)
Lemma vc_get_merge_entries c l q :
  vc_get (vc_merge_entries c l) q =
  foldr Z.max (vc_get c q) (omap (λ p, if decide (p.1 = q) then Some p.2 else None) l).
Proof.
  revert c. induction l as [|[p n] l IH]; intros c; simpl; [done|].
  unfold vc_merge_entries in IH. rewrite IH, vc_get_advance. case_decide; [|done].
  cbn [foldr]. change (list_omap _ _ ?f l) with (omap f l). clear IH.
  induction (omap _ l) as [|x xs IH]; simpl; [lia|]. lia.
Qed.

Lemma foldr_max_spec x l y :
  foldr Z.max x l = y ↔ (y = x ∨ y ∈ l) ∧ x ≤ y ∧ Forall (λ z, z ≤ y) l.
Proof.
  revert y. induction l as [|z l IH]; intros y; simpl.
  - rewrite elem_of_nil. split; [intros ->|]; [|naive_solver lia]. split; [by left|]. split; [lia|constructor].
  - specialize (IH (foldr Z.max x l)). destruct (proj1 IH eq_refl) as (Hin & Hx & Hall).
    rewrite elem_of_cons, Forall_cons. split.
    + intros <-. split; [destruct (Z.max_spec z (foldr Z.max x l)) as [[_ ->]|[_ ->]]; tauto|].
      split; [lia|]. split; [lia|]. eapply Forall_impl; [exact Hall|]. simpl. lia.
    + intros (Hy & Hxy & Hzy & Hally). rewrite Forall_forall in *.
      assert (foldr Z.max x l ≤ y) by (destruct Hin as [->|?]; [done|auto]).
      destruct Hy as [->|[->|Hy]]; [lia|lia|]. specialize (Hall y Hy). lia.
Qed.

(** Only which elements there are matters. *)
Lemma foldr_max_elems x l1 l2 :
  (∀ z, z ∈ l1 ↔ z ∈ l2) → foldr Z.max x l1 = foldr Z.max x l2.
Proof.
  intros Hl. apply foldr_max_spec.
  destruct (proj1 (foldr_max_spec x l2 _) eq_refl) as (H1 & H2 & H3).
  rewrite Hl. split; [done|]. split; [done|]. rewrite Forall_forall in *.
  intros z Hz. by apply H3, Hl.
Qed.

(** Entries of a map mention a peer at most once. *)
Lemma vc_get_merge a b q : vc_ok b → vc_get (vc_merge a b) q = Z.max (vc_get a q) (vc_get b q) ∨
  (vc_entries b !! q = None ∧ vc_get (vc_merge a b) q = vc_get a q).
Proof.
  intros Hb. unfold vc_merge. rewrite vc_get_merge_entries.
  destruct (vc_entries b !! q) as [n|] eqn:Hq.
  - left. apply foldr_max_spec.
    assert (∀ z, z ∈ omap (λ p : Z * Z, if decide (p.1 = q) then Some p.2 else None)
      (map_to_list (vc_entries b)) ↔ z = n) as Hin.
    { intros z. rewrite list_elem_of_omap. split.
      - intros ([p m] & Hp%elem_of_map_to_list & He). simpl in He. case_decide; simplify_eq. done.
      - intros ->. exists (q, n). rewrite elem_of_map_to_list. simpl. by rewrite decide_True. }
    rewrite Hin. assert (vc_get b q = n) as -> by (unfold vc_get; by rewrite Hq).
    split; [lia|]. split; [lia|].
    rewrite Forall_forall. intros z ->%Hin. lia.
  - right. split; [done|].
    assert (omap (λ p : Z * Z, if decide (p.1 = q) then Some p.2 else None)
      (map_to_list (vc_entries b)) = []) as ->; [|done].
    apply elem_of_nil_inv. intros z ([p m] & Hp%elem_of_map_to_list & He)%list_elem_of_omap.
    simpl in He. case_decide; simplify_eq.
Qed.

Lemma vc_get_merge_max a b q :
  vc_ok a → vc_ok b → vc_get (vc_merge a b) q = Z.max (vc_get a q) (vc_get b q).
Proof.
  intros Ha Hb. destruct (vc_get_merge a b q Hb) as [->|[Hq ->]]; [done|].
  assert (vc_get b q = 0) as -> by (unfold vc_get; by rewrite Hq). pose proof (vc_get_nonneg a q Ha). lia.
Qed.

Lemma vc_ok_merge a b : vc_ok a → vc_ok b → vc_ok (vc_merge a b).
Proof.
  intros Ha Hb. unfold vc_merge, vc_merge_entries.
  assert (∀ p, p ∈ map_to_list (vc_entries b) → u64_ok p.1 ∧ u64_ok p.2) as Hl.
  { intros [p n] Hp%elem_of_map_to_list. by apply Hb. }
  revert a Ha Hl. induction (map_to_list (vc_entries b)) as [|[p n] l IH]; intros a Ha Hl; simpl; [done|].
  apply IH; [|intros; apply Hl, elem_of_cons; by right].
  destruct (Hl (p, n)) as [Hp Hn]; [apply elem_of_cons; by left|].
  intros q m. unfold vc_advance. simpl. rewrite lookup_insert. case_decide as Hq; [|apply Ha].
  subst. intros [= <-]. split; [done|]. destruct (vc_entries a !! q) as [k|] eqn:Hk; simpl.
  - apply Ha in Hk as [_ Hk]. by case_match.
  - case_match; [done|]. by compute.
Qed.

(** C35: merging is a join.  Each peer ends at the larger of its two counters, so
    merging in any order, again, or in any grouping gives the same clock, and
    the result is the least clock that both precede.  The order in which the
    entries of the other clock are visited does not matter. *)
Theorem vc_merge_join a b c l :
  vc_ok a → vc_ok b → vc_ok c → l ≡ₚ map_to_list (vc_entries b) →
  vc_merge_entries a l ≡ vc_merge a b ∧
  vc_merge a b ≡ vc_merge b a ∧
  vc_merge (vc_merge a b) c ≡ vc_merge a (vc_merge b c) ∧
  vc_merge a a ≡ a ∧
  (vc_le (vc_merge a b) c ↔ vc_le a c ∧ vc_le b c).
Proof.
  intros Ha Hb Hc Hl. pose proof (vc_ok_merge a b Ha Hb). pose proof (vc_ok_merge b c Hb Hc).
  split; [|split; [|split; [|split]]].
  - intros q. unfold vc_merge. rewrite !vc_get_merge_entries.
    apply foldr_max_elems. intros z. rewrite !list_elem_of_omap. by setoid_rewrite Hl.
  - intros q. rewrite !vc_get_merge_max by done. lia.
  - intros q. rewrite !vc_get_merge_max by done. lia.
  - intros q. rewrite !vc_get_merge_max by done. lia.
  - unfold vc_le. split.
    + intros Hm. split; intros q; specialize (Hm q); rewrite vc_get_merge_max in Hm by done; lia.
    + intros [H1 H2] q. rewrite vc_get_merge_max by done. specialize (H1 q). specialize (H2 q). lia.
Qed.

(** A clock dominates another exactly when no peer of the other is ahead of it,
    and that is exactly when there is nothing to fetch: the difference lists the
    peers that are ahead, with both counters, and is empty otherwise. *)
Theorem vc_dominates_diff a b :
  vc_ok a → vc_ok b →
  (vc_dominates a b = true ↔ vc_le b a) ∧
  (vc_diff a b = [] ↔ vc_le b a) ∧
  (∀ p n m, (p, n, m) ∈ vc_diff a b ↔ n = vc_get b p ∧ m = vc_get a p ∧ m < n).
Proof.
  intros Ha Hb.
  assert (∀ p n m, (p, n, m) ∈ vc_diff a b ↔ n = vc_get b p ∧ m = vc_get a p ∧ m < n) as Hdiff.
  { intros p n m. unfold vc_diff. rewrite list_elem_of_omap. split.
    - intros ([q k] & Hq%elem_of_map_to_list & He). simpl in He.
      destruct (Z.ltb_spec (vc_get a q) k); [|done]. simplify_eq.
      unfold vc_get at 1. by rewrite Hq.
    - intros (-> & -> & Hlt). exists (p, vc_get b p). rewrite elem_of_map_to_list. simpl.
      rewrite (proj2 (Z.ltb_lt _ _)) by done. split; [|done]. pose proof (vc_get_nonneg a p Ha).
      unfold vc_get in *. destruct (vc_entries b !! p); simpl in *; [done|lia]. }
  split; [|split; [|done]].
  - unfold vc_dominates, vc_le. split.
    + intros Hd%Is_true_eq_left q. apply forallb_True in Hd. rewrite Forall_forall in Hd.
      unfold vc_get at 1. destruct (vc_entries b !! q) as [n|] eqn:Hq; simpl;
        [|by apply vc_get_nonneg].
      specialize (Hd (q, n) (proj2 (elem_of_map_to_list _ _ _) Hq)). simpl in Hd.
      apply Is_true_eq_true in Hd. lia.
    + intros Hle. apply Is_true_eq_true, forallb_True, Forall_forall.
      intros [q n] Hq%elem_of_map_to_list. simpl. apply Is_true_eq_left, Z.leb_le.
      specialize (Hle q). unfold vc_get at 1 in Hle. by rewrite Hq in Hle.
  - split.
    + intros Hn q. destruct (Z.le_gt_cases (vc_get b q) (vc_get a q)); [done|].
      assert ((q, vc_get b q, vc_get a q) ∈ vc_diff a b) as Hin by (by apply Hdiff).
      rewrite Hn in Hin. by apply elem_of_nil in Hin.
    + intros Hle. apply elem_of_nil_inv. intros [[p n] m] (-> & -> & Hlt)%Hdiff.
      specialize (Hle p). lia.
Qed.

(** The wire form keeps the clock: hexadecimal peer ids parse back, no two peers
    share one, and every counter returns to its peer. *)
Theorem vc_wire_roundtrip c : vc_ok c → vc_from_wire (vc_to_wire c) = c.
Proof.
  intros Hc. destruct c as [m]. unfold vc_from_wire. f_equal.
  assert (∀ h n, vc_to_wire (mkVectorClock m) !! h = Some n ↔
    ∃ p, h = fmt_hex16 p ∧ m !! p = Some n) as Hw.
  { intros h n. unfold vc_to_wire. simpl.
    rewrite <-elem_of_list_to_map.
    - rewrite list_elem_of_fmap. split.
      + intros ([p k] & [= -> ->] & Hp%elem_of_map_to_list). eauto.
      + intros (p & -> & Hp). exists (p, n). by rewrite elem_of_map_to_list.
    - rewrite <-list_fmap_compose. change (fst ∘ (λ p : Z * Z, (fmt_hex16 p.1, p.2)))
        with (fmt_hex16 ∘ (@fst Z Z)). rewrite list_fmap_compose.
      apply NoDup_fmap_2_strong; [|apply NoDup_fst_map_to_list].
      intros p q ([p' k] & -> & Hp%elem_of_map_to_list)%list_elem_of_fmap
        ([q' k'] & -> & Hq%elem_of_map_to_list)%list_elem_of_fmap.
      apply fmt_hex16_inj; [apply (Hc _ _ Hp)|apply (Hc _ _ Hq)]. }
  apply map_eq. intros p. apply option_eq. intros n.
  assert (∀ q k, (q, k) ∈ omap (λ x, (λ peer, (peer, x.2)) <$> parse_u64 16 x.1)
    (map_to_list (vc_to_wire (mkVectorClock m))) ↔ m !! q = Some k) as Hin.
  { intros q k. rewrite list_elem_of_omap. split.
    - intros ([h v] & Hv%elem_of_map_to_list & He). apply Hw in Hv as (p' & -> & Hp').
      cbn [fst snd] in He. rewrite parse_fmt_hex16 in He by apply (Hc _ _ Hp').
      cbn [fmap option_fmap option_map] in He. by simplify_eq.
    - intros Hq. exists (fmt_hex16 q, k). rewrite elem_of_map_to_list, Hw. split; [eauto|].
      cbn [fst snd]. by rewrite parse_fmt_hex16 by apply (Hc _ _ Hq). }
  rewrite <-Hin. split; [apply elem_of_list_to_map_2|]. intros Hn.
  apply elem_of_list_to_map_1'; [|done]. intros k Hk. apply Hin in Hk, Hn. congruence.
Qed.

(** ** Examples *)

Definition ex_clock_a : VectorClock := vc_set (vc_set vc_new 1 5) 2 3.
Definition ex_clock_b : VectorClock := vc_set (vc_set vc_new 2 9) 7 1.

Lemma vc_ok_list l :
  forallb (λ p : Z * Z, (0 <=? p.1) && (p.1 <=? u64_max) && (0 <=? p.2) && (p.2 <=? u64_max)) l = true →
  vc_ok (mkVectorClock (list_to_map l)).
Proof.
  intros Hl%Is_true_eq_left p n Hp%elem_of_list_to_map_2. apply forallb_True in Hl.
  rewrite Forall_forall in Hl. specialize (Hl _ Hp). apply Is_true_eq_true in Hl. simpl in Hl.
  unfold u64_ok. lia.
Qed.

Lemma ex_clock_a_ok : vc_ok ex_clock_a.
Proof. apply (vc_ok_list [(2, 3); (1, 5)]). done. Qed.
Lemma ex_clock_b_ok : vc_ok ex_clock_b.
Proof. apply (vc_ok_list [(7, 1); (2, 9)]). done. Qed.

Lemma vc_merge_join_witness :
  vc_merge ex_clock_a ex_clock_b ≡ vc_merge ex_clock_b ex_clock_a ∧
  vc_get (vc_merge ex_clock_a ex_clock_b) 2 = 9.
Proof.
  split; [|done].
  apply (proj2 (vc_merge_join ex_clock_a ex_clock_b vc_new _ ex_clock_a_ok ex_clock_b_ok
    (vc_ok_list [] eq_refl) (Permutation_refl _))).
Defined.

Lemma vc_dominates_diff_witness :
  ¬ vc_le ex_clock_b ex_clock_a ∧ (2, 9, 3) ∈ vc_diff ex_clock_a ex_clock_b.
Proof.
  split.
  - intros Hle. apply (proj1 (vc_dominates_diff _ _ ex_clock_a_ok ex_clock_b_ok)) in Hle.
    vm_compute in Hle. discriminate.
  - apply (proj2 (proj2 (vc_dominates_diff _ _ ex_clock_a_ok ex_clock_b_ok))). done.
Defined.

Lemma vc_wire_roundtrip_witness : vc_from_wire (vc_to_wire ex_clock_a) = ex_clock_a.
Proof. apply vc_wire_roundtrip. apply ex_clock_a_ok. Defined.
