(* ===== verification/Sequence.v ===== *)
(** * Local sequences

    [src/nodedb-lite/src/sequence.rs].  Every operation holds the registry's
    mutex, so each is one atomic step on a map of handles.  Counter arithmetic is
    [i64]: [fetch_add] always wraps, and the plain [+] and [-] wrap in a release
    build. *)

From Stdlib Require Import ZArith Lia Strings.Byte.
From stdpp Require Import prelude gmap strings.
From S2P Require Import Prelude Bytes StorageTrait.

Local Open Scope Z_scope.

Record LiteSequenceDef := mkLiteSequenceDef {
  sq_name : bytes;
  start_value : Z;
  increment : Z;
  min_value : Z;
  max_value : Z;
  cycle : bool
}.

Record LiteSeqHandle := mkLiteSeqHandle {
  sq_counter : Z;
  sq_called : bool;
  sq_def : LiteSequenceDef
}.

Notation LiteSequenceRegistry := (gmap bytes LiteSeqHandle).

Definition fresh_counter (def : LiteSequenceDef) : Z := wrap_i64 (start_value def - increment def).

Definition register (map : LiteSequenceRegistry) (def : LiteSequenceDef) : LiteSequenceRegistry :=
  <[sq_name def := mkLiteSeqHandle (fresh_counter def) false def]> map.

(** The handle's part of [nextval]. *)
Definition next_handle (handle : LiteSeqHandle) : res Z * LiteSeqHandle :=
  let def := sq_def handle in
  let inc := increment def in
  let prev := sq_counter handle in
  let new_val := wrap_i64 (prev + inc) in
  let at_ c := mkLiteSeqHandle c true def in
  if (0 <? inc) && (max_value def <? new_val) then
    if cycle def then (Ok (min_value def), at_ (min_value def)) else (Err Query, at_ prev)
  else if (inc <? 0) && (new_val <? min_value def) then
    if cycle def then (Ok (max_value def), at_ (max_value def)) else (Err Query, at_ prev)
  else (Ok new_val, at_ new_val).

Definition nextval (map : LiteSequenceRegistry) (name : bytes) : res Z * LiteSequenceRegistry :=
  match map !! name with
  | None => (Err Query, map)
  | Some handle => let '(r, h) := next_handle handle in (r, <[name := h]> map)
  end.

Definition currval (map : LiteSequenceRegistry) (name : bytes) : res Z :=
  match map !! name with
  | None => Err Query
  | Some handle => if negb (sq_called handle) then Err Query else Ok (sq_counter handle)
  end.

Definition setval (map : LiteSequenceRegistry) (name : bytes) (value : Z)
    : res Z * LiteSequenceRegistry :=
  match map !! name with
  | None => (Err Query, map)
  | Some handle =>
      if (value <? min_value (sq_def handle)) || (max_value (sq_def handle) <? value)
      then (Err Query, map)
      else (Ok value, <[name := mkLiteSeqHandle value true (sq_def handle)]> map)
  end.

Definition ends_with (suffix s : bytes) : bool := starts_with (reverse suffix) (reverse s).

Definition owned_sequence (collection name : bytes) : bool :=
  starts_with (collection ++ bs "_") name && ends_with (bs "_seq") name.

Definition restart_collection_sequences (map : LiteSequenceRegistry) (collection : bytes)
    : list bytes * LiteSequenceRegistry :=
  ((filter (λ p, owned_sequence collection p.1 = true) (map_to_list map)).*1,
   map_imap (λ name handle,
     Some (if owned_sequence collection name
           then mkLiteSeqHandle (fresh_counter (sq_def handle)) false (sq_def handle)
           else handle)) map).

Definition remove (map : LiteSequenceRegistry) (name : bytes) : bool * LiteSequenceRegistry :=
  (bool_decide (is_Some (map !! name)), delete name map).

Definition names (map : LiteSequenceRegistry) : list bytes := (map_to_list map).*1.

(** ** Values stay in range *)

(** A definition of [i64] fields that starts between its bounds. *)
Record def_ok (def : LiteSequenceDef) : Prop := {
  do_start : min_value def ≤ start_value def ≤ max_value def;
  do_min : i64_ok (min_value def);
  do_max : i64_ok (max_value def);
  do_inc : i64_ok (increment def);
  do_fresh : i64_ok (start_value def - increment def)
}.

(** The counter is the last value handed out, or one step before the start. *)
Definition handle_ok (h : LiteSeqHandle) : Prop :=
  def_ok (sq_def h) ∧
  (min_value (sq_def h) ≤ sq_counter h ≤ max_value (sq_def h) ∨
   sq_counter h = start_value (sq_def h) - increment (sq_def h)).

Definition registry_ok (map : LiteSequenceRegistry) : Prop :=
  ∀ name h, map !! name = Some h → handle_ok h.

(** The operations that change a registry. *)
Inductive seq_op :=
| ORegister (def : LiteSequenceDef) | ONextval (name : bytes) | OSetval (name : bytes) (value : Z)
| ORestart (collection : bytes) | ORemove (name : bytes).

Definition seq_step (map : LiteSequenceRegistry) (op : seq_op) : LiteSequenceRegistry :=
  match op with
  | ORegister def => register map def
  | ONextval name => (nextval map name).2
  | OSetval name v => (setval map name v).2
  | ORestart c => (restart_collection_sequences map c).2
  | ORemove name => (remove map name).2
  end.

(** The sum a call of [nextval] forms fits an [i64]. *)
Definition op_ok (map : LiteSequenceRegistry) (op : seq_op) : Prop :=
  match op with
  | ORegister def => def_ok def
  | ONextval name => ∀ h, map !! name = Some h → i64_ok (sq_counter h + increment (sq_def h))
  | _ => True
  end.

Fixpoint history_ok (map : LiteSequenceRegistry) (ops : list seq_op) : Prop :=
  match ops with
  | [] => True
  | op :: ops => op_ok map op ∧ history_ok (seq_step map op) ops
  end.

Lemma next_handle_spec h :
  i64_ok (sq_counter h + increment (sq_def h)) →
  let d := sq_def h in
  let next := sq_counter h + increment d in
  next_handle h =
    if (0 <? increment d) && (max_value d <? next) then
      if cycle d then (Ok (min_value d), mkLiteSeqHandle (min_value d) true d)
      else (Err Query, mkLiteSeqHandle (sq_counter h) true d)
    else if (increment d <? 0) && (next <? min_value d) then
      if cycle d then (Ok (max_value d), mkLiteSeqHandle (max_value d) true d)
      else (Err Query, mkLiteSeqHandle (sq_counter h) true d)
    else (Ok next, mkLiteSeqHandle next true d).
Proof.
  intros Hn. cbv zeta. unfold next_handle. by rewrite wrap_i64_id.
Qed.

Lemma next_handle_ok h :
  i64_ok (sq_counter h + increment (sq_def h)) → handle_ok h → handle_ok (next_handle h).2.
Proof.
  intros Hn [Hd Hc]. rewrite next_handle_spec by done. pose proof (do_start _ Hd).
  repeat case_match; split; simpl; try done; try (left; lia); try (by destruct Hc; [left|right]).
Qed.

Lemma seq_step_ok map op : op_ok map op → registry_ok map → registry_ok (seq_step map op).
Proof.
  intros Hop Hm. destruct op as [def|name|name v|c|name]; simpl.
  - unfold register. intros n h. rewrite lookup_insert. case_decide; [|apply Hm].
    intros [= <-]. split; [done|]. right. simpl. apply wrap_i64_id, (do_fresh _ Hop).
  - unfold nextval. destruct (map !! name) as [h|] eqn:Hn; [|done].
    pose proof (next_handle_ok h (Hop h Hn) (Hm _ _ Hn)) as Hh. destruct (next_handle h) as [r h']. simpl in *.
    intros n h0. rewrite lookup_insert. case_decide; [|apply Hm]. by intros [= <-].
  - unfold setval. destruct (map !! name) as [h|] eqn:Hn; [|done]. case_match eqn:Hv; [done|].
    simpl. intros n h0. rewrite lookup_insert. case_decide; [|apply Hm]. intros [= <-].
    split; [apply (Hm _ _ Hn)|]. left. simpl. lia.
  - intros n h. rewrite map_lookup_imap. destruct (map !! n) as [h0|] eqn:Hn; [|done]. simpl.
    intros [= <-]. destruct (Hm _ _ Hn) as [Hd Hc]. case_match; [|done].
    split; [done|]. right. simpl. apply wrap_i64_id, (do_fresh _ Hd).
  - intros n h. rewrite lookup_delete. case_decide; [done|apply Hm].
Qed.

Lemma seq_steps_ok ops map : history_ok map ops → registry_ok map → registry_ok (foldl seq_step map ops).
Proof.
  revert map. induction ops as [|op ops IH]; intros map; [done|]. intros [Hop Hops] Hm.
  apply IH; [done|]. by apply seq_step_ok.
Qed.

(** Past the ends of [i64] the sum has wrapped before it is compared. *)
Lemma next_handle_wraps h :
  handle_ok h → i64_ok (sq_counter h) → ¬ i64_ok (sq_counter h + increment (sq_def h)) →
  let v := wrap_i64 (sq_counter h + increment (sq_def h)) in
  next_handle h = (Ok v, mkLiteSeqHandle v true (sq_def h)).
Proof.
  intros [Hd Hb] Hc Hn. pose proof (do_inc _ Hd) as Hi. pose proof (do_start _ Hd). pose proof (do_min _ Hd) as Hmin.
  pose proof (do_max _ Hd) as Hmax. destruct Hb as [Hb|Hb]; [|unfold i64_ok in *; lia]. cbv zeta. unfold next_handle.
  set (v := wrap_i64 _). assert (0 < increment (sq_def h) ∧ v ≤ max_value (sq_def h) ∨
    increment (sq_def h) < 0 ∧ min_value (sq_def h) ≤ v) as Hv.
  { unfold v, wrap_i64, i64_ok, i64_min, i64_max in *. destruct (Z.lt_total 0 (increment (sq_def h))) as [Hp|[Hp|Hp]]; [left|lia|right].
    all: split; [done|].
    1: rewrite <-(Z.mod_unique (sq_counter h + increment (sq_def h) + 2 ^ 63) (2 ^ 64) 1 (sq_counter h + increment (sq_def h) - 2 ^ 63)); arith.
    rewrite <-(Z.mod_unique (sq_counter h + increment (sq_def h) + 2 ^ 63) (2 ^ 64) (-1) (sq_counter h + increment (sq_def h) + 3 * 2 ^ 63)); arith. }
  destruct ((0 <? increment (sq_def h)) && (max_value (sq_def h) <? v)) eqn:H1; [lia|].
  destruct ((increment (sq_def h) <? 0) && (v <? min_value (sq_def h))) eqn:H2; [lia|done].
Qed.


(** At the top of [i64] the guard is too late.  A sequence whose maximum is
    [i64::MAX] does not fail once it has handed out the maximum: the sum wraps
    before it is compared, and [nextval] answers [i64::MIN], below the minimum. *)
Theorem nextval_wraps_at_max name inc cyc :
  0 < inc ≤ i64_max →
  let d := mkLiteSequenceDef name 1 inc 1 i64_max cyc in
  let map := {[ name := mkLiteSeqHandle i64_max true d ]} : LiteSequenceRegistry in
  (nextval map name).1 = Ok (i64_min + inc - 1) ∧ (inc = 1 → (nextval map name).1 = Ok i64_min).
Proof.
  intros Hinc d map. assert ((nextval map name).1 = Ok (i64_min + inc - 1)) as Hn.
  { unfold nextval, map. rewrite lookup_singleton, decide_True by done. unfold next_handle. simpl.
    assert (wrap_i64 (i64_max + inc) = i64_min + inc - 1) as ->.
    { unfold wrap_i64. rewrite <-(Z.mod_unique (i64_max + inc + 2 ^ 63) (2 ^ 64) 1 (inc - 1)); arith. }
    rewrite (proj2 (Z.ltb_ge i64_max (i64_min + inc - 1))) by arith. rewrite andb_false_r.
    rewrite (proj2 (Z.ltb_ge inc 0)) by lia. done. }
  split; [done|]. intros ->. rewrite Hn. f_equal.
Qed.

(** ** Examples *)

Definition ex_seq : LiteSequenceDef := mkLiteSequenceDef (bs "t_id_seq") 1 1 1 i64_max false.
Definition ex_cycle : LiteSequenceDef := mkLiteSequenceDef (bs "c_id_seq") 1 1 1 2 true.
Definition ex_history : list seq_op :=
  [ORegister ex_seq; ORegister ex_cycle; ONextval (bs "t_id_seq"); ONextval (bs "t_id_seq"); OSetval (bs "c_id_seq") 2].

Lemma ex_history_ok : history_ok ∅ ex_history.
Proof.
  assert (def_ok ex_seq ∧ def_ok ex_cycle) as [H1 H2] by (split; split; unfold i64_ok; cbn; unfold i64_min, i64_max; lia).
  assert (∀ map name h, map !! name = Some h → (i64_min <=? sq_counter h + increment (sq_def h)) && (sq_counter h + increment (sq_def h) <=? i64_max) = true →
    op_ok map (ONextval name)) as Hnext.
  { intros map name h Hh Hb h' Hh'. assert (h' = h) as -> by congruence. unfold i64_ok. lia. }
  split; [exact H1|]. split; [exact H2|].
  do 2 (split; [eapply Hnext; [vm_compute; reflexivity|by vm_compute]|]). done.
Qed.


Lemma nextval_wraps_at_max_witness :
  (nextval {[ bs "s" := mkLiteSeqHandle i64_max true
                          (mkLiteSequenceDef (bs "s") 1 1 1 i64_max true) ]} (bs "s")).1 = Ok i64_min.
Proof. apply (nextval_wraps_at_max (bs "s") 1 true); [by compute|done]. Defined.
