(* ===== verification/StreamSeq.v ===== *)
(** * Per-stream sequence frontiers

    [src/nodedb-lite/src/sync/stream_seq.rs].  A call of [next_seq] or [record_ack]
    takes the mutex to update the in-memory frontier and releases it before it
    writes the frontier to storage: the two halves are separate definitions, and
    the whole call is their composition.  Calls that run one after the other keep
    storage and memory in step; interleaved calls need not. *)

From Stdlib Require Import ZArith Lia Strings.Byte.
From stdpp Require Import prelude gmap strings.
From S2P Require Import Prelude Bytes Ordered Text StorageTrait Pagedb PagedbMem.

Local Open Scope Z_scope.

Definition STREAM_SEQ_PREFIX : bytes := bs "sync.stream_seq:".

Definition stream_seq_key (stream_id : Z) : bytes := STREAM_SEQ_PREFIX ++ fmt_hex16 stream_id.

#[global] Arguments STREAM_SEQ_PREFIX : simpl never.
#[global] Arguments stream_seq_key : simpl never.

Record Frontier := mkFrontier { last_assigned : Z; last_acked : Z }.
Definition Frontier_default : Frontier := mkFrontier 0 0.

Definition encode_frontier (f : Frontier) : bytes := u64_be (last_assigned f) ++ u64_be (last_acked f).

Notation Frontiers := (gmap Z Frontier).

Definition frontier_of (state : Frontiers) (id : Z) : Frontier := default Frontier_default (state !! id).

(** One stored row of [load]. *)
Definition load_row (state : Frontiers) (row : KvPair) : res Frontiers :=
  let id_bytes := drop (length STREAM_SEQ_PREFIX) row.1 in
  let? id_str := ok_or (from_utf8 id_bytes) Storage in
  let? stream_id := ok_or (parse_u64 16 id_str) Storage in
  if negb (length row.2 =? 16)%nat then Err Storage
  else Ok (<[stream_id := mkFrontier (be_val (take 8 row.2)) (be_val (drop 8 row.2))]> state).

(** The critical sections. *)
Definition next_seq_lock (state : Frontiers) (stream_id : Z) : Z * bytes * Frontiers :=
  let entry := frontier_of state stream_id in
  let next := wrap_u64 (last_assigned entry + 1) in
  let entry := mkFrontier next (last_acked entry) in
  (next, encode_frontier entry, <[stream_id := entry]> state).

Definition record_ack_lock (state : Frontiers) (stream_id applied_seq : Z)
    : option bytes * Frontiers :=
  let entry := frontier_of state stream_id in
  if applied_seq <=? last_acked entry
  then (None, <[stream_id := entry]> state)
  else
    let entry := mkFrontier (Z.max (last_assigned entry) applied_seq) applied_seq in
    (Some (encode_frontier entry), <[stream_id := entry]> state).

Definition get_last_acked (state : Frontiers) (stream_id : Z) : Z := last_acked (frontier_of state stream_id).
Definition get_last_assigned (state : Frontiers) (stream_id : Z) : Z :=
  last_assigned (frontier_of state stream_id).

Section tracker.
Context {S : Type} `{StorageEngine S}.

Definition load (storage : S) : res Frontiers :=
  let prefix := STREAM_SEQ_PREFIX in
  let? pairs := se_scan_range storage Meta prefix usize_max in
  rfold load_row ∅ (take_while (λ p, starts_with prefix p.1) pairs).

(** A tracker: storage and the state behind the mutex. *)
Record StreamSeqTracker := mkTracker { tr_storage : S; tr_state : Frontiers }.

Definition next_seq (t : StreamSeqTracker) (stream_id : Z) : res Z * StreamSeqTracker :=
  let '(next, encoded, state) := next_seq_lock (tr_state t) stream_id in
  let '(r, storage) := se_put (tr_storage t) Meta (stream_seq_key stream_id) encoded in
  (rmap (λ _, next) r, mkTracker storage state).

Definition record_ack (t : StreamSeqTracker) (stream_id applied_seq : Z)
    : res unit * StreamSeqTracker :=
  let '(encoded, state) := record_ack_lock (tr_state t) stream_id applied_seq in
  match encoded with
  | None => (Ok tt, mkTracker (tr_storage t) state)
  | Some encoded =>
      let '(r, storage) := se_put (tr_storage t) Meta (stream_seq_key stream_id) encoded in
      (r, mkTracker storage state)
  end.
End tracker.
Arguments StreamSeqTracker : clear implicits.

(** ** Frontiers *)

Definition frontier_ok (f : Frontier) : Prop :=
  u64_ok (last_assigned f) ∧ u64_ok (last_acked f) ∧ last_acked f ≤ last_assigned f.

Definition frontiers_ok (state : Frontiers) : Prop :=
  ∀ id f, state !! id = Some f → u64_ok id ∧ frontier_ok f.

Lemma length_encode_frontier f : length (encode_frontier f) = 16%nat.
Proof. unfold encode_frontier. by rewrite length_app, !length_be_bytes. Qed.

Lemma load_row_encoded state id f :
  u64_ok id → frontier_ok f →
  load_row state (stream_seq_key id, encode_frontier f) = Ok (<[id := f]> state).
Proof.
  intros Hid (Ha & Hk & _). unfold load_row. cbn [fst snd].
  unfold stream_seq_key. rewrite drop_app_length.
  unfold from_utf8. rewrite utf8_ascii by apply fmt_hex16_ascii. cbn [ok_or rbind].
  rewrite parse_fmt_hex16 by done. cbn [ok_or rbind].
  rewrite length_encode_frontier. cbn [Nat.eqb negb]. unfold encode_frontier.
  rewrite take_app_length' by (by rewrite length_be_bytes).
  rewrite drop_app_length' by (by rewrite length_be_bytes).
  rewrite !u64_be_val by done. by destruct f.
Qed.

(** The rows of Meta under the prefix represent [state]. *)
Definition frontier_rows (mm : gmap bytes bytes) (state : Frontiers) : Prop :=
  ∀ k v, starts_with STREAM_SEQ_PREFIX k = true →
    (mm !! k = Some v ↔ ∃ id f, state !! id = Some f ∧ k = stream_seq_key id ∧ v = encode_frontier f).

Lemma stream_seq_key_inj i j : u64_ok i → u64_ok j → stream_seq_key i = stream_seq_key j → i = j.
Proof. intros Hi Hj H%app_inv_head. by apply fmt_hex16_inj. Qed.

Lemma starts_with_stream_key i : starts_with STREAM_SEQ_PREFIX (stream_seq_key i) = true.
Proof. apply starts_with_app. Qed.

(** Writing one frontier to its row. *)
Lemma frontier_rows_put m state id f :
  frontiers_ok state → u64_ok id → frontier_rows (m Meta) state →
  frontier_rows (st_put m Meta (stream_seq_key id) (encode_frontier f) Meta) (<[id := f]> state).
Proof.
  intros Hok Hid Hrows k v Hk. rewrite st_put_eq, lookup_insert. case_decide as Hd.
  - subst k. split.
    + intros [= <-]. exists id, f. by rewrite lookup_insert, decide_True.
    + intros (id' & f' & Hl & Hkey & ->). rewrite lookup_insert in Hl. case_decide as He; [by simplify_eq|].
      apply stream_seq_key_inj in Hkey; [done|done|]. by apply (Hok id' f').
  - rewrite (Hrows k v Hk). split; intros (id' & f' & Hl & -> & ->); exists id', f'.
    + by rewrite lookup_insert, decide_False by congruence.
    + rewrite lookup_insert in Hl. by case_decide; simplify_eq.
Qed.

(** ** Loading *)

Lemma load_rows st l :
  ksorted l → (∀ q, q ∈ l → ∃ id f, u64_ok id ∧ frontier_ok f ∧
                 q = (stream_seq_key id, encode_frontier f)) →
  ∃ st', rfold load_row st l = Ok st' ∧
    (∀ id f, u64_ok id → frontier_ok f → (stream_seq_key id, encode_frontier f) ∈ l →
       st' !! id = Some f) ∧
    (∀ id, u64_ok id → stream_seq_key id ∉ l.*1 → st' !! id = st !! id) ∧
    (∀ id, ¬ u64_ok id → st' !! id = st !! id).
Proof.
  intros Hs. revert st. induction Hs as [|q l Hs IH Hall]; intros st Hl; simpl.
  { exists st. split; [done|]. split; [|done]. intros id f _ _ Hin. by apply elem_of_nil in Hin. }
  destruct (Hl q) as (id & f & Hid & Hf & ->); [apply elem_of_cons; by left|].
  rewrite load_row_encoded by done. cbn [rbind].
  destruct (IH (<[id := f]> st)) as (st' & Hst' & Hin & Hout & Hno).
  { intros q Hq. apply Hl, elem_of_cons. by right. }
  assert (stream_seq_key id ∉ l.*1) as Hnotin.
  { intros ([k v] & Hk & Hkv)%list_elem_of_fmap. simpl in Hk. subst k.
    rewrite Forall_forall in Hall. specialize (Hall _ Hkv). by apply bytes_lt_irrefl in Hall. }
  exists st'. split; [done|]. split; [|split].
  - intros id' f' Hid' Hf' [Heq|Hq]%elem_of_cons; [|by apply Hin].
    pose proof (f_equal fst Heq) as Hk. pose proof (f_equal snd Heq) as He. cbn [fst snd] in Hk, He.
    apply stream_seq_key_inj in Hk as ->; [|done..].
    rewrite Hout by done. rewrite lookup_insert, decide_True by done. f_equal.
    unfold encode_frontier in He. apply app_inj_eqlen in He as [H1 H2];
      [|by rewrite !length_be_bytes].
    destruct Hf as (? & ? & _), Hf' as (? & ? & _), f, f'. simpl in *.
    apply u64_be_inj in H1, H2; [|done..]. by subst.
  - intros id' Hid' Hk. rewrite not_elem_of_cons in Hk. destruct Hk as [Hk Hk'].
    rewrite Hout by done. rewrite lookup_insert_ne; [done|]. by intros ->.
  - intros id' Hid'. rewrite Hno by done. rewrite lookup_insert_ne; [done|]. by intros ->.
Qed.

Section durability.
Context {S : Type} `{StorageLaws S}.

(** What is stored loads back. *)
Lemma load_frontiers (s : S) state pairs :
  frontiers_ok state → frontier_rows (contents s Meta) state →
  se_scan_range s Meta STREAM_SEQ_PREFIX usize_max = Ok pairs → load s = Ok state.
Proof.
  intros Hok Hrows Hscan. unfold load. rewrite Hscan. cbn [rbind].
  apply scan_range_ok in Hscan as [-> Hlen]. rewrite takeZ_all by done.
  unfold st_scan_from. rewrite take_while_prefix.
  2:{ apply ksorted_filter, entries_ksorted. }
  2:{ intros q [Hq _]%list_elem_of_filter. done. }
  rewrite list_filter_filter.
  set (l := filter _ (entries (contents s Meta))).
  assert (∀ k v, (k, v) ∈ l ↔ ∃ id f, state !! id = Some f ∧ k = stream_seq_key id ∧
    v = encode_frontier f) as Hl.
  { intros k v. unfold l. rewrite list_elem_of_filter, elem_of_entries. simpl. split.
    - intros [[Hp _] Hm]. by apply Hrows.
    - intros (id & f & Hs & -> & ->). pose proof (starts_with_stream_key id) as Hp. split.
      + split; [done|]. apply bytes_le_app.
      + apply Hrows; eauto. }
  destruct (load_rows ∅ l) as (st & -> & Hin & Hout & Hno).
  { apply ksorted_filter, entries_ksorted. }
  { intros [k v] (id & f & Hs & -> & ->)%Hl. destruct (Hok _ _ Hs). eauto. }
  f_equal. apply map_eq. intros id. destruct (state !! id) as [f|] eqn:Hs.
  - destruct (Hok _ _ Hs). apply Hin; [done..|]. apply Hl. eauto.
  - assert (∀ k v, (k, v) ∈ l → u64_ok id → k ≠ stream_seq_key id) as Hne.
    { intros k v (id' & f & Hs' & -> & _)%Hl Hid He. destruct (Hok _ _ Hs').
      apply stream_seq_key_inj in He as ->; [congruence|done..]. }
    assert (u64_ok id ∨ ¬ u64_ok id) as [Hid|Hid] by (unfold u64_ok; lia).
    + rewrite Hout, lookup_empty; [done|done|]. intros ([k v] & Hk & Hkv)%list_elem_of_fmap.
      by apply (Hne k v Hkv Hid).
    + by rewrite Hno, lookup_empty.
Qed.

(** Memory and storage agree. *)
Definition tracker_synced (t : StreamSeqTracker S) : Prop :=
  frontiers_ok (tr_state t) ∧ frontier_rows (contents (tr_storage t) Meta) (tr_state t).

Lemma frontier_of_ok state id : frontiers_ok state → frontier_ok (frontier_of state id).
Proof.
  intros Hok. unfold frontier_of. destruct (state !! id) as [f|] eqn:Hf; simpl;
    [apply (Hok _ _ Hf)|by compute].
Qed.

Lemma frontiers_ok_insert state id f :
  frontiers_ok state → u64_ok id → frontier_ok f → frontiers_ok (<[id := f]> state).
Proof.
  intros Hok Hid Hf i g. rewrite lookup_insert. case_decide; [|apply Hok]. intros [= <-]. by subst.
Qed.

Lemma frontier_rows_ext mm mm' state : mm = mm' → frontier_rows mm state → frontier_rows mm' state.
Proof. by intros ->. Qed.

Lemma next_seq_durable_aux (t t' : StreamSeqTracker S) id n :
  tracker_synced t → u64_ok id → get_last_assigned (tr_state t) id < u64_max →
  next_seq t id = (Ok n, t') →
  n = get_last_assigned (tr_state t) id + 1 ∧ tracker_synced t' ∧
  get_last_assigned (tr_state t') id = n.
Proof.
  intros [Hok Hrows] Hid Hmax. unfold next_seq, next_seq_lock. cbv zeta.
  set (f := frontier_of (tr_state t) id) in *. pose proof (frontier_of_ok _ id Hok) as Hf. fold f in Hf.
  unfold get_last_assigned in *. fold f in Hmax |- *. destruct Hf as (Ha & Hk & Hle).
  rewrite wrap_u64_id by (unfold u64_ok, u64_max in *; lia).
  set (g := mkFrontier (last_assigned f + 1) (last_acked f)).
  destruct (se_put (tr_storage t) Meta (stream_seq_key id) (encode_frontier g)) as [r s'] eqn:Hput.
  destruct r as [[]|e]; simpl; intros [= <- <-]. simpl in *.
  assert (frontier_ok g) as Hg by (unfold frontier_ok, u64_ok, u64_max in *; simpl; lia).
  assert (frontiers_ok (<[id := g]> (tr_state t))) as Hok' by by apply frontiers_ok_insert.
  assert (frontier_rows (contents s' Meta) (<[id := g]> (tr_state t))) as Hrows'.
  { apply put_ok in Hput. rewrite (Hput Meta). by apply frontier_rows_put. }
  split; [done|]. split; [done|].
  unfold frontier_of. by rewrite lookup_insert, decide_True.
Qed.

(** C29: a returned sequence number is durable.  When calls run one after the other
    and a call of [next_seq] succeeds, the number is one above the frontier, it
    is already on disk, and a tracker loaded from that storage continues above
    it: no number is handed out twice across a restart.  Memory and storage
    still agree afterwards, so the same holds for the next call. *)
Theorem next_seq_durable (t t' : StreamSeqTracker S) id n pairs :
  tracker_synced t → u64_ok id → get_last_assigned (tr_state t) id < u64_max →
  next_seq t id = (Ok n, t') →
  se_scan_range (tr_storage t') Meta STREAM_SEQ_PREFIX usize_max = Ok pairs →
  n = get_last_assigned (tr_state t) id + 1 ∧
  tracker_synced t' ∧
  load (tr_storage t') = Ok (tr_state t') ∧
  get_last_assigned (tr_state t') id = n.
Proof.
  intros Hs Hid Hmax Hn Hscan.
  destruct (next_seq_durable_aux t t' id n Hs Hid Hmax Hn) as (-> & Hs' & Hl).
  split; [done|]. split; [done|]. split; [|done]. destruct Hs'. by eapply load_frontiers.
Qed.

(** Acknowledgements only move forward and never past what was assigned: a
    successful [record_ack] leaves the acknowledged frontier at the larger of the
    old one and the new sequence, the assigned frontier at or above it, and
    storage in step with memory. *)
Theorem record_ack_monotone (t t' : StreamSeqTracker S) id seq :
  tracker_synced t → u64_ok id → u64_ok seq → is_Some (tr_state t !! id) →
  record_ack t id seq = (Ok tt, t') →
  tracker_synced t' ∧
  get_last_acked (tr_state t') id = Z.max (get_last_acked (tr_state t) id) seq ∧
  get_last_assigned (tr_state t') id =
    Z.max (get_last_assigned (tr_state t) id) (get_last_acked (tr_state t') id).
Proof.
  intros [Hok Hrows] Hid Hseq [f0 Hf0]. unfold record_ack, record_ack_lock.
  unfold get_last_acked, get_last_assigned.
  pose proof (frontier_of_ok _ id Hok) as Hf. set (f := frontier_of (tr_state t) id) in *.
  destruct Hf as (Ha & Hk & Hle). destruct (Z.leb_spec seq (last_acked f)).
  - intros [= <-]. simpl.
    assert (<[id := f]> (tr_state t) = tr_state t) as ->.
    { apply insert_id. unfold f, frontier_of. by rewrite Hf0. }
    split; [done|]. fold f. lia.
  - set (g := mkFrontier (Z.max (last_assigned f) seq) seq).
    destruct (se_put _ _ _ _) as [r s'] eqn:Hput. intros [= -> <-].
    assert (frontier_ok g) as Hg by (unfold frontier_ok, u64_ok, u64_max in *; simpl; lia).
    unfold frontier_of. simpl. rewrite lookup_insert, decide_True by done. simpl.
    split; [|lia]. split; simpl; [by apply frontiers_ok_insert|].
    apply put_ok in Hput. rewrite (Hput Meta). by apply frontier_rows_put.
Qed.
End durability.

(** ** Interleaved calls

    Several tasks may call [next_seq] at once.  The critical sections are atomic;
    the writes to storage are not ordered by them.  A step runs one critical
    section, or completes one outstanding write, after which that call returns. *)
Section interleaving.
Context {S : Type} `{StorageEngine S}.

Record Conc := mkConc {
  cc_storage : S;
  cc_state : Frontiers;
  cc_pending : list (Z * Z * bytes);
  cc_returned : list (Z * Z)
}.

Inductive conc_step : Conc → Conc → Prop :=
| conc_lock s st pend ret id next encoded st' :
    get_last_assigned st id < u64_max → 0 ≤ get_last_assigned st id →
    next_seq_lock st id = (next, encoded, st') →
    conc_step (mkConc s st pend ret) (mkConc s st' (pend ++ [(id, next, encoded)]) ret)
| conc_put s st l1 id next encoded l2 ret s' :
    se_put s Meta (stream_seq_key id) encoded = (Ok tt, s') →
    conc_step (mkConc s st (l1 ++ (id, next, encoded) :: l2) ret)
              (mkConc s' st (l1 ++ l2) (ret ++ [(id, next)])).

(** The numbers handed out so far, returned or on their way. *)
Definition handed_out (c : Conc) : list (Z * Z) := cc_returned c ++ (cc_pending c).*1.

Definition conc_inv (c : Conc) : Prop :=
  NoDup (handed_out c) ∧
  ∀ id n, (id, n) ∈ handed_out c → n ≤ get_last_assigned (cc_state c) id.

Lemma conc_step_inv c c' : conc_step c c' → conc_inv c → conc_inv c'.
Proof.
  intros Hstep [Hnd Hle]. destruct Hstep as [s st pend ret id next encoded st' Hmax Hmin Hl|
    s st l1 id next encoded l2 ret s' Hput]; unfold conc_inv, handed_out in *; simpl in *.
  - unfold next_seq_lock in Hl. injection Hl as <- <- <-.
    unfold get_last_assigned in *. rewrite wrap_u64_id in * by (unfold u64_ok; lia).
    set (f := frontier_of st id) in *. rewrite fmap_app, app_assoc. split.
    + apply NoDup_app. split; [done|]. split; [|apply NoDup_singleton].
      intros [i n] Hin Hs. apply list_elem_of_singleton in Hs. simplify_eq/=. apply Hle in Hin. fold f in Hin. lia.
    + intros i n. rewrite elem_of_app. unfold frontier_of at 1. rewrite lookup_insert.
      intros [Hin|Hs%list_elem_of_singleton].
      * apply Hle in Hin. case_decide; simpl; [subst; fold f in Hin; lia|done].
      * simplify_eq/=. by rewrite decide_True.
  - assert (handed_out (mkConc s' st (l1 ++ l2) (ret ++ [(id, next)])) ≡ₚ
            handed_out (mkConc s st (l1 ++ (id, next, encoded) :: l2) ret)) as Hp.
    { unfold handed_out. simpl. rewrite !fmap_app, fmap_cons, <-!app_assoc. simpl.
      apply Permutation_app_head. by rewrite Permutation_middle. }
    unfold handed_out in Hp. simpl in Hp. rewrite Hp. by setoid_rewrite Hp.
Qed.

(** Within one process sequence numbers are unique however calls interleave: in
    every state reachable by critical sections and completed writes in any
    order, no stream has handed out the same number twice, and all of them are
    at or below the in-memory frontier. *)
Theorem next_seq_unique_in_process s st c :
  rtc conc_step (mkConc s st [] []) c → conc_inv c.
Proof.
  intros Hr. assert (conc_inv (mkConc s st [] [])) as Hi.
  { split; [apply NoDup_nil_2|]. intros id n Hin. by apply elem_of_nil in Hin. }
  revert Hi. remember (mkConc s st [] []) as c0 eqn:E. clear E.
  induction Hr as [|c1 c2 c3 Hs _ IH]; [done|]. intros Hi. by apply IH, (conc_step_inv c1).
Qed.
End interleaving.
Arguments Conc : clear implicits.

(** Persist-before-send does not survive interleaving.  Two overlapping calls can
    complete their writes in the other order: both numbers are returned, the
    frontier on disk is the older one, and after a restart the next call hands
    out a number that was already returned. *)
Theorem next_seq_reused_after_restart :
  ∃ c : Conc MemDb, rtc conc_step (mkConc ∅ ∅ [] []) c ∧
    cc_pending c = [] ∧ (7, 2) ∈ cc_returned c ∧
    ∃ st, load (cc_storage c) = Ok st ∧
      (next_seq (mkTracker (cc_storage c) st) 7).1 = Ok 2.
Proof.
  set (st1 := (next_seq_lock ∅ 7).2). set (st2 := (next_seq_lock st1 7).2).
  set (e1 := (next_seq_lock ∅ 7).1.2). set (e2 := (next_seq_lock st1 7).1.2).
  set (s2 := (se_put (∅ : MemDb) Meta (stream_seq_key 7) e2).2).
  set (s1 := (se_put s2 Meta (stream_seq_key 7) e1).2).
  exists (mkConc s1 st2 [] [(7, 2); (7, 1)]). split.
  - eapply rtc_l; [apply (conc_lock ∅ ∅ [] [] 7 1 e1 st1); done|].
    eapply rtc_l; [apply (conc_lock ∅ st1 [(7, 1, e1)] [] 7 2 e2 st2); done|].
    eapply rtc_l; [apply (conc_put ∅ st2 [(7, 1, e1)] 7 2 e2 [] [] s2); done|].
    eapply rtc_l; [apply (conc_put s2 st2 [] 7 1 e1 [] [(7, 2)] s1); done|]. done.
  - split; [done|]. split; [by left|]. exists {[7 := mkFrontier 1 0]}. split; vm_compute; reflexivity.
Qed.

(** ** Examples *)

Lemma ex_tracker_synced : tracker_synced (mkTracker (∅ : MemDb) ∅).
Proof.
  split; cbn [tr_state tr_storage].
  - intros id f Hf. by rewrite lookup_empty in Hf.
  - intros k v _. rewrite mem_empty_contents, lookup_empty. split; [done|].
    intros (id & f & Hf & _). by rewrite lookup_empty in Hf.
Qed.

(** A pair is determined by its first component and itself. *)
Lemma pair_eta {A B} (p : A * B) a : p.1 = a → p = (a, p.2).
Proof. by destruct p; simpl; intros ->. Qed.

Definition ex_tracker : StreamSeqTracker MemDb := (next_seq (mkTracker (∅ : MemDb) ∅) 7).2.

Lemma ex_next_seq : next_seq (mkTracker (∅ : MemDb) ∅) 7 = (Ok 1, ex_tracker).
Proof. apply pair_eta. vm_compute. reflexivity. Qed.

Lemma ex_room : get_last_assigned (tr_state (mkTracker (∅ : MemDb) ∅)) 7 < u64_max.
Proof. by vm_compute. Qed.

Lemma ex_scan :
  se_scan_range (tr_storage ex_tracker) Meta STREAM_SEQ_PREFIX usize_max =
  Ok [(stream_seq_key 7, encode_frontier (mkFrontier 1 0))].
Proof. vm_compute. reflexivity. Qed.

Lemma u64_ok_7 : u64_ok 7.
Proof. by compute. Qed.

Lemma next_seq_durable_witness : load (tr_storage ex_tracker) = Ok (tr_state ex_tracker).
Proof.
  exact (proj1 (proj2 (proj2 (next_seq_durable (mkTracker (∅ : MemDb) ∅) ex_tracker 7 1 _
    ex_tracker_synced u64_ok_7 ex_room ex_next_seq ex_scan)))).
Defined.

Lemma ex_tracker_synced1 : tracker_synced ex_tracker.
Proof.
  exact (proj1 (proj2 (next_seq_durable_aux (mkTracker (∅ : MemDb) ∅) ex_tracker 7 1
    ex_tracker_synced u64_ok_7 ex_room ex_next_seq))).
Qed.

Lemma ex_record_ack : record_ack ex_tracker 7 5 = (Ok tt, (record_ack ex_tracker 7 5).2).
Proof. apply pair_eta. vm_compute. reflexivity. Qed.

Lemma ex_tracker_known : is_Some (tr_state ex_tracker !! 7).
Proof. exists (mkFrontier 1 0). vm_compute. reflexivity. Qed.

Lemma ex_acked0 : get_last_acked (tr_state ex_tracker) 7 = 0.
Proof. vm_compute. reflexivity. Qed.

Lemma record_ack_monotone_witness :
  get_last_acked (tr_state (record_ack ex_tracker 7 5).2) 7 = 5.
Proof.
  pose proof (proj1 (proj2 (record_ack_monotone ex_tracker (record_ack ex_tracker 7 5).2 7 5
    ex_tracker_synced1 u64_ok_7 ltac:(by compute) ex_tracker_known ex_record_ack))) as Ha.
  rewrite Ha, ex_acked0. reflexivity.
Defined.

Lemma next_seq_unique_in_process_witness :
  conc_inv (mkConc (∅ : MemDb) (next_seq_lock ∅ 7).2 [(7, 1, (next_seq_lock ∅ 7).1.2)] []).
Proof.
  apply (next_seq_unique_in_process (∅ : MemDb) ∅).
  eapply rtc_l; [apply (conc_lock ∅ ∅ [] [] 7 1 (next_seq_lock ∅ 7).1.2); done|]. done.
Defined.
