(* ===== verification/FlowControl.v ===== *)
(** * Flow control of the delta push pipeline

    [src/nodedb-lite/src/sync/flow_control.rs].  The controller is behind a mutex,
    so each method is one atomic step.  An [Instant] is a number of nanoseconds
    that the methods which read the clock take as an argument; [elapsed] and
    [duration_since] saturate at zero.  The smoothed round-trip time is an [f64].
    Atomic counters wrap at 64 bits. *)

From Stdlib Require Import ZArith Lia Strings.Byte Floats.SpecFloat.
From stdpp Require Import prelude gmap fin_maps.
From S2P Require Import Prelude Bytes F64.

Local Open Scope Z_scope.

Record FlowControlConfig := mkFlowControlConfig {
  max_in_flight : Z;
  min_batch_size : Z;
  max_batch_size : Z;
  initial_batch_size : Z;
  max_pending_count : Z;
  max_pending_bytes : Z
}.

Definition default_flow_config : FlowControlConfig :=
  mkFlowControlConfig 64 10 500 50 10000 (50 * 1024 * 1024).

(** ** Metrics *)

Record SyncMetrics := mkSyncMetrics {
  sm_deltas_pushed : Z;
  sm_deltas_received : Z;
  sm_deltas_rejected : Z;
  sm_reconnect_count : Z;
  sm_last_sync_ts : Z;
  sm_checksum_failures : Z;
  sm_conflicts_total : Z;
  sm_conflicts_by_collection : gmap bytes Z;
  sm_clock_skew_warnings : Z;
  sm_stale_timeouts : Z
}.

Definition metrics_new : SyncMetrics := mkSyncMetrics 0 0 0 0 0 0 0 ∅ 0 0.

Definition record_stale_timeouts (m : SyncMetrics) (count : Z) : SyncMetrics :=
  let '(mkSyncMetrics p r j c t k n b w s) := m in
  mkSyncMetrics p r j c t k n b w (wrap_u64 (s + count)).

Definition record_clock_skew_warning (m : SyncMetrics) : SyncMetrics :=
  let '(mkSyncMetrics p r j c t k n b w s) := m in
  mkSyncMetrics p r j c t k n b (wrap_u64 (w + 1)) s.

Definition metrics_record_push (m : SyncMetrics) (count now_millis : Z) : SyncMetrics :=
  let '(mkSyncMetrics p r j c t k n b w s) := m in
  mkSyncMetrics (wrap_u64 (p + count)) r j c now_millis k n b w s.

Definition record_received (m : SyncMetrics) (now_millis : Z) : SyncMetrics :=
  let '(mkSyncMetrics p r j c t k n b w s) := m in
  mkSyncMetrics p (wrap_u64 (r + 1)) j c now_millis k n b w s.

Definition metrics_record_reject (m : SyncMetrics) : SyncMetrics :=
  let '(mkSyncMetrics p r j c t k n b w s) := m in
  mkSyncMetrics p r (wrap_u64 (j + 1)) c t k n b w s.

Definition record_reconnect (m : SyncMetrics) : SyncMetrics :=
  let '(mkSyncMetrics p r j c t k n b w s) := m in
  mkSyncMetrics p r j (wrap_u64 (c + 1)) t k n b w s.

Definition record_checksum_failure (m : SyncMetrics) : SyncMetrics :=
  let '(mkSyncMetrics p r j c t k n b w s) := m in
  mkSyncMetrics p r j c t (wrap_u64 (k + 1)) n b w s.

(** The mutex is never poisoned: no code that holds it can panic. *)
Definition record_conflict (m : SyncMetrics) (collection : bytes) : SyncMetrics :=
  let '(mkSyncMetrics p r j c t k n b w s) := m in
  let count := default 0 (b !! collection) in
  mkSyncMetrics p r j c t k (wrap_u64 (n + 1)) (<[collection := wrap_u64 (count + 1)]> b) w s.

Definition conflicts_by_collection (m : SyncMetrics) : gmap bytes Z :=
  sm_conflicts_by_collection m.

(** ** The controller *)

Record FlowController := mkFlowController {
  fc_config : FlowControlConfig;
  (** Mutation id to the instant it was sent. *)
  in_flight : gmap Z Z;
  ema_rtt_ms : spec_float;
  fc_batch : Z;
  consecutive_acks : Z;
  fc_pending_count : Z;
  fc_pending_bytes : Z
}.

Definition flow_new (config : FlowControlConfig) : FlowController :=
  mkFlowController config ∅ (S754_zero false) (initial_batch_size config) 0 0 0.

Definition flow_default : FlowController := flow_new default_flow_config.

Definition in_flight_count (fc : FlowController) : Z := Z.of_nat (size (in_flight fc)).

Definition can_push (fc : FlowController) : bool :=
  in_flight_count fc <? max_in_flight (fc_config fc).

Definition next_batch_size (fc : FlowController) : Z :=
  let window_remaining := saturating_sub_u64 (max_in_flight (fc_config fc)) (in_flight_count fc) in
  Z.min (fc_batch fc) window_remaining.

Definition flow_record_push (fc : FlowController) (now : Z) (mutation_ids : list Z)
    : FlowController :=
  let '(mkFlowController c fl e b a pc pb) := fc in
  mkFlowController c (foldl (λ m mid, <[mid := now]> m) fl mutation_ids) e b a pc pb.

(** [Instant::elapsed], in nanoseconds, and [Duration::as_millis]. *)
Definition elapsed (now sent_at : Z) : Z := Z.max (now - sent_at) 0.
Definition as_millis (d : Z) : Z := d / 1000000.

(** [0.875 * ema + 0.125 * rtt], or the first sample. *)
Definition ema_update (ema rtt : spec_float) : spec_float :=
  if SFeqb ema (S754_zero false) then rtt
  else f64_add (f64_mul (f64_div (f64_of_Z 7) (f64_of_Z 8)) ema)
               (f64_mul (f64_div (f64_of_Z 1) (f64_of_Z 8)) rtt).

(** [x as u64] for a value. *)
Definition sf_as_u64 (x : spec_float) : Z := f64_as_u64 (bits_of_sf x).

Definition flow_record_ack (fc : FlowController) (now mutation_id : Z)
    : option Z * FlowController :=
  match in_flight fc !! mutation_id with
  | None => (None, fc)
  | Some send_time =>
      let rtt_ms := f64_of_Z (as_millis (elapsed now send_time)) in
      let acks := consecutive_acks fc + 1 in
      let c := fc_config fc in
      let bump := 8 <=? acks in
      (Some (sf_as_u64 rtt_ms),
       mkFlowController c (delete mutation_id (in_flight fc)) (ema_update (ema_rtt_ms fc) rtt_ms)
         (if bump then Z.min (fc_batch fc + 1) (max_batch_size c) else fc_batch fc)
         (if bump then 0 else acks) (fc_pending_count fc) (fc_pending_bytes fc))
  end.

(** The multiplicative decrease shared by rejections and evictions. *)
Definition halved (fc : FlowController) : Z :=
  Z.max (fc_batch fc / 2) (min_batch_size (fc_config fc)).

Definition flow_record_reject (fc : FlowController) (mutation_id : Z) : FlowController :=
  mkFlowController (fc_config fc) (delete mutation_id (in_flight fc)) (ema_rtt_ms fc)
    (halved fc) 0 (fc_pending_count fc) (fc_pending_bytes fc).

Definition update_pending (fc : FlowController) (count nbytes : Z) : FlowController :=
  mkFlowController (fc_config fc) (in_flight fc) (ema_rtt_ms fc) (fc_batch fc)
    (consecutive_acks fc) count nbytes.

Definition is_queue_full (fc : FlowController) : bool :=
  (max_pending_count (fc_config fc) <=? fc_pending_count fc)
  || (max_pending_bytes (fc_config fc) <=? fc_pending_bytes fc).

Definition avg_rtt_ms (fc : FlowController) : Z := sf_as_u64 (ema_rtt_ms fc).

Definition cleanup_stale (fc : FlowController) (now timeout : Z) : Z * FlowController :=
  let before := in_flight_count fc in
  let kept := filter (λ kv : Z * Z, elapsed now kv.2 < timeout) (in_flight fc) in
  let cleaned := before - Z.of_nat (size kept) in
  let c := fc_config fc in
  (cleaned,
   if 0 <? cleaned then
     mkFlowController c kept (ema_rtt_ms fc) (halved fc) 0 (fc_pending_count fc) (fc_pending_bytes fc)
   else
     mkFlowController c kept (ema_rtt_ms fc) (fc_batch fc) (consecutive_acks fc)
       (fc_pending_count fc) (fc_pending_bytes fc)).

Definition cleanup_stale_and_record (fc : FlowController) (now timeout : Z) (m : SyncMetrics)
    : FlowController * SyncMetrics :=
  let '(cleaned, fc') := cleanup_stale fc now timeout in
  (fc', if 0 <? cleaned then record_stale_timeouts m cleaned else m).

Record SyncMetricsSnapshot := mkSyncMetricsSnapshot {
  sn_state : bytes;
  sn_pending_count : Z;
  sn_pending_bytes : Z;
  sn_deltas_pushed : Z;
  sn_deltas_received : Z;
  sn_deltas_rejected : Z;
  sn_avg_rtt_ms : Z;
  sn_in_flight : Z;
  sn_reconnect_count : Z;
  sn_last_sync_ts : Z;
  sn_checksum_failures : Z;
  sn_current_batch_size : Z;
  sn_conflicts_total : Z;
  sn_stale_timeouts : Z
}.

Definition flow_snapshot (fc : FlowController) (state : bytes) (m : SyncMetrics)
    : SyncMetricsSnapshot :=
  mkSyncMetricsSnapshot state (fc_pending_count fc) (fc_pending_bytes fc)
    (sm_deltas_pushed m) (sm_deltas_received m) (sm_deltas_rejected m)
    (avg_rtt_ms fc) (in_flight_count fc) (sm_reconnect_count m) (sm_last_sync_ts m)
    (sm_checksum_failures m) (fc_batch fc) (sm_conflicts_total m) (sm_stale_timeouts m).

Definition flow_reset (fc : FlowController) : FlowController :=
  mkFlowController (fc_config fc) ∅ (ema_rtt_ms fc) (fc_batch fc) 0
    (fc_pending_count fc) (fc_pending_bytes fc).

(** ** Histories

    A client pushes at most [next_batch_size] deltas at a time; everything else
    may happen at any moment. *)

Inductive flow_step : FlowController → FlowController → Prop :=
| step_push fc now ids :
    Z.of_nat (length ids) ≤ next_batch_size fc → flow_step fc (flow_record_push fc now ids)
| step_ack fc now mid : flow_step fc (flow_record_ack fc now mid).2
| step_reject fc mid : flow_step fc (flow_record_reject fc mid)
| step_pending fc count nbytes : flow_step fc (update_pending fc count nbytes)
| step_cleanup fc now timeout : flow_step fc (cleanup_stale fc now timeout).2
| step_reset fc : flow_step fc (flow_reset fc).

Definition config_ok (c : FlowControlConfig) : Prop :=
  0 ≤ max_in_flight c ≤ usize_max ∧ 0 ≤ min_batch_size c ∧
  min_batch_size c ≤ initial_batch_size c ≤ max_batch_size c ∧ max_batch_size c < usize_max.

(** What every reachable controller satisfies. *)
Record flow_ok (c : FlowControlConfig) (fc : FlowController) : Prop := {
  flow_ok_config : fc_config fc = c;
  flow_ok_batch : min_batch_size c ≤ fc_batch fc ≤ max_batch_size c;
  flow_ok_acks : 0 ≤ consecutive_acks fc < 8;
  flow_ok_window : in_flight_count fc ≤ max_in_flight c
}.

Lemma push_size fl now ids :
  (size (foldl (λ m mid, <[mid := now]> m) fl ids : gmap Z Z) ≤ size fl + length ids)%nat.
Proof.
  revert fl. induction ids as [|i ids IH]; intros fl; simpl; [lia|].
  etrans; [apply IH|]. rewrite map_size_insert. destruct (fl !! i); unfold id; lia.
Qed.

Lemma size_delete_le (fl : gmap Z Z) k : (size (delete k fl) ≤ size fl)%nat.
Proof. rewrite map_size_delete. destruct (fl !! k); unfold id; lia. Qed.

Lemma size_filter_le (P : Z * Z → Prop) `{∀ x, Decision (P x)} (fl : gmap Z Z) :
  (size (filter P fl) ≤ size fl)%nat.
Proof. rewrite <-!size_dom. apply subseteq_size, dom_filter_subseteq. Qed.

Lemma halved_bounds c fc :
  0 ≤ min_batch_size c → fc_config fc = c → min_batch_size c ≤ fc_batch fc ≤ max_batch_size c →
  min_batch_size c ≤ halved fc ≤ max_batch_size c.
Proof. intros ? <- ?. unfold halved. Z.to_euclidean_division_equations; lia. Qed.

Lemma flow_new_ok c : config_ok c → flow_ok c (flow_new c).
Proof.
  intros (? & ? & ? & ?). constructor; simpl; [done|lia..|].
  unfold in_flight_count; simpl. rewrite map_size_empty. lia.
Qed.

Lemma flow_step_ok c fc fc' : config_ok c → flow_ok c fc → flow_step fc fc' → flow_ok c fc'.
Proof.
  intros (? & ? & ? & ?) [Hc Hb Ha Hw] Hstep. pose proof (halved_bounds c fc ltac:(done) Hc Hb) as Hh.
  destruct Hstep as [fc now ids Hids|fc now mid|fc mid|fc count nb|fc now timeout|fc].
  - destruct fc as [c' fl e b a pc pb]. simpl in *. subst c'.
    unfold next_batch_size, saturating_sub_u64, in_flight_count in *; simpl in *.
    constructor; simpl; [done..|]. unfold in_flight_count; simpl. pose proof (push_size fl now ids). lia.
  - unfold flow_record_ack. destruct (in_flight fc !! mid) as [t|] eqn:Hm; simpl; [|by constructor].
    pose proof (size_delete_le (in_flight fc) mid).
    destruct (Z.leb_spec 8 (consecutive_acks fc + 1)); constructor; simpl; subst c;
      unfold in_flight_count in *; simpl; try done; lia.
  - pose proof (size_delete_le (in_flight fc) mid).
    constructor; simpl; try done; unfold in_flight_count in *; simpl; lia.
  - by constructor.
  - pose proof (size_filter_le (λ kv : Z * Z, elapsed now kv.2 < timeout) (in_flight fc)).
    unfold cleanup_stale, in_flight_count in *. simpl.
    destruct (0 <? _); constructor; unfold in_flight_count; simpl; try done; lia.
  - constructor; simpl; try done. unfold in_flight_count; simpl. rewrite map_size_empty. lia.
Qed.

Lemma flow_reach_ok c fc fc' :
  config_ok c → flow_ok c fc → rtc flow_step fc fc' → flow_ok c fc'.
Proof. intros Hc Hok. induction 1; eauto using flow_step_ok. Qed.


Definition small_config : FlowControlConfig := mkFlowControlConfig 3 2 16 4 100 1000.
(** Push three deltas, acknowledge one, see one rejected. *)
Definition small_fc : FlowController :=
  flow_record_reject (flow_record_ack (flow_record_push (flow_new small_config) 5 [1; 2; 3])
    3000005 1).2 2.

Lemma small_fc_reachable : rtc flow_step (flow_new small_config) small_fc.
Proof.
  eapply rtc_l; [apply (step_push _ 5 [1; 2; 3])|]; [by vm_compute|].
  eapply rtc_l; [apply (step_ack _ 3000005 1)|].
  eapply rtc_l; [apply (step_reject _ 2)|]. apply rtc_refl.
Qed.

Lemma small_config_ok : config_ok small_config.
Proof. by vm_compute. Qed.


(** ** The learned batch size *)

(** Acknowledge a list of deltas, each at its own instant. *)
Definition ack_all (fc : FlowController) (acks : list (Z * Z)) : FlowController :=
  foldl (λ fc '(now, mid), (flow_record_ack fc now mid).2) fc acks.

Lemma ack_one fc now mid :
  is_Some (in_flight fc !! mid) →
  let fc' := (flow_record_ack fc now mid).2 in
  fc_config fc' = fc_config fc ∧ in_flight fc' = delete mid (in_flight fc) ∧
  (8 ≤ consecutive_acks fc + 1 → consecutive_acks fc' = 0 ∧
     fc_batch fc' = Z.min (fc_batch fc + 1) (max_batch_size (fc_config fc))) ∧
  (consecutive_acks fc + 1 < 8 → consecutive_acks fc' = consecutive_acks fc + 1 ∧
     fc_batch fc' = fc_batch fc).
Proof.
  intros [t Ht]. unfold flow_record_ack. rewrite Ht. simpl.
  destruct (Z.leb_spec 8 (consecutive_acks fc + 1)); repeat split; intros; lia.
Qed.

Lemma ack_all_spec fc acks :
  0 ≤ consecutive_acks fc < 8 → fc_batch fc ≤ max_batch_size (fc_config fc) →
  NoDup acks.*2 → (∀ mid, mid ∈ acks.*2 → is_Some (in_flight fc !! mid)) →
  let fc' := ack_all fc acks in
  let n := consecutive_acks fc + Z.of_nat (length acks) in
  fc_config fc' = fc_config fc ∧
  fc_batch fc' = Z.min (fc_batch fc + n / 8) (max_batch_size (fc_config fc)) ∧
  consecutive_acks fc' = n mod 8 ∧
  in_flight_count fc' = in_flight_count fc - Z.of_nat (length acks).
Proof.
  revert fc. induction acks as [|[now mid] acks IH]; intros fc Ha Hb Hnd Hin fc' n; subst fc' n.
  - simpl. rewrite Z.add_0_r, Z.div_small, Z.mod_small by lia. repeat split; lia.
  - rewrite fmap_cons in Hnd. apply NoDup_cons in Hnd as [Hni Hnd].
    assert (is_Some (in_flight fc !! mid)) as Hm by (apply Hin; set_solver).
    destruct (ack_one fc now mid Hm) as (Hc & Hf & Hge & Hlt).
    destruct Hm as [t Ht].
    set (fc1 := (flow_record_ack fc now mid).2) in *.
    destruct (IH fc1) as (Hc' & Hb' & Ha' & Hi'); [|rewrite Hc| | |].
    { destruct (Z.le_gt_cases 8 (consecutive_acks fc + 1)) as [H8|H8];
        [destruct (Hge H8)|destruct (Hlt H8)]; lia. }
    { destruct (Z.le_gt_cases 8 (consecutive_acks fc + 1)) as [H8|H8];
        [destruct (Hge H8)|destruct (Hlt H8)]; lia. }
    { done. }
    { intros mid' Hmid'. rewrite Hf, lookup_delete_ne by set_solver. apply Hin. set_solver. }
    change (ack_all fc ((now, mid) :: acks)) with (ack_all fc1 acks).
    rewrite Hc in *. split; [done|].
    assert (in_flight_count fc1 = in_flight_count fc - 1) as Hcnt.
    { unfold in_flight_count. rewrite Hf, map_size_delete, Ht.
      assert (size (in_flight fc) ≠ 0%nat); [|lia].
      intros Hz%map_size_empty_inv. by rewrite Hz in Ht. }
    assert (Z.of_nat (length ((now, mid) :: acks)) = Z.of_nat (length acks) + 1) as -> by (simpl; lia).
    rewrite Hb', Ha', Hi', Hcnt. assert (0 ≤ Z.of_nat (length acks)) as Hk by lia.
    revert Ha Hb Hge Hlt Hk. clear.
    generalize (fc_batch fc1) (consecutive_acks fc1) (fc_batch fc) (consecutive_acks fc)
      (max_batch_size (fc_config fc)) (Z.of_nat (length acks)) (in_flight_count fc).
    intros b1 a1 b a mx k fl Ha Hb Hge Hlt Hk.
    destruct (Z.le_gt_cases 8 (a + 1)) as [H8|H8].
    + destruct (Hge H8) as [-> ->]. assert (a = 7) as -> by lia.
      replace (7 + (k + 1)) with (k + 1 * 8) by lia.
      rewrite Z.div_add, Z.mod_add by done. pose proof (Z.div_pos k 8 Hk eq_refl). rewrite !Z.add_0_l.
      repeat split; lia.
    + destruct (Hlt H8) as [-> ->]. replace (a + 1 + k) with (a + (k + 1)) by lia.
      repeat split; lia.
Qed.

(** Additive increase, multiplicative decrease.  From a reachable controller,
    [n] acknowledgements of distinct in-flight deltas add one to the batch size
    for every 8 acknowledgements of the streak, capped at the maximum, and free
    [n] places of the window; a rejection ends the streak and halves the batch
    size, down to the minimum; an unknown acknowledgement changes nothing. *)
Theorem aimd_spec c fc acks mid now :
  config_ok c → rtc flow_step (flow_new c) fc →
  NoDup acks.*2 → (∀ mid, mid ∈ acks.*2 → is_Some (in_flight fc !! mid)) →
  let n := consecutive_acks fc + Z.of_nat (length acks) in
  fc_batch (ack_all fc acks) = Z.min (fc_batch fc + n / 8) (max_batch_size c) ∧
  consecutive_acks (ack_all fc acks) = n mod 8 ∧
  in_flight_count (ack_all fc acks) = in_flight_count fc - Z.of_nat (length acks) ∧
  fc_batch (flow_record_reject fc mid) = Z.max (fc_batch fc / 2) (min_batch_size c) ∧
  consecutive_acks (flow_record_reject fc mid) = 0 ∧
  (in_flight fc !! mid = None → flow_record_ack fc now mid = (None, fc)).
Proof.
  intros Hc Hr Hnd Hin n. destruct (flow_reach_ok c _ _ Hc (flow_new_ok c Hc) Hr) as [Hcfg Hb Ha Hw].
  destruct (ack_all_spec fc acks Ha) as (_ & Hb' & Ha' & Hi'); [by rewrite Hcfg; lia|done..|].
  unfold flow_record_reject, halved, flow_record_ack. simpl. rewrite Hcfg in *.
  repeat split; [done..|]. by intros ->.
Qed.

(** Four deltas in flight, acknowledged twice over: eight acknowledgements. *)
Definition four_in_flight : FlowController :=
  flow_record_push (ack_all (flow_record_push flow_default 0 [1; 2; 3; 4])
    [(7, 1); (7, 2); (8, 3); (9, 4)]) 10 [5; 6; 7; 8].

Lemma four_in_flight_reachable : rtc flow_step flow_default four_in_flight.
Proof.
  eapply rtc_l; [apply (step_push _ 0 [1; 2; 3; 4])|]; [by vm_compute|].
  eapply rtc_l; [apply (step_ack _ 7 1)|]. eapply rtc_l; [apply (step_ack _ 7 2)|].
  eapply rtc_l; [apply (step_ack _ 8 3)|]. eapply rtc_l; [apply (step_ack _ 9 4)|].
  eapply rtc_l; [apply (step_push _ 10 [5; 6; 7; 8])|]; [by vm_compute|]. apply rtc_refl.
Qed.

Lemma aimd_spec_witness :
  fc_batch (ack_all four_in_flight [(11, 5); (12, 6); (13, 7); (14, 8)]) = 51 ∧
  fc_batch (flow_record_reject four_in_flight 5) = 25.
Proof.
  assert (config_ok default_flow_config) as Hc by by vm_compute.
  assert (∀ m, m ∈ [5; 6; 7; 8] → is_Some (in_flight four_in_flight !! m)) as Hm.
  { intros m Hm. repeat (apply elem_of_cons in Hm as [->|Hm]; [by eexists; vm_compute|]).
    by apply elem_of_nil in Hm. }
  destruct (aimd_spec default_flow_config four_in_flight [(11, 5); (12, 6); (13, 7); (14, 8)] 5 0
    Hc four_in_flight_reachable ltac:(by apply (bool_decide_unpack _); vm_compute) Hm)
    as (Hb & _ & _ & Hj & _).
  split; [by rewrite Hb|by rewrite Hj].
Defined.

(** ** The window reopens *)

Lemma cleanup_all fc now timeout :
  (∀ mid t, in_flight fc !! mid = Some t → timeout ≤ now - t) → 0 < timeout →
  in_flight (cleanup_stale fc now timeout).2 = ∅ ∧
  (cleanup_stale fc now timeout).1 = in_flight_count fc.
Proof.
  intros Hold Hpos.
  assert (filter (λ kv : Z * Z, elapsed now kv.2 < timeout) (in_flight fc) = ∅) as Hf.
  { apply map_empty. intros mid. apply map_lookup_filter_None_2. right. intros t Ht.
    specialize (Hold _ _ Ht). unfold elapsed; simpl. lia. }
  unfold cleanup_stale. rewrite Hf, map_size_empty. destruct (0 <? _); simpl; lia || (split; [done|lia]).
Qed.

Lemma cleanup_keeps_config fc now timeout :
  fc_config (cleanup_stale fc now timeout).2 = fc_config fc.
Proof. unfold cleanup_stale. by destruct (0 <? _). Qed.

(** C36: a blocked pipeline recovers.  Once every in-flight delta is at least
    [timeout] old, one run of the periodic cleanup empties the window, so that the
    next batch is not empty; the evictions are counted exactly in the metrics,
    and no acknowledgement has to arrive for this. *)
Theorem window_reopens c fc now timeout m :
  config_ok c → 0 < min_batch_size c → 0 < max_in_flight c → 0 < timeout →
  rtc flow_step (flow_new c) fc →
  (∀ mid t, in_flight fc !! mid = Some t → timeout ≤ now - t) →
  let '(fc', m') := cleanup_stale_and_record fc now timeout m in
  rtc flow_step (flow_new c) fc' ∧
  in_flight fc' = ∅ ∧ can_push fc' = true ∧ 0 < next_batch_size fc' ∧
  sm_stale_timeouts m' =
    if 0 <? in_flight_count fc then wrap_u64 (sm_stale_timeouts m + in_flight_count fc)
    else sm_stale_timeouts m.
Proof.
  intros Hc Hmin Hmax Hpos Hr Hold.
  unfold cleanup_stale_and_record.
  destruct (cleanup_all fc now timeout Hold Hpos) as [Hempty Hn].
  pose proof (cleanup_keeps_config fc now timeout) as Hcfg'.
  assert (rtc flow_step (flow_new c) (cleanup_stale fc now timeout).2) as Hr'.
  { eapply rtc_r; [done|constructor]. }
  destruct (flow_reach_ok c _ _ Hc (flow_new_ok c Hc) Hr') as [Hcfg Hb _ _].
  destruct (cleanup_stale fc now timeout) as [cleaned fc']. simpl in *. subst cleaned.
  split; [done|]. split; [done|].
  unfold can_push, next_batch_size, saturating_sub_u64, in_flight_count. rewrite Hempty, Hcfg.
  rewrite map_size_empty. split; [by apply Z.ltb_lt|]. split; [lia|].
  fold (in_flight_count fc). destruct (0 <? in_flight_count fc); [|done]. by destruct m.
Qed.

Lemma window_reopens_witness :
  let '(fc', m') := cleanup_stale_and_record small_fc 30000000000 20000000000 metrics_new in
  can_push fc' = true ∧ sm_stale_timeouts m' = 1.
Proof.
  pose proof (window_reopens small_config small_fc 30000000000 20000000000 metrics_new
    small_config_ok ltac:(done) ltac:(done) ltac:(done) small_fc_reachable) as H.
  assert (∀ mid t, in_flight small_fc !! mid = Some t → 20000000000 ≤ 30000000000 - t) as Hold.
  { intros mid t Ht. change (in_flight small_fc) with (<[3 := 5]> ∅ : gmap Z Z) in Ht.
    apply lookup_insert_Some in Ht as [[_ <-]|[_ ?]]; [done|]. by rewrite lookup_empty in *. }
  specialize (H Hold). destruct (cleanup_stale_and_record _ _ _ _) as [fc' m'].
  destruct H as (_ & _ & Hp & _ & Hs). split; [done|]. by rewrite Hs.
Defined.
