(* ===== verification/OutboundQueue.v ===== *)
(** * Outbound queues

    [src/nodedb-lite/src/sync/outbound/queue.rs], [durable_queue.rs] and
    [reconcile.rs].  The durable queue keeps its entries in one namespace of the
    storage under big-endian 64-bit keys; the handle holds the namespace, the cap
    and the key counter.  The abstract specification is a list of numbered
    payloads, oldest first. *)

From Stdlib Require Import ZArith Lia Strings.Byte.
From stdpp Require Import prelude gmap strings sorting.
From S2P Require Import Prelude Bytes Ordered StorageTrait Pagedb PagedbMem.

Local Open Scope Z_scope.

#[local] Arguments be_val : simpl never.
#[local] Arguments be_bytes : simpl never.

(** ** In-memory primitives *)

(** [BatchIdGen]: the counter behind the atomic. *)
Definition BatchIdGen_new : Z := 1.
Definition BatchIdGen_next (next : Z) : Z * Z := (next, wrap_u64 (next + 1)).

(** [take_next]: the compare-exchange loop is one atomic increment, which is
    refused at [u64::MAX]. *)
Definition take_next (counter : Z) : option Z * Z :=
  match checked_add_u64 counter 1 with
  | None => (None, counter)
  | Some advanced => (Some counter, advanced)
  end.

(** [PendingQueue<T>]: [None] is a poisoned mutex. *)
Section pending_queue.
Context {T : Type}.

Definition PendingQueue : Type := option (list T).

Definition pq_new : PendingQueue := Some [].
Definition pq_push (q : PendingQueue) (item : T) : PendingQueue := (λ g, g ++ [item]) <$> q.
Definition pq_drain (q : PendingQueue) : list T * PendingQueue :=
  match q with
  | Some g => (g, Some [])
  | None => ([], None)
  end.
Definition pq_requeue (q : PendingQueue) (item : T) : PendingQueue := (λ g, item :: g) <$> q.
Definition pq_retain (q : PendingQueue) (predicate : T → bool) : PendingQueue :=
  (λ g, filter (λ t, predicate t = true) g) <$> q.
Definition pq_with_first_mut {R} (q : PendingQueue) (predicate : T → bool) (f : T → R * T)
    : option R * PendingQueue :=
  match q with
  | None => (None, None)
  | Some g =>
      match position predicate g with
      | None => (None, Some g)
      | Some i =>
          match g !! i with
          | None => (None, Some g)
          | Some entry => let '(r, entry') := f entry in (Some r, Some (<[i := entry']> g))
          end
      end
  end.
Definition pq_len (q : PendingQueue) : Z :=
  match q with Some g => Z.of_nat (length g) | None => 0 end.
Definition pq_is_empty (q : PendingQueue) : bool := pq_len q =? 0.
End pending_queue.
Arguments PendingQueue : clear implicits.

(** ** The durable queue *)

Record DurableOutboundQueue := mkDurableQueue {
  dq_namespace : Namespace;
  dq_cap : Z;
  dq_next_id : Z
}.

Definition DEFAULT_CAP : Z := 100000.

Definition exhausted : LiteError := Backpressure.

(** The number in the last key, if it has eight bytes. *)
Definition last_id (pairs : list KvPair) : option Z :=
  let* row := last pairs in
  if (length row.1 =? 8)%nat then Some (be_val row.1) else None.

Definition reserve_key (q : DurableOutboundQueue) : res bytes * DurableOutboundQueue :=
  let '(id, next) := take_next (dq_next_id q) in
  (ok_or (u64_be <$> id) exhausted, mkDurableQueue (dq_namespace q) (dq_cap q) next).

Section durable.
Context {S : Type} `{StorageEngine S}.

Definition recover_next_id (storage : S) (namespace : Namespace) : res Z :=
  let? pairs := se_scan_range storage namespace [] usize_max in
  match last_id pairs with
  | None => Ok 1
  | Some id => ok_or (checked_add_u64 id 1) exhausted
  end.

Definition open_with_cap (storage : S) (namespace : Namespace) (cap : Z)
    : res DurableOutboundQueue :=
  let? next_id := recover_next_id storage namespace in
  Ok (mkDurableQueue namespace cap next_id).

Definition dq_open (storage : S) (namespace : Namespace) : res DurableOutboundQueue :=
  open_with_cap storage namespace DEFAULT_CAP.

Definition dq_len (storage : S) (q : DurableOutboundQueue) : res Z :=
  se_count storage (dq_namespace q).

Definition dq_is_empty (storage : S) (q : DurableOutboundQueue) : res bool :=
  rmap (λ n, n =? 0) (dq_len storage q).

Definition ensure_room (storage : S) (q : DurableOutboundQueue) (entries : Z) : res unit :=
  let? current := dq_len storage q in
  if dq_cap q <? saturating_add_u64 current entries then Err Backpressure else Ok tt.

Definition enqueue (storage : S) (q : DurableOutboundQueue) (payload : bytes)
    : res unit * (S * DurableOutboundQueue) :=
  match ensure_room storage q 1 with
  | Err e => (Err e, (storage, q))
  | Ok _ =>
      let '(key, q) := reserve_key q in
      match key with
      | Err e => (Err e, (storage, q))
      | Ok key =>
          let '(r, storage) := se_put storage (dq_namespace q) key payload in (r, (storage, q))
      end
  end.

Definition persist_reserved (storage : S) (q : DurableOutboundQueue) (key payload : bytes)
    : res unit * S :=
  match se_get storage (dq_namespace q) key with
  | Err e => (Err e, storage)
  | Ok (Some _) => (Ok tt, storage)
  | Ok None =>
      match ensure_room storage q 1 with
      | Err e => (Err e, storage)
      | Ok _ => se_put storage (dq_namespace q) key payload
      end
  end.

Definition dq_drain_batch (storage : S) (q : DurableOutboundQueue) (limit : Z)
    : res (list KvPair) :=
  se_scan_range storage (dq_namespace q) [] limit.

Definition dq_ack_keys (storage : S) (q : DurableOutboundQueue) (keys : list bytes)
    : res unit * S :=
  match keys with
  | [] => (Ok tt, storage)
  | _ => se_batch_write storage (Delete (dq_namespace q) <$> keys)
  end.

Definition dq_update_entry (storage : S) (q : DurableOutboundQueue) (key payload : bytes)
    : res unit * S :=
  se_put storage (dq_namespace q) key payload.
End durable.

(** The failure policy of an enqueue that follows a committed local write. *)
Definition reconcile_outbound_enqueue (result : res unit) : res unit :=
  match result with
  | Ok _ => Ok tt
  | Err Backpressure => Err Backpressure
  | Err _ => Ok tt
  end.

(** ** The abstract queue *)

(** Pending entries with their numbers, oldest first. *)
Definition fifo (m : Store) (ns : Namespace) : list (Z * bytes) :=
  (λ p, (be_val p.1, p.2)) <$> entries (m ns).

(** Every stored key is a number the counter has passed. *)
Definition queue_ok (m : Store) (q : DurableOutboundQueue) : Prop :=
  1 ≤ dq_next_id q ≤ u64_max ∧
  ∀ k, is_Some (m (dq_namespace q) !! k) → ∃ id, k = u64_be id ∧ 1 ≤ id < dq_next_id q.

(** Numbers strictly increase along the queue. *)
Definition numbered (l : list (Z * bytes)) : Prop := StronglySorted (λ p r, p.1 < r.1) l.

Inductive QueueOp :=
| QEnqueue (payload : bytes)
| QAck (ids : list Z)
| QUpdate (id : Z) (payload : bytes)
| QReopen.

(** What an operation does to the pending entries when [next] is the counter. *)
Definition fifo_after (next : Z) (op : QueueOp) (l : list (Z * bytes)) : list (Z * bytes) :=
  match op with
  | QEnqueue payload => l ++ [(next, payload)]
  | QAck ids => filter (λ p, p.1 ∉ ids) l
  | QUpdate id payload => (λ p, if decide (p.1 = id) then (id, payload) else p) <$> l
  | QReopen => l
  end.

(** The numbers an operation names are those of keys, and an update names a
    pending entry. *)
Definition op_valid (l : list (Z * bytes)) (op : QueueOp) : Prop :=
  match op with
  | QAck ids => Forall u64_ok ids
  | QUpdate id _ => u64_ok id ∧ id ∈ l.*1
  | _ => True
  end.

Definition queue_run {S} `{StorageEngine S} (st : S * DurableOutboundQueue) (op : QueueOp)
    : res unit * (S * DurableOutboundQueue) :=
  let '(s, q) := st in
  match op with
  | QEnqueue payload => enqueue s q payload
  | QAck ids => let '(r, s') := dq_ack_keys s q (u64_be <$> ids) in (r, (s', q))
  | QUpdate id payload => let '(r, s') := dq_update_entry s q (u64_be id) payload in (r, (s', q))
  | QReopen =>
      match open_with_cap s (dq_namespace q) (dq_cap q) with
      | Ok q' => (Ok tt, (s, q'))
      | Err e => (Err e, (s, q))
      end
  end.

(** ** Keys and numbers *)

Section fifo_facts.
Context (m : Store) (q : DurableOutboundQueue).
Hypothesis Hq : queue_ok m q.

Lemma queue_key k : is_Some (m (dq_namespace q) !! k) → u64_be (be_val k) = k ∧ u64_ok (be_val k).
Proof.
  destruct Hq as [? Hk]. intros (id & -> & Hid)%Hk.
  rewrite u64_be_val by arith. split; [done|arith].
Qed.

Lemma elem_of_entries_key p : p ∈ entries (m (dq_namespace q)) → is_Some (m (dq_namespace q) !! p.1).
Proof. destruct p as [k v]. rewrite elem_of_entries. by eexists. Qed.

Lemma elem_of_fifo id v :
  (id, v) ∈ fifo m (dq_namespace q) ↔ u64_ok id ∧ m (dq_namespace q) !! u64_be id = Some v.
Proof.
  unfold fifo. rewrite list_elem_of_fmap. split.
  - intros ([k v'] & [= -> ->] & Hin). cbn [fst snd]. pose proof (elem_of_entries_key _ Hin) as Hk. cbn [fst] in Hk.
    apply queue_key in Hk as [-> Hok]. by rewrite elem_of_entries in Hin.
  - intros [Hid Hm]. exists (u64_be id, v). simpl. rewrite u64_be_val by done.
    split; [done|]. by apply elem_of_entries.
Qed.

Lemma fifo_numbered : numbered (fifo m (dq_namespace q)).
Proof.
  unfold fifo, numbered. pose proof (entries_ksorted (m (dq_namespace q))) as Hs.
  assert (∀ p, p ∈ entries (m (dq_namespace q)) → u64_be (be_val p.1) = p.1 ∧ u64_ok (be_val p.1)) as Hp.
  { intros p Hp. by apply queue_key, elem_of_entries_key. }
  induction Hs as [|p l Hs IH Hall]; [constructor|].
  rewrite fmap_cons. constructor; [apply IH; intros r Hr; apply Hp, elem_of_cons; by right|].
  apply Forall_fmap, Forall_forall. intros r Hr. rewrite Forall_forall in Hall.
  specialize (Hall r Hr). simpl.
  destruct (Hp p) as [Ep Op]; [apply elem_of_cons; by left|].
  destruct (Hp r) as [Er Or]; [apply elem_of_cons; by right|].
  unfold bytes_lt in Hall. rewrite <-Ep, <-Er, u64_be_cmp in Hall by done.
  by apply Z.compare_lt_iff.
Qed.

Lemma fifo_length : Z.of_nat (length (fifo m (dq_namespace q))) = Z.of_nat (size (m (dq_namespace q))).
Proof. unfold fifo. by rewrite length_fmap, length_entries. Qed.

Lemma fifo_ids id : id ∈ (fifo m (dq_namespace q)).*1 → 1 ≤ id < dq_next_id q.
Proof.
  intros ([i v] & -> & Hin)%list_elem_of_fmap. apply elem_of_fifo in Hin as [Hid Hm].
  destruct Hq as [? Hk]. destruct (Hk (u64_be i)) as (j & Hj & ?); [by eexists|].
  apply u64_be_inj in Hj; [by subst|arith|arith].
Qed.

Lemma fifo_put_last payload :
  fifo (st_put m (dq_namespace q) (u64_be (dq_next_id q)) payload) (dq_namespace q) =
  fifo m (dq_namespace q) ++ [(dq_next_id q, payload)].
Proof.
  unfold fifo. rewrite st_put_eq, entries_insert_last.
  - rewrite fmap_app. simpl. rewrite u64_be_val; [done|]. destruct Hq; arith.
  - destruct Hq as [? Hk]. intros k (id & -> & Hid)%Hk. unfold bytes_lt.
    rewrite u64_be_cmp by arith. apply Z.compare_lt_iff. lia.
Qed.

Lemma fifo_put_existing id payload :
  u64_ok id → id ∈ (fifo m (dq_namespace q)).*1 →
  fifo (st_put m (dq_namespace q) (u64_be id) payload) (dq_namespace q) =
  fifo_after 0 (QUpdate id payload) (fifo m (dq_namespace q)).
Proof.
  intros Hid ([i v] & -> & Hin)%list_elem_of_fmap. simpl in *. apply elem_of_fifo in Hin as [_ Hm].
  unfold fifo. rewrite st_put_eq, entries_insert_existing by (by eexists).
  rewrite <-!list_fmap_compose. apply list_fmap_ext. intros n p Hp. apply list_elem_of_lookup_2 in Hp.
  apply elem_of_entries_key, queue_key in Hp as [He Hok]. simpl. case_decide as Hd.
  - rewrite Hd. cbn [fst snd]. rewrite u64_be_val by done. by rewrite decide_True.
  - rewrite decide_False; [done|]. intros Heq. apply Hd. by rewrite <-Heq.
Qed.

Lemma fifo_delete id :
  u64_ok id →
  fifo (st_delete m (dq_namespace q) (u64_be id)) (dq_namespace q) =
  filter (λ p, p.1 ≠ id) (fifo m (dq_namespace q)).
Proof.
  intros Hid. unfold fifo. rewrite st_delete_eq, entries_delete.
  assert (∀ p, p ∈ entries (m (dq_namespace q)) → u64_be (be_val p.1) = p.1) as Hp.
  { intros p Hp. by apply queue_key, elem_of_entries_key. }
  induction (entries (m (dq_namespace q))) as [|p l IH]; [done|].
  rewrite fmap_cons, !filter_cons. simpl.
  destruct (decide (p.1 = u64_be id)) as [He|He].
  - rewrite !decide_False.
    + apply IH. intros r Hr. apply Hp, elem_of_cons. by right.
    + rewrite He, u64_be_val by done. naive_solver.
    + naive_solver.
  - rewrite !decide_True; [|by intros Heq; apply He; rewrite <-Heq, Hp by (apply elem_of_cons; by left)|done].
    rewrite fmap_cons. f_equal. apply IH. intros r Hr. apply Hp, elem_of_cons. by right.
Qed.
End fifo_facts.

Lemma queue_ok_delete m q k : queue_ok m q → queue_ok (st_delete m (dq_namespace q) k) q.
Proof.
  intros [? Hk]. split; [done|]. intros k'. rewrite st_delete_eq. intros [v Hv].
  apply Hk. apply lookup_delete_Some in Hv as [_ ?]. by eexists.
Qed.

Lemma queue_ok_put m q id payload :
  queue_ok m q → 1 ≤ id < dq_next_id q → queue_ok (st_put m (dq_namespace q) (u64_be id) payload) q.
Proof.
  intros [? Hk] Hid. split; [done|]. intros k'. rewrite st_put_eq. intros [v Hv].
  apply lookup_insert_Some in Hv as [[<- _]|[_ ?]]; [by exists id|]. apply Hk. by eexists.
Qed.

Lemma queue_ok_ext m m' q : m' ≡ m → queue_ok m q → queue_ok m' q.
Proof. intros He [? Hk]. split; [done|]. intros k. rewrite (He (dq_namespace q)). apply Hk. Qed.

Lemma fifo_ext m m' ns : m' ≡ m → fifo m' ns = fifo m ns.
Proof. intros He. unfold fifo. by rewrite (He ns). Qed.

(** Deleting a list of keys. *)
Lemma fifo_ack m q ids :
  queue_ok m q → Forall u64_ok ids →
  queue_ok (st_ops m (Delete (dq_namespace q) <$> (u64_be <$> ids))) q ∧
  fifo (st_ops m (Delete (dq_namespace q) <$> (u64_be <$> ids))) (dq_namespace q) =
    filter (λ p, p.1 ∉ ids) (fifo m (dq_namespace q)).
Proof.
  intros Hq Hids. revert m Hq. induction Hids as [|id ids Hid _ IH]; intros m Hq.
  - simpl. split; [done|]. symmetry. apply filter_all. intros p _. apply not_elem_of_nil.
  - destruct (IH (st_delete m (dq_namespace q) (u64_be id))) as [Hq' Hf]; [by apply queue_ok_delete|].
    change (Delete (dq_namespace q) <$> (u64_be <$> id :: ids)) with
      (Delete (dq_namespace q) (u64_be id) :: (Delete (dq_namespace q) <$> (u64_be <$> ids))).
    unfold st_ops in *. cbn [foldl st_op]. split; [done|]. rewrite Hf, fifo_delete, list_filter_filter by done.
    apply filter_ext. intros p _. rewrite not_elem_of_cons. tauto.
Qed.

Lemma last_id_fifo m q :
  queue_ok m q → last_id (entries (m (dq_namespace q))) = fst <$> last (fifo m (dq_namespace q)).
Proof.
  intros Hq. unfold last_id, fifo. rewrite fmap_last.
  destruct (last (entries (m (dq_namespace q)))) as [p|] eqn:Hl; [|done]. simpl.
  apply last_Some_elem_of, elem_of_entries_key in Hl. destruct Hq as [_ Hk].
  apply Hk in Hl as (id & -> & _). done.
Qed.

Lemma numbered_last l p : numbered l → last l = Some p → ∀ r, r ∈ l → r.1 ≤ p.1.
Proof.
  intros Hn (l' & ->)%last_Some r [Hr|Hr%list_elem_of_singleton]%elem_of_app; [|by subst].
  apply StronglySorted_app in Hn as (Hlt & _ & _).
  assert (r.1 < p.1); [|lia]. apply Hlt; [done|]. by apply list_elem_of_singleton.
Qed.

(** ** The operations implement the abstract queue *)

Section refinement.
Context {S : Type} `{StorageLaws S}.

Lemma reserve_key_ok q :
  dq_next_id q < u64_max → 0 ≤ dq_next_id q →
  reserve_key q = (Ok (u64_be (dq_next_id q)),
                   mkDurableQueue (dq_namespace q) (dq_cap q) (dq_next_id q + 1)).
Proof.
  intros. unfold reserve_key, take_next, checked_add_u64.
  by rewrite (proj2 (Z.leb_le _ _)) by lia.
Qed.

Lemma reserve_key_exhausted q : u64_max ≤ dq_next_id q → reserve_key q = (Err exhausted, q).
Proof.
  intros. unfold reserve_key, take_next, checked_add_u64.
  rewrite (proj2 (Z.leb_gt _ _)) by lia. by destruct q.
Qed.

Lemma recover_ok (s : S) q next :
  queue_ok (contents s) q → recover_next_id s (dq_namespace q) = Ok next →
  next = default 1 (Z.succ ∘ fst <$> last (fifo (contents s) (dq_namespace q))) ∧
  queue_ok (contents s) (mkDurableQueue (dq_namespace q) (dq_cap q) next).
Proof.
  intros Hq. unfold recover_next_id. destruct (se_scan_range _ _ _ _) as [l|] eqn:Hs; [|done].
  apply scan_range_ok in Hs as [-> Hlen]. rewrite takeZ_all, st_scan_from_nil by done. simpl.
  rewrite last_id_fifo by done. pose proof (fifo_numbered _ _ Hq) as Hn.
  pose proof (fifo_ids _ _ Hq) as Hids. pose proof (elem_of_fifo _ _ Hq) as Hel.
  destruct (last (fifo (contents s) (dq_namespace q))) as [[id v]|] eqn:Hlast; simpl.
  - assert (1 ≤ id < dq_next_id q) as Hid.
    { apply Hids, list_elem_of_fmap. exists (id, v). split; [done|]. by apply last_Some_elem_of. }
    pose proof (proj1 Hq). unfold checked_add_u64. rewrite (proj2 (Z.leb_le _ _)) by lia. simpl.
    intros [= <-]. split; [lia|]. split; [simpl; lia|]. simpl. intros k Hk.
    destruct (proj2 Hq k Hk) as (i & -> & Hi). exists i. split; [done|].
    destruct Hk as [w Hw]. assert ((i, w) ∈ fifo (contents s) (dq_namespace q)) as Hin.
    { apply Hel. split; [arith|done]. }
    pose proof (numbered_last _ _ Hn Hlast _ Hin). simpl in *. lia.
  - intros [= <-]. split; [done|]. split; [simpl; arith|]. simpl. intros k Hk.
    destruct (proj2 Hq k Hk) as (i & -> & Hi). destruct Hk as [w Hw].
    assert ((i, w) ∈ fifo (contents s) (dq_namespace q)) as Hin.
    { apply Hel. split; [pose proof (proj1 Hq); arith|done]. }
    apply last_None in Hlast. rewrite Hlast in Hin. by apply elem_of_nil in Hin.
Qed.

(** Room is what the count says. *)
Lemma ensure_room_ok (s : S) q n :
  0 ≤ n → queue_ok (contents s) q → ensure_room s q n = Ok tt → dq_cap q < u64_max →
  Z.of_nat (length (fifo (contents s) (dq_namespace q))) + n ≤ dq_cap q.
Proof.
  intros Hn Hq. unfold ensure_room, dq_len. destruct (se_count _ _) as [c|] eqn:Hc; [|done]. simpl.
  apply count_ok in Hc as [-> _]. rewrite fifo_length. unfold saturating_add_u64.
  destruct (Z.ltb_spec (dq_cap q) (Z.min (Z.of_nat (size (contents s (dq_namespace q))) + n) u64_max)); [done|].
  lia.
Qed.

Lemma enqueue_refines (s s' : S) q q' payload r :
  queue_ok (contents s) q → enqueue s q payload = (r, (s', q')) →
  dq_namespace q' = dq_namespace q ∧ dq_cap q' = dq_cap q ∧ queue_ok (contents s') q' ∧
  (fifo (contents s') (dq_namespace q) =
     fifo_after (dq_next_id q) (QEnqueue payload) (fifo (contents s) (dq_namespace q)) ∧
   dq_next_id q' = dq_next_id q + 1 ∨
   (∃ e, r = Err e) ∧ fifo (contents s') (dq_namespace q) = fifo (contents s) (dq_namespace q)).
Proof.
  intros Hq. unfold enqueue. destruct (ensure_room s q 1) as [|e]; [|intros [= <- <- <-]; eauto 10].
  destruct (Z.le_gt_cases u64_max (dq_next_id q)) as [Hn|Hn].
  { rewrite reserve_key_exhausted by done. intros [= <- <- <-]. eauto 10. }
  rewrite reserve_key_ok by (destruct Hq; lia). cbn [dq_namespace].
  set (q1 := mkDurableQueue _ _ _).
  assert (queue_ok (contents s) q1) as Hq1.
  { destruct Hq as [? Hk]. split; [simpl; lia|]. intros k (i & -> & ?)%Hk. exists i. simpl. split; [done|lia]. }
  assert (queue_ok (st_put (contents s) (dq_namespace q) (u64_be (dq_next_id q)) payload) q1) as Hq2.
  { apply (queue_ok_put (contents s) q1); [done|]. destruct Hq; simpl; lia. }
  destruct (se_put _ _ _ _) as [[[]|e] s1] eqn:Hput; intros [= <- <- <-]; repeat (split; [done|]).
  - apply put_ok in Hput. split; [by eapply queue_ok_ext|]. left. split; [|done].
    rewrite (fifo_ext _ _ _ Hput). by apply fifo_put_last.
  - apply put_err in Hput as [Hput|Hput]; (split; [by eapply queue_ok_ext|]); [right|left].
    + split; [by eexists|]. by apply fifo_ext.
    + split; [|done]. rewrite (fifo_ext _ _ _ Hput). by apply fifo_put_last.
Qed.

Lemma queue_run_refines (s s' : S) q q' op r :
  queue_ok (contents s) q → op_valid (fifo (contents s) (dq_namespace q)) op →
  queue_run (s, q) op = (r, (s', q')) →
  dq_namespace q' = dq_namespace q ∧ dq_cap q' = dq_cap q ∧ queue_ok (contents s') q' ∧
  (fifo (contents s') (dq_namespace q) =
     fifo_after (dq_next_id q) op (fifo (contents s) (dq_namespace q)) ∨
   (∃ e, r = Err e) ∧ fifo (contents s') (dq_namespace q) = fifo (contents s) (dq_namespace q)).
Proof.
  intros Hq Hv. destruct op as [payload|ids|id payload|]; unfold queue_run.
  - intros He. destruct (enqueue_refines s s' q q' payload r Hq He) as (?&?&?&Hf). naive_solver.
  - destruct (fifo_ack (contents s) q ids Hq Hv) as [Hq' Hf].
    unfold dq_ack_keys. destruct ids as [|id ids]; cbn [fmap list_fmap].
    { intros [= <- <- <-]. repeat (split; [done|]). left. symmetry. apply filter_all.
      intros p _. apply not_elem_of_nil. }
    change (u64_be id :: (u64_be <$> ids)) with (u64_be <$> (id :: ids)).
    destruct (se_batch_write _ _) as [[[]|e] s1] eqn:Hb; intros [= <- <- <-]; repeat (split; [done|]).
    + apply batch_ok in Hb. split; [by eapply queue_ok_ext|]. left. rewrite (fifo_ext _ _ _ Hb). exact Hf.
    + apply batch_err in Hb as [Hb|Hb]; (split; [by eapply queue_ok_ext|]).
      * right. split; [by eexists|]. by apply fifo_ext.
      * left. rewrite (fifo_ext _ _ _ Hb). exact Hf.
  - destruct Hv as [Hid Hin]. pose proof (fifo_ids _ _ Hq _ Hin).
    pose proof (fifo_put_existing _ _ Hq id payload Hid Hin) as Hf.
    pose proof (queue_ok_put _ _ id payload Hq ltac:(lia)) as Hq'.
    unfold dq_update_entry. destruct (se_put _ _ _ _) as [[[]|e] s1] eqn:Hp;
      intros [= <- <- <-]; repeat (split; [done|]).
    + apply put_ok in Hp. split; [by eapply queue_ok_ext|]. left. by rewrite (fifo_ext _ _ _ Hp).
    + apply put_err in Hp as [Hp|Hp]; (split; [by eapply queue_ok_ext|]).
      * right. split; [by eexists|]. by apply fifo_ext.
      * left. by rewrite (fifo_ext _ _ _ Hp).
  - unfold open_with_cap. destruct (recover_next_id _ _) as [next|e] eqn:Hr; simpl;
      intros [= <- <- <-]; [|eauto 10].
    apply (recover_ok s q next Hq) in Hr as [_ Hq']. eauto 10.
Qed.

(** C19: the durable queue implements a FIFO list.  In a queue whose stored keys are
    numbers below its counter, whatever operation runs next (an enqueue, an
    acknowledgement, an in-place update of a pending entry, a restart), the
    stored entries afterwards are the entries before with a new one appended
    under a larger number, with the acknowledged ones removed, with one payload
    replaced, or unchanged; an operation that reports an error did this or
    nothing.  The numbers increase along the queue, a drain reads an initial
    segment of it, and the same holds for the operation after that. *)
Theorem outbound_fifo (s s' : S) q q' op r :
  queue_ok (contents s) q → op_valid (fifo (contents s) (dq_namespace q)) op →
  queue_run (s, q) op = (r, (s', q')) →
  queue_ok (contents s') q' ∧ numbered (fifo (contents s') (dq_namespace q')) ∧
  (fifo (contents s') (dq_namespace q') =
     fifo_after (dq_next_id q) op (fifo (contents s) (dq_namespace q)) ∨
   (∃ e, r = Err e) ∧ fifo (contents s') (dq_namespace q') = fifo (contents s) (dq_namespace q)) ∧
  (∀ limit rows, dq_drain_batch s' q' limit = Ok rows →
     (λ p, (be_val p.1, p.2)) <$> rows = takeZ limit (fifo (contents s') (dq_namespace q'))).
Proof.
  intros Hq Hv Hrun. destruct (queue_run_refines s s' q q' op r Hq Hv Hrun) as (Hns & _ & Hq' & Hf).
  split; [done|]. split; [by apply fifo_numbered|]. rewrite Hns. split; [done|].
  intros limit rows. unfold dq_drain_batch. intros [-> _]%scan_range_ok.
  rewrite st_scan_from_nil, !takeZ_take, Hns. unfold fifo. by rewrite fmap_take.
Qed.
End refinement.

(** ** Backpressure *)

Section backpressure.
Context {S : Type} `{StorageProgress S}.

(** C37: when an enqueue is refused.  On a store whose operations succeed, an
    enqueue is refused exactly when the queue is at its cap or the key counter is
    exhausted; the refusal is [Backpressure] and leaves the stored entries and the
    counter as they were.  Otherwise the enqueue succeeds, appends the payload
    under the counter's number, and the queue is still within its cap.  The
    failure policy lets exactly this refusal through to the writer. *)
Theorem outbound_backpressure (s : S) q payload :
  healthy s → queue_ok (contents s) q → 0 ≤ dq_cap q < u64_max →
  let full := dq_cap q ≤ Z.of_nat (length (fifo (contents s) (dq_namespace q))) ∨
              dq_next_id q = u64_max in
  let '(r, (s', q')) := enqueue s q payload in
  (full → r = Err Backpressure ∧ s' = s ∧ q' = q ∧
          reconcile_outbound_enqueue r = Err Backpressure) ∧
  (¬ full → r = Ok tt ∧ dq_next_id q' = dq_next_id q + 1 ∧
            fifo (contents s') (dq_namespace q) =
              fifo (contents s) (dq_namespace q) ++ [(dq_next_id q, payload)] ∧
            Z.of_nat (length (fifo (contents s') (dq_namespace q))) ≤ dq_cap q) ∧
  (∀ e, e ≠ Backpressure → reconcile_outbound_enqueue (Err e) = Ok tt).
Proof.
  intros Hh Hq Hcap full.
  destruct (enqueue s q payload) as [r [s' q']] eqn:Hrun.
  assert (∀ e, e ≠ Backpressure → reconcile_outbound_enqueue (Err e) = Ok tt) as Hpol
    by (by intros []).
  assert (full ∨ ¬ full) as Hdec by (unfold full; lia).
  unfold enqueue, ensure_room, dq_len in Hrun.
  destruct (healthy_count s (dq_namespace q) Hh) as [n Hn]. rewrite Hn in Hrun.
  apply count_ok in Hn as [-> Hmax]. rewrite <-fifo_length in Hrun, Hmax. simpl in Hrun.
  unfold saturating_add_u64 in Hrun.
  destruct (Z.ltb_spec (dq_cap q)
    (Z.min (Z.of_nat (length (fifo (contents s) (dq_namespace q))) + 1) u64_max)) as [Hfull|Hroom].
  { simplify_eq. split; [done|]. split; [|done]. intros Hno. destruct Hno. left. lia. }
  destruct (Z.eq_dec (dq_next_id q) u64_max) as [Hx|Hx].
  { rewrite reserve_key_exhausted in Hrun by lia. simplify_eq.
    split; [done|]. split; [|done]. intros Hno. destruct Hno. by right. }
  rewrite reserve_key_ok in Hrun by (destruct Hq; lia). cbn [dq_namespace] in Hrun.
  destruct (healthy_put s (dq_namespace q) (u64_be (dq_next_id q)) payload Hh) as [s1 Hput].
  rewrite Hput in Hrun. simplify_eq. apply put_ok in Hput.
  assert (fifo (contents s') (dq_namespace q) =
    fifo (contents s) (dq_namespace q) ++ [(dq_next_id q, payload)]) as Hf.
  { rewrite (fifo_ext _ _ _ Hput). by apply fifo_put_last. }
  split; [intros [?|?]; lia|]. split; [|done]. intros _. repeat (split; [done|]).
  rewrite Hf, length_app. simpl. lia.
Qed.
End backpressure.

(** ** Restarts *)

Section restart.
Context {S : Type} `{StorageLaws S}.

(** The key counter does regress across a restart.  When the newest entry is
    enqueued, acknowledged and the queue is then reopened, the counter starts one
    above the newest entry still stored (at 1 in an empty queue), at or below the
    number the acknowledged entry had: that number is assigned again. *)
Theorem next_id_regresses (s s1 s2 : S) q q1 q2 payload :
  queue_ok (contents s) q →
  enqueue s q payload = (Ok tt, (s1, q1)) →
  dq_ack_keys s1 q1 [u64_be (dq_next_id q)] = (Ok tt, s2) →
  open_with_cap s2 (dq_namespace q) (dq_cap q) = Ok q2 →
  dq_next_id q2 = default 1 (Z.succ ∘ fst <$> last (fifo (contents s) (dq_namespace q))) ∧
  dq_next_id q2 ≤ dq_next_id q < dq_next_id q1.
Proof.
  intros Hq Henq Hack Hopen.
  destruct (enqueue_refines s s1 q q1 payload _ Hq Henq) as (Hns & Hcap & Hq1 & [[Hf Hn]|[[? ?] _]]); [|done].
  assert (u64_ok (dq_next_id q)) as Hid by (destruct Hq; arith).
  destruct (queue_run_refines s1 s2 q1 q1 (QAck [dq_next_id q]) (Ok tt)) as (_ & _ & Hq2 & Hf2);
    [done|by constructor|unfold queue_run; cbn [fmap list_fmap]; by rewrite Hack|].
  destruct Hf2 as [Hf2|[[? ?] _]]; [|done].
  assert (fifo (contents s2) (dq_namespace q) = fifo (contents s) (dq_namespace q)) as Heq.
  { rewrite <-Hns, Hf2, Hns, Hf. cbn [fifo_after]. rewrite filter_app. rewrite filter_all, filter_none.
    - by rewrite app_nil_r.
    - intros p ->%list_elem_of_singleton. simpl. set_solver.
    - intros p Hp Hin%list_elem_of_singleton.
      assert (p.1 ∈ (fifo (contents s) (dq_namespace q)).*1) as Hp1 by (by apply list_elem_of_fmap_2).
      apply (fifo_ids _ _ Hq) in Hp1. lia. }
  unfold open_with_cap in Hopen. destruct (recover_next_id _ _) as [next|] eqn:Hr; [|done].
  simpl in Hopen. injection Hopen as <-. simpl. rewrite <-Hns in Hr.
  apply (recover_ok s2 q1 next Hq2) in Hr as [-> _]. rewrite Hns, Heq.
  split; [done|]. split; [|lia].
  pose proof (proj1 Hq). pose proof (fifo_ids _ _ Hq) as Hids.
  destruct (last _) as [[i v]|] eqn:Hl; simpl; [|lia].
  assert (1 ≤ i < dq_next_id q); [|lia]. apply Hids, list_elem_of_fmap. exists (i, v).
  split; [done|]. by apply last_Some_elem_of.
Qed.
End restart.

(** ** A queue in memory *)

Definition ex_queue (next : Z) : DurableOutboundQueue := mkDurableQueue KvPushPending 2 next.

Lemma ex_queue_ok : queue_ok (contents (∅ : MemDb)) (ex_queue 1).
Proof.
  split; [by vm_compute|]. intros k. rewrite mem_empty_contents, lookup_empty. by intros [? ?].
Qed.

Lemma ex_fifo : fifo (contents (∅ : MemDb)) KvPushPending = [].
Proof. unfold fifo. by rewrite mem_empty_contents, entries_empty. Qed.

Lemma split_result {R A B : Type} (p : R * (A * B)) r b :
  p.1 = r → p.2.2 = b → p = (r, (p.2.1, b)).
Proof. destruct p as [? [? ?]]; simpl; by intros -> ->. Qed.

Lemma pair_result {A B : Type} (p : A * B) a : p.1 = a → p = (a, p.2).
Proof. by destruct p; simpl; intros ->. Qed.

Definition ex_s1 : MemDb := (enqueue (∅ : MemDb) (ex_queue 1) (bs "put")).2.1.

Lemma ex_enqueue : enqueue (∅ : MemDb) (ex_queue 1) (bs "put") = (Ok tt, (ex_s1, ex_queue 2)).
Proof. apply split_result; vm_compute; reflexivity. Qed.

Lemma ex_s1_fifo : queue_ok (contents ex_s1) (ex_queue 2) ∧
  fifo (contents ex_s1) KvPushPending = [(1, bs "put")].
Proof.
  destruct (enqueue_refines _ _ _ _ _ _ ex_queue_ok ex_enqueue) as (_ & _ & Hq & [[Hf _]|[[e ?] _]]);
    [|done]. split; [done|]. etrans; [exact Hf|]. cbn [fifo_after ex_queue dq_namespace dq_next_id].
  by rewrite ex_fifo.
Qed.

Definition ex_s2 : MemDb := (dq_ack_keys ex_s1 (ex_queue 2) [u64_be 1]).2.

Lemma ex_ack_keys : dq_ack_keys ex_s1 (ex_queue 2) [u64_be 1] = (Ok tt, ex_s2).
Proof. apply pair_result. vm_compute. reflexivity. Qed.

Lemma ex_ack : queue_run (ex_s1, ex_queue 2) (QAck [1]) = (Ok tt, (ex_s2, ex_queue 2)).
Proof. unfold queue_run. cbn [fmap list_fmap]. by rewrite ex_ack_keys. Qed.

Lemma outbound_fifo_witness : fifo (contents ex_s2) KvPushPending = [].
Proof.
  destruct ex_s1_fifo as [Hq Hf].
  assert (op_valid (fifo (contents ex_s1) (dq_namespace (ex_queue 2))) (QAck [1])) as Hv.
  { apply Forall_singleton. arith. }
  pose proof (outbound_fifo ex_s1 ex_s2 (ex_queue 2) (ex_queue 2) (QAck [1]) (Ok tt) Hq Hv ex_ack)
    as (_ & _ & [Ha|[[e ?] _]] & _); [|done].
  cbn [ex_queue dq_namespace] in *. by rewrite Ha, Hf.
Defined.

Lemma outbound_backpressure_witness :
  (enqueue (∅ : MemDb) (ex_queue 1) (bs "put")).1 = Ok tt ∧
  (enqueue (∅ : MemDb) (mkDurableQueue KvPushPending 0 1) (bs "put")).1 = Err Backpressure.
Proof.
  assert (healthy (∅ : MemDb)) as Hh by by vm_compute.
  pose proof (outbound_backpressure (∅ : MemDb) (ex_queue 1) (bs "put") Hh ex_queue_ok
    ltac:(by vm_compute)) as H1.
  pose proof (outbound_backpressure (∅ : MemDb) (mkDurableQueue KvPushPending 0 1) (bs "put") Hh
    ex_queue_ok ltac:(by vm_compute)) as H2.
  cbn [ex_queue dq_namespace dq_cap dq_next_id] in H1, H2. rewrite ex_fifo in H1, H2.
  destruct (enqueue (∅ : MemDb) (ex_queue 1) (bs "put")) as [r1 [? ?]].
  destruct (enqueue (∅ : MemDb) (mkDurableQueue KvPushPending 0 1) (bs "put")) as [r2 [? ?]].
  destruct H1 as (_ & H1 & _), H2 as (H2 & _ & _). split.
  - apply H1. unfold u64_max. cbn [length]. intros [?|?]; lia.
  - apply H2. left. lia.
Defined.

Lemma next_id_regresses_witness :
  rmap dq_next_id (open_with_cap ex_s2 KvPushPending 2) = Ok 1.
Proof.
  assert (∃ q, open_with_cap ex_s2 KvPushPending 2 = Ok q) as [q Hq].
  { eexists. vm_compute. reflexivity. }
  pose proof (next_id_regresses (∅ : MemDb) ex_s1 ex_s2 (ex_queue 1) (ex_queue 2) q (bs "put")
    ex_queue_ok ex_enqueue ex_ack_keys Hq) as [Hn _].
  rewrite Hq. cbn [rmap]. f_equal. rewrite Hn. cbn [ex_queue dq_namespace]. by rewrite ex_fifo.
Defined.
