(* ===== verification/Outbound.v ===== *)
(** * Engine outbound queues, push and acknowledgement

    [src/nodedb-lite/src/sync/outbound/kv.rs], [columnar.rs], [vector.rs] and
    [timeseries.rs], the delegate functions over them
    ([src/nodedb-lite/src/nodedb/sync_delegate/]), the push functions
    ([src/nodedb-lite/src/sync/transport/push/]) and the handlers of Origin's
    acknowledgements ([src/nodedb-lite/src/sync/transport/dispatch_kv.rs],
    [dispatch_acks.rs]).

    The queues share one storage with the stream frontiers of [StreamSeq.v].
    MessagePack ([zerompk]), the frame encoder, [stream_id_for] and the metadata
    of a collection are parameters.  A connection is a list of outcomes, one per
    frame that will be sent on it, and the list of frames that went out. *)

From Stdlib Require Import ZArith Lia Strings.Byte.
From stdpp Require Import prelude gmap strings sorting.
From S2P Require Import Prelude Bytes Ordered StorageTrait Pagedb PagedbMem.
From S2P Require Import StreamSeq OutboundQueue.

Local Open Scope Z_scope.

#[local] Arguments be_val : simpl never.
#[local] Arguments be_bytes : simpl never.

(** [zerompk::to_msgpack_vec] and [from_msgpack] of a type. *)
Class MsgPack (A : Type) := {
  msgpack : A → option bytes;
  unmsgpack : bytes → option A
}.
(** What is encoded decodes to itself. *)
Class MsgPackLaws (A : Type) `{MsgPack A} : Prop :=
  msgpack_roundtrip (a : A) b : msgpack a = Some b → unmsgpack b = Some a.

Definition PUSH_DRAIN_LIMIT : Z := 256.

(** ** Pending entries *)

Inductive PendingKvOp := KPut (row : bytes) (expire_at_ms : Z) | KDelete.

(** The wire form of a write. *)
Inductive KvPushOp := WPut (row : bytes) (expire_at_ms : Z) | WDelete.

Definition kv_to_wire (op : PendingKvOp) : KvPushOp :=
  match op with
  | KPut row expire => WPut row expire
  | KDelete => WDelete
  end.

Record PendingKvWrite := mkPendingKvWrite {
  kw_collection : bytes;
  kw_key : bytes;
  kw_op : PendingKvOp;
  kw_seq : Z
}.

Definition PendingKvWrite_new (collection key : bytes) (op : PendingKvOp) : PendingKvWrite :=
  mkPendingKvWrite collection key op 0.

(** [Val] is the column value type. *)
Record PendingColumnarBatch (Val : Type) := mkColumnarBatch {
  cb_batch_id : Z;
  cb_collection : bytes;
  cb_rows : list (list Val);
  cb_schema_bytes : bytes;
  cb_seq : Z
}.
Arguments mkColumnarBatch {Val}.
Arguments cb_batch_id {Val}.
Arguments cb_collection {Val}.
Arguments cb_rows {Val}.
Arguments cb_schema_bytes {Val}.
Arguments cb_seq {Val}.

Record PendingTimeseriesBatch (Val : Type) := mkTimeseriesBatch {
  tb_batch_id : Z;
  tb_collection : bytes;
  tb_column_names : list bytes;
  tb_rows : list (list Val);
  tb_seq : Z
}.
Arguments mkTimeseriesBatch {Val}.
Arguments tb_batch_id {Val}.
Arguments tb_collection {Val}.
Arguments tb_column_names {Val}.
Arguments tb_rows {Val}.
Arguments tb_seq {Val}.

(** A vector component is the 32-bit pattern of an [f32]. *)
Record PendingVectorInsert := mkVectorInsert {
  vi_batch_id : Z;
  vi_collection : bytes;
  vi_id : bytes;
  vi_vector : list Z;
  vi_dim : Z;
  vi_field_name : bytes;
  vi_seq : Z
}.

Record PendingVectorDelete := mkVectorDelete {
  vd_batch_id : Z;
  vd_collection : bytes;
  vd_id : bytes;
  vd_field_name : bytes;
  vd_seq : Z
}.

(** ** Queues *)

Record KvOutbound := mkKvOutbound {
  ko_durable : DurableOutboundQueue;
  ko_in_flight : gset Z
}.

Record ColumnarOutbound := mkColumnarOutbound {
  co_queue : DurableOutboundQueue;
  co_ids : Z;
  co_in_flight : gmap Z bytes
}.

Record InFlightBatch := mkInFlightBatch { if_batch_id : Z; if_durable_key : bytes }.

Record TimeseriesOutbound := mkTimeseriesOutbound {
  to_queue : DurableOutboundQueue;
  to_ids : Z;
  to_in_flight : gmap Z InFlightBatch
}.

Record VectorOutbound := mkVectorOutbound {
  vo_inserts : DurableOutboundQueue;
  vo_deletes : DurableOutboundQueue;
  vo_ids : Z;
  vo_in_flight_inserts : gmap Z bytes;
  vo_in_flight_deletes : gmap Z bytes
}.

(** The batch id of a KV entry is its key. *)
Definition kv_batch_id (durable_key : bytes) : res Z :=
  if (length durable_key =? 8)%nat then Ok (be_val durable_key) else Err Serialization.

(** The loop shared by the drains: skip what is in flight, decode the rest. *)
Definition drain_step {A} `{MsgPack A} (skip : bytes → res bool) (out : list (bytes * A))
    (row : KvPair) : res (list (bytes * A)) :=
  let? in_flight := skip row.1 in
  if (in_flight : bool) then Ok out
  else let? a := ok_or (unmsgpack row.2) Serialization in Ok (out ++ [(row.1, a)]).

Definition drain_decode {A} `{MsgPack A} (skip : bytes → res bool) (pairs : list KvPair)
    : res (list (bytes * A)) :=
  rfold (drain_step skip) [] pairs.

(** Is this the durable key of an in-flight entry? *)
Definition key_in_flight (in_flight : gmap Z bytes) (key : bytes) : bool :=
  existsb (λ k, bool_decide (k = key)) (map_to_list in_flight).*2.

Section queues.
Context {S : Type} `{StorageEngine S}.
Context {Val : Type}.
Context `{MsgPack PendingKvWrite} `{MsgPack (PendingColumnarBatch Val)}.
Context `{MsgPack (PendingTimeseriesBatch Val)}.
Context `{MsgPack PendingVectorInsert} `{MsgPack PendingVectorDelete}.

(** *** KV *)

Definition kv_open_with_cap (s : S) (cap : Z) : res KvOutbound :=
  let? durable := open_with_cap s KvPushPending cap in Ok (mkKvOutbound durable ∅).

Definition kv_open (s : S) : res KvOutbound := kv_open_with_cap s DEFAULT_CAP.

Definition kv_enqueue (s : S) (q : KvOutbound) (write : PendingKvWrite)
    : res unit * (S * KvOutbound) :=
  match msgpack write with
  | None => (Err Serialization, (s, q))
  | Some payload =>
      let '(r, (s, d)) := enqueue s (ko_durable q) payload in
      (r, (s, mkKvOutbound d (ko_in_flight q)))
  end.

Definition kv_ensure_room (s : S) (q : KvOutbound) (writes : Z) : res unit :=
  ensure_room s (ko_durable q) writes.

Definition kv_drain (s : S) (q : KvOutbound) (limit : Z) : res (list (bytes * PendingKvWrite)) :=
  let? pairs := dq_drain_batch s (ko_durable q) limit in
  drain_decode (λ key, let? id := kv_batch_id key in Ok (bool_decide (id ∈ ko_in_flight q))) pairs.

Definition kv_mark_in_flight (q : KvOutbound) (batch_id : Z) : KvOutbound :=
  mkKvOutbound (ko_durable q) ({[batch_id]} ∪ ko_in_flight q).

Definition kv_retire (s : S) (q : KvOutbound) (batch_id : Z) : res unit * (S * KvOutbound) :=
  let q := mkKvOutbound (ko_durable q) (ko_in_flight q ∖ {[batch_id]}) in
  let '(r, s) := dq_ack_keys s (ko_durable q) [u64_be batch_id] in (r, (s, q)).

Definition kv_clear_in_flight (q : KvOutbound) : KvOutbound := mkKvOutbound (ko_durable q) ∅.

Definition kv_update_entry (s : S) (q : KvOutbound) (durable_key : bytes) (write : PendingKvWrite)
    : res unit * S :=
  match msgpack write with
  | None => (Err Serialization, s)
  | Some payload => dq_update_entry s (ko_durable q) durable_key payload
  end.

Definition kv_pending_count (s : S) (q : KvOutbound) : res Z := dq_len s (ko_durable q).

(** *** Columnar *)

Definition col_open_with_cap (s : S) (cap : Z) : res ColumnarOutbound :=
  let? queue := open_with_cap s ColumnarPending cap in Ok (mkColumnarOutbound queue 1 ∅).

Definition col_open (s : S) : res ColumnarOutbound := col_open_with_cap s DEFAULT_CAP.

Definition col_enqueue_row (s : S) (q : ColumnarOutbound) (collection : bytes) (row : list Val)
    (schema_bytes : bytes) : res unit * (S * ColumnarOutbound) :=
  let batch_id := co_ids q in
  let q := mkColumnarOutbound (co_queue q) (wrap_u64 (batch_id + 1)) (co_in_flight q) in
  let batch := mkColumnarBatch batch_id collection [row] schema_bytes 0 in
  match msgpack batch with
  | None => (Err Serialization, (s, q))
  | Some payload =>
      let '(r, (s, d)) := enqueue s (co_queue q) payload in
      (r, (s, mkColumnarOutbound d (co_ids q) (co_in_flight q)))
  end.

Definition col_drain_batch (s : S) (q : ColumnarOutbound) (limit : Z)
    : res (list (bytes * PendingColumnarBatch Val)) :=
  let? pairs := dq_drain_batch s (co_queue q) limit in
  drain_decode (λ key, Ok (key_in_flight (co_in_flight q) key)) pairs.

Definition col_mark_in_flight (q : ColumnarOutbound) (batch_id : Z) (durable_key : bytes)
    : ColumnarOutbound :=
  mkColumnarOutbound (co_queue q) (co_ids q) (<[batch_id := durable_key]> (co_in_flight q)).

Definition col_ack_in_flight (q : ColumnarOutbound) (batch_id : Z)
    : option bytes * ColumnarOutbound :=
  (co_in_flight q !! batch_id,
   mkColumnarOutbound (co_queue q) (co_ids q) (delete batch_id (co_in_flight q))).

Definition col_clear_in_flight (q : ColumnarOutbound) : ColumnarOutbound :=
  mkColumnarOutbound (co_queue q) (co_ids q) ∅.

Definition col_ack_keys (s : S) (q : ColumnarOutbound) (keys : list bytes) : res unit * S :=
  dq_ack_keys s (co_queue q) keys.

Definition col_update_entry (s : S) (q : ColumnarOutbound) (key : bytes)
    (batch : PendingColumnarBatch Val) : res unit * S :=
  match msgpack batch with
  | None => (Err Serialization, s)
  | Some payload => dq_update_entry s (co_queue q) key payload
  end.

Definition col_len (s : S) (q : ColumnarOutbound) : res Z := dq_len s (co_queue q).
Definition col_is_empty (s : S) (q : ColumnarOutbound) : res bool := dq_is_empty s (co_queue q).

(** *** Timeseries *)

Definition ts_open_with_cap (s : S) (cap : Z) : res TimeseriesOutbound :=
  let? queue := open_with_cap s TimeseriesPending cap in Ok (mkTimeseriesOutbound queue 1 ∅).

Definition ts_open (s : S) : res TimeseriesOutbound := ts_open_with_cap s DEFAULT_CAP.

Definition ts_enqueue_row (s : S) (q : TimeseriesOutbound) (collection : bytes)
    (column_names : list bytes) (row : list Val) : res unit * (S * TimeseriesOutbound) :=
  let batch_id := to_ids q in
  let q := mkTimeseriesOutbound (to_queue q) (wrap_u64 (batch_id + 1)) (to_in_flight q) in
  let batch := mkTimeseriesBatch batch_id collection column_names [row] 0 in
  match msgpack batch with
  | None => (Err Serialization, (s, q))
  | Some payload =>
      let '(r, (s, d)) := enqueue s (to_queue q) payload in
      (r, (s, mkTimeseriesOutbound d (to_ids q) (to_in_flight q)))
  end.

Definition ts_drain_batch (s : S) (q : TimeseriesOutbound) (limit : Z)
    : res (list (bytes * PendingTimeseriesBatch Val)) :=
  let? pairs := dq_drain_batch s (to_queue q) limit in
  drain_decode (λ key, Ok (key_in_flight (if_durable_key <$> to_in_flight q) key)) pairs.

Definition ts_mark_in_flight_by_seq (q : TimeseriesOutbound) (stream_seq batch_id : Z)
    (durable_key : bytes) : TimeseriesOutbound :=
  mkTimeseriesOutbound (to_queue q) (to_ids q)
    (<[stream_seq := mkInFlightBatch batch_id durable_key]> (to_in_flight q)).

Definition ts_ack_in_flight_through_seq (q : TimeseriesOutbound) (applied_seq : Z)
    : list bytes * TimeseriesOutbound :=
  let to_ack := filter (λ p : Z * InFlightBatch, p.1 ≤ applied_seq) (map_to_list (to_in_flight q)) in
  ((λ p, if_durable_key p.2) <$> to_ack,
   mkTimeseriesOutbound (to_queue q) (to_ids q)
     (foldl (λ m p, delete p.1 m) (to_in_flight q) to_ack)).

Definition ts_ack_in_flight_by_batch_id (q : TimeseriesOutbound) (batch_id : Z)
    : option bytes * TimeseriesOutbound :=
  match List.find (λ p : Z * InFlightBatch, if_batch_id p.2 =? batch_id) (map_to_list (to_in_flight q)) with
  | None => (None, q)
  | Some (seq, _) =>
      (if_durable_key <$> to_in_flight q !! seq,
       mkTimeseriesOutbound (to_queue q) (to_ids q) (delete seq (to_in_flight q)))
  end.

Definition ts_clear_in_flight (q : TimeseriesOutbound) : TimeseriesOutbound :=
  mkTimeseriesOutbound (to_queue q) (to_ids q) ∅.

Definition ts_ack_keys (s : S) (q : TimeseriesOutbound) (keys : list bytes) : res unit * S :=
  dq_ack_keys s (to_queue q) keys.

Definition ts_update_entry (s : S) (q : TimeseriesOutbound) (key : bytes)
    (batch : PendingTimeseriesBatch Val) : res unit * S :=
  match msgpack batch with
  | None => (Err Serialization, s)
  | Some payload => dq_update_entry s (to_queue q) key payload
  end.

Definition ts_len (s : S) (q : TimeseriesOutbound) : res Z := dq_len s (to_queue q).
Definition ts_is_empty (s : S) (q : TimeseriesOutbound) : res bool := dq_is_empty s (to_queue q).

(** *** Vector: one queue for inserts, one for deletes, one id counter *)

Definition vec_open_with_cap (s : S) (cap : Z) : res VectorOutbound :=
  let? inserts := open_with_cap s VectorInsertPending cap in
  let? deletes := open_with_cap s VectorDeletePending cap in
  Ok (mkVectorOutbound inserts deletes 1 ∅ ∅).

Definition vec_open (s : S) : res VectorOutbound := vec_open_with_cap s DEFAULT_CAP.

Definition enqueue_insert (s : S) (q : VectorOutbound) (collection id : bytes) (vector : list Z)
    (dim : Z) (field_name : bytes) : res unit * (S * VectorOutbound) :=
  let '(mkVectorOutbound i d batch_id fi fd) := q in
  let ids := wrap_u64 (batch_id + 1) in
  let entry := mkVectorInsert batch_id collection id vector dim field_name 0 in
  match msgpack entry with
  | None => (Err Serialization, (s, mkVectorOutbound i d ids fi fd))
  | Some payload =>
      let '(r, (s, i)) := enqueue s i payload in (r, (s, mkVectorOutbound i d ids fi fd))
  end.

Definition enqueue_delete (s : S) (q : VectorOutbound) (collection id field_name : bytes)
    : res unit * (S * VectorOutbound) :=
  let '(mkVectorOutbound i d batch_id fi fd) := q in
  let ids := wrap_u64 (batch_id + 1) in
  let entry := mkVectorDelete batch_id collection id field_name 0 in
  match msgpack entry with
  | None => (Err Serialization, (s, mkVectorOutbound i d ids fi fd))
  | Some payload =>
      let '(r, (s, d)) := enqueue s d payload in (r, (s, mkVectorOutbound i d ids fi fd))
  end.

Definition drain_inserts (s : S) (q : VectorOutbound) (limit : Z)
    : res (list (bytes * PendingVectorInsert)) :=
  let? pairs := dq_drain_batch s (vo_inserts q) limit in
  drain_decode (λ key, Ok (key_in_flight (vo_in_flight_inserts q) key)) pairs.

Definition drain_deletes (s : S) (q : VectorOutbound) (limit : Z)
    : res (list (bytes * PendingVectorDelete)) :=
  let? pairs := dq_drain_batch s (vo_deletes q) limit in
  drain_decode (λ key, Ok (key_in_flight (vo_in_flight_deletes q) key)) pairs.

Definition mark_insert_in_flight (q : VectorOutbound) (batch_id : Z) (durable_key : bytes)
    : VectorOutbound :=
  let '(mkVectorOutbound i d ids fi fd) := q in
  mkVectorOutbound i d ids (<[batch_id := durable_key]> fi) fd.

Definition ack_insert_in_flight (q : VectorOutbound) (batch_id : Z) : option bytes * VectorOutbound :=
  let '(mkVectorOutbound i d ids fi fd) := q in
  (fi !! batch_id, mkVectorOutbound i d ids (delete batch_id fi) fd).

Definition mark_delete_in_flight (q : VectorOutbound) (batch_id : Z) (durable_key : bytes)
    : VectorOutbound :=
  let '(mkVectorOutbound i d ids fi fd) := q in
  mkVectorOutbound i d ids fi (<[batch_id := durable_key]> fd).

Definition ack_delete_in_flight (q : VectorOutbound) (batch_id : Z) : option bytes * VectorOutbound :=
  let '(mkVectorOutbound i d ids fi fd) := q in
  (fd !! batch_id, mkVectorOutbound i d ids fi (delete batch_id fd)).

Definition vec_clear_in_flight (q : VectorOutbound) : VectorOutbound :=
  let '(mkVectorOutbound i d ids _ _) := q in mkVectorOutbound i d ids ∅ ∅.

Definition ack_insert_keys (s : S) (q : VectorOutbound) (keys : list bytes) : res unit * S :=
  dq_ack_keys s (vo_inserts q) keys.

Definition ack_delete_keys (s : S) (q : VectorOutbound) (keys : list bytes) : res unit * S :=
  dq_ack_keys s (vo_deletes q) keys.

Definition update_insert_entry (s : S) (q : VectorOutbound) (key : bytes)
    (insert : PendingVectorInsert) : res unit * S :=
  match msgpack insert with
  | None => (Err Serialization, s)
  | Some payload => dq_update_entry s (vo_inserts q) key payload
  end.

Definition update_delete_entry (s : S) (q : VectorOutbound) (key : bytes)
    (delete : PendingVectorDelete) : res unit * S :=
  match msgpack delete with
  | None => (Err Serialization, s)
  | Some payload => dq_update_entry s (vo_deletes q) key payload
  end.

Definition pending_insert_count (s : S) (q : VectorOutbound) : res Z := dq_len s (vo_inserts q).
Definition pending_delete_count (s : S) (q : VectorOutbound) : res Z := dq_len s (vo_deletes q).
End queues.

(** ** Draining *)

Section drain_facts.
Context {A : Type} `{MsgPack A}.

Lemma drain_decode_app skip l (out r : list (bytes * A)) :
  rfold (drain_step skip) out l = Ok r →
  ∃ r', r = out ++ r' ∧ r'.*1 `sublist_of` l.*1 ∧
  (∀ k a, (k, a) ∈ r' ↔ ∃ v, (k, v) ∈ l ∧ skip k = Ok false ∧ unmsgpack v = Some a).
Proof.
  revert out. induction l as [|[k v] l IH]; intros out; simpl.
  { intros [= <-]. exists []. rewrite app_nil_r. split; [done|]. split; [done|].
    intros k a. split; [intros Hn; by apply elem_of_nil in Hn|].
    intros (? & Hn & _). by apply elem_of_nil in Hn. }
  unfold drain_step at 1; simpl. destruct (skip k) as [[]|] eqn:Hs; simpl; [| |done].
  - intros (r' & -> & Hsub & Hel)%IH. exists r'. split; [done|]. split; [by constructor|].
    intros k' a. rewrite Hel. split; intros (w & Hin & Hk & Hu).
    + exists w. split; [|done]. apply elem_of_cons. by right.
    + apply elem_of_cons in Hin as [[= -> ->]|Hin]; [congruence|]. eauto.
  - destruct (unmsgpack v) as [a|] eqn:Hu; simpl; [|done].
    intros (r' & -> & Hsub & Hel)%IH. exists ((k, a) :: r').
    split; [by rewrite <-app_assoc|]. split; [by constructor|].
    intros k' a'. rewrite elem_of_cons, Hel. split.
    + intros [[= -> ->]|(w & Hin & ?)]; [exists v|exists w]; (split; [apply elem_of_cons|]); auto.
    + intros (w & [[= -> ->]|Hin]%elem_of_cons & Hk & Hw); [left; congruence|right; eauto].
Qed.

(** What a drain returns: the entries of the rows it read, in their order, that
    are not skipped. *)
Lemma drain_decode_ok skip l (r : list (bytes * A)) :
  drain_decode skip l = Ok r →
  r.*1 `sublist_of` l.*1 ∧
  (∀ k a, (k, a) ∈ r ↔ ∃ v, (k, v) ∈ l ∧ skip k = Ok false ∧ unmsgpack v = Some a).
Proof. intros (r' & -> & ?)%drain_decode_app. done. Qed.
End drain_facts.
