(* ===== verification/SyncPush.v ===== *)
(** * Pushing the engine queues and applying Origin's acknowledgements

    The delegate functions of [src/nodedb-lite/src/nodedb/sync_delegate/]
    ([kv_handlers.rs], [columnar_handlers.rs], [timeseries_handlers.rs],
    [vector_handlers.rs], [outbound_state.rs], [producer_state.rs]), the push
    functions of [src/nodedb-lite/src/sync/transport/push/] ([kv.rs],
    [columnar.rs], [timeseries.rs], [vector.rs], [send.rs] and the schema
    announcement of [control.rs]) and the acknowledgement handlers of
    [src/nodedb-lite/src/sync/transport/] ([dispatch_kv.rs], [dispatch_acks.rs]).

    The queues share one storage with the stream frontiers of [StreamSeq.v].  A
    connection is the list of outcomes of the frames that will be sent on it and
    the list of frames that went out; when no outcome is left it is broken.  The
    frame encoder, [stream_id_for], the schema frame of a collection and the
    Gorilla codec are parameters. *)

From Stdlib Require Import ZArith Lia Strings.Byte.
From stdpp Require Import prelude gmap strings sorting.
From S2P Require Import Prelude Bytes Ordered F64 StorageTrait Pagedb PagedbMem.
From S2P Require Import IndexKey StreamSeq OutboundQueue Outbound.

Local Open Scope Z_scope.

#[local] Arguments be_val : simpl never.
#[local] Arguments be_bytes : simpl never.

Inductive EngineKind := EKv | EColumnar | ETimeseries | EVector.

Inductive ControlFlow := Continue | Break.

Inductive AckStatus :=
| Applied | Duplicate | Accepted | Fenced | Gap (expected : Z) | Rejected (reason : bytes).

(** ** Wire messages *)

Record KvPushMsg := mkKvPushMsg {
  km_lite_id : bytes;
  km_collection : bytes;
  km_key : bytes;
  km_op : KvPushOp;
  km_batch_id : Z;
  km_producer_id : Z;
  km_epoch : Z;
  km_seq : Z
}.

Record ColumnarInsertMsg := mkColumnarInsertMsg {
  cm_lite_id : bytes;
  cm_collection : bytes;
  cm_rows : list bytes;
  cm_batch_id : Z;
  cm_schema_bytes : bytes;
  cm_producer_id : Z;
  cm_epoch : Z;
  cm_seq : Z
}.

Record VectorInsertMsg := mkVectorInsertMsg {
  vm_lite_id : bytes;
  vm_collection : bytes;
  vm_id : bytes;
  vm_vector : list Z;
  vm_dim : Z;
  vm_field_name : bytes;
  vm_batch_id : Z;
  vm_producer_id : Z;
  vm_epoch : Z;
  vm_seq : Z
}.

Record VectorDeleteMsg := mkVectorDeleteMsg {
  wm_lite_id : bytes;
  wm_collection : bytes;
  wm_id : bytes;
  wm_field_name : bytes;
  wm_batch_id : Z;
  wm_producer_id : Z;
  wm_epoch : Z;
  wm_seq : Z
}.

Record TimeseriesPushMsg := mkTimeseriesPushMsg {
  tm_lite_id : bytes;
  tm_batch_id : Z;
  tm_collection : bytes;
  tm_ts_block : bytes;
  tm_val_block : bytes;
  tm_sample_count : Z;
  tm_min_ts : Z;
  tm_max_ts : Z;
  tm_producer_id : Z;
  tm_epoch : Z;
  tm_seq : Z
}.

Inductive Frame :=
| CollectionSchema (name : bytes)
| KvPush (m : KvPushMsg)
| ColumnarInsert (m : ColumnarInsertMsg)
| VectorInsertF (m : VectorInsertMsg)
| VectorDeleteF (m : VectorDeleteMsg)
| TimeseriesPush (m : TimeseriesPushMsg).

(** An acknowledgement, with the fields the handlers read. *)
Record AckMsg := mkAckMsg {
  ack_collection : bytes;
  ack_batch_id : Z;
  ack_applied_seq : Z;
  ack_status : AckStatus
}.

(** ** State *)

Record Sink := mkSink { sk_outcomes : list bool; sk_sent : list Frame }.

Definition send_binary (sink : Sink) (frame : Frame) : bool * Sink :=
  match sk_outcomes sink with
  | true :: rest => (true, mkSink rest (sk_sent sink ++ [frame]))
  | false :: rest => (false, mkSink rest (sk_sent sink))
  | [] => (false, sink)
  end.

Record SyncClient := mkSyncClient {
  cl_producer_id : Z;
  cl_epoch : Z;
  cl_fenced : bool;
  cl_announced : gset bytes
}.

Definition is_fenced (c : SyncClient) : bool := cl_fenced c.
Definition set_fenced (c : SyncClient) : SyncClient :=
  mkSyncClient (cl_producer_id c) (cl_epoch c) true (cl_announced c).
Definition clear_fenced (c : SyncClient) : SyncClient :=
  mkSyncClient (cl_producer_id c) (cl_epoch c) false (cl_announced c).

(** The outbound side of [NodeDbLite]: storage with the stream frontiers, and the
    queues that are present when sync is on. *)
Record Delegate (S : Type) := mkDelegate {
  dg_stream_seq : StreamSeqTracker S;
  dg_kv : option KvOutbound;
  dg_columnar : option ColumnarOutbound;
  dg_timeseries : option TimeseriesOutbound;
  dg_vector : option VectorOutbound
}.
Arguments mkDelegate {S}.
Arguments dg_stream_seq {S}.
Arguments dg_kv {S}.
Arguments dg_columnar {S}.
Arguments dg_timeseries {S}.
Arguments dg_vector {S}.

Definition dg_storage {S} (d : Delegate S) : S := tr_storage (dg_stream_seq d).

(** Put back the parts an operation changed. *)
Definition with_storage {S} (d : Delegate S) (s : S) : Delegate S :=
  let '(mkDelegate t k c ts v) := d in mkDelegate (mkTracker s (tr_state t)) k c ts v.
Definition with_tracker {S} (d : Delegate S) (t : StreamSeqTracker S) : Delegate S :=
  let '(mkDelegate _ k c ts v) := d in mkDelegate t k c ts v.
Definition with_kv {S} (d : Delegate S) (q : KvOutbound) : Delegate S :=
  let '(mkDelegate t _ c ts v) := d in mkDelegate t (Some q) c ts v.
Definition with_columnar {S} (d : Delegate S) (q : ColumnarOutbound) : Delegate S :=
  let '(mkDelegate t k _ ts v) := d in mkDelegate t k (Some q) ts v.
Definition with_timeseries {S} (d : Delegate S) (q : TimeseriesOutbound) : Delegate S :=
  let '(mkDelegate t k c _ v) := d in mkDelegate t k c (Some q) v.
Definition with_vector {S} (d : Delegate S) (q : VectorOutbound) : Delegate S :=
  let '(mkDelegate t k c ts _) := d in mkDelegate t k c ts (Some q).

Section delegate.
Context {S : Type} `{StorageEngine S}.
Context {O : Type}.
Context `{MsgPack PendingKvWrite} `{MsgPack (PendingColumnarBatch (Value O))}.
Context `{MsgPack (PendingTimeseriesBatch (Value O))}.
Context `{MsgPack PendingVectorInsert} `{MsgPack PendingVectorDelete}.

(** *** Stream frontiers and reconnects *)

Definition next_stream_seq (d : Delegate S) (stream_id : Z) : Z * Delegate S :=
  let '(r, t) := next_seq (dg_stream_seq d) stream_id in
  (match r with Ok seq => seq | Err _ => 0 end, with_tracker d t).

Definition record_stream_ack (d : Delegate S) (stream_id applied_seq : Z) : Delegate S :=
  with_tracker d (record_ack (dg_stream_seq d) stream_id applied_seq).2.

Definition clear_engine_in_flight (d : Delegate S) : Delegate S :=
  mkDelegate (dg_stream_seq d) (kv_clear_in_flight <$> dg_kv d) (col_clear_in_flight <$> dg_columnar d)
    (ts_clear_in_flight <$> dg_timeseries d) (vec_clear_in_flight <$> dg_vector d).

Definition META_SYNC_PRODUCER_ID : bytes := bs "sync.producer_id".
Definition META_SYNC_ACCEPTED_EPOCH : bytes := bs "sync.accepted_epoch".

Definition persist_producer_state (d : Delegate S) (producer_id accepted_epoch : Z) : Delegate S :=
  let s := (se_put (dg_storage d) Meta META_SYNC_PRODUCER_ID (u64_be producer_id)).2 in
  let s := (se_put s Meta META_SYNC_ACCEPTED_EPOCH (u64_be accepted_epoch)).2 in
  with_storage d s.

Definition load_u64 (s : S) (key : bytes) : Z :=
  match se_get s Meta key with
  | Ok (Some b) => if (length b =? 8)%nat then be_val b else 0
  | _ => 0
  end.

Definition load_producer_state (d : Delegate S) : Z * Z :=
  (load_u64 (dg_storage d) META_SYNC_PRODUCER_ID, load_u64 (dg_storage d) META_SYNC_ACCEPTED_EPOCH).

(** *** KV *)

Definition pending_kv_writes (d : Delegate S) : res (list (bytes * PendingKvWrite)) :=
  match dg_kv d with
  | Some q => kv_drain (dg_storage d) q PUSH_DRAIN_LIMIT
  | None => Ok []
  end.

Definition persist_kv_write_seq (d : Delegate S) (key : bytes) (write : PendingKvWrite)
    : res unit * Delegate S :=
  match dg_kv d with
  | Some q => let '(r, s) := kv_update_entry (dg_storage d) q key write in (r, with_storage d s)
  | None => (Ok tt, d)
  end.

Definition mark_kv_write_in_flight (d : Delegate S) (batch_id : Z) : Delegate S :=
  match dg_kv d with
  | Some q => with_kv d (kv_mark_in_flight q batch_id)
  | None => d
  end.

Definition retire_kv_write (d : Delegate S) (batch_id : Z) : res unit * Delegate S :=
  match dg_kv d with
  | Some q =>
      let '(r, (s, q)) := kv_retire (dg_storage d) q batch_id in (r, with_kv (with_storage d s) q)
  | None => (Ok tt, d)
  end.

(** *** Columnar *)

(** [unwrap_or_default] of a drain. *)
Definition or_empty {A} (r : res (list A)) : list A :=
  match r with Ok l => l | Err _ => [] end.

Definition pending_columnar_batches (d : Delegate S) : list (bytes * PendingColumnarBatch (Value O)) :=
  match dg_columnar d with
  | Some q => or_empty (col_drain_batch (dg_storage d) q PUSH_DRAIN_LIMIT)
  | None => []
  end.

Definition mark_columnar_batch_in_flight (d : Delegate S) (batch_id : Z) (durable_key : bytes)
    : Delegate S :=
  match dg_columnar d with
  | Some q => with_columnar d (col_mark_in_flight q batch_id durable_key)
  | None => d
  end.

Definition ack_columnar_batch_in_flight (d : Delegate S) (batch_id : Z) : Delegate S :=
  match dg_columnar d with
  | None => d
  | Some q =>
      let '(key, q) := col_ack_in_flight q batch_id in
      let d := with_columnar d q in
      match key with
      | None => d
      | Some key => with_storage d (col_ack_keys (dg_storage d) q [key]).2
      end
  end.

Definition acknowledge_columnar_batch (d : Delegate S) (durable_key : bytes) : Delegate S :=
  match dg_columnar d with
  | Some q => with_storage d (col_ack_keys (dg_storage d) q [durable_key]).2
  | None => d
  end.

Definition persist_columnar_seq (d : Delegate S) (key : bytes) (batch : PendingColumnarBatch (Value O))
    : res unit * Delegate S :=
  match dg_columnar d with
  | Some q => let '(r, s) := col_update_entry (dg_storage d) q key batch in (r, with_storage d s)
  | None => (Ok tt, d)
  end.

(** *** Timeseries *)

Definition pending_timeseries_batches (d : Delegate S)
    : list (bytes * PendingTimeseriesBatch (Value O)) :=
  match dg_timeseries d with
  | Some q => or_empty (ts_drain_batch (dg_storage d) q PUSH_DRAIN_LIMIT)
  | None => []
  end.

Definition mark_timeseries_batch_in_flight (d : Delegate S) (stream_seq batch_id : Z)
    (durable_key : bytes) : Delegate S :=
  match dg_timeseries d with
  | Some q => with_timeseries d (ts_mark_in_flight_by_seq q stream_seq batch_id durable_key)
  | None => d
  end.

Definition ack_timeseries_batch_by_id (d : Delegate S) (batch_id : Z) : Delegate S :=
  match dg_timeseries d with
  | None => d
  | Some q =>
      let '(key, q) := ts_ack_in_flight_by_batch_id q batch_id in
      let d := with_timeseries d q in
      match key with
      | None => d
      | Some key => with_storage d (ts_ack_keys (dg_storage d) q [key]).2
      end
  end.

Definition ack_timeseries_batches_through_seq (d : Delegate S) (applied_seq : Z) : Delegate S :=
  match dg_timeseries d with
  | None => d
  | Some q =>
      let '(keys, q) := ts_ack_in_flight_through_seq q applied_seq in
      foldl (λ d key, with_storage d (ts_ack_keys (dg_storage d) q [key]).2) (with_timeseries d q) keys
  end.

Definition acknowledge_timeseries_batch (d : Delegate S) (durable_key : bytes) : Delegate S :=
  match dg_timeseries d with
  | Some q => with_storage d (ts_ack_keys (dg_storage d) q [durable_key]).2
  | None => d
  end.

Definition persist_timeseries_seq (d : Delegate S) (key : bytes)
    (batch : PendingTimeseriesBatch (Value O)) : res unit * Delegate S :=
  match dg_timeseries d with
  | Some q => let '(r, s) := ts_update_entry (dg_storage d) q key batch in (r, with_storage d s)
  | None => (Ok tt, d)
  end.

(** *** Vector *)

Definition pending_vector_inserts (d : Delegate S) : list (bytes * PendingVectorInsert) :=
  match dg_vector d with
  | Some q => or_empty (drain_inserts (dg_storage d) q PUSH_DRAIN_LIMIT)
  | None => []
  end.

Definition mark_vector_insert_in_flight (d : Delegate S) (batch_id : Z) (durable_key : bytes)
    : Delegate S :=
  match dg_vector d with
  | Some q => with_vector d (mark_insert_in_flight q batch_id durable_key)
  | None => d
  end.

Definition ack_vector_insert_in_flight (d : Delegate S) (batch_id : Z) : Delegate S :=
  match dg_vector d with
  | None => d
  | Some q =>
      let '(key, q) := ack_insert_in_flight q batch_id in
      let d := with_vector d q in
      match key with
      | None => d
      | Some key => with_storage d (ack_insert_keys (dg_storage d) q [key]).2
      end
  end.

Definition acknowledge_vector_insert (d : Delegate S) (durable_key : bytes) : Delegate S :=
  match dg_vector d with
  | Some q => with_storage d (ack_insert_keys (dg_storage d) q [durable_key]).2
  | None => d
  end.

Definition persist_vector_insert_seq (d : Delegate S) (key : bytes) (insert : PendingVectorInsert)
    : res unit * Delegate S :=
  match dg_vector d with
  | Some q => let '(r, s) := update_insert_entry (dg_storage d) q key insert in (r, with_storage d s)
  | None => (Ok tt, d)
  end.

Definition pending_vector_deletes (d : Delegate S) : list (bytes * PendingVectorDelete) :=
  match dg_vector d with
  | Some q => or_empty (drain_deletes (dg_storage d) q PUSH_DRAIN_LIMIT)
  | None => []
  end.

Definition mark_vector_delete_in_flight (d : Delegate S) (batch_id : Z) (durable_key : bytes)
    : Delegate S :=
  match dg_vector d with
  | Some q => with_vector d (mark_delete_in_flight q batch_id durable_key)
  | None => d
  end.

Definition ack_vector_delete_in_flight (d : Delegate S) (batch_id : Z) : Delegate S :=
  match dg_vector d with
  | None => d
  | Some q =>
      let '(key, q) := ack_delete_in_flight q batch_id in
      let d := with_vector d q in
      match key with
      | None => d
      | Some key => with_storage d (ack_delete_keys (dg_storage d) q [key]).2
      end
  end.

Definition acknowledge_vector_delete (d : Delegate S) (durable_key : bytes) : Delegate S :=
  match dg_vector d with
  | Some q => with_storage d (ack_delete_keys (dg_storage d) q [durable_key]).2
  | None => d
  end.

Definition persist_vector_delete_seq (d : Delegate S) (key : bytes) (delete : PendingVectorDelete)
    : res unit * Delegate S :=
  match dg_vector d with
  | Some q => let '(r, s) := update_delete_entry (dg_storage d) q key delete in (r, with_storage d s)
  | None => (Ok tt, d)
  end.
End delegate.

(** ** Push *)

(** What a push reads of code outside the repository, of the schema builder and of
    the instance: the parameters of every function below. *)
Class PushEnv (O : Type) := {
  stream_id_for : EngineKind → bytes → Z;
  (** [SyncFrame::try_encode] succeeds. *)
  encodable : Frame → bool;
  (** The collection has metadata whose descriptor can be announced. *)
  has_schema : bytes → bool;
  lite_id : bytes;
  row_msgpack : list (Value O) → option bytes;
  (** The blocks [GorillaEncoder] makes of a sequence of samples. *)
  gorilla : list (Z * Z) → bytes;
  to_lowercase : bytes → bytes;
  unix_millis : Z → Z
}.

(** Everything a push changes. *)
Record World (S : Type) := mkWorld {
  w_client : SyncClient;
  w_delegate : Delegate S;
  w_sink : Sink
}.
Arguments mkWorld {S}.
Arguments w_client {S}.
Arguments w_delegate {S}.
Arguments w_sink {S}.

Definition on_delegate {S} (w : World S) (d : Delegate S) : World S :=
  mkWorld (w_client w) d (w_sink w).
Definition on_sink {S} (w : World S) (k : Sink) : World S :=
  mkWorld (w_client w) (w_delegate w) k.

(** [s.contains(sub)]. *)
Fixpoint contains_bytes (sub s : bytes) : bool :=
  starts_with sub s || match s with [] => false | _ :: s' => contains_bytes sub s' end.

Section push.
Context {S : Type} `{StorageEngine S}.
Context {O : Type} `{PushEnv O}.
Context `{MsgPack PendingKvWrite} `{MsgPack (PendingColumnarBatch (Value O))}.
Context `{MsgPack (PendingTimeseriesBatch (Value O))}.
Context `{MsgPack PendingVectorInsert} `{MsgPack PendingVectorDelete}.

(** Announce a collection once per session, before its first data frame. *)
Definition ensure_collection_announced (w : World S) (name : bytes) : ControlFlow * World S :=
  if decide (name ∈ cl_announced (w_client w)) then (Continue, w)
  else if negb (has_schema name) then (Continue, w)
  else if negb (encodable (CollectionSchema name)) then (Continue, w)
  else
    let '(sent, sink) := send_binary (w_sink w) (CollectionSchema name) in
    let w := on_sink w sink in
    if sent then
      let c := w_client w in
      (Continue, mkWorld (mkSyncClient (cl_producer_id c) (cl_epoch c) (cl_fenced c)
                            ({[name]} ∪ cl_announced c)) (w_delegate w) (w_sink w))
    else (Break, w).

(** The stream number of an entry: kept if it has one, else the next one. *)
Definition assign_seq (w : World S) (kind : EngineKind) (collection : bytes) : Z * World S :=
  let '(seq, d) := next_stream_seq (w_delegate w) (stream_id_for kind collection) in
  (seq, on_delegate w d).

(** The rest of one iteration once the entry has its number. *)
Definition kv_send (w : World S) (batch_id : Z) (entry : PendingKvWrite)
    : option ControlFlow * World S :=
  let c := w_client w in
  let msg := mkKvPushMsg lite_id (kw_collection entry) (kw_key entry) (kv_to_wire (kw_op entry))
               batch_id (cl_producer_id c) (cl_epoch c) (kw_seq entry) in
  if negb (encodable (KvPush msg)) then
    let '(r, d) := retire_kv_write (w_delegate w) batch_id in
    (match r with Ok _ => None | Err _ => Some Continue end, on_delegate w d)
  else
    let '(sent, sink) := send_binary (w_sink w) (KvPush msg) in
    let w := on_sink w sink in
    if sent then (None, on_delegate w (mark_kv_write_in_flight (w_delegate w) batch_id))
    else (Some Break, w).

(** One iteration: [None] goes on with the next entry. *)
Definition kv_push_entry (w : World S) (durable_key : bytes) (entry : PendingKvWrite)
    : option ControlFlow * World S :=
  match kv_batch_id durable_key with
  | Err _ => (None, w)
  | Ok batch_id =>
      let '(f, w) := ensure_collection_announced w (kw_collection entry) in
      match f with
      | Break => (Some Break, w)
      | Continue =>
          if kw_seq entry =? 0 then
            let '(seq, w) := assign_seq w EKv (kw_collection entry) in
            let entry := mkPendingKvWrite (kw_collection entry) (kw_key entry) (kw_op entry) seq in
            let '(r, d) := persist_kv_write_seq (w_delegate w) durable_key entry in
            let w := on_delegate w d in
            match r with
            | Err _ => (Some Continue, w)
            | Ok _ => kv_send w batch_id entry
            end
          else kv_send w batch_id entry
      end
  end.

(** [for entry in pending]: stop at the first iteration that returns. *)
Fixpoint push_loop {A} (step : World S → bytes → A → option ControlFlow * World S)
    (pending : list (bytes * A)) (w : World S) : ControlFlow * World S :=
  match pending with
  | [] => (Continue, w)
  | (key, entry) :: rest =>
      match step w key entry with
      | (Some f, w) => (f, w)
      | (None, w) => push_loop step rest w
      end
  end.

Definition kv_push (w : World S) : ControlFlow * World S :=
  match pending_kv_writes (w_delegate w) with
  | Err _ => (Continue, w)
  | Ok pending => push_loop kv_push_entry pending w
  end.

Definition col_send (w : World S) (durable_key : bytes) (batch : PendingColumnarBatch (Value O))
    (rows : list bytes) : option ControlFlow * World S :=
  let c := w_client w in
  let msg := mkColumnarInsertMsg lite_id (cb_collection batch) rows (cb_batch_id batch)
               (cb_schema_bytes batch) (cl_producer_id c) (cl_epoch c) (cb_seq batch) in
  if negb (encodable (ColumnarInsert msg)) then
    (None, on_delegate w (acknowledge_columnar_batch (w_delegate w) durable_key))
  else
    let '(sent, sink) := send_binary (w_sink w) (ColumnarInsert msg) in
    let w := on_sink w sink in
    if sent then
      (None, on_delegate w
               (mark_columnar_batch_in_flight (w_delegate w) (cb_batch_id batch) durable_key))
    else (Some Break, w).

Definition col_push_entry (w : World S) (durable_key : bytes) (batch : PendingColumnarBatch (Value O))
    : option ControlFlow * World S :=
  let '(f, w) := ensure_collection_announced w (cb_collection batch) in
  match f with
  | Break => (Some Break, w)
  | Continue =>
      let rows := omap row_msgpack (cb_rows batch) in
      if cb_seq batch =? 0 then
        let '(seq, w) := assign_seq w EColumnar (cb_collection batch) in
        let batch := mkColumnarBatch (cb_batch_id batch) (cb_collection batch) (cb_rows batch)
                       (cb_schema_bytes batch) seq in
        let '(r, d) := persist_columnar_seq (w_delegate w) durable_key batch in
        let w := on_delegate w d in
        match r with
        | Err _ => (None, w)
        | Ok _ => col_send w durable_key batch rows
        end
      else col_send w durable_key batch rows
  end.

Definition col_push (w : World S) : ControlFlow * World S :=
  push_loop col_push_entry (pending_columnar_batches (w_delegate w)) w.

(** *** Timeseries *)

(** The sample of one row, if its time column holds a time. *)
Definition row_sample (time_col_idx val_col_idx : nat) (row : list (Value O)) : option (Z * Z) :=
  let val := match row !! val_col_idx with
             | Some (VFloat f) => f
             | Some (VInteger i) => i64_as_f64 i
             | _ => 0
             end in
  match row !! time_col_idx with
  | Some (VInteger i) => Some (Z.quot i 1000, val)
  | Some (VNaiveDateTime dt) => Some (unix_millis dt, val)
  | _ => None
  end.

Definition encode_batch (batch : PendingTimeseriesBatch (Value O)) (producer_id epoch seq : Z)
    : option TimeseriesPushMsg :=
  let time_col_idx := default 0%nat
    (position (λ n, contains_bytes (bs "time") (to_lowercase n)) (tb_column_names batch)) in
  let val_col_idx := default 1%nat
    (position (λ i, negb (i =? time_col_idx)%nat) (List.seq 0 (length (tb_column_names batch)))) in
  let samples := omap (row_sample time_col_idx val_col_idx) (tb_rows batch) in
  match samples with
  | [] => None
  | _ =>
      Some (mkTimeseriesPushMsg lite_id (tb_batch_id batch) (tb_collection batch)
        (gorilla ((λ p, (p.1, 0)) <$> samples))
        (gorilla (imap (λ i p, (Z.of_nat i, p.2)) samples))
        (Z.of_nat (length samples))
        (foldl Z.min i64_max samples.*1) (foldl Z.max i64_min samples.*1) producer_id epoch seq)
  end.

Definition ts_send (w : World S) (durable_key : bytes) (batch : PendingTimeseriesBatch (Value O))
    : option ControlFlow * World S :=
  let c := w_client w in
  let drop_it := (None, on_delegate w (acknowledge_timeseries_batch (w_delegate w) durable_key)) in
  match encode_batch batch (cl_producer_id c) (cl_epoch c) (tb_seq batch) with
  | None => drop_it
  | Some msg =>
      if negb (encodable (TimeseriesPush msg)) then drop_it
      else
        let '(sent, sink) := send_binary (w_sink w) (TimeseriesPush msg) in
        let w := on_sink w sink in
        if sent then
          (None, on_delegate w (mark_timeseries_batch_in_flight (w_delegate w) (tb_seq batch)
                                  (tb_batch_id batch) durable_key))
        else (Some Break, w)
  end.

Definition ts_push_entry (w : World S) (durable_key : bytes) (batch : PendingTimeseriesBatch (Value O))
    : option ControlFlow * World S :=
  let '(f, w) := ensure_collection_announced w (tb_collection batch) in
  match f with
  | Break => (Some Break, w)
  | Continue =>
      if tb_seq batch =? 0 then
        let '(seq, w) := assign_seq w ETimeseries (tb_collection batch) in
        let batch := mkTimeseriesBatch (tb_batch_id batch) (tb_collection batch)
                       (tb_column_names batch) (tb_rows batch) seq in
        let '(r, d) := persist_timeseries_seq (w_delegate w) durable_key batch in
        let w := on_delegate w d in
        match r with
        | Err _ => (None, w)
        | Ok _ => ts_send w durable_key batch
        end
      else ts_send w durable_key batch
  end.

Definition ts_push (w : World S) : ControlFlow * World S :=
  push_loop ts_push_entry (pending_timeseries_batches (w_delegate w)) w.

(** *** Vector *)

Definition vec_insert_entry (w : World S) (durable_key : bytes) (entry : PendingVectorInsert)
    : option ControlFlow * World S :=
  let send (w : World S) (seq : Z) : option ControlFlow * World S :=
    let c := w_client w in
    let msg := mkVectorInsertMsg lite_id (vi_collection entry) (vi_id entry) (vi_vector entry)
                 (vi_dim entry) (vi_field_name entry) (vi_batch_id entry)
                 (cl_producer_id c) (cl_epoch c) seq in
    if negb (encodable (VectorInsertF msg)) then
      (None, on_delegate w (acknowledge_vector_insert (w_delegate w) durable_key))
    else
      let '(sent, sink) := send_binary (w_sink w) (VectorInsertF msg) in
      let w := on_sink w sink in
      if sent then
        (None, on_delegate w
                 (mark_vector_insert_in_flight (w_delegate w) (vi_batch_id entry) durable_key))
      else (Some Break, w) in
  let '(f, w) := ensure_collection_announced w (vi_collection entry) in
  match f with
  | Break => (Some Break, w)
  | Continue =>
      if vi_seq entry =? 0 then
        let '(seq, w) := assign_seq w EVector (vi_collection entry) in
        let '(mkVectorInsert b c i v dim fn _) := entry in
        let '(r, d) := persist_vector_insert_seq (w_delegate w) durable_key
                         (mkVectorInsert b c i v dim fn seq) in
        let w := on_delegate w d in
        match r with
        | Err _ => (None, w)
        | Ok _ => send w seq
        end
      else send w (vi_seq entry)
  end.

Definition vec_delete_entry (w : World S) (durable_key : bytes) (entry : PendingVectorDelete)
    : option ControlFlow * World S :=
  let send (w : World S) (seq : Z) : option ControlFlow * World S :=
    let c := w_client w in
    let msg := mkVectorDeleteMsg lite_id (vd_collection entry) (vd_id entry) (vd_field_name entry)
                 (vd_batch_id entry) (cl_producer_id c) (cl_epoch c) seq in
    if negb (encodable (VectorDeleteF msg)) then
      (None, on_delegate w (acknowledge_vector_delete (w_delegate w) durable_key))
    else
      let '(sent, sink) := send_binary (w_sink w) (VectorDeleteF msg) in
      let w := on_sink w sink in
      if sent then
        (None, on_delegate w
                 (mark_vector_delete_in_flight (w_delegate w) (vd_batch_id entry) durable_key))
      else (Some Break, w) in
  let '(f, w) := ensure_collection_announced w (vd_collection entry) in
  match f with
  | Break => (Some Break, w)
  | Continue =>
      if vd_seq entry =? 0 then
        let '(seq, w) := assign_seq w EVector (vd_collection entry) in
        let '(mkVectorDelete b c i fn _) := entry in
        let '(r, d) := persist_vector_delete_seq (w_delegate w) durable_key
                         (mkVectorDelete b c i fn seq) in
        let w := on_delegate w d in
        match r with
        | Err _ => (None, w)
        | Ok _ => send w seq
        end
      else send w (vd_seq entry)
  end.

Definition vec_push (w : World S) : ControlFlow * World S :=
  let '(f, w) := push_loop vec_insert_entry (pending_vector_inserts (w_delegate w)) w in
  match f with
  | Break => (Break, w)
  | Continue => push_loop vec_delete_entry (pending_vector_deletes (w_delegate w)) w
  end.

(** ** Acknowledgements *)

(** [Applied] and [Duplicate] advance the stream frontier and retire the entry,
    [Rejected] retires it, [Gap] clears every in-flight record, [Fenced] stops
    the producer, [Accepted] does nothing. *)
Definition handle_ack (kind : EngineKind) (on_applied on_rejected : Delegate S → AckMsg → Delegate S)
    (w : World S) (ack : AckMsg) : World S :=
  let d := w_delegate w in
  match ack_status ack with
  | Applied | Duplicate =>
      let d := record_stream_ack d (stream_id_for kind (ack_collection ack)) (ack_applied_seq ack) in
      on_delegate w (on_applied d ack)
  | Accepted => w
  | Fenced => mkWorld (set_fenced (w_client w)) d (w_sink w)
  | Gap _ => on_delegate w (clear_engine_in_flight d)
  | Rejected _ => on_delegate w (on_rejected d ack)
  end.

Definition apply_kv_push_ack : World S → AckMsg → World S :=
  let retire d ack := (retire_kv_write d (ack_batch_id ack)).2 in
  handle_ack EKv retire retire.

Definition handle_columnar_insert_ack : World S → AckMsg → World S :=
  let retire d ack := ack_columnar_batch_in_flight d (ack_batch_id ack) in
  handle_ack EColumnar retire retire.

Definition handle_vector_insert_ack : World S → AckMsg → World S :=
  let retire d ack := ack_vector_insert_in_flight d (ack_batch_id ack) in
  handle_ack EVector retire retire.

Definition handle_vector_delete_ack : World S → AckMsg → World S :=
  let retire d ack := ack_vector_delete_in_flight d (ack_batch_id ack) in
  handle_ack EVector retire retire.

(** The cumulative sweep on success, the batch's own id on a rejection. *)
Definition handle_timeseries_ack : World S → AckMsg → World S :=
  handle_ack ETimeseries
    (λ d ack, ack_timeseries_batches_through_seq d (ack_applied_seq ack))
    (λ d ack, ack_timeseries_batch_by_id d (ack_batch_id ack)).
End push.
