(* ===== verification/SyncDelivery.v ===== *)
(** * Delivery guarantees of the engine queues

    Theorems about [SyncPush.v]: what one push tick sends and leaves behind, that
    a KV write stays stored until Origin settles it, and two sequences of calls in
    which the columnar and the timeseries queues delete an entry that Origin has
    not acknowledged. *)

From Stdlib Require Import ZArith Lia Strings.Byte.
From stdpp Require Import prelude gmap strings sorting.
From S2P Require Import Prelude Bytes Ordered StorageTrait Pagedb PagedbMem.
From S2P Require Import IndexKey StreamSeq OutboundQueue Outbound SyncPush.

Local Open Scope Z_scope.

#[local] Arguments be_val : simpl never.
#[local] Arguments be_bytes : simpl never.

(** ** The KV queue *)

(** The part of a write that does not change while it is queued. *)
Definition kv_body (w : PendingKvWrite) : bytes * bytes * PendingKvOp :=
  (kw_collection w, kw_key w, kw_op w).

Definition kv_frames (l : list Frame) : list KvPushMsg :=
  omap (λ f, match f with KvPush m => Some m | _ => None end) l.

(** A message carries this entry, under this number. *)
Definition carries (m : KvPushMsg) (id : Z) (e : PendingKvWrite) : Prop :=
  km_batch_id m = id ∧ km_seq m = kw_seq e ∧ km_collection m = kw_collection e ∧
  km_key m = kw_key e ∧ km_op m = kv_to_wire (kw_op e).

Section kv.
Context {S : Type} `{StorageLaws S}.
Context {O : Type} `{PushEnv O}.
Context `{HM : MsgPack PendingKvWrite} {HL : MsgPackLaws PendingKvWrite}.

(** The stored entry with number [id]. *)
Definition kv_entry (m : Store) (id : Z) : option PendingKvWrite :=
  let* v := m KvPushPending !! u64_be id in unmsgpack v.

Lemma kv_entry_ext m m' id :
  m' KvPushPending !! u64_be id = m KvPushPending !! u64_be id → kv_entry m' id = kv_entry m id.
Proof. unfold kv_entry. by intros ->. Qed.

Definition w_contents (w : World S) : Store := contents (dg_storage (w_delegate w)).

(** The KV queue of a world. *)
Record kv_world (w : World S) (q : KvOutbound) : Prop := {
  kw_queue : dg_kv (w_delegate w) = Some q;
  kw_ns : dq_namespace (ko_durable q) = KvPushPending;
  kw_ok : queue_ok (w_contents w) (ko_durable q)
}.

Lemma announce_spec (w w' : World S) name f :
  ensure_collection_announced w name = (f, w') →
  w_delegate w' = w_delegate w ∧
  ∃ frames, sk_sent (w_sink w') = sk_sent (w_sink w) ++ frames ∧ kv_frames frames = [].
Proof.
  unfold ensure_collection_announced.
  assert (∃ frames, sk_sent (w_sink w) = sk_sent (w_sink w) ++ frames ∧ kv_frames frames = []) as Hn.
  { exists []. by rewrite app_nil_r. }
  repeat (case_match; [intros [= <- <-]; by eauto|]).
  unfold send_binary. destruct (sk_outcomes (w_sink w)) as [|[] rest]; intros [= <- <-]; simpl; eauto.
Qed.

Lemma assign_seq_spec (w w' : World S) kind coll seq :
  assign_seq w kind coll = (seq, w') →
  dg_kv (w_delegate w') = dg_kv (w_delegate w) ∧ w_sink w' = w_sink w ∧
  ∀ ns, ns ≠ Meta → w_contents w' ns = w_contents w ns.
Proof.
  unfold assign_seq, next_stream_seq, next_seq, w_contents, dg_storage.
  destruct w as [c [t k co ts v] s]. cbn [w_delegate dg_stream_seq]. destruct (next_seq_lock _ _) as [[n enc] st].
  destruct (se_put _ _ _ _) as [[[]|e] s'] eqn:Hp; simpl; intros [= <- <-]; simpl;
    repeat (split; [done|]); intros ns Hns.
  - apply put_ok in Hp. by rewrite (Hp ns), st_put_ne.
  - apply put_err in Hp as [Hp|Hp]; rewrite (Hp ns); [done|by rewrite st_put_ne].
Qed.

(** Writing an entry back under its own key. *)
Lemma persist_spec (w : World S) q id e d r :
  dg_kv (w_delegate w) = Some q → dq_namespace (ko_durable q) = KvPushPending → u64_ok id →
  persist_kv_write_seq (w_delegate w) (u64_be id) e = (r, d) →
  dg_kv d = Some q ∧
  (contents (dg_storage d) KvPushPending = w_contents w KvPushPending ∧ (∃ x, r = Err x) ∨
   ∃ v, unmsgpack v = Some e ∧
     contents (dg_storage d) KvPushPending = <[u64_be id := v]> (w_contents w KvPushPending)).
Proof using HL.
  intros Hq Hns Hid. unfold persist_kv_write_seq, kv_update_entry, dq_update_entry. rewrite Hq.
  destruct (msgpack e) as [p|] eqn:Hp.
  2:{ intros [= <- <-]. unfold w_contents, dg_storage. destruct (w_delegate w); simpl in *. eauto. }
  apply msgpack_roundtrip in Hp. rewrite Hns.
  destruct (se_put _ _ _ _) as [[[]|x] s'] eqn:Hput; intros [= <- <-].
  - apply put_ok in Hput. destruct (w_delegate w) eqn:Hd; simpl in *. split; [done|]. right.
    exists p. split; [done|]. unfold w_contents. rewrite Hd. unfold dg_storage; simpl.
    by rewrite (Hput KvPushPending), st_put_eq.
  - apply put_err in Hput. unfold w_contents. destruct (w_delegate w) eqn:Hd; simpl in *.
    unfold dg_storage in *; simpl in *. split; [done|].
    destruct Hput as [Hput|Hput]; [left|right; exists p]; rewrite (Hput KvPushPending).
    + eauto.
    + by rewrite st_put_eq.
Qed.

(** No frame carries this write: a message for it does not encode. *)
Definition unframed (id : Z) (e : PendingKvWrite) : Prop :=
  ∃ m, km_batch_id m = id ∧ km_collection m = kw_collection e ∧ km_key m = kw_key e ∧
    km_op m = kv_to_wire (kw_op e) ∧ encodable (KvPush m) = false.

(** [id] is stored with this body and, once it has one, this number. *)
Definition holds (m : Store) (id : Z) (e : PendingKvWrite) : Prop :=
  ∃ e', kv_entry m id = Some e' ∧ kv_body e' = kv_body e ∧ (kw_seq e ≠ 0 → e' = e).

(** [id] is gone, and no frame could carry it. *)
Definition dropped (m : Store) (id : Z) (e : PendingKvWrite) : Prop :=
  m KvPushPending !! u64_be id = None ∧ unframed id e.

Definition only_row (m m' : Store) (id : Z) : Prop :=
  ∀ k, k ≠ u64_be id → m' KvPushPending !! k = m KvPushPending !! k.

Lemma unframed_body id e e' : kv_body e' = kv_body e → unframed id e' → unframed id e.
Proof. unfold kv_body. intros [= Hc Hk Ho] (m & ?). exists m. by rewrite <-Hc, <-Hk, <-Ho. Qed.

Lemma holds_refl m id e : kv_entry m id = Some e → holds m id e.
Proof. intros He. by exists e. Qed.

Lemma holds_trans m m' id e e' :
  kv_entry m id = Some e' → holds m id e → holds m' id e' ∨ dropped m' id e' → holds m' id e ∨ dropped m' id e.
Proof.
  intros He' (e1 & He1 & Hb & Hs). rewrite He' in He1. injection He1 as <-.
  intros [(e2 & He2 & Hb2 & Hs2)|[Hn Hu]]; [left|right].
  - exists e2. split; [done|]. split; [congruence|]. intros Hz. specialize (Hs Hz). subst e'. auto.
  - split; [done|]. by eapply unframed_body.
Qed.

Lemma holds_ext m m' id e :
  m' KvPushPending !! u64_be id = m KvPushPending !! u64_be id → holds m id e → holds m' id e.
Proof. intros Hm (e' & He & ?). exists e'. by rewrite (kv_entry_ext m m' id Hm). Qed.

(** What an iteration does: it ends the tick without a frame of this write, drops a
    write no frame can carry, or sends the write under the number it is stored with. *)
Definition step_frames (w w' : World S) (q q' : KvOutbound) (id : Z) (e : PendingKvWrite)
    (o : option ControlFlow) : Prop :=
  ko_durable q' = ko_durable q ∧
  ∃ frames, sk_sent (w_sink w') = sk_sent (w_sink w) ++ frames ∧
    (kv_frames frames = [] ∧ ko_in_flight q' = ko_in_flight q ∨
     o = None ∧ ko_in_flight q' = {[id]} ∪ ko_in_flight q ∧
     ∃ e' msg, kv_frames frames = [msg] ∧ carries msg id e' ∧ kv_entry (w_contents w') id = Some e').

Lemma with_parts_kv (w : World S) s q :
  dg_kv (with_kv (with_storage (w_delegate w) s) q) = Some q ∧
  dg_storage (with_kv (with_storage (w_delegate w) s) q) = s.
Proof. by destruct (w_delegate w). Qed.

(** Retiring an entry: it goes, or a failed deletion leaves it. *)
Lemma retire_row (w : World S) q bid :
  dg_kv (w_delegate w) = Some q → dq_namespace (ko_durable q) = KvPushPending →
  let w' := on_delegate w (retire_kv_write (w_delegate w) bid).2 in
  dg_kv (w_delegate w') = Some (mkKvOutbound (ko_durable q) (ko_in_flight q ∖ {[bid]})) ∧ w_sink w' = w_sink w ∧
  (w_contents w' ≡ w_contents w ∨ w_contents w' ≡ st_delete (w_contents w) KvPushPending (u64_be bid)).
Proof.
  intros Hq Hns w'. subst w'. unfold retire_kv_write, kv_retire. rewrite Hq. cbn [ko_durable].
  set (q' := mkKvOutbound (ko_durable q) (ko_in_flight q ∖ {[bid]})).
  destruct (dq_ack_keys _ _ _) as [r s'] eqn:Ha. simpl. destruct (with_parts_kv w s' q') as [Hwk Hws].
  split; [done|]. split; [done|]. unfold w_contents. simpl. rewrite Hws.
  unfold dq_ack_keys in Ha. rewrite Hns in Ha. cbn [fmap list_fmap] in Ha. destruct r as [[]|x].
  - apply batch_ok in Ha. by right.
  - apply batch_err in Ha as [Ha|Ha]; [by left|by right].
Qed.

Lemma kv_send_spec (w w' : World S) q id e o :
  dg_kv (w_delegate w) = Some q → dq_namespace (ko_durable q) = KvPushPending → id ∉ ko_in_flight q →
  kv_entry (w_contents w) id = Some e → kv_send w id e = (o, w') →
  ∃ q', dg_kv (w_delegate w') = Some q' ∧ step_frames w w' q q' id e o ∧
    only_row (w_contents w) (w_contents w') id ∧ (holds (w_contents w') id e ∨ dropped (w_contents w') id e).
Proof.
  intros Hq Hns Hfl He. unfold kv_send. set (msg := mkKvPushMsg _ _ _ _ _ _ _ _).
  destruct (encodable (KvPush msg)) eqn:Henc; cbn [negb].
  - unfold send_binary, step_frames. destruct (sk_outcomes (w_sink w)) as [|[] rest]; intros [= <- <-].
    1,3: exists q; split; [done|]; split; [split; [done|]; exists []; rewrite app_nil_r; by auto|];
      split; [done|left; by apply holds_refl].
    unfold mark_kv_write_in_flight, on_delegate, on_sink, w_contents, dg_storage in *; simpl. rewrite Hq.
    destruct (w_delegate w); simpl in *. eexists. split; [done|].
    split; [|split; [done|left; by apply holds_refl]].
    split; [done|]. eexists. split; [done|]. right. split; [done|]. split; [done|]. by exists e, msg.
  - destruct (retire_row w q id Hq Hns) as (Hq' & Hs & Hc).
    destruct (retire_kv_write (w_delegate w) id) as [r d]. intros [= <- <-]. simpl in Hq', Hs, Hc.
    eexists. split; [exact Hq'|]. split; [|split].
    + split; [done|]. exists []. rewrite app_nil_r. split; [done|]. left. split; [done|]. cbn. set_solver.
    + intros k Hk. destruct Hc as [Hc|Hc]; rewrite (Hc KvPushPending); [done|by rewrite st_delete_eq, lookup_delete_ne].
    + destruct Hc as [Hc|Hc]; [left|right].
      * eapply holds_ext; [by rewrite (Hc KvPushPending)|by apply holds_refl].
      * split; [by rewrite (Hc KvPushPending), st_delete_eq, lookup_delete_eq|]. by exists msg.
Qed.

Lemma kv_push_entry_spec (w w' : World S) q id e o :
  dg_kv (w_delegate w) = Some q → dq_namespace (ko_durable q) = KvPushPending → u64_ok id → id ∉ ko_in_flight q →
  kv_entry (w_contents w) id = Some e → kv_push_entry w (u64_be id) e = (o, w') →
  ∃ q', dg_kv (w_delegate w') = Some q' ∧ step_frames w w' q q' id e o ∧
    only_row (w_contents w) (w_contents w') id ∧ (holds (w_contents w') id e ∨ dropped (w_contents w') id e).
Proof using HL.
  intros Hq Hns Hid Hfl He. unfold kv_push_entry, kv_batch_id.
  rewrite length_be_bytes. cbn [Nat.eqb]. rewrite u64_be_val by done.
  destruct (ensure_collection_announced w _) as [f w1] eqn:Ha.
  apply announce_spec in Ha as (Hd1 & fr1 & Hs1 & Hk1).
  assert (w_contents w1 = w_contents w) as Hc1 by (unfold w_contents; by rewrite Hd1).
  rewrite <-Hd1 in Hq. rewrite <-Hc1 in He |- *. clear Hc1 Hd1.
  assert (∀ w2 w3 q' e' x, w_sink w2 = w_sink w1 → step_frames w2 w3 q q' id e' x → step_frames w w3 q q' id e x) as Hfr.
  { intros w2 w3 q' e' x Hs2 (Hdq & fr & Hf & Hcase). split; [done|]. exists (fr1 ++ fr).
    split; [by rewrite Hf, Hs2, Hs1, app_assoc|]. unfold kv_frames in *. by rewrite omap_app, Hk1. }
  assert (∀ w2 x, w_sink w2 = w_sink w1 → step_frames w w2 q q id e x) as Hquiet.
  { intros w2 x Hs2. split; [done|]. exists fr1. rewrite Hs2, Hs1. auto. }
  destruct f; [|intros [= <- <-]].
  2:{ exists q. split; [done|]. split; [by apply Hquiet|]. split; [done|]. left. by apply holds_refl. }
  destruct (Z.eqb_spec (kw_seq e) 0) as [Hz|Hz].
  2:{ intros Hs. destruct (kv_send_spec w1 w' q id e o Hq Hns Hfl He Hs) as (q' & Hq' & Hst & Hrow).
      exists q'. split; [done|]. split; [by eapply Hfr|done]. }
  destruct (assign_seq w1 _ _) as [seq w2] eqn:Hseq. apply assign_seq_spec in Hseq as (Hq2 & Hs2 & Hc2).
  rewrite Hq in Hq2. set (e' := mkPendingKvWrite _ _ _ seq).
  destruct (persist_kv_write_seq _ _ _) as [r d] eqn:Hp.
  apply (persist_spec w2 q id e' d r Hq2 Hns Hid) in Hp as [Hqd Hstore].
  rewrite Hc2 in Hstore by done.
  set (w3 := on_delegate w2 d). change (dg_kv (w_delegate w3) = Some q) in Hqd.
  change (contents (dg_storage d)) with (w_contents w3) in Hstore.
  assert (∀ v, unmsgpack v = Some e' →
    w_contents w3 KvPushPending = <[u64_be id := v]> (w_contents w1 KvPushPending) →
    only_row (w_contents w1) (w_contents w3) id ∧ kv_entry (w_contents w3) id = Some e') as Hstep.
  { intros v Hv Hm. split.
    - intros k Hk. rewrite Hm. by rewrite lookup_insert_ne.
    - unfold kv_entry. by rewrite Hm, lookup_insert_eq. }
  assert (∀ m, kv_entry m id = Some e' → holds m id e) as Hnum by (intros m Hm; by exists e').
  destruct r as [[]|x].
  - destruct Hstore as [[_ [x ?]]|(v & Hv & Hm)]; [done|]. destruct (Hstep v Hv Hm) as [Hrow He3].
    intros Hsend. destruct (kv_send_spec w3 w' q id e' o Hqd Hns Hfl He3 Hsend) as (q' & Hq' & Hst & Hrow' & Hh).
    exists q'. split; [done|]. split; [by eapply Hfr, Hst|]. split; [intros k Hk; by rewrite Hrow', Hrow|].
    by eapply holds_trans; [|apply Hnum|].
  - intros [= <- <-]. exists q. split; [done|]. split; [by apply Hquiet|]. destruct Hstore as [[Hm _]|(v & Hv & Hm)].
    + split; [intros k _; by rewrite Hm|]. left. eapply holds_ext; [by rewrite Hm|by apply holds_refl].
    + destruct (Hstep v Hv Hm). auto.
Qed.

(** Every row is as before, or the same write with a number, or a write no frame can
    carry that was dropped. *)
Definition kept (m m' : Store) : Prop :=
  ∀ k, m' KvPushPending !! k = m KvPushPending !! k ∨
    ∃ id e, u64_ok id ∧ k = u64_be id ∧ kv_entry m id = Some e ∧ (holds m' id e ∨ dropped m' id e).

Lemma kept_refl m : kept m m.
Proof. by left. Qed.

Lemma kv_entry_key m id e : kv_entry m id = Some e → is_Some (m KvPushPending !! u64_be id).
Proof. unfold kv_entry. destruct (_ !! _); [by eexists|done]. Qed.

Lemma kept_row m m' id e :
  u64_ok id → kept m m' → kv_entry m id = Some e → holds m' id e ∨ dropped m' id e.
Proof.
  intros Hid Hk He. destruct (Hk (u64_be id)) as [Hm|(id' & e' & Hid' & Heq & He' & Hd)].
  - left. eapply holds_ext; [exact Hm|by apply holds_refl].
  - apply u64_be_inj in Heq as <-; [|done..]. rewrite He in He'. by injection He' as <-.
Qed.

Lemma kept_trans m1 m2 m3 : kept m1 m2 → kept m2 m3 → kept m1 m3.
Proof.
  intros K1 K2 k. destruct (K1 k) as [Hk1|(id & e & Hid & -> & He & Hd)].
  - destruct (K2 k) as [Hk2|(id & e & Hid & -> & He & Hd)]; [left; congruence|right].
    exists id, e. repeat (split; [done|]). split; [|done]. by rewrite <-(kv_entry_ext m1 m2 id Hk1).
  - right. exists id, e. repeat (split; [done|]). destruct Hd as [Hh|[Hn Hu]].
    + pose proof Hh as (e' & He' & _). eapply holds_trans; [done|done|]. by apply (kept_row m2).
    + right. split; [|done]. destruct (K2 (u64_be id)) as [Hk2|(id' & e' & Hid' & Heq & He' & _)]; [congruence|].
      apply kv_entry_key in He' as [v Hv]. rewrite <-Heq in Hv. congruence.
Qed.

Lemma kept_keys m m' k : kept m m' → is_Some (m' KvPushPending !! k) → is_Some (m KvPushPending !! k).
Proof. intros Hk Hs. destruct (Hk k) as [<-|(id & e & _ & -> & He & _)]; [done|by eapply kv_entry_key]. Qed.

Lemma kv_entry_other id i m m' : u64_ok id → u64_ok i → i ≠ id → only_row m m' id → kv_entry m' i = kv_entry m i.
Proof. intros ?? Hne Hm. apply kv_entry_ext, Hm. by intros ?%u64_be_inj. Qed.

Lemma row_kept m m' id e :
  u64_ok id → kv_entry m id = Some e → only_row m m' id → holds m' id e ∨ dropped m' id e → kept m m'.
Proof. intros Hid He Hrow Hd k. destruct (decide (k = u64_be id)) as [->|Hne]; [right; by exists id, e|left; auto]. Qed.

Definition keyed (il : list (Z * PendingKvWrite)) : list (bytes * PendingKvWrite) :=
  (λ p, (u64_be p.1, p.2)) <$> il.

Lemma kv_loop_spec il (w w' : World S) q f :
  dg_kv (w_delegate w) = Some q → dq_namespace (ko_durable q) = KvPushPending →
  NoDup il.*1 → Forall (λ p, u64_ok p.1 ∧ kv_entry (w_contents w) p.1 = Some p.2 ∧ p.1 ∉ ko_in_flight q) il →
  push_loop kv_push_entry (keyed il) w = (f, w') →
  ∃ q' frames, let ms := kv_frames frames in
    dg_kv (w_delegate w') = Some q' ∧ ko_durable q' = ko_durable q ∧
    sk_sent (w_sink w') = sk_sent (w_sink w) ++ frames ∧
    (km_batch_id <$> ms) `sublist_of` il.*1 ∧
    ko_in_flight q' = list_to_set (km_batch_id <$> ms) ∪ ko_in_flight q ∧
    (∀ m, m ∈ ms → ∃ e, kv_entry (w_contents w') (km_batch_id m) = Some e ∧
                        carries m (km_batch_id m) e) ∧
    kept (w_contents w) (w_contents w') ∧
    (∀ i, u64_ok i → i ∉ il.*1 → kv_entry (w_contents w') i = kv_entry (w_contents w) i).
Proof using HL.
  revert w q. induction il as [|[id e] il IH]; intros w q Hq Hns Hnd Hall; simpl.
  { intros [= <- <-]. exists q, []. repeat (split; [done|]). split; [by rewrite app_nil_r|].
    split; [done|]. split; [set_solver|]. split; [|split; [apply kept_refl|done]].
    intros m Hm. by apply elem_of_nil in Hm. }
  rewrite fmap_cons in Hnd. apply NoDup_cons in Hnd as [Hni Hnd].
  apply Forall_cons in Hall as [(Hid & He & Hfl) Hall]. simpl in *.
  destruct (kv_push_entry w (u64_be id) e) as [o w1] eqn:Hstep.
  destruct (kv_push_entry_spec w w1 q id e o Hq Hns Hid Hfl He Hstep)
    as (q1 & Hq1 & (Hdq1 & fr1 & Hs1 & Hcase) & Hrow & Hd).
  pose proof (row_kept _ _ _ _ Hid He Hrow Hd) as Hk1.
  destruct o as [x|].
  { destruct Hcase as [(Hf1 & Hi1)|[? _]]; [|done]. intros [= <- <-]. exists q1, fr1. simpl. rewrite Hf1.
    repeat (split; [done|]). split; [apply sublist_nil_l|]. split; [rewrite Hi1; set_solver|].
    split; [intros m Hm; by apply elem_of_nil in Hm|]. split; [done|].
    intros i Hi Hnin. apply (kv_entry_other id); [done|done| |done].
    intros ->. apply Hnin, elem_of_cons. by left. }
  intros Hloop. destruct (IH w1 q1 Hq1) as (q2 & fr2 & Hq2 & Hdq2 & Hs2 & Hsub & Hi2 & Hm2 & Hk2 & Ho2).
  { by rewrite Hdq1. }
  { done. }
  { rewrite Forall_forall in Hall |- *. intros [i x] Hin. destruct (Hall _ Hin) as (Hi & Hx & Hif).
    assert (i ≠ id) as Hne by (intros ->; apply Hni, list_elem_of_fmap; by exists (id, x)).
    simpl in *. split; [done|]. split; [by rewrite <-Hx; apply (kv_entry_other id)|].
    destruct Hcase as [(_ & ->)|(_ & -> & _)]; set_solver. }
  { done. }
  exists q2, (fr1 ++ fr2). simpl. split; [done|]. split; [by rewrite Hdq2|].
  split; [by rewrite Hs2, Hs1, app_assoc|].
  assert (kv_frames (fr1 ++ fr2) = kv_frames fr1 ++ kv_frames fr2) as -> by (unfold kv_frames; by rewrite omap_app).
  split; [|split; [|split; [|split; [by eapply kept_trans|]]]].
  - destruct Hcase as [(-> & _)|(_ & _ & e1 & msg & -> & (Hmid & _) & _)]; [by apply sublist_cons|].
    cbn [app fmap list_fmap]. rewrite Hmid. by apply sublist_skip.
  - destruct Hcase as [(-> & Hi1)|(_ & Hi1 & e1 & msg & -> & (Hmid & _) & _)]; rewrite Hi2, Hi1; [done|].
    cbn [app fmap list_fmap]. rewrite Hmid. set_solver.
  - intros m [Hm|Hm]%elem_of_app; [|by apply Hm2].
    destruct Hcase as [(Hf1 & _)|(_ & _ & e1 & msg & Hf1 & Hcar & He1)]; rewrite Hf1 in Hm; [by apply elem_of_nil in Hm|].
    apply list_elem_of_singleton in Hm as ->. rewrite (proj1 Hcar) in *. exists e1. by rewrite Ho2.
  - intros i Hi Hnin. rewrite not_elem_of_cons in Hnin. destruct Hnin as [Hne Hnin].
    rewrite Ho2 by done. by apply (kv_entry_other id).
Qed.

Lemma kv_drain_spec (s : S) q limit pending :
  queue_ok (contents s) (ko_durable q) → dq_namespace (ko_durable q) = KvPushPending →
  kv_drain s q limit = Ok pending →
  ∃ il, pending = keyed il ∧ il.*1 `sublist_of` (fifo (contents s) KvPushPending).*1 ∧
    Forall (λ p, u64_ok p.1 ∧ kv_entry (contents s) p.1 = Some p.2 ∧ p.1 ∉ ko_in_flight q) il.
Proof.
  intros Hok Hns. unfold kv_drain, dq_drain_batch. rewrite Hns.
  destruct (se_scan_range _ _ _ _) as [rows|] eqn:Hscan; [|done]. simpl.
  apply scan_range_ok in Hscan as [-> _]. rewrite st_scan_from_nil, takeZ_take.
  set (rows := take _ _). intros [Hsub Hel]%drain_decode_ok.
  assert (∀ k v, (k, v) ∈ rows → contents s KvPushPending !! k = Some v) as Hrow.
  { intros k v Hin. apply elem_of_entries. unfold rows in Hin.
    eapply elem_of_sublist; [exact Hin|]. apply sublist_take. }
  assert (∀ p, p ∈ pending → u64_be (be_val p.1) = p.1 ∧ u64_ok (be_val p.1) ∧
    kv_entry (contents s) (be_val p.1) = Some p.2 ∧ be_val p.1 ∉ ko_in_flight q) as Hp.
  { intros [k e] Hin. apply Hel in Hin as (v & Hin & Hskip & Hu). apply Hrow in Hin as Hm. simpl.
    destruct (queue_key _ _ Hok k) as [Hk Hu64]; [rewrite Hns; by eexists|].
    split; [done|]. split; [done|]. split.
    - unfold kv_entry. by rewrite Hk, Hm.
    - unfold kv_batch_id in Hskip. rewrite <-Hk, length_be_bytes in Hskip. cbn [Nat.eqb rbind] in Hskip.
      rewrite u64_be_val in Hskip by done. injection Hskip as Hskip. by apply bool_decide_eq_false in Hskip. }
  exists ((λ p, (be_val p.1, p.2)) <$> pending). split; [|split].
  - unfold keyed. rewrite <-list_fmap_compose. symmetry. rewrite <-(list_fmap_id pending) at 2.
    apply list_fmap_ext. intros i [k e] Hi%list_elem_of_lookup_2. apply Hp in Hi as [Hi _].
    simpl in *. by rewrite Hi.
  - unfold fifo. rewrite <-!list_fmap_compose.
    replace ((fst ∘ (λ p : bytes * PendingKvWrite, (be_val p.1, p.2))) <$> pending)
      with (be_val <$> pending.*1) by (by rewrite <-list_fmap_compose).
    replace ((fst ∘ (λ p : KvPair, (be_val p.1, p.2))) <$> entries (contents s KvPushPending))
      with (be_val <$> (entries (contents s KvPushPending)).*1) by (by rewrite <-list_fmap_compose).
    apply fmap_sublist. etrans; [exact Hsub|]. apply fmap_sublist, sublist_take.
  - apply Forall_fmap, Forall_forall. intros p Hin. simpl. by apply Hp in Hin as [_ ?].
Qed.

Lemma numbered_nodup l : numbered l → NoDup l.*1.
Proof.
  induction 1 as [|p l _ IH Hall]; [constructor|]. rewrite fmap_cons. constructor; [|done].
  intros (r & Hr & Hin)%list_elem_of_fmap. rewrite Forall_forall in Hall. specialize (Hall r Hin). lia.
Qed.

(** Everything one push tick does to the KV queue. *)
Lemma kv_push_spec (w w' : World S) q f :
  kv_world w q → kv_push w = (f, w') →
  ∃ q' frames, let ms := kv_frames frames in
    kv_world w' q' ∧
    sk_sent (w_sink w') = sk_sent (w_sink w) ++ frames ∧
    (km_batch_id <$> ms) `sublist_of` (fifo (w_contents w) KvPushPending).*1 ∧
    (∀ m, m ∈ ms → km_batch_id m ∉ ko_in_flight q) ∧
    ko_in_flight q' = list_to_set (km_batch_id <$> ms) ∪ ko_in_flight q ∧
    (∀ m, m ∈ ms → ∃ e, kv_entry (w_contents w') (km_batch_id m) = Some e ∧
                        carries m (km_batch_id m) e) ∧
    kept (w_contents w) (w_contents w').
Proof using HL.
  intros [Hq Hns Hok]. unfold kv_push, pending_kv_writes. rewrite Hq.
  destruct (kv_drain _ _ _) as [pending|] eqn:Hd.
  2:{ intros [= <- <-]. exists q, []. simpl. split; [by constructor|]. split; [by rewrite app_nil_r|].
      split; [apply sublist_nil_l|]. split; [set_solver|]. split; [set_solver|]. split; [set_solver|].
      apply kept_refl. }
  apply kv_drain_spec in Hd as (il & -> & Hsub & Hall); [|done..].
  assert (NoDup il.*1) as Hnd.
  { eapply sublist_NoDup; [|exact Hsub]. apply numbered_nodup.
    rewrite <-Hns. by apply fifo_numbered. }
  intros Hloop. destruct (kv_loop_spec il w w' q f Hq Hns Hnd Hall Hloop) as
    (q' & fr & Hq' & Hdq & Hs & Hms & Hi & Hm & Hk & Ho).
  exists q', fr. simpl. split.
  { constructor; [done|by rewrite Hdq|]. rewrite Hdq. destruct Hok as [? Hkeys]. split; [done|].
    intros k Hk'. apply Hkeys. rewrite Hns in *. by eapply kept_keys. }
  split; [done|]. split; [by etrans|]. split; [|done]. intros m Hin. rewrite Forall_forall in Hall.
  assert (km_batch_id m ∈ il.*1) as (p & -> & Hp)%list_elem_of_fmap.
  { eapply elem_of_sublist; [|exact Hms]. by apply list_elem_of_fmap_2. }
  by apply Hall.
Qed.

(** C20: one push tick of the KV queue.  The frames that go out are, in queue order
    and without repetition, writes that were stored and not in flight; each frame
    carries its write and exactly the stream number that is by then in the stored
    entry, so a re-send after a reconnect or a restart repeats it; the entries
    that went out are the ones newly in flight; every stored entry is as before, or
    has been given a number it did not have, or was dropped because no frame encodes
    for it. *)
Theorem kv_push_persists_before_send (w w' : World S) q f :
  kv_world w q → kv_push w = (f, w') →
  ∃ q' frames, let ms := kv_frames frames in
    kv_world w' q' ∧
    sk_sent (w_sink w') = sk_sent (w_sink w) ++ frames ∧
    (km_batch_id <$> ms) `sublist_of` (fifo (w_contents w) KvPushPending).*1 ∧
    (∀ m, m ∈ ms → km_batch_id m ∉ ko_in_flight q) ∧
    ko_in_flight q' = list_to_set (km_batch_id <$> ms) ∪ ko_in_flight q ∧
    (∀ m, m ∈ ms → ∃ e, kv_entry (w_contents w') (km_batch_id m) = Some e ∧
                        carries m (km_batch_id m) e) ∧
    kept (w_contents w) (w_contents w').
Proof using HL. apply kv_push_spec. Qed.

(** ** Histories of the KV queue *)

Inductive KvEvent :=
| EvWrite (write : PendingKvWrite)
| EvPush
| EvAck (ack : AckMsg)
| EvReconnect (outcomes : list bool)
| EvRestart (cap : Z).

(** A reconnect clears the fence, the announcements and the in-flight records; a
    restart reopens the queue and reloads the frontiers from storage. *)
Definition reconnect (w : World S) (outcomes : list bool) : World S :=
  let c := w_client w in
  mkWorld (mkSyncClient (cl_producer_id c) (cl_epoch c) false ∅)
    (clear_engine_in_flight (w_delegate w)) (mkSink outcomes (sk_sent (w_sink w))).

Definition restart (w : World S) (cap : Z) : World S :=
  let s := dg_storage (w_delegate w) in
  match load s, kv_open_with_cap s cap with
  | Ok frontiers, Ok q => on_delegate w (with_kv (with_tracker (w_delegate w) (mkTracker s frontiers)) q)
  | _, _ => w
  end.

Definition run_event (w : World S) (ev : KvEvent) : World S :=
  match ev with
  | EvWrite write =>
      match dg_kv (w_delegate w) with
      | None => w
      | Some q =>
          let '(_, (s, q)) := kv_enqueue (dg_storage (w_delegate w)) q write in
          on_delegate w (with_kv (with_storage (w_delegate w) s) q)
      end
  | EvPush => (kv_push w).2
  | EvAck ack => apply_kv_push_ack w ack
  | EvReconnect outcomes => reconnect w outcomes
  | EvRestart cap => restart w cap
  end.

(** Origin has settled entry [id]: it is applied, a duplicate, or refused for good. *)
Definition settles (id : Z) (ev : KvEvent) : Prop :=
  match ev with
  | EvAck ack =>
      ack_batch_id ack = id ∧
      match ack_status ack with Applied | Duplicate | Rejected _ => True | _ => False end
  | _ => False
  end.

Definition event_ok (ev : KvEvent) : Prop :=
  match ev with EvAck ack => u64_ok (ack_batch_id ack) | _ => True end.

Lemma event_write (w : World S) q id e write :
  kv_world w q → u64_ok id →
  ∃ q', kv_world (run_event w (EvWrite write)) q' ∧
    (holds (w_contents w) id e → holds (w_contents (run_event w (EvWrite write))) id e).
Proof.
  intros [Hq Hns Hok] Hid. simpl. rewrite Hq. unfold kv_enqueue.
  destruct (msgpack write) as [p|].
  2:{ destruct (with_parts_kv w (dg_storage (w_delegate w)) q) as [Hwk Hws].
      exists q. split; [|unfold w_contents; simpl; by rewrite Hws].
      constructor; [done|done|]. unfold w_contents; simpl. by rewrite Hws. }
  destruct (enqueue _ _ _) as [r [s d]] eqn:He.
  destruct (enqueue_refines _ _ _ _ _ _ Hok He) as (Hns' & Hcap & Hok' & Hf).
  destruct (with_parts_kv w s (mkKvOutbound d (ko_in_flight q))) as [Hwk Hws].
  exists (mkKvOutbound d (ko_in_flight q)). unfold w_contents. simpl. rewrite Hws. split.
  - constructor; [done|by simpl; rewrite Hns'|]. unfold w_contents; simpl. by rewrite Hws.
  - intros Hh. eapply holds_ext; [|exact Hh]. destruct Hh as (e' & He' & _).
    apply kv_entry_key in He' as [v Hv]. fold (w_contents w) in Hv |- *. rewrite Hv.
    assert ((id, v) ∈ fifo (contents s) KvPushPending) as Hin.
    { assert ((id, v) ∈ fifo (w_contents w) KvPushPending) as Hin0.
      { rewrite <-Hns. apply elem_of_fifo; [done|]. by rewrite Hns. }
      rewrite Hns in Hf. destruct Hf as [[-> _]|[_ ->]]; [|done].
      apply elem_of_app. by left. }
    rewrite <-Hns, <-Hns' in Hin. apply elem_of_fifo in Hin; [|done].
    rewrite Hns', Hns in Hin. by destruct Hin.
Qed.

(** Storage writes outside the queue. *)
Lemma kv_world_meta (w w' : World S) q :
  dg_kv (w_delegate w') = Some q → w_contents w' KvPushPending = w_contents w KvPushPending →
  kv_world w q → kv_world w' q.
Proof.
  intros Hq' Hm [Hq Hns [Hn Hk]]. constructor; [done|done|]. split; [done|].
  intros k. rewrite Hns, Hm, <-Hns. apply Hk.
Qed.

Lemma record_ack_spec (w : World S) sid seq :
  let d := record_stream_ack (w_delegate w) sid seq in
  dg_kv d = dg_kv (w_delegate w) ∧ contents (dg_storage d) KvPushPending = w_contents w KvPushPending.
Proof.
  unfold record_stream_ack, record_ack, w_contents, dg_storage.
  destruct (w_delegate w) as [t k c ts v]. cbn [dg_stream_seq].
  destruct (record_ack_lock _ _ _) as [[enc|] st]; [|done].
  destruct (se_put _ _ _ _) as [r s'] eqn:Hp. simpl. split; [done|]. destruct r as [[]|x].
  - apply put_ok in Hp. by rewrite (Hp KvPushPending), st_put_ne.
  - apply put_err in Hp as [Hp|Hp]; rewrite (Hp KvPushPending); [done|by rewrite st_put_ne].
Qed.

Lemma retire_spec (w : World S) q bid :
  kv_world w q →
  let w' := on_delegate w (retire_kv_write (w_delegate w) bid).2 in
  ∃ q', kv_world w' q' ∧ only_row (w_contents w) (w_contents w') bid.
Proof.
  intros [Hq Hns Hok] w'. destruct (retire_row w q bid Hq Hns) as (Hq' & _ & Hs). fold w' in Hq', Hs.
  eexists. split; [constructor; [exact Hq'|done|]|].
  - destruct Hs as [Hs|Hs]; (eapply queue_ok_ext; [exact Hs|]); [done|]. cbn. rewrite <-Hns. by apply queue_ok_delete.
  - intros k Hk. destruct Hs as [Hs|Hs]; rewrite (Hs KvPushPending); [done|]. by rewrite st_delete_eq, lookup_delete_ne.
Qed.

Lemma event_ack (w : World S) q id e ack :
  kv_world w q → u64_ok id → u64_ok (ack_batch_id ack) →
  ∃ q', kv_world (apply_kv_push_ack w ack) q' ∧
    (¬ settles id (EvAck ack) → holds (w_contents w) id e → holds (w_contents (apply_kv_push_ack w ack)) id e).
Proof.
  intros Hw Hid Hb. unfold apply_kv_push_ack, handle_ack.
  (** Retiring an entry keeps the others. *)
  assert (∀ w1 : World S, kv_world w1 q →
    ∃ q', kv_world (on_delegate w1 (retire_kv_write (w_delegate w1) (ack_batch_id ack)).2) q' ∧
      (ack_batch_id ack ≠ id → holds (w_contents w1) id e →
       holds (w_contents (on_delegate w1 (retire_kv_write (w_delegate w1) (ack_batch_id ack)).2)) id e)) as Hret.
  { intros w1 Hw1. destruct (retire_spec w1 q (ack_batch_id ack) Hw1) as (q' & Hw' & Hk).
    exists q'. split; [done|]. intros Hne Hh1. eapply holds_ext; [|exact Hh1]. apply Hk. by intros ?%u64_be_inj. }
  assert (∀ sid seq, let w1 := on_delegate w (record_stream_ack (w_delegate w) sid seq) in
    ∃ q', kv_world (on_delegate w1 (retire_kv_write (w_delegate w1) (ack_batch_id ack)).2) q' ∧
      (ack_batch_id ack ≠ id → holds (w_contents w) id e →
       holds (w_contents (on_delegate w1 (retire_kv_write (w_delegate w1) (ack_batch_id ack)).2)) id e)) as Happ.
  { intros sid seq w1. destruct (record_ack_spec w sid seq) as [Hq Hc]. destruct (Hret w1) as (q' & Hw' & Hh').
    - apply (kv_world_meta w w1); [|done|done]. simpl. rewrite Hq. by destruct Hw.
    - exists q'. split; [done|]. intros Hne Hh. apply Hh'; [done|]. eapply holds_ext; [|exact Hh].
      unfold w1, w_contents. simpl. by rewrite Hc. }
  unfold settles. destruct (ack_status ack); try (exists q; by split).
  - destruct (Happ (stream_id_for EKv (ack_collection ack)) (ack_applied_seq ack)) as (q' & ? & Hh). exists q'. split; [done|]. intros Hns. apply Hh. naive_solver.
  - destruct (Happ (stream_id_for EKv (ack_collection ack)) (ack_applied_seq ack)) as (q' & ? & Hh). exists q'. split; [done|]. intros Hns. apply Hh. naive_solver.
  - exists q. split; [|done]. by destruct Hw.
  - exists (kv_clear_in_flight q). destruct Hw as [Hq Hn Hok]. split; [|done].
    constructor; simpl; [by rewrite Hq|done|done].
  - destruct (Hret w Hw) as (q' & ? & Hh). exists q'. split; [done|]. intros Hns. apply Hh. naive_solver.
Qed.

Lemma event_holds (w : World S) q id e ev :
  kv_world w q → u64_ok id → event_ok ev →
  ∃ q', kv_world (run_event w ev) q' ∧
    (¬ settles id ev → holds (w_contents w) id e → holds (w_contents (run_event w ev)) id e ∨ unframed id e).
Proof using HL.
  intros Hw Hid Hev. destruct ev as [write| |ack|outcomes|cap].
  - destruct (event_write w q id e write Hw Hid) as (q' & ? & ?). exists q'. auto.
  - simpl. destruct (kv_push w) as [f w'] eqn:Hp. simpl.
    destruct (kv_push_spec w w' q f Hw Hp) as (q' & _ & Hw' & _ & _ & _ & _ & _ & Hk).
    exists q'. split; [done|]. intros _ Hh. pose proof Hh as (e' & He' & _).
    destruct (holds_trans _ (w_contents w') id e e' He' Hh (kept_row _ _ _ _ Hid Hk He')) as [?|[_ ?]]; auto.
  - destruct (event_ack w q id e ack Hw Hid Hev) as (q' & ? & ?). exists q'. auto.
  - destruct Hw as [Hq Hn Hok]. exists (kv_clear_in_flight q). split; [|by left].
    constructor; simpl; [by rewrite Hq|done|done].
  - assert (∃ q', kv_world (restart w cap) q' ∧ w_contents (restart w cap) = w_contents w) as (q' & Hw' & Hc).
    { unfold restart. destruct (load _) as [fr|]; [|by eauto].
      unfold kv_open_with_cap, open_with_cap. destruct (recover_next_id _ _) as [n|] eqn:Hr; [|by eauto].
      simpl. destruct Hw as [Hq Hn Hok]. rewrite <-Hn in Hr. apply (recover_ok _ _ _ Hok) in Hr as [_ Hok'].
      unfold w_contents, dg_storage. simpl. destruct (w_delegate w) as [t k c ts v] eqn:Hd. simpl in *.
      eexists. split; [|done].
      constructor; simpl; [done|done|]. unfold w_contents, dg_storage in *. rewrite Hd in *. simpl in *.
      destruct Hok' as [? Hk]. split; [done|]. simpl in *. by rewrite <-Hn. }
    exists q'. split; [done|]. cbn [run_event]. rewrite Hc. by left.
Qed.

(** C2: a queued KV write is not lost.  Whatever sequence of writes, push ticks,
    acknowledgements, reconnects and restarts follows, and whichever storage
    operations and sends fail on the way, an entry stays stored under its number
    with its collection, key and operation, and with its stream number once it
    has one, until Origin settles that very entry (applied, duplicate, or refused
    for good); the one other way out is an entry for which a frame does not encode. *)
Theorem kv_write_not_lost (w : World S) q id e evs :
  kv_world w q → u64_ok id → kv_entry (w_contents w) id = Some e →
  Forall event_ok evs → Forall (λ ev, ¬ settles id ev) evs →
  let w' := foldl run_event w evs in
  (∃ q', kv_world w' q') ∧
  ((∃ e', kv_entry (w_contents w') id = Some e' ∧
     kv_body e' = kv_body e ∧ (kw_seq e ≠ 0 → kw_seq e' = kw_seq e)) ∨ unframed id e).
Proof using HL.
  intros Hw Hid He Hok Hns w'.
  assert (∃ q', kv_world w' q' ∧ (holds (w_contents w') id e ∨ unframed id e)) as (q' & Hw' & Hh).
  { assert (holds (w_contents w) id e ∨ unframed id e) as Hh by (left; by apply holds_refl). clear He. subst w'.
    revert w q Hw Hh. induction evs as [|ev evs IH]; intros w q Hw Hh; simpl; [by eauto|].
    apply Forall_cons in Hok as [Hok Hoks]. apply Forall_cons in Hns as [Hn Hns].
    destruct (event_holds w q id e ev Hw Hid Hok) as (q1 & Hw1 & Hh1). eapply IH; [done|done|done|].
    destruct Hh as [Hh|?]; [|by right]. destruct (Hh1 Hn Hh); auto. }
  split; [by exists q'|]. destruct Hh as [(e' & He' & Hb & Hs)|?]; [left|by right].
  exists e'. repeat (split; [done|]). intros Hz. by rewrite Hs.
Qed.
End kv.

(** ** Concrete codecs

    Small partial encodings that keep the round-trip law, to run the code. *)

Definition pack (seq : Z) (c k : bytes) : option bytes :=
  if (0 <=? seq) && (seq <=? u64_max) && (length c <? 256)%nat
  then Some (u64_be seq ++ [zb (Z.of_nat (length c))] ++ c ++ k) else None.

Definition unpack (b : bytes) : option (Z * bytes * bytes) :=
  match drop 8 b with
  | [] => None
  | n :: r => Some (be_val (take 8 b), take (Z.to_nat (bz n)) r, drop (Z.to_nat (bz n)) r)
  end.

Lemma unpack_pack seq c k b : pack seq c k = Some b → unpack b = Some (seq, c, k).
Proof.
  unfold pack. destruct (Z.leb_spec 0 seq), (Z.leb_spec seq u64_max), (Nat.ltb_spec (length c) 256);
    try done. cbn [andb]. intros Hb.
  assert (b = u64_be seq ++ [zb (Z.of_nat (length c))] ++ c ++ k) as -> by congruence. unfold unpack.
  rewrite drop_app_length', take_app_length' by (by rewrite length_be_bytes).
  cbn [app]. rewrite bz_zb_small by lia. rewrite Nat2Z.id, take_app_length, drop_app_length.
  by rewrite u64_be_val by arith.
Qed.

#[local] Instance ex_kv_codec : MsgPack PendingKvWrite := {|
  msgpack w := match kw_op w with KDelete => pack (kw_seq w) (kw_collection w) (kw_key w) | _ => None end;
  unmsgpack b := (λ p, mkPendingKvWrite p.1.2 p.2 KDelete p.1.1) <$> unpack b
|}.

#[local] Instance ex_kv_codec_laws : MsgPackLaws PendingKvWrite.
Proof.
  intros [c k [row exp|] seq] b; simpl; [done|]. intros H%unpack_pack. by rewrite H.
Qed.

#[local] Instance ex_col_codec : MsgPack (PendingColumnarBatch (Value unit)) := {|
  msgpack b :=
    match cb_rows b with
    | [[VNull]] => if (0 <=? cb_batch_id b) && (cb_batch_id b <=? u64_max)
                   then pack (cb_seq b) (cb_collection b) (u64_be (cb_batch_id b) ++ cb_schema_bytes b)
                   else None
    | _ => None
    end;
  unmsgpack b :=
    (λ p, mkColumnarBatch (be_val (take 8 p.2)) p.1.2 [[VNull]] (drop 8 p.2) p.1.1) <$> unpack b
|}.

#[local] Instance ex_col_codec_laws : MsgPackLaws (PendingColumnarBatch (Value unit)).
Proof.
  intros [id c rows sch seq] b.
  cbn [msgpack unmsgpack ex_col_codec cb_rows cb_batch_id cb_seq cb_collection cb_schema_bytes].
  repeat (case_match; try done); simplify_eq.
  intros H1%unpack_pack. rewrite H1. cbn [fmap option_fmap option_map fst snd].
  rewrite drop_app_length', take_app_length' by (by rewrite length_be_bytes).
  by rewrite u64_be_val by arith.
Qed.

#[local] Instance ex_ts_codec : MsgPack (PendingTimeseriesBatch (Value unit)) := {|
  msgpack b :=
    match tb_rows b, tb_column_names b with
    | [[VInteger 5000]], [] =>
        if (0 <=? tb_batch_id b) && (tb_batch_id b <=? u64_max)
        then pack (tb_seq b) (tb_collection b) (u64_be (tb_batch_id b)) else None
    | _, _ => None
    end;
  unmsgpack b :=
    (λ p, mkTimeseriesBatch (be_val p.2) p.1.2 [] [[VInteger 5000]] p.1.1) <$> unpack b
|}.

#[local] Instance ex_ts_codec_laws : MsgPackLaws (PendingTimeseriesBatch (Value unit)).
Proof.
  intros [id c names rows seq] b.
  cbn [msgpack unmsgpack ex_ts_codec tb_rows tb_batch_id tb_seq tb_collection tb_column_names].
  repeat (case_match; try done); simplify_eq.
  intros H1%unpack_pack. rewrite H1. cbn [fmap option_fmap option_map fst snd]. rewrite u64_be_val by arith. done.
Qed.

Definition ex_kind_code (k : EngineKind) : Z :=
  match k with EKv => 0 | EColumnar => 1 | ETimeseries => 2 | EVector => 3 end.

#[local] Instance ex_push_env : PushEnv unit := {|
  stream_id_for k c := ex_kind_code k + 4 * be_val c;
  encodable _ := true;
  has_schema _ := false;
  lite_id := bs "lite";
  row_msgpack _ := Some [];
  gorilla _ := [];
  to_lowercase s := s;
  unix_millis t := t / 1000
|}.

Definition ex_client : SyncClient := mkSyncClient 1 1 false ∅.

(** A delegate over one storage, with these queues. *)
Definition ex_world (s : MemDb) (kv : option KvOutbound) (col : option ColumnarOutbound)
    (ts : option TimeseriesOutbound) (outcomes : list bool) : World MemDb :=
  mkWorld ex_client (mkDelegate (mkTracker s ∅) kv col ts None) (mkSink outcomes []).

(** ** KV: one write, pushed, reconnected and pushed again *)

Definition ex_write : PendingKvWrite := PendingKvWrite_new (bs "users") (bs "u1") KDelete.

Definition ex_kv0 : KvOutbound := mkKvOutbound (mkDurableQueue KvPushPending 10 1) ∅.
Definition ex_w0 : World MemDb := ex_world ∅ (Some ex_kv0) None None [true; false].
Definition ex_w1 : World MemDb := run_event ex_w0 (EvWrite ex_write).

Lemma ex_kv_world0 : kv_world ex_w0 ex_kv0.
Proof.
  constructor; [done|done|]. split; [simpl; arith|]. intros k.
  change (w_contents ex_w0 (dq_namespace (ko_durable ex_kv0)))
    with (contents (∅ : MemDb) KvPushPending).
  rewrite mem_empty_contents, lookup_empty. by intros [? ?].
Qed.

Lemma ex_kv_world1 : ∃ q, kv_world ex_w1 q.
Proof.
  unfold ex_w1, run_event. change (dg_kv (w_delegate ex_w0)) with (Some ex_kv0). cbv iota.
  unfold kv_enqueue. destruct (msgpack ex_write) as [p|]; [|by exists ex_kv0; apply ex_kv_world0].
  destruct (enqueue (dg_storage (w_delegate ex_w0)) (ko_durable ex_kv0) p) as [r [s d]] eqn:He.
  destruct (enqueue_refines _ _ _ _ _ _ (kw_ok _ _ ex_kv_world0) He) as (Hns & _ & Hok & _).
  exists (mkKvOutbound d ∅). by constructor.
Qed.

Lemma ex_entry1 : kv_entry (w_contents ex_w1) 1 = Some ex_write.
Proof.
  unfold kv_entry, w_contents. change (contents (dg_storage (w_delegate ex_w1)) KvPushPending)
    with (ns_view (dg_storage (w_delegate ex_w1)) KvPushPending).
  rewrite ns_view_lookup. vm_compute. reflexivity.
Qed.

(** The message of a push tick carries number 1, which is then stored. *)
Lemma kv_push_persists_before_send_witness :
  ∃ frames, sk_sent (w_sink (kv_push ex_w1).2) = frames ∧ km_seq <$> kv_frames frames = [1].
Proof.
  destruct ex_kv_world1 as [q Hq].
  destruct (kv_push ex_w1) as [f w'] eqn:Hp.
  destruct (kv_push_persists_before_send ex_w1 w' q f Hq Hp)
    as (q' & frames & _ & Hs & _).
  exists frames. assert (w' = (kv_push ex_w1).2) as -> by (by rewrite Hp). split; [exact Hs|].
  rewrite <-(app_nil_l frames). change [] with (sk_sent (w_sink ex_w1)) at 1. rewrite <-Hs.
  vm_compute. reflexivity.
Defined.

(** The write survives a push that fails, a reconnect, a second push and a
    provisional acknowledgement. *)
Definition ex_history : list KvEvent :=
  [EvPush; EvReconnect [true]; EvPush; EvAck (mkAckMsg (bs "users") 1 1 Accepted)].

Lemma kv_write_not_lost_witness :
  ∃ e, kv_entry (w_contents (foldl run_event ex_w1 ex_history)) 1 = Some e ∧ kw_key e = bs "u1".
Proof.
  destruct ex_kv_world1 as [q Hq].
  assert (u64_ok 1) as H1 by arith.
  assert (Forall event_ok ex_history) as Hok by (repeat constructor; simpl; arith).
  assert (Forall (λ ev, ¬ settles 1 ev) ex_history) as Hns by (repeat constructor; simpl; tauto).
  destruct (kv_write_not_lost ex_w1 q 1 ex_write ex_history Hq H1 ex_entry1 Hok Hns)
    as [_ [(e & He & Hb & _)|(m & _ & _ & _ & _ & Hm)]]; [|discriminate Hm].
  exists e. split; [exact He|]. unfold kv_body in Hb. by injection Hb.
Defined.

(** ** Columnar: batch ids restart at 1, durable entries do not *)

Definition ex_col_queue (s : MemDb) : ColumnarOutbound :=
  match col_open s with Ok q => q | Err _ => mkColumnarOutbound (mkDurableQueue ColumnarPending 0 1) 1 ∅ end.

(** Enqueue a row, restart, enqueue another. *)
Definition ex_col_s1 : MemDb := (col_enqueue_row ∅ (ex_col_queue ∅) (bs "c") [VNull] (bs "A")).2.1.
Definition ex_col_s2 : MemDb * ColumnarOutbound :=
  (col_enqueue_row ex_col_s1 (ex_col_queue ex_col_s1) (bs "c") [VNull] (bs "B")).2.
Definition ex_col_sent : World MemDb :=
  (col_push (ex_world ex_col_s2.1 None (Some ex_col_s2.2) None [true; true])).2.
Definition ex_col_acked : World MemDb :=
  handle_columnar_insert_ack ex_col_sent (mkAckMsg (bs "c") 1 1 Applied).

Definition stored_key (w : World MemDb) (ns : Namespace) (id : Z) : bool :=
  match se_get (dg_storage (w_delegate w)) ns (u64_be id) with Ok (Some _) => true | _ => false end.

Definition col_ids (l : list Frame) : list (Z * Z * bytes) :=
  omap (λ f, match f with
             | ColumnarInsert m => Some (cm_batch_id m, cm_seq m, cm_schema_bytes m)
             | _ => None end) l.

(** After a restart two pending columnar batches share a batch id.  A row is
    queued, the process restarts, and another row is queued; both are sent under
    batch id 1, with stream numbers 1 and 2.  When Origin acknowledges the first
    (applied, stream number 1), the handler deletes the second one's durable
    entry, which Origin has not acknowledged, and keeps the first one's. *)
Theorem columnar_ack_deletes_other_batch :
  col_ids (sk_sent (w_sink ex_col_sent)) = [(1, 1, bs "A"); (1, 2, bs "B")] ∧
  stored_key ex_col_sent ColumnarPending 1 = true ∧ stored_key ex_col_sent ColumnarPending 2 = true ∧
  stored_key ex_col_acked ColumnarPending 1 = true ∧ stored_key ex_col_acked ColumnarPending 2 = false.
Proof. vm_compute. done. Qed.

(** ** Timeseries: the in-flight map ignores the collection *)

Definition ex_ts_queue : TimeseriesOutbound :=
  match ts_open (∅ : MemDb) with
  | Ok q => q | Err _ => mkTimeseriesOutbound (mkDurableQueue TimeseriesPending 0 1) 1 ∅ end.

Definition ex_ts_s1 : MemDb * TimeseriesOutbound :=
  (ts_enqueue_row ∅ ex_ts_queue (bs "a") [] [VInteger 5000]).2.
Definition ex_ts_s2 : MemDb * TimeseriesOutbound :=
  (ts_enqueue_row ex_ts_s1.1 ex_ts_s1.2 (bs "b") [] [VInteger 5000]).2.
Definition ex_ts_sent : World MemDb :=
  (ts_push (ex_world ex_ts_s2.1 None None (Some ex_ts_s2.2) [true; true])).2.
Definition ex_ts_acked : World MemDb :=
  handle_timeseries_ack ex_ts_sent (mkAckMsg (bs "a") 1 1 Applied).

Definition ts_ids (l : list Frame) : list (bytes * Z * Z) :=
  omap (λ f, match f with
             | TimeseriesPush m => Some (tm_collection m, tm_batch_id m, tm_seq m)
             | _ => None end) l.

(** Stream numbers are per collection, but the timeseries queue's in-flight
    map is keyed by the number alone.  One row for collection [a] and one for
    [b] are sent, both with stream number 1.  When Origin acknowledges [a]
    through number 1, the handler deletes the durable entry of [b], which Origin
    has not acknowledged, and keeps the one of [a]. *)
Theorem timeseries_ack_crosses_collections :
  ts_ids (sk_sent (w_sink ex_ts_sent)) = [(bs "a", 1, 1); (bs "b", 2, 1)] ∧
  stored_key ex_ts_sent TimeseriesPending 1 = true ∧ stored_key ex_ts_sent TimeseriesPending 2 = true ∧
  stored_key ex_ts_acked TimeseriesPending 1 = true ∧ stored_key ex_ts_acked TimeseriesPending 2 = false.
Proof. vm_compute. done. Qed.
