(* ===== verification/CrdtQueue.v ===== *)
(** * The CRDT engine's outbox and its persistence bookkeeping

    [src/nodedb-lite/src/engine/crdt/engine/]: [types.rs], [pending.rs],
    [deferred.rs] (the export of deferred writes), [persist.rs], [checkpoint.rs],
    [maintenance.rs] and [rotate.rs].  A collection's document is Loro's
    [CrdtState], a parameter: the engine reads its frontier, exports it and
    replaces it.  Live-row enumeration and secondary indexes are derived from the
    documents and are not part of this model. *)

From Stdlib Require Import ZArith Lia Strings.Byte.
From stdpp Require Import prelude gmap strings sorting.
From S2P Require Import Prelude Bytes Ordered Text StorageTrait Outbound.

Local Open Scope Z_scope.

(** What the engine uses of a document.  [None] is an error of the library. *)
Record RekeyedRow := mkRekeyedRow { rr_row_id : bytes; rr_from : Z; rr_to : Z }.

Class CrdtDoc (D VV : Type) := {
  vv_eq_dec :: EqDecision VV;
  oplog_version_vector : D → VV;
  (** Peer and counter pairs of a version vector. *)
  vv_iter : VV → list (Z * Z);
  export_updates_since : D → VV → option bytes;
  export_snapshot : D → option bytes;
  export_local_range : D → Z → Z → option bytes;
  doc_compact : D → option D;
  doc_delete : D → bytes → bytes → D;
  doc_rekey : D → bytes → Z → option (D * list RekeyedRow);
  (** The peer id a collection's document derives from the base id. *)
  collection_peer_id : Z → bytes → Z
}.

Definition DELTA_KEY_PREFIX : bytes := bs "delta:".
Definition SNAPSHOT_KEY : bytes := bs "loro_snapshot:".
Definition STATE_DELTA_KEY : bytes := bs "loro_delta:".
Definition VCLOCK_KEY : bytes := bs "vector_clock".
Definition DELTA_CHECKPOINT_RATIO : Z := 4.
Definition DELTA_CHECKPOINT_MIN_BYTES : Z := 64 * 1024.

#[global] Arguments DELTA_KEY_PREFIX : simpl never.
#[global] Arguments SNAPSHOT_KEY : simpl never.
#[global] Arguments STATE_DELTA_KEY : simpl never.

Record PendingDelta := mkPendingDelta {
  mutation_id : Z;
  pd_collection : bytes;
  pd_document_id : bytes;
  pd_delta_bytes : bytes;
  pd_seq : Z
}.

Record DeferredOp := mkDeferredOp {
  do_collection : bytes;
  do_document_id : bytes;
  from_counter : Z;
  to_counter : Z
}.

(** ** Writes of a flush ([checkpoint.rs]) *)

Inductive CrdtWriteKind :=
| Checkpoint (superseded_deltas : Z)
| DeltaWrite (seq : Z).

Record CrdtWrite (VV : Type) := mkCrdtWrite {
  wr_collection : bytes;
  wr_kind : CrdtWriteKind;
  wr_bytes : bytes;
  wr_version : VV;
  wr_epoch : Z
}.
Arguments mkCrdtWrite {VV}.
Arguments wr_collection {VV}.
Arguments wr_kind {VV}.
Arguments wr_bytes {VV}.
Arguments wr_version {VV}.
Arguments wr_epoch {VV}.

Record CrdtPersisted (VV : Type) := mkCrdtPersisted {
  pe_coll : bytes;
  pe_kind : CrdtWriteKind;
  pe_bytes : Z;
  pe_version : VV;
  pe_epoch : Z
}.
Arguments mkCrdtPersisted {VV}.
Arguments pe_coll {VV}.
Arguments pe_kind {VV}.
Arguments pe_bytes {VV}.
Arguments pe_version {VV}.
Arguments pe_epoch {VV}.

Definition persisted {VV} (w : CrdtWrite VV) : CrdtPersisted VV :=
  mkCrdtPersisted (wr_collection w) (wr_kind w) (Z.of_nat (length (wr_bytes w)))
    (wr_version w) (wr_epoch w).

(** ** The engine *)

Record CrdtEngine (D VV : Type) := mkEngine {
  ce_peer_id : Z;
  ce_states : gmap bytes D;
  ce_next_mid : Z;
  ce_pending : list PendingDelta;
  ce_acked : gmap bytes Z;
  ce_deferred : list DeferredOp;
  (** Mutation id to the revision that made its stored form stale. *)
  ce_unpersisted : gmap Z Z;
  ce_revision : Z;
  ce_delta_writes : Z;
  ce_flushed : gmap bytes VV;
  ce_checkpoint_bytes : gmap bytes Z;
  ce_delta_bytes : gmap bytes Z;
  ce_next_seq : gmap bytes Z;
  ce_epochs : gmap bytes Z
}.
Arguments mkEngine {D VV}.
Arguments ce_peer_id {D VV}.
Arguments ce_states {D VV}.
Arguments ce_next_mid {D VV}.
Arguments ce_pending {D VV}.
Arguments ce_acked {D VV}.
Arguments ce_deferred {D VV}.
Arguments ce_unpersisted {D VV}.
Arguments ce_revision {D VV}.
Arguments ce_delta_writes {D VV}.
Arguments ce_flushed {D VV}.
Arguments ce_checkpoint_bytes {D VV}.
Arguments ce_delta_bytes {D VV}.
Arguments ce_next_seq {D VV}.
Arguments ce_epochs {D VV}.

Section engine.
Context {D VV : Type} `{CrdtDoc D VV}.
Notation Engine := (CrdtEngine D VV).

Definition engine_new (peer_id : Z) : Engine :=
  mkEngine peer_id ∅ 1 [] ∅ [] ∅ 0 0 ∅ ∅ ∅ ∅ ∅.

(** Replace the queue, its dirty marks and the two counters that go with them. *)
Definition set_queue (en : Engine) (pending : list PendingDelta) (marks : gmap Z Z)
    (revision writes : Z) : Engine :=
  let '(mkEngine p st nm _ ak df _ _ _ fl cb db ns ep) := en in
  mkEngine p st nm pending ak df marks revision writes fl cb db ns ep.

Definition set_next_mid (en : Engine) (n : Z) : Engine :=
  let '(mkEngine p st _ pd ak df un rv dw fl cb db ns ep) := en in
  mkEngine p st n pd ak df un rv dw fl cb db ns ep.

(** Replace the persistence marks of the documents. *)
Definition set_marks (en : Engine) (fl : gmap bytes VV) (cb db ns ep : gmap bytes Z) : Engine :=
  let '(mkEngine p st nm pd ak df un rv dw _ _ _ _ _) := en in
  mkEngine p st nm pd ak df un rv dw fl cb db ns ep.

Definition set_states (en : Engine) (st : gmap bytes D) : Engine :=
  let '(mkEngine p _ nm pd ak df un rv dw fl cb db ns ep) := en in
  mkEngine p st nm pd ak df un rv dw fl cb db ns ep.

(** *** [pending.rs] *)

Definition pending_count (en : Engine) : Z := Z.of_nat (length (ce_pending en)).

Definition clear_pending_deltas (en : Engine) : Engine :=
  set_queue en [] ∅ (ce_revision en) (ce_delta_writes en).

Definition mark_delta_unpersisted (en : Engine) (mid : Z) : Engine :=
  let rev := ce_revision en + 1 in
  set_queue en (ce_pending en) (<[mid := rev]> (ce_unpersisted en)) rev (ce_delta_writes en).

Definition pending_deltas_needing_write (en : Engine) : list (PendingDelta * Z) :=
  omap (λ d, pair d <$> ce_unpersisted en !! mutation_id d) (ce_pending en).

Definition has_unpersisted_deltas (en : Engine) : bool :=
  negb (bool_decide (ce_unpersisted en = ∅)).

Definition mark_one_persisted (en : Engine) (written : Z * Z) : Engine :=
  if decide (ce_unpersisted en !! written.1 = Some written.2) then
    set_queue en (ce_pending en) (delete written.1 (ce_unpersisted en)) (ce_revision en)
      (ce_delta_writes en + 1)
  else en.

Definition mark_pending_deltas_persisted (en : Engine) (written : list (Z * Z)) : Engine :=
  foldl mark_one_persisted en written.

(** [retain(|d| d.mutation_id != mid)] and the mark's removal. *)
Definition retire_mid (en : Engine) (mid : Z) : Engine :=
  set_queue en (filter (λ d, mutation_id d ≠ mid) (ce_pending en))
    (delete mid (ce_unpersisted en)) (ce_revision en) (ce_delta_writes en).

Definition drop_pending (en : Engine) (mid : Z) : Engine := retire_mid en mid.

Definition with_seq (d : PendingDelta) (seq : Z) : PendingDelta :=
  mkPendingDelta (mutation_id d) (pd_collection d) (pd_document_id d) (pd_delta_bytes d) seq.

Definition set_pending_delta_seq (en : Engine) (mid seq : Z) : Engine :=
  match position (λ d, mutation_id d =? mid) (ce_pending en) with
  | None => en
  | Some i =>
      match ce_pending en !! i with
      | Some d =>
          if pd_seq d =? 0 then
            mark_delta_unpersisted
              (set_queue en (<[i := with_seq d seq]> (ce_pending en)) (ce_unpersisted en)
                 (ce_revision en) (ce_delta_writes en)) mid
          else en
      | None => en
      end
  end.

Definition acknowledge (en : Engine) (acked_id : Z) : Engine := retire_mid en acked_id.

Definition reject_delta (en : Engine) (mid : Z) : option PendingDelta * Engine :=
  match position (λ d, mutation_id d =? mid) (ce_pending en) with
  | None => (None, en)
  | Some i =>
      match ce_pending en !! i with
      | None => (None, en)
      | Some delta =>
          let en := set_queue en (delete i (ce_pending en)) (delete mid (ce_unpersisted en))
                      (ce_revision en) (ce_delta_writes en) in
          let en :=
            match ce_states en !! pd_collection delta with
            | Some state =>
                set_states en (<[pd_collection delta :=
                                 doc_delete state (pd_collection delta) (pd_document_id delta)]>
                                 (ce_states en))
            | None => en
            end in
          (Some delta, en)
      end
  end.

Definition clock_max (clock : gmap bytes Z) (entry : Z * Z) : gmap bytes Z :=
  let key := fmt_hex16 entry.1 in
  <[key := Z.max (default 0 (clock !! key)) (i64_as_u64 entry.2)]> clock.

Definition export_vector_clock (en : Engine) : gmap bytes Z :=
  foldl (λ clock p, foldl clock_max clock (vv_iter (oplog_version_vector p.2)))
    ∅ (entries (ce_states en)).

Definition set_acked_version (en : Engine) (collection : bytes) (version : Z) : Engine :=
  let '(mkEngine p st nm pd ak df un rv dw fl cb db ns ep) := en in
  mkEngine p st nm pd (<[collection := version]> ak) df un rv dw fl cb db ns ep.

Definition acked_version (en : Engine) (collection : bytes) : Z :=
  default 0 (ce_acked en !! collection).

(** *** [mutate.rs], [deferred.rs]: adding to the queue *)

Definition enqueue_delta (en : Engine) (collection document_id delta_bytes : bytes) : Z * Engine :=
  let mid := ce_next_mid en in
  let en := set_next_mid en (wrap_u64 (mid + 1)) in
  let d := mkPendingDelta mid collection document_id delta_bytes 0 in
  let en := set_queue en (ce_pending en ++ [d]) (ce_unpersisted en) (ce_revision en)
              (ce_delta_writes en) in
  (mid, mark_delta_unpersisted en mid).

(** One deferred write of [flush_deltas]. *)
Definition flush_one (en : Engine) (op : DeferredOp) : res Engine :=
  match ce_states en !! do_collection op with
  | None => Ok en
  | Some state =>
      let? delta_bytes := ok_or (export_local_range state (from_counter op) (to_counter op)) Storage in
      match delta_bytes with
      | [] => Ok en
      | _ => Ok (enqueue_delta en (do_collection op) (do_document_id op) delta_bytes).2
      end
  end.

Definition set_deferred (en : Engine) (df : list DeferredOp) : Engine :=
  let '(mkEngine p st nm pd ak _ un rv dw fl cb db ns ep) := en in
  mkEngine p st nm pd ak df un rv dw fl cb db ns ep.

(** The loop runs on an engine whose deferred list has been taken; an export
    error leaves it there with what was queued so far. *)
Fixpoint flush_loop (en : Engine) (ops : list DeferredOp) : res unit * Engine :=
  match ops with
  | [] => (Ok tt, en)
  | op :: rest =>
      match flush_one en op with
      | Err e => (Err e, en)
      | Ok en => flush_loop en rest
      end
  end.

Definition flush_deltas (en : Engine) : res Z * Engine :=
  let deferred := ce_deferred en in
  let '(r, en) := flush_loop (set_deferred en []) deferred in
  (rmap (λ _, Z.of_nat (length deferred)) r, en).

(** *** [persist.rs] *)

Context `{MsgPack PendingDelta} `{MsgPack (list PendingDelta)}.

Definition serialize_pending_deltas (en : Engine) : res bytes :=
  ok_or (msgpack (ce_pending en)) Serialization.

(** [deltas.iter().map(|d| d.mutation_id).max()]. *)
Definition max_mid (l : list PendingDelta) : option Z :=
  foldl (λ m d, Some (match m with None => mutation_id d | Some x => Z.max x (mutation_id d) end))
    None l.

Definition mark_all (en : Engine) (l : list PendingDelta) : Engine :=
  foldl (λ en d, mark_delta_unpersisted en (mutation_id d)) en l.

Definition restore_pending_deltas (en : Engine) (b : bytes) : Engine :=
  match unmsgpack b with
  | None => en
  | Some deltas =>
      let en := set_next_mid en (wrap_u64 (default 0 (max_mid deltas) + 1)) in
      let en := set_queue en (ce_pending en) ∅ (ce_revision en) (ce_delta_writes en) in
      let en := mark_all en deltas in
      set_queue en deltas (ce_unpersisted en) (ce_revision en) (ce_delta_writes en)
  end.

Definition serialize_delta (d : PendingDelta) : res bytes := ok_or (msgpack d) Serialization.

Definition delta_storage_key (mid : Z) : bytes := DELTA_KEY_PREFIX ++ fmt_hex16 mid.

Definition mid_le (a b : PendingDelta) : Prop := mutation_id a ≤ mutation_id b.
#[export] Instance mid_le_dec : RelDecision mid_le.
Proof. intros a b. unfold mid_le. apply _. Defined.

(** Decode the stored entries; an undecodable one is an error unless it may be
    discarded. *)
Definition decode_deltas (entries : list KvPair) (allow_discard : bool) : res (list PendingDelta) :=
  rfold (λ deltas row,
    match unmsgpack row.2 with
    | Some d => Ok (deltas ++ [d])
    | None => if negb allow_discard then Err Corrupted else Ok deltas
    end) [] entries.

Definition restore_pending_deltas_incremental (en : Engine) (entries : list KvPair)
    (allow_discard : bool) : res Engine :=
  let? deltas := decode_deltas entries allow_discard in
  let deltas := stable_sort mid_le deltas in
  let en := match max_mid deltas with
            | Some max_id => set_next_mid en (wrap_u64 (max_id + 1))
            | None => en
            end in
  Ok (set_queue en deltas ∅ (ce_revision en) (ce_delta_writes en)).

Definition snapshot_key_for (collection : bytes) : bytes := SNAPSHOT_KEY ++ collection.

Definition state_delta_key_for (collection : bytes) (seq : Z) : bytes :=
  STATE_DELTA_KEY ++ collection ++ bs ":" ++ fmt_hex16 seq.

(** [s.rsplit_once(':')]. *)
Definition rsplit_colon (s : bytes) : option (bytes * bytes) :=
  let* i := rposition (λ b, bool_decide (b = x3a)) s in Some (take i s, drop (S i) s).

Definition state_delta_from_key (key : bytes) : option (bytes * Z) :=
  let* rest := strip_prefix STATE_DELTA_KEY key in
  let* suffix := from_utf8 rest in
  let* parts := rsplit_colon suffix in
  if bool_decide (parts.1 = []) then None
  else let* seq := parse_u64 16 parts.2 in Some (parts.1, seq).

Definition collection_from_snapshot_key (key : bytes) : option bytes :=
  let* suffix := strip_prefix SNAPSHOT_KEY key in
  let* s := from_utf8 suffix in
  if bool_decide (s = []) then None else Some s.

(** *** [checkpoint.rs] *)

Definition state_epoch (en : Engine) (collection : bytes) : Z := default 0 (ce_epochs en !! collection).

Definition next_seq_of (en : Engine) (collection : bytes) : Z := default 0 (ce_next_seq en !! collection).

Definition checkpoint_is_due (en : Engine) (collection : bytes) : bool :=
  match ce_checkpoint_bytes en !! collection with
  | None => true
  | Some base =>
      let accumulated := default 0 (ce_delta_bytes en !! collection) in
      Z.max (base / DELTA_CHECKPOINT_RATIO) DELTA_CHECKPOINT_MIN_BYTES <=? accumulated
  end.

(** What one collection needs written. *)
Definition plan_one (en : Engine) (collection : bytes) (state : D) : res (option (CrdtWrite VV)) :=
  let version := oplog_version_vector state in
  let flushed := ce_flushed en !! collection in
  if decide (flushed = Some version) then Ok None
  else
    let write kind b := Some (mkCrdtWrite collection kind b version (state_epoch en collection)) in
    let checkpoint :=
      let? b := ok_or (export_snapshot state) Storage in
      Ok (write (Checkpoint (next_seq_of en collection)) b) in
    match flushed with
    | Some from =>
        if negb (checkpoint_is_due en collection) then
          let? b := ok_or (export_updates_since state from) Storage in
          Ok (write (DeltaWrite (next_seq_of en collection)) b)
        else checkpoint
    | None => checkpoint
    end.

Definition plan_persistence (en : Engine) : res (list (CrdtWrite VV)) :=
  let? plan := rmapM (λ p, plan_one en p.1 p.2) (entries (ce_states en)) in
  Ok (omap id plan).

Definition advance_state_epoch (en : Engine) (collection : bytes) : Engine :=
  set_marks en (ce_flushed en) (ce_checkpoint_bytes en) (ce_delta_bytes en) (ce_next_seq en)
    (<[collection := state_epoch en collection + 1]> (ce_epochs en)).

Definition mark_one_write (en : Engine) (w : CrdtPersisted VV) : Engine :=
  let c := pe_coll w in
  if negb (state_epoch en c =? pe_epoch w) then en
  else
    let fl := <[c := pe_version w]> (ce_flushed en) in
    match pe_kind w with
    | Checkpoint _ =>
        set_marks en fl (<[c := pe_bytes w]> (ce_checkpoint_bytes en))
          (<[c := 0]> (ce_delta_bytes en)) (<[c := 0]> (ce_next_seq en)) (ce_epochs en)
    | DeltaWrite seq =>
        set_marks en fl (ce_checkpoint_bytes en)
          (<[c := default 0 (ce_delta_bytes en !! c) + pe_bytes w]> (ce_delta_bytes en))
          (<[c := seq + 1]> (ce_next_seq en)) (ce_epochs en)
    end.

Definition mark_persisted (en : Engine) (l : list (CrdtPersisted VV)) : Engine :=
  foldl mark_one_write en l.

Definition adopt_persisted_state (en : Engine) (collection : bytes) (version : VV)
    (checkpoint_bytes delta_bytes next_delta_seq : Z) : Engine :=
  set_marks en (<[collection := version]> (ce_flushed en))
    (<[collection := checkpoint_bytes]> (ce_checkpoint_bytes en))
    (<[collection := delta_bytes]> (ce_delta_bytes en))
    (<[collection := next_delta_seq]> (ce_next_seq en)) (ce_epochs en).

(** *** [maintenance.rs] *)

(** Compact every document, in key order; an error stops with the documents
    compacted so far replaced and the marks untouched. *)
Fixpoint compact_states (st : gmap bytes D) (l : list (bytes * D)) : res unit * gmap bytes D :=
  match l with
  | [] => (Ok tt, st)
  | (c, d) :: rest =>
      match doc_compact d with
      | None => (Err Storage, st)
      | Some d' => compact_states (<[c := d']> st) rest
      end
  end.

Definition compact_history (en : Engine) : res unit * Engine :=
  let '(r, st) := compact_states (ce_states en) (entries (ce_states en)) in
  let en := set_states en st in
  match r with
  | Err e => (Err e, en)
  | Ok _ =>
      let en := set_marks en ∅ ∅ ∅ (ce_next_seq en) (ce_epochs en) in
      (Ok tt, foldl advance_state_epoch en (entries st).*1)
  end.

(** *** [rotate.rs] *)

Definition rotate_rows (d : D) (collection : bytes) (rows : list RekeyedRow) (next : Z)
    : res (list PendingDelta * Z) :=
  rfold (λ '(out, next) row,
    let? b := ok_or (export_local_range d (rr_from row) (rr_to row)) Storage in
    match b with
    | [] => Ok (out, next)
    | _ => Ok (out ++ [mkPendingDelta next collection (rr_row_id row) b 0], wrap_u64 (next + 1))
    end) ([], next) rows.

Definition rotate_step (new_peer_id : Z) (acc : gmap bytes D * list PendingDelta * Z)
    (p : bytes * D) : res (gmap bytes D * list PendingDelta * Z) :=
  let '(rotated, pending, next) := acc in
  let '(collection, state) := p in
  let? rekeyed := ok_or (doc_rekey state collection (collection_peer_id new_peer_id collection)) Storage in
  let? q := rotate_rows rekeyed.1 collection rekeyed.2 next in
  Ok (<[collection := rekeyed.1]> rotated, pending ++ q.1, q.2).

Definition rotate_peer_id (en : Engine) (new_peer_id : Z) : res unit * Engine :=
  if new_peer_id =? ce_peer_id en then (Err Storage, en)
  else
    match flush_deltas en with
    | (Err e, en) => (Err e, en)
    | (Ok _, en) =>
        match rfold (rotate_step new_peer_id) (∅, [], ce_next_mid en) (entries (ce_states en)) with
        | Err e => (Err e, en)
        | Ok (rotated, pending, next) =>
            let '(mkEngine _ _ _ _ _ df un rv dw fl cb db ns ep) := en in
            (Ok tt, mkEngine new_peer_id rotated next pending ∅ df un rv dw fl cb db ns ep)
        end
    end.
End engine.
