(* ===== verification/CrdtFlush.v ===== *)
(** * Flushing and restoring the CRDT layer

    The CRDT part of [flush_admitted]
    ([src/nodedb-lite/src/nodedb/core/flush/execute.rs]) and the restore of the
    outbox and of the update log
    ([src/nodedb-lite/src/nodedb/core/open/restore/crdt.rs]).

    A flush reads the stored delta keys, stages a batch under the engine lock,
    commits the batch without the lock, and takes the lock again to record what
    became durable.  The steps are separate definitions, and the step relation
    below lets every queue operation happen between any two of them; the flush
    lock admits one flush at a time. *)

From Stdlib Require Import ZArith Lia Strings.Byte.
From stdpp Require Import prelude gmap strings sorting.
From S2P Require Import Prelude Bytes Ordered Text StorageTrait Pagedb PagedbMem Checksum.
From S2P Require Import Outbound CrdtQueue.

Local Open Scope Z_scope.

Definition META_CRDT_DELTAS : bytes := bs "crdt:pending_deltas".
Definition META_LAST_FLUSHED_MID : bytes := bs "meta:last_flushed_mid".

#[global] Arguments META_CRDT_DELTAS : simpl never.
#[global] Arguments META_LAST_FLUSHED_MID : simpl never.

Section flush.
Context {D VV : Type} `{CrdtDoc D VV}.
Context `{HMd : MsgPack PendingDelta} `{HMl : MsgPack (list PendingDelta)}.
Context {CRC : Crc32c}.
Notation Engine := (CrdtEngine D VV).

(** The writes of one planned document. *)
Definition state_ops (w : CrdtWrite VV) : list WriteOp :=
  match wr_kind w with
  | Checkpoint superseded =>
      ((λ seq, Delete LoroState (state_delta_key_for (wr_collection w) (Z.of_nat seq)))
         <$> seq 0 (Z.to_nat superseded)) ++
      [Put LoroState (snapshot_key_for (wr_collection w)) (wrap (wr_bytes w))]
  | DeltaWrite seq =>
      [Put LoroState (state_delta_key_for (wr_collection w) seq) (wrap (wr_bytes w))]
  end.

(** Stored entries that are no longer pending. *)
Definition retired_keys (en : Engine) (persisted_delta_keys : list bytes) : list bytes :=
  filter (λ k, k ∉ ((λ d, delta_storage_key (mutation_id d)) <$> ce_pending en)) persisted_delta_keys.

Record Staged := mkStaged {
  sg_ops : list WriteOp;
  sg_persisted : list (CrdtPersisted VV);
  sg_written : list (Z * Z)
}.

(** What is staged under the lock.  [index_ops] and [segment_ops] are the writes the
    index catalog and the segment writer add to the same batch. *)
Definition stage_flush (en : Engine) (persisted_delta_keys : list bytes)
    (index_ops segment_ops : list WriteOp) : res Staged :=
  let? plan := plan_persistence en in
  let max_mid := default 0 (max_mid (ce_pending en)) in
  let retired := retired_keys en persisted_delta_keys in
  let needing := pending_deltas_needing_write en in
  let? puts := rmapM (λ p, let? value := serialize_delta p.1 in
                           Ok (Put Crdt (delta_storage_key (mutation_id p.1)) value)) needing in
  let queue_changed := negb (bool_decide (retired = [])) || has_unpersisted_deltas en in
  let? bulk := if queue_changed
               then let? b := serialize_pending_deltas en in Ok [Put Crdt META_CRDT_DELTAS b]
               else Ok [] in
  Ok (mkStaged
        (concat (state_ops <$> plan) ++ (Delete Crdt <$> retired) ++ puts ++ bulk ++ index_ops ++
         [Put Meta META_LAST_FLUSHED_MID (u64_le max_mid)] ++ segment_ops)
        (persisted <$> plan) ((λ p, (mutation_id p.1, p.2)) <$> needing)).

(** What is recorded once the batch has committed. *)
Definition finish_flush (en : Engine) (sg : Staged) : Engine :=
  mark_pending_deltas_persisted (mark_persisted en (sg_persisted sg)) (sg_written sg).

Context {S : Type} `{StorageEngine S}.

Definition scan_delta_keys (s : S) : res (list bytes) :=
  rmap (fmap fst) (se_scan_prefix s Crdt DELTA_KEY_PREFIX).

(** A flush with nothing in between. *)
Definition flush_crdt (s : S) (en : Engine) (index_ops segment_ops : list WriteOp)
    : res unit * (S * Engine) :=
  match scan_delta_keys s with
  | Err e => (Err e, (s, en))
  | Ok keys =>
      match stage_flush en keys index_ops segment_ops with
      | Err e => (Err e, (s, en))
      | Ok sg =>
          let '(r, s) := se_batch_write s (sg_ops sg) in
          match r with
          | Err e => (Err e, (s, en))
          | Ok _ => (Ok tt, (s, finish_flush en sg))
          end
      end
  end.

(** The partial-flush check: the stored high-water mark against the queue. *)
Definition check_partial_flush (s : S) (en : Engine) (may_discard : bool) : res Engine :=
  if 0 <? pending_count en then
    let? last := se_get s Meta META_LAST_FLUSHED_MID in
    match last with
    | Some b =>
        if (length b =? 8)%nat then
          let last_flushed := le_val b in
          let max_pending := default 0 (max_mid (ce_pending en)) in
          if (0 <? max_pending) && (0 <? last_flushed) && negb (max_pending =? last_flushed) then
            if negb may_discard then Err Corrupted else Ok (clear_pending_deltas en)
          else Ok en
        else Ok en
    | None => Ok en
    end
  else Ok en.

(** The outbox at open: the incremental entries, or else the bulk blob. *)
Definition restore_outbox (s : S) (en : Engine) (may_discard : bool) : res Engine :=
  let? incremental := se_scan_prefix s Crdt DELTA_KEY_PREFIX in
  let? en :=
    match incremental with
    | [] =>
        let? bulk := se_get s Crdt META_CRDT_DELTAS in
        match bulk with
        | Some b => Ok (restore_pending_deltas en b)
        | None => Ok en
        end
    | _ => restore_pending_deltas_incremental en incremental may_discard
    end in
  check_partial_flush s en may_discard.
End flush.
Arguments Staged : clear implicits.
