(* ===== verification/CrdtOutbox.v ===== *)
(** * The CRDT outbox is durable

    Theorems about [CrdtQueue.v] and [CrdtFlush.v]: in every interleaving of queue
    operations with the steps of a flush, an entry without a dirty mark is stored
    in its current form; a flush followed by a restart restores the queue; and two
    ways in which the code loses track of what is stored. *)

From Stdlib Require Import ZArith Lia Strings.Byte.
From stdpp Require Import prelude gmap strings sorting.
From S2P Require Import Prelude Bytes Ordered Text StorageTrait Pagedb PagedbMem Checksum.
From S2P Require Import Outbound CrdtQueue CrdtFlush.

Local Open Scope Z_scope.

(** ** Stores *)

Lemma nodup_fst_unique {A B} (l : list (A * B)) x y1 y2 :
  NoDup l.*1 → (x, y1) ∈ l → (x, y2) ∈ l → y1 = y2.
Proof.
  induction l as [|[a b] l IH]; intros Hnd H1 H2; [by apply elem_of_nil in H1|].
  rewrite fmap_cons in Hnd. apply NoDup_cons in Hnd as [Hni Hnd]. simpl in Hni.
  apply elem_of_cons in H1 as [H1|H1], H2 as [H2|H2]; [congruence| | |by apply IH];
    destruct Hni; apply list_elem_of_fmap; simplify_eq; eexists; (split; [|eassumption]); done.
Qed.

(** ** Keys *)

Lemma delta_key_inj i j : u64_ok i → u64_ok j → delta_storage_key i = delta_storage_key j → i = j.
Proof. unfold delta_storage_key. intros ?? He%app_inv_head. by apply fmt_hex16_inj. Qed.

Lemma delta_key_prefix i : starts_with DELTA_KEY_PREFIX (delta_storage_key i) = true.
Proof. apply starts_with_app. Qed.

Lemma delta_key_not_bulk i : delta_storage_key i ≠ META_CRDT_DELTAS.
Proof.
  intros He. pose proof (delta_key_prefix i) as Hp. rewrite He in Hp. by vm_compute in Hp.
Qed.

(** ** The queue *)

Section outbox.
Context {D VV : Type} `{CrdtDoc D VV}.
Context `{HMd : MsgPack PendingDelta} `{HMl : MsgPack (list PendingDelta)}.
Context {HLd : MsgPackLaws PendingDelta}.
Context {CRC : Crc32c}.
Context {S : Type} `{HSL : StorageLaws S}.
Notation Engine := (CrdtEngine D VV).
Notation marks := ce_unpersisted.

Record queue_wf (en : Engine) : Prop := {
  qw_sorted : StronglySorted (λ a b, mutation_id a < mutation_id b) (ce_pending en);
  qw_ids : ∀ d, d ∈ ce_pending en → 0 ≤ mutation_id d < ce_next_mid en;
  qw_next : 0 ≤ ce_next_mid en ≤ u64_max;
  qw_marks : ∀ mid rev, marks en !! mid = Some rev → rev ≤ ce_revision en
}.

(** The stored form of an entry is its current form. *)
Definition stored (m : Store) (d : PendingDelta) : Prop :=
  ∃ b, msgpack d = Some b ∧ m Crdt !! delta_storage_key (mutation_id d) = Some b.

(** Entries without a mark are stored, but for those numbered by a rotation. *)
Definition clean (m : Store) (en : Engine) (R : gset Z) : Prop :=
  ∀ d, d ∈ ce_pending en → marks en !! mutation_id d = None → stored m d ∨ mutation_id d ∈ R.

(** Stored delta keys carry ids the counter has passed. *)
Definition disk_ids (m : Store) (en : Engine) : Prop :=
  ∀ k v, starts_with DELTA_KEY_PREFIX k = true → m Crdt !! k = Some v →
    ∃ mid, k = delta_storage_key mid ∧ 0 ≤ mid < ce_next_mid en.

Lemma pending_unique en d1 d2 :
  queue_wf en → d1 ∈ ce_pending en → d2 ∈ ce_pending en → mutation_id d1 = mutation_id d2 → d1 = d2.
Proof.
  intros [Hs _ _ _]. induction Hs as [|d l _ IH Hall]; intros H1 H2 He; [by apply elem_of_nil in H1|].
  rewrite Forall_forall in Hall.
  apply elem_of_cons in H1 as [->|H1], H2 as [->|H2]; [done| | |by apply IH].
  - specialize (Hall _ H2). lia.
  - specialize (Hall _ H1). lia.
Qed.

(** How queue operations may change the queue while a flush is on its way: an entry
    is unchanged with an unchanged mark, or it has a fresh mark, or a rotation gave it a
    new number; ids are reused only by entries that had them. *)
Record good_change (R : gset Z) (en en' : Engine) : Prop := {
  gc_wf : queue_wf en';
  gc_entry d : d ∈ ce_pending en' →
    d ∈ ce_pending en ∧ marks en' !! mutation_id d = marks en !! mutation_id d ∨
    (∃ rev, marks en' !! mutation_id d = Some rev ∧ ce_revision en < rev) ∨
    mutation_id d ∈ R ∧ ce_next_mid en ≤ mutation_id d;
  gc_ids d : d ∈ ce_pending en' →
    mutation_id d ∈ mutation_id <$> ce_pending en ∨ ce_next_mid en ≤ mutation_id d;
  gc_next : ce_next_mid en ≤ ce_next_mid en';
  gc_rev : ce_revision en ≤ ce_revision en'
}.

Lemma good_refl en : queue_wf en → good_change ∅ en en.
Proof.
  intros Hw. split; [done| | |lia|lia].
  - by left.
  - intros d Hd. left. by apply list_elem_of_fmap_2.
Qed.

(** *** Each queue operation is a good change *)

Lemma sorted_snoc (l : list PendingDelta) d :
  StronglySorted (λ a b, mutation_id a < mutation_id b) l →
  (∀ x, x ∈ l → mutation_id x < mutation_id d) →
  StronglySorted (λ a b, mutation_id a < mutation_id b) (l ++ [d]).
Proof.
  intros Hs Hl. apply StronglySorted_app_2; [|done|repeat constructor].
  intros x y Hx ->%list_elem_of_singleton. by apply Hl.
Qed.

Lemma enqueue_good en coll doc b :
  queue_wf en → ce_next_mid en < u64_max → good_change ∅ en (enqueue_delta en coll doc b).2.
Proof.
  intros [Hs Hi Hn Hm] Hlt. destruct en as [p st nm pd ak df un rv dw fl cb db ns ep]. simpl in *.
  assert (wrap_u64 (nm + 1) = nm + 1) as Hw by (apply wrap_u64_id; arith).
  assert (∀ d, d ∈ pd → mutation_id d ≠ nm) as Hne by (intros d Hd; specialize (Hi d Hd); lia).
  split; simpl; rewrite ?Hw; try lia.
  - split; simpl; [apply sorted_snoc; [done|]; intros x Hx; specialize (Hi x Hx); simpl; lia| |lia|].
    + intros d [Hd| ->%list_elem_of_singleton]%elem_of_app; [specialize (Hi d Hd)|simpl]; lia.
    + intros mid rev. rewrite lookup_insert. case_decide; [intros [= <-]; lia|]. intros Hr%Hm. lia.
  - intros d [Hd| ->%list_elem_of_singleton]%elem_of_app.
    + left. split; [done|]. rewrite lookup_insert_ne; [done|]. specialize (Hne d Hd). congruence.
    + right. left. simpl. exists (rv + 1). rewrite lookup_insert, decide_True by done. split; [done|lia].
  - intros d [Hd| ->%list_elem_of_singleton]%elem_of_app; [left; by apply list_elem_of_fmap_2|].
    right. simpl. lia.
Qed.

Lemma sorted_filter (P : PendingDelta → Prop) `{∀ d, Decision (P d)} l :
  StronglySorted (λ a b, mutation_id a < mutation_id b) l →
  StronglySorted (λ a b, mutation_id a < mutation_id b) (filter P l).
Proof.
  induction 1 as [|d l _ IH Hall]; [constructor|]. rewrite filter_cons. case_decide; [|done].
  constructor; [done|]. rewrite Forall_forall in Hall |- *. intros x [_ Hx]%list_elem_of_filter. by apply Hall.
Qed.

Lemma retire_good en mid : queue_wf en → good_change ∅ en (retire_mid en mid).
Proof.
  intros [Hs Hi Hn Hm]. destruct en as [p st nm pd ak df un rv dw fl cb db ns ep]. simpl in *.
  split; simpl; try lia.
  - split; simpl; [by apply sorted_filter| |done|].
    + intros d [_ Hd]%list_elem_of_filter. by apply Hi.
    + intros m r [_ Hr]%lookup_delete_Some. by apply Hm in Hr.
  - intros d [Hne Hd]%list_elem_of_filter. left. split; [done|]. by rewrite lookup_delete_ne.
  - intros d [_ Hd]%list_elem_of_filter. left. by apply list_elem_of_fmap_2.
Qed.

Lemma position_mid (l : list PendingDelta) mid i :
  position (λ d, mutation_id d =? mid) l = Some i → ∃ d, l !! i = Some d ∧ mutation_id d = mid.
Proof. intros (d & Hd & He & _)%position_Some. exists d. split; [done|]. by apply Z.eqb_eq. Qed.

Lemma elem_of_insert_inv {A} (l : list A) i x y : x ∈ <[i := y]> l → x = y ∨ x ∈ l.
Proof.
  intros [j Hj]%list_elem_of_lookup.
  apply list_lookup_insert_Some in Hj as [(_ & <- & _)|[_ Hj]]; [by left|right].
  by eapply list_elem_of_lookup_2.
Qed.

Lemma sorted_insert_seq (l : list PendingDelta) i d seq :
  l !! i = Some d → StronglySorted (λ a b, mutation_id a < mutation_id b) l →
  StronglySorted (λ a b, mutation_id a < mutation_id b) (<[i := with_seq d seq]> l).
Proof.
  revert i. induction l as [|x l IH]; intros [|i] Hl Hs; simplify_eq/=; inversion Hs as [|?? Hs' Hall]; subst.
  - by constructor.
  - constructor; [by apply IH|]. rewrite Forall_forall in Hall |- *. intros y Hy.
    apply elem_of_insert_inv in Hy as [->|Hy]; [|by apply Hall].
    apply (Hall d). by eapply list_elem_of_lookup_2.
Qed.

Lemma set_seq_good en mid seq : queue_wf en → good_change ∅ en (set_pending_delta_seq en mid seq).
Proof.
  intros Hw. unfold set_pending_delta_seq.
  destruct (position _ _) as [i|] eqn:Hp; [|by apply good_refl].
  apply position_mid in Hp as (d & Hd & <-). rewrite Hd.
  destruct (pd_seq d =? 0); [|by apply good_refl].
  pose proof (pending_unique en) as Huniq. specialize (Huniq). destruct Hw as [Hs Hi Hn Hm] eqn:Hwe.
  destruct en as [p st nm pd ak df un rv dw fl cb db ns ep]. simpl in *.
  assert (∀ x, x ∈ <[i := with_seq d seq]> pd → x = with_seq d seq ∨ x ∈ pd) as Hin.
  { intros x Hx. by apply elem_of_insert_inv in Hx. }
  assert (d ∈ pd) as Hdin by (by eapply list_elem_of_lookup_2).
  split; simpl; try lia.
  - split; simpl; [by apply sorted_insert_seq| |done|].
    + intros x [->|Hx]%Hin; [|by apply Hi]. by apply (Hi d).
    + intros m r. rewrite lookup_insert. case_decide; [intros [= <-]; lia|]. intros Hr%Hm. lia.
  - intros x Hx. destruct (decide (mutation_id x = mutation_id d)) as [He|He].
    + right. left. exists (rv + 1). rewrite He, lookup_insert, decide_True by done. split; [done|lia].
    + left. apply Hin in Hx as [->|Hx]; [done|]. split; [done|]. by rewrite lookup_insert_ne.
  - intros x [->|Hx]%Hin; left; [|by apply list_elem_of_fmap_2].
    change (mutation_id (with_seq d seq)) with (mutation_id d). by apply list_elem_of_fmap_2.
Qed.

Lemma delete_mid (l : list PendingDelta) i d :
  l !! i = Some d → StronglySorted (λ a b, mutation_id a < mutation_id b) l →
  delete i l = filter (λ x, mutation_id x ≠ mutation_id d) l.
Proof.
  revert i. induction l as [|x l IH]; intros [|i] Hl Hs; simplify_eq/=; inversion Hs as [|?? Hs' Hall]; subst;
    rewrite filter_cons; rewrite Forall_forall in Hall.
  - rewrite decide_False by naive_solver. symmetry. apply filter_all. intros y Hy. specialize (Hall y Hy). lia.
  - rewrite decide_True; [f_equal; by apply IH|].
    assert (mutation_id x < mutation_id d); [|lia]. apply Hall. by eapply list_elem_of_lookup_2.
Qed.

(** Only the queue, its marks and its counters matter. *)
Definition same_queue (a b : Engine) : Prop :=
  ce_pending a = ce_pending b ∧ marks a = marks b ∧ ce_revision a = ce_revision b ∧
  ce_next_mid a = ce_next_mid b.

Lemma same_wf a b : same_queue a b → queue_wf a → queue_wf b.
Proof.
  intros (Hp & Hm & Hr & Hn) [? ? ? ?].
  split; rewrite <-?Hp, <-?Hm, <-?Hr, <-?Hn; done.
Qed.

Lemma same_good en a b : same_queue a b → good_change ∅ en a → good_change ∅ en b.
Proof.
  intros Hs [Hw He Hi Hn Hr]. pose proof (same_wf a b Hs Hw). destruct Hs as (Hp & Hmk & Hrv & Hnm).
  split; rewrite <-?Hp, <-?Hmk, <-?Hrv, <-?Hnm; done.
Qed.

Lemma reject_good en mid : queue_wf en → good_change ∅ en (reject_delta en mid).2.
Proof.
  intros Hw. unfold reject_delta.
  destruct (position _ _) as [i|] eqn:Hp; [|by apply good_refl].
  apply position_mid in Hp as (d & Hd & <-). rewrite Hd. simpl.
  eapply same_good; [|by apply (retire_good en (mutation_id d))].
  destruct Hw as [Hs _ _ _]. rewrite (delete_mid _ _ _ Hd Hs).
  unfold same_queue. destruct en; simpl. case_match; simpl; (split; [by apply filter_ext|done]).
Qed.

Lemma clear_good en : queue_wf en → good_change ∅ en (clear_pending_deltas en).
Proof.
  intros [Hs Hi Hn Hm]. destruct en. simpl in *. split; simpl; try lia.
  - split; simpl; [constructor|set_solver|done|]. intros ?? Hr. by rewrite lookup_empty in Hr.
  - set_solver.
  - set_solver.
Qed.

(** Deferred writes are queued one by one. *)
Lemma good_trans R a b c :
  good_change ∅ a b → good_change R b c → good_change R a c.
Proof.
  intros [Wb Eb Ib Nb Rb] [Wc Ec Ic Nc Rc]. split; [done| | |lia|lia].
  - intros d [[Hd Hm]|[(r & Hr & Hlt)|[? ?]]]%Ec.
    + destruct (Eb d Hd) as [[? ?]|[(r & Hr & Hlt)|[? _]]]; [left; split; [done|congruence]| |set_solver].
      right; left. exists r. split; [congruence|done].
    + right; left. exists r. split; [done|lia].
    + right; right. split; [done|lia].
  - intros d Hd. destruct (Ic d Hd) as [(x & -> & Hx)%list_elem_of_fmap|?]; [|right; lia].
    destruct (Ib x Hx) as [?|?]; [by left|by right].
Qed.

Lemma enqueue_next en coll doc b :
  queue_wf en → ce_next_mid en < u64_max →
  ce_next_mid (enqueue_delta en coll doc b).2 = ce_next_mid en + 1.
Proof.
  intros [_ _ Hn _] Hlt. destruct en; simpl in *. apply wrap_u64_id. arith.
Qed.

Lemma flush_loop_good en ops :
  queue_wf en → ce_next_mid en + Z.of_nat (length ops) ≤ u64_max →
  good_change ∅ en (flush_loop en ops).2.
Proof.
  revert en. induction ops as [|op ops IH]; intros en Hw Hn; simpl; [by apply good_refl|].
  assert (∀ en', flush_one en op = Ok en' → en' = en ∨ ∃ b,
    en' = (enqueue_delta en (do_collection op) (do_document_id op) b).2) as Hone.
  { intros en'. unfold flush_one. destruct (_ !! _) as [st|]; [|intros [= <-]; by left].
    destruct (export_local_range _ _ _) as [b|]; simpl; [|done].
    destruct b as [|x b]; intros [= <-]; [by left|right; by exists (x :: b)]. }
  destruct (flush_one en op) as [en1|e]; [|by apply good_refl].
  destruct (Hone en1 eq_refl) as [->|[b ->]]; [apply IH; [done|simpl in *; lia]|].
  simpl in Hn. pose proof (enqueue_good en (do_collection op) (do_document_id op) b Hw ltac:(lia)) as Hg.
  eapply good_trans; [exact Hg|]. apply IH; [apply Hg|].
  rewrite enqueue_next by (done || lia). lia.
Qed.

Lemma flush_deltas_good en :
  queue_wf en → ce_next_mid en + Z.of_nat (length (ce_deferred en)) ≤ u64_max →
  good_change ∅ en (flush_deltas en).2.
Proof.
  intros Hw Hn. unfold flush_deltas.
  assert (same_queue en (set_deferred en [])) as Hs by by destruct en.
  pose proof (flush_loop_good (set_deferred en []) (ce_deferred en)) as Hg.
  destruct (flush_loop _ _) as [r en']. simpl in *.
  specialize (Hg (same_wf _ _ Hs Hw)). destruct Hs as (Hp & Hm & Hr & Hnm).
  rewrite <-Hnm in Hg. specialize (Hg Hn). destruct Hg as [Wc Ec Ic Nc Rc].
  split; rewrite ?Hp, ?Hm, ?Hr, ?Hnm; done.
Qed.

(** *** Steps of the queue *)

Inductive queue_step : Engine → Engine → Prop :=
| q_enqueue en coll doc b :
    ce_next_mid en < u64_max → queue_step en (enqueue_delta en coll doc b).2
| q_flush_deltas en :
    ce_next_mid en + Z.of_nat (length (ce_deferred en)) ≤ u64_max →
    queue_step en (flush_deltas en).2
| q_seq en mid seq : queue_step en (set_pending_delta_seq en mid seq)
| q_ack en mid : queue_step en (acknowledge en mid)
| q_drop en mid : queue_step en (drop_pending en mid)
| q_reject en mid : queue_step en (reject_delta en mid).2
| q_clear en : queue_step en (clear_pending_deltas en)
| q_documents en st : queue_step en (set_states en st)
| q_compact en : queue_step en (compact_history en).2.

Lemma epochs_same l (en : Engine) : same_queue en (foldl advance_state_epoch en l).
Proof.
  revert en. induction l as [|c l IH]; intros en; simpl; [done|].
  destruct (IH (advance_state_epoch en c)) as (? & ? & ? & ?). destruct en; by simpl in *.
Qed.

Lemma compact_same en : same_queue en (compact_history en).2.
Proof.
  unfold compact_history. destruct (compact_states _ _) as [[[]|e] st]; simpl; [|by destruct en].
  destruct (epochs_same (entries st).*1
    (set_marks (set_states en st) ∅ ∅ ∅ (ce_next_seq (set_states en st)) (ce_epochs (set_states en st))))
    as (? & ? & ? & ?). destruct en; by simpl in *.
Qed.

(** *** Rotations *)

(** The deltas a rotation queues, numbered one after the other. *)
Definition numbered_from (next next' : Z) (added : list PendingDelta) : Prop :=
  next + Z.of_nat (length added) ≤ u64_max →
  next' = next + Z.of_nat (length added) ∧ mutation_id <$> added = seqZ next (Z.of_nat (length added)).

Lemma numbered_app next next1 next2 l1 l2 :
  0 ≤ next → numbered_from next next1 l1 → numbered_from next1 next2 l2 → numbered_from next next2 (l1 ++ l2).
Proof.
  intros Hn H1 H2 Hle. rewrite length_app, Nat2Z.inj_add in *. destruct H1 as [-> Hi1]; [lia|].
  destruct H2 as [-> Hi2]; [lia|]. split; [lia|]. by rewrite fmap_app, Hi1, Hi2, seqZ_app by lia.
Qed.

Lemma rotate_rows_nonneg (d : D) coll rows next l next' :
  0 ≤ next → rotate_rows d coll rows next = Ok (l, next') → 0 ≤ next'.
Proof.
  unfold rotate_rows. set (out := @nil PendingDelta) at 2. generalize out. clear out. revert next.
  induction rows as [|row rows IH]; intros next out Hn; cbn [rfold]; [by intros [= _ <-]|].
  destruct (export_local_range _ _ _) as [[|x b]|]; cbn [ok_or rbind]; [by apply IH| |done].
  apply IH. apply wrap_u64_ok.
Qed.

Lemma rotate_rows_numbered (d : D) coll rows next l next' :
  0 ≤ next → rotate_rows d coll rows next = Ok (l, next') → numbered_from next next' l.
Proof.
  intros Hn. unfold rotate_rows.
  assert (∀ out nx, 0 ≤ nx → numbered_from next nx out → ∀ out' nx',
    rfold (λ '(out, next) row,
      let? b := ok_or (export_local_range d (rr_from row) (rr_to row)) Storage in
      match b with
      | [] => Ok (out, next)
      | _ => Ok (out ++ [mkPendingDelta next coll (rr_row_id row) b 0], wrap_u64 (next + 1))
      end) (out, nx) rows = Ok (out', nx') → numbered_from next nx' out') as Hall.
  { induction rows as [|row rows IH]; intros out nx Hnx Hnum out' nx'; cbn [rfold]; [by intros [= <- <-]|].
    destruct (export_local_range _ _ _) as [[|x b]|]; cbn [ok_or rbind]; [by apply IH| |done].
    apply IH; [by apply wrap_u64_ok|]. eapply (numbered_app _ nx); [done|done|]. cbn. intros Hle. split; [|done].
    apply wrap_u64_id. arith. }
  apply Hall; [done|]. intros _. cbn. by rewrite Z.add_0_r.
Qed.

Lemma rotate_states_numbered peer (l : list (bytes * D)) next rotated pending next' :
  0 ≤ next → rfold (rotate_step peer) (∅, [], next) l = Ok (rotated, pending, next') → numbered_from next next' pending.
Proof.
  intros Hn. assert (∀ rot out nx, 0 ≤ nx → numbered_from next nx out → ∀ rot' out' nx',
    rfold (rotate_step peer) (rot, out, nx) l = Ok (rot', out', nx') → numbered_from next nx' out') as Hall.
  { induction l as [|[c d] l IH]; intros rot out nx Hnx Hnum rot' out' nx'; cbn [rfold]; [by intros [= <- <- <-]|].
    unfold rotate_step at 1. destruct (doc_rekey _ _ _) as [rk|]; cbn [ok_or rbind]; [|done].
    destruct (rotate_rows _ _ _ _) as [[added nx1]|] eqn:Hr; cbn [rbind]; [|done].
    apply IH; [by eapply rotate_rows_nonneg|]. eapply numbered_app; [done|done|]. by eapply rotate_rows_numbered. }
  apply Hall; [done|]. intros _. cbn. by rewrite Z.add_0_r.
Qed.

(** The ids a rotation hands out. *)
Definition rotated_ids (en : Engine) (peer : Z) : gset Z :=
  match rotate_peer_id en peer with
  | (Ok _, en') => list_to_set (mutation_id <$> ce_pending en')
  | (Err _, _) => ∅
  end.

Lemma seqZ_sorted (l : list PendingDelta) m n :
  mutation_id <$> l = seqZ m n → StronglySorted (λ a b, mutation_id a < mutation_id b) l.
Proof.
  revert m n. induction l as [|d l IH]; intros m n Hs; [constructor|].
  destruct (decide (0 < n)) as [Hn|Hn]; [|rewrite seqZ_nil in Hs by lia; done].
  rewrite seqZ_cons, fmap_cons in Hs by done. injection Hs as Hd Hl. change (mutation_id <$> l = seqZ (Z.succ m) (Z.pred n)) in Hl.
  constructor; [by eapply IH|].
  apply Forall_forall. intros x Hx. apply (list_elem_of_fmap_2 mutation_id) in Hx. rewrite Hl in Hx.
  apply elem_of_seqZ in Hx. lia.
Qed.

Lemma rotate_good en peer :
  queue_wf en → ce_next_mid en + Z.of_nat (length (ce_deferred en)) ≤ u64_max →
  ce_next_mid (flush_deltas en).2 + Z.of_nat (length (ce_pending (rotate_peer_id en peer).2)) ≤ u64_max →
  good_change (rotated_ids en peer) en (rotate_peer_id en peer).2.
Proof.
  intros Hw Hn Hfit. unfold rotated_ids. pose proof (flush_deltas_good en Hw Hn) as Hg. revert Hfit. unfold rotate_peer_id.
  destruct (peer =? ce_peer_id en); [intros _; by apply good_refl|].
  destruct (flush_deltas en) as [[u|e] en1]; cbn [snd] in Hg |- *; [|done].
  destruct (rfold _ _ _) as [[[rot pending] next]|e] eqn:Hr; [|done].
  destruct Hg as [Hw1 He1 Hi1 Hn1 Hr1]. pose proof (qw_next _ Hw1) as Hnx.
  apply rotate_states_numbered in Hr; [|lia].
  destruct en1 as [p st nm pd ak df un rv dw fl cb db ns ep]. cbn [fst snd ce_pending ce_next_mid ce_unpersisted ce_revision] in *.
  intros Hfit. destruct (Hr Hfit) as [-> Hids].
  assert (∀ d, d ∈ pending → nm ≤ mutation_id d < nm + Z.of_nat (length pending)) as Hid.
  { intros d Hd. apply (list_elem_of_fmap_2 mutation_id) in Hd. rewrite Hids in Hd. by apply elem_of_seqZ in Hd. }
  split; cbn [ce_pending ce_next_mid ce_unpersisted ce_revision].
  - split; cbn [ce_pending ce_next_mid ce_unpersisted ce_revision]; [by eapply seqZ_sorted| |lia|exact (qw_marks _ Hw1)].
    intros d Hd. specialize (Hid d Hd). lia.
  - intros d Hd. right; right. specialize (Hid d Hd). split; [|lia]. apply elem_of_list_to_set. by apply list_elem_of_fmap_2.
  - intros d Hd. right. specialize (Hid d Hd). lia.
  - lia.
  - done.
Qed.

Lemma queue_step_good en en' : queue_wf en → queue_step en en' → good_change ∅ en en'.
Proof.
  intros Hw. destruct 1.
  - by apply enqueue_good.
  - by apply flush_deltas_good.
  - by apply set_seq_good.
  - by apply retire_good.
  - by apply retire_good.
  - by apply reject_good.
  - by apply clear_good.
  - eapply same_good; [|by apply good_refl]. by destruct en.
  - eapply same_good; [apply compact_same|by apply good_refl].
Qed.

(** *** Steps of a flush *)

Inductive Phase :=
| Idle
| Scanned (keys : list bytes)
| InFlight (sg : Staged VV)
| Committed (sg : Staged VV).

(** The store, the engine, where a flush is, and the ids rotations handed out. *)
Record Sys := mkSys { sys_store : S; sys_engine : Engine; sys_phase : Phase; sys_rotated : gset Z }.

(** Writes of other components leave the outbox's rows alone. *)
Definition foreign (ops : list WriteOp) : Prop :=
  Forall (λ op, op_ns op ≠ Crdt ∧ (op_ns op = Meta → op_key op ≠ META_LAST_FLUSHED_MID)) ops.

Inductive sys_step : Sys → Sys → Prop :=
| s_queue s en en' ph R : queue_step en en' → sys_step (mkSys s en ph R) (mkSys s en' ph R)
| s_rotate s en ph R peer :
    ce_next_mid en + Z.of_nat (length (ce_deferred en)) ≤ u64_max →
    ce_next_mid (flush_deltas en).2 + Z.of_nat (length (ce_pending (rotate_peer_id en peer).2)) ≤ u64_max →
    sys_step (mkSys s en ph R) (mkSys s (rotate_peer_id en peer).2 ph (R ∪ rotated_ids en peer))
| s_scan s en keys R : scan_delta_keys s = Ok keys → sys_step (mkSys s en Idle R) (mkSys s en (Scanned keys) R)
| s_stage s en keys i g sg R :
    foreign i → foreign g → stage_flush en keys i g = Ok sg →
    sys_step (mkSys s en (Scanned keys) R) (mkSys s en (InFlight sg) R)
| s_abort s en keys R : sys_step (mkSys s en (Scanned keys) R) (mkSys s en Idle R)
| s_commit s en sg s' R :
    se_batch_write s (sg_ops sg) = (Ok tt, s') →
    sys_step (mkSys s en (InFlight sg) R) (mkSys s' en (Committed sg) R)
| s_fail s en sg e s' R :
    se_batch_write s (sg_ops sg) = (Err e, s') →
    sys_step (mkSys s en (InFlight sg) R) (mkSys s' en Idle R)
| s_finish s en sg R :
    sys_step (mkSys s en (Committed sg) R) (mkSys s (finish_flush en sg) Idle R).

(** What an operation of the batch on the outbox's namespace may be. *)
Inductive staged_op (en : Engine) (sg : Staged VV) : WriteOp → Prop :=
| so_delete mid :
    0 ≤ mid < ce_next_mid en → mid ∉ mutation_id <$> ce_pending en →
    staged_op en sg (Delete Crdt (delta_storage_key mid))
| so_put mid rev b :
    0 ≤ mid < ce_next_mid en → (mid, rev) ∈ sg_written sg →
    (marks en !! mid = Some rev → ∀ d, d ∈ ce_pending en → mutation_id d = mid → msgpack d = Some b) →
    staged_op en sg (Put Crdt (delta_storage_key mid) b)
| so_bulk b : staged_op en sg (Put Crdt META_CRDT_DELTAS b)
| so_foreign op : op_ns op ≠ Crdt → staged_op en sg op.

Definition phase_inv (m : Store) (en : Engine) (ph : Phase) : Prop :=
  match ph with
  | Idle => True
  | Scanned keys => Forall (λ k, ∃ mid, k = delta_storage_key mid ∧ 0 ≤ mid < ce_next_mid en) keys
  | InFlight sg =>
      Forall (staged_op en sg) (sg_ops sg) ∧ NoDup (sg_written sg).*1 ∧
      (∀ mid rev, (mid, rev) ∈ sg_written sg → rev ≤ ce_revision en ∧ 0 ≤ mid < ce_next_mid en ∧
         ∃ b, Put Crdt (delta_storage_key mid) b ∈ sg_ops sg) ∧
      (∀ d, d ∈ ce_pending en → marks en !! mutation_id d = None → mutation_id d ∉ (sg_written sg).*1)
  | Committed sg =>
      NoDup (sg_written sg).*1 ∧
      ∀ mid rev, (mid, rev) ∈ sg_written sg → rev ≤ ce_revision en ∧ mid < ce_next_mid en ∧
        (marks en !! mid = Some rev → ∀ d, d ∈ ce_pending en → mutation_id d = mid → stored m d)
  end.

Record sys_inv (y : Sys) : Prop := {
  si_wf : queue_wf (sys_engine y);
  si_clean : clean (contents (sys_store y)) (sys_engine y) (sys_rotated y);
  si_disk : disk_ids (contents (sys_store y)) (sys_engine y);
  si_phase : phase_inv (contents (sys_store y)) (sys_engine y) (sys_phase y)
}.

Lemma phase_change R m en en' ph :
  queue_wf en → good_change R en en' → phase_inv m en ph → phase_inv m en' ph.
Proof.
  intros Hw [Hw' He Hi Hn Hr].
  (** An entry of a batch that is still marked for it has not changed. *)
  assert (∀ d rev, d ∈ ce_pending en' → mutation_id d < ce_next_mid en → rev ≤ ce_revision en →
    marks en' !! mutation_id d = Some rev → d ∈ ce_pending en ∧ marks en !! mutation_id d = Some rev) as Hold.
  { intros d rev Hd Hlt Hrev Hmk. destruct (He d Hd) as [[? Heq]|[(r & Hmr & ?)|[_ ?]]]; [|rewrite Hmk in Hmr; simplify_eq; lia|lia].
    split; [done|congruence]. }
  destruct ph as [|keys|sg|sg]; simpl; [done|..].
  - intros Hk. eapply Forall_impl; [exact Hk|]. intros k (mid & -> & ?). exists mid. split; [done|lia].
  - intros (Hops & Hnd & Hwr & Hcl). split; [|split; [done|split]].
    + eapply Forall_impl; [exact Hops|]. intros op [mid Hmid Hnot|mid rev b Hmid Hin Hput|b|op' Hop].
      * constructor; [lia|]. intros (d & -> & Hd)%list_elem_of_fmap.
        destruct (Hi d Hd) as [?|?]; [done|lia].
      * apply (so_put _ _ mid rev); [lia|done|]. intros Hmk d Hd <-.
        destruct (Hwr _ rev Hin) as (Hrev & _). destruct (Hold d rev Hd) as [? ?]; [lia|done|done|]. by apply Hput.
      * constructor.
      * by constructor.
    + intros mid rev Hin. destruct (Hwr mid rev Hin) as (? & ? & ?). repeat split; try lia. done.
    + intros d Hd Hnone. destruct (He d Hd) as [[Hd0 Heq]|[(rev & Hrev & _)|[_ Hge]]]; [|congruence|].
      * apply Hcl; [done|congruence].
      * intros ([mid rev] & Hmid & Hin)%list_elem_of_fmap. cbn in Hmid. destruct (Hwr mid rev Hin) as (_ & ? & _). lia.
  - intros [Hnd Hwr]. split; [done|]. intros mid rev Hin. destruct (Hwr mid rev Hin) as (Hrev & Hlt & Hst).
    split; [lia|]. split; [lia|]. intros Hmk d Hd <-. destruct (Hold d rev Hd) as [? ?]; [done|done|done|]. by apply Hst.
Qed.

Lemma inv_change s en en' ph R R' :
  good_change R' en en' → sys_inv (mkSys s en ph R) → sys_inv (mkSys s en' ph (R ∪ R')).
Proof.
  intros Hg [Hw Hc Hd Hp]. simpl in *. split; simpl; [apply Hg| | |by eapply phase_change].
  - intros d Hin Hnone. destruct (gc_entry _ _ _ Hg d Hin) as [[Hin0 Heq]|[(rev & Hrev & _)|[? _]]]; [|congruence|set_solver].
    destruct (Hc d Hin0) as [?|?]; [congruence|by left|set_solver].
  - intros k v Hk Hv. destruct (Hd k v Hk Hv) as (mid & -> & ?). exists mid. split; [done|].
    pose proof (gc_next _ _ _ Hg). lia.
Qed.

Lemma inv_queue s en en' ph R :
  queue_step en en' → sys_inv (mkSys s en ph R) → sys_inv (mkSys s en' ph R).
Proof.
  intros Hq Hinv. rewrite <-(union_empty_r_L R). eapply inv_change; [|exact Hinv].
  apply queue_step_good; [apply (si_wf _ Hinv)|done].
Qed.

Lemma inv_scan s en keys R :
  scan_delta_keys s = Ok keys → sys_inv (mkSys s en Idle R) → sys_inv (mkSys s en (Scanned keys) R).
Proof.
  intros Hk [Hw Hc Hd _]. split; [done..|]. simpl. unfold scan_delta_keys in Hk.
  destruct (se_scan_prefix _ _ _) as [rows|] eqn:Hs; simpl in Hk; [|done]. injection Hk as <-.
  apply scan_prefix_ok in Hs as ->. apply Forall_fmap, Forall_forall. intros [k v] Hin.
  apply elem_of_st_scan_prefix in Hin as [Hp Hv]. by apply (Hd k v).
Qed.

(** The writes of the documents and of the high-water mark are elsewhere. *)
Lemma state_ops_foreign (plan : list (CrdtWrite VV)) op :
  op ∈ concat (state_ops <$> plan) → op_ns op ≠ Crdt.
Proof.
  rewrite list_elem_of_In, in_concat. intros (l & Hl & Hin).
  apply list_elem_of_In in Hl, Hin. apply list_elem_of_fmap in Hl as (w & -> & _).
  unfold state_ops in Hin. destruct (wr_kind w).
  - apply elem_of_app in Hin as [(x & -> & _)%list_elem_of_fmap| ->%list_elem_of_singleton]; done.
  - by apply list_elem_of_singleton in Hin as ->.
Qed.

Lemma elem_of_needing (en : Engine) d rev :
  (d, rev) ∈ pending_deltas_needing_write en ↔ d ∈ ce_pending en ∧ marks en !! mutation_id d = Some rev.
Proof.
  unfold pending_deltas_needing_write. rewrite list_elem_of_omap. split.
  - intros (x & Hx & Hp). destruct (marks en !! mutation_id x) as [r|] eqn:Hr; simplify_eq/=. done.
  - intros [Hd Hr]. exists d. by rewrite Hr.
Qed.

Lemma needing_ids en : queue_wf en →
  NoDup ((λ p, (mutation_id p.1, p.2)) <$> pending_deltas_needing_write en).*1.
Proof.
  intros Hw. assert (NoDup (mutation_id <$> ce_pending en)) as Hnd.
  { destruct Hw as [Hs _ _ _]. induction Hs as [|d l _ IH Hall]; [constructor|].
    rewrite fmap_cons. constructor; [|done]. intros (x & Hx & Hin)%list_elem_of_fmap.
    rewrite Forall_forall in Hall. specialize (Hall x Hin). lia. }
  rewrite <-list_fmap_compose. unfold pending_deltas_needing_write. clear Hw.
  induction (ce_pending en) as [|d l IH]; [constructor|].
  rewrite fmap_cons in Hnd. apply NoDup_cons in Hnd as [Hni Hnd]. specialize (IH Hnd). simpl.
  destruct (marks en !! mutation_id d) as [r|]; simpl; [|done].
  constructor; [|done]. intros ([x r'] & Hx & Hin)%list_elem_of_fmap. simpl in Hx.
  apply list_elem_of_omap in Hin as (y & Hy & Hp). apply Hni. rewrite Hx.
  destruct (marks en !! mutation_id y); simplify_eq/=. by apply list_elem_of_fmap_2.
Qed.

(** The batch, taken apart. *)
Lemma stage_inv en keys i g sg :
  stage_flush en keys i g = Ok sg →
  ∃ plan puts bulk,
    Forall2 (λ p op, ∃ b, msgpack p.1 = Some b ∧ op = Put Crdt (delta_storage_key (mutation_id p.1)) b)
      (pending_deltas_needing_write en) puts ∧
    (∀ op, op ∈ bulk → ∃ b, op = Put Crdt META_CRDT_DELTAS b) ∧
    sg_ops sg = concat (state_ops <$> plan) ++ (Delete Crdt <$> retired_keys en keys) ++ puts ++ bulk ++
      i ++ [Put Meta META_LAST_FLUSHED_MID (u64_le (default 0 (max_mid (ce_pending en))))] ++ g ∧
    sg_persisted sg = persisted <$> plan ∧
    sg_written sg = (λ p, (mutation_id p.1, p.2)) <$> pending_deltas_needing_write en.
Proof.
  unfold stage_flush. intros (plan & Hplan & Hr)%rbind_Ok.
  apply rbind_Ok in Hr as (puts & Hputs & Hr). apply rbind_Ok in Hr as (bulk & Hbulk & [= <-]).
  exists plan, puts, bulk. split; [|split; [|done]].
  - apply rmapM_Ok in Hputs. eapply Forall2_impl; [exact Hputs|]. intros p op Hp.
    apply rbind_Ok in Hp as (b & Hb & [= <-]). unfold serialize_delta in Hb.
    apply ok_or_Ok in Hb. eauto.
  - intros op Hop. case_match; [|injection Hbulk as <-; by apply elem_of_nil in Hop].
    apply rbind_Ok in Hbulk as (b & _ & [= <-]). apply list_elem_of_singleton in Hop as ->. by exists b.
Qed.

Lemma inv_stage s en keys i g sg R :
  foreign i → foreign g → stage_flush en keys i g = Ok sg →
  sys_inv (mkSys s en (Scanned keys) R) → sys_inv (mkSys s en (InFlight sg) R).
Proof.
  intros Hfi Hfg Hst [Hw Hc Hd Hk]. split; [done..|]. simpl in *.
  apply stage_inv in Hst as (plan & puts & bulk & Hputs & Hbulk & Hops & _ & Hwr).
  rewrite Forall_forall in Hk. unfold foreign in *. rewrite Forall_forall in Hfi, Hfg.
  assert (∀ op, op ∈ puts → ∃ d rev b, op = Put Crdt (delta_storage_key (mutation_id d)) b ∧
    msgpack d = Some b ∧ d ∈ ce_pending en ∧ marks en !! mutation_id d = Some rev) as Hput.
  { intros op [j Hj]%list_elem_of_lookup. eapply Forall2_lookup_r in Hj; [|exact Hputs].
    destruct Hj as ([d rev] & Hin%list_elem_of_lookup_2 & b & Hb & ->). apply elem_of_needing in Hin as [? ?].
    exists d, rev, b. done. }
  assert (∀ d rev, d ∈ ce_pending en → marks en !! mutation_id d = Some rev →
    (mutation_id d, rev) ∈ sg_written sg) as Hwin.
  { intros d rev Hdp Hmk. rewrite Hwr. apply list_elem_of_fmap. exists (d, rev). split; [done|].
    by apply elem_of_needing. }
  split; [|split; [by rewrite Hwr; apply needing_ids|split]].
  - apply Forall_forall. intros op. rewrite Hops, !elem_of_app.
    intros [Hop|[Hop|[Hop|[Hop|[Hop|[Hop|Hop]]]]]].
    + apply so_foreign. by eapply state_ops_foreign.
    + apply list_elem_of_fmap in Hop as (k & -> & Hkk). unfold retired_keys in Hkk.
      apply list_elem_of_filter in Hkk as [Hnot Hkk]. destruct (Hk k Hkk) as (mid & -> & Hmid).
      constructor; [done|]. intros (d & -> & Hdp)%list_elem_of_fmap. apply Hnot, list_elem_of_fmap. eauto.
    + destruct (Hput op Hop) as (d & rev & b & -> & Hb & Hdp & Hmk).
      apply (so_put _ _ _ rev); [by apply (qw_ids _ Hw)|by apply Hwin|]. intros _ d' Hd' Hm.
      by rewrite (pending_unique en d' d Hw Hd' Hdp Hm).
    + destruct (Hbulk op Hop) as [b ->]. constructor.
    + apply so_foreign. by apply (Hfi op).
    + apply list_elem_of_singleton in Hop as ->. by apply so_foreign.
    + apply so_foreign. by apply (Hfg op).
  - intros mid rev Hin. rewrite Hwr in Hin. apply list_elem_of_fmap in Hin as ([d r] & [= -> ->] & Hin).
    pose proof Hin as Hin'. apply elem_of_needing in Hin as [Hdp Hmk].
    split; [by apply (qw_marks _ Hw) in Hmk|]. split; [by apply (qw_ids _ Hw)|].
    apply list_elem_of_lookup in Hin' as [j Hj]. eapply Forall2_lookup_l in Hj; [|exact Hputs].
    destruct Hj as (op & Hop & b & Hb & ->). exists b. rewrite Hops, !elem_of_app. simpl.
    right. right. left. by eapply list_elem_of_lookup_2.
  - intros d Hdp Hnone Hin. rewrite Hwr in Hin. apply list_elem_of_fmap in Hin as ([m r] & Hm & Hin).
    apply list_elem_of_fmap in Hin as ([x r'] & [= -> ->] & Hin). apply elem_of_needing in Hin as [_ Hmk].
    simpl in Hm. congruence.
Qed.

(** *** Committing *)

Lemma mid_u64 en d : queue_wf en → d ∈ ce_pending en → u64_ok (mutation_id d).
Proof. intros Hw Hd. pose proof (qw_ids _ Hw d Hd). pose proof (qw_next _ Hw). arith. Qed.

(** A delta key is touched by the batch only where [staged_op] says so. *)
Lemma staged_op_key en sg op d :
  queue_wf en → d ∈ ce_pending en → staged_op en sg op → op_ns op = Crdt →
  op_key op = delta_storage_key (mutation_id d) →
  ∃ rev b, op = Put Crdt (delta_storage_key (mutation_id d)) b ∧ (mutation_id d, rev) ∈ sg_written sg ∧
    (marks en !! mutation_id d = Some rev → msgpack d = Some b).
Proof.
  intros Hw Hd Hop Hn Hk. pose proof (mid_u64 en d Hw Hd) as Hu. pose proof (qw_next _ Hw).
  destruct Hop as [mid Hmid Hnot|mid rev b Hmid Hin Hput|b|op Hf]; simpl in *.
  - apply delta_key_inj in Hk as ->; [|arith|done]. destruct Hnot. by apply list_elem_of_fmap_2.
  - apply delta_key_inj in Hk as ->; [|arith|done]. exists rev, b. split; [done|]. split; [done|].
    intros Hmk. by apply Hput.
  - symmetry in Hk. by apply delta_key_not_bulk in Hk.
  - done.
Qed.

Lemma commit_clean m en sg R :
  queue_wf en → clean m en R → phase_inv m en (InFlight sg) → clean (st_ops m (sg_ops sg)) en R.
Proof.
  intros Hw Hc (Hops & _ & _ & Hcl) d Hd Hnone. destruct (Hc d Hd Hnone) as [(b & Hb & Hm)|?]; [left|by right].
  exists b. split; [done|]. rewrite st_ops_untouched; [done|]. intros op Hin Hn Hk.
  rewrite Forall_forall in Hops.
  destruct (staged_op_key en sg op d Hw Hd (Hops op Hin) Hn Hk) as (rev & b' & _ & Hwr & _).
  apply (Hcl d Hd Hnone). apply list_elem_of_fmap. by exists (mutation_id d, rev).
Qed.

Lemma commit_written m en sg mid rev d :
  queue_wf en → phase_inv m en (InFlight sg) → (mid, rev) ∈ sg_written sg →
  marks en !! mid = Some rev → d ∈ ce_pending en → mutation_id d = mid → stored (st_ops m (sg_ops sg)) d.
Proof.
  intros Hw (Hops & Hnd & Hwr & _) Hin Hmk Hd <-. rewrite Forall_forall in Hops.
  destruct (Hwr _ rev Hin) as (_ & Hmid & b & Hput).
  assert (∀ op, op ∈ sg_ops sg → op_ns op = Crdt → op_key op = delta_storage_key (mutation_id d) →
    ∃ b', op = Put Crdt (delta_storage_key (mutation_id d)) b' ∧ msgpack d = Some b') as Hall.
  { intros op Ho Hn Hk. destruct (staged_op_key en sg op d Hw Hd (Hops op Ho) Hn Hk) as (r' & b' & -> & Hwr' & Hb').
    assert (r' = rev) as -> by (by eapply nodup_fst_unique). eauto. }
  destruct (Hall _ Hput eq_refl eq_refl) as (b' & [= <-] & Hb). exists b. split; [done|].
  apply st_ops_all_put; [by eauto|]. intros op Ho Hn Hk. destruct (Hall op Ho Hn Hk) as (b' & -> & Hb'). congruence.
Qed.

(** Delta keys stay below the counter. *)
Lemma commit_disk m en sg :
  queue_wf en → disk_ids m en → phase_inv m en (InFlight sg) → disk_ids (st_ops m (sg_ops sg)) en.
Proof.
  intros Hw Hd (Hops & _ & _ & _) k v Hk Hv. rewrite Forall_forall in Hops.
  destruct (decide (Exists (λ op, op_ns op = Crdt ∧ op_key op = k) (sg_ops sg))) as [Hex|Hno].
  - apply Exists_exists in Hex as (op & Hin & Hn & <-).
    destruct (Hops op Hin) as [mid Hmid _|mid rev b Hmid _ _|b|op' Hf]; simpl in *; [by eauto..| |done].
    by vm_compute in Hk.
  - rewrite st_ops_untouched in Hv; [by eapply Hd|]. intros op Hin Hn He. destruct Hno.
    apply Exists_exists. eauto.
Qed.

Lemma inv_ext s en ph m R :
  contents s ≡ m → queue_wf en → clean m en R → disk_ids m en → phase_inv m en ph →
  sys_inv (mkSys s en ph R).
Proof.
  intros He Hw Hc Hd Hp. assert (contents s Crdt = m Crdt) as Hm by apply He.
  assert (∀ d, stored m d → stored (contents s) d) as Hst.
  { intros d (b & Hb & Hl). exists b. split; [done|]. by rewrite Hm. }
  split; simpl; [done| | |].
  - intros d Hin Hn. destruct (Hc d Hin Hn); auto.
  - intros k v. rewrite Hm. apply Hd.
  - destruct ph as [|keys|sg|sg]; [done..|]. simpl in *. destruct Hp as [? Hp]. split; [done|].
    intros mid rev Hin. destruct (Hp mid rev Hin) as (? & ? & Hs). split; [done|]. split; [done|]. auto.
Qed.

Lemma inv_commit s en sg s' R :
  se_batch_write s (sg_ops sg) = (Ok tt, s') →
  sys_inv (mkSys s en (InFlight sg) R) → sys_inv (mkSys s' en (Committed sg) R).
Proof.
  intros Hb%batch_ok [Hw Hc Hd Hp]. simpl in *. eapply inv_ext; [exact Hb|done|..].
  - by apply commit_clean.
  - by apply commit_disk.
  - pose proof Hp as (_ & Hnd & Hwr & _). split; [done|]. intros mid rev Hin.
    split; [by apply (Hwr mid rev Hin)|]. split; [by apply (Hwr mid rev Hin)|]. intros Hmk d Hdp Hm. by eapply commit_written.
Qed.

Lemma inv_fail s en sg e s' R :
  se_batch_write s (sg_ops sg) = (Err e, s') →
  sys_inv (mkSys s en (InFlight sg) R) → sys_inv (mkSys s' en Idle R).
Proof.
  intros Hb%batch_err [Hw Hc Hd Hp]. simpl in *. destruct Hb as [Hb|Hb].
  - by eapply inv_ext.
  - eapply inv_ext; [exact Hb|done|by apply commit_clean|by apply commit_disk|done].
Qed.

(** *** Recording what became durable *)

Lemma mark_persisted_same l (en : Engine) : same_queue en (mark_persisted en l).
Proof.
  revert en. induction l as [|w l IH]; intros en; [done|]. simpl.
  destruct (IH (mark_one_write en w)) as (Hp & Hm & Hr & Hn).
  assert (same_queue en (mark_one_write en w)) as (? & ? & ? & ?).
  { unfold mark_one_write. case_match; [done|]. destruct (pe_kind w); by destruct en. }
  unfold same_queue. repeat split; congruence.
Qed.

Lemma mark_deltas_spec written (en : Engine) :
  NoDup written.*1 →
  let en' := mark_pending_deltas_persisted en written in
  ce_pending en' = ce_pending en ∧ ce_revision en' = ce_revision en ∧ ce_next_mid en' = ce_next_mid en ∧
  ∀ mid, marks en' !! mid = marks en !! mid ∧ (∀ rev, (mid, rev) ∈ written → marks en !! mid ≠ Some rev) ∨
         marks en' !! mid = None ∧ ∃ rev, (mid, rev) ∈ written ∧ marks en !! mid = Some rev.
Proof.
  revert en. induction written as [|[m r] written IH]; intros en Hnd en'; subst en'; simpl.
  { repeat (split; [done|]). intros mid. left. split; [done|]. intros rev Hin. by apply elem_of_nil in Hin. }
  rewrite fmap_cons in Hnd. apply NoDup_cons in Hnd as [Hni Hnd]. simpl in Hni.
  destruct (IH (mark_one_persisted en (m, r)) Hnd) as (Hp & Hr & Hn & Hmk).
  assert (∀ rev, (m, rev) ∈ written → False) as Hno.
  { intros rev Hin. apply Hni, list_elem_of_fmap. by exists (m, rev). }
  unfold mark_pending_deltas_persisted in *. unfold mark_one_persisted in *. simpl in *.
  destruct (decide (marks en !! m = Some r)) as [Hm|Hm].
  - assert (∀ x, marks (set_queue en (ce_pending en) (delete m (marks en)) (ce_revision en)
      (ce_delta_writes en + 1)) !! x = delete m (marks en) !! x) as Hdel by (by destruct en).
    repeat (split; [destruct en; simpl in *; congruence|]). intros mid. specialize (Hmk mid). rewrite Hdel in Hmk.
    destruct (decide (mid = m)) as [->|Hne].
    + right. rewrite lookup_delete, decide_True in Hmk by done. destruct Hmk as [[-> _]|[_ (? & _ & ?)]]; [|done].
      split; [done|]. exists r. split; [apply elem_of_cons; by left|done].
    + rewrite lookup_delete_ne in Hmk by done. destruct Hmk as [[Hk Hall]|[Hk (rev & Hin & Hs)]].
      * left. split; [done|]. intros rev [[= -> ->]|Hin]%elem_of_cons; [done|by apply Hall].
      * right. split; [done|]. exists rev. split; [apply elem_of_cons; by right|done].
  - repeat (split; [done|]). intros mid. destruct (Hmk mid) as [[Hk Hall]|[Hk (rev & Hin & Hs)]].
    + left. split; [done|]. intros rev [[= -> ->]|Hin]%elem_of_cons; [done|by apply Hall].
    + right. split; [done|]. exists rev. split; [apply elem_of_cons; by right|done].
Qed.

Lemma finish_spec (en : Engine) (sg : Staged VV) :
  NoDup (sg_written sg).*1 →
  let en' := finish_flush en sg in
  ce_pending en' = ce_pending en ∧ ce_revision en' = ce_revision en ∧ ce_next_mid en' = ce_next_mid en ∧
  ∀ mid, marks en' !! mid = marks en !! mid ∧
           (∀ rev, (mid, rev) ∈ sg_written sg → marks en !! mid ≠ Some rev) ∨
         marks en' !! mid = None ∧ ∃ rev, (mid, rev) ∈ sg_written sg ∧ marks en !! mid = Some rev.
Proof.
  intros Hnd en'. destruct (mark_persisted_same (sg_persisted sg) en) as (Hp & Hm & Hr & Hn).
  destruct (mark_deltas_spec (sg_written sg) (mark_persisted en (sg_persisted sg)) Hnd)
    as (Hp' & Hr' & Hn' & Hmk).
  unfold en', finish_flush. repeat (split; [congruence|]). intros mid. specialize (Hmk mid).
  by rewrite <-Hm in Hmk.
Qed.

Lemma inv_finish s en sg R :
  sys_inv (mkSys s en (Committed sg) R) → sys_inv (mkSys s (finish_flush en sg) Idle R).
Proof.
  intros [Hw Hc Hd [Hnd Hph]]. simpl in *.
  destruct (finish_spec en sg Hnd) as (Hp & Hr & Hn & Hmk). split; simpl; [| | |done].
  - destruct Hw as [? ? ? Hm]. split; rewrite ?Hp, ?Hr, ?Hn; try done.
    intros mid rev Hs. destruct (Hmk mid) as [[He _]|[He _]]; [|congruence].
    apply (Hm mid). congruence.
  - intros d. rewrite Hp. intros Hin Hnone. destruct (Hmk (mutation_id d)) as [[He _]|[_ (rev & Hwr & Hs)]].
    + apply Hc; [done|congruence].
    + destruct (Hph _ _ Hwr) as (_ & _ & Hst). left. by apply (Hst Hs).
  - intros k v Hk Hv. rewrite Hn. by eapply Hd.
Qed.

Lemma sys_step_inv y y' : sys_step y y' → sys_inv y → sys_inv y'.
Proof.
  destruct 1.
  - by apply inv_queue.
  - intros Hinv. eapply inv_change; [|exact Hinv]. apply rotate_good; [apply (si_wf _ Hinv)|done|done].
  - by apply inv_scan.
  - by apply (inv_stage _ _ keys i g).
  - intros [? ? ? _]. by split.
  - by apply inv_commit.
  - by apply (inv_fail _ _ sg e).
  - apply inv_finish.
Qed.

Lemma sys_steps_inv y y' : rtc sys_step y y' → sys_inv y → sys_inv y'.
Proof. induction 1; eauto using sys_step_inv. Qed.

(** C3: no queued mutation is forgotten, but for rotated ones.  Start from a state in
    which nothing is in flight, stored keys are below the counter and unmarked entries
    are stored (a fresh store, for one).  Let queue operations (new deltas, flushes of
    deferred writes, sequence assignments, acknowledgements, drops, rejections,
    document changes and compactions) and rotations of the peer id happen between any
    two steps of any number of flushes, each of which may fail at its batch with either
    outcome.  Then in every state an entry of the queue still has a dirty mark, so the
    next flush writes it, or is stored under its own key in exactly its current form, or
    got its number from a rotation, which marks nothing; ids stay distinct and in
    order. *)
Theorem outbox_durable y y' :
  sys_inv y → rtc sys_step y y' →
  queue_wf (sys_engine y') ∧
  ∀ d, d ∈ ce_pending (sys_engine y') →
    is_Some (marks (sys_engine y') !! mutation_id d) ∨ stored (contents (sys_store y')) d ∨
    mutation_id d ∈ sys_rotated y'.
Proof.
  intros Hinv Hsteps. pose proof (sys_steps_inv y y' Hsteps Hinv) as [Hw Hc _ _].
  split; [done|]. intros d Hd. destruct (marks (sys_engine y') !! mutation_id d) eqn:Hm; [by left; eexists|].
  right. by apply Hc.
Qed.

(** ** Flush, then restart *)

(** The stored rows under the delta prefix. *)
Definition outbox_rows (m : Store) : list KvPair := st_scan_prefix m Crdt DELTA_KEY_PREFIX.

Lemma delta_key_cmp i j :
  u64_ok i → u64_ok j → bytes_cmp (delta_storage_key i) (delta_storage_key j) = (i ?= j).
Proof. intros. unfold delta_storage_key. rewrite bytes_cmp_app. by apply fmt_hex16_cmp. Qed.

(** Rows that are exactly the entries of a queue, in key order, are its encodings in
    queue order. *)
Lemma rows_of_queue m en :
  queue_wf en →
  (∀ k v, (k, v) ∈ outbox_rows m ↔
     ∃ d, d ∈ ce_pending en ∧ k = delta_storage_key (mutation_id d) ∧ msgpack d = Some v) →
  (∀ d, d ∈ ce_pending en → is_Some (msgpack d)) →
  outbox_rows m = omap (λ d, pair (delta_storage_key (mutation_id d)) <$> msgpack d) (ce_pending en).
Proof.
  intros Hw Hrows Henc. apply ksorted_unique; [apply st_scan_prefix_sorted| |].
  - assert (∀ d, d ∈ ce_pending en → u64_ok (mutation_id d)) as Hu by (intros; by eapply mid_u64).
    destruct Hw as [Hs _ _ _]. clear Hrows Henc. induction Hs as [|d l _ IH Hall]; [constructor|].
    simpl. rewrite Forall_forall in Hall.
    assert (ksorted (omap (λ d, pair (delta_storage_key (mutation_id d)) <$> msgpack d) l)) as Hl.
    { apply IH. intros x Hx. apply Hu, elem_of_cons. by right. }
    destruct (msgpack d) as [b|]; simpl; [|done]. constructor; [done|].
    apply Forall_forall. intros [k v] (x & Hx & Hp)%list_elem_of_omap. simpl.
    destruct (msgpack x); simplify_eq/=. unfold bytes_lt. rewrite delta_key_cmp.
    + apply Z.compare_lt_iff, Hall. done.
    + apply Hu, elem_of_cons. by left.
    + apply Hu, elem_of_cons. by right.
  - intros [k v]. rewrite Hrows, list_elem_of_omap. split.
    + intros (d & Hd & -> & Hb). exists d. by rewrite Hb.
    + intros (d & Hd & Hp). destruct (msgpack d) eqn:Hb; simplify_eq/=. eauto.
Qed.

Lemma decode_rows ad l acc :
  (∀ d, d ∈ l → is_Some (msgpack d)) →
  rfold (λ deltas (row : KvPair), match unmsgpack row.2 with
                     | Some d => Ok (deltas ++ [d])
                     | None => if negb ad then Err Corrupted else Ok deltas
                     end) acc (omap (λ d, pair (delta_storage_key (mutation_id d)) <$> msgpack d) l)
  = Ok (acc ++ l).
Proof using HLd.
  revert acc. induction l as [|d l IH]; intros acc Henc; [by rewrite app_nil_r|].
  destruct (Henc d) as [b Hb]; [apply elem_of_cons; by left|]. simpl. rewrite Hb. simpl.
  rewrite (msgpack_roundtrip d b Hb). simpl. rewrite IH; [by rewrite <-app_assoc|].
  intros x Hx. apply Henc, elem_of_cons. by right.
Qed.

Lemma sorted_by_mid l :
  StronglySorted (λ a b, mutation_id a < mutation_id b) l → stable_sort mid_le l = l.
Proof.
  intros Hs. apply stable_sort_id. induction Hs as [|d l _ IH Hall]; constructor; [done|].
  eapply Forall_impl; [exact Hall|]. intros x. unfold mid_le. lia.
Qed.

(** *** What a flush leaves on disk *)

Lemma flush_unmarks en keys i g sg :
  queue_wf en → stage_flush en keys i g = Ok sg →
  ∀ d, d ∈ ce_pending en → marks (finish_flush en sg) !! mutation_id d = None.
Proof.
  intros Hw Hst d Hd. apply stage_inv in Hst as (plan & puts & bulk & _ & _ & _ & _ & Hwr).
  destruct (finish_spec en sg) as (_ & _ & _ & Hmk); [rewrite Hwr; by apply needing_ids|].
  destruct (Hmk (mutation_id d)) as [[He Hall]|[He _]]; [|done]. rewrite He.
  destruct (marks en !! mutation_id d) as [rev|] eqn:Hm; [|done].
  destruct (Hall rev); [|done]. rewrite Hwr. apply list_elem_of_fmap. exists (d, rev). split; [done|].
  by apply elem_of_needing.
Qed.

Lemma flush_rows s en keys i g sg s' R :
  sys_inv (mkSys s en Idle R) → (∀ d, d ∈ ce_pending en → mutation_id d ∉ R) → foreign i → foreign g → scan_delta_keys s = Ok keys →
  stage_flush en keys i g = Ok sg → se_batch_write s (sg_ops sg) = (Ok tt, s') →
  (∀ d, d ∈ ce_pending en → stored (contents s') d) ∧
  (∀ k v, (k, v) ∈ outbox_rows (contents s') ↔
     ∃ d, d ∈ ce_pending en ∧ k = delta_storage_key (mutation_id d) ∧ msgpack d = Some v).
Proof.
  intros Hinv Hrot Hfi Hfg Hscan Hst Hb.
  pose proof (inv_scan s en keys R Hscan Hinv) as Hinv1.
  pose proof (inv_stage s en keys i g sg R Hfi Hfg Hst Hinv1) as Hinv2.
  pose proof (inv_commit s en sg s' R Hb Hinv2) as Hinv3.
  pose proof (inv_finish s' en sg R Hinv3) as Hinv4.
  pose proof (flush_unmarks en keys i g sg (si_wf _ Hinv) Hst) as Hun.
  destruct Hinv4 as [_ Hclean _ _], Hinv2 as [Hw _ Hdisk Hph], Hinv3 as [_ _ Hdisk' _]. simpl in *.
  assert (NoDup (sg_written sg).*1) as Hnd by apply Hph.
  destruct (finish_spec en sg Hnd) as (Hpd & _ & _ & _).
  assert (∀ d, d ∈ ce_pending en → stored (contents s') d) as Hall.
  { intros d Hd. destruct (Hclean d) as [?|Hr]; [by rewrite Hpd|by apply Hun|done|]. by destruct (Hrot d Hd). }
  split; [done|]. intros k v. unfold outbox_rows. rewrite elem_of_st_scan_prefix. split.
  - intros [Hk Hv]. destruct (Hdisk' k v Hk Hv) as (mid & -> & Hmid).
    destruct (decide (Exists (λ d, mutation_id d = mid) (ce_pending en))) as [Hex|Hno].
    { apply Exists_exists in Hex as (d & Hd & <-). destruct (Hall d Hd) as (b & Hbd & Hl).
      exists d. repeat split; [done..|]. congruence. }
    exfalso. apply batch_ok in Hb. rewrite (Hb Crdt) in Hv.
    destruct Hph as (Hops & _ & _ & _). rewrite Forall_forall in Hops. pose proof (qw_next _ Hw).
    assert (∀ op, op ∈ sg_ops sg → op_ns op = Crdt → op_key op = delta_storage_key mid →
      op = Delete Crdt (delta_storage_key mid)) as Hdel.
    { intros op Hin Hn He. apply stage_inv in Hst as (plan & puts & bulk & _ & _ & _ & _ & Hwr).
      destruct (Hops op Hin) as [m0 Hm0 _|m0 r0 b0 Hm0 Hin0 _|b0|op' Hf]; simpl in *; [by rewrite He| | |done].
      - apply delta_key_inj in He as ->; [|arith|arith]. destruct Hno. apply Exists_exists.
        rewrite Hwr in Hin0. apply list_elem_of_fmap in Hin0 as ([d r] & [= -> ->] & Hin0).
        apply elem_of_needing in Hin0 as [? _]. by exists d.
      - symmetry in He. by apply delta_key_not_bulk in He. }
    destruct (decide (Exists (λ op, op_ns op = Crdt ∧ op_key op = delta_storage_key mid) (sg_ops sg)))
      as [Htouch|Hnot].
    { apply Exists_exists in Htouch. rewrite st_ops_all_delete in Hv; done. }
    rewrite st_ops_untouched in Hv by (intros op Ho Hn He; destruct Hnot; apply Exists_exists; eauto).
    apply Hnot, Exists_exists. exists (Delete Crdt (delta_storage_key mid)). split; [|done].
    apply stage_inv in Hst as (plan & puts & bulk & _ & _ & Hops' & _ & _). rewrite Hops', !elem_of_app.
    right. left. apply list_elem_of_fmap. eexists; split; [done|]. apply list_elem_of_filter. split.
    + intros (d & He & Hd)%list_elem_of_fmap. apply Hno, Exists_exists. exists d. split; [done|].
      apply delta_key_inj in He; [done|arith|]. by eapply mid_u64.
    + unfold scan_delta_keys in Hscan. destruct (se_scan_prefix _ _ _) as [rows|] eqn:Hr; simpl in Hscan; [|done].
      injection Hscan as <-. apply scan_prefix_ok in Hr as ->. apply list_elem_of_fmap.
      exists (delta_storage_key mid, v). split; [done|]. by apply elem_of_st_scan_prefix.
  - intros (d & Hd & -> & Hbd). destruct (Hall d Hd) as (b & Hb' & Hl).
    split; [apply delta_key_prefix|]. congruence.
Qed.

Lemma flush_high_water s en keys i g sg s' :
  foreign i → foreign g → stage_flush en keys i g = Ok sg →
  se_batch_write s (sg_ops sg) = (Ok tt, s') →
  contents s' Meta !! META_LAST_FLUSHED_MID = Some (u64_le (default 0 (max_mid (ce_pending en)))).
Proof.
  intros Hfi Hfg Hst Hb. apply batch_ok in Hb. rewrite (Hb Meta).
  apply stage_inv in Hst as (plan & puts & bulk & Hputs & Hbulk & Hops & _ & _).
  unfold foreign in *. rewrite Forall_forall in Hfi, Hfg.
  apply st_ops_all_put.
  - eexists. rewrite Hops, !elem_of_app. split; [do 5 right; left; by apply list_elem_of_singleton|done].
  - intros op. rewrite Hops, !elem_of_app. intros [Hop|[Hop|[Hop|[Hop|[Hop|[Hop|Hop]]]]]] Hn Hk.
    + exfalso. rewrite list_elem_of_In, in_concat in Hop. destruct Hop as (l & Hl & Hin).
      apply list_elem_of_In in Hl, Hin. apply list_elem_of_fmap in Hl as (w & -> & _).
      unfold state_ops in Hin. destruct (wr_kind w).
      * apply elem_of_app in Hin as [(x & -> & _)%list_elem_of_fmap| ->%list_elem_of_singleton]; done.
      * by apply list_elem_of_singleton in Hin as ->.
    + by apply list_elem_of_fmap in Hop as (k & -> & _).
    + apply list_elem_of_lookup in Hop as [j Hj]. eapply Forall2_lookup_r in Hj; [|exact Hputs].
      by destruct Hj as (p & _ & b & _ & ->).
    + by destruct (Hbulk op Hop) as [b ->].
    + by destruct (Hfi op Hop) as [_ Hf]; destruct (Hf Hn).
    + by apply list_elem_of_singleton in Hop as ->.
    + by destruct (Hfg op Hop) as [_ Hf]; destruct (Hf Hn).
Qed.

Lemma max_mid_fold l (acc : option Z) :
  let r := foldl (λ m d, Some (match m with None => mutation_id d | Some x => Z.max x (mutation_id d) end))
             acc l in
  (r = acc ∨ ∃ d, d ∈ l ∧ r = Some (mutation_id d)) ∧ (l ≠ [] → is_Some r).
Proof.
  revert acc. induction l as [|d l IH]; intros acc; simpl; [by split; [left|]|].
  destruct (IH (Some (match acc with None => mutation_id d | Some x => Z.max x (mutation_id d) end)))
    as [[Hr|(x & Hx & Hr)] _]; rewrite Hr; (split; [|by eexists]).
  - destruct acc as [x|].
    + destruct (Z.max_spec x (mutation_id d)) as [[_ ->]|[_ ->]]; [right|by left].
      exists d. split; [apply elem_of_cons; by left|done].
    + right. exists d. split; [apply elem_of_cons; by left|done].
  - right. exists x. split; [apply elem_of_cons; by right|done].
Qed.

Lemma max_mid_ge l acc x :
  foldl (λ m d, Some (match m with None => mutation_id d | Some x => Z.max x (mutation_id d) end)) acc l
    = Some x →
  (∀ y, acc = Some y → y ≤ x) ∧ ∀ d, d ∈ l → mutation_id d ≤ x.
Proof.
  revert acc. induction l as [|a l IH]; intros acc Hf; simpl in Hf.
  - split; [intros y ->; by injection Hf as ->|]. intros d Hd. by apply elem_of_nil in Hd.
  - destruct (IH _ Hf) as [Ha Hl]. specialize (Ha _ eq_refl). split.
    + intros y ->. lia.
    + intros d [->|Hd]%elem_of_cons; [destruct acc; lia|by apply Hl].
Qed.

Lemma max_mid_spec en :
  queue_wf en → ce_pending en ≠ [] →
  ∃ mx, max_mid (ce_pending en) = Some mx ∧ u64_ok mx ∧ wrap_u64 (mx + 1) = mx + 1 ∧
    ∀ d, d ∈ ce_pending en → mutation_id d ≤ mx.
Proof.
  intros Hw Hne. destruct (max_mid_fold (ce_pending en) None) as [Hmax Hs].
  destruct (Hs Hne) as [mx Hmx]. exists mx. split; [done|].
  destruct Hmax as [?|(d & Hd & Hx)]; [congruence|]. rewrite Hx in Hmx. injection Hmx as <-.
  pose proof (qw_ids _ Hw d Hd). pose proof (qw_next _ Hw).
  split; [arith|]. split; [apply wrap_u64_id; arith|]. by eapply max_mid_ge.
Qed.

End outbox.

Section restart.
Context {D VV : Type} `{CrdtDoc D VV}.
Context `{HMd : MsgPack PendingDelta} `{HMl : MsgPack (list PendingDelta)}.
Context {HLd : MsgPackLaws PendingDelta}.
Context {CRC : Crc32c}.
Context {S : Type} `{HSP : StorageProgress S}.

(** An open reads back a queue whose rows and high-water mark are stored. *)
Lemma restore_rows (s : S) (en : CrdtEngine D VV) peer may_discard :
  healthy s → queue_wf en → ce_pending en ≠ [] → (∀ d, d ∈ ce_pending en → is_Some (msgpack d)) →
  outbox_rows (contents s) =
    omap (λ d, pair (delta_storage_key (mutation_id d)) <$> msgpack d) (ce_pending en) →
  contents s Meta !! META_LAST_FLUSHED_MID = Some (u64_le (default 0 (max_mid (ce_pending en)))) →
  ∃ en2 : CrdtEngine D VV, restore_outbox s (engine_new peer) may_discard = Ok en2 ∧
    ce_pending en2 = ce_pending en ∧ ce_unpersisted en2 = ∅ ∧
    ∀ d, d ∈ ce_pending en2 → mutation_id d < ce_next_mid en2.
Proof using HLd HSP.
  intros Hh Hw Hne Henc Hlist Hmark.
  destruct (healthy_scan_prefix s Crdt DELTA_KEY_PREFIX Hh) as [rows Hr].
  destruct (healthy_get s Meta META_LAST_FLUSHED_MID Hh) as [mark Hm].
  apply get_ok in Hm as Hm'. rewrite Hmark in Hm'.
  destruct (max_mid_spec en Hw Hne) as (mx & Hmx & Hok & Hwrap & Hge).
  unfold restore_outbox. rewrite Hr. apply scan_prefix_ok in Hr. fold (outbox_rows (contents s)) in Hr.
  rewrite Hlist in Hr. simpl.
  assert (∃ r rows', rows = r :: rows') as (r & rows' & Hcons).
  { destruct (ce_pending en) as [|d l] eqn:Hpe; [done|]. simpl in Hr.
    destruct (Henc d) as [b Hbd]; [apply elem_of_cons; by left|]. rewrite Hbd in Hr. simpl in Hr. eauto. }
  rewrite Hcons, <-Hcons, Hr. unfold restore_pending_deltas_incremental, decode_deltas.
  rewrite decode_rows by done. simpl. rewrite sorted_by_mid by apply Hw. rewrite Hmx. simpl.
  unfold check_partial_flush, pending_count. simpl. rewrite Hmx in Hm'. simpl in Hm'.
  rewrite (proj2 (Z.ltb_lt 0 (Z.of_nat (length (ce_pending en)))))
    by (destruct (ce_pending en); [done|simpl; lia]).
  rewrite Hm. simpl. rewrite Hm'. rewrite length_le_bytes. cbn [Nat.eqb]. rewrite u64_le_val by done.
  rewrite Hmx. simpl. rewrite Z.eqb_refl. simpl. rewrite andb_false_r.
  eexists. split; [done|]. simpl. split; [done|]. split; [done|].
  rewrite Hwrap. intros d Hd. specialize (Hge d Hd). lia.
Qed.

(** C24: flush, then restart.  In every state that queue operations, rotations and
    flushes lead to from a fresh one, take a flush of a non-empty outbox in which no
    entry got its number from a rotation (a rotation marks nothing, and the flush after
    it writes nothing).  When the flush commits, every entry is unmarked, the rows under
    the delta prefix are exactly the queue's entries (everything acknowledged or dropped
    before is gone), and an open of the store that reads it succeeds and restores the
    queue entry by entry in order, with the id counter past it and nothing marked; the
    partial-flush check accepts the store. *)
Theorem outbox_flush_restart (y0 : Sys) (s s' : S) (en en' : CrdtEngine D VV) R i g peer may_discard :
  sys_inv y0 → rtc sys_step y0 (mkSys s en Idle R) → (∀ d, d ∈ ce_pending en → mutation_id d ∉ R) →
  foreign i → foreign g → ce_pending en ≠ [] →
  flush_crdt s en i g = (Ok tt, (s', en')) → healthy s' →
  ce_pending en' = ce_pending en ∧
  (∀ d, d ∈ ce_pending en → ce_unpersisted en' !! mutation_id d = None) ∧
  outbox_rows (contents s') =
    omap (λ d, pair (delta_storage_key (mutation_id d)) <$> msgpack d) (ce_pending en) ∧
  ∃ en2 : CrdtEngine D VV, restore_outbox s' (engine_new peer) may_discard = Ok en2 ∧
    ce_pending en2 = ce_pending en ∧ ce_unpersisted en2 = ∅ ∧
    ∀ d, d ∈ ce_pending en2 → mutation_id d < ce_next_mid en2.
Proof using HLd HSP.
  intros Hinv0 Hsteps Hrot Hfi Hfg Hne Hfl Hh. pose proof (sys_steps_inv _ _ Hsteps Hinv0) as Hinv. unfold flush_crdt in Hfl.
  destruct (scan_delta_keys s) as [keys|] eqn:Hscan; [|done].
  destruct (stage_flush en keys i g) as [sg|] eqn:Hst; [|done].
  destruct (se_batch_write s (sg_ops sg)) as [[[]|e] s1] eqn:Hb; [|done]. injection Hfl as -> <-.
  pose proof (si_wf _ Hinv) as Hw. simpl in Hw.
  destruct (flush_rows s en keys i g sg s' R Hinv Hrot Hfi Hfg Hscan Hst Hb) as [Hstored Hrows].
  pose proof (flush_unmarks en keys i g sg Hw Hst) as Hun.
  assert (ce_pending (finish_flush en sg) = ce_pending en) as Hpd.
  { apply stage_inv in Hst as (?&?&?&_&_&_&_&Hwr). apply finish_spec. rewrite Hwr. by apply needing_ids. }
  assert (∀ d, d ∈ ce_pending en → is_Some (msgpack d)) as Henc.
  { intros d Hd. destruct (Hstored d Hd) as (b & ? & _). eauto. }
  pose proof (rows_of_queue (contents s') en Hw Hrows Henc) as Hlist.
  split; [done|]. split; [done|]. split; [done|].
  apply restore_rows; try done. exact (flush_high_water s en keys i g sg s' Hfi Hfg Hst Hb).
Qed.
End restart.
