(* ===== verification/CrdtCases.v ===== *)
(** * The CRDT outbox: runs and lapses

    Concrete documents and codecs, on which the theorems of [CrdtOutbox.v] are run,
    and three schedules in which the code of
    [src/nodedb-lite/src/engine/crdt/engine/] leaves the store behind the engine:
    a peer-id rotation whose re-queued rows are not marked, a rotation that is
    flushed as an update on top of the abandoned base, and a compaction that
    overtakes a commit. *)

From Stdlib Require Import ZArith Lia Strings.Byte.
From stdpp Require Import prelude gmap strings sorting.
From S2P Require Import Prelude Bytes Ordered Text StorageTrait Pagedb PagedbMem Checksum.
From S2P Require Import Outbound SyncDelivery CrdtQueue CrdtFlush CrdtOutbox.

Local Open Scope Z_scope.

(** ** A document as the list of its operations

    A frontier is the author and the number of operations; a rekeyed document
    keeps the operations under the new author, as one row. *)

Record ExDoc := mkExDoc { xd_peer : Z; xd_ops : list bytes }.

#[local] Instance ex_crdt_doc : CrdtDoc ExDoc (Z * Z) := {|
  oplog_version_vector d := (xd_peer d, Z.of_nat (length (xd_ops d)));
  vv_iter v := [v];
  export_updates_since d v :=
    Some (concat (if xd_peer d =? v.1 then drop (Z.to_nat v.2) (xd_ops d) else xd_ops d));
  export_snapshot d := Some (bs "S" ++ concat (xd_ops d));
  export_local_range d a b := Some (concat (take (Z.to_nat (b - a)) (drop (Z.to_nat a) (xd_ops d))));
  doc_compact d := Some (mkExDoc (xd_peer d) (replicate (length (xd_ops d)) (concat (xd_ops d))));
  doc_delete d _ _ := mkExDoc (xd_peer d) (xd_ops d ++ [bs "D"]);
  doc_rekey d _ p :=
    Some (mkExDoc p (xd_ops d), [mkRekeyedRow (bs "row") 0 (Z.of_nat (length (xd_ops d)))]);
  collection_peer_id p _ := p
|}.

#[local] Instance ex_delta_codec : MsgPack PendingDelta := {|
  msgpack d :=
    let* inner := pack (mutation_id d) (pd_document_id d) (pd_delta_bytes d) in
    pack (pd_seq d) (pd_collection d) inner;
  unmsgpack b :=
    let* outer := unpack b in
    let* inner := unpack outer.2 in
    Some (mkPendingDelta inner.1.1 outer.1.2 inner.1.2 inner.2 outer.1.1)
|}.

#[local] Instance ex_delta_codec_laws : MsgPackLaws PendingDelta.
Proof.
  intros [mid c doc dl seq] b. cbn [msgpack unmsgpack ex_delta_codec mutation_id pd_document_id
    pd_delta_bytes pd_seq pd_collection].
  destruct (pack mid doc dl) as [inner|] eqn:Hi; simpl; [|done].
  intros ->%unpack_pack. simpl. by rewrite (unpack_pack _ _ _ _ Hi).
Qed.

(** The bulk form: the entries one after the other, each behind its length. *)
Fixpoint pack_list (l : list PendingDelta) : option bytes :=
  match l with
  | [] => Some []
  | d :: l => let* b := msgpack d in let* r := pack_list l in Some (u64_be (Z.of_nat (length b)) ++ b ++ r)
  end.

Fixpoint unpack_list (fuel : nat) (b : bytes) : option (list PendingDelta) :=
  match fuel, b with
  | _, [] => Some []
  | O, _ => None
  | S fuel, _ =>
      let n := Z.to_nat (be_val (take 8 b)) in
      let* d := unmsgpack (take n (drop 8 b)) in
      let* l := unpack_list fuel (drop n (drop 8 b)) in Some (d :: l)
  end.

#[local] Instance ex_queue_codec : MsgPack (list PendingDelta) :=
  {| msgpack := pack_list; unmsgpack b := unpack_list (length b) b |}.

#[local] Program Instance ex_crc : Crc32c := {| crc32c := crc_castagnoli |}.
Next Obligation.
  intros p. unfold crc_castagnoli. rewrite (Z.land_ones _ 32) by lia. apply Z.mod_pos_bound. lia.
Qed.

Definition ExEngine : Type := CrdtEngine ExDoc (Z * Z).

(** ** The theorems, run *)

Definition ex_new : ExEngine := engine_new 1.
Definition ex_en1 : ExEngine := (enqueue_delta ex_new (bs "c") (bs "d") (bs "x")).2.
Definition ex_staged : Staged (Z * Z) :=
  match stage_flush ex_en1 [] [] [] with Ok sg => sg | Err _ => mkStaged [] [] [] end.
(** The sequence number is assigned while the batch is being committed. *)
Definition ex_en2 : ExEngine := set_pending_delta_seq ex_en1 1 7.
Definition ex_s2 : MemDb := (se_batch_write (∅ : MemDb) (sg_ops ex_staged)).2.
Definition ex_en3 : ExEngine := finish_flush ex_en2 ex_staged.

Lemma ex_new_inv : sys_inv (mkSys (∅ : MemDb) ex_new Idle ∅).
Proof.
  split; simpl; [split; simpl; [constructor|set_solver|arith|]| | |done].
  - intros ?? Hr. by rewrite lookup_empty in Hr.
  - intros d Hd. by apply elem_of_nil in Hd.
  - intros k v _ Hk. assert (contents (∅ : MemDb) Crdt !! k = Some v) as Hk' by exact Hk.
    by rewrite mem_empty_contents, lookup_empty in Hk'.
Qed.

Lemma ex_en1_step : rtc sys_step (mkSys (∅ : MemDb) ex_new Idle ∅) (mkSys (∅ : MemDb) ex_en1 Idle ∅).
Proof. apply rtc_once. apply s_queue, (q_enqueue ex_new (bs "c") (bs "d") (bs "x")). vm_compute. done. Qed.

Lemma ex_schedule :
  rtc sys_step (mkSys (∅ : MemDb) ex_new Idle ∅) (mkSys ex_s2 ex_en3 Idle ∅).
Proof.
  eapply rtc_l; [apply s_queue, (q_enqueue ex_new (bs "c") (bs "d") (bs "x")); vm_compute; done|].
  eapply rtc_l; [apply (s_scan _ _ []); vm_compute; done|].
  eapply rtc_l; [apply (s_stage _ _ _ [] [] ex_staged); [constructor|constructor|vm_compute; done]|].
  eapply rtc_l; [apply s_queue, (q_seq _ 1 7)|].
  eapply rtc_l; [apply (s_commit _ _ _ ex_s2)|].
  { assert ((se_batch_write (∅ : MemDb) (sg_ops ex_staged)).1 = Ok tt) as Hr by (vm_compute; done).
    unfold ex_s2. rewrite <-Hr. apply surjective_pairing. }
  eapply rtc_l; [apply s_finish|]. apply rtc_refl.
Qed.

(** The entry got its sequence number during the commit: it keeps a mark. *)
Lemma outbox_durable_witness :
  mutation_id <$> ce_pending ex_en3 = [1] ∧ pd_seq <$> ce_pending ex_en3 = [7] ∧
  ce_unpersisted ex_en3 !! 1 = Some 2 ∧ queue_wf ex_en3.
Proof.
  split; [vm_compute; done|]. split; [vm_compute; done|]. split; [vm_compute; done|].
  apply (outbox_durable (mkSys (∅ : MemDb) ex_new Idle ∅) (mkSys ex_s2 ex_en3 Idle ∅) ex_new_inv ex_schedule).
Defined.

Definition ex_flushed : res unit * (MemDb * ExEngine) := flush_crdt ∅ ex_en1 [] [].

Lemma outbox_flush_restart_witness :
  ∃ en2 : ExEngine, restore_outbox ex_flushed.2.1 (engine_new 9) false = Ok en2 ∧
    mutation_id <$> ce_pending en2 = [1].
Proof.
  assert (ce_pending ex_en1 ≠ []) as Hne by (vm_compute; done).
  assert (flush_crdt (∅ : MemDb) ex_en1 [] [] = (Ok tt, (ex_flushed.2.1, ex_flushed.2.2))) as Hf.
  { assert (ex_flushed.1 = Ok tt) as Hr by (vm_compute; done).
    rewrite <-Hr, <-!surjective_pairing. done. }
  assert (healthy ex_flushed.2.1) as Hh by (vm_compute; done).
  assert (∀ d, d ∈ ce_pending ex_en1 → mutation_id d ∉ (∅ : gset Z)) as Hrot by (intros d _; apply not_elem_of_empty).
  destruct (outbox_flush_restart _ ∅ _ ex_en1 _ ∅ [] [] 9 false ex_new_inv ex_en1_step Hrot
    ltac:(constructor) ltac:(constructor) Hne Hf Hh) as (_ & _ & _ & en2 & Hr & Hp & _).
  exists en2. split; [exact Hr|]. rewrite Hp. vm_compute. done.
Defined.

(** ** A rotation *)

Definition flush_of (p : MemDb * ExEngine) : MemDb * ExEngine := (flush_crdt p.1 p.2 [] []).2.

Definition pending_ids (r : res ExEngine) : res (list Z) := rmap (λ en, mutation_id <$> ce_pending en) r.

(** A document of one row, written and flushed by peer 1; then the rotation to
    peer 2 and the flush that follows it. *)
Definition ex_rot0 : MemDb * ExEngine :=
  flush_of (∅, (enqueue_delta (set_states ex_new {[bs "c" := mkExDoc 1 [bs "a"]]})
                  (bs "c") (bs "row") (bs "a")).2).
Definition ex_rot1 : ExEngine := (rotate_peer_id ex_rot0.2 2).2.
Definition ex_rot2 : MemDb * ExEngine := flush_of (ex_rot0.1, ex_rot1).
(** One more write, flushed. *)
Definition ex_rot3 : MemDb * ExEngine :=
  flush_of (ex_rot2.1, (enqueue_delta ex_rot2.2 (bs "c") (bs "row2") (bs "b")).2).

Definition row_of (s : MemDb) (ns : Namespace) (k : bytes) : res (option bytes) := se_get s ns k.

(** The same rotation when Origin has acknowledged the row before: nothing is queued
    and nothing is stored under the delta prefix when it starts. *)
Definition ex_rot_acked : MemDb * ExEngine := flush_of (ex_rot0.1, acknowledge ex_rot0.2 1).
Definition ex_rot_acked1 : ExEngine := (rotate_peer_id ex_rot_acked.2 2).2.
Definition ex_rot_acked2 : MemDb * ExEngine := flush_of (ex_rot_acked.1, ex_rot_acked1).

(** Rows re-queued by a peer-id rotation are lost at a restart.  A rotation
    replaces the queue with one delta per row (here number 2) and sets no dirty
    mark, so the flush it ends with writes no entry for it.  If the queue was
    settled before, the flush sees no change and does not write the bulk blob
    either: an open restores an empty queue, and the rows are never pushed.
    Otherwise the blob is all that holds number 2; after one more local write
    (number 3) and a flush, an open prefers the entry of 3 to the blob and
    restores 3 alone, and the high-water check sees nothing wrong. *)
Theorem rotated_rows_lost :
  mutation_id <$> ce_pending ex_rot1 = [2] ∧ ce_unpersisted ex_rot1 !! 2 = None ∧
  mutation_id <$> ce_pending ex_rot_acked2.2 = [2] ∧
  pending_ids (restore_outbox ex_rot_acked2.1 (engine_new 2) false) = Ok [] ∧
  mutation_id <$> ce_pending ex_rot3.2 = [2; 3] ∧
  pending_ids (restore_outbox ex_rot3.1 (engine_new 2) false) = Ok [3].
Proof. repeat split; vm_compute; reflexivity. Qed.

(** A rotation is not flushed as a new base.  It leaves the frontier that was
    last written in place, so the flush after it stores an update since that
    frontier on top of the base snapshot, and the base with the abandoned peer's
    operations stays: an open replays both. *)
Theorem rotation_keeps_old_base :
  xd_peer <$> ce_states ex_rot2.2 !! bs "c" = Some 2 ∧
  row_of ex_rot2.1 LoroState (snapshot_key_for (bs "c")) =
    Ok (Some (wrap (bs "S" ++ bs "a"))) ∧
  row_of ex_rot2.1 LoroState (state_delta_key_for (bs "c") 0) = Ok (Some (wrap (bs "a"))).
Proof. repeat split; vm_compute; reflexivity. Qed.

(** ** A compaction that overtakes a commit *)

(** A base is stored; one operation is added and its update staged as number 0;
    the history is compacted before the batch commits; the next flush writes a new
    base. *)
Definition ex_cmp0 : MemDb * ExEngine := flush_of (∅, set_states ex_new {[bs "c" := mkExDoc 1 [bs "a"]]}).
Definition ex_cmp1 : ExEngine := set_states ex_cmp0.2 {[bs "c" := mkExDoc 1 [bs "a"; bs "b"]]}.
Definition ex_cmp_staged : Staged (Z * Z) :=
  match stage_flush ex_cmp1 [] [] [] with Ok sg => sg | Err _ => mkStaged [] [] [] end.
Definition ex_cmp2 : MemDb * ExEngine :=
  ((se_batch_write ex_cmp0.1 (sg_ops ex_cmp_staged)).2,
   finish_flush (compact_history ex_cmp1).2 ex_cmp_staged).
Definition ex_cmp3 : MemDb * ExEngine := flush_of ex_cmp2.

(** An update whose commit a compaction overtook survives the next base.  The
    stale update 0 is on disk, but its mark was discarded with the epoch and the
    next sequence number still counts zero updates, so the fresh checkpoint
    replaces the snapshot and deletes nothing: an open replays an update exported
    from a document that no longer exists. *)
Theorem compaction_leaves_stale_update :
  row_of ex_cmp2.1 LoroState (state_delta_key_for (bs "c") 0) = Ok (Some (wrap (bs "b"))) ∧
  next_seq_of ex_cmp2.2 (bs "c") = 0 ∧
  row_of ex_cmp3.1 LoroState (snapshot_key_for (bs "c")) = Ok (Some (wrap (bs "Sabab"))) ∧
  row_of ex_cmp3.1 LoroState (state_delta_key_for (bs "c") 0) = Ok (Some (wrap (bs "b"))).
Proof. repeat split; vm_compute; reflexivity. Qed.
