(* ===== verification/Graph.v ===== *)
(** * Graph algorithms

    [src/nodedb-lite/src/query/graph_ops/algorithms.rs]: the dispatch and the
    thirteen algorithms.  The adjacency index ([CsrIndex]) and the parameters
    ([AlgoParams]) are of the crate [nodedb_graph]: the index is a class with the
    laws the algorithms rely on, the parameters a record of what the accessors
    return.  A node is its number, a [nat] below the node count; a [Vec] over the
    nodes is a list; [f64] arithmetic is that of [F64.v].  A [while] loop has
    fuel, [None] is running out of it, and the theorems show that it does not.

    A [HashMap]'s iteration order is the parameter [hash_iter], which may differ
    from one map to the next: its first two arguments tell the maps apart. *)

From Stdlib Require Import ZArith Lia Floats.SpecFloat.
From stdpp Require Import prelude gmap list strings.
From S2P Require Import Prelude Bytes Ordered Text F64 StorageTrait IndexKey.

Local Open Scope Z_scope.

Class CsrIndex (G : Type) := {
  node_count : G → nat;
  edge_count : G → nat;
  node_name_raw : G → nat → bytes;
  node_id_raw : G → bytes → option nat;
  (** Label and other end. *)
  iter_out_edges_raw : G → nat → list (Z * nat);
  iter_in_edges_raw : G → nat → list (Z * nat);
  out_degree_raw : G → nat → nat;
  in_degree_raw : G → nat → nat;
  has_weighted_edges : G → bool
}.

Definition outs {G} `{CsrIndex G} (g : G) (u : nat) : list nat := (iter_out_edges_raw g u).*2.
Definition ins {G} `{CsrIndex G} (g : G) (u : nat) : list nat := (iter_in_edges_raw g u).*2.

(** How often a node occurs in a list of neighbours. *)
Definition times (v : nat) (l : list nat) : nat := length (filter (λ x, x = v) l).

(** Edges end at nodes, the in-edges are the out-edges reversed, degrees count
    edges, and node numbers fit 32 bits. *)
Class CsrLaws (G : Type) `{CsrIndex G} := {
  csr_out_range (g : G) u v : v ∈ outs g u → (v < node_count g)%nat;
  csr_in_range (g : G) u v : v ∈ ins g u → (v < node_count g)%nat;
  csr_transpose (g : G) u v :
    (u < node_count g)%nat → (v < node_count g)%nat → times v (outs g u) = times u (ins g v);
  csr_out_degree (g : G) u : out_degree_raw g u = length (outs g u);
  csr_in_degree (g : G) u : in_degree_raw g u = length (ins g u);
  csr_id_range (g : G) name u : node_id_raw g name = Some u → (u < node_count g)%nat;
  csr_small (g : G) : Z.of_nat (node_count g) ≤ u32_max
}.

(** What the accessors of [AlgoParams] return. *)
Record AlgoParams := mkAlgoParams {
  ap_collection : bytes;
  source_node : option bytes;
  sample_size : option nat;
  direction : option bytes;
  damping_factor : spec_float;
  iterations : nat → nat;
  convergence_tolerance : spec_float;
  personalization_vector : option (gmap bytes spec_float)
}.

Inductive GraphAlgorithm :=
| PageRank | Wcc | LabelPropagation | Lcc | Sssp | Betweenness | Closeness | Harmonic | Degree
| Louvain | Triangles | Diameter | KCore.

#[global] Instance spec_float_inhabited : Inhabited spec_float := populate (S754_zero false).

(** [iter().sum::<f64>()] starts from negative zero. *)
Definition f64_sum (l : list spec_float) : spec_float := foldl f64_add (S754_zero true) l.
Definition f64_inf : spec_float := S754_infinity false.
Notation f64_zero := (f64_of_Z 0).
Notation f64_one := (f64_of_Z 1).
(** [1e-12]. *)
Definition UNIFORM_FALLBACK_THRESHOLD : spec_float := sf_of_bits 4427486594234968593.

(** A query's answer; [Other] is the rest of the value type. *)
Record QueryResult (Other : Type) := mkQueryResult {
  qr_columns : list bytes;
  qr_rows : list (list (Value Other));
  qr_rows_affected : Z
}.
Arguments mkQueryResult {Other}.
Arguments qr_columns {Other}.
Arguments qr_rows {Other}.
Arguments qr_rows_affected {Other}.

Section algorithms.
Context {G : Type} `{CsrIndex G} {Other : Type}.
Notation Row := (list (Value Other)).

Definition float (x : spec_float) : Value Other := VFloat (bits_of_sf x).
Definition named (g : G) (i : nat) (v : Value Other) : Row := [VString (node_name_raw g i); v].
Definition nodes (g : G) : list nat := seq 0 (node_count g).

(** ** PageRank *)

Definition teleport (g : G) (p : AlgoParams) : list spec_float :=
  let n := node_count g in
  let uniform := replicate n (f64_div f64_one (f64_of_Z (Z.of_nat n))) in
  match personalization_vector p with
  | None => uniform
  | Some map =>
      let v := (λ i, default f64_zero (map !! node_name_raw g i)) <$> nodes g in
      let sum := f64_sum v in
      if SFltb sum UNIFORM_FALLBACK_THRESHOLD then uniform else (λ x, f64_div x sum) <$> v
  end.

Definition pagerank_src (g : G) (d : spec_float) (rank new_rank : list spec_float) (src : nat)
    : list spec_float :=
  let od := out_degree_raw g src in
  if (od =? 0)%nat then new_rank
  else
    let contrib := f64_div (f64_mul d (rank !!! src)) (f64_of_Z (Z.of_nat od)) in
    foldl (λ nr dst, <[dst := f64_add (nr !!! dst) contrib]> nr) new_rank (outs g src).

Fixpoint pagerank_loop (g : G) (d tol : spec_float) (tele rank : list spec_float) (max_iter : nat)
    : list spec_float :=
  match max_iter with
  | O => rank
  | S max_iter =>
      let base := (λ t, f64_mul (f64_sub f64_one d) t) <$> tele in
      let new_rank := foldl (pagerank_src g d rank) base (nodes g) in
      let delta := f64_sum (zip_with (λ a b, SFabs (f64_sub a b)) rank new_rank) in
      if SFltb delta tol then new_rank else pagerank_loop g d tol tele new_rank max_iter
  end.

Definition pagerank (g : G) (p : AlgoParams) : list Row :=
  if (node_count g =? 0)%nat then []
  else
    let t := teleport g p in
    let rank := pagerank_loop g (damping_factor p) (convergence_tolerance p) t t (iterations p 20) in
    (λ i, named g i (float (rank !!! i))) <$> nodes g.

(** ** Weakly connected components: union-find *)

(** [find] with path compression: the root and the compressed parents. *)
Fixpoint uf_find (fuel : nat) (parent : list nat) (x : nat) : option (nat * list nat) :=
  match fuel with
  | O => None
  | S fuel =>
      if negb (parent !!! x =? x)%nat then
        let* r := uf_find fuel parent (parent !!! x) in
        Some (r.1, <[x := r.1]> r.2)
      else Some (parent !!! x, parent)
  end.

Definition uf_union (fuel : nat) (parent : list nat) (a b : nat) : option (list nat) :=
  let* ra := uf_find fuel parent a in
  let* rb := uf_find fuel ra.2 b in
  Some (if negb (ra.1 =? rb.1)%nat then <[ra.1 := rb.1]> rb.2 else rb.2).

(** Every edge, source by source. *)
Definition edges (g : G) : list (nat * nat) :=
  concat ((λ src, pair src <$> outs g src) <$> nodes g).

Fixpoint wcc_edges (fuel : nat) (parent : list nat) (l : list (nat * nat)) : option (list nat) :=
  match l with
  | [] => Some parent
  | (a, b) :: l => let* parent := uf_union fuel parent a b in wcc_edges fuel parent l
  end.

Fixpoint wcc_rows (g : G) (fuel : nat) (parent : list nat) (l : list nat) : option (list Row) :=
  match l with
  | [] => Some []
  | i :: l =>
      let* r := uf_find fuel parent i in
      let* rows := wcc_rows g fuel r.2 l in
      Some (named g i (VInteger (Z.of_nat r.1)) :: rows)
  end.

Definition wcc (g : G) : option (list Row) :=
  let n := node_count g in
  if (n =? 0)%nat then Some []
  else
    let* parent := wcc_edges n (nodes g) (edges g) in
    wcc_rows g n parent (nodes g).

(** ** Label propagation *)

Section labels.
Context `{HashOrder}.

Definition count_label (labels : list nat) (freq : gmap nat nat) (nb : nat) : gmap nat nat :=
  let l := labels !!! nb in <[l := (default 0 (freq !! l) + 1)%nat]> freq.

(** [max_by_key]: the last of the maximal entries. *)
Definition max_by_count (l : list (nat * nat)) : option (nat * nat) :=
  foldl (λ best p, match best with
                   | None => Some p
                   | Some b => if (b.2 <=? p.2)%nat then Some p else Some b
                   end) None l.

Definition lpa_node (g : G) (pass : nat) (acc : list nat * bool) (node : nat) : list nat * bool :=
  let '(labels, changed) := acc in
  let freq := foldl (count_label labels) ∅ (outs g node ++ ins g node) in
  match max_by_count (hash_iter pass node freq) with
  | Some best => if negb (best.1 =? labels !!! node)%nat then (<[node := best.1]> labels, true)
                 else (labels, changed)
  | None => (labels, changed)
  end.

Fixpoint lpa_loop (g : G) (pass max_iter : nat) (labels : list nat) : list nat :=
  match max_iter with
  | O => labels
  | S max_iter =>
      let '(labels, changed) := foldl (lpa_node g pass) (labels, false) (nodes g) in
      if negb changed then labels else lpa_loop g (S pass) max_iter labels
  end.

Definition lpa_labels (g : G) (p : AlgoParams) : list nat := lpa_loop g 0 (iterations p 10) (nodes g).

Definition label_propagation (g : G) (p : AlgoParams) : list Row :=
  if (node_count g =? 0)%nat then []
  else (λ i, named g i (VInteger (Z.of_nat (lpa_labels g p !!! i)))) <$> nodes g.

(** ** Louvain: label propagation and the modularity of its communities *)

Definition row_label (row : Row) : option Z :=
  match row !! 1%nat with Some (VInteger c) => Some c | _ => None end.

Definition add_member (m : gmap Z (list nat)) (p : nat * Row) : gmap Z (list nat) :=
  match row_label p.2 with
  | Some c => <[c := default [] (m !! c) ++ [p.1]]> m
  | None => m
  end.

Definition community_q (g : G) (m : spec_float) (members : list nat) : spec_float :=
  let step acc u :=
    let dc := f64_add acc.2 (f64_of_Z (Z.of_nat (out_degree_raw g u + in_degree_raw g u))) in
    let lc := foldl (λ lc v, if bool_decide (v ∈ members) then f64_add lc f64_one else lc)
                acc.1 (outs g u) in
    (lc, dc) in
  let '(lc, dc) := foldl step (f64_zero, f64_zero) members in
  if SFeqb m f64_zero then f64_zero
  else
    let r := f64_div dc (f64_mul (f64_of_Z 2) m) in
    f64_sub (f64_div lc m) (f64_mul r r).

Definition louvain (g : G) (p : AlgoParams) : list Row :=
  let lpa_rows := label_propagation g p in
  let m := f64_of_Z (Z.of_nat (edge_count g)) in
  let community_map := foldl add_member ∅ (zip (seq 0 (length lpa_rows)) lpa_rows) in
  let q := f64_sum (community_q g m <$> (hash_iter 0 0 community_map).*2) in
  (λ i, let comm := default (Z.of_nat i) (row_label (lpa_rows !!! i)) in
        [VString (node_name_raw g i); VInteger comm; float q]) <$> nodes g.
End labels.

(** ** Clustering and triangles *)

Definition neighbor_set (g : G) (u : nat) : gset nat := list_to_set (outs g u ++ ins g u).

(** Edges between two neighbours of a node. *)
Definition linked (g : G) (u : nat) : nat :=
  let neighbors := neighbor_set g u in
  foldl (λ count w, foldl (λ count v, if bool_decide (v ∈ neighbors) then S count else count)
                      count (outs g w)) 0%nat (elements neighbors).

Definition lcc (g : G) : list Row :=
  (λ i, let k := size (neighbor_set g i) in
        let coeff := if (k <? 2)%nat then f64_zero
                     else f64_div (f64_of_Z (Z.of_nat (linked g i)))
                            (f64_of_Z (Z.of_nat (k * (k - 1)))) in
        named g i (float coeff)) <$> nodes g.

Definition triangles (g : G) : list Row :=
  (λ i, named g i (VInteger (Z.of_nat (linked g i) / 2))) <$> nodes g.

(** ** Single-source shortest paths *)

Definition sssp_relax (u : nat) (d : spec_float) (acc : list spec_float * list nat) (v : nat)
    : list spec_float * list nat :=
  let '(dist, queue) := acc in
  let nd := f64_add d f64_one in
  if SFltb nd (dist !!! v) then (<[v := nd]> dist, queue ++ [v]) else (dist, queue).

Fixpoint sssp_loop (fuel : nat) (g : G) (dist : list spec_float) (queue : list nat)
    : option (list spec_float) :=
  match queue, fuel with
  | [], _ => Some dist
  | _, O => None
  | u :: queue, S fuel =>
      let '(dist, queue) := foldl (sssp_relax u (dist !!! u)) (dist, queue) (outs g u) in
      sssp_loop fuel g dist queue
  end.

Definition sssp (g : G) (p : AlgoParams) : option (list Row) :=
  let n := node_count g in
  if (n =? 0)%nat then Some []
  else
    match node_id_raw g (default [] (source_node p)) with
    | None => Some ((λ i, named g i (float f64_inf)) <$> nodes g)
    | Some src =>
        let* dist := sssp_loop n g (<[src := f64_zero]> (replicate n f64_inf)) [src] in
        Some ((λ i, named g i (float (dist !!! i))) <$> nodes g)
    end.

(** ** The breadth-first search of closeness, harmonic and diameter

    An unreached node is at [i64::MAX]. *)

Definition bfs_relax (u : nat) (acc : list Z * list nat) (v : nat) : list Z * list nat :=
  let '(dist, queue) := acc in
  if dist !!! v =? i64_max then (<[v := dist !!! u + 1]> dist, queue ++ [v]) else (dist, queue).

Fixpoint bfs_loop (fuel : nat) (g : G) (dist : list Z) (queue : list nat) : option (list Z) :=
  match queue, fuel with
  | [], _ => Some dist
  | _, O => None
  | u :: queue, S fuel =>
      let '(dist, queue) := foldl (bfs_relax u) (dist, queue) (outs g u) in
      bfs_loop fuel g dist queue
  end.

Definition bfs (g : G) (src : nat) : option (list Z) :=
  let n := node_count g in
  bfs_loop n g (<[src := 0]> (replicate n i64_max)) [src].

Definition sum_Z (l : list Z) : Z := foldl Z.add 0 l.

Definition closeness_of (dist : list Z) : spec_float :=
  let total := sum_Z (filter (λ d, d ≠ i64_max ∧ 0 < d) dist) in
  let reachable := Z.of_nat (length (filter (λ d, d ≠ i64_max) dist)) in
  if (total =? 0) || (reachable =? 0) then f64_zero
  else f64_div (f64_of_Z (reachable - 1)) (f64_of_Z total).

Definition closeness (g : G) (p : AlgoParams) : option (list Row) :=
  let n := node_count g in
  if (n =? 0)%nat then Some []
  else
    let sample := Nat.min (default n (sample_size p)) n in
    mapM (λ i, let* dist := bfs g i in Some (named g i (float (closeness_of dist)))) (seq 0 sample).

Definition harmonic_of (n i : nat) (dist : list Z) : spec_float :=
  let hs := filter (λ p : nat * Z, p.1 ≠ i ∧ p.2 ≠ i64_max ∧ 0 < p.2) (zip (seq 0 (length dist)) dist) in
  let h := f64_sum ((λ p, f64_div f64_one (f64_of_Z p.2)) <$> hs) in
  let norm := if (1 <? n)%nat then f64_div f64_one (f64_of_Z (Z.of_nat (n - 1))) else f64_one in
  f64_mul h norm.

Definition harmonic (g : G) : option (list Row) :=
  let n := node_count g in
  if (n =? 0)%nat then Some []
  else mapM (λ i, let* dist := bfs g i in Some (named g i (float (harmonic_of n i dist)))) (nodes g).

(** [filter(d != MAX).max().unwrap_or(0)]. *)
Definition eccentricity (dist : list Z) : Z :=
  default 0 (foldl (λ m d, Some (match m with None => d | Some x => Z.max x d end)) None
               (filter (λ d, d ≠ i64_max) dist)).

Fixpoint diameter_loop (g : G) (l : list nat) (max_ecc min_ecc : Z) : option (Z * Z) :=
  match l with
  | [] => Some (max_ecc, min_ecc)
  | src :: l =>
      let* dist := bfs g src in
      let ecc := eccentricity dist in
      diameter_loop g l (Z.max max_ecc ecc) (if 0 <? ecc then Z.min min_ecc ecc else min_ecc)
  end.

Definition diameter (g : G) : option (list Row) :=
  if (node_count g =? 0)%nat then Some [[VInteger 0; VInteger 0]]
  else
    let* r := diameter_loop g (nodes g) 0 i64_max in
    let min_ecc := if r.2 =? i64_max then 0 else r.2 in
    Some [[VInteger r.1; VInteger min_ecc]].

(** ** Degree centrality *)

Definition degree_of (g : G) (dir : bytes) (u : nat) : nat :=
  if bool_decide (dir = bs "in") then in_degree_raw g u
  else if bool_decide (dir = bs "out") then out_degree_raw g u
  else (out_degree_raw g u + in_degree_raw g u)%nat.

Definition degree (g : G) (p : AlgoParams) : list Row :=
  let n := node_count g in
  if (n =? 0)%nat then []
  else
    let norm := if (1 <? n)%nat then f64_div f64_one (f64_of_Z (Z.of_nat (n - 1))) else f64_one in
    let dir := default (bs "both") (direction p) in
    (λ i, named g i (float (f64_mul (f64_of_Z (Z.of_nat (degree_of g dir i))) norm))) <$> nodes g.

(** ** Betweenness (Brandes) *)

Record BState := mkB {
  b_sigma : list spec_float;
  b_dist : list Z;
  b_pred : list (list nat);
  b_queue : list nat;
  b_stack : list nat
}.

Definition brandes_edge (v : nat) (s : BState) (w : nat) : BState :=
  let '(mkB sigma dist pred queue stack) := s in
  let '(dist, queue) := if dist !!! w <? 0 then (<[w := dist !!! v + 1]> dist, queue ++ [w])
                        else (dist, queue) in
  if dist !!! w =? dist !!! v + 1 then
    mkB (<[w := f64_add (sigma !!! w) (sigma !!! v)]> sigma) dist (<[w := (pred !!! w) ++ [v]]> pred)
      queue stack
  else mkB sigma dist pred queue stack.

Fixpoint brandes_loop (fuel : nat) (g : G) (s : BState) : option BState :=
  match b_queue s, fuel with
  | [], _ => Some s
  | _, O => None
  | v :: queue, S fuel =>
      let s := mkB (b_sigma s) (b_dist s) (b_pred s) queue (b_stack s ++ [v]) in
      brandes_loop fuel g (foldl (brandes_edge v) s (outs g v))
  end.

(** One node popped from the stack. *)
Definition brandes_back (s : BState) (src : nat) (acc : list spec_float * list spec_float) (w : nat)
    : list spec_float * list spec_float :=
  let '(bc, delta) := acc in
  let delta := foldl (λ delta v,
      <[v := f64_add (delta !!! v)
               (f64_mul (f64_div (b_sigma s !!! v) (b_sigma s !!! w)) (f64_add f64_one (delta !!! w)))]>
        delta) delta (b_pred s !!! w) in
  (if negb (w =? src)%nat then <[w := f64_add (bc !!! w) (delta !!! w)]> bc else bc, delta).

Fixpoint betweenness_loop (g : G) (l : list nat) (bc : list spec_float) : option (list spec_float) :=
  match l with
  | [] => Some bc
  | s :: l =>
      let n := node_count g in
      let* st := brandes_loop n g (mkB (<[s := f64_one]> (replicate n f64_zero))
                                     (<[s := 0]> (replicate n (-1))) (replicate n []) [s] []) in
      let '(bc, _) := foldl (brandes_back st s) (bc, replicate n f64_zero) (reverse (b_stack st)) in
      betweenness_loop g l bc
  end.

Definition betweenness (g : G) (p : AlgoParams) : option (list Row) :=
  let n := node_count g in
  if (n =? 0)%nat then Some []
  else
    let sample := Nat.min (default n (sample_size p)) n in
    let* bc := betweenness_loop g (seq 0 sample) (replicate n f64_zero) in
    let norm := if (2 <? n)%nat then f64_div f64_one (f64_of_Z (Z.of_nat ((n - 1) * (n - 2)))) else f64_one in
    Some ((λ i, named g i (float (f64_mul (bc !!! i) norm))) <$> nodes g).

(** ** k-core decomposition *)

Record KState := mkK { k_degree : list nat; k_removed : list bool; k_core : list Z }.

Definition drop_neighbor (removed : list bool) (degree : list nat) (nb : nat) : list nat :=
  if negb (removed !!! nb) && (0 <? degree !!! nb)%nat
  then <[nb := (degree !!! nb - 1)%nat]> degree else degree.

Definition kcore_node (g : G) (k : nat) (acc : KState * bool) (node : nat) : KState * bool :=
  let '(mkK degree removed core, progress) := acc in
  if negb (removed !!! node) && (degree !!! node <? k)%nat then
    let removed := <[node := true]> removed in
    let core := <[node := Z.of_nat (k - 1) mod 2 ^ 32]> core in
    let degree := foldl (drop_neighbor removed) degree (outs g node) in
    let degree := foldl (drop_neighbor removed) degree (ins g node) in
    (mkK degree removed core, true)
  else acc.

Fixpoint kcore_peel (fuel : nat) (g : G) (k : nat) (s : KState) : option KState :=
  match fuel with
  | O => None
  | S fuel =>
      let '(s, progress) := foldl (kcore_node g k) (s, false) (nodes g) in
      if progress then kcore_peel fuel g k s else Some s
  end.

(** The nodes that are left are in the k-core. *)
Definition kcore_assign (k : nat) (s : KState) : KState :=
  mkK (k_degree s) (k_removed s)
    (zip_with (λ (r : bool) c, if negb r then Z.of_nat k mod 2 ^ 32 else c) (k_removed s) (k_core s)).

Fixpoint kcore_loop (fuel : nat) (g : G) (k : nat) (s : KState) : option KState :=
  match fuel with
  | O => None
  | S fuel =>
      let* s := kcore_peel (S (node_count g)) g k s in
      if forallb id (k_removed s) then Some s
      else kcore_loop fuel g (S k) (kcore_assign k s)
  end.

Definition kcore_fuel (degree : list nat) : nat := (2 + max_list degree)%nat.

Definition kcore_result (g : G) : option KState :=
  let n := node_count g in
  let degree := (λ i, out_degree_raw g i + in_degree_raw g i)%nat <$> nodes g in
  kcore_loop (kcore_fuel degree) g 1 (mkK degree (replicate n false) (replicate n 0)).

Definition kcore (g : G) : option (list Row) :=
  if (node_count g =? 0)%nat then Some []
  else let* s := kcore_result g in
       Some ((λ i, named g i (VInteger (k_core s !!! i))) <$> nodes g).

(** ** Dispatch *)

Context `{HashOrder}.

Definition run_rows (g : G) (algorithm : GraphAlgorithm) (p : AlgoParams) : option (list Row) :=
  match algorithm with
  | PageRank => Some (pagerank g p)
  | Wcc => wcc g
  | LabelPropagation => Some (label_propagation g p)
  | Lcc => Some (lcc g)
  | Sssp => sssp g p
  | Betweenness => betweenness g p
  | Closeness => closeness g p
  | Harmonic => harmonic g
  | Degree => Some (degree g p)
  | Louvain => Some (louvain g p)
  | Triangles => Some (triangles g)
  | Diameter => diameter g
  | KCore => kcore g
  end.

(** [None] for the map is a poisoned lock; the outer [None] would be a loop that
    does not end.  [result_schema] is the crate's table of column names. *)
Definition run_algo (csr_map : option (gmap bytes G)) (result_schema : GraphAlgorithm → list bytes)
    (algorithm : GraphAlgorithm) (p : AlgoParams) : option (res (QueryResult Other)) :=
  match csr_map with
  | None => Some (Err LockPoisoned)
  | Some map =>
      match map !! ap_collection p with
      | None => Some (Err Storage)
      | Some g =>
          let* rows := run_rows g algorithm p in
          Some (Ok (mkQueryResult (result_schema algorithm) rows 0))
      end
  end.
End algorithms.
