(* ===== verification/GraphBfs.v ===== *)
(** * Breadth-first search computes distances

    Theorems about [bfs] and [sssp] of [Graph.v]: the search terminates within one
    step per node, and the distance it reports for a node is the length of a
    shortest path, or "unreached" when there is none.  The search of [sssp] keeps
    its distances as [f64] and re-queues a node whose distance drops; it is shown
    equal to the integer search. *)

From Stdlib Require Import ZArith Lia Floats.SpecFloat.
From stdpp Require Import prelude gmap list strings relations sorting.
From S2P Require Import Prelude Bytes Ordered Text F64 StorageTrait IndexKey Graph.

Local Open Scope Z_scope.

(** A directed edge of the index. *)
Definition edge {G} `{CsrIndex G} (g : G) (a b : nat) : Prop := b ∈ outs g a.

(** [k] edges lead from [src] to [v], and no fewer. *)
Definition distance {G} `{CsrIndex G} (g : G) (src v k : nat) : Prop :=
  nsteps (edge g) k src v ∧ ∀ j, nsteps (edge g) j src v → (k ≤ j)%nat.

(** Entries that have been reached. *)
Definition reached (dist : list Z) : nat := length (filter (λ d, d ≠ i64_max) dist).

Lemma reached_le dist : (reached dist ≤ length dist)%nat.
Proof. apply length_filter. Qed.

Lemma reached_insert dist v d :
  (v < length dist)%nat → dist !!! v = i64_max → d ≠ i64_max →
  reached (<[v := d]> dist) = S (reached dist).
Proof.
  unfold reached. revert v. induction dist as [|x dist IH]; intros [|v] Hv Hx Hd; simpl in *; try lia.
  - change ((x :: dist) !!! 0%nat) with x in Hx. subst x.
    rewrite !filter_cons, decide_True, decide_False by naive_solver. done.
  - change ((x :: dist) !!! S v) with (dist !!! v) in Hx.
    rewrite !filter_cons. case_decide; simpl; rewrite IH by (done || lia); done.
Qed.

Section search.
Context {G : Type} `{CsrLaws G}.
Variable g : G.
Variable src : nat.
Notation n := (node_count g).

Definition visited (dist : list Z) (v : nat) : Prop := (v < n)%nat ∧ dist !!! v ≠ i64_max.

(** The search while the neighbours of [u] are looked at, [l] of them still to come. *)
Record search_inv (u : nat) (l : list nat) (dist : list Z) (queue : list nat) : Prop := {
  sv_len : length dist = n;
  sv_src : visited dist src ∧ dist !!! src = 0;
  sv_sound v : visited dist v →
    ∃ k, dist !!! v = Z.of_nat k ∧ nsteps (edge g) k src v ∧ (k < reached dist)%nat;
  sv_cur : visited dist u;
  sv_queue x : x ∈ queue → visited dist x ∧ dist !!! u ≤ dist !!! x;
  sv_sorted : StronglySorted (λ a b, dist !!! a ≤ dist !!! b) queue;
  sv_near w : visited dist w → dist !!! w ≤ dist !!! u + 1;
  sv_cover a b : visited dist a → a ∉ queue → edge g a b →
    (a = u ∧ b ∈ l) ∨ (visited dist b ∧ dist !!! b ≤ dist !!! a + 1)
}.

Lemma reached_small u l dist queue : search_inv u l dist queue → Z.of_nat (reached dist) ≤ u32_max.
Proof.
  intros Hi. pose proof (reached_le dist). rewrite (sv_len _ _ _ _ Hi) in *.
  pose proof (csr_small g). lia.
Qed.

(** The distance to set is in range. *)
Lemma next_dist u l dist queue :
  search_inv u l dist queue → ∃ k, dist !!! u = Z.of_nat k ∧ dist !!! u + 1 ≠ i64_max ∧
    nsteps (edge g) k src u ∧ (k < reached dist)%nat ∧ 0 ≤ dist !!! u < u32_max.
Proof.
  intros Hi. destruct (sv_sound _ _ _ _ Hi u (sv_cur _ _ _ _ Hi)) as (k & Hk & Hp & Hlt).
  pose proof (reached_small _ _ _ _ Hi). exists k. repeat split; try done; arith.
Qed.

Lemma sorted_insert (dist : list Z) v d queue :
  v ∉ queue → StronglySorted (λ a b, dist !!! a ≤ dist !!! b) queue →
  StronglySorted (λ a b, <[v := d]> dist !!! a ≤ <[v := d]> dist !!! b) queue.
Proof.
  intros Hv. induction 1 as [|a q _ IH Hall]; constructor; [set_solver|].
  rewrite Forall_forall in Hall |- *. intros b Hb.
  rewrite !list_lookup_total_insert_ne by set_solver. by apply Hall.
Qed.

Lemma relax_fresh u v l dist queue :
  search_inv u (v :: l) dist queue → (v < n)%nat → edge g u v → dist !!! v = i64_max →
  search_inv u l (<[v := dist !!! u + 1]> dist) (queue ++ [v]).
Proof.
  intros Hi Hv He Hmax. destruct (next_dist _ _ _ _ Hi) as (k & Hk & Hne & Hp & Hlt & Hr).
  set (dist' := <[v := dist !!! u + 1]> dist).
  assert (v < length dist)%nat as Hvl by (by rewrite (sv_len _ _ _ _ Hi)).
  assert (dist' !!! v = dist !!! u + 1) as Hnew by (by apply list_lookup_total_insert_eq).
  assert (∀ w, w ≠ v → dist' !!! w = dist !!! w) as Hold
    by (intros w Hw; by apply list_lookup_total_insert_ne, not_eq_sym).
  assert (∀ w, visited dist w → w ≠ v) as Hnv by (intros w [_ Hw] ->; congruence).
  assert (∀ w, visited dist w → visited dist' w ∧ dist' !!! w = dist !!! w) as Hkeep.
  { intros w Hw. rewrite (Hold w) by (by apply Hnv). split; [|done].
    destruct Hw as [Hw1 Hw2]. split; [done|]. rewrite Hold; [done|]. intros ->. congruence. }
  assert (∀ w, visited dist' w → visited dist w ∨ w = v) as Hcase.
  { intros w [Hw1 Hw2]. destruct (decide (w = v)) as [->|Hwv]; [by right|].
    left. split; [done|]. by rewrite <-(Hold w Hwv). }
  assert (reached dist' = S (reached dist)) as Hreach by (by apply reached_insert).
  destruct (Hkeep u (sv_cur _ _ _ _ Hi)) as [Hu' Hud].
  assert (v ∉ queue) as Hvq by (intros Hq; by destruct (Hnv v (proj1 (sv_queue _ _ _ _ Hi v Hq)))).
  split.
  - unfold dist'. by rewrite length_insert, (sv_len _ _ _ _ Hi).
  - destruct (sv_src _ _ _ _ Hi) as [Hs Hs0]. destruct (Hkeep src Hs) as [? ->]. done.
  - intros w [Hw| ->]%Hcase.
    + destruct (Hkeep w Hw) as [_ ->]. destruct (sv_sound _ _ _ _ Hi w Hw) as (j & ? & ? & ?).
      exists j. repeat split; [done..|lia].
    + exists (S k). rewrite Hnew, Hk. repeat split; [lia| |lia]. by eapply nsteps_r.
  - done.
  - intros x [Hx| ->%list_elem_of_singleton]%elem_of_app.
    + destruct (sv_queue _ _ _ _ Hi x Hx) as [Hvx Hle]. destruct (Hkeep x Hvx) as [? ->].
      split; [done|]. by rewrite Hud.
    + rewrite Hnew, Hud. split; [|lia]. split; [done|]. by rewrite Hnew.
  - apply StronglySorted_app_2; [|by apply sorted_insert, Hi|repeat constructor].
    intros x y Hx ->%list_elem_of_singleton. destruct (sv_queue _ _ _ _ Hi x Hx) as [Hvx _].
    destruct (Hkeep x Hvx) as [_ ->]. rewrite Hnew. by apply (sv_near _ _ _ _ Hi).
  - intros w [Hw| ->]%Hcase; [|rewrite Hnew, Hud; lia].
    destruct (Hkeep w Hw) as [_ ->]. rewrite Hud. by apply (sv_near _ _ _ _ Hi).
  - intros a b [Ha| ->]%Hcase Hq Hab; [|set_solver].
    destruct (sv_cover _ _ _ _ Hi a b Ha) as [[-> Hb]|[Hb Hle]]; [set_solver|done| |].
    + apply elem_of_cons in Hb as [->|Hb]; [|by left]. right.
      rewrite Hnew, Hud. split; [|lia]. split; [done|]. by rewrite Hnew.
    + right. destruct (Hkeep b Hb) as [? ->]. destruct (Hkeep a Ha) as [_ ->]. done.
Qed.

Lemma relax_seen u v l dist queue :
  search_inv u (v :: l) dist queue → (v < n)%nat → dist !!! v ≠ i64_max → search_inv u l dist queue.
Proof.
  intros [Hl Hs Ho Hc Hq Hso Hn Hcov] Hv Hd. split; try done. intros a b Ha Hna Hab.
  destruct (Hcov a b Ha Hna Hab) as [[-> Hb]|Hb]; [|by right].
  apply elem_of_cons in Hb as [->|Hb]; [|by left]. right. split; [done|]. by apply Hn.
Qed.

(** One neighbour: the invariant, and as many new queue entries as new distances. *)
Lemma relax_step u v l dist queue :
  search_inv u (v :: l) dist queue → edge g u v →
  let r := bfs_relax u (dist, queue) v in
  search_inv u l r.1 r.2 ∧ (reached r.1 + length queue = reached dist + length r.2)%nat.
Proof.
  intros Hi He. pose proof (csr_out_range g u v He) as Hv. simpl.
  destruct (Z.eqb_spec (dist !!! v) i64_max) as [Hm|Hm]; simpl.
  - split; [by apply relax_fresh|].
    destruct (next_dist _ _ _ _ Hi) as (k & _ & Hne & _).
    rewrite reached_insert, length_app; [simpl; lia|by rewrite (sv_len _ _ _ _ Hi)|done|done].
  - split; [by eapply relax_seen|lia].
Qed.

Lemma relax_all u l dist queue :
  search_inv u l dist queue → (∀ v, v ∈ l → edge g u v) →
  let r := foldl (bfs_relax u) (dist, queue) l in
  search_inv u [] r.1 r.2 ∧ (reached r.1 + length queue = reached dist + length r.2)%nat.
Proof.
  revert dist queue. induction l as [|v l IH]; intros dist queue Hi He; [done|].
  destruct (relax_step u v l dist queue Hi) as [Hi' Hc]; [set_solver|].
  cbn [foldl]. destruct (bfs_relax u (dist, queue) v) as [dist1 queue1]. simpl in Hi', Hc.
  destruct (IH dist1 queue1 Hi') as [Hi2 Hc2]; [set_solver|]. split; [done|]. lia.
Qed.

(** The next node of the queue. *)
Lemma pop_step u0 u dist queue :
  search_inv u0 [] dist (u :: queue) → search_inv u (outs g u) dist queue.
Proof.
  intros [Hl Hs Ho Hc Hq Hso Hn Hcov]. inversion Hso as [|?? Hso' Hall]; subst.
  rewrite Forall_forall in Hall. destruct (Hq u) as [Hu Hle]; [set_solver|].
  split; try done.
  - intros x Hx. destruct (Hq x) as [? _]; [set_solver|]. split; [done|]. by apply Hall.
  - intros w Hw. specialize (Hn w Hw). lia.
  - intros a b Ha Hna Hab. destruct (decide (a = u)) as [->|Hau]; [by left|].
    destruct (Hcov a b Ha) as [[_ Hb]|?]; [set_solver|done|set_solver|by right].
Qed.

(** What the search leaves behind. *)
Definition distances (dist : list Z) : Prop :=
  length dist = n ∧ ∀ v, (v < n)%nat →
    (∃ k, dist !!! v = Z.of_nat k ∧ distance g src v k ∧ Z.of_nat k < u32_max) ∨
    (dist !!! v = i64_max ∧ ∀ j, ¬ nsteps (edge g) j src v).

Lemma search_done u dist : search_inv u [] dist [] → distances dist.
Proof.
  intros Hi. split; [apply Hi|].
  assert (∀ j v, nsteps (edge g) j src v → visited dist v ∧ dist !!! v ≤ Z.of_nat j) as Hall.
  { induction j as [|j IH]; intros v Hj.
    - inversion Hj; subst. destruct (sv_src _ _ _ _ Hi) as [? ->]. done.
    - apply nsteps_inv_r in Hj as (a & Ha & Hab). destruct (IH a Ha) as [Hva Hle].
      destruct (sv_cover _ _ _ _ Hi a v Hva) as [[_ Hb]|[Hv Hd]]; [set_solver|done|set_solver|].
      split; [done|lia]. }
  intros v Hv. destruct (decide (dist !!! v = i64_max)) as [Hm|Hm].
  - right. split; [done|]. intros j Hj. by destruct (Hall j v Hj) as [[_ ?] _].
  - left. destruct (sv_sound _ _ _ _ Hi v (conj Hv Hm)) as (k & Hk & Hp & Hlt).
    pose proof (reached_small _ _ _ _ Hi). exists k. repeat split; [done|done| |lia].
    intros j Hj. destruct (Hall j v Hj) as [_ Hle]. lia.
Qed.

Lemma bfs_loop_spec fuel u dist queue :
  search_inv u [] dist queue → (n - reached dist + length queue ≤ fuel)%nat →
  ∃ dist', bfs_loop fuel g dist queue = Some dist' ∧ distances dist'.
Proof.
  revert u dist queue. induction fuel as [|fuel IH]; intros u dist [|v queue] Hi Hf; simpl in Hf; try lia.
  1,2: exists dist; split; [done|]; by eapply search_done.
  simpl. apply pop_step in Hi.
  destruct (relax_all v (outs g v) dist queue Hi) as [Hi' Hc]; [done|].
  destruct (foldl _ _ _) as [dist1 queue1]. simpl in Hi', Hc. apply (IH v dist1 queue1 Hi').
  pose proof (reached_le dist1). rewrite (sv_len _ _ _ _ Hi') in *. 
  pose proof (reached_le dist). rewrite (sv_len _ _ _ _ Hi) in *. lia.
Qed.

Lemma reached_unreached k : reached (replicate k i64_max) = 0%nat.
Proof.
  unfold reached. rewrite filter_none; [done|]. intros x [-> _]%elem_of_replicate. naive_solver.
Qed.

Lemma search_init :
  (src < n)%nat →
  search_inv src [] (<[src := 0]> (replicate n i64_max)) [src] ∧
  reached (<[src := 0]> (replicate n i64_max)) = 1%nat.
Proof.
  intros Hs. set (dist := <[src := 0]> (replicate n i64_max)).
  assert (dist !!! src = 0) as Hz
    by (apply list_lookup_total_insert_eq; by rewrite length_replicate).
  assert (reached dist = 1%nat) as Hr.
  { unfold dist. rewrite reached_insert; [by rewrite reached_unreached|by rewrite length_replicate| |done].
    by apply lookup_total_replicate_2. }
  assert (visited dist src) as Hv by (split; [done|by rewrite Hz]).
  assert (∀ v, visited dist v → v = src) as Honly.
  { intros v [Hlt Hne]. destruct (decide (v = src)) as [|Hvs]; [done|]. destruct Hne. unfold dist.
    rewrite list_lookup_total_insert_ne by done. by apply lookup_total_replicate_2. }
  split; [|done]. split; try done.
  - unfold dist. by rewrite length_insert, length_replicate.
  - intros v ->%Honly. exists 0%nat. rewrite Hz, Hr. repeat split; [constructor|lia].
  - intros x ->%list_elem_of_singleton. split; [done|lia].
  - repeat constructor.
  - intros w ->%Honly. lia.
  - intros a b ->%Honly. set_solver.
Qed.

Lemma bfs_spec : (src < n)%nat → ∃ dist, bfs g src = Some dist ∧ distances dist.
Proof.
  intros Hs. destruct (search_init Hs) as [Hi Hr]. eapply bfs_loop_spec; [done|].
  rewrite Hr. simpl. lia.
Qed.
End search.

(** ** The search of [sssp] *)

(** A distance as [sssp] stores it. *)
Definition conv (d : Z) : spec_float := if d =? i64_max then f64_inf else f64_of_Z d.

Section sssp.
Context {G : Type} `{CsrLaws G} {Other : Type}.
Variable g : G.

Lemma conv_lookup (dist : list Z) v :
  (v < length dist)%nat → (conv <$> dist) !!! v = conv (dist !!! v).
Proof. 
  intros Hv. apply list_lookup_total_correct. rewrite list_lookup_fmap.
  by rewrite (list_lookup_lookup_total_lt dist v Hv).
Qed.

(** Re-queueing happens exactly when the node was not reached before. *)
Lemma sssp_relax_sim src u v l dist queue :
  search_inv g src u (v :: l) dist queue → edge g u v →
  let r := bfs_relax u (dist, queue) v in
  sssp_relax u (conv (dist !!! u)) (conv <$> dist, queue) v = (conv <$> r.1, r.2) ∧
  r.1 !!! u = dist !!! u.
Proof.
  intros Hi He. pose proof (csr_out_range g u v He) as Hv.
  destruct (next_dist _ _ _ _ _ _ Hi) as (k & Hk & Hne & _ & Hlt & Hr).
  assert (v < length dist)%nat as Hvl by (by rewrite (sv_len _ _ _ _ _ _ Hi)).
  assert (conv (dist !!! u) = f64_of_Z (dist !!! u)) as Hcu.
  { unfold conv. rewrite (proj2 (Z.eqb_neq _ _)); [done|]. arith. }
  assert (conv (dist !!! u + 1) = f64_of_Z (dist !!! u + 1)) as Hcn.
  { unfold conv. by rewrite (proj2 (Z.eqb_neq _ _)). }
  unfold sssp_relax, bfs_relax. rewrite Hcu, f64_add_whole by arith. rewrite conv_lookup by done.
  unfold conv at 1. destruct (Z.eqb_spec (dist !!! v) i64_max) as [Hm|Hm]; simpl.
  - unfold f64_inf. rewrite f64_ltb_inf by arith. rewrite <-Hcn, list_fmap_insert. split; [done|].
    rewrite list_lookup_total_insert_ne; [done|]. intros ->. rewrite Hm in Hr. arith.
  - destruct (sv_sound _ _ _ _ _ _ Hi v (conj Hv Hm)) as (j & Hj & _ & Hjl).
    pose proof (reached_small _ _ _ _ _ _ Hi).
    pose proof (sv_near _ _ _ _ _ _ Hi v (conj Hv Hm)).
    rewrite f64_ltb_whole by arith. rewrite (proj2 (Z.ltb_ge _ _)) by lia. done.
Qed.

Lemma sssp_relax_all src u l dist queue d :
  search_inv g src u l dist queue → (∀ v, v ∈ l → edge g u v) → d = conv (dist !!! u) →
  foldl (sssp_relax u d) (conv <$> dist, queue) l =
    (λ r, (conv <$> r.1, r.2)) (foldl (bfs_relax u) (dist, queue) l).
Proof.
  revert dist queue. induction l as [|v l IH]; intros dist queue Hi He ->; [done|].
  destruct (sssp_relax_sim src u v l dist queue Hi) as [Hs Hu]; [set_solver|].
  destruct (relax_step g src u v l dist queue Hi) as [Hi' _]; [set_solver|].
  cbn [foldl]. rewrite Hs. destruct (bfs_relax u (dist, queue) v) as [dist1 queue1]. simpl in *.
  apply IH; [done|set_solver|congruence].
Qed.

Lemma sssp_loop_sim src fuel u dist queue :
  search_inv g src u [] dist queue →
  sssp_loop fuel g (fmap (M:=list) conv dist) queue =
    fmap (M:=option) (fmap (M:=list) conv) (bfs_loop fuel g dist queue).
Proof.
  revert u dist queue. induction fuel as [|fuel IH]; intros u dist [|v queue] Hi; try done.
  simpl. pose proof (sv_queue _ _ _ _ _ _ Hi v ltac:(set_solver)) as [[Hv _] _].
  apply pop_step in Hi.
  rewrite (sssp_relax_all src v _ dist queue) by (done || apply conv_lookup; by rewrite (sv_len _ _ _ _ _ _ Hi)).
  destruct (relax_all g src v (outs g v) dist queue Hi) as [Hi' _]; [done|].
  destruct (foldl (bfs_relax v) _ _) as [dist1 queue1]. simpl in *. by eapply IH.
Qed.

Lemma sssp_spec (p : AlgoParams) :
  ∃ dist : nat → spec_float,
    sssp (Other:=Other) g p = Some ((λ v, named g v (float (dist v))) <$> nodes g) ∧
    ∀ v, (v < node_count g)%nat →
      match node_id_raw g (default [] (source_node p)) with
      | Some src =>
          (∃ k, dist v = f64_of_Z (Z.of_nat k) ∧ distance g src v k ∧ Z.of_nat k < u32_max) ∨
          (dist v = f64_inf ∧ ∀ j, ¬ nsteps (edge g) j src v)
      | None => dist v = f64_inf
      end.
Proof.
  unfold sssp. destruct (Nat.eqb_spec (node_count g) 0) as [Hz|Hz].
  { exists (λ _, f64_inf). unfold nodes. rewrite Hz. split; [done|]. lia. }
  destruct (node_id_raw g _) as [src|] eqn:Hid; [|by exists (λ _, f64_inf)].
  apply csr_id_range in Hid. destruct (search_init g src Hid) as [Hi _].
  destruct (bfs_spec g src Hid) as (dist & Hb & Hlen & Hd).
  pose proof (sssp_loop_sim src (node_count g) src _ _ Hi) as Hsim.
  rewrite list_fmap_insert, fmap_replicate in Hsim.
  change (conv i64_max) with f64_inf in Hsim. change (conv 0) with f64_zero in Hsim.
  rewrite Hsim. unfold bfs in Hb. rewrite Hb. simpl.
  exists (λ v, conv (dist !!! v)). split.
  - f_equal. apply list_fmap_ext. intros i v Hv. apply lookup_seq in Hv as [-> Hv].
    by rewrite conv_lookup by (rewrite Hlen; lia).
  - intros v Hv. destruct (Hd v Hv) as [(k & Hk & Hdk & Hs)|[Hm Hno]].
    + left. exists k. rewrite Hk. unfold conv. rewrite (proj2 (Z.eqb_neq _ _)) by arith. done.
    + right. rewrite Hm. done.
Qed.

(** C23: [sssp] returns hop counts.  It terminates, with one row per node in order: the
    node's name and, when the source is a node, the least number of edges on a directed
    path from it, exact as an [f64], and infinity when there is no path; when the source
    is not a node, infinity everywhere.  The weights of edges play no part, on weighted
    graphs too, where the comments of the code announce Dijkstra's algorithm. *)
Theorem sssp_distances (p : AlgoParams) :
  ∃ dist : nat → spec_float,
    sssp (Other:=Other) g p = Some ((λ v, named g v (float (dist v))) <$> nodes g) ∧
    ∀ v, (v < node_count g)%nat →
      match node_id_raw g (default [] (source_node p)) with
      | Some src =>
          (∃ k, dist v = f64_of_Z (Z.of_nat k) ∧ distance g src v k ∧ Z.of_nat k < u32_max) ∨
          (dist v = f64_inf ∧ ∀ j, ¬ nsteps (edge g) j src v)
      | None => dist v = f64_inf
      end.
Proof. exact (sssp_spec p). Qed.
End sssp.

(** ** Diameter *)

Section diameter.
Context {G : Type} `{CsrLaws G} {Other : Type}.
Variable g : G.

(** The largest distance from [u]. *)
Definition ecc (u : nat) (e : Z) : Prop :=
  (∃ v k, (v < node_count g)%nat ∧ distance g u v k ∧ e = Z.of_nat k) ∧
  ∀ v k, (v < node_count g)%nat → distance g u v k → Z.of_nat k ≤ e.

Lemma distance_unique u v j k : distance g u v j → distance g u v k → j = k.
Proof. intros [Hj Hjm] [Hk Hkm]. specialize (Hjm k Hk). specialize (Hkm j Hj). lia. Qed.

Lemma ecc_unique u e1 e2 : ecc u e1 → ecc u e2 → e1 = e2.
Proof.
  intros [(v1 & k1 & Hv1 & Hd1 & ->) Hm1] [(v2 & k2 & Hv2 & Hd2 & ->) Hm2].
  specialize (Hm1 v2 k2 Hv2 Hd2). specialize (Hm2 v1 k1 Hv1 Hd1). lia.
Qed.

(** The fold of [max] over a list. *)
Lemma fold_max_spec (l : list Z) acc m :
  foldl (λ m d, Some (match m with None => d | Some x => Z.max x d end)) acc l = Some m →
  (Some m = acc ∨ m ∈ l) ∧ (∀ x, acc = Some x → x ≤ m) ∧ ∀ d, d ∈ l → d ≤ m.
Proof.
  revert acc. induction l as [|d l IH]; intros acc Hf; simpl in Hf.
  - subst acc. split; [by left|]. split; [naive_solver lia|]. intros d Hd. by apply elem_of_nil in Hd.
  - destruct (IH _ Hf) as (Hor & Hacc & Hl). specialize (Hacc _ eq_refl). split; [|split].
    + destruct Hor as [Hor|Hin]; [|right; by apply elem_of_cons; right].
      destruct acc as [x|]; injection Hor as ->; [|right; by apply elem_of_cons; left].
      destruct (Z.max_spec x d) as [[_ ->]|[_ ->]]; [right; apply elem_of_cons; by left|by left].
    + intros x ->. lia.
    + intros y [->|Hy]%elem_of_cons; [destruct acc; lia|by apply Hl].
Qed.

Lemma fold_max_some (l : list Z) acc :
  is_Some acc ∨ l ≠ [] →
  is_Some (foldl (λ m d, Some (match m with None => d | Some x => Z.max x d end)) acc l).
Proof.
  revert acc. induction l as [|d l IH]; intros acc Hor; simpl; [by destruct Hor|].
  apply IH. left. by eexists.
Qed.

Lemma eccentricity_spec u dist :
  (u < node_count g)%nat → distances g u dist → ecc u (eccentricity dist) ∧ 0 ≤ eccentricity dist < u32_max.
Proof.
  intros Hu [Hlen Hd]. unfold eccentricity. set (l := filter (λ d, d ≠ i64_max) dist).
  assert (∀ v k, (v < node_count g)%nat → distance g u v k → Z.of_nat k ∈ l) as Hin.
  { intros v k Hv Hk. destruct (Hd v Hv) as [(j & Hj & Hdj & Hs)|[_ Hno]]; [|by destruct Hk as [Hk _]; destruct (Hno k)].
    rewrite (distance_unique u v k j Hk Hdj). apply list_elem_of_filter. split; [arith|].
    rewrite <-Hj. apply list_elem_of_lookup_total_2. lia. }
  assert (distance g u u 0) as Huu by (split; [constructor|lia]).
  assert (l ≠ []) as Hne by (pose proof (Hin u 0%nat Hu Huu) as Hx; intros He; rewrite He in Hx; by apply elem_of_nil in Hx).
  destruct (fold_max_some l None (or_intror Hne)) as [m Hm]. rewrite Hm. simpl.
  destruct (fold_max_spec l None m Hm) as ([?|Hml] & _ & Hge); [done|].
  apply list_elem_of_filter in Hml as [Hmne Hmin]. apply list_elem_of_lookup in Hmin as [v Hv].
  assert (v < node_count g)%nat as Hvn by (rewrite <-Hlen; by eapply lookup_lt_Some).
  apply list_lookup_total_correct in Hv.
  destruct (Hd v Hvn) as [(k & Hk & Hdk & Hs)|[Hmx _]]; [|congruence].
  assert (m = Z.of_nat k) as -> by congruence.
  split; [|lia]. split; [by exists v, k|]. intros w j Hw Hj. apply Hge. by eapply Hin.
Qed.

Lemma diameter_loop_spec l mx mn :
  (∀ u, u ∈ l → (u < node_count g)%nat) →
  ∃ mx' mn', diameter_loop g l mx mn = Some (mx', mn') ∧
    (mx' = mx ∨ ∃ u, u ∈ l ∧ ecc u mx') ∧ (mn' = mn ∨ ∃ u, u ∈ l ∧ ecc u mn' ∧ 0 < mn' < u32_max) ∧
    mx ≤ mx' ∧ mn' ≤ mn ∧
    ∀ u e, u ∈ l → ecc u e → e ≤ mx' ∧ (0 < e → mn' ≤ e).
Proof.
  revert mx mn. induction l as [|u l IH]; intros mx mn Hl; simpl.
  { exists mx, mn. split; [done|]. split; [by left|]. split; [by left|]. split; [lia|]. split; [lia|].
    intros ?? Hx. by apply elem_of_nil in Hx. }
  assert (u < node_count g)%nat as Hu by (apply Hl, elem_of_cons; by left).
  destruct (bfs_spec g u Hu) as (dist & Hb & Hd). rewrite Hb. simpl.
  destruct (eccentricity_spec u dist Hu Hd) as [He Her]. set (e := eccentricity dist) in *.
  destruct (IH (Z.max mx e) (if 0 <? e then Z.min mn e else mn)) as (mx' & mn' & Hloop & Hmx & Hmn & Hlx & Hln & Hall).
  { intros x Hx. apply Hl, elem_of_cons. by right. }
  exists mx', mn'. split; [done|].
  assert (∀ x, x ∈ l → x ∈ u :: l) as Htl by (intros; apply elem_of_cons; by right).
  assert (u ∈ u :: l) as Hhd by (apply elem_of_cons; by left).
  split; [|split; [|split; [lia|split; [destruct (0 <? e); lia|]]]].
  - destruct Hmx as [->|(x & Hx & Hex)]; [|right; exists x; by auto].
    destruct (Z.max_spec mx e) as [[_ ->]|[_ ->]]; [right; by exists u|by left].
  - destruct Hmn as [->|(x & Hx & Hex)]; [|right; exists x; by auto].
    destruct (Z.ltb_spec 0 e); [|by left].
    destruct (Z.min_spec mn e) as [[_ ->]|[_ ->]]; [by left|right]. exists u. split; [done|]. split; [done|lia].
  - intros x ex [->|Hx]%elem_of_cons Hex; [|by apply (Hall x)].
    rewrite (ecc_unique u ex e Hex He). split; [lia|]. intros Hpos.
    rewrite (proj2 (Z.ltb_lt 0 e) Hpos) in Hln. lia.
Qed.

Lemma diameter_extremes :
  node_count g ≠ 0%nat →
  ∃ mx mn, diameter (Other:=Other) g = Some [[VInteger mx; VInteger mn]] ∧
    (∃ u, (u < node_count g)%nat ∧ ecc u mx) ∧
    ((∃ u, (u < node_count g)%nat ∧ ecc u mn ∧ 0 < mn) ∨ (mn = 0 ∧ mx = 0)) ∧
    ∀ u e, (u < node_count g)%nat → ecc u e → e ≤ mx ∧ (0 < e → mn ≤ e).
Proof.
  intros Hn. unfold diameter. rewrite (proj2 (Nat.eqb_neq _ _) Hn).
  assert (∀ u, u ∈ nodes g ↔ (u < node_count g)%nat) as Hnodes.
  { intros u. unfold nodes. rewrite elem_of_seq. lia. }
  destruct (diameter_loop_spec (nodes g) 0 i64_max) as (mx & mn & -> & Hmx & Hmn & Hlx & Hln & Hall);
    [by intros u ?%Hnodes|]. simpl.
  assert (∀ u, (u < node_count g)%nat → ∃ e, ecc u e ∧ 0 ≤ e < u32_max) as Hex.
  { intros u Hu. destruct (bfs_spec g u Hu) as (dist & _ & Hd).
    destruct (eccentricity_spec u dist Hu Hd) as [He Hr]. by eexists. }
  assert (0 < node_count g)%nat as H0n by lia.
  destruct (Hex 0%nat H0n) as (e0 & He0 & Hr0).
  exists mx, (if mn =? i64_max then 0 else mn). split; [done|].
  assert (∃ u, (u < node_count g)%nat ∧ ecc u mx) as Hmx'.
  { destruct Hmx as [->|(u & Hu & ?)]; [|exists u; by rewrite <-Hnodes].
    destruct (Hall 0%nat e0) as [Hle _]; [by apply Hnodes|done|].
    exists 0%nat. split; [done|]. by replace 0 with e0 by lia. }
  split; [done|]. destruct (Z.eqb_spec mn i64_max) as [->|Hmne].
  - assert (∀ u e, (u < node_count g)%nat → ecc u e → e = 0) as Hz.
    { intros u e Hu He. destruct (Hex u Hu) as (e' & He' & Hr).
      rewrite (ecc_unique u e e' He He') in *. destruct (Hall u e') as [_ Hp]; [by apply Hnodes|done|].
      destruct (decide (0 < e')) as [Hpos|]; [specialize (Hp Hpos); arith|lia]. }
    destruct Hmx' as (u & Hu & He). rewrite (Hz u mx Hu He). split; [by right|].
    intros x e Hx Hxe. rewrite (Hz x e Hx Hxe). lia.
  - split; [|intros u e Hu He; by apply (Hall u); [apply Hnodes|]].
    left. destruct Hmn as [->|(u & Hu & He & Hr)]; [done|]. exists u. rewrite <-Hnodes. split; [done|]. split; [done|lia].
Qed.

(** [diameter] returns the extremes of the eccentricities.  On a graph with
    nodes it terminates with one row: the largest distance between two nodes
    (over the pairs with a path, directed), which some node attains, and the least
    positive eccentricity, or 0 when no node reaches another. *)
Theorem diameter_spec :
  node_count g ≠ 0%nat →
  ∃ mx mn, diameter (Other:=Other) g = Some [[VInteger mx; VInteger mn]] ∧
    (∃ u, (u < node_count g)%nat ∧ ecc u mx) ∧
    ((∃ u, (u < node_count g)%nat ∧ ecc u mn ∧ 0 < mn) ∨ (mn = 0 ∧ mx = 0)) ∧
    ∀ u e, (u < node_count g)%nat → ecc u e → e ≤ mx ∧ (0 < e → mn ≤ e).
Proof. exact diameter_extremes. Qed.
End diameter.
