(* ===== verification/GraphWcc.v ===== *)
(** * Union-find computes the weakly connected components

    Theorems about [wcc] of [Graph.v].  The parents form a forest: every node has a
    representative, a root, and a height that drops along the parents, which
    bounds the recursion of [find].  [union] of an edge joins two classes, path
    compression joins none. *)

From Stdlib Require Import ZArith Lia.
From stdpp Require Import prelude gmap list strings relations.
From S2P Require Import Prelude Bytes Ordered Text F64 StorageTrait IndexKey Graph.

Section forest.
Variable n : nat.

(** Parents [p] with representatives [rep] and heights [h]. *)
Record forest (p : list nat) (rep h : nat → nat) : Prop := {
  fo_len : length p = n;
  fo_range x : x < n → p !!! x < n;
  fo_root x : x < n → rep x < n ∧ p !!! rep x = rep x;
  fo_step x : x < n → rep (p !!! x) = rep x;
  fo_self x : x < n → p !!! x = x → rep x = x;
  fo_height x : x < n → p !!! x ≠ x → h (p !!! x) < h x
}.

Lemma rep_idem p rep h x : forest p rep h → x < n → rep (rep x) = rep x.
Proof. intros Hf Hx. destruct (fo_root _ _ _ Hf x Hx). by apply (fo_self _ _ _ Hf). Qed.

Lemma rep_height p rep h x : forest p rep h → x < n → h (rep x) ≤ h x.
Proof.
  intros Hf. remember (h x) as k eqn:Hk. revert x Hk. induction (lt_wf k) as [k _ IH]. intros x -> Hx.
  destruct (decide (p !!! x = x)) as [He|He]; [by rewrite (fo_self _ _ _ Hf x Hx He)|].
  rewrite <-(fo_step _ _ _ Hf x Hx). pose proof (fo_height _ _ _ Hf x Hx He) as Hlt.
  specialize (IH _ Hlt (p !!! x) eq_refl (fo_range _ _ _ Hf x Hx)). lia.
Qed.

(** Pointing a node at its representative changes nothing else. *)
Lemma compress_forest p rep h x :
  forest p rep h → x < n → forest (<[x := rep x]> p) rep h.
Proof.
  intros Hf Hx. pose proof Hf as [Hl Hr Hro Hst Hse Hh].
  assert (∀ y, <[x := rep x]> p !!! y = if decide (y = x) then rep x else p !!! y) as Hlook.
  { intros y. case_decide as Hd; [subst; apply list_lookup_total_insert_eq; lia|].
    apply list_lookup_total_insert_ne. congruence. }
  split; [by rewrite length_insert|..]; intros y Hy; rewrite ?Hlook.
  - case_decide; [by apply Hro|by apply Hr].
  - destruct (Hro y Hy) as [Hlt Hroot]. split; [done|]. case_decide as Hd; [|done].
    rewrite <-Hd at 1. by apply (rep_idem _ _ _ _ Hf).
  - case_decide; [subst; by apply (rep_idem _ _ _ _ Hf)|by apply Hst].
  - case_decide; [subst; done|by apply Hse].
  - case_decide as Hd; [subst; intros Hne|by apply Hh].
    destruct (decide (p !!! x = x)) as [He|He]; [by rewrite (Hse x Hx He) in Hne|].
    rewrite <-(Hst x Hx). pose proof (rep_height _ _ _ (p !!! x) Hf (Hr x Hx)).
    specialize (Hh x Hx He). lia.
Qed.

Lemma find_spec rep h fuel p x :
  forest p rep h → x < n → h x < fuel →
  ∃ p', uf_find fuel p x = Some (rep x, p') ∧ forest p' rep h.
Proof.
  revert p x. induction fuel as [|fuel IH]; intros p x Hf Hx Hh; [lia|]. simpl.
  destruct (Nat.eqb_spec (p !!! x) x) as [He|He]; simpl.
  - exists p. rewrite (fo_self _ _ _ Hf x Hx He). by rewrite He.
  - pose proof (fo_height _ _ _ Hf x Hx He).
    destruct (IH p (p !!! x) Hf (fo_range _ _ _ Hf x Hx)) as (p' & -> & Hf'); [lia|].
    simpl. rewrite (fo_step _ _ _ Hf x Hx). eexists. split; [done|]. by apply compress_forest.
Qed.

(** Any forest has heights below the number of nodes. *)
Lemma bounded_heights p rep h :
  forest p rep h → ∃ c, forest p rep c ∧ ∀ x, x < n → c x < n.
Proof.
  intros [Hl Hr Hro Hst Hse Hh]. exists (λ x, length (filter (λ y, h y < h x) (seq 0 n))).
  assert (∀ (P Q : nat → Prop) `{∀ y, Decision (P y)} `{∀ y, Decision (Q y)} z,
    (∀ y, P y → Q y) → z < n → Q z → ¬ P z →
    length (filter P (seq 0 n)) < length (filter Q (seq 0 n))) as Hstrict.
  { intros P Q ?? z HPQ Hz HQ HP.
    assert (z ∈ filter Q (seq 0 n)) as Hzin by (apply list_elem_of_filter; rewrite elem_of_seq; split; [done|lia]).
    assert (NoDup (filter P (seq 0 n))) as HndP by apply NoDup_filter, NoDup_seq.
    assert (length (z :: filter P (seq 0 n)) ≤ length (filter Q (seq 0 n))); [|simpl in *; lia].
    apply submseteq_length, NoDup_submseteq.
    - constructor; [|done]. rewrite list_elem_of_filter. tauto.
    - intros y [->|Hy]%elem_of_cons; [done|]. apply list_elem_of_filter in Hy as [? ?].
      apply list_elem_of_filter. auto. }
  split.
  - split; try done. intros x Hx Hne. specialize (Hh x Hx Hne).
    apply (Hstrict _ _ _ _ (p !!! x)); [lia|by apply Hr|done|lia].
  - intros x Hx. rewrite <-(length_seq n 0) at 2.
    rewrite <-(filter_all (λ _ : nat, True) (seq 0 n)) at 2 by done.
    apply (Hstrict _ _ _ _ x); [done|done|done|lia].
Qed.

(** Joining two roots. *)
Lemma join_forest p rep h ra rb :
  forest p rep h → ra < n → rb < n → rep ra = ra → rep rb = rb → ra ≠ rb →
  forest (<[ra := rb]> p) (λ y, if decide (rep y = ra) then rb else rep y)
    (λ y, if decide (rep y = ra) then h y + h rb + 1 else h y).
Proof.
  intros [Hl Hr Hro Hst Hse Hh] Ha Hb Hra Hrb Hne.
  assert (∀ y, <[ra := rb]> p !!! y = if decide (y = ra) then rb else p !!! y) as Hlook.
  { intros y. case_decide as Hd; [subst; apply list_lookup_total_insert_eq; lia|].
    apply list_lookup_total_insert_ne. congruence. }
  assert (p !!! rb = rb) as Hpb by (rewrite <-Hrb at 1; rewrite <-Hrb at 2; by apply Hro).
  split; [by rewrite length_insert|..]; intros y Hy; rewrite ?Hlook.
  - case_decide; [done|by apply Hr].
  - destruct (Hro y Hy) as [Hlt Hroot].
    destruct (decide (rep y = ra)) as [He|He].
    + split; [done|]. by rewrite decide_False by congruence.
    + split; [done|]. by rewrite decide_False by done.
  - destruct (decide (y = ra)) as [->|Hya].
    + rewrite Hra, Hrb, (decide_True _ _ eq_refl). by rewrite decide_False by congruence.
    + by rewrite (Hst y Hy).
  - destruct (decide (y = ra)) as [->|Hya]; [congruence|].
    intros Hpy. rewrite (Hse y Hy Hpy). by rewrite decide_False by done.
  - destruct (decide (y = ra)) as [->|Hya]; intros Hpy.
    + rewrite Hra, Hrb, (decide_True _ _ eq_refl). rewrite decide_False by congruence. lia.
    + rewrite (Hst y Hy). specialize (Hh y Hy Hpy). case_decide; lia.
Qed.

(** Classes are the components of the edges seen so far. *)
Definition joined (l : list (nat * nat)) (a b : nat) : Prop := (a, b) ∈ l.

Record classes (l : list (nat * nat)) (rep : nat → nat) : Prop := {
  cl_sound x : x < n → rtsc (joined l) x (rep x);
  cl_edge a b : (a, b) ∈ l → rep a = rep b
}.

Lemma rtsc_mono l1 l2 x y : l1 ⊆ l2 → rtsc (joined l1) x y → rtsc (joined l2) x y.
Proof.
  intros Hsub. apply rtc_subrel. intros a b [Hab|Hab]; [left|right]; by apply Hsub.
Qed.

Lemma joined_rep l (rep : nat → nat) x y : (∀ a b, (a, b) ∈ l → rep a = rep b) → rtsc (joined l) x y → rep x = rep y.
Proof.
  intros He. induction 1 as [|x y z [Hxy|Hxy] _ IH]; [done|..]; rewrite <-IH; [|symmetry]; by apply He.
Qed.

Lemma rtsc_symm l x y : rtsc (joined l) x y → rtsc (joined l) y x.
Proof. intros. by apply rtsc_equivalence. Qed.

Lemma classes_iff l rep x y :
  classes l rep → x < n → y < n → rep x = rep y ↔ rtsc (joined l) x y.
Proof.
  intros [Hs He] Hx Hy. split; [|by apply joined_rep]. intros Hxy.
  etrans; [by apply Hs|]. rewrite Hxy. by apply rtsc_symm, Hs.
Qed.

Lemma classes_join l rep a b :
  classes l rep → a < n → b < n →
  classes (l ++ [(a, b)]) (λ y, if decide (rep y = rep a) then rep b else rep y).
Proof.
  intros [Hs He] Ha Hb.
  assert (l ⊆ l ++ [(a, b)]) as Hsub by set_solver.
  assert (∀ x, x < n → rtsc (joined (l ++ [(a, b)])) x (rep x)) as Hs'
    by (intros x Hx; eapply rtsc_mono; [exact Hsub|by apply Hs]).
  split.
  - intros x Hx. case_decide as Hd; [|by apply Hs'].
    etrans; [by apply Hs'|]. rewrite Hd. etrans; [by apply rtsc_symm, Hs'|].
    etrans; [|by apply Hs']. apply rtsc_lr. unfold joined. set_solver.
  - intros x y [Hxy|Hxy%list_elem_of_singleton]%elem_of_app.
    + by rewrite (He x y Hxy).
    + injection Hxy as -> ->. rewrite (decide_True _ _ eq_refl). by case_decide.
Qed.

Lemma classes_same l rep a b : classes l rep → rep a = rep b → classes (l ++ [(a, b)]) rep.
Proof.
  intros [Hs He] Hab. split.
  - intros x Hx. eapply rtsc_mono; [|by apply Hs]. set_solver.
  - intros x y [Hxy|Hxy%list_elem_of_singleton]%elem_of_app; [by apply He|]. by injection Hxy as -> ->.
Qed.

Definition uf_state (l : list (nat * nat)) (p : list nat) : Prop :=
  ∃ rep h, forest p rep h ∧ classes l rep.

Lemma find_total p rep h x :
  forest p rep h → x < n → ∃ p' h', uf_find n p x = Some (rep x, p') ∧ forest p' rep h'.
Proof.
  intros Hf Hx. destruct (bounded_heights p rep h Hf) as (c & Hc & Hb).
  destruct (find_spec rep c n p x Hc Hx (Hb x Hx)) as (p' & ? & ?). by exists p', c.
Qed.

Lemma union_spec l p a b :
  uf_state l p → a < n → b < n → ∃ p', uf_union n p a b = Some p' ∧ uf_state (l ++ [(a, b)]) p'.
Proof.
  intros (rep & h & Hf & Hc) Ha Hb. unfold uf_union.
  destruct (find_total p rep h a Hf Ha) as (p1 & h1 & -> & Hf1). simpl.
  destruct (find_total p1 rep h1 b Hf1 Hb) as (p2 & h2 & -> & Hf2). simpl.
  destruct (fo_root _ _ _ Hf2 a Ha) as [Hra _]. destruct (fo_root _ _ _ Hf2 b Hb) as [Hrb _].
  pose proof (rep_idem _ _ _ a Hf2 Ha). pose proof (rep_idem _ _ _ b Hf2 Hb).
  destruct (Nat.eqb_spec (rep a) (rep b)) as [He|He]; simpl; (eexists; split; [done|]).
  - exists rep, h2. split; [done|]. by apply classes_same.
  - eexists _, _. split; [by apply join_forest|]. by apply classes_join.
Qed.

Lemma edges_spec l2 l1 p :
  uf_state l1 p → (∀ a b, (a, b) ∈ l2 → a < n ∧ b < n) →
  ∃ p', wcc_edges n p l2 = Some p' ∧ uf_state (l1 ++ l2) p'.
Proof.
  revert l1 p. induction l2 as [|[a b] l2 IH]; intros l1 p Hs Hl; simpl.
  - exists p. by rewrite app_nil_r.
  - destruct (Hl a b) as [Ha Hb]; [set_solver|].
    destruct (union_spec l1 p a b Hs Ha Hb) as (p1 & -> & Hs1). simpl.
    destruct (IH _ p1 Hs1) as (p' & ? & Hs'); [set_solver|]. exists p'. split; [done|].
    by rewrite <-app_assoc in Hs'.
Qed.

Lemma forest_init : forest (seq 0 n) id (λ _, 0).
Proof.
  assert (∀ x, x < n → seq 0 n !!! x = x) as Hl.
  { intros x Hx. apply list_lookup_total_correct. apply lookup_seq. lia. }
  split; [by rewrite length_seq|..]; intros x Hx; unfold id; rewrite ?Hl by done; try done.
Qed.

Lemma init_state : uf_state [] (seq 0 n).
Proof.
  exists id, (λ _, 0). split; [apply forest_init|].
  split; [intros x _; apply rtc_refl|]. intros a b Hab. by apply elem_of_nil in Hab.
Qed.
End forest.

Section wcc.
Context {G : Type} `{CsrLaws G} {Other : Type}.
Variable g : G.

(** Two ends of an edge, in either direction. *)
Definition linked_by_edges : nat → nat → Prop := rtsc (joined (edges g)).

Lemma edges_range a b : (a, b) ∈ edges g → a < node_count g ∧ b < node_count g.
Proof.
  unfold edges. rewrite list_elem_of_In, in_concat. intros (l & Hl & Hab).
  apply list_elem_of_In in Hl, Hab. apply list_elem_of_fmap in Hl as (u & -> & Hu).
  apply list_elem_of_fmap in Hab as (v & [= -> ->] & Hv).
  unfold nodes in Hu. apply elem_of_seq in Hu. split; [lia|]. by eapply csr_out_range.
Qed.

Lemma rows_spec rep p h l :
  forest (node_count g) p rep h → (∀ i, i ∈ l → i < node_count g) →
  wcc_rows (Other:=Other) g (node_count g) p l =
    Some ((λ i, named g i (VInteger (Z.of_nat (rep i)))) <$> l).
Proof.
  revert p h. induction l as [|i l IH]; intros p h Hf Hl; simpl; [done|].
  destruct (find_total (node_count g) p rep h i Hf) as (p' & h' & -> & Hf'); [set_solver|].
  simpl. by rewrite (IH p' h' Hf') by set_solver.
Qed.

Lemma wcc_spec :
  ∃ comp : nat → nat,
    wcc (Other:=Other) g = Some ((λ i, named g i (VInteger (Z.of_nat (comp i)))) <$> nodes g) ∧
    (∀ i, i < node_count g → comp i < node_count g ∧ linked_by_edges i (comp i)) ∧
    ∀ i j, i < node_count g → j < node_count g → comp i = comp j ↔ linked_by_edges i j.
Proof.
  unfold wcc. destruct (Nat.eqb_spec (node_count g) 0) as [Hz|Hz].
  { exists id. unfold nodes. rewrite Hz. split; [done|]. split; intros; lia. }
  destruct (edges_spec (node_count g) (edges g) [] (nodes g)) as (p & -> & rep & h & Hf & Hc).
  { apply init_state. } { intros a b ?%edges_range. done. }
  simpl. exists rep. split; [|split].
  - eapply rows_spec; [done|]. intros i Hi%elem_of_seq. lia.
  - intros i Hi. split; [by apply (fo_root _ _ _ _ Hf)|by apply Hc].
  - intros i j Hi Hj. by apply classes_iff with (n := node_count g).
Qed.

(** C22: [wcc] computes the weakly connected components.  It terminates (no chain of
    parents is longer than the number of nodes), with one row per node in order:
    the name and a component number.  Two nodes get the same number exactly when
    edges, taken in either direction, connect them, and the number is that of a
    node of the component. *)
Theorem wcc_components :
  ∃ comp : nat → nat,
    wcc (Other:=Other) g = Some ((λ i, named g i (VInteger (Z.of_nat (comp i)))) <$> nodes g) ∧
    (∀ i, i < node_count g → comp i < node_count g ∧ linked_by_edges i (comp i)) ∧
    ∀ i j, i < node_count g → j < node_count g → comp i = comp j ↔ linked_by_edges i j.
Proof. exact wcc_spec. Qed.
End wcc.
