(* ===== verification/GraphKcore.v ===== *)
(** * Peeling computes the core numbers

    Theorems about [kcore] of [Graph.v].  A set of nodes is [k]-dense when each of
    its nodes has at least [k] edges to and from the set; the core number of a node
    is the largest [k] with a [k]-dense set around it.  The degrees the code keeps
    are the degrees within the nodes that are left. *)

From Stdlib Require Import ZArith Lia.
From stdpp Require Import prelude gmap list strings.
From S2P Require Import Prelude Bytes Ordered Text F64 StorageTrait IndexKey Graph.

Section kcore.
Context {G : Type} `{CsrLaws G} {Other : Type}.
Variable g : G.
Notation n := (node_count g).

Definition adjacent (v : nat) : list nat := outs g v ++ ins g v.

(** Edges between [v] and the set [A], in both directions. *)
Definition deg (A : nat → bool) (v : nat) : nat := length (filter (λ w, A w = true) (adjacent v)).

Definition dense (k : nat) (A : nat → bool) : Prop :=
  ∀ v, v < n → A v = true → k ≤ deg A v.

Definition core_number (v c : nat) : Prop :=
  (∃ A, dense c A ∧ A v = true) ∧ ∀ k A, dense k A → A v = true → k ≤ c.

Definition alive (s : KState) (v : nat) : bool := negb (k_removed s !!! v).

Record peel_inv (k : nat) (s : KState) : Prop := {
  pi_len : length (k_degree s) = n ∧ length (k_removed s) = n ∧ length (k_core s) = n;
  pi_degree v : v < n → alive s v = true → k_degree s !!! v = deg (alive s) v;
  pi_dense A v : dense k A → v < n → A v = true → alive s v = true;
  pi_core v : v < n → alive s v = false →
    ∃ c, core_number v c ∧ k_core s !!! v = (Z.of_nat c mod 2 ^ 32)%Z;
  pi_alive v : v < n → alive s v = true → ∃ A, dense (k - 1) A ∧ A v = true
}.

(** ** Degrees *)

Lemma adjacent_range v w : w ∈ adjacent v → w < n.
Proof. intros [Hw|Hw]%elem_of_app; [by eapply csr_out_range|by eapply csr_in_range]. Qed.

Lemma deg_mono A B v : (∀ w, w < n → A w = true → B w = true) → deg A v ≤ deg B v.
Proof.
  intros HAB. unfold deg. pose proof (adjacent_range v) as Hr. revert Hr.
  induction (adjacent v) as [|w l IH]; intros Hr; [done|]. rewrite !filter_cons.
  assert (length (filter (λ w, A w = true) l) ≤ length (filter (λ w, B w = true) l)) by (apply IH; set_solver).
  assert (w < n) by set_solver. repeat case_decide; simpl; try lia. exfalso. eauto.
Qed.

Lemma dense_le k j A : j ≤ k → dense k A → dense j A.
Proof. intros Hj Hd v Hv Ha. specialize (Hd v Hv Ha). lia. Qed.

Lemma times_app v l1 l2 : times v (l1 ++ l2) = times v l1 + times v l2.
Proof. unfold times. by rewrite filter_app, length_app. Qed.

Lemma times_adjacent v x : v < n → x < n → times x (adjacent v) = times v (adjacent x).
Proof.
  intros Hv Hx. unfold adjacent. rewrite !times_app.
  rewrite (csr_transpose g v x), (csr_transpose g x v) by done. lia.
Qed.

(** A set without one of its nodes. *)
Lemma deg_without (A B : nat → bool) x v :
  A x = true → (∀ w, B w = if decide (w = x) then false else A w) →
  deg A v = deg B v + times x (adjacent v).
Proof.
  intros Hx HB. unfold deg, times. induction (adjacent v) as [|w l IH]; [done|]. rewrite !filter_cons.
  rewrite (HB w). destruct (decide (w = x)) as [->|Hne].
  - rewrite (decide_True _ _ Hx). rewrite decide_False by done. simpl. lia.
  - destruct (decide (A w = true)); simpl; lia.
Qed.

(** The neighbours' degrees drop by the number of edges to the removed node. *)
Lemma drop_fold (removed : list bool) (l degree : list nat) v :
  (∀ w, w ∈ l → w < length degree) → v < length degree →
  length (foldl (drop_neighbor removed) degree l) = length degree ∧
  foldl (drop_neighbor removed) degree l !!! v =
    if (removed !!! v : bool) then degree !!! v else degree !!! v - times v l.
Proof.
  revert degree. induction l as [|w l IH]; intros degree Hl Hv; simpl.
  { split; [done|]. unfold times. simpl. destruct (removed !!! v); lia. }
  set (d := drop_neighbor removed degree w).
  assert (length d = length degree) as Hlen by (unfold d, drop_neighbor; destruct (_ && _); [by rewrite length_insert|done]).
  destruct (IH d) as [Hl' Hv']; [intros x Hx; rewrite Hlen; set_solver|lia|].
  split; [congruence|]. rewrite Hv'. clear Hv' Hl' IH.
  assert (d !!! v = if (removed !!! v : bool) then degree !!! v
                    else degree !!! v - (if decide (w = v) then 1 else 0)) as ->.
  { unfold d, drop_neighbor. destruct (decide (w = v)) as [->|Hne].
    - destruct (removed !!! v) eqn:Hr; simpl; [done|].
      destruct (Nat.ltb_spec 0 (degree !!! v)); [|lia]. by rewrite list_lookup_total_insert_eq.
    - destruct (_ && _); [rewrite list_lookup_total_insert_ne by done|]; destruct (removed !!! v); lia. }
  unfold times. rewrite filter_cons. destruct (removed !!! v); [done|]. case_decide; simpl; lia.
Qed.

(** ** One node *)

Definition removed_count (s : KState) : nat := length (filter (λ r : bool, r = true) (k_removed s)).

Lemma removed_insert (l : list bool) x :
  x < length l → l !!! x = false →
  length (filter (λ r : bool, r = true) (<[x := true]> l)) = S (length (filter (λ r : bool, r = true) l)).
Proof.
  revert x. induction l as [|r l IH]; intros [|x] Hx Hl; simpl in *; try lia.
  - change ((r :: l) !!! 0) with r in Hl. subst r. by rewrite !filter_cons.
  - change ((r :: l) !!! S x) with (l !!! x) in Hl. rewrite !filter_cons.
    case_decide; simpl; rewrite IH by (done || lia); done.
Qed.

(** The state after the removal of [x] at level [k]. *)
Definition remove_node (k : nat) (s : KState) (x : nat) : KState := (kcore_node g k (s, false) x).1.

Lemma remove_unfold k s x pr :
  alive s x = true → k_degree s !!! x < k →
  let removed := <[x := true]> (k_removed s) in
  kcore_node g k (s, pr) x =
    (mkK (foldl (drop_neighbor removed) (foldl (drop_neighbor removed) (k_degree s) (outs g x)) (ins g x))
       removed (<[x := Z.of_nat (k - 1) mod 2 ^ 32]> (k_core s))%Z, true).
Proof.
  destruct s as [degree removed core]. unfold alive. simpl. intros -> Hlt.
  by rewrite (proj2 (Nat.ltb_lt _ _) Hlt).
Qed.

Lemma keep_unfold k s x pr :
  alive s x = false ∨ k ≤ k_degree s !!! x → kcore_node g k (s, pr) x = (s, pr).
Proof.
  destruct s as [degree removed core]. unfold alive. simpl. intros [->|Hle]; [done|].
  rewrite (proj2 (Nat.ltb_ge _ _) Hle). by rewrite andb_false_r.
Qed.

Lemma alive_remove k s x w :
  length (k_removed s) = n → x < n → alive s x = true → k_degree s !!! x < k →
  alive (remove_node k s x) w = if decide (w = x) then false else alive s w.
Proof.
  intros Hl Hx Ha Hlt. unfold remove_node. rewrite remove_unfold by done. unfold alive. simpl.
  destruct (decide (w = x)) as [->|Hne].
  - by rewrite list_lookup_total_insert_eq by lia.
  - by rewrite list_lookup_total_insert_ne by done.
Qed.

Lemma remove_degree k s x v :
  peel_inv k s → x < n → alive s x = true → k_degree s !!! x < k → v < n →
  alive (remove_node k s x) v = true →
  k_degree (remove_node k s x) !!! v = deg (alive (remove_node k s x)) v.
Proof.
  intros Hi Hx Ha Hlt Hv Hav. destruct (pi_len _ _ Hi) as (Hld & Hlr & _).
  pose proof (alive_remove k s x) as Hal. rewrite (Hal v) in Hav by done.
  destruct (decide (v = x)) as [|Hne]; [done|].
  pose proof (deg_without (alive s) (alive (remove_node k s x)) x v Ha (λ w, Hal w Hlr Hx Ha Hlt)) as Hdeg.
  rewrite <-(pi_degree _ _ Hi v Hv Hav) in Hdeg. rewrite times_adjacent in Hdeg by done.
  unfold remove_node at 1. rewrite remove_unfold by done. simpl.
  assert (<[x := true]> (k_removed s) !!! v = false) as Hr.
  { rewrite list_lookup_total_insert_ne by congruence. unfold alive in Hav. by apply negb_true_iff. }
  destruct (drop_fold (<[x := true]> (k_removed s)) (outs g x) (k_degree s) v) as [Hl1 Hv1];
    [intros w Hw; rewrite Hld; by eapply csr_out_range|lia|].
  destruct (drop_fold (<[x := true]> (k_removed s)) (ins g x)
    (foldl (drop_neighbor (<[x := true]> (k_removed s))) (k_degree s) (outs g x)) v) as [_ Hv2];
    [intros w Hw; rewrite Hl1, Hld; by eapply csr_in_range|lia|].
  rewrite Hv2, Hv1, Hr. unfold adjacent in Hdeg. rewrite times_app in Hdeg. lia.
Qed.

Lemma remove_inv k s x :
  1 ≤ k → peel_inv k s → x < n → alive s x = true → k_degree s !!! x < k →
  peel_inv k (remove_node k s x) ∧ removed_count (remove_node k s x) = S (removed_count s).
Proof.
  intros Hk Hi Hx Ha Hlt. destruct (pi_len _ _ Hi) as (Hld & Hlr & Hlc).
  assert (∀ w, alive (remove_node k s x) w = if decide (w = x) then false else alive s w) as Hal
    by (intros; by apply alive_remove).
  assert (∀ A v, dense k A → v < n → A v = true → alive (remove_node k s x) v = true) as Hdense.
  { intros A v HA Hv HAv. rewrite Hal. pose proof (pi_dense _ _ Hi A) as Hsub.
    destruct (decide (v = x)) as [->|]; [|by eapply Hsub].
    pose proof (HA x Hx HAv). pose proof (deg_mono A (alive s) x (λ w Hw, Hsub w HA Hw)).
    rewrite (pi_degree _ _ Hi x Hx Ha) in Hlt. lia. }
  assert (length (k_degree (remove_node k s x)) = n) as Hld'.
  { unfold remove_node. rewrite remove_unfold by done. simpl.
    destruct (drop_fold (<[x := true]> (k_removed s)) (outs g x) (k_degree s) x) as [Hl1 _];
      [intros w Hw; rewrite Hld; by eapply csr_out_range|lia|].
    destruct (drop_fold (<[x := true]> (k_removed s)) (ins g x)
      (foldl (drop_neighbor (<[x := true]> (k_removed s))) (k_degree s) (outs g x)) x) as [Hl2 _];
      [intros w Hw; rewrite Hl1, Hld; by eapply csr_in_range|lia|congruence]. }
  split; [split|].
  - split; [done|]. unfold remove_node. rewrite remove_unfold by done. simpl. by rewrite !length_insert.
  - intros v Hv Hav. by apply remove_degree.
  - done.
  - intros v Hv Hav. assert (k_core (remove_node k s x) = <[x := Z.of_nat (k - 1) mod 2 ^ 32]> (k_core s))%Z
      as -> by (unfold remove_node; by rewrite remove_unfold).
    rewrite Hal in Hav. destruct (decide (v = x)) as [->|Hne].
    + exists (k - 1). rewrite list_lookup_total_insert_eq by lia. split; [|done].
      split; [by apply (pi_alive _ _ Hi)|]. intros j A HA HAx.
      destruct (decide (j ≤ k - 1)); [done|]. exfalso.
      specialize (Hdense A x (dense_le j k A ltac:(lia) HA) Hx HAx). rewrite Hal in Hdense. by case_decide.
    + rewrite list_lookup_total_insert_ne by congruence. by apply (pi_core _ _ Hi).
  - intros v Hv Hav. rewrite Hal in Hav. case_decide; [done|]. by apply (pi_alive _ _ Hi).
  - unfold removed_count, remove_node. rewrite remove_unfold by done. simpl. apply removed_insert; [lia|].
    unfold alive in Ha. by apply negb_true_iff.
Qed.

(** ** Passes and levels *)

Lemma pass_spec k l s pr :
  1 ≤ k → peel_inv k s → (∀ v, v ∈ l → v < n) →
  let r := foldl (kcore_node g k) (s, pr) l in
  peel_inv k r.1 ∧ removed_count s ≤ removed_count r.1 ∧
  (r.2 = true → pr = true ∨ removed_count s < removed_count r.1) ∧
  (r.2 = false → r.1 = s ∧ ∀ v, v ∈ l → alive s v = true → k ≤ k_degree s !!! v).
Proof.
  intros Hk. revert s pr. induction l as [|x l IH]; intros s pr Hi Hl; cbn [foldl].
  { simpl. split; [done|]. split; [done|]. split; [by left|]. split; [done|]. set_solver. }
  assert (x < n) as Hx by set_solver.
  destruct (decide (alive s x = true ∧ k_degree s !!! x < k)) as [[Ha Hlt]|Hno].
  - destruct (remove_inv k s x Hk Hi Hx Ha Hlt) as [Hi' Hc].
    assert (kcore_node g k (s, pr) x = (remove_node k s x, true)) as ->
      by (unfold remove_node; by rewrite !remove_unfold).
    destruct (IH (remove_node k s x) true Hi') as (Hinv & Hle & Ht & Hf); [set_solver|].
    split; [done|]. split; [lia|]. split; [right; lia|]. intros Hr. exfalso.
    assert (∀ l s, (foldl (kcore_node g k) (s, true) l).2 = true) as Hstay.
    { clear. induction l as [|y l IH]; intros s; [done|]. cbn [foldl].
      destruct s as [degree removed core]. simpl. case_match; apply IH. }
    by rewrite Hstay in Hr.
  - rewrite keep_unfold by (destruct (alive s x); [right; apply Nat.nlt_ge; tauto|by left]).
    destruct (IH s pr Hi) as (Hinv & Hle & Ht & Hf); [set_solver|].
    split; [done|]. split; [done|]. split; [done|]. intros Hr. destruct (Hf Hr) as [He Hall].
    split; [done|]. intros v [->|Hv]%elem_of_cons Hav; [apply Nat.nlt_ge; tauto|by apply Hall].
Qed.

Lemma removed_le s : length (k_removed s) = n → removed_count s ≤ n.
Proof. intros <-. apply length_filter. Qed.

Lemma peel_spec fuel k s :
  1 ≤ k → peel_inv k s → n - removed_count s < fuel →
  ∃ s', kcore_peel fuel g k s = Some s' ∧ peel_inv k s' ∧ dense k (alive s').
Proof.
  intros Hk. revert s. induction fuel as [|fuel IH]; intros s Hi Hf; [lia|]. simpl.
  assert (∀ v, v ∈ nodes g → v < n) as Hn by (intros v Hv%elem_of_seq; lia).
  destruct (pass_spec k (nodes g) s false Hk Hi Hn) as (Hi' & Hle & Ht & Hfl).
  destruct (foldl _ _ _) as [s' pr]. simpl in *. destruct pr.
  - destruct (Ht eq_refl) as [|Hlt]; [done|]. apply IH; [done|].
    pose proof (removed_le s' (proj1 (proj2 (pi_len _ _ Hi')))). lia.
  - destruct (Hfl eq_refl) as [-> Hall]. exists s. split; [done|]. split; [done|].
    intros v Hv Ha. rewrite <-(pi_degree _ _ Hi v Hv Ha). apply Hall; [|done]. apply elem_of_seq. lia.
Qed.

(** The next level. *)
Lemma assign_inv k s : peel_inv k s → dense k (alive s) → peel_inv (S k) (kcore_assign k s).
Proof.
  intros [(Hld & Hlr & Hlc) Hd Hden Hc Ha] Hcore.
  assert (∀ v, alive (kcore_assign k s) v = alive s v) as Hal by done.
  split.
  - simpl. rewrite length_zip_with. repeat split; [done|done|lia].
  - done.
  - intros A v HA. apply Hden. by eapply dense_le; [|exact HA]; lia.
  - intros v Hv Hav. destruct (Hc v Hv Hav) as (c & Hcn & Hcv). exists c. split; [done|]. simpl.
    apply list_lookup_total_correct. apply lookup_zip_with_Some. exists (k_removed s !!! v), (k_core s !!! v).
    assert (negb (k_removed s !!! v) = false) as -> by exact Hav.
    split; [done|]. split; apply list_lookup_lookup_total_lt; lia.
  - intros v Hv Hav. exists (alive s). rewrite Nat.sub_1_r. done.
Qed.

Lemma deg_le_degree A v : deg A v ≤ out_degree_raw g v + in_degree_raw g v.
Proof.
  rewrite csr_out_degree, csr_in_degree, <-length_app. apply length_filter.
Qed.

Lemma loop_spec fuel k s M :
  1 ≤ k → peel_inv k s → (∀ v, v < n → out_degree_raw g v + in_degree_raw g v ≤ M) →
  M + 2 - k ≤ fuel → 1 ≤ fuel →
  ∃ s', kcore_loop fuel g k s = Some s' ∧
    ∀ v, v < n → ∃ c, core_number v c ∧ k_core s' !!! v = (Z.of_nat c mod 2 ^ 32)%Z.
Proof.
  revert k s. induction fuel as [|fuel IH]; intros k s Hk Hi HM Hf H1; [lia|].
  cbn [kcore_loop].
  destruct (peel_spec (S n) k s Hk Hi) as (s' & -> & Hi' & Hd); [lia|]. simpl.
  destruct (pi_len _ _ Hi') as (_ & Hlr & _).
  destruct (forallb id (k_removed s')) eqn:Hall.
  - exists s'. split; [done|]. intros v Hv. apply (pi_core _ _ Hi' v Hv).
    rewrite forallb_forall in Hall. unfold alive. apply negb_false_iff. apply Hall, list_elem_of_In.
    apply list_elem_of_lookup_total_2. lia.
  - assert (k ≤ M) as HkM.
    { apply not_true_iff_false in Hall. destruct (decide (k ≤ M)) as [|Hgt]; [done|]. destruct Hall.
      rewrite forallb_forall. intros r Hr%list_elem_of_In. unfold id.
      apply list_elem_of_lookup in Hr as [v Hv]. destruct r; [done|]. exfalso.
      assert (v < n) as Hvn by (rewrite <-Hlr; by eapply lookup_lt_Some).
      apply list_lookup_total_correct in Hv.
      assert (alive s' v = true) as Ha by (unfold alive; by rewrite Hv).
      pose proof (Hd v Hvn Ha). pose proof (deg_le_degree (alive s') v). specialize (HM v Hvn). lia. }
    apply IH; [lia|by apply assign_inv|done|lia|lia].
Qed.

Lemma kcore_init :
  peel_inv 1 (mkK ((λ i, out_degree_raw g i + in_degree_raw g i) <$> nodes g) (replicate n false) (replicate n 0%Z)).
Proof.
  assert (∀ v, v < n → ((λ i, out_degree_raw g i + in_degree_raw g i) <$> nodes g) !!! v =
    out_degree_raw g v + in_degree_raw g v) as Hdeg.
  { intros v Hv. apply list_lookup_total_correct. rewrite list_lookup_fmap. unfold nodes.
    by rewrite lookup_seq_lt. }
  assert (∀ v, v < n → alive (mkK ((λ i, out_degree_raw g i + in_degree_raw g i) <$> nodes g)
    (replicate n false) (replicate n 0%Z)) v = true) as Hal.
  { intros v Hv. unfold alive. simpl. by rewrite lookup_total_replicate_2. }
  split.
  - simpl. rewrite length_fmap, !length_replicate. unfold nodes. by rewrite length_seq.
  - intros v Hv _. simpl. rewrite Hdeg by done. unfold deg.
    rewrite filter_all; [|intros w Hw; by apply Hal, (adjacent_range v)].
    unfold adjacent. by rewrite length_app, csr_out_degree, csr_in_degree.
  - intros A v _ Hv _. by apply Hal.
  - intros v Hv Hf. by rewrite Hal in Hf.
  - intros v _ _. exists (λ _, true). split; [|done]. intros w _ _. simpl. lia.
Qed.

Lemma kcore_spec :
  ∃ core : nat → nat,
    kcore (Other:=Other) g =
      Some ((λ i, named g i (VInteger (Z.of_nat (core i) mod 2 ^ 32)%Z)) <$> nodes g) ∧
    ∀ v, v < n → core_number v (core v).
Proof.
  unfold kcore. destruct (Nat.eqb_spec n 0) as [Hz|Hz].
  { exists id. unfold nodes. rewrite Hz. split; [done|]. lia. }
  destruct (loop_spec (kcore_fuel ((λ i, out_degree_raw g i + in_degree_raw g i) <$> nodes g)) 1 _
    (max_list ((λ i, out_degree_raw g i + in_degree_raw g i) <$> nodes g)) (le_n 1) kcore_init)
    as (s & Hs & Hcore); [|unfold kcore_fuel; lia..|].
  { intros v Hv. apply max_list_elem_of_le. apply list_elem_of_fmap. exists v. split; [done|].
    apply elem_of_seq. lia. }
  unfold kcore_result. rewrite Hs. simpl.
  assert (∃ core : nat → nat, ∀ v, v < n → core_number v (core v) ∧
    k_core s !!! v = (Z.of_nat (core v) mod 2 ^ 32)%Z) as (core & Hc).
  { assert (∀ m, m ≤ n → ∃ core : nat → nat, ∀ v, v < m → core_number v (core v) ∧
      k_core s !!! v = (Z.of_nat (core v) mod 2 ^ 32)%Z) as Hm; [|by apply (Hm n)].
    induction m as [|m IH]; intros Hm; [exists id; lia|]. destruct IH as [core Hc]; [lia|].
    destruct (Hcore m) as (c & Hcm & Hcv); [lia|].
    exists (λ v, if decide (v = m) then c else core v). intros v Hv. case_decide; [by subst|]. apply Hc. lia. }
  exists core. split; [|intros v Hv; by apply Hc]. f_equal. apply list_fmap_ext. intros i v Hv.
  apply lookup_seq in Hv as [-> Hv]. destruct (Hc (0 + i)) as [_ ->]; [lia|done].
Qed.

(** C13: [kcore] computes core numbers.  It terminates, with one row per node in
    order: the name and the node's core number (as a [u32]), the largest [k] for
    which the node lies in a set of nodes each of which has at least [k] edges to
    or from the set. *)
Theorem kcore_core_numbers :
  ∃ core : nat → nat,
    kcore (Other:=Other) g =
      Some ((λ i, named g i (VInteger (Z.of_nat (core i) mod 2 ^ 32)%Z)) <$> nodes g) ∧
    ∀ v, v < n → core_number v (core v).
Proof. exact kcore_spec. Qed.
End kcore.
