(* ===== verification/GraphRun.v ===== *)
(** * Graph algorithms: every run ends

    [run_algo] of [Graph.v] returns for every algorithm, graph and parameters; and
    runs on small graphs, among them the triangle that [triangles] does not
    count. *)

From Stdlib Require Import ZArith Lia Floats.SpecFloat Strings.Byte.
From stdpp Require Import prelude gmap list strings relations.
From S2P Require Import Prelude Bytes Ordered Text F64 StorageTrait IndexKey.
From S2P Require Import Graph GraphBfs GraphWcc GraphKcore.

Local Open Scope Z_scope.

(** ** The search of [betweenness] *)

Definition found (dist : list Z) : nat := length (filter (λ d, 0 ≤ d) dist).

Lemma found_le dist : (found dist ≤ length dist)%nat.
Proof. apply length_filter. Qed.

Lemma found_insert dist v d :
  (v < length dist)%nat → dist !!! v < 0 → 0 ≤ d → found (<[v := d]> dist) = S (found dist).
Proof.
  unfold found. revert v. induction dist as [|x dist IH]; intros [|v] Hv Hx Hd; simpl in *; try lia.
  - change ((x :: dist) !!! 0%nat) with x in Hx.
    rewrite !filter_cons, decide_True, decide_False by lia. done.
  - change ((x :: dist) !!! S v) with (dist !!! v) in Hx.
    rewrite !filter_cons. case_decide; simpl; rewrite IH by (done || lia); done.
Qed.

Section runs.
Context {G : Type} `{CsrLaws G} {Other : Type} `{HashOrder}.
Variable g : G.

(** Queued and current nodes have been found. *)
Definition brandes_inv (v : nat) (s : BState) : Prop :=
  length (b_dist s) = node_count g ∧ 0 ≤ b_dist s !!! v ∧ Forall (λ x, 0 ≤ b_dist s !!! x) (b_queue s).

Lemma brandes_edge_inv v s w :
  brandes_inv v s → (w < node_count g)%nat →
  brandes_inv v (brandes_edge v s w) ∧
  (found (b_dist (brandes_edge v s w)) + length (b_queue s) =
   found (b_dist s) + length (b_queue (brandes_edge v s w)))%nat.
Proof.
  destruct s as [sigma dist pred queue stack]. intros (Hl & Hv & Hq) Hw. simpl in *.
  assert (0 ≤ dist !!! v + 1) as Hd by lia. set (d := dist !!! v + 1) in *.
  destruct (Z.ltb_spec (dist !!! w) 0) as [Hneg|Hpos].
  - assert (∀ x, 0 ≤ dist !!! x → 0 ≤ <[w := d]> dist !!! x) as Hkeep.
    { intros x Hx. destruct (decide (x = w)) as [->|]; [lia|].
      by rewrite list_lookup_total_insert_ne by congruence. }
    assert (brandes_inv v (mkB sigma (<[w := d]> dist) pred (queue ++ [w]) stack) ∧
      (found (<[w := d]> dist) + length queue = found dist + length (queue ++ [w]))%nat) as Hres.
    { split; [split; simpl; [by rewrite length_insert|split; [by apply Hkeep|]]|].
      - apply Forall_app. split; [by eapply Forall_impl; [exact Hq|]|].
        apply Forall_singleton. simpl. rewrite list_lookup_total_insert_eq by lia. lia.
      - rewrite found_insert, length_app by lia. simpl. lia. }
    by destruct (_ =? _).
  - destruct (_ =? _); done.
Qed.

Lemma brandes_edges_inv v l s :
  brandes_inv v s → (∀ w, w ∈ l → (w < node_count g)%nat) →
  brandes_inv v (foldl (brandes_edge v) s l) ∧
  (found (b_dist (foldl (brandes_edge v) s l)) + length (b_queue s) =
   found (b_dist s) + length (b_queue (foldl (brandes_edge v) s l)))%nat.
Proof.
  revert s. induction l as [|w l IH]; intros s Hi Hl; [done|]. cbn [foldl].
  destruct (brandes_edge_inv v s w Hi) as [Hi1 Hc1]; [set_solver|].
  destruct (IH _ Hi1) as [Hi2 Hc2]; [set_solver|]. split; [done|]. lia.
Qed.

Lemma brandes_loop_total fuel u s :
  brandes_inv u s → (node_count g - found (b_dist s) + length (b_queue s) ≤ fuel)%nat →
  ∃ s', brandes_loop fuel g s = Some s'.
Proof.
  revert u s. induction fuel as [|fuel IH]; intros u [sigma dist pred [|v queue] stack] Hi Hf;
    simpl in Hf; try lia; [by eexists..|].
  simpl. destruct Hi as (Hl & _ & Hq). simpl in *. apply Forall_cons in Hq as [Hv Hq].
  destruct (brandes_edges_inv v (outs g v) (mkB sigma dist pred queue (stack ++ [v]))) as [Hi' Hc];
    [done|intros w Hw; by eapply csr_out_range|].
  apply (IH v _ Hi'). simpl in Hc. pose proof (found_le dist).
  pose proof (found_le (b_dist (foldl (brandes_edge v) (mkB sigma dist pred queue (stack ++ [v])) (outs g v)))).
  destruct Hi' as (Hl' & _). lia.
Qed.

Lemma betweenness_loop_total l bc :
  (∀ s, s ∈ l → (s < node_count g)%nat) → ∃ bc', betweenness_loop g l bc = Some bc'.
Proof.
  revert bc. induction l as [|s l IH]; intros bc Hl; [by eexists|].
  cbn [betweenness_loop]. assert (s < node_count g)%nat as Hs by set_solver.
  destruct (brandes_loop_total (node_count g) s
    (mkB (<[s := f64_one]> (replicate (node_count g) f64_zero))
       (<[s := 0]> (replicate (node_count g) (-1))) (replicate (node_count g) []) [s] [])) as [st Hst].
  - assert (<[s := 0]> (replicate (node_count g) (-1)) !!! s = 0) as H0'
      by (apply list_lookup_total_insert_eq; by rewrite length_replicate).
    split; simpl; [by rewrite length_insert, length_replicate|]. split; [lia|].
    apply Forall_singleton. lia.
  - simpl. rewrite found_insert; [lia|by rewrite length_replicate| |lia].
    by rewrite lookup_total_replicate_2.
  - rewrite Hst. cbn [mbind option_bind]. destruct (foldl _ _ _) as [bc' d]. apply IH. set_solver.
Qed.

(** The node each row names, in order. *)
Definition row_nodes (l : list nat) (rows : list (list (Value Other))) : Prop :=
  head <$> rows = (λ i, Some (VString (node_name_raw g i))) <$> l.

Lemma named_rows (f : nat → list (Value Other)) l : row_nodes l ((λ i, VString (node_name_raw g i) :: f i) <$> l).
Proof. unfold row_nodes. by rewrite <-list_fmap_compose. Qed.

Lemma bfs_rows (f : nat → list Z → Value Other) l :
  (∀ i, i ∈ l → (i < node_count g)%nat) →
  ∃ rows, mapM (λ i, let* dist := bfs g i in Some (named g i (f i dist))) l = Some rows ∧ row_nodes l rows.
Proof.
  induction l as [|i l IH]; intros Hl; [by exists []|].
  destruct (bfs_spec g i) as (dist & Hb & _); [set_solver|].
  destruct IH as (rows & Hr & Hrows); [set_solver|]. exists (named g i (f i dist) :: rows).
  simpl. rewrite Hb. simpl. rewrite Hr. simpl. split; [done|]. unfold row_nodes in *. by rewrite !fmap_cons, Hrows.
Qed.

(** What an algorithm returns: [diameter] one row of two numbers, every other algorithm a
    row for each node in order, [closeness] for the sampled ones. *)
Definition rows_ok (algorithm : GraphAlgorithm) (p : AlgoParams) (rows : list (list (Value Other))) : Prop :=
  match algorithm with
  | Diameter => ∃ mx mn, rows = [[VInteger mx; VInteger mn]]
  | Closeness => row_nodes (seq 0 (Nat.min (default (node_count g) (sample_size p)) (node_count g))) rows
  | _ => row_nodes (seq 0 (node_count g)) rows
  end.

Lemma run_rows_total algorithm p :
  ∃ rows, run_rows (Other:=Other) g algorithm p = Some rows ∧ rows_ok algorithm p rows.
Proof.
  assert (∀ i, i ∈ nodes g → (i < node_count g)%nat) as Hnr by (intros i Hi%elem_of_seq; lia).
  assert (∀ rows, (node_count g =? 0)%nat = true → rows = [] → row_nodes (seq 0 (node_count g)) rows) as Hempty.
  { intros rows Hz%Nat.eqb_eq ->. by rewrite Hz. }
  destruct algorithm; simpl.
  - eexists. split; [done|]. unfold pagerank. case_match eqn:Hz; [by apply Hempty|apply named_rows].
  - destruct (wcc_spec (Other:=Other) g) as (comp & -> & _). eexists. split; [done|]. apply named_rows.
  - eexists. split; [done|]. unfold label_propagation. case_match eqn:Hz; [by apply Hempty|apply named_rows].
  - eexists. split; [done|]. apply named_rows.
  - destruct (sssp_spec (Other:=Other) g p) as (dist & -> & _). eexists. split; [done|]. apply named_rows.
  - unfold betweenness. case_match eqn:Hz; [exists []; split; [done|]; by apply Hempty|].
    destruct (betweenness_loop_total (seq 0 (default (node_count g) (sample_size p) `min` node_count g)) 
      (replicate (node_count g) f64_zero)) as [bc ->]; [intros s Hs%elem_of_seq; lia|].
    eexists. split; [done|]. apply named_rows.
  - unfold closeness. case_match eqn:Hz.
    { apply Nat.eqb_eq in Hz. exists []. split; [done|]. by rewrite Hz, Nat.min_0_r. }
    destruct (bfs_rows (λ i dist, float (closeness_of dist))
      (seq 0 (default (node_count g) (sample_size p) `min` node_count g))) as (rows & Hr & Hl);
      [intros i Hi%elem_of_seq; lia|]. by exists rows.
  - unfold harmonic. case_match eqn:Hz; [exists []; split; [done|]; by apply Hempty|].
    destruct (bfs_rows (λ i dist, float (harmonic_of (node_count g) i dist)) (nodes g) Hnr)
      as (rows & Hr & Hl). by exists rows.
  - eexists. split; [done|]. unfold degree. case_match eqn:Hz; [by apply Hempty|apply named_rows].
  - eexists. split; [done|]. apply named_rows.
  - eexists. split; [done|]. apply named_rows.
  - destruct (decide (node_count g = 0%nat)) as [Hz|Hz].
    { unfold diameter. rewrite Hz. by eauto. }
    destruct (diameter_extremes (Other:=Other) g Hz) as (mx & mn & -> & _). by eauto.
  - destruct (kcore_spec (Other:=Other) g) as (core & -> & _). eexists. split; [done|]. apply named_rows.
Qed.
End runs.

Section dispatch.
Context {G : Type} `{CsrLaws G} {Other : Type} `{HashOrder}.

(** C31: every run of an algorithm ends.  A poisoned lock and an unknown collection are
    errors; otherwise the query returns the algorithm's columns and, whatever the graph,
    the parameters and the iteration order of the hash maps, one row of two numbers for
    [diameter], a row named for each of the first nodes up to the sample size for
    [closeness], and a row named for each node, in node order, for every other algorithm. *)
Theorem run_algo_total (csr_map : option (gmap bytes G)) schema algorithm p :
  ∃ r, run_algo (Other:=Other) csr_map schema algorithm p = Some r ∧
    match csr_map with
    | None => r = Err LockPoisoned
    | Some map =>
        match map !! ap_collection p with
        | None => r = Err Storage
        | Some g => ∃ q, r = Ok q ∧ qr_columns q = schema algorithm ∧
            rows_ok g algorithm p (qr_rows q)
        end
    end.
Proof.
  unfold run_algo. destruct csr_map as [map|]; [|by eexists].
  destruct (map !! ap_collection p) as [g|]; [|by eexists].
  destruct (run_rows_total (Other:=Other) g algorithm p) as (rows & -> & Hl).
  eexists. split; [done|]. by eexists.
Qed.
End dispatch.

(** ** Graphs as edge lists *)

Record ExGraph := mkExGraph { xg_nodes : nat; xg_edges : list (nat * nat) }.

Definition xg_size (g : ExGraph) : nat := Nat.min (xg_nodes g) 200.

(** Edges with both ends in range. *)
Definition xg_list (g : ExGraph) : list (nat * nat) :=
  filter (λ e : nat * nat, (e.1 < xg_size g ∧ e.2 < xg_size g)%nat) (xg_edges g).

Definition xg_out (g : ExGraph) (u : nat) : list nat := (filter (λ e, e.1 = u) (xg_list g)).*2.
Definition xg_in (g : ExGraph) (v : nat) : list nat := (filter (λ e, e.2 = v) (xg_list g)).*1.

#[local] Instance ex_csr : CsrIndex ExGraph := {|
  node_count := xg_size;
  edge_count g := length (xg_list g);
  node_name_raw _ u := [zb (Z.of_nat u)];
  node_id_raw g name :=
    match name with
    | [b] => if decide (Z.to_nat (bz b) < xg_size g)%nat then Some (Z.to_nat (bz b)) else None
    | _ => None
    end;
  iter_out_edges_raw g u := pair 0 <$> xg_out g u;
  iter_in_edges_raw g u := pair 0 <$> xg_in g u;
  out_degree_raw g u := length (xg_out g u);
  in_degree_raw g u := length (xg_in g u);
  has_weighted_edges _ := false
|}.

Lemma xg_outs g u : outs g u = xg_out g u.
Proof. unfold outs. simpl. rewrite <-list_fmap_compose. by apply list_fmap_id. Qed.

Lemma xg_ins g u : ins g u = xg_in g u.
Proof. unfold ins. simpl. rewrite <-list_fmap_compose. by apply list_fmap_id. Qed.

Lemma xg_list_range g a b : (a, b) ∈ xg_list g → (a < xg_size g)%nat ∧ (b < xg_size g)%nat.
Proof. unfold xg_list. rewrite list_elem_of_filter. naive_solver. Qed.

#[local] Instance ex_csr_laws : CsrLaws ExGraph.
Proof.
  split; intros g.
  - intros u v. rewrite xg_outs. intros ([a b] & -> & [_ He]%list_elem_of_filter)%list_elem_of_fmap.
    by apply xg_list_range in He as [_ ?].
  - intros u v. rewrite xg_ins. intros ([a b] & -> & [_ He]%list_elem_of_filter)%list_elem_of_fmap.
    by apply xg_list_range in He as [? _].
  - intros u v _ _. rewrite xg_outs, xg_ins. unfold times, xg_out, xg_in.
    induction (xg_list g) as [|[a b] l IH]; [done|]. rewrite !filter_cons. simpl.
    destruct (decide (a = u)), (decide (b = v)); rewrite ?fmap_cons, ?filter_cons; simpl;
      rewrite ?decide_True, ?decide_False by done; simpl; by rewrite ?IH.
  - intros u. by rewrite xg_outs.
  - intros u. by rewrite xg_ins.
  - intros name u. simpl. repeat case_match; naive_solver.
  - simpl. unfold xg_size. arith.
Qed.

#[local] Instance ex_hash_order : HashOrder.
Proof. refine {| hash_iter K A _ _ i j m := map_to_list m |}. done. Defined.

(** A path of three nodes, a pair, and a node on its own. *)
Definition ex_graph : ExGraph := mkExGraph 6 [(0, 1); (1, 2); (4, 3)]%nat.

Definition ex_params (source : option bytes) : AlgoParams :=
  mkAlgoParams (bs "g") source None None (f64_of_Z 0) (λ d, d) (f64_of_Z 0) None.

(** The second column of the rows. *)
Definition column (rows : option (list (list (Value unit)))) : option (list (Value unit)) :=
  rows ≫= mapM (λ row, row !! 1%nat).

Definition ex_zero_name : bytes := node_name_raw ex_graph 0.

(** Distances from node 0: 0, 1, 2 and three unreached nodes. *)
Lemma sssp_distances_witness :
  column (sssp ex_graph (ex_params (Some ex_zero_name))) =
    Some (float <$> [f64_of_Z 0; f64_of_Z 1; f64_of_Z 2; f64_inf; f64_inf; f64_inf]) ∧
  ∃ dist, sssp (Other:=unit) ex_graph (ex_params (Some ex_zero_name)) =
    Some ((λ v, named ex_graph v (float (dist v))) <$> nodes ex_graph).
Proof.
  split; [vm_compute; reflexivity|].
  destruct (sssp_distances (Other:=unit) ex_graph (ex_params (Some ex_zero_name))) as (dist & He & _).
  by exists dist.
Defined.

Lemma diameter_spec_witness :
  diameter (Other:=unit) ex_graph = Some [[VInteger 2; VInteger 1]] ∧ ∃ u, ecc ex_graph u 2.
Proof.
  assert (diameter (Other:=unit) ex_graph = Some [[VInteger 2; VInteger 1]]) as Hc
    by (vm_compute; reflexivity).
  split; [exact Hc|].
  assert (node_count ex_graph ≠ 0%nat) as Hn by (vm_compute; congruence).
  destruct (diameter_spec (Other:=unit) ex_graph Hn) as (mx & mn & He & (u & _ & Hu) & _).
  exists u. rewrite Hc in He. by injection He as <- <-.
Defined.

Lemma wcc_components_witness :
  column (wcc ex_graph) = Some (VInteger <$> [2; 2; 2; 3; 3; 5]) ∧
  ∃ comp : nat → nat, ∀ i j, (i < 6)%nat → (j < 6)%nat → comp i = comp j ↔ linked_by_edges ex_graph i j.
Proof.
  split; [vm_compute; reflexivity|].
  destruct (wcc_components (Other:=unit) ex_graph) as (comp & _ & _ & Hc). by exists comp.
Defined.

(** A square with one diagonal and a tail. *)
Definition ex_square : ExGraph := mkExGraph 5 [(0, 1); (1, 2); (2, 3); (3, 0); (0, 2); (3, 4)]%nat.

Lemma kcore_core_numbers_witness :
  column (kcore ex_square) = Some (VInteger <$> [2; 2; 2; 2; 1]) ∧
  ∃ core, ∀ v, (v < 5)%nat → core_number ex_square v (core v).
Proof.
  split; [vm_compute; reflexivity|].
  destruct (kcore_core_numbers (Other:=unit) ex_square) as (core & _ & Hc). by exists core.
Defined.

Lemma run_algo_total_witness :
  ∃ q, run_algo (Other:=unit) (Some {[bs "g" := ex_square]}) (λ _, []) Betweenness (ex_params None)
    = Some (Ok q) ∧ head <$> qr_rows q = Some <$> (VString <$> [[x00]; [x01]; [x02]; [x03]; [x04]]).
Proof.
  destruct (run_algo_total (Other:=unit) (Some {[bs "g" := ex_square]}) (λ _, []) Betweenness (ex_params None))
    as (r & Hr & Hq).
  assert (({[bs "g" := ex_square]} : gmap bytes ExGraph) !! bs "g" = Some ex_square) as Hg
    by (vm_compute; reflexivity).
  change (ap_collection (ex_params None)) with (bs "g") in Hq. rewrite Hg in Hq.
  destruct Hq as (q & -> & _ & Hl). exists q. split; [exact Hr|]. rewrite Hl. reflexivity.
Defined.

(** ** Triangles *)

(** The triangle of the repository's own tests: [a -> b -> c -> a]. *)
Definition ex_triangle : ExGraph := mkExGraph 3 [(0, 1); (1, 2); (2, 0)]%nat.

(** A directed triangle is counted as none.  The count of a node is the number of
    edges between its neighbours, halved; the halving supposes that each of those
    edges is stored in both directions.  On the cycle [a -> b -> c -> a] every node
    sees one such edge and reports 0 triangles; it reports 1 when every edge also
    has its reverse. *)
Theorem directed_triangle_uncounted :
  column (Some (triangles ex_triangle)) = Some [VInteger 0; VInteger 0; VInteger 0] ∧
  (∀ v, (v < 3)%nat → linked ex_triangle v = 1%nat) ∧
  column (Some (triangles (mkExGraph 3 (xg_edges ex_triangle ++ [(1, 0); (2, 1); (0, 2)]%nat)))) =
    Some [VInteger 1; VInteger 1; VInteger 1].
Proof.
  split; [vm_compute; reflexivity|]. split; [|vm_compute; reflexivity].
  intros [|[|[|v]]] Hv; [vm_compute; reflexivity..|lia].
Qed.
