(* ===== verification/QueryValue.v ===== *)
(** * Values and rows of the query operators

    What joins, aggregates and facets share: values, rows as column-keyed maps, the
    string discriminants that stand for values in hash maps, the order of values,
    and the conversion of rows to a result
    ([src/nodedb-lite/src/query/query_ops/joins/common.rs],
    [src/nodedb-lite/src/query/query_ops/aggregate.rs]). *)

From Stdlib Require Import ZArith Lia Strings.Byte Floats.SpecFloat.
From stdpp Require Import prelude gmap strings sorting.
From S2P Require Import Prelude Bytes Ordered Text F64 StorageTrait.

Local Open Scope Z_scope.

(** [nodedb_types::Value]; [Other] stands for the constructors that no operator
    tells apart. *)
Inductive QValue (Other : Type) :=
| QNull
| QBool (b : bool)
| QInteger (i : Z)
| QFloat (bits : Z)
| QString (s : bytes)
| QUuid (s : bytes)
| QUlid (s : bytes)
| QRegex (s : bytes)
| QBytes (b : bytes)
| QArray (l : list (QValue Other))
| QSet (l : list (QValue Other))
| QObject (l : list (bytes * QValue Other))
| QDateTime (micros : Z)
| QDecimal (text : bytes)
| QOther (o : Other).
Arguments QNull {Other}.
Arguments QBool {Other} b.
Arguments QInteger {Other} i.
Arguments QFloat {Other} bits.
Arguments QString {Other} s.
Arguments QUuid {Other} s.
Arguments QUlid {Other} s.
Arguments QRegex {Other} s.
Arguments QBytes {Other} b.
Arguments QArray {Other} l.
Arguments QSet {Other} l.
Arguments QObject {Other} l.
Arguments QDateTime {Other} micros.
Arguments QDecimal {Other} text.
Arguments QOther {Other} o.

(** [{f}] for an [f64] and the decision of [==] on values, which the model takes as
    given: distinct numbers have distinct texts, without a vertical bar. *)
Class ValueText (Other : Type) := {
  fmt_f64 : Z → bytes;
  fmt_f64_inj x y : u64_ok x → u64_ok y → f64_is_nan x = false → f64_is_nan y = false →
    fmt_f64 x = fmt_f64 y → x = y;
  fmt_f64_bar x : x7c ∉ fmt_f64 x;
  value_eqb : QValue Other → QValue Other → bool
}.

Notation QRow Other := (gmap bytes (QValue Other)).

(** Filters of the crate [nodedb_query]: decoding and evaluation may fail. *)
Class Filters (Other F : Type) := {
  filters_from_msgpack : bytes → option (list F);
  all_match_value : list F → QRow Other → res bool
}.

Section values.
Context {Other : Type} `{ValueText Other}.
Notation Value := (QValue Other).
Notation Row := (gmap bytes Value).

(** *** Discriminants *)

Definition fmt_bool (b : bool) : bytes := if b then bs "true" else bs "false".
Definition fmt_len {A} (l : list A) : bytes := fmt_int (Z.of_nat (length l)).

(** The part of one value in a join or group key. *)
Definition value_discriminant (v : Value) : bytes :=
  match v with
  | QNull => bs "null"
  | QBool b => bs "b:" ++ fmt_bool b
  | QInteger n => bs "i:" ++ fmt_int n
  | QFloat f => bs "f:" ++ fmt_f64 f
  | QString s => bs "s:" ++ s
  | QUuid s | QUlid s | QRegex s => bs "str:" ++ s
  | QBytes b => bs "by:" ++ fmt_len b
  | QArray a | QSet a => bs "a:" ++ fmt_len a
  | QObject m => bs "o:" ++ fmt_len m
  | _ => bs "other"
  end.

(** [.join("|")]. *)
Fixpoint join_bar (l : list bytes) : bytes :=
  match l with
  | [] => []
  | [s] => s
  | s :: l => s ++ x7c :: join_bar l
  end.

Definition join_key_str (key : list Value) : bytes := join_bar (value_discriminant <$> key).

Definition get_or_null (row : Row) (col : bytes) : Value := default QNull (row !! col).

Definition join_key (row : Row) (cols : list bytes) : list Value := get_or_null row <$> cols.

(** *** Order *)

(** [x.partial_cmp(y).unwrap_or(Equal)]. *)
Definition f64_cmp_or_eq (x y : spec_float) : comparison := default Eq (SFcompare x y).

Definition bool_cmp (x y : bool) : comparison :=
  match x, y with false, true => Lt | true, false => Gt | _, _ => Eq end.

Definition value_cmp (a b : Value) : comparison :=
  match a, b with
  | QInteger x, QInteger y => x ?= y
  | QFloat x, QFloat y => f64_cmp_or_eq (sf_of_bits x) (sf_of_bits y)
  | QInteger x, QFloat y => f64_cmp_or_eq (f64_of_Z x) (sf_of_bits y)
  | QFloat x, QInteger y => f64_cmp_or_eq (sf_of_bits x) (f64_of_Z y)
  | QString x, QString y => bytes_cmp x y
  | QBool x, QBool y => bool_cmp x y
  | QNull, QNull => Eq
  | QNull, _ => Lt
  | _, QNull => Gt
  | _, _ => Eq
  end.

(** *** Results *)

Record Table := mkTable { t_columns : list bytes; t_rows : list (list Value) }.

Definition table_empty : Table := mkTable [] [].

Definition rows_to_maps (r : Table) : list Row :=
  (λ row, foldl (λ (m : Row) p, <[p.1 := p.2]> m) ∅ (zip (t_columns r) row)) <$> t_rows r.

(** The columns are those of the first row, sorted. *)
Definition maps_to_result (rows : list Row) : Table :=
  match rows with
  | [] => table_empty
  | first :: _ =>
      let columns := stable_sort bytes_le (map_to_list first).*1 in
      mkTable columns ((λ row : Row, get_or_null row <$> columns) <$> rows)
  end.

(** *** Filters and projection *)

Context {F : Type} `{Filters Other F}.

Definition decode_filters (b : bytes) : res (list F) :=
  match b with
  | [] => Ok []
  | _ => ok_or (filters_from_msgpack b) Serialization
  end.

Definition apply_filters (rows : list Row) (filters : list F) : res (list Row) :=
  match filters with
  | [] => Ok rows
  | _ => rfold (λ kept row, let? m := all_match_value filters row in
                            Ok (if m : bool then kept ++ [row] else kept)) [] rows
  end.

Record JoinProjection := mkJoinProjection { jp_source : bytes; jp_output : bytes }.

Definition apply_projection (rows : list Row) (projection : list JoinProjection) : list Row :=
  match projection with
  | [] => rows
  | _ => (λ row : Row,
            foldl (λ (m : Row) p, <[jp_output p := get_or_null row (jp_source p)]> m) ∅ projection) <$> rows
  end.
End values.
Arguments Table : clear implicits.

(** ** Keys that their strings tell apart *)

Section keys.
Context {Other : Type} `{ValueText Other}.

(** Values whose discriminant determines them and holds no vertical bar. *)
Definition plain (v : QValue Other) : Prop :=
  match v with
  | QNull | QBool _ => True
  | QInteger i => i64_ok i
  | QFloat f => u64_ok f ∧ f64_is_nan f = false
  | QString s => x7c ∉ s
  | _ => False
  end.

Lemma discriminant_bar v : plain v → x7c ∉ value_discriminant v.
Proof.
  assert (∀ p s : bytes, bool_decide (x7c ∉ p) = true → x7c ∉ s → x7c ∉ p ++ s) as Happ.
  { intros p s Hp%bool_decide_eq_true. set_solver. }
  destruct v as [|b|i|f|s| | | | | | | | | | ]; cbn [plain value_discriminant]; try done; intros Hp.
  - by apply (bool_decide_eq_true (x7c ∉ bs "null")).
  - destruct b; apply Happ; try done; by apply (bool_decide_eq_true (x7c ∉ _)).
  - apply Happ; [done|]. intros Hin. pose proof (fmt_int_chars i) as Hc. rewrite Forall_forall in Hc.
    destruct (Hc _ Hin) as [Hr|Hr]; [|done]. change (bz x7c) with 124 in Hr. lia.
  - apply Happ; [done|apply fmt_f64_bar].
  - by apply Happ.
Qed.

Lemma discriminant_inj v w :
  plain v → plain w → value_discriminant v = value_discriminant w → v = w.
Proof.
  intros Hv Hw He.
  destruct v as [|b|i|f|s| | | | | | | | | | ], w as [|b'|i'|f'|s'| | | | | | | | | | ];
    cbn [plain] in Hv, Hw; try done; cbn [value_discriminant] in He; try discriminate He.
  - by destruct b, b'.
  - apply app_inv_head, fmt_int_inj in He; [by subst|arith..].
  - apply app_inv_head, fmt_f64_inj in He; [by subst|naive_solver..].
  - apply app_inv_head in He. by subst.
Qed.

Lemma bar_split (a b c d : bytes) :
  x7c ∉ a → x7c ∉ b → a ++ x7c :: c = b ++ x7c :: d → a = b ∧ c = d.
Proof.
  revert b. induction a as [|x a IH]; intros [|y b] Ha Hb He; simpl in He.
  - split; congruence.
  - exfalso. apply Hb, elem_of_cons. left. congruence.
  - exfalso. apply Ha, elem_of_cons. left. congruence.
  - destruct (IH b) as [-> ->]; [set_solver..|congruence|]. split; congruence.
Qed.

Lemma join_bar_inj (l1 l2 : list bytes) :
  length l1 = length l2 → Forall (λ s, x7c ∉ s) l1 → Forall (λ s, x7c ∉ s) l2 →
  join_bar l1 = join_bar l2 → l1 = l2.
Proof.
  revert l2. induction l1 as [|s1 l1 IH]; intros [|s2 l2] Hl H1 H2 He; try done.
  apply Forall_cons in H1 as [Hs1 H1]. apply Forall_cons in H2 as [Hs2 H2]. simpl in Hl.
  destruct l1 as [|t1 l1], l2 as [|t2 l2]; try done; [by cbn in He; subst|].
  change (s1 ++ x7c :: join_bar (t1 :: l1) = s2 ++ x7c :: join_bar (t2 :: l2)) in He.
  apply bar_split in He as [-> He]; [|done..]. f_equal. apply IH; [lia|done..].
Qed.

(** Equal key strings of plain keys over as many columns are equal keys. *)
Lemma key_str_inj (k1 k2 : list (QValue Other)) :
  length k1 = length k2 → Forall plain k1 → Forall plain k2 →
  join_key_str k1 = join_key_str k2 ↔ k1 = k2.
Proof.
  intros Hl H1 H2. split; [|by intros ->]. intros He.
  apply join_bar_inj in He; [|by rewrite !length_fmap|by apply Forall_fmap; eapply Forall_impl; [done|];
    intros; by apply discriminant_bar..].
  revert k2 Hl H2 He. induction k1 as [|v k1 IH]; intros [|w k2] Hl H2 He; try done.
  apply Forall_cons in H1 as [Hv H1]. apply Forall_cons in H2 as [Hw H2].
  rewrite !fmap_cons in He. simpl in Hl.
  assert (value_discriminant v = value_discriminant w ∧
    value_discriminant <$> k1 = value_discriminant <$> k2) as [Hd Hr] by (split; congruence).
  f_equal; [by apply discriminant_inj|]. apply IH; [done|lia|done..].
Qed.
End keys.
