(* ===== verification/Joins.v ===== *)
(** * Joins

    [src/nodedb-lite/src/query/query_ops/joins/]: the hash join with its four
    executors (hash, broadcast, inline, shuffle), the nested-loop join and the
    sort-merge join.  The scan of a collection is a parameter of the executors. *)

From Stdlib Require Import ZArith Lia Strings.Byte.
From stdpp Require Import prelude gmap strings sorting.
From S2P Require Import Prelude Bytes Ordered Text F64 StorageTrait QueryValue.

Local Open Scope Z_scope.

(** The code compares the join type with these names; any other name falls through
    every test, as ["inner"] does. *)
Inductive JoinType := Inner | LeftOuter | RightOuter | FullOuter | Semi | Anti.

#[global] Instance JoinType_eq_dec : EqDecision JoinType.
Proof. solve_decision. Defined.

Definition join_type_of (s : bytes) : JoinType :=
  if bool_decide (s = bs "left") then LeftOuter
  else if bool_decide (s = bs "right") then RightOuter
  else if bool_decide (s = bs "full") then FullOuter
  else if bool_decide (s = bs "semi") then Semi
  else if bool_decide (s = bs "anti") then Anti
  else Inner.

Section joins.
Context {Other : Type} `{ValueText Other}.
Notation Value := (QValue Other).
Notation Row := (gmap bytes Value).

(** [output.len() >= limit]. *)
Definition full (limit : Z) (output : list Row) : bool := limit <=? Z.of_nat (length output).

Definition alias_key (alias : option bytes) (k : bytes) : bytes :=
  match alias with
  | Some (x :: a) => (x :: a) ++ bs "." ++ k
  | _ => k
  end.

Definition merge_rows (left right : Row) (right_alias : option bytes) : Row :=
  foldl (λ (out : Row) p, <[alias_key right_alias p.1 := p.2]> out) left (map_to_list right).

(** ** Hash join *)

Definition row_key_str (cols : list bytes) (row : Row) : bytes := join_key_str (join_key row cols).

Definition build_step (keys : list bytes) (m : gmap bytes (list nat)) (p : nat * Row) : gmap bytes (list nat) :=
  let k := row_key_str keys p.2 in <[k := default [] (m !! k) ++ [p.1]]> m.

Definition build_map (keys : list bytes) (build_side : list Row) : gmap bytes (list nat) :=
  foldl (build_step keys) ∅ (zip (seq 0 (length build_side)) build_side).

(** Output, matched build rows, and whether the loop over the probe rows is left. *)
Record PState := mkP { p_out : list Row; p_matched : gset nat; p_stop : bool }.

(** The build rows of one probe row. *)
Fixpoint probe_matches (jt : JoinType) (alias : option bytes) (limit : Z) (build_side : list Row)
    (probe_row : Row) (indices : list nat) (s : PState) : PState :=
  match indices with
  | [] => s
  | bi :: rest =>
      let build_row := default ∅ (build_side !! bi) in
      let matched := {[bi]} ∪ p_matched s in
      match jt with
      | Semi => let out := p_out s ++ [probe_row] in mkP out matched (full limit out)
      | Anti => mkP (p_out s) matched false
      | _ =>
          let out := p_out s ++ [merge_rows probe_row build_row alias] in
          if full limit out then mkP out matched true
          else probe_matches jt alias limit build_side probe_row rest (mkP out matched false)
      end
  end.

Definition probe_one (jt : JoinType) (alias : option bytes) (limit : Z) (build_side : list Row)
    (bmap : gmap bytes (list nat)) (probe_keys : list bytes) (s : PState) (probe_row : Row) : PState :=
  match bmap !! row_key_str probe_keys probe_row with
  | Some indices => probe_matches jt alias limit build_side probe_row indices s
  | None =>
      match jt with
      | LeftOuter | FullOuter | Anti =>
          let out := p_out s ++ [probe_row] in mkP out (p_matched s) (full limit out)
      | _ => s
      end
  end.

Fixpoint probe_loop (jt : JoinType) (alias : option bytes) (limit : Z) (build_side : list Row)
    (bmap : gmap bytes (list nat)) (probe_keys : list bytes) (s : PState) (probe_side : list Row) : PState :=
  match probe_side with
  | [] => s
  | row :: rest =>
      let s := probe_one jt alias limit build_side bmap probe_keys s row in
      if p_stop s then s else probe_loop jt alias limit build_side bmap probe_keys s rest
  end.

(** The rows that were not matched, up to the limit: the check follows the push. *)
Fixpoint emit_unmatched (limit : Z) (matched : nat → bool) (output : list Row) (rows : list (nat * Row))
    : list Row :=
  match rows with
  | [] => output
  | (idx, row) :: rest =>
      if negb (matched idx) then
        let output := output ++ [row] in
        if full limit output then output else emit_unmatched limit matched output rest
      else emit_unmatched limit matched output rest
  end.

Definition enum_rows (l : list Row) : list (nat * Row) := zip (seq 0 (length l)) l.

Definition emits_right (jt : JoinType) : bool :=
  match jt with RightOuter | FullOuter => true | _ => false end.

Definition hash_join (build_side probe_side : list Row) (build_keys probe_keys : list bytes)
    (jt : JoinType) (right_alias : option bytes) (limit : Z) : list Row :=
  let bmap := build_map build_keys build_side in
  let s := probe_loop jt right_alias limit build_side bmap probe_keys (mkP [] ∅ false) probe_side in
  if emits_right jt
  then emit_unmatched limit (λ idx, bool_decide (idx ∈ p_matched s)) (p_out s) (enum_rows build_side)
  else p_out s.

(** ** Nested-loop join *)

Context {F : Type} `{Filters Other F}.

Record NState := mkN { n_out : list Row; n_matched : bool; n_stop : bool }.

(** The right rows of one left row. *)
Fixpoint nested_inner (filters : list F) (jt : JoinType) (limit : Z) (left_row : Row) (s : NState)
    (right_rows : list Row) : res NState :=
  match right_rows with
  | [] => Ok s
  | right_row :: rest =>
      let merged := merge_rows left_row right_row None in
      let? passes := all_match_value filters merged in
      if passes : bool then
        match jt with
        | Semi => let out := n_out s ++ [left_row] in Ok (mkN out true (full limit out))
        | Anti => nested_inner filters jt limit left_row (mkN (n_out s) true false) rest
        | _ =>
            let out := n_out s ++ [merged] in
            if full limit out then Ok (mkN out true true)
            else nested_inner filters jt limit left_row (mkN out true false) rest
        end
      else nested_inner filters jt limit left_row s rest
  end.

Fixpoint nested_outer (filters : list F) (jt : JoinType) (limit : Z) (right_rows : list Row)
    (out : list Row) (left_rows : list Row) : res (list Row) :=
  match left_rows with
  | [] => Ok out
  | left_row :: rest =>
      let? s := nested_inner filters jt limit left_row (mkN out false false) right_rows in
      if n_stop s then Ok (n_out s)
      else
        match n_matched s, jt with
        | false, (LeftOuter | FullOuter | Anti) =>
            let out := n_out s ++ [left_row] in
            if full limit out then Ok out else nested_outer filters jt limit right_rows out rest
        | _, _ => nested_outer filters jt limit right_rows (n_out s) rest
        end
  end.

(** Does any left row match a right row? *)
Fixpoint any_left (filters : list F) (right_row : Row) (left_rows : list Row) : res bool :=
  match left_rows with
  | [] => Ok false
  | left_row :: rest =>
      let? m := all_match_value filters (merge_rows left_row right_row None) in
      if m : bool then Ok true else any_left filters right_row rest
  end.

Fixpoint nested_right (filters : list F) (limit : Z) (left_rows : list Row) (out : list Row)
    (right_rows : list Row) : res (list Row) :=
  match right_rows with
  | [] => Ok out
  | right_row :: rest =>
      let? any_match := any_left filters right_row left_rows in
      if negb any_match then
        let out := out ++ [right_row] in
        if full limit out then Ok out else nested_right filters limit left_rows out rest
      else nested_right filters limit left_rows out rest
  end.

Definition nested_loop_join (left_rows right_rows : list Row) (filters : list F) (jt : JoinType)
    (limit : Z) : res (list Row) :=
  let? out := nested_outer filters jt limit right_rows [] left_rows in
  if emits_right jt then nested_right filters limit left_rows out right_rows else Ok out.

(** ** Sort-merge join *)

Fixpoint key_cmp (a b : list Value) : comparison :=
  match a, b with
  | av :: a, bv :: b => match value_cmp av bv with Eq => key_cmp a b | ord => ord end
  | _, _ => Eq
  end.

Definition compare_row_keys (keys : list bytes) (a b : Row) : comparison :=
  key_cmp (join_key a keys) (join_key b keys).

(** Past the right rows with smaller keys: the index of the first that is not. *)
Fixpoint advance (right_keys : list bytes) (lk : list Value) (right : list Row) (ri : nat) : nat :=
  match right with
  | [] => ri
  | r :: rest =>
      match key_cmp (join_key r right_keys) lk with
      | Lt => advance right_keys lk rest (S ri)
      | _ => ri
      end
  end.

Record MState := mkM { m_out : list Row; m_matched : list bool; m_any : bool; m_stop : bool }.

Definition last_has_key (left_keys : list bytes) (lk : list Value) (output : list Row) : bool :=
  match last output with
  | Some r => bool_decide (length (join_key r left_keys) = length lk) &&
              forallb (λ p : Value * Value, value_eqb p.1 p.2) (zip (join_key r left_keys) lk)
  | None => false
  end.

(** The run of right rows whose key equals the left row's. *)
Fixpoint match_run (jt : JoinType) (left_keys right_keys : list bytes) (limit : Z) (left_row : Row)
    (lk : list Value) (right : list Row) (ri : nat) (s : MState) : MState :=
  match right with
  | [] => s
  | r :: rest =>
      match key_cmp (join_key r right_keys) lk with
      | Eq =>
          let matched := <[ri := true]> (m_matched s) in
          match jt with
          | Semi =>
              let out := if last_has_key left_keys lk (m_out s) then m_out s
                         else m_out s ++ [left_row] in
              match_run jt left_keys right_keys limit left_row lk rest (S ri) (mkM out matched true false)
          | Anti =>
              match_run jt left_keys right_keys limit left_row lk rest (S ri)
                (mkM (m_out s) matched true false)
          | _ =>
              let out := m_out s ++ [merge_rows left_row r None] in
              if full limit out then mkM out matched true true
              else match_run jt left_keys right_keys limit left_row lk rest (S ri)
                     (mkM out matched true false)
          end
      | _ => s
      end
  end.

(** The loop over the left rows; [inl] is the early [return]. *)
Fixpoint merge_loop (jt : JoinType) (left_keys right_keys : list bytes) (limit : Z) (right : list Row)
    (ri : nat) (out : list Row) (matched : list bool) (left : list Row) : list Row + (list Row * list bool) :=
  match left with
  | [] => inr (out, matched)
  | left_row :: rest =>
      if full limit out then inr (out, matched)
      else
        let lk := join_key left_row left_keys in
        let ri := advance right_keys lk (drop ri right) ri in
        let s := match_run jt left_keys right_keys limit left_row lk (drop ri right) ri
                   (mkM out matched false false) in
        if m_stop s then inl (m_out s)
        else
          let out := match m_any s, jt with
                     | false, (LeftOuter | FullOuter | Anti) => m_out s ++ [left_row]
                     | _, _ => m_out s
                     end in
          merge_loop jt left_keys right_keys limit right ri out (m_matched s) rest
  end.

Definition merge_sorted (left right : list Row) (left_keys right_keys : list bytes) (jt : JoinType)
    (limit : Z) : list Row :=
  match merge_loop jt left_keys right_keys limit right 0 [] (replicate (length right) false) left with
  | inl out => out
  | inr (out, matched) =>
      if emits_right jt
      then emit_unmatched limit (λ idx, default false (matched !! idx)) out (enum_rows right)
      else out
  end.

(** A stable sort by a comparison ([sort_by]). *)
Definition cmp_le (cmp : Row → Row → comparison) (a b : Row) : Prop := cmp a b ≠ Gt.
#[export] Instance cmp_le_dec cmp : RelDecision (cmp_le cmp).
Proof. intros a b. unfold cmp_le. apply _. Defined.

Definition sort_rows (keys : list bytes) (rows : list Row) : list Row :=
  stable_sort (cmp_le (compare_row_keys keys)) rows.

(** ** Executors *)

Context (scan_collection : bytes → res (list Row)).
Context (rows_from_msgpack : bytes → option (list Row)).

Record CollectionSide := mkSide { cs_collection : bytes; cs_alias : option bytes }.

Record JoinSpec := mkJoinSpec {
  js_on : list (bytes * bytes);
  js_join_type : bytes;
  js_limit : Z;
  js_projection : list JoinProjection;
  js_post_filters : bytes
}.

Definition split_keys (on : list (bytes * bytes)) : list bytes * list bytes := (on.*1, on.*2).

Definition effective_limit (limit : Z) : Z := if limit =? 0 then usize_max else limit.

Definition finish_join (spec : JoinSpec) (joined : list Row) : res (Table Other) :=
  let? pf := decode_filters (F:=F) (js_post_filters spec) in
  let? joined := apply_filters joined pf in
  Ok (maps_to_result (apply_projection joined (js_projection spec))).

(** [k.contains('.')]. *)
Definition has_dot (k : bytes) : bool := bool_decide (x2e ∈ k).

Context `{HashOrder}.

Definition prefix_left (alias : bytes) (i : nat) (row : Row) : Row :=
  foldl (λ (m : Row) p, <[(if negb (has_dot p.1) then alias ++ bs "." ++ p.1 else p.1) := p.2]> m) ∅
    (hash_iter 0 i row).

Definition execute_hash_join (left right : CollectionSide) (spec : JoinSpec) : res (Table Other) :=
  let? left_rows := scan_collection (cs_collection left) in
  let? right_rows := scan_collection (cs_collection right) in
  let '(left_keys, right_keys) := split_keys (js_on spec) in
  let joined := hash_join right_rows left_rows right_keys left_keys (join_type_of (js_join_type spec))
                  (cs_alias right) (effective_limit (js_limit spec)) in
  let joined := match cs_alias left with
                | Some alias => imap (prefix_left alias) joined
                | None => joined
                end in
  finish_join spec joined.

Definition execute_broadcast_join (large small : CollectionSide) (broadcast_data : bytes)
    (spec : JoinSpec) : res (Table Other) :=
  let? large_rows := scan_collection (cs_collection large) in
  let? small_rows := match broadcast_data with
                     | [] => scan_collection (cs_collection small)
                     | _ => ok_or (rows_from_msgpack broadcast_data) Serialization
                     end in
  let '(large_keys, small_keys) := split_keys (js_on spec) in
  finish_join spec (hash_join small_rows large_rows small_keys large_keys
    (join_type_of (js_join_type spec)) (cs_alias small) (effective_limit (js_limit spec))).

Definition decode_msgpack_rows (b : bytes) : res (list Row) :=
  match b with [] => Ok [] | _ => ok_or (rows_from_msgpack b) Serialization end.

Definition execute_inline_hash_join (left_data right_data : bytes) (right_alias : option bytes)
    (spec : JoinSpec) : res (Table Other) :=
  let? left_rows := decode_msgpack_rows left_data in
  let? right_rows := decode_msgpack_rows right_data in
  let '(left_keys, right_keys) := split_keys (js_on spec) in
  finish_join spec (hash_join right_rows left_rows right_keys left_keys
    (join_type_of (js_join_type spec)) right_alias (effective_limit (js_limit spec))).

Definition execute_shuffle_join (left_collection right_collection : bytes) (on : list (bytes * bytes))
    (join_type : bytes) (limit : Z) (target_core : Z) : res (Table Other) :=
  let? left_rows := scan_collection left_collection in
  let? right_rows := scan_collection right_collection in
  let '(left_keys, right_keys) := split_keys on in
  Ok (maps_to_result (hash_join right_rows left_rows right_keys left_keys (join_type_of join_type)
        None (effective_limit limit))).

Definition execute_nested_loop_join (left_collection right_collection condition join_type : bytes)
    (limit : Z) : res (Table Other) :=
  let? left_rows := scan_collection left_collection in
  let? right_rows := scan_collection right_collection in
  let? filters := decode_filters (F:=F) condition in
  let? out := nested_loop_join left_rows right_rows filters (join_type_of join_type)
                (effective_limit limit) in
  Ok (maps_to_result out).

Definition execute_sort_merge_join (left_collection right_collection : bytes) (on : list (bytes * bytes))
    (join_type : bytes) (limit : Z) (pre_sorted : bool) : res (Table Other) :=
  let? left_rows := scan_collection left_collection in
  let? right_rows := scan_collection right_collection in
  let '(left_keys, right_keys) := split_keys on in
  let left_rows := if pre_sorted then left_rows else sort_rows left_keys left_rows in
  let right_rows := if pre_sorted then right_rows else sort_rows right_keys right_rows in
  Ok (maps_to_result (merge_sorted left_rows right_rows left_keys right_keys (join_type_of join_type)
        (effective_limit limit))).
End joins.
