(* ===== verification/JoinSpec.v ===== *)
(** * What a join returns, and the hash join returns it

    The reference join lists, for each row of the driving side, its matches in the
    other side; the theorems compare [hash_join] and [nested_loop_join] of [Joins.v]
    with it. *)

From Stdlib Require Import ZArith Lia Strings.Byte.
From stdpp Require Import prelude gmap strings sorting.
From S2P Require Import Prelude Bytes Ordered Text F64 StorageTrait QueryValue Joins.

Local Open Scope Z_scope.

(** ** Rows up to a limit *)

Lemma takeZ_app_full {A} n (a b : list A) : n ≤ Z.of_nat (length a) → takeZ n (a ++ b) = takeZ n a.
Proof. intros. rewrite !takeZ_take. apply take_app_le. lia. Qed.

Section reference.
Context {Other : Type} `{ValueText Other}.
Notation Row := (gmap bytes (QValue Other)).

(** ** The reference *)

Section ref.
Variable eqk : Row → Row → bool.
Variable merge : Row → Row → Row.

Definition matches (p : Row) (other : list Row) : list Row := filter (λ b, eqk p b = true) other.

(** The rows a driving row contributes. *)
Definition contribution (jt : JoinType) (p : Row) (other : list Row) : list Row :=
  match jt with
  | Inner | RightOuter => merge p <$> matches p other
  | LeftOuter | FullOuter =>
      match matches p other with [] => [p] | l => merge p <$> l end
  | Semi => match matches p other with [] => [] | _ => [p] end
  | Anti => match matches p other with [] => [p] | _ => [] end
  end.

Definition unmatched (driving other : list Row) : list Row :=
  filter (λ b, forallb (λ p, negb (eqk p b)) driving = true) other.

Definition ref_join (jt : JoinType) (driving other : list Row) : list Row :=
  concat ((λ p, contribution jt p other) <$> driving) ++
  (if emits_right jt then unmatched driving other else []).
End ref.

Lemma matches_cons (eqk : Row → Row → bool) (p b : Row) (other : list Row) :
  matches eqk p (b :: other) = if eqk p b then b :: matches eqk p other else matches eqk p other.
Proof. unfold matches. rewrite filter_cons. by destruct (eqk p b). Qed.

Lemma contribution_ext eqk eqk' merge jt p other :
  (∀ b, b ∈ other → eqk p b = eqk' p b) →
  contribution eqk merge jt p other = contribution eqk' merge jt p other.
Proof.
  intros He. unfold contribution, matches.
  rewrite (filter_ext (λ b, eqk p b = true) (λ b, eqk' p b = true)) by (intros b Hb; by rewrite He).
  done.
Qed.

Lemma ref_join_ext eqk eqk' merge jt driving other :
  (∀ p b, p ∈ driving → b ∈ other → eqk p b = eqk' p b) →
  ref_join eqk merge jt driving other = ref_join eqk' merge jt driving other.
Proof.
  intros He. unfold ref_join. f_equal.
  - f_equal. apply list_fmap_ext. intros i p Hp%list_elem_of_lookup_2. apply contribution_ext. auto.
  - destruct (emits_right jt); [|done]. unfold unmatched. apply filter_ext. intros b Hb.
    assert (∀ l, (∀ p, p ∈ l → p ∈ driving) →
      forallb (λ p, negb (eqk p b)) l = forallb (λ p, negb (eqk' p b)) l) as ->; [|done|done].
    induction l as [|p l IH]; intros Hl; [done|]. simpl. rewrite He, IH by set_solver. done.
Qed.

(** ** The unmatched rows *)

Lemma full_false_app (limit : Z) (a b : list Row) : full limit (a ++ b) = false → full limit a = false.
Proof. unfold full. rewrite length_app. rewrite !Z.leb_gt. lia. Qed.

Lemma emit_unmatched_spec (limit : Z) (matched : nat → bool) (out : list Row) rows :
  let add := (filter (λ p : nat * Row, matched p.1 = false) rows).*2 in
  full limit (out ++ add) = false → emit_unmatched limit matched out rows = out ++ add.
Proof.
  revert out. induction rows as [|[idx row] rows IH]; intros out; simpl; [by rewrite app_nil_r|].
  rewrite filter_cons. simpl. destruct (matched idx) eqn:Hm; simpl.
  - apply IH.
  - rewrite ?fmap_cons. simpl.
    assert (∀ l, out ++ row :: l = (out ++ [row]) ++ l) as -> by (intros l; by rewrite <-app_assoc).
    intros Hf. rewrite (full_false_app _ _ _ Hf). by apply IH.
Qed.

(** ** The build side *)

Definition pairs_with_key (keys : list bytes) (k : bytes) (l : list (nat * Row)) : list (nat * Row) :=
  filter (λ p : nat * Row, row_key_str keys p.2 = k) l.

Lemma build_lookup (keys : list bytes) (l : list (nat * Row)) (m : gmap bytes (list nat)) (k : bytes) :
  foldl (build_step keys) m l !! k =
  match m !! k, (pairs_with_key keys k l).*1 with
  | None, [] => None
  | o, idx => Some (default [] o ++ idx)
  end.
Proof.
  revert m. induction l as [|[i r] l IH]; intros m; simpl.
  { destruct (m !! k); simpl; by rewrite ?app_nil_r. }
  rewrite IH. unfold build_step, pairs_with_key. rewrite filter_cons. simpl.
  destruct (decide (row_key_str keys r = k)) as [<-|Hne].
  - rewrite lookup_insert, decide_True by done. rewrite fmap_cons. simpl.
    destruct (m !! row_key_str keys r); simpl; by rewrite <-?app_assoc.
  - by rewrite lookup_insert_ne by done.
Qed.

Lemma enum_rows_lookup (l : list Row) p : p ∈ enum_rows l → l !! p.1 = Some p.2.
Proof.
  destruct p as [i r]. unfold enum_rows. intros [j Hj]%list_elem_of_lookup.
  apply lookup_zip_with_Some in Hj as (a & b & [= <- <-] & Ha & Hb).
  apply lookup_seq in Ha as [-> _]. done.
Qed.

Lemma filter_zip_snd (Q : Row → Prop) `{∀ r, Decision (Q r)} (l1 : list nat) (l2 : list Row) :
  length l1 = length l2 → (filter (λ p : nat * Row, Q p.2) (zip l1 l2)).*2 = filter Q l2.
Proof.
  revert l2. induction l1 as [|x l1 IH]; intros [|r l2] Hl; simpl in Hl; try lia; [done|]. simpl.
  rewrite !filter_cons. simpl. destruct (decide (Q r)); simpl; rewrite IH by lia; done.
Qed.

Lemma enum_rows_length (l : list Row) : length (seq 0 (length l)) = length l.
Proof. apply length_seq. Qed.

(** The rows behind the indices of a key. *)
Lemma rows_with_key (keys : list bytes) (k : bytes) (build : list Row) :
  (λ bi, default ∅ (build !! bi)) <$> (pairs_with_key keys k (enum_rows build)).*1 =
  filter (λ b, row_key_str keys b = k) build.
Proof.
  rewrite <-(filter_zip_snd (λ b, row_key_str keys b = k) (seq 0 (length build)) build)
    by apply enum_rows_length.
  fold (enum_rows build). rewrite <-list_fmap_compose. apply list_fmap_ext.
  intros i p Hp%list_elem_of_lookup_2. unfold pairs_with_key in Hp.
  apply list_elem_of_filter in Hp as [_ Hp]. simpl. by rewrite (enum_rows_lookup _ _ Hp).
Qed.

(** ** The probe loop *)

Section probe.
Variables (build : list Row) (build_keys probe_keys : list bytes).
Variables (alias : option bytes) (limit : Z).

Definition same_key (p b : Row) : bool :=
  bool_decide (row_key_str build_keys b = row_key_str probe_keys p).
Definition merged (p b : Row) : Row := merge_rows p b alias.

(** Indices of the build rows that match a probe row. *)
Definition match_idx (p : Row) : list nat :=
  (pairs_with_key build_keys (row_key_str probe_keys p) (enum_rows build)).*1.

Lemma match_idx_rows p :
  (λ bi, default ∅ (build !! bi)) <$> match_idx p = matches same_key p build.
Proof.
  unfold match_idx. rewrite rows_with_key. apply filter_ext. intros b _. unfold same_key.
  by rewrite bool_decide_eq_true.
Qed.

Lemma bmap_lookup p :
  build_map build_keys build !! row_key_str probe_keys p =
  match match_idx p with [] => None | idx => Some idx end.
Proof.
  unfold build_map, match_idx. fold (enum_rows build). rewrite build_lookup, lookup_empty.
  by destruct ((pairs_with_key build_keys (row_key_str probe_keys p) (enum_rows build)).*1).
Qed.

(** [s'] is [s] with [rows] emitted, cut at the limit. *)
Definition emitted (s s' : PState) (rows : list Row) : Prop :=
  p_out s' = takeZ limit (p_out s ++ rows) ∧ p_stop s' = full limit (p_out s ++ rows).

Lemma takeZ_open (l : list Row) : full limit l = false → takeZ limit l = l.
Proof. unfold full. intros Hl%Z.leb_gt. apply takeZ_all. lia. Qed.

Lemma takeZ_push (out : list Row) r : full limit out = false → takeZ limit (out ++ [r]) = out ++ [r].
Proof. unfold full. intros Hl%Z.leb_gt. apply takeZ_all. rewrite length_app. simpl. lia. Qed.

(** A push that reaches the limit ends the loop, whatever else there was to emit. *)
Lemma full_push_rest (out : list Row) r rows :
  full limit out = false → full limit (out ++ [r]) = true →
  takeZ limit (out ++ r :: rows) = out ++ [r] ∧ full limit (out ++ r :: rows) = true.
Proof.
  intros Ho Hf. rewrite (cons_middle r out rows), app_assoc. unfold full in Hf. apply Z.leb_le in Hf. split.
  - rewrite takeZ_app_full by done. by apply takeZ_push.
  - unfold full. apply Z.leb_le. rewrite (length_app (out ++ [r])). lia.
Qed.

Definition pairs_rows (jt : JoinType) : bool :=
  match jt with Semi | Anti => false | _ => true end.

Lemma probe_matches_spec jt p idx s :
  pairs_rows jt = true → full limit (p_out s) = false → p_stop s = false →
  let s' := probe_matches jt alias limit build p idx s in
  emitted s s' ((λ bi, merged p (default ∅ (build !! bi))) <$> idx) ∧
  (p_stop s' = false → p_matched s' = list_to_set idx ∪ p_matched s).
Proof.
  intros Hjt. revert s. induction idx as [|bi idx IH]; intros s Hf Hst; cbv zeta.
  { simpl. split; [|set_solver]. split; rewrite app_nil_r; [by rewrite takeZ_open|congruence]. }
  set (r := merge_rows p (default ∅ (build !! bi)) alias).
  assert (probe_matches jt alias limit build p (bi :: idx) s =
    (if full limit (p_out s ++ [r]) then mkP (p_out s ++ [r]) ({[bi]} ∪ p_matched s) true
     else probe_matches jt alias limit build p idx (mkP (p_out s ++ [r]) ({[bi]} ∪ p_matched s) false))) as Hun
    by (by destruct jt).
  rewrite Hun, fmap_cons. clear Hun. change (merged p (default ∅ (build !! bi))) with r.
  destruct (full limit (p_out s ++ [r])) eqn:Hfull.
  - split; [|done]. destruct (full_push_rest (p_out s) r
      ((λ bi, merged p (default ∅ (build !! bi))) <$> idx) Hf Hfull) as [Ht Hl]. by split.
  - destruct (IH (mkP (p_out s ++ [r]) ({[bi]} ∪ p_matched s) false) Hfull eq_refl) as [[Ho Hs] Hm].
    split; [split|].
    + rewrite Ho. simpl. by rewrite <-app_assoc.
    + rewrite Hs. simpl. by rewrite <-app_assoc.
    + intros Hns. rewrite (Hm Hns). simpl. set_solver.
Qed.

Lemma push_emitted (s : PState) r matched :
  full limit (p_out s) = false →
  emitted s (mkP (p_out s ++ [r]) matched (full limit (p_out s ++ [r]))) [r].
Proof. intros Hf. split; simpl; [by rewrite takeZ_push|done]. Qed.

Lemma nothing_emitted (s s' : PState) :
  full limit (p_out s) = false → p_out s' = p_out s → p_stop s' = false → emitted s s' [].
Proof. intros Hf Ho Hs. split; rewrite app_nil_r; [by rewrite takeZ_open|congruence]. Qed.

Lemma probe_one_spec jt p s :
  full limit (p_out s) = false → p_stop s = false →
  let s' := probe_one jt alias limit build (build_map build_keys build) probe_keys s p in
  emitted s s' (contribution same_key merged jt p build) ∧
  (emits_right jt = true → p_stop s' = false → p_matched s' = list_to_set (match_idx p) ∪ p_matched s).
Proof.
  intros Hf Hst. unfold probe_one. rewrite bmap_lookup. pose proof (match_idx_rows p) as Hrows.
  destruct (match_idx p) as [|bi idx] eqn:Hidx; cbv zeta.
  - unfold contribution. rewrite <-Hrows. destruct jt; simpl; (split; [|try done; intros; set_solver]);
      first [by apply push_emitted|by apply nothing_emitted].
  - destruct (pairs_rows jt) eqn:Hjt.
    + destruct (probe_matches_spec jt p (bi :: idx) s Hjt Hf Hst) as [He Hm].
      assert (contribution same_key merged jt p build =
        (λ bi, merged p (default ∅ (build !! bi))) <$> bi :: idx) as ->.
      { unfold contribution. rewrite <-Hrows. destruct jt; try done; rewrite !fmap_cons; simpl; f_equal;
          by rewrite <-list_fmap_compose. }
      split; [exact He|]. intros _ Hs. by rewrite (Hm Hs).
    + unfold contribution. rewrite <-Hrows.
      destruct jt; try done; simpl; (split; [|done]); [by apply push_emitted|by apply nothing_emitted].
Qed.

Lemma probe_loop_spec jt probe s :
  full limit (p_out s) = false → p_stop s = false →
  let s' := probe_loop jt alias limit build (build_map build_keys build) probe_keys s probe in
  emitted s s' (concat ((λ p, contribution same_key merged jt p build) <$> probe)) ∧
  (emits_right jt = true → p_stop s' = false →
   p_matched s' = list_to_set (concat (match_idx <$> probe)) ∪ p_matched s).
Proof.
  revert s. induction probe as [|p probe IH]; intros s Hf Hst; cbn [probe_loop fmap list_fmap concat].
  { split; [by apply nothing_emitted|set_solver]. }
  destruct (probe_one_spec jt p s Hf Hst) as [[Ho Hs] Hm].
  set (s1 := probe_one jt alias limit build (build_map build_keys build) probe_keys s p) in *.
  set (c := contribution same_key merged jt p build) in *. rewrite Hs.
  destruct (full limit (p_out s ++ c)) eqn:Hfull.
  - split; [|by rewrite Hs]. unfold full in Hfull. apply Z.leb_le in Hfull. split; rewrite app_assoc.
    + rewrite takeZ_app_full by done. exact Ho.
    + rewrite Hs. symmetry. unfold full. apply Z.leb_le. rewrite (length_app (p_out s ++ c)). lia.
  - rewrite takeZ_open in Ho by done. destruct (IH s1) as [[Ho' Hs'] Hm']; [by rewrite Ho|done|].
    split; [split|].
    + by rewrite Ho', Ho, <-app_assoc.
    + by rewrite Hs', Ho, <-app_assoc.
    + intros He Hns. rewrite (Hm' He Hns), (Hm He Hs), list_to_set_app_L. set_solver.
Qed.

(** The rows whose index no probe row matched. *)
Lemma unmatched_rows probe :
  (filter (λ p : nat * Row, bool_decide (p.1 ∈ (list_to_set (concat (match_idx <$> probe)) : gset nat)) = false)
     (enum_rows build)).*2 = unmatched same_key probe build.
Proof.
  unfold unmatched. rewrite <-(filter_zip_snd _ (seq 0 (length build)) build) by apply enum_rows_length.
  fold (enum_rows build). f_equal. apply filter_ext. intros [i b] Hin. simpl.
  rewrite bool_decide_eq_false, elem_of_list_to_set, forallb_forall.
  assert (∀ p, i ∈ match_idx p ↔ same_key p b = true) as Hidx.
  { intros p. unfold match_idx, pairs_with_key, same_key. rewrite bool_decide_eq_true. split.
    - intros ([j b'] & -> & [Hk Hj]%list_elem_of_filter)%list_elem_of_fmap. simpl in *.
      apply enum_rows_lookup in Hj, Hin. simpl in *. congruence.
    - intros Hk. apply list_elem_of_fmap. exists (i, b). split; [done|]. by apply list_elem_of_filter. }
  split.
  - intros Hno p Hp%list_elem_of_In. apply negb_true_iff, not_true_iff_false. intros Hs. apply Hno.
    apply list_elem_of_In, in_concat. exists (match_idx p). split; [apply list_elem_of_In; by apply list_elem_of_fmap_2|].
    apply list_elem_of_In. by apply Hidx.
  - intros Hall Hin'. apply list_elem_of_In, in_concat in Hin' as (l & Hl & Hi).
    apply list_elem_of_In, list_elem_of_fmap in Hl as (p & -> & Hp). apply list_elem_of_In, Hidx in Hi.
    specialize (Hall p ltac:(by apply list_elem_of_In)). by rewrite Hi in Hall.
Qed.
End probe.

(** The hash join against the reference with equality of key strings. *)
Lemma hash_join_strings (build probe : list Row) (build_keys probe_keys : list bytes) (jt : JoinType)
    (alias : option bytes) (limit : Z) :
  1 ≤ limit →
  let r := ref_join (same_key build_keys probe_keys) (merged alias) jt probe build in
  (emits_right jt = false → hash_join build probe build_keys probe_keys jt alias limit = takeZ limit r) ∧
  (Z.of_nat (length r) < limit → hash_join build probe build_keys probe_keys jt alias limit = r).
Proof.
  intros Hlim r. unfold hash_join.
  destruct (probe_loop_spec build build_keys probe_keys alias limit jt probe (mkP [] ∅ false))
    as [[Ho Hs] Hm]; [unfold full; simpl; apply Z.leb_gt; lia|done|].
  set (s := probe_loop _ _ _ _ _ _ _ _) in *. simpl in Ho, Hs, Hm. unfold r, ref_join.
  set (c := concat _) in *. destruct (emits_right jt) eqn:He.
  - split; [done|]. intros Hlt. rewrite length_app in Hlt.
    assert (full limit c = false) as Hfc by (unfold full; apply Z.leb_gt; lia).
    rewrite takeZ_open in Ho by done. rewrite (Hm eq_refl) by congruence. rewrite union_empty_r_L.
    rewrite Ho, emit_unmatched_spec; rewrite unmatched_rows; [done|].
    unfold full. apply Z.leb_gt. rewrite length_app. lia.
  - rewrite app_nil_r. split; [done|]. intros Hlt. rewrite Ho. apply takeZ_all. lia.
Qed.

(** Equality of plain values and keys. *)
Definition plain_eqb (v w : QValue Other) : bool :=
  match v, w with
  | QNull, QNull => true
  | QBool a, QBool b => Bool.eqb a b
  | QInteger a, QInteger b => a =? b
  | QFloat a, QFloat b => a =? b
  | QString a, QString b => bool_decide (a = b)
  | _, _ => false
  end.

Fixpoint keys_eqb (k1 k2 : list (QValue Other)) : bool :=
  match k1, k2 with
  | [], [] => true
  | v :: k1, w :: k2 => plain_eqb v w && keys_eqb k1 k2
  | _, _ => false
  end.

Lemma plain_eqb_spec v w : plain v → plain_eqb v w = true ↔ v = w.
Proof.
  intros Hv. destruct v, w; simpl in *; try naive_solver; try done.
  - destruct b, b0; naive_solver.
  - rewrite Z.eqb_eq. naive_solver.
  - rewrite Z.eqb_eq. naive_solver.
  - rewrite bool_decide_eq_true. naive_solver.
Qed.

Lemma keys_eqb_spec k1 k2 : Forall plain k1 → keys_eqb k1 k2 = true ↔ k1 = k2.
Proof.
  intros Hk. revert k2. induction Hk as [|v k1 Hv Hk IH]; intros [|w k2]; simpl; try done.
  rewrite andb_true_iff, plain_eqb_spec, IH by done. naive_solver.
Qed.

(** Rows with equal keys, value by value. *)
Definition same_values (driving_keys other_keys : list bytes) (p b : Row) : bool :=
  keys_eqb (join_key p driving_keys) (join_key b other_keys).

Definition plain_keys (keys : list bytes) (rows : list Row) : Prop :=
  ∀ row, row ∈ rows → Forall plain (join_key row keys).

Lemma same_key_values (build_keys probe_keys : list bytes) (p b : Row) :
  length build_keys = length probe_keys →
  Forall plain (join_key p probe_keys) → Forall plain (join_key b build_keys) →
  same_key build_keys probe_keys p b = same_values probe_keys build_keys p b.
Proof.
  intros Hl Hp Hb. unfold same_key, same_values, row_key_str. apply eq_true_iff_eq.
  rewrite bool_decide_eq_true, keys_eqb_spec, key_str_inj; [naive_solver| |done..].
  unfold join_key. by rewrite !length_fmap.
Qed.

Lemma ref_join_values (build probe : list Row) (build_keys probe_keys : list bytes)
    (jt : JoinType) (merge : Row → Row → Row) :
  length build_keys = length probe_keys → plain_keys build_keys build → plain_keys probe_keys probe →
  ref_join (same_key build_keys probe_keys) merge jt probe build =
  ref_join (same_values probe_keys build_keys) merge jt probe build.
Proof.
  intros Hl Hb Hp. apply ref_join_ext.
  intros p b Hpin Hbin. apply same_key_values; [done|by apply Hp|by apply Hb].
Qed.

(** Joins that fit under the limit. *)
Lemma hash_join_values (build probe : list Row) (build_keys probe_keys : list bytes)
    (jt : JoinType) (alias : option bytes) (limit : Z) :
  length build_keys = length probe_keys → plain_keys build_keys build → plain_keys probe_keys probe →
  let r := ref_join (same_values probe_keys build_keys) (λ p b, merge_rows p b alias) jt probe build in
  Z.of_nat (length r) < limit → hash_join build probe build_keys probe_keys jt alias limit = r.
Proof.
  intros Hl Hb Hp. rewrite <-(ref_join_values build probe) by done. intros r Hlt.
  apply hash_join_strings; [lia|done].
Qed.

(** C12: the hash join returns the join.  When the key columns hold nulls, booleans,
    integers, floats and strings without a vertical bar, the result is, row for row
    and in order, that of the definition: for each probe row its matches on equal
    key values (a null matches a null), the unmatched probe rows of outer and anti
    joins, one row per match of a semi join, and last the unmatched build rows of
    right and full joins.  Inner, left, semi and anti joins return the first
    [limit] rows of it; right and full joins return it when it has fewer rows than
    the limit. *)
Theorem hash_join_reference (build probe : list Row) (build_keys probe_keys : list bytes)
    (jt : JoinType) (alias : option bytes) (limit : Z) :
  1 ≤ limit → length build_keys = length probe_keys →
  plain_keys build_keys build → plain_keys probe_keys probe →
  let r := ref_join (same_values probe_keys build_keys) (λ p b, merge_rows p b alias) jt probe build in
  (emits_right jt = false → hash_join build probe build_keys probe_keys jt alias limit = takeZ limit r) ∧
  (Z.of_nat (length r) < limit → hash_join build probe build_keys probe_keys jt alias limit = r).
Proof.
  intros Hlim Hl Hb Hp. rewrite <-(ref_join_values build probe) by done. by apply hash_join_strings.
Qed.
End reference.

(** ** The nested-loop join *)

Section nested.
Context {Other F : Type} `{ValueText Other} `{Filters Other F}.
Notation Row := (gmap bytes (QValue Other)).

Variable filters : list F.
Variable pred : Row → bool.
Hypothesis filters_total : ∀ row, all_match_value filters row = Ok (pred row).
Variable limit : Z.

Definition passes (l r : Row) : bool := pred (merge_rows l r None).
Definition plain_merge (l r : Row) : Row := merge_rows l r None.

(** The rows the inner loop itself emits. *)
Definition inner_rows (jt : JoinType) (l : Row) (right : list Row) : list Row :=
  match jt with
  | Semi => match matches passes l right with [] => [] | _ => [l] end
  | Anti => []
  | _ => plain_merge l <$> matches passes l right
  end.

Lemma nested_inner_spec (jt : JoinType) (l : Row) (right : list Row) (s : NState) :
  full limit (n_out s) = false → n_stop s = false →
  ∃ s', nested_inner filters jt limit l s right = Ok s' ∧
    n_out s' = takeZ limit (n_out s ++ inner_rows jt l right) ∧
    n_stop s' = full limit (n_out s ++ inner_rows jt l right) ∧
    (n_stop s' = false → n_matched s' = n_matched s || negb (bool_decide (matches passes l right = []))).
Proof using filters_total.
  revert s. induction right as [|r right IH]; intros s Hf Hs; simpl.
  { exists s. assert (inner_rows jt l [] = []) as -> by (by destruct jt). rewrite app_nil_r, takeZ_open by done.
    rewrite orb_false_r. split_and!; congruence. }
  rewrite filters_total. simpl. unfold inner_rows. rewrite matches_cons.
  change (pred (merge_rows l r None)) with (passes l r). destruct (passes l r) eqn:Hp; [|by apply IH].
  destruct jt; rewrite ?fmap_cons; try (
    destruct (full limit (n_out s ++ [merge_rows l r None])) eqn:Hfull;
    [ destruct (full_push_rest limit (n_out s) (merge_rows l r None) (plain_merge l <$> matches passes l right)
        Hf Hfull) as [Ht Hl]; eexists; split; [done|]; cbn [n_out n_stop n_matched];
      change (plain_merge l r) with (merge_rows l r None); rewrite Ht, Hl; split_and!; done
    | destruct (IH (mkN (n_out s ++ [merge_rows l r None]) true false) Hfull eq_refl) as (s' & He & Ho & Hst & Hm);
      exists s'; cbn [n_out n_stop n_matched inner_rows] in *; rewrite <-!app_assoc in *; split_and!; [done..|];
      intros Hns; rewrite (Hm Hns); by rewrite orb_true_r ]).
  - eexists. split; [done|]. cbn [n_out n_stop n_matched]. rewrite takeZ_push by done. by rewrite orb_true_r.
  - destruct (IH (mkN (n_out s) true false) Hf eq_refl) as (s' & He & Ho & Hst & Hm).
    exists s'. cbn [n_out n_stop n_matched inner_rows] in *. split_and!; [done..|]. intros Hns. rewrite (Hm Hns). by rewrite orb_true_r.
Qed.

Lemma nested_outer_spec (jt : JoinType) (right out left : list Row) :
  full limit out = false →
  nested_outer filters jt limit right out left =
    Ok (takeZ limit (out ++ concat ((λ l, contribution passes plain_merge jt l right) <$> left))).
Proof using filters_total.
  revert out. induction left as [|l left IH]; intros out Hf; cbn [nested_outer fmap list_fmap concat].
  { by rewrite app_nil_r, takeZ_open. }
  destruct (nested_inner_spec jt l right (mkN out false false) Hf eq_refl) as (s & -> & Ho & Hst & Hm).
  simpl in *. rewrite Hst in Hm |- *.
  destruct (full limit (out ++ inner_rows jt l right)) eqn:Hfull.
  - assert (contribution passes plain_merge jt l right = inner_rows jt l right) as ->.
    { unfold contribution, inner_rows in *.
      destruct jt, (matches passes l right); try done; rewrite ?fmap_nil, app_nil_r in Hfull; congruence. }
    rewrite Ho, app_assoc. unfold full in Hfull. apply Z.leb_le in Hfull. by rewrite (takeZ_app_full _ (out ++ inner_rows jt l right)).
  - rewrite takeZ_open in Ho by done. specialize (Hm eq_refl). rewrite Hm.
    destruct (matches passes l right) as [|m ms] eqn:Hma.
    + assert (inner_rows jt l right = []) as Hir by (unfold inner_rows; rewrite Hma; by destruct jt).
      rewrite Hir, app_nil_r in Ho. rewrite Ho. unfold contribution. rewrite Hma.
      destruct jt; simpl; try (by rewrite IH);
        (destruct (full limit (out ++ [l])) eqn:Hfl;
         [f_equal; symmetry; by eapply full_push_rest|rewrite IH by done; by rewrite <-app_assoc]).
    + assert (contribution passes plain_merge jt l right = inner_rows jt l right) as ->
        by (unfold contribution, inner_rows; rewrite Hma; by destruct jt).
      assert (n_out s = out ++ inner_rows jt l right) as Ho' by exact Ho.
      destruct jt; simpl; rewrite IH by (by rewrite Ho'); rewrite Ho', <-app_assoc; done.
Qed.
Lemma any_left_spec (r : Row) (left : list Row) :
  any_left filters r left = Ok (existsb (λ l, passes l r) left).
Proof using filters_total.
  induction left as [|l left IH]; simpl; [done|]. rewrite filters_total. simpl.
  change (pred (merge_rows l r None)) with (passes l r). by destruct (passes l r).
Qed.

Lemma nested_right_spec (left out right : list Row) :
  full limit (out ++ unmatched passes left right) = false →
  nested_right filters limit left out right = Ok (out ++ unmatched passes left right).
Proof using filters_total.
  revert out. induction right as [|r right IH]; intros out; simpl; [by rewrite app_nil_r|].
  rewrite any_left_spec. simpl. unfold unmatched. rewrite filter_cons. fold (unmatched passes left right).
  assert (forallb (λ p, negb (passes p r)) left = negb (existsb (λ l, passes l r) left)) as ->.
  { clear. induction left as [|l left IH]; simpl; [done|]. rewrite IH. by destruct (passes l r). }
  destruct (negb (existsb (λ l, passes l r) left)); simpl; [|by apply IH].
  rewrite (cons_middle r out), app_assoc. intros Hf. rewrite (full_false_app _ _ _ Hf). by apply IH.
Qed.

(** The nested-loop join returns the join on its condition: for each left row the
    merged rows that pass it (the left row once for semi joins, when there is none
    for anti and outer joins), then the right rows that pass with no left row.
    Inner, left, semi and anti joins return the first [limit] rows of it; right and
    full joins return it when it has fewer rows than the limit. *)
Theorem nested_loop_join_reference (left right : list Row) (jt : JoinType) :
  1 ≤ limit →
  let r := ref_join passes plain_merge jt left right in
  (emits_right jt = false → nested_loop_join left right filters jt limit = Ok (takeZ limit r)) ∧
  (Z.of_nat (length r) < limit → nested_loop_join left right filters jt limit = Ok r).
Proof using filters_total.
  intros Hlim r. unfold nested_loop_join. rewrite nested_outer_spec by (unfold full; simpl; apply Z.leb_gt; lia).
  unfold r, ref_join. simpl. destruct (emits_right jt).
  - split; [done|]. intros Hlt. rewrite length_app in Hlt. rewrite takeZ_open by (unfold full; apply Z.leb_gt; lia).
    apply nested_right_spec. unfold full. apply Z.leb_gt. rewrite length_app. lia.
  - rewrite app_nil_r. split; [done|]. intros Hlt. by rewrite takeZ_all by lia.
Qed.
End nested.
