(* ===== verification/MergeJoin.v ===== *)
(** * The sort-merge join returns the join

    [merge_sorted] of [Joins.v] against the reference of [JoinSpec.v], on sides
    sorted by keys that [value_cmp] orders, and its agreement with the hash join
    ([src/nodedb-lite/src/query/query_ops/joins/sort_merge.rs]). *)

From Stdlib Require Import ZArith Lia Strings.Byte.
From stdpp Require Import prelude gmap strings sorting.
From S2P Require Import Prelude Bytes Ordered Text F64 StorageTrait QueryValue Joins JoinSpec.

Local Open Scope Z_scope.

(** ** Keys that the comparison orders *)

(** [value_cmp] answers [Equal] on values of different types, so it orders a column
    whose values, nulls apart, have one of these types. *)
Inductive Kind := KBool | KInteger | KString.

Section keys.
Context {Other : Type} `{ValueText Other}.
Notation Value := (QValue Other).

Definition has_kind (k : Kind) (v : Value) : Prop :=
  match v, k with
  | QNull, _ | QBool _, KBool | QInteger _, KInteger | QString _, KString => True
  | _, _ => False
  end.

Definition typed (kinds : list Kind) (key : list Value) : Prop := Forall2 has_kind kinds key.

Lemma bool_cmp_spec (x y : bool) : (bool_cmp x y = Eq ↔ x = y) ∧ bool_cmp x y = CompOpp (bool_cmp y x).
Proof. destruct x, y; naive_solver. Qed.

Lemma value_cmp_eq k v w : has_kind k v → has_kind k w → value_cmp v w = Eq ↔ v = w.
Proof.
  destruct k, v, w; simpl; try done; intros _ _.
  - rewrite (proj1 (bool_cmp_spec b b0)). naive_solver.
  - rewrite Z.compare_eq_iff. naive_solver.
  - rewrite bytes_cmp_eq. naive_solver.
Qed.

Lemma value_cmp_opp k v w : has_kind k v → has_kind k w → value_cmp v w = CompOpp (value_cmp w v).
Proof.
  destruct k, v, w; simpl; try done; intros _ _.
  - apply bool_cmp_spec.
  - apply Z.compare_antisym.
  - apply (bytes_cmp_antisym _ _).
Qed.

Lemma value_cmp_trans k u v w :
  has_kind k u → has_kind k v → has_kind k w →
  value_cmp u v = Lt → value_cmp v w = Lt → value_cmp u w = Lt.
Proof.
  destruct k, u, v, w; simpl; try done; intros _ _ _.
  - by destruct b, b0, b1.
  - rewrite !Z.compare_lt_iff. lia.
  - apply (bytes_lt_trans _ _ _).
Qed.

Lemma key_cmp_eq kinds (a b : list Value) : typed kinds a → typed kinds b → key_cmp a b = Eq ↔ a = b.
Proof.
  intros Ha. revert b. induction Ha as [|k v kinds a Hv Ha IH]; intros b Hb;
    [apply Forall2_nil_inv_l in Hb; by subst|].
  apply Forall2_cons_inv_l in Hb as (w & b' & Hw & Hb & ->). simpl.
  pose proof (value_cmp_eq k v w Hv Hw) as He. destruct (value_cmp v w).
  - rewrite IH by done. naive_solver.
  - split; [done|]. intros [= -> ->]. naive_solver.
  - split; [done|]. intros [= -> ->]. naive_solver.
Qed.

Lemma key_cmp_opp kinds (a b : list Value) : typed kinds a → typed kinds b → key_cmp a b = CompOpp (key_cmp b a).
Proof.
  intros Ha. revert b. induction Ha as [|k v kinds a Hv Ha IH]; intros b Hb;
    [apply Forall2_nil_inv_l in Hb; by subst|].
  apply Forall2_cons_inv_l in Hb as (w & b' & Hw & Hb & ->). simpl.
  rewrite (value_cmp_opp k v w) by done. destruct (value_cmp w v); simpl; auto.
Qed.

Lemma key_cmp_trans kinds (a b c : list Value) :
  typed kinds a → typed kinds b → typed kinds c → key_cmp a b = Lt → key_cmp b c = Lt → key_cmp a c = Lt.
Proof.
  intros Ha. revert b c. induction Ha as [|k v kinds a Hv Ha IH]; intros b c Hb Hc;
    [apply Forall2_nil_inv_l in Hb; by subst|].
  apply Forall2_cons_inv_l in Hb as (w & b' & Hw & Hb & ->).
  apply Forall2_cons_inv_l in Hc as (x & c' & Hx & Hc & ->). simpl.
  pose proof (value_cmp_eq k v w Hv Hw) as He1. pose proof (value_cmp_eq k w x Hw Hx) as He2.
  pose proof (value_cmp_trans k v w x Hv Hw Hx) as Ht.
  destruct (value_cmp v w) eqn:E1, (value_cmp w x) eqn:E2; try done.
  - assert (v = w) as -> by (by apply He1). rewrite E2. by apply IH.
  - assert (v = w) as -> by (by apply He1). by rewrite E2.
  - assert (w = x) as <- by (by apply He2). by rewrite E1.
  - by rewrite Ht.
Qed.

Definition key_le (a b : list Value) : Prop := key_cmp a b ≠ Gt.

Lemma key_le_lt kinds (a b c : list Value) :
  typed kinds a → typed kinds b → typed kinds c → key_cmp a b = Lt → key_le b c → key_cmp a c = Lt.
Proof.
  intros Ha Hb Hc Hab Hbc. destruct (key_cmp b c) eqn:E; [|by apply (key_cmp_trans kinds a b c)|done].
  apply (key_cmp_eq kinds) in E; [by subst|done..].
Qed.

Lemma key_le_gt kinds (a b c : list Value) :
  typed kinds a → typed kinds b → typed kinds c → key_cmp a b = Gt → key_le a c → key_cmp c b = Gt.
Proof.
  intros Ha Hb Hc Hab Hac. destruct (key_cmp a c) eqn:E; [| |done].
  - apply (key_cmp_eq kinds) in E; [by subst|done..].
  - rewrite (key_cmp_opp kinds) in Hab |- * by done.
    destruct (key_cmp b a) eqn:E'; try done. by rewrite (key_cmp_trans kinds b a c).
Qed.
End keys.

(** ** The merge *)

Section merge.
Context {Other : Type} `{ValueText Other}.
Notation Row := (gmap bytes (QValue Other)).
Variables (left_keys right_keys : list bytes) (kinds : list Kind) (limit : Z) (jt : JoinType).

Notation kl := (λ l : Row, join_key l left_keys).
Notation kr := (λ r : Row, join_key r right_keys).

(** The two rows have keys the comparison finds equal. *)
Definition cmp_key (l r : Row) : bool :=
  match key_cmp (join_key r right_keys) (join_key l left_keys) with Eq => true | _ => false end.

Definition typed_rows (keys : list bytes) (rows : list Row) : Prop :=
  Forall (λ row, typed kinds (join_key row keys)) rows.

Definition sorted_rows (keys : list bytes) (rows : list Row) : Prop :=
  StronglySorted (λ a b, key_le (join_key a keys) (join_key b keys)) rows.

Definition with_cmp (c : comparison) (l : Row) : Row → Prop := λ r, key_cmp (kr r) (kl l) = c.

(** A sorted right side falls into the rows below, at and above a left row's key. *)
Lemma right_split (l : Row) (right : list Row) :
  typed kinds (kl l) → typed_rows right_keys right → sorted_rows right_keys right →
  ∃ below run above, right = below ++ run ++ above ∧
    Forall (with_cmp Lt l) below ∧ Forall (with_cmp Eq l) run ∧ Forall (with_cmp Gt l) above.
Proof.
  intros Hl. induction right as [|r right IH]; intros Ht Hs; [by exists [], [], []|].
  apply Forall_cons in Ht as [Hr Ht]. apply StronglySorted_inv in Hs as [Hs Hle].
  destruct (key_cmp (kr r) (kl l)) eqn:Hc.
  - destruct (IH Ht Hs) as (below & run & above & -> & Hb & Hrun & Ha).
    destruct below as [|b below].
    + exists [], (r :: run), above. split_and!; auto.
    + exfalso. apply Forall_cons in Hb as [Hb _]. apply Forall_cons in Hle as [Hle _].
      apply Forall_cons in Ht as [Htb _]. apply (key_cmp_eq kinds) in Hc; [|done..]. unfold with_cmp in Hb.
      rewrite <-Hc, (key_cmp_opp kinds) in Hb by done. unfold key_le in Hle.
      by destruct (key_cmp (join_key r right_keys) (join_key b right_keys)).
  - destruct (IH Ht Hs) as (below & run & above & -> & Hb & Hrun & Ha).
    exists (r :: below), run, above. split_and!; auto.
  - exists [], [], (r :: right). split_and!; auto. constructor; [done|].
    eapply Forall_impl; [apply Forall_and; split; [exact Hle|exact Ht]|].
    intros r' [Hrr Hr']. simpl in *. by eapply (key_le_gt kinds (kr r)).
Qed.
Lemma split_matches (l : Row) (below run above : list Row) :
  Forall (with_cmp Lt l) below → Forall (with_cmp Eq l) run → Forall (with_cmp Gt l) above →
  matches cmp_key l (below ++ run ++ above) = run.
Proof.
  assert (∀ rows c, Forall (with_cmp c l) rows →
    filter (λ r, cmp_key l r = true) rows = match c with Eq => rows | _ => [] end) as Hc.
  { intros rows c Hc. induction Hc as [|r rows Hr Hc IH]; [by destruct c|].
    assert (cmp_key l r = match c with Eq => true | _ => false end) as Hk
      by (unfold with_cmp in Hr; unfold cmp_key; by rewrite Hr).
    rewrite filter_cons, Hk, IH. by destruct c. }
  intros Hb Hr Ha. unfold matches. rewrite !filter_app.
  by rewrite (Hc below Lt), (Hc run Eq), (Hc above Gt), app_nil_r.
Qed.

Lemma advance_spec (l : Row) (below rest : list Row) (ri : nat) :
  Forall (with_cmp Lt l) below → Forall (λ r, ¬ with_cmp Lt l r) rest →
  advance right_keys (kl l) (below ++ rest) ri = (ri + length below)%nat.
Proof.
  intros Hb Hr. revert ri. induction Hb as [|r below Hlt Hb IH]; intros ri; simpl.
  - destruct Hr as [|r rest Hr]; simpl; [lia|]. unfold with_cmp in Hr.
    destruct (key_cmp (join_key r right_keys) (join_key l left_keys)); [lia|done|lia].
  - unfold with_cmp in Hlt. rewrite Hlt, IH. lia.
Qed.

(** What the run of equal keys emits. *)
Definition run_out (l : Row) (run : list Row) : list Row :=
  if pairs_rows jt then plain_merge l <$> run else [].

Lemma match_run_eq (l r : Row) (rest : list Row) (ri : nat) (s : MState) :
  jt ≠ Semi → with_cmp Eq l r → full limit (m_out s) = false →
  let out := m_out s ++ run_out l [r] in
  let matched := <[ri := true]> (m_matched s) in
  match_run jt left_keys right_keys limit l (kl l) (r :: rest) ri s =
    if full limit out then mkM out matched true true
    else match_run jt left_keys right_keys limit l (kl l) rest (S ri) (mkM out matched true false).
Proof.
  intros Hjt Hr Hf. unfold with_cmp in Hr. cbv zeta. cbn [match_run]. rewrite Hr. unfold run_out.
  destruct jt; try done. simpl. by rewrite app_nil_r, Hf.
Qed.

(** The flags after the run: those of its positions are set. *)
Definition flags_after (ri n : nat) (m m' : list bool) : Prop :=
  ∀ i, (i < length m)%nat → m' !! i = if decide (ri ≤ i < ri + n)%nat then Some true else m !! i.

Lemma flags_after_cons (ri n : nat) (m m' : list bool) :
  flags_after (S ri) n (<[ri := true]> m) m' → flags_after ri (S n) m m'.
Proof.
  intros Hfl i Hi. rewrite Hfl by (by rewrite length_insert).
  destruct (decide (i = ri)) as [->|Hne].
  - rewrite decide_False, decide_True by lia. by rewrite list_lookup_insert_eq.
  - rewrite list_lookup_insert_ne by done.
    destruct (decide (S ri ≤ i < S ri + n)%nat), (decide (ri ≤ i < ri + S n)%nat); done || lia.
Qed.

Lemma match_run_spec (l : Row) (run rest : list Row) (ri : nat) (s : MState) :
  jt ≠ Semi → Forall (with_cmp Eq l) run → Forall (with_cmp Gt l) rest →
  full limit (m_out s) = false → m_stop s = false →
  let s' := match_run jt left_keys right_keys limit l (kl l) (run ++ rest) ri s in
  let out := m_out s ++ run_out l run in
  m_out s' = takeZ limit out ∧ m_stop s' = full limit out ∧
  (m_stop s' = false → m_any s' = m_any s || negb (bool_decide (run = [])) ∧
     flags_after ri (length run) (m_matched s) (m_matched s')).
Proof.
  intros Hjt Hrun Hrest. revert ri s. induction Hrun as [|r run Hr Hrun IH]; intros ri s Hf Hs; cbv zeta.
  { assert (match_run jt left_keys right_keys limit l (kl l) rest ri s = s) as Hend.
    { destruct Hrest as [|r rest Hr]; [done|]. simpl. unfold with_cmp in Hr. by rewrite Hr. }
    assert (run_out l [] = []) as -> by (unfold run_out; by destruct (pairs_rows jt)).
    cbn [app]. rewrite Hend, app_nil_r, takeZ_open by done. split_and!; [done|congruence|].
    intros _. split; [by rewrite orb_false_r|]. intros i Hi. rewrite decide_False by (simpl; lia). done. }
  cbn [app]. rewrite match_run_eq by done. cbv zeta.
  assert (run_out l (r :: run) = run_out l [r] ++ run_out l run) as ->
    by (unfold run_out; by destruct (pairs_rows jt)).
  assert (length (run_out l [r]) ≤ 1)%nat as Hle by (unfold run_out; destruct (pairs_rows jt); simpl; lia).
  set (out1 := m_out s ++ run_out l [r]). rewrite app_assoc. fold out1.
  destruct (full limit out1) eqn:Hfull; cbn [m_out m_stop].
  - unfold full in Hf, Hfull. apply Z.leb_le in Hfull. apply Z.leb_gt in Hf.
    assert (Z.of_nat (length out1) ≤ limit) by (unfold out1; rewrite length_app; lia).
    rewrite takeZ_app_full, takeZ_all by done. split_and!; [done| |done].
    symmetry. unfold full. apply Z.leb_le. rewrite length_app. lia.
  - destruct (IH (S ri) (mkM out1 (<[ri:=true]> (m_matched s)) true false) Hfull eq_refl) as (H1 & H2 & H3).
    cbv zeta in *. cbn [m_out m_matched m_any] in *. split_and!; [done..|]. intros Hns.
    destruct (H3 Hns) as [H4 H5]. split; [by rewrite H4, orb_true_r|]. by apply flags_after_cons.
Qed.

(** The right rows some left row so far matched are the flagged ones. *)
Definition flags_ok (right : list Row) (m : list bool) (done : list Row) : Prop :=
  length m = length right ∧
  ∀ i r, right !! i = Some r → m !! i = Some (existsb (λ l, cmp_key l r) done).

Lemma flags_ok_step (l : Row) (below run above : list Row) (m m' : list bool) (seen : list Row) :
  Forall (with_cmp Lt l) below → Forall (with_cmp Eq l) run → Forall (with_cmp Gt l) above →
  length m' = length m → flags_ok (below ++ run ++ above) m seen →
  flags_after (length below) (length run) m m' → flags_ok (below ++ run ++ above) m' (seen ++ [l]).
Proof.
  intros Hb Hr Ha Hlen [Hl Hm] Hfl. split; [congruence|]. intros i r Hi.
  pose proof (lookup_lt_Some _ _ _ Hi) as Hlt. rewrite Hfl by lia.
  rewrite existsb_app. cbn [existsb]. rewrite orb_false_r, (Hm i r Hi). unfold cmp_key at 3.
  apply lookup_app_Some in Hi as [Hi|[Hge Hi]].
  - rewrite decide_False by (apply lookup_lt_Some in Hi; lia).
    rewrite Forall_lookup in Hb. apply Hb in Hi. unfold with_cmp in Hi. by rewrite Hi, orb_false_r.
  - apply lookup_app_Some in Hi as [Hi|[Hge' Hi]].
    + rewrite decide_True by (apply lookup_lt_Some in Hi; lia).
      rewrite Forall_lookup in Hr. apply Hr in Hi. unfold with_cmp in Hi. by rewrite Hi, orb_true_r.
    + rewrite decide_False by lia.
      rewrite Forall_lookup in Ha. apply Ha in Hi. unfold with_cmp in Hi. by rewrite Hi, orb_false_r.
Qed.
Lemma match_run_length (l : Row) (lk : list (QValue Other)) (rows : list Row) (ri : nat) (s : MState) :
  length (m_matched (match_run jt left_keys right_keys limit l lk rows ri s)) = length (m_matched s).
Proof.
  revert ri s. induction rows as [|r rows IH]; intros ri s; simpl; [done|].
  destruct (key_cmp _ lk); try done.
  destruct jt; try (destruct (full limit _)); rewrite ?IH; cbn [m_matched]; by rewrite length_insert.
Qed.

(** The rows before the cursor are below the keys of the left rows to come. *)
Definition cursor_ok (right : list Row) (ri : nat) (left : list Row) : Prop :=
  Forall (λ l, Forall (with_cmp Lt l) (take ri right)) left.

Lemma cursor_advance (l : Row) (below run above : list Row) (ri : nat) :
  Forall (with_cmp Lt l) below → Forall (with_cmp Eq l) run → Forall (with_cmp Gt l) above →
  Forall (with_cmp Lt l) (take ri (below ++ run ++ above)) → (ri ≤ length (below ++ run ++ above))%nat →
  advance right_keys (kl l) (drop ri (below ++ run ++ above)) ri = length below.
Proof.
  intros Hb Hr Ha Ht Hle. assert (Forall (λ r, ¬ with_cmp Lt l r) (run ++ above)) as Hno.
  { apply Forall_app. split; eapply Forall_impl; [exact Hr| |exact Ha|]; unfold with_cmp; intros r ->; done. }
  assert (ri ≤ length below)%nat as Hri.
  { destruct (decide (ri ≤ length below)%nat) as [|Hgt]; [done|]. exfalso.
    rewrite length_app in Hle. destruct (lookup_lt_is_Some_2 (run ++ above) 0) as [r Hr0]; [lia|].
    rewrite Forall_lookup in Hno. apply (Hno _ _ Hr0). rewrite Forall_lookup in Ht. apply (Ht (length below)).
    rewrite lookup_take_lt by lia. by rewrite lookup_app_r, Nat.sub_diag by lia. }
  rewrite drop_app_le by done. rewrite advance_spec; [rewrite length_drop; lia| |done].
  by apply Forall_drop.
Qed.

Lemma run_contribution (l : Row) (below run above : list Row) :
  jt ≠ Semi →
  Forall (with_cmp Lt l) below → Forall (with_cmp Eq l) run → Forall (with_cmp Gt l) above →
  contribution cmp_key plain_merge jt l (below ++ run ++ above) =
    run_out l run ++
    match negb (bool_decide (run = [])), jt with
    | false, (LeftOuter | FullOuter | Anti) => [l]
    | _, _ => []
    end.
Proof.
  intros Hjt Hb Hr Ha. unfold contribution, run_out. rewrite split_matches by done.
  destruct jt, run; try done; simpl; by rewrite ?app_nil_r.
Qed.
Lemma cursor_next (l : Row) (below rest left : list Row) :
  typed_rows right_keys below → typed kinds (kl l) → typed_rows left_keys left →
  Forall (λ l', key_le (kl l) (kl l')) left → Forall (with_cmp Lt l) below →
  cursor_ok (below ++ rest) (length below) left.
Proof.
  intros Htb Htl Hts Hle Hb. unfold cursor_ok. rewrite take_app_length.
  apply Forall_forall. intros l' Hl'. apply Forall_forall. intros r Hr. unfold typed_rows in *.
  rewrite !Forall_forall in *. unfold with_cmp. apply (key_le_lt kinds _ (kl l)); [by apply Htb|done| | |].
  - by apply Hts.
  - by apply Hb.
  - by apply Hle.
Qed.

Lemma takeZ_stop (a b : list Row) :
  full limit a = true → Z.of_nat (length a) ≤ limit → takeZ limit (a ++ b) = a ∧ full limit (a ++ b) = true.
Proof.
  unfold full. rewrite !Z.leb_le. intros Hf Hl. rewrite takeZ_app_full, takeZ_all by done.
  split; [done|]. rewrite length_app. lia.
Qed.

Lemma merge_loop_spec (right left : list Row) (ri : nat) (out : list Row) (m : list bool) (seen : list Row) :
  jt ≠ Semi → typed_rows right_keys right → sorted_rows right_keys right →
  typed_rows left_keys left → sorted_rows left_keys left →
  cursor_ok right ri left → (ri ≤ length right)%nat → Z.of_nat (length out) ≤ limit → flags_ok right m seen →
  let rows := out ++ concat ((λ l, contribution cmp_key plain_merge jt l right) <$> left) in
  match merge_loop jt left_keys right_keys limit right ri out m left with
  | inl o => o = takeZ limit rows ∧ full limit rows = true
  | inr (o, m') => o = takeZ limit rows ∧ (full limit rows = false → flags_ok right m' (seen ++ left))
  end.
Proof.
  intros Hjt Htr Hsr. revert ri out m seen. induction left as [|l left IH];
    intros ri out m seen Htl Hsl Hcur Hri Hlen Hm; cbv zeta; cbn [merge_loop fmap list_fmap concat].
  { rewrite !app_nil_r, takeZ_all by done. done. }
  destruct (full limit out) eqn:Hfull.
  { destruct (takeZ_stop out (contribution cmp_key plain_merge jt l right ++
      concat ((λ l, contribution cmp_key plain_merge jt l right) <$> left)) Hfull Hlen) as [Ht Hf].
    rewrite Ht, Hf. done. }
  apply Forall_cons in Htl as [Hl Htl]. apply StronglySorted_inv in Hsl as [Hsl Hle].
  apply Forall_cons in Hcur as [Hcl _].
  destruct (right_split l right Hl Htr Hsr) as (below & run & above & -> & Hb & Hr & Ha).
  rewrite cursor_advance by done. rewrite drop_app_length, run_contribution by done.
  pose proof (match_run_spec l run above (length below) (mkM out m false false) Hjt Hr Ha Hfull eq_refl) as Hrun.
  pose proof (match_run_length l (kl l) (run ++ above) (length below) (mkM out m false false)) as Hml.
  set (s := match_run _ _ _ _ _ _ _ _ _) in *. cbn [m_out m_any m_matched] in *.
  destruct Hrun as (Ho & Hst & Hns). rewrite Hst.
  destruct (full limit (out ++ run_out l run)) eqn:Hfr.
  { rewrite <-app_assoc, app_assoc. rewrite (takeZ_app_full limit (out ++ run_out l run)) by (unfold full in Hfr; by apply Z.leb_le in Hfr).
    split; [done|]. unfold full in *. rewrite Z.leb_le in *. rewrite (length_app (out ++ run_out l run)). lia. }
  rewrite takeZ_open in Ho by done. destruct (Hns ltac:(congruence)) as [Hany Hfl]. simpl in Hany.
  rewrite Hany, Ho.
  set (miss := match negb (bool_decide (run = [])), jt with
               | false, (LeftOuter | FullOuter | Anti) => [l] | _, _ => [] end).
  assert (match negb (bool_decide (run = [])), jt with
    | false, (LeftOuter | FullOuter | Anti) => (out ++ run_out l run) ++ [l]
    | _, _ => out ++ run_out l run end = (out ++ run_out l run) ++ miss) as ->
    by (unfold miss; destruct (negb _), jt; by rewrite ?app_nil_r).
  assert (length miss ≤ 1)%nat by (unfold miss; destruct (negb _), jt; simpl; lia).
  assert (typed_rows right_keys below) as Htb by (by apply Forall_app in Htr as [? _]).
  specialize (IH (length below) ((out ++ run_out l run) ++ miss) (m_matched s) (seen ++ [l])).
  assert (∀ c, out ++ (run_out l run ++ miss) ++ c = ((out ++ run_out l run) ++ miss) ++ c) as ->
    by (intros c; by rewrite <-!app_assoc).
  rewrite (cons_middle l seen left), (app_assoc seen). apply IH; [done|done| | | |].
  - by apply (cursor_next l).
  - rewrite length_app. lia.
  - rewrite !length_app in *. unfold full in Hfr. rewrite length_app in Hfr.
    apply Z.leb_gt in Hfr. lia.
  - by apply (flags_ok_step l below run above m).
Qed.
Lemma flagged_unmatched (left right : list Row) (m : list bool) :
  flags_ok right m left →
  (filter (λ p : nat * Row, default false (m !! p.1) = false) (enum_rows right)).*2 = unmatched cmp_key left right.
Proof.
  intros [_ Hm]. unfold unmatched. rewrite <-(filter_zip_snd _ (seq 0 (length right)) right) by apply enum_rows_length.
  fold (enum_rows right). f_equal. apply filter_ext. intros [i r] Hin. apply enum_rows_lookup in Hin. simpl in *.
  rewrite (Hm i r Hin). simpl. clear. induction left as [|l left IH]; simpl; [done|].
  destruct (cmp_key l r); naive_solver.
Qed.

Lemma merge_sorted_spec (left right : list Row) :
  jt ≠ Semi → 1 ≤ limit →
  typed_rows left_keys left → sorted_rows left_keys left →
  typed_rows right_keys right → sorted_rows right_keys right →
  let r := ref_join cmp_key plain_merge jt left right in
  (emits_right jt = false → merge_sorted left right left_keys right_keys jt limit = takeZ limit r) ∧
  (Z.of_nat (length r) < limit → merge_sorted left right left_keys right_keys jt limit = r).
Proof.
  intros Hjt Hlim Htl Hsl Htr Hsr r. unfold merge_sorted.
  pose proof (merge_loop_spec right left 0 [] (replicate (length right) false) [] Hjt Htr Hsr Htl Hsl) as Hloop.
  specialize (Hloop ltac:(apply Forall_forall; intros; constructor) ltac:(lia) ltac:(simpl; lia)).
  specialize (Hloop ltac:(split; [by rewrite length_replicate|];
    intros i x Hi; apply lookup_replicate_2; by eapply lookup_lt_Some)).
  simpl in Hloop. unfold r, ref_join. set (c := concat _) in *.
  destruct (merge_loop _ _ _ _ _ _ _ _ _) as [o|[o m]]; destruct Hloop as [-> Hl].
  - unfold full in Hl. apply Z.leb_le in Hl. split; [intros ->; by rewrite app_nil_r|].
    intros Hlt. rewrite length_app in Hlt. lia.
  - destruct (emits_right jt).
    + split; [done|]. intros Hlt. rewrite length_app in Hlt.
      assert (full limit c = false) as Hc by (unfold full; apply Z.leb_gt; lia).
      rewrite takeZ_open, emit_unmatched_spec; rewrite ?(flagged_unmatched left right) by auto; try done.
      unfold full. apply Z.leb_gt. rewrite length_app. lia.
    + rewrite app_nil_r. split; [done|]. intros Hlt. by rewrite takeZ_all by lia.
Qed.
End merge.

(** ** Sorting the sides *)

Section sorting.
Context {Other : Type} `{ValueText Other}.
Notation Row := (gmap bytes (QValue Other)).

Lemma f64_cmp_opp x y : f64_cmp_or_eq x y = CompOpp (f64_cmp_or_eq y x).
Proof.
  unfold f64_cmp_or_eq. destruct x as [[]|[]| |[] m e], y as [[]|[]| |[] m' e']; simpl; try done.
  - rewrite (Z.compare_antisym e e'). destruct (e ?= e'); simpl; [|done..].
    change (Pos.compare_cont Eq m m') with (Pos.compare m m').
    change (Pos.compare_cont Eq m' m) with (Pos.compare m' m).
    rewrite (Pos.compare_antisym m m'). by destruct (Pos.compare m m').
  - rewrite (Z.compare_antisym e e'). destruct (e ?= e'); simpl; [|done..].
    change (Pos.compare_cont Eq m m') with (Pos.compare m m').
    change (Pos.compare_cont Eq m' m) with (Pos.compare m' m).
    rewrite (Pos.compare_antisym m m'). by destruct (Pos.compare m m').
Qed.

Lemma value_cmp_opp_all (v w : QValue Other) : value_cmp v w = CompOpp (value_cmp w v).
Proof.
  destruct v, w; simpl; try done; try apply f64_cmp_opp.
  - by destruct b, b0.
  - apply Z.compare_antisym.
  - apply (bytes_cmp_antisym _ _).
Qed.

Lemma key_cmp_opp_all (a b : list (QValue Other)) : key_cmp a b = CompOpp (key_cmp b a).
Proof.
  revert b. induction a as [|v a IH]; intros [|w b]; simpl; try done.
  rewrite value_cmp_opp_all. destruct (value_cmp w v); simpl; auto.
Qed.

#[export] Instance row_le_total keys : Total (cmp_le (compare_row_keys (Other:=Other) keys)).
Proof.
  intros a b. unfold cmp_le, compare_row_keys. rewrite (key_cmp_opp_all (join_key a keys)).
  destruct (key_cmp (join_key b keys) (join_key a keys)); naive_solver.
Qed.

Lemma sort_rows_sorted (kinds : list Kind) (keys : list bytes) (rows : list Row) :
  typed_rows kinds keys rows →
  sort_rows keys rows ≡ₚ rows ∧ typed_rows kinds keys (sort_rows keys rows) ∧ sorted_rows keys (sort_rows keys rows).
Proof.
  intros Ht. unfold sort_rows. set (R := cmp_le (compare_row_keys keys)).
  assert (stable_sort R rows ≡ₚ rows) as Hp by apply stable_sort_perm.
  assert (typed_rows kinds keys (stable_sort R rows)) as Ht' by (unfold typed_rows; by rewrite Hp).
  split_and!; [done..|]. unfold sorted_rows.
  apply (stable_sort_sorted_on R (λ row, typed kinds (join_key row keys))); [|done].
  intros a b c Ha Hb Hc Hab Hbc. unfold R, cmp_le, compare_row_keys in *.
  destruct (key_cmp (join_key a keys) (join_key b keys)) eqn:E; [| |by destruct Hab].
  - apply (key_cmp_eq kinds) in E; [|done..]. by rewrite E.
  - by rewrite (key_le_lt kinds _ _ _ Ha Hb Hc E Hbc).
Qed.

(** ** The reference does not depend on the order of the sides *)

Section perm.
Variable eqk : Row → Row → bool.
Variable merge : Row → Row → Row.

Lemma contribution_perm (jt : JoinType) (p : Row) (other other' : list Row) :
  other ≡ₚ other' → contribution eqk merge jt p other ≡ₚ contribution eqk merge jt p other'.
Proof.
  intros Hp. assert (matches eqk p other ≡ₚ matches eqk p other') as Hm by (unfold matches; by rewrite Hp).
  unfold contribution. destruct (matches eqk p other) as [|a l], (matches eqk p other') as [|a' l'];
    try (by apply Permutation_nil_cons in Hm); try (by symmetry in Hm; apply Permutation_nil_cons in Hm);
    destruct jt; try done; by apply (fmap_Permutation (merge p)).
Qed.

Lemma ref_join_perm (jt : JoinType) (driving driving' other other' : list Row) :
  driving ≡ₚ driving' → other ≡ₚ other' →
  ref_join eqk merge jt driving other ≡ₚ ref_join eqk merge jt driving' other'.
Proof.
  intros Hd Ho. unfold ref_join. apply Permutation_app.
  - transitivity (concat ((λ p, contribution eqk merge jt p other') <$> driving)).
    + clear Hd. induction driving as [|p driving IH]; simpl; [done|].
      apply Permutation_app; [by apply contribution_perm|exact IH].
    + clear Ho. induction Hd; simpl; [done| | |by etrans].
      * by apply Permutation_app_head.
      * rewrite !app_assoc. apply Permutation_app_tail, Permutation_app_comm.
  - destruct (emits_right jt); [|done]. unfold unmatched. rewrite Ho. erewrite filter_ext; [done|].
    intros b _. simpl. rewrite !forallb_forall.
    split; intros Hall x Hx; apply Hall; revert Hx; rewrite <-!list_elem_of_In; by rewrite Hd.
Qed.
End perm.

(** On keys of known types the comparison finds equal exactly the equal keys. *)
Lemma cmp_key_values (kinds : list Kind) (left_keys right_keys : list bytes) (l r : Row) :
  typed kinds (join_key l left_keys) → typed kinds (join_key r right_keys) →
  cmp_key left_keys right_keys l r = true ↔ join_key l left_keys = join_key r right_keys.
Proof.
  intros Hl Hr. unfold cmp_key. pose proof (key_cmp_eq kinds _ _ Hr Hl) as He.
  destruct (key_cmp (join_key r right_keys) (join_key l left_keys)); naive_solver.
Qed.

(** C16: the sort-merge join and the hash join return the same rows.  On key columns
    whose values are nulls, booleans, integers and strings without a vertical bar,
    one type per column, sorting both sides and merging them gives, up to order,
    what the hash join of the unsorted sides gives, for inner, outer and anti joins
    of fewer rows than the limit. *)
Theorem sort_merge_agrees_with_hash (kinds : list Kind) (left right : list Row)
    (left_keys right_keys : list bytes) (jt : JoinType) (limit : Z) :
  jt ≠ Semi → length left_keys = length right_keys →
  typed_rows kinds left_keys left → typed_rows kinds right_keys right →
  plain_keys left_keys left → plain_keys right_keys right →
  Z.of_nat (length (ref_join (same_values left_keys right_keys) plain_merge jt left right)) < limit →
  merge_sorted (sort_rows left_keys left) (sort_rows right_keys right) left_keys right_keys jt limit
    ≡ₚ hash_join right left right_keys left_keys jt None limit.
Proof.
  intros Hjt Hlen Htl Htr Hpl Hpr Hlim.
  assert (1 ≤ limit) as H1 by lia.
  assert (∀ l r, l ∈ left → r ∈ right →
    same_values left_keys right_keys l r = cmp_key left_keys right_keys l r) as Heq.
  { intros l r Hl Hr. unfold typed_rows in *. rewrite Forall_forall in Htl, Htr. apply eq_true_iff_eq.
    rewrite (cmp_key_values kinds) by auto. unfold same_values. by rewrite keys_eqb_spec by (by apply Hpl). }
  rewrite (hash_join_values right left right_keys left_keys jt None limit) by done.
  rewrite (ref_join_ext (same_values left_keys right_keys) (cmp_key left_keys right_keys)) in Hlim |- * by done.
  destruct (sort_rows_sorted kinds left_keys left Htl) as (Hpl' & Htl' & Hsl).
  destruct (sort_rows_sorted kinds right_keys right Htr) as (Hpr' & Htr' & Hsr).
  pose proof (ref_join_perm (cmp_key left_keys right_keys) plain_merge jt _ _ _ _ Hpl' Hpr') as Hperm.
  destruct (merge_sorted_spec left_keys right_keys kinds limit jt _ _ Hjt H1 Htl' Hsl Htr' Hsr) as [_ ->].
  - exact Hperm.
  - by rewrite Hperm.
Qed.
End sorting.
