(* ===== verification/JoinCases.v ===== *)
(** * Joins on concrete rows

    The theorems of [JoinSpec.v] and [MergeJoin.v] at concrete tables, and the cases
    their hypotheses exclude. *)

From Stdlib Require Import ZArith Lia Strings.Byte.
From stdpp Require Import prelude gmap strings sorting.
From S2P Require Import Prelude Bytes Ordered Text F64 StorageTrait QueryValue Joins JoinSpec MergeJoin.

Local Open Scope Z_scope.

(** A text for floats that the hypotheses allow: that of the bits. *)
Definition sample_text (x : Z) : bytes := fmt_int (x - 2 ^ 63).

Lemma sample_text_inj x y : u64_ok x → u64_ok y → sample_text x = sample_text y → x = y.
Proof. intros Hx Hy He. apply fmt_int_inj in He; arith. Qed.

Lemma sample_text_bar x : x7c ∉ sample_text x.
Proof.
  intros Hin. pose proof (fmt_int_chars (x - 2 ^ 63)) as Hc. rewrite Forall_forall in Hc.
  destruct (Hc _ Hin) as [Hr|Hr]; [|done]. change (bz x7c) with 124 in Hr. lia.
Qed.

(** Equality of the values without parts. *)
#[export] Instance sample_values : ValueText Empty_set := {
  fmt_f64 := sample_text;
  fmt_f64_inj x y Hx Hy _ _ := sample_text_inj x y Hx Hy;
  fmt_f64_bar := sample_text_bar;
  value_eqb v w := match v, w with
                   | QNull, QNull => true
                   | QBool a, QBool b => Bool.eqb a b
                   | QInteger a, QInteger b => a =? b
                   | QString a, QString b => bool_decide (a = b)
                   | _, _ => false
                   end
}.

Notation SRow := (gmap bytes (QValue Empty_set)).
Definition row2 (c1 : bytes) (v1 : QValue Empty_set) (c2 : bytes) (v2 : QValue Empty_set) : SRow :=
  <[c1 := v1]> {[c2 := v2]}.

Definition int_row (k : bytes) (i : Z) (c : bytes) (j : Z) : SRow := row2 k (QInteger i) c (QInteger j).

Definition orders : list SRow := [int_row (bs "cust") 2 (bs "amt") 10; int_row (bs "cust") 1 (bs "amt") 20;
  int_row (bs "cust") 2 (bs "amt") 30; int_row (bs "cust") 9 (bs "amt") 40].
Definition customers : list SRow := [int_row (bs "id") 2 (bs "age") 50; int_row (bs "id") 1 (bs "age") 60;
  int_row (bs "id") 7 (bs "age") 70].

Definition out_pairs (rows : list SRow) (c1 c2 : bytes) : list (QValue Empty_set * QValue Empty_set) :=
  (λ r : SRow, (get_or_null r c1, get_or_null r c2)) <$> rows.

Lemma int_rows_plain (k : bytes) (rows : list SRow) :
  forallb (λ r, match get_or_null r k with QInteger i => (i64_min <=? i) && (i <=? i64_max) | _ => false end) rows = true →
  plain_keys [k] rows ∧ typed_rows [KInteger] [k] rows.
Proof.
  intros Hall. rewrite forallb_forall in Hall. unfold typed_rows. rewrite Forall_forall. split; intros row Hin.
  all: specialize (Hall row ltac:(by apply list_elem_of_In)); simpl.
  all: destruct (get_or_null row k); try done.
  all: apply andb_true_iff in Hall as [?%Z.leb_le ?%Z.leb_le].
  - constructor; [|constructor]. split; done.
  - constructor; [done|constructor].
Qed.

(** The hypotheses of [hash_join_reference] hold of two small tables; the full join
    pairs the three orders with their customers, and keeps the order and the customer
    without a partner. *)
Lemma hash_join_reference_witness :
  hash_join customers orders [bs "id"] [bs "cust"] FullOuter None 10 =
  ref_join (same_values [bs "cust"] [bs "id"]) (λ p b, merge_rows p b None) FullOuter orders customers ∧
  out_pairs (hash_join customers orders [bs "id"] [bs "cust"] FullOuter None 10) (bs "amt") (bs "age") =
  [(QInteger 10, QInteger 50); (QInteger 20, QInteger 60); (QInteger 30, QInteger 50);
   (QInteger 40, QNull); (QNull, QInteger 70)].
Proof.
  split; [|vm_compute; reflexivity].
  apply (hash_join_reference customers orders [bs "id"] [bs "cust"] FullOuter None 10).
  - lia.
  - reflexivity.
  - apply int_rows_plain. vm_compute. reflexivity.
  - apply int_rows_plain. vm_compute. reflexivity.
  - vm_compute. reflexivity.
Defined.

(** The sort-merge join of the same tables. *)
Lemma sort_merge_agrees_with_hash_witness :
  merge_sorted (sort_rows [bs "cust"] orders) (sort_rows [bs "id"] customers) [bs "cust"] [bs "id"] FullOuter 10
    ≡ₚ hash_join customers orders [bs "id"] [bs "cust"] FullOuter None 10.
Proof.
  apply (sort_merge_agrees_with_hash [KInteger] orders customers [bs "cust"] [bs "id"] FullOuter 10).
  - discriminate.
  - reflexivity.
  - apply int_rows_plain. vm_compute. reflexivity.
  - apply int_rows_plain. vm_compute. reflexivity.
  - apply int_rows_plain. vm_compute. reflexivity.
  - apply int_rows_plain. vm_compute. reflexivity.
  - vm_compute. reflexivity.
Defined.

(** ** The nested-loop join *)

(** A filter that compares two integer columns, for conditions such as [lo < hi]. *)
Definition lt_filter (f : bytes * bytes) (row : SRow) : bool :=
  match get_or_null row f.1, get_or_null row f.2 with
  | QInteger a, QInteger b => a <? b
  | _, _ => false
  end.

#[export] Instance sample_filters : Filters Empty_set (bytes * bytes) := {
  filters_from_msgpack _ := None;
  all_match_value fs row := Ok (forallb (λ f, lt_filter f row) fs)
}.

Lemma sample_filters_total (row : SRow) :
  all_match_value [(bs "age", bs "amt")] row = Ok (forallb (λ f, lt_filter f row) [(bs "age", bs "amt")]).
Proof. reflexivity. Qed.

(** Orders and the customers whose age is below the amount of the order. *)
Lemma nested_loop_join_reference_witness :
  let fs := [(bs "age", bs "amt")] in
  nested_loop_join ((λ i, int_row (bs "cust") i (bs "amt") (i * 20)) <$> [1; 3; 4]) customers fs LeftOuter 3 =
  Ok (takeZ 3 (ref_join (passes (λ row, forallb (λ f, lt_filter f row) fs)) plain_merge LeftOuter
        ((λ i, int_row (bs "cust") i (bs "amt") (i * 20)) <$> [1; 3; 4]) customers)) ∧
  out_pairs (match nested_loop_join ((λ i, int_row (bs "cust") i (bs "amt") (i * 20)) <$> [1; 3; 4])
    customers fs LeftOuter 3 with Ok rows => rows | Err _ => [] end) (bs "amt") (bs "age") =
  [(QInteger 20, QNull); (QInteger 60, QInteger 50); (QInteger 80, QInteger 50)].
Proof.
  cbv zeta. split; [|vm_compute; reflexivity].
  apply (nested_loop_join_reference [(bs "age", bs "amt")]
           (λ row, forallb (λ f, lt_filter f row) [(bs "age", bs "amt")]) sample_filters_total 3
           ((λ i, int_row (bs "cust") i (bs "amt") (i * 20)) <$> [1; 3; 4]) customers LeftOuter).
  - lia.
  - reflexivity.
Defined.

(** ** Where the joins part from the reference *)

(** The sort-merge semi join keeps one left row per key: the guard against pushing a
    left row twice looks at the key of the last output row, which an earlier left row
    with the same key may have pushed.  The hash join keeps both rows. *)
Theorem sort_merge_semi_drops_rows :
  let left := [int_row (bs "cust") 2 (bs "amt") 10; int_row (bs "cust") 2 (bs "amt") 30] in
  out_pairs (merge_sorted left customers [bs "cust"] [bs "id"] Semi 10) (bs "cust") (bs "amt") =
    [(QInteger 2, QInteger 10)] ∧
  out_pairs (hash_join customers left [bs "id"] [bs "cust"] Semi None 10) (bs "cust") (bs "amt") =
    [(QInteger 2, QInteger 10); (QInteger 2, QInteger 30)].
Proof. vm_compute. split; reflexivity. Qed.

(** A right join cut by its limit goes on to the unmatched build rows: it returns one
    row more than the limit, and that row is a build row that does have a match. *)
Theorem right_join_passes_limit :
  let left := [int_row (bs "cust") 2 (bs "amt") 10; int_row (bs "cust") 1 (bs "amt") 20] in
  out_pairs (hash_join customers left [bs "id"] [bs "cust"] RightOuter None 1) (bs "amt") (bs "age") =
    [(QInteger 10, QInteger 50); (QNull, QInteger 60)].
Proof. vm_compute. reflexivity. Qed.

(** Decimals and date-times have one discriminant: any two of them join. *)
Theorem distinct_decimals_join :
  length (hash_join [row2 (bs "id") (QDecimal (bs "1.5")) (bs "age") (QInteger 50)]
                    [row2 (bs "cust") (QDateTime 0) (bs "amt") (QInteger 10)]
                    [bs "id"] [bs "cust"] Inner None 10) = 1%nat.
Proof. vm_compute. reflexivity. Qed.

(** A vertical bar in a string makes different composite keys the same. *)
Theorem bar_in_key_collides :
  join_key_str [QString (bs "a|s:b"); QString (bs "c")] =
  join_key_str [QString (Other:=Empty_set) (bs "a"); QString (bs "b|s:c")].
Proof. vm_compute. reflexivity. Qed.

(** A left join whose first row has no match returns no right column at all. *)
Theorem left_join_loses_right_columns :
  let left := [int_row (bs "cust") 9 (bs "amt") 40; int_row (bs "cust") 2 (bs "amt") 10] in
  let joined := hash_join customers left [bs "id"] [bs "cust"] LeftOuter None 10 in
  out_pairs joined (bs "amt") (bs "age") = [(QInteger 40, QNull); (QInteger 10, QInteger 50)] ∧
  t_columns (maps_to_result joined) = [bs "amt"; bs "cust"].
Proof. vm_compute. split; reflexivity. Qed.

(** A right join puts the alias on the right columns of matched rows only: the row
    without a match keeps plain column names. *)
Theorem unmatched_right_row_has_no_alias :
  let left := [int_row (bs "cust") 2 (bs "amt") 10; int_row (bs "cust") 1 (bs "amt") 20] in
  let joined := hash_join customers left [bs "id"] [bs "cust"] RightOuter (Some (bs "c")) 10 in
  out_pairs joined (bs "c.id") (bs "id") =
    [(QInteger 2, QNull); (QInteger 1, QNull); (QNull, QInteger 7)].
Proof. vm_compute. reflexivity. Qed.
