(* ===== verification/Aggregate.v ===== *)
(** * GROUP BY, aggregates and facets

    [src/nodedb-lite/src/query/query_ops/aggregate.rs] with its numeric folds
    ([aggregate_numeric.rs]) and the facet counts ([facets.rs]).  Expressions, exact
    sums, the numeric kernels and sort keys belong to the crates [nodedb_query] and
    [nodedb_physical]; they are the operations of the class [AggOps]. *)

From Stdlib Require Import ZArith Lia Strings.Byte.
From stdpp Require Import prelude gmap strings sorting.
From S2P Require Import Prelude Bytes Ordered Text F64 StorageTrait QueryValue Joins JoinSpec.

Local Open Scope Z_scope.

(** [EvalError]: the overflow and the others, which convert alike. *)
Inductive EvalError := NumericOverflow | OtherEval.

Definition eval_to_lite (e : EvalError) : LiteError :=
  match e with NumericOverflow => NumericValueOutOfRange | OtherEval => Query end.

Class AggOps (Other Expr Key : Type) := {
  expr_eval : Expr → QRow Other → result EvalError (QValue Other);
  ExactSum : Type;
  exact_new : ExactSum;
  exact_add : ExactSum → QValue Other → ExactSum;
  exact_sum : ExactSum → result EvalError (QValue Other);
  exact_avg : ExactSum → result EvalError (QValue Other);
  sum_input : QValue Other → option (QValue Other);
  min_i64 : list Z → Z;
  max_i64 : list Z → Z;
  min_f64 : list Z → Z;
  max_f64 : list Z → Z;
  stddev_population : list Z → option Z;
  as_str : QValue Other → option bytes;
  parameterized_functions : list bytes;
  (** [SortKeySpec::as_column], [order_nulls] and [direct]. *)
  as_column : Key → option bytes;
  order_nulls : Key → bool → bool → option comparison;
  direct : Key → comparison → comparison
}.

Definition upper_byte (b : byte) : byte :=
  if (97 <=? bz b) && (bz b <=? 122) then zb (bz b - 32) else b.
Definition lower_byte (b : byte) : byte :=
  if (65 <=? bz b) && (bz b <=? 90) then zb (bz b + 32) else b.

(** [to_uppercase] and [to_lowercase] of a function name, which is ASCII. *)
Definition to_uppercase (s : bytes) : bytes := upper_byte <$> s.
Definition to_lowercase (s : bytes) : bytes := lower_byte <$> s.

Section aggregate.
Context {Other Expr Key F : Type} `{ValueText Other} `{Filters Other F} `{AggOps Other Expr Key}.
Notation Value := (QValue Other).
Notation Row := (gmap bytes Value).

Record GroupKeySpec := mkGroupKeySpec { gk_output_name : bytes; gk_field : option bytes; gk_expr : option Expr }.

Record AggregateSpec := mkAggregateSpec {
  ag_function : bytes;
  ag_alias : bytes;
  ag_user_alias : option bytes;
  ag_field : bytes;
  ag_expr : option Expr;
  ag_has_param : bool
}.

(** ** Numeric inputs *)

Record Numeric := mkNumeric { nu_floats : list Z; nu_ints : list Z; nu_exact : ExactSum }.

Definition numeric_step (s : Numeric) (value : Value) : Numeric :=
  let exact := match sum_input value with Some n => exact_add (nu_exact s) n | None => nu_exact s end in
  match value with
  | QFloat f => mkNumeric (nu_floats s ++ [f]) (nu_ints s) exact
  | QInteger i => mkNumeric (nu_floats s) (nu_ints s ++ [i]) exact
  | _ => mkNumeric (nu_floats s) (nu_ints s) exact
  end.

Definition numeric_collect (values : list Value) : Numeric := foldl numeric_step (mkNumeric [] [] exact_new) values.

Definition numeric_is_empty (s : Numeric) : bool :=
  match nu_floats s, nu_ints s with [], [] => true | _, _ => false end.

Definition numeric_as_f64 (s : Numeric) : list Z := nu_floats s ++ (i64_as_f64 <$> nu_ints s).

Definition numeric_min (s : Numeric) : Value :=
  if numeric_is_empty s then QNull
  else match nu_floats s with
       | [] => QInteger (min_i64 (nu_ints s))
       | _ => QFloat (min_f64 (numeric_as_f64 s))
       end.

Definition numeric_max (s : Numeric) : Value :=
  if numeric_is_empty s then QNull
  else match nu_floats s with
       | [] => QInteger (max_i64 (nu_ints s))
       | _ => QFloat (max_f64 (numeric_as_f64 s))
       end.

(** ** One aggregate *)

Definition is_null (v : Value) : bool := match v with QNull => true | _ => false end.

(** The inputs without the nulls, and those without repetitions. *)
Definition non_null (inputs : list Value) : list Value := filter (λ v, is_null v = false) inputs.

Definition distinct (inputs : list Value) : list Value :=
  foldl (λ seen v, if existsb (λ w, value_eqb w v) seen then seen else seen ++ [v]) [] (non_null inputs).

(** [Iterator::min] and [max] of strings. *)
Definition pick (better : comparison) (l : list bytes) : option bytes :=
  foldl (λ best s, match best with
                   | None => Some s
                   | Some b => Some (if bool_decide (bytes_cmp s b = better) then s else b)
                   end) None l.

Definition strings_of (inputs : list Value) : list bytes := omap as_str (non_null inputs).

(** [total_error] keeps the variant that [From<EvalError>] gives. *)
Definition total_error (e : EvalError) : LiteError :=
  match e with NumericOverflow => NumericValueOutOfRange | other => eval_to_lite other end.

Definition agg_input (spec : AggregateSpec) (row : Row) : res Value :=
  match ag_expr spec with
  | Some e => rmap_err eval_to_lite (expr_eval e row)
  | None => Ok (get_or_null row (ag_field spec))
  end.

Definition string_or_null (s : option bytes) : Value := match s with Some s => QString s | None => QNull end.

Definition compute_one_aggregate (group : list Row) (spec : AggregateSpec) : res Value :=
  let func := to_uppercase (ag_function spec) in
  if ag_has_param spec || bool_decide (to_lowercase (ag_function spec) ∈ parameterized_functions)
  then Err Unsupported
  else if bool_decide (func = bs "COUNT") && bool_decide (ag_field spec = bs "*") &&
          match ag_expr spec with None => true | Some _ => false end
  then Ok (QInteger (Z.of_nat (length group)))
  else
    let? inputs := rmapM (agg_input spec) group in
    let nums := numeric_collect (non_null inputs) in
    if bool_decide (func = bs "COUNT") then Ok (QInteger (Z.of_nat (length (non_null inputs))))
    else if bool_decide (func = bs "COUNT_DISTINCT") then Ok (QInteger (Z.of_nat (length (distinct inputs))))
    else if bool_decide (func = bs "SUM") then rmap_err total_error (exact_sum (nu_exact nums))
    else if bool_decide (func = bs "SUM_DISTINCT")
    then rmap_err total_error (exact_sum (nu_exact (numeric_collect (distinct inputs))))
    else if bool_decide (func = bs "AVG") then rmap_err total_error (exact_avg (nu_exact nums))
    else if bool_decide (func = bs "AVG_DISTINCT")
    then rmap_err total_error (exact_avg (nu_exact (numeric_collect (distinct inputs))))
    else if bool_decide (func = bs "TS_STDDEV")
    then Ok (match stddev_population (numeric_as_f64 nums) with Some f => QFloat f | None => QNull end)
    else if bool_decide (func = bs "MIN")
    then Ok (if negb (numeric_is_empty nums) then numeric_min nums
             else string_or_null (pick Lt (strings_of inputs)))
    else if bool_decide (func = bs "MAX")
    then Ok (if negb (numeric_is_empty nums) then numeric_max nums
             else string_or_null (pick Gt (strings_of inputs)))
    else Err Unsupported.

(** ** Groups *)

Definition group_key_value (row : Row) (spec : GroupKeySpec) : res Value :=
  match gk_expr spec, gk_field spec with
  | Some e, _ => rmap_err eval_to_lite (expr_eval e row)
  | None, Some field => Ok (get_or_null row field)
  | None, None => Ok QNull
  end.

Notation GroupMap := (gmap bytes (list Value * list Row)).

Definition group_step (group_by : list GroupKeySpec) (groups : GroupMap) (row : Row) : res GroupMap :=
  let? key := rmapM (group_key_value row) group_by in
  let key_str := join_key_str key in
  let '(key, rows) := default (key, []) (groups !! key_str) in
  Ok (<[key_str := (key, rows ++ [row])]> groups).

Definition group_rows (rows : list Row) (group_by : list GroupKeySpec) : res GroupMap :=
  rfold (group_step group_by) ∅ rows.

Context `{HashOrder}.

Definition compute_aggregate_groups (i : nat) (groups : GroupMap) (aggregates : list AggregateSpec)
    : res (list (list Value)) :=
  rmapM (λ e : bytes * (list Value * list Row),
           let? vals := rmapM (compute_one_aggregate e.2.2) aggregates in
           Ok (e.2.1 ++ vals)) (hash_iter 1 i groups).

Definition make_columns (group_by : list GroupKeySpec) (aggregates : list AggregateSpec) : list bytes :=
  (gk_output_name <$> group_by) ++ ((λ s, default (ag_alias s) (ag_user_alias s)) <$> aggregates).

Definition zip_row (columns : list bytes) (row : list Value) : Row :=
  foldl (λ (m : Row) p, <[p.1 := p.2]> m) ∅ (zip columns row).

Definition apply_having (rows : list (list Value)) (having : list F) (group_by : list GroupKeySpec)
    (aggregates : list AggregateSpec) : res (list (list Value)) :=
  match having with
  | [] => Ok rows
  | _ =>
      let columns := make_columns group_by aggregates in
      let? keep := rmapM (λ row, all_match_value having (zip_row columns row)) rows in
      Ok (filter (λ p : bool * list Value, p.1 = true) (zip keep rows)).*2
  end.

Fixpoint sort_cmp (columns : list bytes) (sort_keys : list Key) (a b : list Value) : comparison :=
  match sort_keys with
  | [] => Eq
  | key :: rest =>
      match as_column key ≫= λ col, position (λ c, bool_decide (c = col)) columns with
      | None => sort_cmp columns rest a b
      | Some i =>
          let av := default QNull (a !! i) in
          let bv := default QNull (b !! i) in
          let ord := match order_nulls key (is_null av) (is_null bv) with
                     | Some ord => ord
                     | None => direct key (value_cmp av bv)
                     end in
          match ord with Eq => sort_cmp columns rest a b | ord => ord end
      end
  end.

Definition out_le (cmp : list Value → list Value → comparison) (a b : list Value) : Prop := cmp a b ≠ Gt.
#[export] Instance out_le_dec cmp : RelDecision (out_le cmp).
Proof. intros a b. unfold out_le. apply _. Defined.

Definition apply_sort (rows : list (list Value)) (sort_keys : list Key) (group_by : list GroupKeySpec)
    (aggregates : list AggregateSpec) : list (list Value) :=
  match sort_keys with
  | [] => rows
  | _ => stable_sort (out_le (sort_cmp (make_columns group_by aggregates) sort_keys)) rows
  end.

(** ** GROUPING SETS *)

(** [Vec::insert], which panics past the end. *)
Definition vec_insert (i : nat) (v : Value) (row : list Value) : option (list Value) :=
  if (length row <? i)%nat then None else Some (take i row ++ v :: drop i row).

(** The null-fill loop; each round adds one value, [fuel] of them reach the width. *)
Fixpoint null_fill (fuel : nat) (at_ width : nat) (row : list Value) : option (list Value) :=
  match fuel with
  | O => Some row
  | S fuel =>
      if (length row <? width)%nat
      then let* row := vec_insert at_ QNull row in null_fill fuel at_ width row
      else Some row
  end.

Definition subset_of (group_by : list GroupKeySpec) (set_indices : list nat) : list GroupKeySpec :=
  omap (λ i, group_by !! i) set_indices.

(** The rows of one set; [None] is a panic. *)
Definition grouping_set (i : nat) (filtered : list Row) (group_by : list GroupKeySpec)
    (aggregates : list AggregateSpec) (having : list F) (set_indices : list nat)
    : option (res (list (list Value))) :=
  let subset := subset_of group_by set_indices in
  match (let? grouped := group_rows filtered subset in compute_aggregate_groups i grouped aggregates) with
  | Err e => Some (Err e)
  | Ok set_rows =>
      let width := (length group_by + length aggregates)%nat in
      let* set_rows := mapM (null_fill width (length set_indices) width) set_rows in
      Some (apply_having set_rows having subset aggregates)
  end.

Fixpoint grouping_loop (i : nat) (filtered : list Row) (group_by : list GroupKeySpec)
    (aggregates : list AggregateSpec) (having : list F) (all_rows : list (list Value))
    (sets : list (list nat)) : option (res (list (list Value))) :=
  match sets with
  | [] => Some (Ok all_rows)
  | s :: sets =>
      let* r := grouping_set i filtered group_by aggregates having s in
      match r with
      | Err e => Some (Err e)
      | Ok set_rows => grouping_loop (S i) filtered group_by aggregates having (all_rows ++ set_rows) sets
      end
  end.

Definition execute_aggregate (rows : list Row) (group_by : list GroupKeySpec) (aggregates : list AggregateSpec)
    (filters having : bytes) (sort_keys : list Key) (grouping_sets : list (list nat))
    : option (res (Table Other)) :=
  match (let? scan_filters := decode_filters (F:=F) filters in
         let? having_filters := decode_filters (F:=F) having in
         let? filtered := apply_filters rows scan_filters in
         Ok (having_filters, filtered)) with
  | Err e => Some (Err e)
  | Ok (having_filters, filtered) =>
      let finish := λ out, mkTable (make_columns group_by aggregates)
                             (apply_sort out sort_keys group_by aggregates) in
      match grouping_sets with
      | [] => Some (let? grouped := group_rows filtered group_by in
                    let? out := compute_aggregate_groups 0 grouped aggregates in
                    let? out := apply_having out having_filters group_by aggregates in
                    Ok (finish out))
      | _ => let* r := grouping_loop 0 filtered group_by aggregates having_filters [] grouping_sets in
             Some (rmap finish r)
      end
  end.

(** [GroupKeySpec::column]. *)
Definition group_column (col : bytes) : GroupKeySpec := mkGroupKeySpec col (Some col) None.

Definition execute_partial_aggregate (rows : list Row) (group_by : list bytes)
    (aggregates : list AggregateSpec) (filters : bytes) : res (Table Other) :=
  let group_by := group_column <$> group_by in
  let? scan_filters := decode_filters (F:=F) filters in
  let? filtered := apply_filters rows scan_filters in
  let? grouped := group_rows filtered group_by in
  let? result_rows := compute_aggregate_groups 0 grouped aggregates in
  Ok (mkTable (bs "__partial" :: make_columns group_by aggregates) (cons (QBool true) <$> result_rows)).

(** ** Facets *)

Definition facet_key (v : Value) : bytes :=
  match v with
  | QNull => bs "null"
  | QBool b => bs "bool:" ++ fmt_bool b
  | QInteger n => bs "int:" ++ fmt_int n
  | QFloat f => bs "float:" ++ fmt_f64 f
  | QString s => bs "str:" ++ s
  | QUuid s | QUlid s => bs "id:" ++ s
  | QBytes b => bs "bytes:" ++ fmt_len b
  | QArray a | QSet a => bs "array:" ++ fmt_len a
  | QObject m => bs "object:" ++ fmt_len m
  | _ => bs "other"
  end.

Definition facet_step (field : bytes) (counts : gmap bytes (Value * Z)) (row : Row) : gmap bytes (Value * Z) :=
  let val := get_or_null row field in
  let key := facet_key val in
  match counts !! key with
  | Some (v, c) => <[key := (v, c + 1)]> counts
  | None => <[key := (val, 1)]> counts
  end.

Definition facet_counts (rows : list Row) (field : bytes) : gmap bytes (Value * Z) :=
  foldl (facet_step field) ∅ rows.

(** By count descending, then by key. *)
Definition facet_cmp (a b : Value * Z) : comparison :=
  match b.2 ?= a.2 with Eq => bytes_cmp (facet_key a.1) (facet_key b.1) | ord => ord end.
Definition facet_le (a b : Value * Z) : Prop := facet_cmp a b ≠ Gt.
#[export] Instance facet_le_dec : RelDecision facet_le.
Proof. intros a b. unfold facet_le. apply _. Defined.

Definition facet_pairs (i : nat) (rows : list Row) (field : bytes) : list (Value * Z) :=
  stable_sort facet_le (hash_iter 2 i (facet_counts rows field)).*2.

Definition facet_row (field : bytes) (p : Value * Z) : Row :=
  <[bs "count" := QInteger p.2]> (<[bs "value" := p.1]> {[bs "field" := QString field]}).

Definition execute_facet_counts (scan_collection : bytes → res (list Row)) (collection filters : bytes)
    (fields : list bytes) (limit_per_facet : Z) : res (Table Other) :=
  let? parsed := decode_filters (F:=F) filters in
  let? all_rows := scan_collection collection in
  let? rows := apply_filters all_rows parsed in
  let facet := λ i field,
    let pairs := facet_pairs i rows field in
    let take_ := if limit_per_facet =? 0 then Z.of_nat (length pairs)
                 else Z.min limit_per_facet (Z.of_nat (length pairs)) in
    facet_row field <$> takeZ take_ pairs in
  Ok (maps_to_result (concat (imap facet fields))).
End aggregate.
