(* ===== verification/AggSpec.v ===== *)
(** * What GROUP BY and facets return

    The groups of [Aggregate.v] against the rows with equal keys, the columns of
    grouping sets, and the facet counts. *)

From Stdlib Require Import ZArith Lia Strings.Byte.
From stdpp Require Import prelude gmap strings sorting.
From S2P Require Import Prelude Bytes Ordered Text F64 StorageTrait QueryValue Joins JoinSpec MergeJoin Aggregate.

Local Open Scope Z_scope.

Section groups.
Context {Other Expr Key F : Type} `{ValueText Other} `{Filters Other F} `{AggOps Other Expr Key}.
Notation Value := (QValue Other).
Notation Row := (gmap bytes Value).
Notation GroupMap := (gmap bytes (list Value * list Row)).

Variable group_by : list (GroupKeySpec (Expr:=Expr)).
(** The key of a row, where its expressions evaluate. *)
Variable kf : Row → list Value.

Definition keys_evaluate (rows : list Row) : Prop :=
  ∀ row, row ∈ rows → rmapM (group_key_value row) group_by = Ok (kf row).

(** The rows whose key has the string [s]. *)
Definition with_str (s : bytes) (rows : list Row) : list Row :=
  filter (λ r, join_key_str (kf r) = s) rows.

Definition groups_ok (rows : list Row) (g : GroupMap) : Prop :=
  (∀ s : bytes, g !! s = match with_str s rows with [] => None | r :: _ => Some (kf r, with_str s rows) end) ∧
  concat ((λ e : bytes * (list Value * list Row), e.2.2) <$> map_to_list g) ≡ₚ rows.

Lemma total_insert (g : GroupMap) (s : bytes) (k : list Value) (rs : list Row) (row : Row) :
  (g !! s = Some (k, rs) ∨ g !! s = None ∧ rs = []) →
  concat ((λ e : bytes * (list Value * list Row), e.2.2) <$> map_to_list (<[s := (k, rs ++ [row])]> g)) ≡ₚ
  concat ((λ e : bytes * (list Value * list Row), e.2.2) <$> map_to_list g) ++ [row].
Proof.
  intros Hs. rewrite <-(insert_delete_eq g), map_to_list_insert by apply lookup_delete_eq.
  rewrite fmap_cons. simpl. destruct Hs as [Hs|[Hs ->]].
  - rewrite <-(insert_delete_id g s (k, rs)) at 2 by done.
    rewrite map_to_list_insert by apply lookup_delete_eq. rewrite fmap_cons. simpl.
    rewrite <-!app_assoc. apply Permutation_app_head, Permutation_app_comm.
  - rewrite delete_id by done. simpl. apply Permutation_cons_append.
Qed.

Lemma group_step_ok (rows : list Row) (row : Row) (g : GroupMap) :
  rmapM (group_key_value row) group_by = Ok (kf row) → groups_ok rows g →
  ∃ g', group_step group_by g row = Ok g' ∧ groups_ok (rows ++ [row]) g'.
Proof.
  intros Hk [Hg Hp]. unfold group_step. rewrite Hk. cbn [rbind]. cbv zeta. pose proof (Hg (join_key_str (kf row))) as Hs.
  assert (∀ s, with_str s (rows ++ [row]) =
    with_str s rows ++ if decide (join_key_str (kf row) = s) then [row] else []) as Hw.
  { intros s. unfold with_str. rewrite filter_app, filter_cons, filter_nil.
    by destruct (decide (join_key_str (kf row) = s)). }
  assert (∃ k rs, default (kf row, []) (g !! join_key_str (kf row)) = (k, rs) ∧
    (g !! join_key_str (kf row) = Some (k, rs) ∨ g !! join_key_str (kf row) = None ∧ rs = []) ∧
    with_str (join_key_str (kf row)) rows = rs ∧
    match rs with [] => k = kf row | r :: _ => k = kf r end) as (k & rs & -> & Hcase & Hrs & Hkey).
  { destruct (with_str (join_key_str (kf row)) rows) as [|r l] eqn:Hl; rewrite Hs; simpl; eauto 10. }
  eexists. split; [done|]. split.
  - intros s. rewrite Hw. destruct (decide (join_key_str (kf row) = s)) as [<-|Hne].
    + rewrite lookup_insert_eq, Hrs. destruct rs; simpl in *; congruence.
    + rewrite lookup_insert_ne, app_nil_r by done. apply Hg.
  - rewrite total_insert by done. by rewrite Hp.
Qed.

Lemma group_rows_ok (rows : list Row) :
  keys_evaluate rows → ∃ g, group_rows rows group_by = Ok g ∧ groups_ok rows g.
Proof.
  unfold group_rows. induction rows as [|row rows IH] using rev_ind; intros Hk.
  - exists ∅. split; [done|]. split; [|by rewrite map_to_list_empty]. intros s. by rewrite lookup_empty.
  - destruct IH as (g & Hg & Hok); [intros r Hr; apply Hk; set_solver|].
    rewrite rfold_app, Hg. simpl. destruct (group_step_ok rows row g) as (g' & -> & Hok'); [|done|eauto].
    apply Hk. set_solver.
Qed.
(** ** Plain keys: groups are the rows with an equal key *)

Definition members (rows : list Row) (k : list Value) : list Row :=
  filter (λ r, keys_eqb (kf r) k = true) rows.

Definition plain_groups (rows : list Row) : Prop :=
  ∀ row, row ∈ rows → Forall plain (kf row) ∧ length (kf row) = length group_by.

Lemma members_str (rows : list Row) (row : Row) :
  plain_groups rows → row ∈ rows → with_str (join_key_str (kf row)) rows = members rows (kf row).
Proof.
  intros Hp Hin. apply filter_ext. intros r Hr. destruct (Hp r Hr) as [Hpr Hlr]. destruct (Hp row Hin) as [Hpw Hlw].
  rewrite keys_eqb_spec by done. apply key_str_inj; [congruence|done..].
Qed.

Lemma group_entry (rows : list Row) (g : GroupMap) (e : bytes * (list Value * list Row)) :
  plain_groups rows → groups_ok rows g → e ∈ map_to_list g →
  e.1 = join_key_str e.2.1 ∧ e.2.2 = members rows e.2.1 ∧ ∃ row, row ∈ rows ∧ kf row = e.2.1.
Proof.
  intros Hp [Hg _] He. destruct e as [s [k rs]]. apply elem_of_map_to_list in He. rewrite Hg in He. simpl.
  destruct (with_str s rows) as [|r l] eqn:Hw; [done|]. injection He as <- <-.
  assert (r ∈ with_str s rows) as Hr by (rewrite Hw; set_solver).
  unfold with_str in Hr. apply list_elem_of_filter in Hr as [<- Hr].
  rewrite <-Hw, members_str by done. eauto.
Qed.

Lemma group_exists (rows : list Row) (g : GroupMap) (row : Row) :
  plain_groups rows → groups_ok rows g → row ∈ rows → ∃ e, e ∈ map_to_list g ∧ e.2.1 = kf row.
Proof.
  intros Hp [Hg _] Hin. specialize (Hg (join_key_str (kf row))). rewrite members_str in Hg by done.
  destruct (members rows (kf row)) as [|r l] eqn:Hm.
  { exfalso. assert (row ∈ members rows (kf row)) as Hbad; [|rewrite Hm in Hbad; set_solver].
    apply list_elem_of_filter. split; [|done]. apply keys_eqb_spec; [by apply Hp|done]. }
  exists (join_key_str (kf row), (kf r, r :: l)). split; [by apply elem_of_map_to_list|]. simpl.
  assert (r ∈ members rows (kf row)) as Hr by (rewrite Hm; set_solver).
  apply list_elem_of_filter in Hr as [Hr Hr']. by apply keys_eqb_spec in Hr; [|apply Hp].
Qed.

Context `{HashOrder}.

Lemma compute_groups_ok (i : nat) (g : GroupMap) (aggregates : list (AggregateSpec (Expr:=Expr)))
    (agg : list Row → AggregateSpec (Expr:=Expr) → Value) :
  (∀ e spec, e ∈ map_to_list g → spec ∈ aggregates →
     compute_one_aggregate (Key:=Key) e.2.2 spec = Ok (agg e.2.2 spec)) →
  compute_aggregate_groups (Key:=Key) i g aggregates =
    Ok ((λ e : bytes * (list Value * list Row), e.2.1 ++ (agg e.2.2 <$> aggregates)) <$> hash_iter 1 i g).
Proof.
  intros Hagg. unfold compute_aggregate_groups. apply rmapM_pure, Forall_forall. intros e He.
  rewrite (rmapM_pure (agg e.2.2)); [done|]. apply Forall_forall. intros spec Hspec. apply Hagg; [|done].
  by rewrite <-(hash_iter_perm 1 i).
Qed.

(** The groups of a table, and the aggregates of each. *)
Lemma group_and_compute (i : nat) (rows : list Row) (aggregates : list (AggregateSpec (Expr:=Expr)))
    (agg : list Row → AggregateSpec (Expr:=Expr) → Value) :
  keys_evaluate rows → plain_groups rows →
  (∀ k spec, k ∈ kf <$> rows → spec ∈ aggregates →
     compute_one_aggregate (Key:=Key) (members rows k) spec = Ok (agg (members rows k) spec)) →
  ∃ groups,
    NoDup groups ∧ (∀ k, k ∈ groups ↔ ∃ row, row ∈ rows ∧ kf row = k) ∧
    concat (members rows <$> groups) ≡ₚ rows ∧
    ∃ out, rbind (group_rows rows group_by) (λ g, compute_aggregate_groups (Key:=Key) i g aggregates) = Ok out ∧
      out ≡ₚ (λ k, k ++ (agg (members rows k) <$> aggregates)) <$> groups.
Proof.
  intros Hk Hp Hagg. destruct (group_rows_ok rows Hk) as (g & -> & Hok).
  pose proof (λ e, group_entry rows g e Hp Hok) as He. pose proof Hok as [Hg Hc].
  set (keys := (λ e : bytes * (list Value * list Row), e.2.1) <$> map_to_list g).
  assert (∀ A (f : list Value → list Row → A),
    (λ e : bytes * (list Value * list Row), f e.2.1 e.2.2) <$> map_to_list g = (λ k, f k (members rows k)) <$> keys) as Hf.
  { intros A f. unfold keys. rewrite <-list_fmap_compose. apply list_fmap_ext.
    intros n e Hn%list_elem_of_lookup_2. simpl. by destruct (He e Hn) as (_ & <- & _). }
  exists keys. split_and!.
  - apply (NoDup_fmap_1 join_key_str). unfold keys. rewrite <-list_fmap_compose.
    assert ((join_key_str ∘ (λ e : bytes * (list Value * list Row), e.2.1)) <$> map_to_list g = (map_to_list g).*1) as ->;
      [|apply NoDup_fst_map_to_list].
    apply list_fmap_ext. intros n e Hn%list_elem_of_lookup_2. simpl. by destruct (He e Hn) as (<- & _).
  - intros k. unfold keys. rewrite list_elem_of_fmap. split.
    + intros (e & -> & Hin). by destruct (He e Hin) as (_ & _ & Hr).
    + intros (row & Hin & <-). destruct (group_exists rows g row Hp Hok Hin) as (e & Hin' & <-). eauto.
  - rewrite (Hf _ (λ _ rs, rs)) in Hc. exact Hc.
  - simpl. rewrite (compute_groups_ok i g aggregates agg).
    + eexists. split; [done|]. rewrite hash_iter_perm. by rewrite (Hf _ (λ k rs, k ++ (agg rs <$> aggregates))).
    + intros e spec Hin Hspec. destruct (He e Hin) as (_ & -> & row & Hr & <-).
      apply Hagg; [|done]. by apply list_elem_of_fmap_2.
Qed.

(** ** What an aggregate means *)

Lemma rmapM_fails {E A B} (f : A → result E B) (l : list A) (e : E) :
  rmapM f l = Err e → ∃ x, x ∈ l ∧ f x = Err e.
Proof.
  induction l as [|x l IH]; cbn [rmapM]; [done|]. destruct (f x) as [y|e'] eqn:Hx; cbn [rbind].
  - destruct (rmapM f l) as [ys|e']; [done|]. intros [= <-]. destruct IH as (z & Hz & He); [done|]. exists z. set_solver.
  - intros [= <-]. exists x. set_solver.
Qed.

Lemma rmap_err_Ok {E1 E2 A} (f : E1 → E2) (r : result E1 A) (v : A) : rmap_err f r = Ok v → r = Ok v.
Proof. by destruct r; [intros [= <-]|]. Qed.

Notation one_aggregate := (compute_one_aggregate (Key:=Key)).
Notation added := (foldl (exact_add (Expr:=Expr) (Key:=Key))).

Lemma numeric_exact (values : list Value) (n : Numeric (Other:=Other) (Expr:=Expr) (Key:=Key)) :
  nu_exact (foldl numeric_step n values) = added (nu_exact n) (omap (sum_input (Expr:=Expr) (Key:=Key)) values).
Proof.
  revert n. induction values as [|v values IH]; intros n; [done|]. cbn [foldl omap list_omap]. rewrite IH.
  unfold numeric_step. destruct (sum_input v); by destruct v.
Qed.

Definition not_null (v : Value) : Prop := match v with QNull => False | _ => True end.

#[local] Instance not_null_dec (v : Value) : Decision (not_null v).
Proof. destruct v; apply _. Defined.

Definition values_read (spec : AggregateSpec (Expr:=Expr)) (group : list Row) (inputs : list Value) : Prop :=
  Forall2 (λ row x, agg_input (Key:=Key) spec row = Ok x) group inputs.

(** The meaning of the counts and of the exact sums of a group: [COUNT] of a star is its
    number of rows, any other [COUNT] the number of values read that are not null, [SUM]
    and [AVG] the exact sum and mean of those that are numbers. *)
Record aggregate_of (spec : AggregateSpec (Expr:=Expr)) (group : list Row) (v : Value) : Prop := {
  ao_rows : to_uppercase (ag_function spec) = bs "COUNT" → ag_field spec = bs "*" → ag_expr spec = None →
    v = QInteger (Z.of_nat (length group));
  ao_count inputs : values_read spec group inputs → to_uppercase (ag_function spec) = bs "COUNT" →
    ag_field spec ≠ bs "*" ∨ is_Some (ag_expr spec) → v = QInteger (Z.of_nat (length (filter not_null inputs)));
  ao_sum inputs : values_read spec group inputs → to_uppercase (ag_function spec) = bs "SUM" →
    exact_sum (Expr:=Expr) (Key:=Key) (added exact_new (omap (sum_input (Expr:=Expr) (Key:=Key)) (filter not_null inputs))) = Ok v;
  ao_avg inputs : values_read spec group inputs → to_uppercase (ag_function spec) = bs "AVG" →
    exact_avg (Expr:=Expr) (Key:=Key) (added exact_new (omap (sum_input (Expr:=Expr) (Key:=Key)) (filter not_null inputs))) = Ok v
}.

Lemma one_aggregate_of (spec : AggregateSpec (Expr:=Expr)) (group : list Row) (v : Value) :
  one_aggregate group spec = Ok v → aggregate_of spec group v.
Proof.
  assert (∀ inputs : list Value, non_null inputs = filter not_null inputs) as Hnn.
  { intros inputs. apply filter_ext. intros x _. by destruct x. }
  unfold compute_one_aggregate. cbv zeta. destruct (ag_has_param spec || _); [done|]. intros Hv. split.
  - intros Hf Hs He. rewrite Hf, Hs, He, !bool_decide_true in Hv by done. by injection Hv as <-.
  - intros inputs Hin Hf Hns. apply rmapM_Ok in Hin. rewrite Hf, Hin, <-Hnn in *.
    rewrite (bool_decide_true (bs "COUNT" = _)) in Hv by done. cbn [rbind andb] in Hv.
    destruct (bool_decide_reflect (ag_field spec = bs "*")) as [Hst|Hst]; [|by injection Hv as <-].
    destruct Hns as [Hns|[x Hx]]; [done|]. rewrite Hx in Hv. by injection Hv as <-.
  - intros inputs Hin Hf. apply rmapM_Ok in Hin. rewrite Hf, Hin, <-Hnn in *. cbn in Hv.
    apply rmap_err_Ok in Hv. rewrite <-Hv. unfold numeric_collect. by rewrite numeric_exact.
  - intros inputs Hin Hf. apply rmapM_Ok in Hin. rewrite Hf, Hin, <-Hnn in *. cbn in Hv.
    apply rmap_err_Ok in Hv. rewrite <-Hv. unfold numeric_collect. by rewrite numeric_exact.
Qed.

(** A group whose aggregate fails makes the grouping fail. *)
Lemma compute_groups_fail (i : nat) (rows : list Row) (g : GroupMap) (aggregates : list (AggregateSpec (Expr:=Expr))) (e : LiteError) :
  plain_groups rows → groups_ok rows g → compute_aggregate_groups (Key:=Key) i g aggregates = Err e →
  ∃ k spec, k ∈ kf <$> rows ∧ spec ∈ aggregates ∧ one_aggregate (members rows k) spec = Err e.
Proof.
  intros Hp Hok (x & Hx & He)%rmapM_fails. rewrite hash_iter_perm in Hx.
  destruct (group_entry rows g x Hp Hok Hx) as (_ & Hm & row & Hr & Hk). rewrite Hm, <-Hk in He.
  destruct (rmapM _ aggregates) as [vals|e'] eqn:Hv; [done|]. injection He as ->.
  apply rmapM_fails in Hv as (spec & Hs & Hc). exists (kf row), spec. split; [by apply list_elem_of_fmap_2|done].
Qed.

Definition aggregate_value (group : list Row) (spec : AggregateSpec (Expr:=Expr)) : Value :=
  match one_aggregate group spec with Ok v => v | Err _ => QNull end.

(** Otherwise every aggregate of every group has a value. *)
Lemma compute_groups_values (i : nat) (rows : list Row) (g : GroupMap) (aggregates : list (AggregateSpec (Expr:=Expr))) out :
  plain_groups rows → groups_ok rows g → compute_aggregate_groups (Key:=Key) i g aggregates = Ok out →
  ∀ k spec, k ∈ kf <$> rows → spec ∈ aggregates →
    one_aggregate (members rows k) spec = Ok (aggregate_value (members rows k) spec).
Proof.
  intros Hp Hok Hout k spec (row & -> & Hr)%list_elem_of_fmap Hs. unfold aggregate_value.
  destruct (group_exists rows g row Hp Hok Hr) as (x & Hx & Hk).
  destruct (group_entry rows g x Hp Hok Hx) as (_ & Hm & _). rewrite <-Hk, <-Hm.
  rewrite <-(hash_iter_perm 1 i) in Hx. apply list_elem_of_lookup in Hx as [n Hn]. apply rmapM_Ok in Hout.
  destruct (Forall2_lookup_l _ _ _ _ _ Hout Hn) as (o & _ & Ho).
  apply rbind_Ok in Ho as (vals & Hv%rmapM_Ok & _). apply list_elem_of_lookup in Hs as [j Hj].
  by destruct (Forall2_lookup_l _ _ _ _ _ Hv Hj) as (v & _ & ->).
Qed.

(** C15: a GROUP BY over plain keys (nulls, booleans, integers, floats and strings without
    a vertical bar) that evaluate, without filters, HAVING and grouping sets, returns one
    row per distinct key, holding the key and the aggregates of exactly the rows that have
    it; every input row is in one group.  The counts, exact sums and means of a group mean
    what SQL says; when an aggregate of a group is an error the query is that error. *)
Theorem group_by_reference (rows : list Row) (aggregates : list (AggregateSpec (Expr:=Expr))) (sort_keys : list Key) :
  keys_evaluate rows → plain_groups rows →
  ∃ groups,
    NoDup groups ∧ (∀ k, k ∈ groups ↔ ∃ row, row ∈ rows ∧ kf row = k) ∧
    concat (members rows <$> groups) ≡ₚ rows ∧
    match execute_aggregate (F:=F) rows group_by aggregates [] [] sort_keys [] with
    | Some (Ok t) => ∃ (value : list Value → AggregateSpec (Expr:=Expr) → Value) (out : list (list Value)),
        t = mkTable (make_columns group_by aggregates) out ∧
        out ≡ₚ (λ k, k ++ (value k <$> aggregates)) <$> groups ∧
        ∀ k spec, k ∈ groups → spec ∈ aggregates →
          one_aggregate (members rows k) spec = Ok (value k spec) ∧ aggregate_of spec (members rows k) (value k spec)
    | Some (Err e) => ∃ k spec, k ∈ groups ∧ spec ∈ aggregates ∧ one_aggregate (members rows k) spec = Err e
    | None => False
    end.
Proof.
  intros Hk Hp. destruct (group_rows_ok rows Hk) as (g & Hg & Hok).
  destruct (compute_aggregate_groups (Key:=Key) 0 g aggregates) as [out0|e] eqn:Hcomp.
  - pose proof (compute_groups_values 0 rows g aggregates out0 Hp Hok Hcomp) as Hvals.
    destruct (group_and_compute 0 rows aggregates aggregate_value Hk Hp Hvals) as (groups & Hnd & Hin & Hc & out & Hout & Hperm).
    exists groups. split_and!; [done..|]. rewrite Hg in Hout. cbn [rbind] in Hout. rewrite Hcomp in Hout. injection Hout as ->.
    unfold execute_aggregate. cbn. rewrite Hg. cbn. rewrite Hcomp. cbn.
    exists (λ k, aggregate_value (members rows k)), (apply_sort out sort_keys group_by aggregates). split_and!; [done| |].
    + rewrite <-Hperm. unfold apply_sort. destruct sort_keys; [done|apply stable_sort_perm].
    + intros k spec (row & Hr & <-)%Hin Hs. pose proof (Hvals (kf row) spec (list_elem_of_fmap_2 _ _ _ Hr) Hs) as Hv.
      split; [done|by apply one_aggregate_of].
  - destruct (group_and_compute 0 rows [] aggregate_value Hk Hp) as (groups & Hnd & Hin & Hc & _); [set_solver|].
    exists groups. split_and!; [done..|]. unfold execute_aggregate. cbn. rewrite Hg. cbn. rewrite Hcomp. cbn.
    destruct (compute_groups_fail 0 rows g aggregates e Hp Hok Hcomp) as (k & spec & (row & -> & Hr)%list_elem_of_fmap & Hs & He).
    exists (kf row), spec. split_and!; [apply Hin; eauto|done..].
Qed.
End groups.

(** ** Grouping sets *)

Section sets.
Context {Other Expr : Type}.
Notation Value := (QValue Other).

(** A row of a set with [length key] columns is filled after its key. *)
Lemma null_fill_spec (fuel width : nat) (key vals : list Value) :
  (length key + length vals ≤ width)%nat → (width ≤ length key + length vals + fuel)%nat →
  null_fill fuel (length key) width (key ++ vals) =
    Some (key ++ replicate (width - (length key + length vals)) QNull ++ vals).
Proof.
  revert vals. induction fuel as [|fuel IH]; intros vals Hle Hf; cbn [null_fill].
  { replace (width - (length key + length vals))%nat with 0%nat by lia. done. }
  rewrite length_app. destruct (Nat.ltb_spec (length key + length vals)%nat width) as [Hlt|Hge].
  - unfold vec_insert. rewrite length_app. destruct (Nat.ltb_spec (length key + length vals)%nat (length key)); [lia|].
    rewrite take_app_length, drop_app_length. cbn [mbind option_bind].
    rewrite IH by (simpl; lia). f_equal. f_equal. cbn [length].
    replace (width - (length key + length vals))%nat with (S (width - (length key + S (length vals)))) by lia.
    rewrite replicate_S_end. by rewrite <-app_assoc.
  - replace (width - (length key + length vals))%nat with 0%nat by lia. done.
Qed.

Lemma subset_prefix (group_by : list (GroupKeySpec (Expr:=Expr))) (n : nat) :
  subset_of group_by (seq 0 n) = take n group_by.
Proof.
  unfold subset_of. revert n. induction group_by as [|k group_by IH]; intros n.
  - rewrite take_nil. generalize (seq 0 n). intros l. by induction l.
  - destruct n as [|n]; [done|]. cbn [seq omap list_omap lookup list_lookup take]. f_equal.
    rewrite <-IH, <-fmap_S_seq. generalize (seq 0 n). intros l. induction l as [|i l IHl]; [done|].
    rewrite fmap_cons. cbn [omap list_omap]. cbn [lookup list_lookup]. by rewrite IHl.
Qed.
End sets.

Section rollup.
Context {Other Expr Key F : Type} `{ValueText Other} `{Filters Other F} `{AggOps Other Expr Key} `{HashOrder}.
Notation Value := (QValue Other).
Notation Row := (gmap bytes Value).

Lemma mapM_fill (n width : nat) (rows : list (list Value)) :
  Forall (λ row, n ≤ length row ≤ width)%nat rows →
  mapM (null_fill width n width) rows =
    Some ((λ row, take n row ++ replicate (width - length row) QNull ++ drop n row) <$> rows).
Proof.
  intros Hall. induction Hall as [|row rows Hr Hall IH]; [done|].
  cbn [mapM]. pose proof (null_fill_spec width width (take n row) (drop n row)) as Hf.
  rewrite take_drop, length_take_le, length_drop in Hf by lia.
  replace (n + (length row - n))%nat with (length row) in Hf by lia. rewrite Hf by lia. cbn [mbind option_bind].
  by rewrite IH.
Qed.

(** The sets of a ROLLUP.  The rows of the set of the first [n] group columns are
    one per distinct key of those columns, with the key in its columns, nulls in the
    other group columns and the aggregates of the rows of the key last. *)
Theorem rollup_set_reference (n i : nat) (rows : list Row) (group_by : list (GroupKeySpec (Expr:=Expr)))
    (kf : Row → list Value) (aggregates : list (AggregateSpec (Expr:=Expr)))
    (agg : list Row → AggregateSpec (Expr:=Expr) → Value) :
  (n ≤ length group_by)%nat →
  keys_evaluate (Key:=Key) (take n group_by) kf rows → plain_groups (take n group_by) kf rows →
  (∀ k spec, k ∈ kf <$> rows → spec ∈ aggregates →
     compute_one_aggregate (Key:=Key) (members kf rows k) spec = Ok (agg (members kf rows k) spec)) →
  ∃ groups out,
    NoDup groups ∧ (∀ k, k ∈ groups ↔ ∃ row, row ∈ rows ∧ kf row = k) ∧
    concat (members kf rows <$> groups) ≡ₚ rows ∧
    grouping_set (Key:=Key) (F:=F) i rows group_by aggregates [] (seq 0 n) = Some (Ok out) ∧
    out ≡ₚ (λ k, k ++ replicate (length group_by - n) QNull ++ (agg (members kf rows k) <$> aggregates)) <$> groups.
Proof.
  intros Hn Hk Hp Hagg.
  destruct (group_and_compute (take n group_by) kf i rows aggregates agg Hk Hp Hagg)
    as (groups & Hnd & Hin & Hc & out & Hout & Hperm).
  assert (Forall (λ k, length k = n) groups) as Hlen.
  { apply Forall_forall. intros k (row & Hr & <-)%Hin. destruct (Hp row Hr) as [_ ->]. by apply length_take_le. }
  set (fill := λ row : list Value, take n row ++ replicate (length group_by + length aggregates - length row) QNull ++ drop n row).
  exists groups, (fill <$> out). split_and!; [done..| |].
  - unfold grouping_set. rewrite subset_prefix, Hout, length_seq, mapM_fill; [done|].
    rewrite Hperm. apply Forall_fmap. eapply Forall_impl; [exact Hlen|]. intros k Hkl. unfold compose. cbv beta in *.
    rewrite length_app, length_fmap, Hkl. lia.
  - rewrite Hperm. rewrite <-list_fmap_compose. apply Permutation_refl', list_fmap_ext.
    intros j k Hj%list_elem_of_lookup_2. rewrite Forall_forall in Hlen. pose proof (Hlen k Hj) as Hkl. simpl. unfold fill.
    rewrite length_app, length_fmap, <-Hkl, take_app_length, drop_app_length. do 3 f_equal. lia.
Qed.
End rollup.

(** ** Facets *)

Section facets.
Context {Other : Type} `{ValueText Other} `{HashOrder}.
Notation Value := (QValue Other).
Notation Row := (gmap bytes Value).
Variable field : bytes.

(** Values whose facet key determines them. *)
Definition faceted (v : Value) : Prop :=
  match v with
  | QNull | QBool _ | QString _ => True
  | QInteger i => i64_ok i
  | QFloat f => u64_ok f ∧ f64_is_nan f = false
  | _ => False
  end.

Lemma facet_key_inj (v w : Value) : faceted v → faceted w → facet_key v = facet_key w → v = w.
Proof.
  intros Hv Hw He.
  destruct v as [|b|i|f|s| | | | | | | | | | ], w as [|b'|i'|f'|s'| | | | | | | | | | ];
    cbn [faceted] in Hv, Hw; try done; cbn [facet_key] in He; try discriminate He.
  - by destruct b, b'.
  - apply app_inv_head, fmt_int_inj in He; [by subst|arith..].
  - apply app_inv_head, fmt_f64_inj in He; [by subst|naive_solver..].
  - apply app_inv_head in He. by subst.
Qed.

Definition with_facet (s : bytes) (rows : list Row) : list Row :=
  filter (λ r, facet_key (get_or_null r field) = s) rows.

Lemma facet_counts_lookup (rows : list Row) (s : bytes) :
  facet_counts rows field !! s =
    match with_facet s rows with
    | [] => None
    | r :: _ => Some (get_or_null r field, Z.of_nat (length (with_facet s rows)))
    end.
Proof.
  unfold facet_counts. induction rows as [|row rows IH] using rev_ind; [by cbn [foldl]; rewrite lookup_empty|].
  rewrite foldl_app. cbn [foldl]. set (m := foldl (facet_step field) ∅ rows) in *.
  assert (with_facet s (rows ++ [row]) = with_facet s rows ++
    if decide (facet_key (get_or_null row field) = s) then [row] else []) as ->.
  { unfold with_facet. rewrite filter_app, filter_cons, filter_nil. by destruct (decide _). }
  unfold facet_step. cbv zeta. destruct (decide (facet_key (get_or_null row field) = s)) as [Hk|Hk].
  - rewrite Hk, IH. destruct (with_facet s rows) as [|r l]; rewrite lookup_insert_eq; [done|].
    simpl. rewrite length_app. simpl. do 2 f_equal. lia.
  - rewrite app_nil_r. destruct (m !! facet_key (get_or_null row field)) as [[v c]|]; by rewrite lookup_insert_ne.
Qed.

Lemma facet_eqb (v w : Value) : faceted v → plain_eqb v w = true ↔ v = w.
Proof.
  intros Hv. destruct v, w; simpl in *; try naive_solver; try done.
  - destruct b, b0; naive_solver.
  - rewrite Z.eqb_eq. naive_solver.
  - rewrite Z.eqb_eq. naive_solver.
  - rewrite bool_decide_eq_true. naive_solver.
Qed.

(** The number of rows with a value. *)
Definition frequency (rows : list Row) (v : Value) : Z :=
  Z.of_nat (length (filter (λ r, plain_eqb (get_or_null r field) v = true) rows)).

Definition faceted_rows (rows : list Row) : Prop := ∀ row, row ∈ rows → faceted (get_or_null row field).

Lemma with_facet_eqb (rows : list Row) (row : Row) :
  faceted_rows rows → row ∈ rows →
  with_facet (facet_key (get_or_null row field)) rows =
  filter (λ r, plain_eqb (get_or_null r field) (get_or_null row field) = true) rows.
Proof.
  intros Hf Hr. apply filter_ext. intros r Hin. rewrite facet_eqb by (by apply Hf).
  split; [apply facet_key_inj; by apply Hf|by intros ->].
Qed.

Lemma facet_cmp_opp (a b : Value * Z) : facet_cmp a b = CompOpp (facet_cmp b a).
Proof.
  unfold facet_cmp. rewrite (Z.compare_antisym a.2 b.2).
  destruct (a.2 ?= b.2); simpl; [apply (bytes_cmp_antisym _ _)|done..].
Qed.

#[export] Instance facet_le_total : Total (facet_le (Other:=Other)).
Proof.
  intros a b. unfold facet_le. rewrite (facet_cmp_opp a b). destruct (facet_cmp b a); naive_solver.
Qed.

#[export] Instance facet_le_trans : Transitive (facet_le (Other:=Other)).
Proof.
  intros a b c. unfold facet_le, facet_cmp.
  destruct (Z.compare_spec b.2 a.2), (Z.compare_spec c.2 b.2), (Z.compare_spec c.2 a.2); try done; try lia.
  by apply (transitivity (R:=bytes_le)).
Qed.

Lemma facet_entry (rows : list Row) (p : bytes * (Value * Z)) :
  faceted_rows rows → p ∈ map_to_list (facet_counts rows field) ↔
  0 < p.2.2 ∧ p.2.2 = frequency rows p.2.1 ∧ p.1 = facet_key p.2.1.
Proof.
  intros Hf. destruct p as [s [v c]]. rewrite elem_of_map_to_list, facet_counts_lookup. simpl. unfold frequency. split.
  - destruct (with_facet s rows) as [|r l] eqn:Hw; [done|]. intros [= <- <-].
    assert (r ∈ with_facet s rows) as Hr by (rewrite Hw; set_solver).
    apply list_elem_of_filter in Hr as [<- Hr]. rewrite with_facet_eqb in Hw by done. rewrite Hw.
    split_and!; [simpl; lia|done..].
  - intros (Hc & -> & ->).
    destruct (filter (λ r, plain_eqb (get_or_null r field) v = true) rows) as [|r l] eqn:Hw; [simpl in Hc; lia|].
    assert (r ∈ filter (λ r, plain_eqb (get_or_null r field) v = true) rows) as Hr by (rewrite Hw; set_solver).
    apply list_elem_of_filter in Hr as [Hv Hr]. apply facet_eqb in Hv; [|by apply Hf]. subst v.
    by rewrite with_facet_eqb, Hw.
Qed.

(** The facet counts of a field.  The pairs listed are the values that occur, each
    once, with the number of rows that have it, the most frequent first and equal
    counts by key. *)
Theorem facet_pairs_reference (i : nat) (rows : list Row) :
  faceted_rows rows →
  StronglySorted facet_le (facet_pairs i rows field) ∧ NoDup (facet_pairs i rows field).*1 ∧
  ∀ v c, (v, c) ∈ facet_pairs i rows field ↔ 0 < c ∧ c = frequency rows v.
Proof.
  intros Hf. unfold facet_pairs.
  assert (∀ l, stable_sort (facet_le (Other:=Other)) l ≡ₚ l) as Hp by (intros; apply stable_sort_perm).
  split_and!; [apply stable_sort_sorted; apply _| |].
  - rewrite Hp, hash_iter_perm. apply (NoDup_fmap_1 facet_key). rewrite <-!list_fmap_compose.
    assert ((facet_key ∘ fst ∘ snd) <$> map_to_list (facet_counts rows field) =
      (map_to_list (facet_counts rows field)).*1) as Hk; [|pose proof (NoDup_fst_map_to_list (facet_counts rows field)) as Hnd; rewrite <-Hk in Hnd; exact Hnd].
    apply list_fmap_ext. intros n p Hn%list_elem_of_lookup_2. by apply facet_entry in Hn as (_ & _ & ->).
  - intros v c. rewrite Hp, hash_iter_perm, list_elem_of_fmap. split.
    + intros ([s p] & He & Hin). simpl in He. subst p. by apply facet_entry in Hin as (Hc & He & _).
    + intros [Hc He]. exists (facet_key v, (v, c)). split; [done|]. by apply facet_entry.
Qed.
End facets.
