(* ===== verification/AggCases.v ===== *)
(** * Aggregates on concrete rows

    The theorems of [AggSpec.v] at concrete tables, and two places where grouping sets
    part from what they mean. *)

From Stdlib Require Import ZArith Lia Strings.Byte.
From stdpp Require Import prelude gmap strings sorting.
From S2P Require Import Prelude Bytes Ordered Text F64 StorageTrait.
From S2P Require Import QueryValue Joins JoinSpec MergeJoin JoinCases Aggregate AggSpec.

Local Open Scope Z_scope.

#[local] Instance sample_order : HashOrder := {
  hash_iter K A _ _ i j m := map_to_list m;
  hash_iter_perm K A _ _ i j m := reflexivity _
}.

(** Sums of integers, and sort keys that name a column. *)
#[local] Instance sample_ops : AggOps Empty_set Empty_set bytes := {
  expr_eval e := match e with end;
  ExactSum := Z;
  exact_new := 0;
  exact_add s v := match v with QInteger i => s + i | _ => s end;
  exact_sum s := Ok (QInteger s);
  exact_avg s := Ok (QInteger s);
  sum_input v := match v with QInteger i => Some v | _ => None end;
  min_i64 := foldr Z.min i64_max;
  max_i64 := foldr Z.max i64_min;
  min_f64 _ := 0;
  max_f64 _ := 0;
  stddev_population _ := None;
  as_str v := match v with QString s => Some s | _ => None end;
  parameterized_functions := [];
  as_column k := Some k;
  order_nulls _ _ _ := None;
  direct _ c := c
}.

Notation SGroup := (GroupKeySpec (Expr:=Empty_set)).
Notation SAgg := (AggregateSpec (Expr:=Empty_set)).

Definition count_star : SAgg := mkAggregateSpec (bs "count") (bs "cnt") None (bs "*") None false.
Definition sum_amt : SAgg := mkAggregateSpec (bs "sum") (bs "total") None (bs "amt") None false.

Definition sales (city : bytes) (item : Z) (amt : Z) : SRow :=
  <[bs "city" := QString city]> (int_row (bs "item") item (bs "amt") amt).
Definition sales_rows : list SRow :=
  [sales (bs "ulm") 1 10; sales (bs "bern") 1 20; sales (bs "ulm") 2 30; sales (bs "ulm") 1 40].

Definition city_item : list SGroup := [group_column (bs "city"); group_column (bs "item")].

Definition agg_of (rows : list SRow) (spec : SAgg) : QValue Empty_set :=
  match compute_one_aggregate (Key:=bytes) rows spec with Ok v => v | Err _ => QNull end.

Lemma column_keys (cols : list bytes) (row : SRow) :
  rmapM (group_key_value row) (group_column <$> cols) = Ok (join_key row cols).
Proof.
  unfold join_key. induction cols as [|c cols IH]; [done|]. rewrite !fmap_cons. cbn [rmapM]. by rewrite IH.
Qed.

Definition plainb (v : QValue Empty_set) : bool :=
  match v with
  | QNull | QBool _ => true
  | QInteger i => (i64_min <=? i) && (i <=? i64_max)
  | QString s => bool_decide (x7c ∉ s)
  | _ => false
  end.

Lemma plainb_groups (cols : list bytes) (rows : list SRow) :
  forallb (λ r, forallb plainb (join_key r cols)) rows = true →
  plain_groups (group_column (Expr:=Empty_set) <$> cols) (λ r, join_key r cols) rows.
Proof.
  intros Hall row Hin. rewrite forallb_forall in Hall. specialize (Hall row ltac:(by apply list_elem_of_In)).
  split; [|unfold join_key; by rewrite !length_fmap]. rewrite forallb_forall in Hall. apply Forall_forall. intros v Hv.
  specialize (Hall v ltac:(by apply list_elem_of_In)). destruct v; try done.
  - cbn in *. apply andb_true_iff in Hall as [?%Z.leb_le ?%Z.leb_le]. by split.
  - by apply bool_decide_eq_true in Hall.
Qed.

Lemma aggs_compute (rows : list SRow) (spec : SAgg) :
  spec ∈ [count_star; sum_amt] → compute_one_aggregate (Key:=bytes) rows spec = Ok (agg_of rows spec).
Proof.
  intros Hs. rewrite !elem_of_cons, elem_of_nil in Hs. destruct Hs as [->|[->|[]]]; unfold agg_of; [done|].
  unfold compute_one_aggregate. simpl.
  rewrite (rmapM_pure (λ r : SRow, get_or_null r (bs "amt"))); [done|]. by apply Forall_forall.
Qed.

Notation exec rows group_by aggs sort := (execute_aggregate (F:=bytes * bytes) rows group_by aggs [] [] sort []).
Notation city_item_key := (λ r : SRow, join_key r [bs "city"; bs "item"]).
Notation city_key := (λ r : SRow, join_key r [bs "city"]).

(** Sales by city and item, sorted by their total. *)
Definition sales_totals : list (list (QValue Empty_set)) :=
  [[QString (bs "bern"); QInteger 1; QInteger 1; QInteger 20];
   [QString (bs "ulm"); QInteger 2; QInteger 1; QInteger 30];
   [QString (bs "ulm"); QInteger 1; QInteger 2; QInteger 50]].

Lemma group_by_reference_witness :
  exec sales_rows city_item [count_star; sum_amt] [bs "total"] =
    Some (Ok (mkTable [bs "city"; bs "item"; bs "cnt"; bs "total"] sales_totals)) ∧
  ∃ groups value,
    NoDup groups ∧ concat (members city_item_key sales_rows <$> groups) ≡ₚ sales_rows ∧
    sales_totals ≡ₚ (λ k, k ++ (value k <$> [count_star; sum_amt])) <$> groups ∧
    ∀ k, k ∈ groups → value k count_star = QInteger (Z.of_nat (length (members city_item_key sales_rows k))).
Proof.
  assert (exec sales_rows city_item [count_star; sum_amt] [bs "total"] =
    Some (Ok (mkTable [bs "city"; bs "item"; bs "cnt"; bs "total"] sales_totals))) as He by (vm_compute; reflexivity).
  split; [exact He|].
  destruct (group_by_reference (F:=bytes * bytes) city_item city_item_key sales_rows [count_star; sum_amt] [bs "total"])
    as (groups & Hnd & _ & Hc & Hr).
  - intros row _. apply (column_keys [bs "city"; bs "item"]).
  - apply (plainb_groups [bs "city"; bs "item"]). vm_compute. reflexivity.
  - rewrite He in Hr. destruct Hr as (value & out & [= ->] & Hout & Hval). exists groups, value. split_and!; [done..|].
    intros k Hk. by apply (Hval k count_star Hk ltac:(by left)).
Defined.

(** The subtotals by city. *)
Lemma rollup_set_reference_witness :
  ∃ groups out,
    NoDup groups ∧ (∀ k, k ∈ groups ↔ ∃ row, row ∈ sales_rows ∧ city_key row = k) ∧
    concat (members city_key sales_rows <$> groups) ≡ₚ sales_rows ∧
    grouping_set (Key:=bytes) (F:=bytes * bytes) 0 sales_rows city_item [count_star; sum_amt] [] (seq 0 1) =
      Some (Ok out) ∧
    out ≡ₚ (λ k, k ++ replicate (length city_item - 1) QNull ++
             (agg_of (members city_key sales_rows k) <$> [count_star; sum_amt])) <$> groups.
Proof.
  apply (rollup_set_reference 1 0 sales_rows city_item city_key [count_star; sum_amt] agg_of).
  - cbn. lia.
  - intros row _. apply (column_keys [bs "city"]).
  - apply (plainb_groups [bs "city"]). vm_compute. reflexivity.
  - intros k spec _. apply aggs_compute.
Defined.

Lemma facet_pairs_reference_witness :
  (StronglySorted facet_le (facet_pairs 0 sales_rows (bs "city")) ∧
   NoDup (facet_pairs 0 sales_rows (bs "city")).*1 ∧
   ∀ v c, (v, c) ∈ facet_pairs 0 sales_rows (bs "city") ↔ 0 < c ∧ c = frequency (bs "city") sales_rows v) ∧
  facet_pairs 0 sales_rows (bs "city") = [(QString (bs "ulm"), 3); (QString (bs "bern"), 1)].
Proof.
  split; [|vm_compute; reflexivity]. apply (facet_pairs_reference (bs "city") 0 sales_rows).
  intros row Hin. unfold sales_rows in Hin. rewrite !elem_of_cons, elem_of_nil in Hin.
  destruct Hin as [->|[->|[->|[->|[]]]]]; exact I.
Defined.

(** A set that is not a prefix of the group columns, as CUBE has: the item is reported
    in the column of the city. *)
Theorem cube_set_misplaces_keys :
  make_columns city_item [count_star] = [bs "city"; bs "item"; bs "cnt"] ∧
  grouping_set (Key:=bytes) (F:=bytes * bytes) 0 sales_rows city_item [count_star] [] [1%nat] =
    Some (Ok [[QInteger 2; QNull; QInteger 1]; [QInteger 1; QNull; QInteger 3]]).
Proof. vm_compute. split; reflexivity. Qed.

(** HAVING over a subtotal names the columns of the set, but the row has the nulls of
    the other columns in between: [cnt < total] holds of both cities and keeps none. *)
Theorem rollup_having_misreads :
  grouping_set (Key:=bytes) (F:=bytes * bytes) 0 sales_rows city_item [count_star; sum_amt] [] [0%nat] =
    Some (Ok [[QString (bs "bern"); QNull; QInteger 1; QInteger 20];
              [QString (bs "ulm"); QNull; QInteger 3; QInteger 80]]) ∧
  grouping_set (Key:=bytes) 0 sales_rows city_item [count_star; sum_amt] [(bs "cnt", bs "total")] [0%nat] =
    Some (Ok []).
Proof. vm_compute. split; reflexivity. Qed.

(** An aggregate without GROUP BY over no rows returns no row. *)
Theorem count_of_nothing_is_missing :
  exec [] [] [count_star] [] = Some (Ok (mkTable [bs "cnt"] [])).
Proof. vm_compute. reflexivity. Qed.
