(* ===== verification/Lateral.v ===== *)
(** * Lateral joins

    For each outer row, the rows of the inner side whose fields equal the outer row's:
    all of them ([src/nodedb-lite/src/query/query_ops/lateral_loop.rs]) or the first in
    an order ([lateral_top_k.rs]).  Each has two entry points, for physical plans and
    for SQL plans; the rows of the plans are parameters. *)

From Stdlib Require Import ZArith Lia Strings.Byte.
From stdpp Require Import prelude gmap strings sorting.
From S2P Require Import Prelude Bytes Ordered Text F64 StorageTrait QueryValue Joins JoinSpec Aggregate.

Local Open Scope Z_scope.

Section lateral.
Context {Other Expr Key F : Type} `{ValueText Other} `{Filters Other F} `{AggOps Other Expr Key}.
Notation Value := (QValue Other).
Notation Row := (gmap bytes Value).
(** [ScanFilter { field, op: FilterOp::Eq, value, .. }]. *)
Context (eq_filter : bytes → Value → F).
Context (scan_collection : bytes → res (list Row)).

(** The keys of a row are distinct, so the order of its entries does not matter. *)
Definition prefix_row (row : Row) (alias : bytes) : Row :=
  match alias with
  | [] => row
  | _ => foldl (λ (m : Row) p, <[alias ++ bs "." ++ p.1 := p.2]> m) ∅ (map_to_list row)
  end.

Definition compare_values (a b : Value) : comparison :=
  match a, b with
  | QInteger x, QInteger y => x ?= y
  | QFloat x, QFloat y => f64_cmp_or_eq (sf_of_bits x) (sf_of_bits y)
  | QString x, QString y => bytes_cmp x y
  | QBool x, QBool y => bool_cmp x y
  | QNull, QNull => Eq
  | QNull, _ => Lt
  | _, QNull => Gt
  | _, _ => Eq
  end.

Fixpoint order_cmp (order_by : list Key) (a b : Row) : comparison :=
  match order_by with
  | [] => Eq
  | key :: rest =>
      match as_column key with
      | None => order_cmp rest a b
      | Some field =>
          let va := get_or_null a field in
          let vb := get_or_null b field in
          let ord := match order_nulls key (is_null va) (is_null vb) with
                     | Some ord => ord
                     | None => direct key (compare_values va vb)
                     end in
          match ord with Eq => order_cmp rest a b | ord => ord end
      end
  end.

Definition order_rows (order_by : list Key) (rows : list Row) : list Row :=
  stable_sort (cmp_le (order_cmp order_by)) rows.

(** [merged.extend(inner)]. *)
Definition extend_row (row inner : Row) : Row :=
  foldl (λ (m : Row) p, <[p.1 := p.2]> m) row (map_to_list inner).

(** ** Top-K *)

Record LateralTopKSpec := mkLateralTopKSpec {
  lt_outer_alias : bytes;
  lt_inner_collection : bytes;
  lt_inner_filters : bytes;
  lt_inner_order_by : list Key;
  lt_inner_limit : Z;
  lt_correlation_keys : list (bytes * bytes);
  lt_lateral_alias : bytes;
  lt_projection : list JoinProjection;
  lt_left_join : bool
}.

Definition correlate (outer_row : Row) (pairs : list (bytes * bytes)) : list F :=
  (λ p : bytes * bytes, eq_filter p.2 (get_or_null outer_row p.1)) <$> pairs.

Definition top_k_row_sql (spec : LateralTopKSpec) (base : list F) (output : list Row) (outer_row : Row)
    : res (list Row) :=
  let prefixed := prefix_row outer_row (lt_outer_alias spec) in
  let? inner_rows := scan_collection (lt_inner_collection spec) in
  let? matched := apply_filters inner_rows (base ++ correlate outer_row (lt_correlation_keys spec)) in
  let matched := takeZ (effective_limit (lt_inner_limit spec)) (order_rows (lt_inner_order_by spec) matched) in
  Ok (output ++
      match matched, lt_left_join spec with
      | [], true => apply_projection [prefixed] (lt_projection spec)
      | _, _ => concat ((λ inner_row,
          apply_projection [merge_rows prefixed (prefix_row inner_row (lt_lateral_alias spec)) None]
            (lt_projection spec)) <$> matched)
      end).

Definition execute_lateral_top_k_sql (outer_rows : res (list Row)) (spec : LateralTopKSpec) : res (Table Other) :=
  let? outer_rows := outer_rows in
  let? base := decode_filters (F:=F) (lt_inner_filters spec) in
  let? output := rfold (top_k_row_sql spec base) [] outer_rows in
  Ok (maps_to_result output).

Definition top_k_row (spec : LateralTopKSpec) (base : list F) (output : list Row) (outer_row : Row)
    : res (list Row) :=
  let? inner_all := scan_collection (lt_inner_collection spec) in
  let? inner_rows := apply_filters inner_all (base ++ correlate outer_row (lt_correlation_keys spec)) in
  let inner_rows := match lt_inner_order_by spec with [] => inner_rows | o => order_rows o inner_rows end in
  let inner_rows := takeZ (effective_limit (lt_inner_limit spec)) inner_rows in
  match inner_rows with
  | [] => Ok (if lt_left_join spec then output ++ [prefix_row outer_row (lt_outer_alias spec)] else output)
  | _ => Ok (output ++ ((λ inner_row,
           merge_rows (prefix_row outer_row (lt_outer_alias spec))
                      (prefix_row inner_row (lt_lateral_alias spec)) None) <$> inner_rows))
  end.

Definition execute_lateral_top_k (outer_rows : res (list Row)) (spec : LateralTopKSpec) : res (Table Other) :=
  let? outer_rows := outer_rows in
  let? base := decode_filters (F:=F) (lt_inner_filters spec) in
  let? output := rfold (top_k_row spec base) [] outer_rows in
  Ok (maps_to_result (apply_projection output (lt_projection spec))).

(** ** Loop *)

Record LateralLoopSpec := mkLateralLoopSpec {
  ll_outer_alias : bytes;
  ll_inner_collection : bytes;
  ll_inner_filters : bytes;
  ll_correlation_predicates : list (bytes * bytes);
  ll_lateral_alias : bytes;
  ll_projection : list JoinProjection;
  ll_left_join : bool;
  ll_outer_row_cap : Z
}.

Definition over_cap (cap : Z) (outer_rows : list Row) : bool :=
  (0 <? cap) && (cap <? Z.of_nat (length outer_rows)).

Definition correlate_inner (outer_row : Row) (pairs : list (bytes * bytes)) : list F :=
  (λ p : bytes * bytes, eq_filter p.1 (get_or_null outer_row p.2)) <$> pairs.

Definition loop_row (spec : LateralLoopSpec) (base : list F) (output : list Row) (outer_row : Row)
    : res (list Row) :=
  let? inner_all := scan_collection (ll_inner_collection spec) in
  let? inner_rows := apply_filters inner_all (base ++ correlate_inner outer_row (ll_correlation_predicates spec)) in
  match inner_rows with
  | [] => Ok (if ll_left_join spec then output ++ [prefix_row outer_row (ll_outer_alias spec)] else output)
  | _ => Ok (output ++ ((λ inner_row,
           extend_row (prefix_row outer_row (ll_outer_alias spec))
                      (prefix_row inner_row (ll_lateral_alias spec))) <$> inner_rows))
  end.

Definition execute_lateral_loop (outer_rows : res (list Row)) (spec : LateralLoopSpec) : res (Table Other) :=
  let? outer_rows := outer_rows in
  if over_cap (ll_outer_row_cap spec) outer_rows then Err Storage
  else
    let? base := decode_filters (F:=F) (ll_inner_filters spec) in
    let? output := rfold (loop_row spec base) [] outer_rows in
    Ok (maps_to_result (apply_projection output (ll_projection spec))).

(** The inner side of the SQL entry point is a plan, run again for each outer row. *)
Definition loop_row_sql (inner : res (list Row)) (spec : LateralLoopSpec) (output : list Row) (outer_row : Row)
    : res (list Row) :=
  let outer_prefixed := prefix_row outer_row (ll_outer_alias spec) in
  let? inner_all := inner in
  let? inner_rows := apply_filters inner_all (correlate_inner outer_row (ll_correlation_predicates spec)) in
  match inner_rows with
  | [] => Ok (if ll_left_join spec then output ++ apply_projection [outer_prefixed] (ll_projection spec) else output)
  | _ => Ok (output ++ concat ((λ inner_row,
           apply_projection [extend_row outer_prefixed (prefix_row inner_row (ll_lateral_alias spec))]
             (ll_projection spec)) <$> inner_rows))
  end.

Definition execute_lateral_loop_sql (outer_rows inner : res (list Row)) (spec : LateralLoopSpec)
    : res (Table Other) :=
  let? outer_rows := outer_rows in
  if over_cap (ll_outer_row_cap spec) outer_rows then Err Storage
  else
    let? output := rfold (loop_row_sql inner spec) [] outer_rows in
    Ok (maps_to_result output).

(** ** The entry points agree *)

Lemma apply_projection_map (projection : list JoinProjection) :
  ∃ f : Row → Row, ∀ rows, apply_projection rows projection = f <$> rows.
Proof.
  destruct projection as [|p ps]; [exists id; intros rows; by rewrite list_fmap_id|].
  eexists. intros rows. reflexivity.
Qed.

Lemma project_concat (f : Row → Row) (g : Row → Row) (rows : list Row) :
  concat ((λ r, f <$> [g r]) <$> rows) = f <$> (g <$> rows).
Proof. induction rows as [|r rows IH]; [done|]. rewrite !fmap_cons. cbn [concat]. by rewrite IH. Qed.

(** Two loops whose bodies agree up to a projection of what they emit. *)
Lemma rfold_project (f : Row → Row) (body body' : list Row → Row → res (list Row)) (rows out : list Row) :
  (∀ out r, body' (f <$> out) r = rmap (fmap f) (body out r)) →
  rfold body' (f <$> out) rows = rmap (fmap f) (rfold body out rows).
Proof.
  intros Hb. revert out. induction rows as [|r rows IH]; intros out; cbn [rfold]; [done|].
  rewrite Hb. destruct (body out r) as [o|e]; cbn [rmap rbind]; [apply IH|done].
Qed.

Lemma order_rows_nil (rows : list Row) : order_rows [] rows = rows.
Proof.
  apply stable_sort_id. induction rows as [|r rows IH]; constructor; [done|]. by apply Forall_true.
Qed.

Lemma top_k_body (f : Row → Row) (spec : LateralTopKSpec) (base : list F) (out : list Row) (outer_row : Row) :
  (∀ rows, apply_projection rows (lt_projection spec) = f <$> rows) →
  top_k_row_sql spec base (f <$> out) outer_row = rmap (fmap f) (top_k_row spec base out outer_row).
Proof.
  intros Hf. unfold top_k_row_sql, top_k_row. cbv zeta.
  destruct (scan_collection (lt_inner_collection spec)) as [inner|e]; cbn [rbind rmap]; [|done].
  destruct (apply_filters inner _) as [rows|e]; cbn [rbind rmap]; [|done].
  assert (match lt_inner_order_by spec with [] => rows | o => order_rows o rows end =
    order_rows (lt_inner_order_by spec) rows) as -> by (destruct (lt_inner_order_by spec); by rewrite ?order_rows_nil).
  destruct (takeZ _ _) as [|r l] eqn:Ht.
  - destruct (lt_left_join spec); cbn [rmap]; [by rewrite fmap_app, Hf|]. simpl. by rewrite app_nil_r.
  - cbn [rmap]. rewrite fmap_app. f_equal. f_equal.
    rewrite (list_fmap_ext _ (λ inner_row, f <$> [merge_rows (prefix_row outer_row (lt_outer_alias spec))
      (prefix_row inner_row (lt_lateral_alias spec)) None])) by (intros; apply Hf).
    apply project_concat.
Qed.

Lemma top_k_entries (outer_rows : res (list Row)) (spec : LateralTopKSpec) :
  execute_lateral_top_k_sql outer_rows spec = execute_lateral_top_k outer_rows spec.
Proof.
  unfold execute_lateral_top_k_sql, execute_lateral_top_k. destruct outer_rows as [rows|e]; cbn [rbind]; [|done].
  destruct (decode_filters (lt_inner_filters spec)) as [base|e]; cbn [rbind]; [|done].
  destruct (apply_projection_map (lt_projection spec)) as [f Hf].
  pose proof (rfold_project f (top_k_row spec base) (top_k_row_sql spec base) rows []
    (λ out r, top_k_body f spec base out r Hf)) as Hr. cbn [fmap list_fmap] in Hr. rewrite Hr.
  destruct (rfold (top_k_row spec base) [] rows); cbn [rbind rmap]; [by rewrite Hf|done].
Qed.

Lemma loop_body (f : Row → Row) (spec : LateralLoopSpec) (out : list Row) (outer_row : Row) :
  (∀ rows, apply_projection rows (ll_projection spec) = f <$> rows) →
  loop_row_sql (scan_collection (ll_inner_collection spec)) spec (f <$> out) outer_row =
    rmap (fmap f) (loop_row spec [] out outer_row).
Proof.
  intros Hf. unfold loop_row_sql, loop_row. cbv zeta. cbn [app].
  destruct (scan_collection (ll_inner_collection spec)) as [inner|e]; cbn [rbind rmap]; [|done].
  destruct (apply_filters inner _) as [[|r l]|e]; cbn [rbind rmap]; [|..|done].
  - destruct (ll_left_join spec); [by rewrite fmap_app, Hf|done].
  - rewrite fmap_app. f_equal. f_equal.
    rewrite (list_fmap_ext _ (λ inner_row, f <$> [extend_row (prefix_row outer_row (ll_outer_alias spec))
      (prefix_row inner_row (ll_lateral_alias spec))])) by (intros; apply Hf).
    apply project_concat.
Qed.

Lemma loop_entries (outer_rows : res (list Row)) (spec : LateralLoopSpec) :
  ll_inner_filters spec = [] →
  execute_lateral_loop_sql outer_rows (scan_collection (ll_inner_collection spec)) spec =
  execute_lateral_loop outer_rows spec.
Proof.
  intros Hnil. unfold execute_lateral_loop_sql, execute_lateral_loop. rewrite Hnil. cbn [decode_filters].
  destruct outer_rows as [rows|e]; cbn [rbind]; [|done]. destruct (over_cap _ rows); [done|].
  destruct (apply_projection_map (ll_projection spec)) as [f Hf].
  pose proof (rfold_project f (loop_row spec []) (loop_row_sql (scan_collection (ll_inner_collection spec)) spec)
    rows [] (λ out r, loop_body f spec out r Hf)) as Hr. cbn [fmap list_fmap] in Hr. rewrite Hr.
  destruct (rfold (loop_row spec []) [] rows); cbn [rbind rmap]; [by rewrite Hf|done].
Qed.

(** Lateral joins return the same table from a SQL plan and from a physical plan.
    The SQL entry point projects each row as it is emitted, and its top-K always sorts;
    the physical one projects at the end, and sorts only when there is an order.  The
    loop's inner plan is here the scan of the inner collection without a filter. *)
Theorem lateral_entries_agree (outer_rows : res (list Row)) (top_k : LateralTopKSpec) (loop : LateralLoopSpec) :
  ll_inner_filters loop = [] →
  execute_lateral_top_k_sql outer_rows top_k = execute_lateral_top_k outer_rows top_k ∧
  execute_lateral_loop_sql outer_rows (scan_collection (ll_inner_collection loop)) loop =
    execute_lateral_loop outer_rows loop.
Proof. intros Hnil. split; [apply top_k_entries|by apply loop_entries]. Qed.
End lateral.
