(* ===== verification/Recursive.v ===== *)
(** * Recursive queries

    [WITH RECURSIVE] over a collection, a fixed point reached by joining the collection
    with the rows of the last round ([src/nodedb-lite/src/query/query_ops/recursive_scan.rs]),
    and over values, an iteration of expressions ([recursive_value.rs]). *)

From Stdlib Require Import ZArith Lia Strings.Byte.
From stdpp Require Import prelude gmap strings sorting.
From S2P Require Import Prelude Bytes Ordered Text F64 StorageTrait QueryValue Joins JoinSpec Aggregate.

Local Open Scope Z_scope.

(** [.join(";")]. *)
Fixpoint join_semi (l : list bytes) : bytes :=
  match l with
  | [] => []
  | [s] => s
  | s :: l => s ++ x3b :: join_semi l
  end.

Section scan.
Context {Other F : Type} `{ValueText Other} `{Filters Other F}.
Notation Value := (QValue Other).
Notation Row := (gmap bytes Value).

Definition value_key (v : Value) : bytes :=
  match v with
  | QNull => bs "null"
  | QBool b => bs "b:" ++ fmt_bool b
  | QInteger n => bs "i:" ++ fmt_int n
  | QFloat f => bs "f:" ++ fmt_f64 f
  | QString s => bs "s:" ++ s
  | QUuid s | QUlid s => bs "id:" ++ s
  | QBytes b => bs "by:" ++ fmt_len b
  | QArray a | QSet a => bs "a:" ++ fmt_len a
  | QObject m => bs "o:" ++ fmt_len m
  | _ => bs "other"
  end.

(** [pairs.sort_by_key(|(k, _)| k)] of the entries of a row. *)
Definition pair_le (a b : bytes * Value) : Prop := bytes_le a.1 b.1.
#[export] Instance pair_le_dec : RelDecision pair_le.
Proof. intros a b. unfold pair_le. apply _. Defined.

Definition row_key (row : Row) : bytes :=
  join_semi ((λ p : bytes * Value, p.1 ++ x3d :: value_key p.2) <$> stable_sort pair_le (map_to_list row)).

(** Accumulated rows and the keys seen. *)
Record Acc := mkAcc { ac_rows : list Row; ac_seen : gset bytes }.

Fixpoint append_rows (dedup : bool) (cap : Z) (rows : list Row) (acc : Acc) (new_working : list Row)
    : Acc * list Row :=
  match rows with
  | [] => (acc, new_working)
  | row :: rest =>
      if cap <=? Z.of_nat (length (ac_rows acc)) then (acc, new_working)
      else if dedup && bool_decide (row_key row ∈ ac_seen acc)
      then append_rows dedup cap rest acc new_working
      else append_rows dedup cap rest
             (mkAcc (ac_rows acc ++ [row])
                    (if dedup then {[row_key row]} ∪ ac_seen acc else ac_seen acc))
             (new_working ++ [row])
  end.

(** The candidates that link to a row of the working set. *)
Definition next_rows (join_link : option (bytes * bytes)) (candidates working_set : list Row) : list Row :=
  match join_link with
  | Some (coll_field, working_field) =>
      let working_vals : gset bytes := list_to_set ((λ r, value_key (get_or_null r working_field)) <$> working_set) in
      filter (λ row, value_key (get_or_null row coll_field) ∈ working_vals) candidates
  | None => candidates
  end.

Fixpoint recursive_loop (fuel : nat) (full : list Row) (rec_parsed : list F)
    (join_link : option (bytes * bytes)) (dedup : bool) (cap : Z) (acc : Acc) (working_set : list Row) : res Acc :=
  match fuel with
  | O => Ok acc
  | S fuel =>
      match working_set with
      | [] => Ok acc
      | _ =>
          if cap <=? Z.of_nat (length (ac_rows acc)) then Ok acc
          else
            let? candidates := apply_filters full rec_parsed in
            let '(acc, working_set) :=
              append_rows dedup cap (next_rows join_link candidates working_set) acc [] in
            recursive_loop fuel full rec_parsed join_link dedup cap acc working_set
      end
  end.

Record RecursiveScanSpec := mkRecursiveScanSpec {
  rs_collection : bytes;
  rs_base_filters : bytes;
  rs_recursive_filters : bytes;
  rs_join_link : option (bytes * bytes);
  rs_max_iterations : Z;
  rs_distinct : bool;
  rs_limit : Z
}.

Definition max_iter (spec : RecursiveScanSpec) : Z :=
  if rs_max_iterations spec =? 0 then 100 else rs_max_iterations spec.

(** The rows [execute_recursive_scan] accumulates. *)
Definition recursive_rows (scan_collection : bytes → res (list Row)) (spec : RecursiveScanSpec) : res (list Row) :=
  let? base_parsed := decode_filters (F:=F) (rs_base_filters spec) in
  let? rec_parsed := decode_filters (F:=F) (rs_recursive_filters spec) in
  let? full := scan_collection (rs_collection spec) in
  let? anchor := apply_filters full base_parsed in
  let cap := effective_limit (rs_limit spec) in
  let '(acc, working_set) := append_rows (rs_distinct spec) cap anchor (mkAcc [] ∅) [] in
  let? acc := recursive_loop (Z.to_nat (max_iter spec)) full rec_parsed (rs_join_link spec)
                (rs_distinct spec) cap acc working_set in
  Ok (ac_rows acc).

Definition execute_recursive_scan (scan_collection : bytes → res (list Row)) (spec : RecursiveScanSpec)
    : res (Table Other) :=
  let? rows := recursive_rows scan_collection spec in Ok (maps_to_result rows).
End scan.

(** ** Values *)

Section value.
Context {Other Expr Key : Type} `{ValueText Other} `{AggOps Other Expr Key}.
Context (parse_generated_expr : bytes → option Expr) (is_truthy : QValue Other → bool)
  (debug_fmt : QValue Other → bytes).
Notation Value := (QValue Other).
Notation Row := (gmap bytes Value).

Definition parse_expr_text (text : bytes) : res Expr := ok_or (parse_generated_expr text) Storage.

Definition eval_exprs (exprs : list Expr) (doc : Row) (columns : list bytes) : res Row :=
  rfold (λ (m : Row) (p : bytes * Expr),
           let? v := rmap_err eval_to_lite (expr_eval p.2 doc) in Ok (<[p.1 := v]> m)) ∅ (zip columns exprs).

Definition row_dedup_key (row : Row) : bytes :=
  join_semi ((λ p : bytes * Value, p.1 ++ x3d :: debug_fmt p.2) <$> stable_sort pair_le (map_to_list row)).

Definition maybe_push (acc : Acc (Other:=Other)) (row : Row) (dedup : bool) : Acc :=
  if dedup then
    if bool_decide (row_dedup_key row ∈ ac_seen acc) then acc
    else mkAcc (ac_rows acc ++ [row]) ({[row_dedup_key row]} ∪ ac_seen acc)
  else mkAcc (ac_rows acc ++ [row]) (ac_seen acc).

(** [fuel] counts the iterations left before [max_depth] is exceeded. *)
Fixpoint value_loop (fuel : nat) (columns : list bytes) (step : list Expr) (cond : option Expr) (dedup : bool)
    (acc : Acc) (current_row : Row) : res Acc :=
  match fuel with
  | O => Err Storage
  | S fuel =>
      let? go := match cond with
                 | Some c => rmap is_truthy (rmap_err eval_to_lite (expr_eval c current_row))
                 | None => Ok (match ac_rows acc with [] => true | _ => false end)
                 end in
      if negb go then Ok acc
      else
        let? next_row := eval_exprs step current_row columns in
        if dedup && bool_decide (row_dedup_key next_row ∈ ac_seen acc) then Ok acc
        else value_loop fuel columns step cond dedup (maybe_push acc next_row dedup) next_row
  end.

Definition effective_max (max_depth : Z) : Z := if max_depth =? 0 then 100 else max_depth.

Definition recursive_value_rows (columns init_exprs step_exprs : list bytes) (condition : option bytes)
    (max_depth : Z) (dedup : bool) : res (list Row) :=
  if negb (bool_decide (length columns = length init_exprs)) || negb (bool_decide (length columns = length step_exprs))
  then Err Storage
  else
    let? init := rmapM parse_expr_text init_exprs in
    let? step := rmapM parse_expr_text step_exprs in
    let? cond := match condition with Some c => rmap Some (parse_expr_text c) | None => Ok None end in
    let? anchor_row := eval_exprs init ∅ columns in
    let acc := maybe_push (mkAcc [] ∅) anchor_row dedup in
    let? acc := value_loop (Z.to_nat (effective_max max_depth)) columns step cond dedup acc anchor_row in
    Ok (ac_rows acc).

Definition execute_recursive_value (columns init_exprs step_exprs : list bytes) (condition : option bytes)
    (max_depth : Z) (dedup : bool) : res (Table Other) :=
  let? rows := recursive_value_rows columns init_exprs step_exprs condition max_depth dedup in
  Ok (maps_to_result rows).
End value.
