(* ===== verification/RecursiveSpec.v ===== *)
(** * What a recursive query returns

    The distinct recursive scan returns the rows its links lead to from its anchor; the
    value recursion returns the iterates of its step until its condition fails. *)

From Stdlib Require Import ZArith Lia Strings.Byte.
From stdpp Require Import prelude gmap strings sorting.
From S2P Require Import Prelude Bytes Ordered Text F64 StorageTrait.
From S2P Require Import QueryValue Joins JoinSpec MergeJoin JoinCases Aggregate Recursive.

Local Open Scope Z_scope.

Section scan.
Context {Other F : Type} `{ValueText Other} `{Filters Other F}.
Notation Row := (gmap bytes (QValue Other)).

Lemma apply_filters_elem (rows kept : list Row) (fs : list F) (row : Row) :
  apply_filters rows fs = Ok kept → row ∈ kept → row ∈ rows.
Proof.
  unfold apply_filters. destruct fs as [|f fs]; [by intros [= ->]|].
  assert (∀ rows acc kept, rfold (λ kept row, let? m := all_match_value (f :: fs) row in
    Ok (if m : bool then kept ++ [row] else kept)) acc rows = Ok kept → row ∈ kept → row ∈ acc ∨ row ∈ rows) as Hgen.
  { clear. induction rows as [|r rows IH]; intros acc kept; cbn [rfold]; [intros [= ->]; auto|].
    destruct (all_match_value (f :: fs) r) as [m|e]; cbn [rbind]; [|done].
    intros Hr Hin. destruct (IH _ _ Hr Hin) as [Ha|Ha]; [|set_solver]. destruct m; set_solver. }
  intros Hr Hin. destruct (Hgen _ _ _ Hr Hin) as [Ha|Ha]; [set_solver|done].
Qed.

(** ** Reachability *)

Variables (full anchor candidates : list Row) (join_link : option (bytes * bytes)) (cap : Z).

(** [r'] is among the candidates and links to [r]: its column of the link has the value of
    the other column in [r]. *)
Definition links (r r' : Row) : Prop :=
  r' ∈ candidates ∧
  match join_link with
  | Some (coll_field, working_field) => value_key (get_or_null r' coll_field) = value_key (get_or_null r working_field)
  | None => True
  end.

(** Rows that a number of links lead to from the anchor, at most. *)
Inductive within : nat → Row → Prop :=
| within_anchor n r : r ∈ anchor → within n r
| within_link n r r' : within n r → links r r' → within (S n) r'.

Definition reachable (r : Row) : Prop := ∃ n, within n r.

Lemma within_mono (n m : nat) (r : Row) : within n r → (n ≤ m)%nat → within m r.
Proof.
  intros Hr. revert m. induction Hr as [n r Hin|n r r' _ IH Hl]; intros m Hle; [by apply within_anchor|].
  destruct m as [|m]; [lia|]. eapply within_link; [apply IH; lia|done].
Qed.

Lemma next_rows_elem (working : list Row) (r' : Row) :
  working ≠ [] → r' ∈ next_rows join_link candidates working ↔ ∃ r, r ∈ working ∧ links r r'.
Proof.
  intros Hne. unfold links, next_rows. destruct join_link as [[cf wf]|].
  - rewrite list_elem_of_filter, elem_of_list_to_set, list_elem_of_fmap. naive_solver.
  - split; [|naive_solver]. destruct working as [|r working]; [done|]. exists r. set_solver.
Qed.

(** ** The accumulator *)

Hypothesis anchor_full : ∀ r, r ∈ anchor → r ∈ full.
Hypothesis candidates_full : ∀ r, r ∈ candidates → r ∈ full.
Hypothesis keys_inj : ∀ r r', r ∈ full → r' ∈ full → row_key r = row_key r' → r = r'.

Definition acc_ok (acc : Acc) : Prop :=
  NoDup (ac_rows acc) ∧ (∀ r, r ∈ ac_rows acc → r ∈ full) ∧
  (∀ r, r ∈ full → row_key r ∈ ac_seen acc ↔ r ∈ ac_rows acc).

Lemma acc_ok_bound (acc : Acc) : acc_ok acc → Z.of_nat (length (ac_rows acc)) ≤ Z.of_nat (length full).
Proof. intros (Hnd & Hsub & _). apply Nat2Z.inj_le. apply NoDup_incl_length; [by apply NoDup_ListNoDup|].
  intros r. rewrite <-!list_elem_of_In. apply Hsub. Qed.

Definition open (acc : Acc (Other:=Other)) : Prop := Z.of_nat (length (ac_rows acc)) < cap.

(** A round adds new rows of the list, each once, and all of them unless the limit stops it. *)
Lemma append_rows_spec (rows : list Row) (acc : Acc) (working : list Row) :
  (∀ r, r ∈ rows → r ∈ full) → acc_ok acc → Z.of_nat (length (ac_rows acc)) ≤ cap →
  let '(acc', working') := append_rows true cap rows acc working in
  acc_ok acc' ∧ Z.of_nat (length (ac_rows acc')) ≤ cap ∧
  ∃ added, working' = working ++ added ∧ ac_rows acc' = ac_rows acc ++ added ∧
    (∀ r, r ∈ added → r ∈ rows) ∧ (open acc' → ∀ r, r ∈ rows → r ∈ ac_rows acc').
Proof.
  revert acc working. induction rows as [|row rows IH]; intros acc working Hf Hok Hcap; cbn [append_rows].
  { split; [done|]. split; [done|]. exists []. rewrite !app_nil_r. split_and!; set_solver. }
  destruct (Z.leb_spec cap (Z.of_nat (length (ac_rows acc)))) as [Hfull|Hopen].
  { split; [done|]. split; [done|]. exists []. rewrite !app_nil_r. split_and!; [done..|set_solver|]. unfold open. lia. }
  pose proof Hok as (Hnd & Hsub & Hseen). cbn [andb].
  assert (row ∈ full) as Hrow by (apply Hf; set_solver). pose proof (Hseen row Hrow) as Hs.
  destruct (bool_decide_reflect (row_key row ∈ ac_seen acc)) as [Hin|Hout].
  - specialize (IH acc working ltac:(set_solver) Hok Hcap).
    destruct (append_rows true cap rows acc working) as [acc' working'].
    destruct IH as (Hok' & Hle & added & -> & Hr & Hadd & Hall). split; [done|]. split; [done|]. exists added.
    split_and!; [done..|set_solver|]. intros Ho r [->|Hin']%elem_of_cons; [|by apply Hall]. rewrite Hr. set_solver.
  - assert (row ∉ ac_rows acc) as Hnew by naive_solver.
    assert (acc_ok (mkAcc (ac_rows acc ++ [row]) ({[row_key row]} ∪ ac_seen acc))) as Hok'.
    { split_and!; simpl.
      - apply NoDup_app. split_and!; [done| |apply NoDup_singleton]. set_solver.
      - set_solver.
      - intros r Hr. rewrite elem_of_union, elem_of_singleton, elem_of_app, list_elem_of_singleton, (Hseen r Hr).
        split; [intros [Hk|]; [right; by apply keys_inj|by left]|intros [| ->]; auto]. }
    specialize (IH _ (working ++ [row]) ltac:(set_solver) Hok'). cbn [ac_rows] in IH. rewrite length_app in IH.
    specialize (IH ltac:(simpl; lia)).
    destruct (append_rows true cap rows _ (working ++ [row])) as [acc' working'].
    destruct IH as (Hok2 & Hle & added & -> & Hr & Hadd & Hall). split; [done|]. split; [done|]. exists (row :: added).
    split_and!; [by rewrite <-app_assoc|by rewrite Hr, <-app_assoc|set_solver|].
    intros Ho r [->|Hin']%elem_of_cons; [|by apply Hall]. rewrite Hr. set_solver.
Qed.

(** ** The fixed point *)

(** After [n] rounds the accumulated rows are within [n] links; unless the limit stopped
    them they are all of those, and closed but for the working set. *)
Definition round_ok (n : nat) (acc : Acc) (working : list Row) : Prop :=
  acc_ok acc ∧ Z.of_nat (length (ac_rows acc)) ≤ cap ∧
  (∀ r, r ∈ working → r ∈ ac_rows acc) ∧ (∀ r, r ∈ ac_rows acc → within n r) ∧
  (open acc → (∀ r, within n r → r ∈ ac_rows acc) ∧
     ∀ r r', r ∈ ac_rows acc → r ∉ working → links r r' → r' ∈ ac_rows acc).

Lemma links_full (r r' : Row) : links r r' → r' ∈ full.
Proof. intros [Hl _]. by apply candidates_full. Qed.

Lemma elem_or_not (l : list Row) (r : Row) :
  (∀ x, x ∈ l → x ∈ full) → r ∈ full → r ∈ l ∨ r ∉ l.
Proof.
  intros Hl Hr. destruct (decide (row_key r ∈ row_key <$> l)) as [Hin|Hout].
  - left. apply list_elem_of_fmap in Hin as (x & Hk & Hx). by rewrite (keys_inj r x) by auto.
  - right. intros Hin. apply Hout. by apply list_elem_of_fmap_2.
Qed.

Lemma round_step (n : nat) (acc : Acc) (working : list Row) :
  working ≠ [] → round_ok n acc working →
  let '(acc', working') := append_rows true cap (next_rows join_link candidates working) acc [] in
  round_ok (S n) acc' working' ∧ length (ac_rows acc') = (length (ac_rows acc) + length working')%nat.
Proof.
  intros Hne (Hok & Hle & Hw & Hr & Hc).
  pose proof (append_rows_spec (next_rows join_link candidates working) acc []) as Hap.
  destruct (append_rows true cap _ acc []) as [acc' working'].
  destruct Hap as (Hok' & Hle' & added & -> & Hrows & Hadd & Hall); [|done|done|].
  { intros r Hin. apply next_rows_elem in Hin as (r0 & _ & Hl); [|done]. by eapply links_full. }
  cbn [app]. split; [|by rewrite Hrows, length_app].
  assert (open acc' → ∀ r r', r ∈ ac_rows acc → links r r' → r' ∈ ac_rows acc') as Hnext.
  { intros Ho r r' Hin Hl. assert (open acc) as Ho' by (unfold open in *; rewrite Hrows, length_app in Ho; lia).
    destruct (elem_or_not working r) as [Hyes|Hno]; [intros x Hx; by apply Hok, Hw|by apply Hok| |].
    - apply Hall; [done|]. apply next_rows_elem; eauto.
    - rewrite Hrows. apply elem_of_app. left. by apply (proj2 (Hc Ho') r). }
  split_and!; [done|done|rewrite Hrows; set_solver| |].
  - intros r. rewrite Hrows. intros [Hin|Hin]%elem_of_app; [by eapply within_mono; [apply Hr|lia]|].
    apply Hadd, next_rows_elem in Hin as (r0 & Hr0 & Hl); [|done]. eapply within_link; [apply Hr, Hw, Hr0|done].
  - intros Ho. assert (open acc) as Ho' by (unfold open in *; rewrite Hrows, length_app in Ho; lia). split.
    + intros r Hin. inversion Hin as [? ? Ha|? r0 ? H0' Hl]; subst.
      * rewrite Hrows. apply elem_of_app. left. by apply (proj1 (Hc Ho')), within_anchor.
      * apply (Hnext Ho r0); [by apply (proj1 (Hc Ho'))|done].
    + intros r r' Hin Hnot Hl. rewrite Hrows in Hin. apply elem_of_app in Hin as [Hin|Hin]; [by apply (Hnext Ho r)|done].
Qed.

(** With the working set empty and room left, the accumulated rows are the reachable ones. *)
Lemma fixed_point (n : nat) (acc : Acc) : round_ok n acc [] → open acc → ∀ r, reachable r → r ∈ ac_rows acc.
Proof.
  intros (_ & _ & _ & _ & Hc) Ho r [m Hr]. destruct (Hc Ho) as [Ha Hcl].
  induction Hr as [m r Hin|m r r' _ IH Hl]; [by apply Ha, within_anchor|]. apply (Hcl r r'); [done|set_solver|done].
Qed.

Definition scan_ok (n : nat) (acc : Acc) : Prop :=
  NoDup (ac_rows acc) ∧ Z.of_nat (length (ac_rows acc)) ≤ cap ∧ (∀ r, r ∈ ac_rows acc → within n r) ∧
  (open acc → ∀ r, within n r → r ∈ ac_rows acc).

Lemma recursive_loop_spec (fs : list F) (fuel n : nat) (acc : Acc) (working : list Row) :
  apply_filters full fs = Ok candidates → round_ok n acc working →
  ∃ acc', recursive_loop fuel full fs join_link true cap acc working = Ok acc' ∧ scan_ok (n + fuel) acc' ∧
    ((working = [] ∨ length full + 1 ≤ fuel + length (ac_rows acc))%nat → open acc' → ∀ r, reachable r → r ∈ ac_rows acc').
Proof.
  intros Hfs. revert n acc working. induction fuel as [|fuel IH]; intros n acc working Hok; cbn [recursive_loop].
  { exists acc. rewrite Nat.add_0_r. pose proof Hok as (Ha & Hle & _ & Hr & Hc). split; [done|]. split.
    - split_and!; [apply Ha|done|done|]. intros Ho. by apply Hc.
    - intros [->|Hfuel]; [by apply (fixed_point n)|]. pose proof (acc_ok_bound acc Ha). lia. }
  pose proof Hok as (Ha & Hle & _ & Hr & Hc). destruct working as [|w working].
  { exists acc. split; [done|]. pose proof (fixed_point n acc Hok) as Hfix. split; [|by intros _ Ho; apply Hfix].
    split_and!; [apply Ha|done| |].
    - intros r Hin. eapply within_mono; [by apply Hr|lia].
    - intros Ho r Hin. apply Hfix; [done|]. by eexists. }
  destruct (Z.leb_spec cap (Z.of_nat (length (ac_rows acc)))) as [Hfull|Hopen].
  { exists acc. split; [done|]. split; [|unfold open; lia]. split_and!; [apply Ha|done| |unfold open; lia].
    intros r Hin. eapply within_mono; [by apply Hr|lia]. }
  rewrite Hfs. cbn [rbind]. pose proof (round_step n acc (w :: working) ltac:(done) Hok) as Hstep.
  destruct (append_rows true cap _ acc []) as [acc1 working1]. destruct Hstep as [Hok1 Hlen].
  destruct (IH (S n) acc1 working1 Hok1) as (acc' & -> & Hs & Hreach). exists acc'.
  replace (n + S fuel)%nat with (S n + fuel)%nat by lia. split; [done|]. split; [done|].
  intros [|Hfuel]; [done|]. apply Hreach. destruct working1; [by left|right]. simpl in Hlen. lia.
Qed.

Lemma anchor_round : 0 ≤ cap →
  let '(acc, working) := append_rows true cap anchor (mkAcc [] ∅) [] in
  round_ok 0 acc working ∧ ac_rows acc = working.
Proof.
  intros Hcap. pose proof (append_rows_spec anchor (mkAcc [] ∅) []) as Hap.
  destruct (append_rows true cap anchor (mkAcc [] ∅) []) as [acc working].
  destruct Hap as (Hok & Hle & added & -> & Hr & Hadd & Hall); [done| |done|].
  { split_and!; simpl; [constructor|set_solver|set_solver]. }
  simpl in *. split; [|done]. split_and!; [done|done|by rewrite Hr| |].
  - rewrite Hr. intros r Hin. by apply within_anchor, Hadd.
  - intros Ho. split; [|by rewrite Hr].
    intros r Hin. inversion Hin; subst. by apply Hall.
Qed.
End scan.

(** C14: a distinct recursive scan returns the rows its links lead to.  When the filters
    evaluate and different rows of the collection have different deduplication keys, the
    scan returns rows that at most [max_iter] links lead to from the anchor, each once and
    no more than the limit; when it returns fewer than the limit it returns all of them,
    which is the whole transitive closure when the collection has no more rows than the
    iterations allowed. *)
Theorem recursive_scan_closure {Other F : Type} `{ValueText Other} `{Filters Other F}
    (scan_collection : bytes → res (list (gmap bytes (QValue Other)))) (spec : RecursiveScanSpec)
    (base_parsed rec_parsed : list F) (full anchor candidates : list (gmap bytes (QValue Other))) :
  rs_distinct spec = true → 0 ≤ rs_limit spec → 0 ≤ rs_max_iterations spec →
  decode_filters (Other:=Other) (rs_base_filters spec) = Ok base_parsed →
  decode_filters (Other:=Other) (rs_recursive_filters spec) = Ok rec_parsed →
  scan_collection (rs_collection spec) = Ok full →
  apply_filters full base_parsed = Ok anchor → apply_filters full rec_parsed = Ok candidates →
  (∀ r r', r ∈ full → r' ∈ full → row_key r = row_key r' → r = r') →
  let limit := if rs_limit spec =? 0 then u64_max else rs_limit spec in
  let rounds := if rs_max_iterations spec =? 0 then 100%nat else Z.to_nat (rs_max_iterations spec) in
  ∃ rows, recursive_rows (F:=F) scan_collection spec = Ok rows ∧ NoDup rows ∧ Z.of_nat (length rows) ≤ limit ∧
    (∀ r, r ∈ rows → within anchor candidates (rs_join_link spec) rounds r) ∧
    (Z.of_nat (length rows) < limit →
       (∀ r, within anchor candidates (rs_join_link spec) rounds r → r ∈ rows) ∧
       ((length full ≤ rounds)%nat → ∀ r, reachable anchor candidates (rs_join_link spec) r → r ∈ rows)).
Proof.
  intros Hd Hlim Hmax Hb Hr Hs Ha Hc Hinj limit rounds. unfold recursive_rows. rewrite Hb, Hr, Hs. cbn [rbind]. rewrite Ha.
  cbn [rbind]. rewrite Hd. pose proof (λ r, apply_filters_elem full anchor base_parsed r Ha) as Hanc.
  pose proof (λ r, apply_filters_elem full candidates rec_parsed r Hc) as Hcand.
  assert (effective_limit (rs_limit spec) = limit) as -> by done.
  assert (0 ≤ limit) as H0l by (unfold limit; destruct (Z.eqb_spec (rs_limit spec) 0); [done|lia]).
  assert (Z.to_nat (max_iter spec) = rounds) as -> by (unfold max_iter, rounds; by destruct (rs_max_iterations spec =? 0)).
  pose proof (anchor_round full anchor candidates (rs_join_link spec) limit Hanc Hcand Hinj H0l) as Hround.
  destruct (append_rows true _ anchor (mkAcc [] ∅) []) as [acc working]. destruct Hround as [Hok Hrows].
  destruct (recursive_loop_spec full anchor candidates (rs_join_link spec) limit
    Hanc Hcand Hinj rec_parsed rounds 0 acc working Hc Hok) as (acc' & -> & (Hnd & Hle & Hw & Hall) & Hreach).
  exists (ac_rows acc'). cbn [rbind]. split_and!; [done..|]. intros Hopen. split; [by apply Hall|].
  intros Hlen. apply Hreach; [|done]. destruct working as [|w working]; [by left|right]. rewrite Hrows. simpl. lia.
Qed.

(** ** Values *)

Section value.
Context {Other Expr Key : Type} `{ValueText Other} `{AggOps Other Expr Key}.
Context (is_truthy : QValue Other → bool) (debug_fmt : QValue Other → bytes).
Notation Row := (gmap bytes (QValue Other)).

Variables (columns : list bytes) (step : list Expr) (cond : option Expr) (dedup : bool).

(** Whether the condition asks for another row after [r]; without one there is no other. *)
Definition goes_on (r : Row) : res bool :=
  match cond with
  | Some c => rmap is_truthy (rmap_err eval_to_lite (expr_eval (Key:=Key) c r))
  | None => Ok false
  end.

Definition next_row (r : Row) : res Row := eval_exprs (Key:=Key) step r columns.

(** Each row is the step of the one before, on which the condition holds. *)
Fixpoint iterates (r : Row) (l : list Row) : Prop :=
  match l with
  | [] => True
  | x :: l => goes_on r = Ok true ∧ next_row r = Ok x ∧ iterates x l
  end.

Notation key := (row_dedup_key debug_fmt).

(** How the recursion ends, with the rows [rows], the last of which is [z]. *)
Inductive ends (rows : list Row) (z : Row) : res (list Row) → Prop :=
| ends_condition : goes_on z = Ok false → ends rows z (Ok rows)
| ends_condition_error e : goes_on z = Err e → ends rows z (Err e)
| ends_step_error e : goes_on z = Ok true → next_row z = Err e → ends rows z (Err e)
| ends_repeat x : dedup = true → goes_on z = Ok true → next_row z = Ok x → key x ∈ key <$> rows → ends rows z (Ok rows).

Definition value_outcome (fuel : nat) (rows l : list Row) (z : Row) (r : res (list Row)) : Prop :=
  (length l < fuel)%nat ∧ ends rows z r ∨ length l = fuel ∧ r = Err Storage.

Definition seen_ok (acc : Acc (Other:=Other)) : Prop :=
  dedup = true → NoDup (key <$> ac_rows acc) ∧ ac_seen acc = list_to_set (key <$> ac_rows acc).

Lemma maybe_push_ok (acc : Acc) (x : Row) :
  seen_ok acc → (dedup && bool_decide (key x ∈ ac_seen acc)) = false →
  seen_ok (maybe_push debug_fmt acc x dedup) ∧ ac_rows (maybe_push debug_fmt acc x dedup) = ac_rows acc ++ [x].
Proof.
  unfold seen_ok, maybe_push. destruct dedup; [|done]. cbn [andb]. intros Hs Hx. destruct (Hs eq_refl) as [Hnd Hseen].
  rewrite Hx. apply bool_decide_eq_false in Hx. rewrite Hseen, elem_of_list_to_set in Hx. split; [|done]. intros _. cbn.
  rewrite fmap_app. split.
  - apply NoDup_app. split_and!; [done|set_solver|apply NoDup_singleton].
  - rewrite Hseen, list_to_set_app_L. set_solver.
Qed.

Lemma value_loop_spec (fuel : nat) (acc : Acc) (r : Row) :
  ac_rows acc ≠ [] → seen_ok acc →
  ∃ l, iterates r l ∧ (dedup = true → NoDup (key <$> ac_rows acc ++ l)) ∧
    value_outcome fuel (ac_rows acc ++ l) l (default r (last l))
      (rmap ac_rows (value_loop (Key:=Key) is_truthy debug_fmt fuel columns step cond dedup acc r)).
Proof.
  revert acc r. induction fuel as [|fuel IH]; intros acc r Hne Hs.
  { exists []. rewrite app_nil_r. split; [done|]. split; [intros; by apply Hs|]. by right. }
  cbn [value_loop]. assert (∀ res, ends (ac_rows acc) r res → ∃ l, iterates r l ∧ (dedup = true → NoDup (key <$> ac_rows acc ++ l)) ∧
    value_outcome (S fuel) (ac_rows acc ++ l) l (default r (last l)) res) as Hend.
  { intros res Hres. exists []. rewrite app_nil_r. split; [done|]. split; [intros; by apply Hs|]. left. split; [simpl; lia|done]. }
  assert (match cond with
          | Some c => rmap is_truthy (rmap_err eval_to_lite (expr_eval (Key:=Key) c r))
          | None => Ok (match ac_rows acc with [] => true | _ => false end)
          end = goes_on r) as -> by (unfold goes_on; destruct cond; [done|by destruct (ac_rows acc)]).
  destruct (goes_on r) as [[]|e] eqn:Hgo; cbn [rbind negb rmap]; [|by apply Hend, ends_condition|by apply Hend, ends_condition_error].
  fold (next_row r). destruct (next_row r) as [x|e] eqn:Hx; cbn [rbind rmap]; [|by apply Hend, ends_step_error].
  destruct (dedup && bool_decide (key x ∈ ac_seen acc)) eqn:Hdup; cbn [rmap].
  { apply andb_true_iff in Hdup as [Hd Hin%bool_decide_eq_true]. apply Hend, (ends_repeat _ _ x); [done..|].
    rewrite (proj2 (Hs Hd)) in Hin. by apply elem_of_list_to_set in Hin. }
  destruct (maybe_push_ok acc x Hs Hdup) as [Hs' Hrows].
  destruct (IH (maybe_push debug_fmt acc x dedup) x) as (l & Hit & Hnd & Hout); [rewrite Hrows; by destruct (ac_rows acc)|done|].
  rewrite Hrows, <-app_assoc in Hnd, Hout. exists (x :: l). split; [done|]. split; [done|].
  assert (default r (last (x :: l)) = default x (last l)) as -> by (by rewrite last_cons; destruct (last l)).
  destruct Hout as [[Hlt He]|[Hlen He]]; [left; split; [simpl; lia|done]|right; split; [simpl; lia|done]].
Qed.
End value.

(** C38: a value recursion whose expressions parse and whose first row evaluates returns
    the iterates of its step.  There are rows, each the step of the one before on which the
    condition holds, without repetition under DISTINCT, such that: the recursion returns
    them and the first row when the condition is false on the last (or absent), or when
    under DISTINCT the step of the last repeats a row; it is the error of the condition or
    of the step on the last row; or they are as many as the depth allows, 100 by default,
    and it is an error. *)
Theorem recursive_value_iterates {Other Expr Key : Type} `{ValueText Other} `{AggOps Other Expr Key}
    (parse_generated_expr : bytes → option Expr) (is_truthy : QValue Other → bool) (debug_fmt : QValue Other → bytes)
    (columns init_exprs step_exprs : list bytes) (condition : option bytes) (init step : list Expr) (cond : option Expr)
    (first : gmap bytes (QValue Other)) (max_depth : Z) (dedup : bool) :
  length columns = length init_exprs → length columns = length step_exprs →
  rmapM (parse_expr_text parse_generated_expr) init_exprs = Ok init →
  rmapM (parse_expr_text parse_generated_expr) step_exprs = Ok step →
  match condition with Some c => rmap Some (parse_expr_text parse_generated_expr c) | None => Ok None end = Ok cond →
  eval_exprs (Key:=Key) init ∅ columns = Ok first →
  ∃ rows, iterates (Key:=Key) is_truthy columns step cond first rows ∧
    (dedup = true → NoDup (row_dedup_key debug_fmt <$> first :: rows)) ∧
    value_outcome (Key:=Key) is_truthy debug_fmt columns step cond dedup
      (if max_depth =? 0 then 100%nat else Z.to_nat max_depth) (first :: rows) rows (default first (last rows))
      (recursive_value_rows (Key:=Key) parse_generated_expr is_truthy debug_fmt columns init_exprs step_exprs
         condition max_depth dedup).
Proof.
  intros Hl1 Hl2 Hi Hs Hc Ha. unfold recursive_value_rows.
  rewrite !bool_decide_true by done. cbn [negb orb]. rewrite Hi, Hs, Hc. cbn [rbind]. rewrite Ha. cbn [rbind].
  set (acc := maybe_push debug_fmt (mkAcc [] ∅) first dedup).
  assert (seen_ok debug_fmt dedup acc ∧ ac_rows acc = [first]) as [Hseen Hrows].
  { apply (maybe_push_ok debug_fmt dedup (mkAcc [] ∅)); [intros _; split; [constructor|done]|].
    destruct dedup; [|done]. by rewrite bool_decide_false by set_solver. }
  assert (Z.to_nat (effective_max max_depth) = if max_depth =? 0 then 100%nat else Z.to_nat max_depth) as ->
    by (unfold effective_max; by destruct (max_depth =? 0)).
  destruct (value_loop_spec (Key:=Key) is_truthy debug_fmt columns step cond dedup
    (if max_depth =? 0 then 100%nat else Z.to_nat max_depth) acc first) as (l & Hit & Hnd & Hout); [by rewrite Hrows|done|].
  rewrite Hrows in Hnd, Hout. by exists l.
Qed.
