(* ===== verification/RecursiveCases.v ===== *)
(** * Recursive and lateral queries on concrete rows

    The theorems of [RecursiveSpec.v] at a tree of rows and at a counter, and that of
    [Lateral.v] at the same tree. *)

From Stdlib Require Import ZArith Lia Strings.Byte.
From stdpp Require Import prelude gmap strings sorting.
From S2P Require Import Prelude Bytes Ordered Text F64 StorageTrait QueryValue.
From S2P Require Import Joins JoinSpec MergeJoin JoinCases Aggregate Lateral Recursive RecursiveSpec.

Local Open Scope Z_scope.

(** ** A tree: the root, two children and a grandchild, and a row apart *)

Definition node (id parent : Z) : SRow := int_row (bs "id") id (bs "parent_id") parent.
Definition tree : list SRow := [node 1 0; node 2 1; node 3 1; node 4 2; node 9 8].

(** Filters that require a column to be an integer. *)
#[local] Instance eq_filters : Filters Empty_set (bytes * Z) := {
  filters_from_msgpack b := if bool_decide (b = bs "root") then Some [(bs "parent_id", 0)] else None;
  all_match_value fs row := Ok (forallb (λ f : bytes * Z, match get_or_null row f.1 with
                                                          | QInteger i => i =? f.2 | _ => false end) fs)
}.

Definition tree_spec : RecursiveScanSpec :=
  mkRecursiveScanSpec (bs "tree") (bs "root") [] (Some (bs "parent_id", bs "id")) 0 true 0.

Lemma keys_inj_nodup (rows : list SRow) :
  bool_decide (NoDup (row_key <$> rows)) = true →
  ∀ r r', r ∈ rows → r' ∈ rows → row_key r = row_key r' → r = r'.
Proof.
  intros Hnd%bool_decide_eq_true. induction rows as [|x rows IH]; intros r r' Hr Hr' Hk; [set_solver|].
  rewrite fmap_cons in Hnd. apply NoDup_cons in Hnd as [Hx Hnd].
  assert (∀ y, y ∈ rows → row_key x ≠ row_key y) as Hne
    by (intros y Hy He; apply Hx; rewrite He; by apply list_elem_of_fmap_2).
  apply elem_of_cons in Hr as [->|Hr], Hr' as [->|Hr']; [done| | |by apply IH].
  - by destruct (Hne r').
  - by destruct (Hne r).
Qed.

(** The scan from the root: the four nodes of its tree, level by level. *)
Lemma recursive_scan_closure_witness :
  recursive_rows (F:=bytes * Z) (λ _, Ok tree) tree_spec = Ok [node 1 0; node 2 1; node 3 1; node 4 2] ∧
  ∀ r, r ∈ [node 1 0; node 2 1; node 3 1; node 4 2] ↔ reachable [node 1 0] tree (Some (bs "parent_id", bs "id")) r.
Proof.
  assert (recursive_rows (F:=bytes * Z) (λ _, Ok tree) tree_spec = Ok [node 1 0; node 2 1; node 3 1; node 4 2]) as He
    by (vm_cast_no_check (eq_refl (A:=res (list SRow)) (Ok [node 1 0; node 2 1; node 3 1; node 4 2]))).
  split; [exact He|].
  destruct (recursive_scan_closure (λ _, Ok tree) tree_spec [(bs "parent_id", 0)] [] tree [node 1 0] tree)
    as (rows & Hrows & _ & _ & Hin & Hall).
  - reflexivity.
  - done.
  - done.
  - vm_compute. reflexivity.
  - reflexivity.
  - reflexivity.
  - vm_cast_no_check (eq_refl (A:=res (list SRow)) (Ok [node 1 0])).
  - reflexivity.
  - apply keys_inj_nodup. vm_compute. reflexivity.
  - rewrite He in Hrows. injection Hrows as <-. intros r. split; [intros Hr; eexists; by apply Hin|].
    apply Hall; [by compute|]. apply Nat.leb_le. by vm_compute.
Defined.

(** ** A counter: 1, 2, ... while [n < 4] *)

Inductive SExpr := EOne | ESucc | ELess (z : Z).

Definition n_of (row : SRow) : QValue Empty_set := get_or_null row (bs "n").

Definition eval_sample (e : SExpr) (row : SRow) : QValue Empty_set :=
  match e, n_of row with
  | EOne, _ => QInteger 1
  | ESucc, QInteger i => QInteger (i + 1)
  | ELess z, QInteger i => QBool (i <? z)
  | _, _ => QNull
  end.

#[local] Instance counter_ops : AggOps Empty_set SExpr unit := {
  expr_eval e row := Ok (eval_sample e row);
  ExactSum := unit;
  exact_new := tt;
  exact_add s _ := s;
  exact_sum _ := Ok QNull;
  exact_avg _ := Ok QNull;
  sum_input _ := None;
  min_i64 _ := 0;
  max_i64 _ := 0;
  min_f64 _ := 0;
  max_f64 _ := 0;
  stddev_population _ := None;
  as_str _ := None;
  parameterized_functions := [];
  as_column _ := None;
  order_nulls _ _ _ := None;
  direct _ c := c
}.

Definition parse_sample (text : bytes) : option SExpr :=
  if bool_decide (text = bs "1") then Some EOne
  else if bool_decide (text = bs "n + 1") then Some ESucc
  else if bool_decide (text = bs "n < 4") then Some (ELess 4) else None.

Definition truthy_sample (v : QValue Empty_set) : bool := match v with QBool b => b | _ => false end.

Definition counter_row (v : QValue Empty_set) : SRow := {[bs "n" := v]}.

Notation counter depth dedup :=
  (recursive_value_rows (Key:=unit) parse_sample truthy_sample (λ _, []) [bs "n"] [bs "1"] [bs "n + 1"]
     (Some (bs "n < 4")) depth dedup).

Lemma counter_runs :
  counter 50 false = Ok (counter_row ∘ QInteger <$> [1; 2; 3; 4]) ∧ counter 3 false = Err Storage.
Proof.
  split; [|vm_compute; reflexivity].
  vm_cast_no_check (eq_refl (A:=res (list SRow)) (Ok (counter_row ∘ QInteger <$> [1; 2; 3; 4]))).
Qed.

(** The counter from 1 to 4; with a depth of 3 the recursion is an error. *)
Lemma recursive_value_iterates_witness :
  (∃ rows, iterates (Key:=unit) truthy_sample [bs "n"] [ESucc] (Some (ELess 4)) (counter_row (QInteger 1)) rows ∧
     counter_row ∘ QInteger <$> [1; 2; 3; 4] = counter_row (QInteger 1) :: rows) ∧
  ∃ rows, iterates (Key:=unit) truthy_sample [bs "n"] [ESucc] (Some (ELess 4)) (counter_row (QInteger 1)) rows ∧
    length rows = 3%nat.
Proof.
  pose proof (λ depth, recursive_value_iterates (Key:=unit) parse_sample truthy_sample (λ _, []) [bs "n"] [bs "1"] [bs "n + 1"]
    (Some (bs "n < 4")) [EOne] [ESucc] (Some (ELess 4)) (counter_row (QInteger 1)) depth false
    ltac:(reflexivity) ltac:(reflexivity) ltac:(vm_compute; reflexivity) ltac:(vm_compute; reflexivity)
    ltac:(vm_compute; reflexivity) ltac:(reflexivity)) as Hrun. split.
  - destruct (Hrun 50) as (rows & Hit & _ & Hout). exists rows. split; [done|].
    rewrite (proj1 counter_runs) in Hout. destruct Hout as [[_ He]|[_ He]]; [|done]. by inversion He.
  - destruct (Hrun 3) as (rows & Hit & _ & Hout). exists rows. split; [done|].
    rewrite (proj2 counter_runs) in Hout. destruct Hout as [[_ He]|[Hl _]]; [|done].
    inversion He as [|e Hg|e _ Hs|]; [|by unfold next_row, eval_exprs in Hs; cbn in Hs].
    by unfold goes_on in Hg.
Defined.

(** ** Children of each node, in the lateral joins *)

Definition eq_sample (field : bytes) (v : QValue Empty_set) : bytes * Z :=
  (field, match v with QInteger i => i | _ => -1 end).

Definition children_top_k : LateralTopKSpec (Key:=unit) :=
  mkLateralTopKSpec (bs "p") (bs "tree") [] [] 1 [(bs "id", bs "parent_id")] (bs "c") [] true.
Definition children_loop : LateralLoopSpec :=
  mkLateralLoopSpec (bs "p") (bs "tree") [] [(bs "parent_id", bs "id")] (bs "c") [] false 10.

Lemma lateral_entries_agree_witness :
  (execute_lateral_top_k_sql (F:=bytes * Z) eq_sample (λ _, Ok tree) (Ok tree) children_top_k =
     execute_lateral_top_k (F:=bytes * Z) eq_sample (λ _, Ok tree) (Ok tree) children_top_k ∧
   execute_lateral_loop_sql (F:=bytes * Z) eq_sample (Ok tree) (Ok tree) children_loop =
     execute_lateral_loop (F:=bytes * Z) eq_sample (λ _, Ok tree) (Ok tree) children_loop) ∧
  rmap t_rows (execute_lateral_loop (F:=bytes * Z) eq_sample (λ _, Ok tree) (Ok tree) children_loop) =
    Ok [[QInteger 2; QInteger 1; QInteger 1; QInteger 0]; [QInteger 3; QInteger 1; QInteger 1; QInteger 0];
        [QInteger 4; QInteger 2; QInteger 2; QInteger 1]].
Proof.
  split; [|vm_compute; reflexivity].
  apply (lateral_entries_agree eq_sample (λ _, Ok tree) (Ok tree) children_top_k children_loop). reflexivity.
Defined.
