(* ===== verification/History.v ===== *)
(** * Versioned document history

    [src/nodedb-lite/src/engine/document/history/]: the bitemporal history of a
    document is one row per version, keyed by the collection, the document and the
    system time, and a pointer row that names the current version. *)

From Stdlib Require Import ZArith Lia Strings.Byte.
From stdpp Require Import prelude gmap strings sorting.
From S2P Require Import Prelude Bytes Ordered Text StorageTrait.

Local Open Scope Z_scope.

(** ** Keys *)

Definition format_sys_from (system_from_ms : Z) : bytes := fmt_dec20 system_from_ms.

Definition coll_prefix (collection : bytes) : bytes := collection ++ bs ":".
Definition coll_prefix_end (collection : bytes) : bytes := collection ++ bs ";".

Definition latest_version_key (collection doc_id : bytes) : bytes := collection ++ bs ":" ++ doc_id.

Definition doc_prefix (collection doc_id : bytes) : bytes := collection ++ bs ":" ++ doc_id ++ [x00].
Definition doc_prefix_end (collection doc_id : bytes) : bytes := collection ++ bs ":" ++ doc_id ++ [x01].

(** The key of a version, where the document has one. *)
Definition doc_key (collection doc_id : bytes) (system_from_ms : Z) : bytes :=
  collection ++ bs ":" ++ doc_id ++ [x00] ++ format_sys_from system_from_ms.

Definition versioned_doc_key (collection doc_id : bytes) (system_from_ms : Z) : res bytes :=
  if bool_decide (x00 ∈ doc_id) then Err BadRequest
  else Ok (doc_key collection doc_id system_from_ms).

Definition parse_sys_from (key : bytes) : option Z :=
  let* nul_pos := rposition (λ b, bool_decide (b = x00)) key in
  let* s := from_utf8 (drop (S nul_pos) key) in
  parse_i64 s.

(** ** Values *)

Definition HEADER_LEN : nat := 17.

Inductive VersionTag := Live | Tombstone | GdprErased.

#[global] Instance VersionTag_eq_dec : EqDecision VersionTag.
Proof. solve_decision. Defined.

Definition tag_byte (t : VersionTag) : byte :=
  match t with Live => x00 | Tombstone => xff | GdprErased => xfe end.

Definition tag_from_u8 (b : byte) : option VersionTag :=
  match b with
  | x00 => Some Live
  | xff => Some Tombstone
  | xfe => Some GdprErased
  | _ => None
  end.

Record DecodedVersion := mkVersion {
  dv_tag : VersionTag;
  dv_valid_from_ms : Z;
  dv_valid_until_ms : Z;
  dv_body : bytes
}.

Definition is_live (v : DecodedVersion) : bool := bool_decide (dv_tag v = Live).

Definition encode_value (tag : VersionTag) (valid_from_ms valid_until_ms : Z) (body : bytes) : bytes :=
  tag_byte tag :: i64_le valid_from_ms ++ i64_le valid_until_ms ++ body.

Definition decode_value (b : bytes) : res DecodedVersion :=
  if (length b <? HEADER_LEN)%nat then Err Serialization
  else
    let? tag := ok_or (match b with x :: _ => tag_from_u8 x | [] => None end) Serialization in
    Ok (mkVersion tag (i64_le_val (take 8 (drop 1 b))) (i64_le_val (take 8 (drop 9 b))) (drop HEADER_LEN b)).

(** ** Operations *)

Section ops.
Context {S : Type} `{StorageEngine S}.

Definition META_DOCUMENT_BITEMPORAL_PREFIX : bytes := bs "document_bitemporal:".

Definition is_bitemporal (storage : S) (collection : bytes) : res bool :=
  let? v := se_get storage Meta (META_DOCUMENT_BITEMPORAL_PREFIX ++ collection) in
  Ok (match v with Some (x :: _) => bool_decide (x = x01) | _ => false end).

Definition set_bitemporal (storage : S) (collection : bytes) (bitemporal : bool) : res unit * S :=
  se_put storage Meta (META_DOCUMENT_BITEMPORAL_PREFIX ++ collection) [if bitemporal then x01 else x00].

Definition versioned_put (storage : S) (collection doc_id body : bytes) (system_from_ms : Z)
    (valid_from_ms valid_until_ms : option Z) : res unit * S :=
  match versioned_doc_key collection doc_id system_from_ms with
  | Err e => (Err e, storage)
  | Ok history_key =>
      let vf := default system_from_ms valid_from_ms in
      let vu := default i64_max valid_until_ms in
      se_batch_write storage
        [Put DocumentHistory history_key (encode_value Live vf vu body);
         Put LatestVersion (latest_version_key collection doc_id) (format_sys_from system_from_ms)]
  end.

Definition versioned_tombstone (storage : S) (collection doc_id : bytes) (system_from_ms : Z)
    (valid_from_ms : option Z) : res unit * S :=
  match versioned_doc_key collection doc_id system_from_ms with
  | Err e => (Err e, storage)
  | Ok history_key =>
      let vf := default system_from_ms valid_from_ms in
      se_batch_write storage
        [Put DocumentHistory history_key (encode_value Tombstone vf i64_max []);
         Delete LatestVersion (latest_version_key collection doc_id)]
  end.

Definition versioned_get_current (storage : S) (collection doc_id : bytes) : res (option DecodedVersion) :=
  let? pointer := se_get storage LatestVersion (latest_version_key collection doc_id) in
  match pointer with
  | None => Ok None
  | Some pointer_bytes =>
      let? sys_from_str := ok_or (from_utf8 pointer_bytes) Serialization in
      let? sys_from_ms := ok_or (parse_i64 (trim sys_from_str)) Serialization in
      let? history_key := versioned_doc_key collection doc_id sys_from_ms in
      let? history := se_get storage DocumentHistory history_key in
      let? history_bytes := ok_or history Serialization in
      let? decoded := decode_value history_bytes in
      Ok (if is_live decoded then Some decoded else None)
  end.

(** The walk over the versions, most recent first. *)
Fixpoint as_of_walk (system_as_of_ms : Z) (valid_time_ms : option Z) (entries : list KvPair)
    : res (option DecodedVersion) :=
  match entries with
  | [] => Ok None
  | (key, value) :: rest =>
      let? decoded := decode_value value in
      let? sys_from := ok_or (parse_sys_from key) Serialization in
      if system_as_of_ms <? sys_from then as_of_walk system_as_of_ms valid_time_ms rest
      else if negb (is_live decoded) then Ok None
      else
        match valid_time_ms with
        | Some vt =>
            if (vt <? dv_valid_from_ms decoded) || (dv_valid_until_ms decoded <=? vt)
            then Ok None else Ok (Some decoded)
        | None => Ok (Some decoded)
        end
  end.

Definition versioned_get_as_of (storage : S) (collection doc_id : bytes) (system_as_of_ms : Z)
    (valid_time_ms : option Z) : res (option DecodedVersion) :=
  let? entries := se_scan_prefix storage DocumentHistory (doc_prefix collection doc_id) in
  as_of_walk system_as_of_ms valid_time_ms (reverse entries).

(** One row of the scan of a collection: the document it is a version of. *)
Definition row_doc (prefix key : bytes) : option bytes :=
  if (length key <? length prefix)%nat then None
  else
    let after_prefix := drop (length prefix) key in
    let* nul := position (λ b, bool_decide (b = x00)) after_prefix in
    from_utf8 (take nul after_prefix).

Definition latest_step (prefix : bytes) (latest : gmap bytes (VersionTag * bytes)) (row : KvPair)
    : gmap bytes (VersionTag * bytes) :=
  match row_doc prefix row.1, decode_value row.2 with
  | Some doc_id, Ok decoded => <[doc_id := (dv_tag decoded, dv_body decoded)]> latest
  | _, _ => latest
  end.

Context `{HashOrder}.

Definition scan_live_documents (storage : S) (collection : bytes) : res (list (bytes * bytes)) :=
  let prefix := coll_prefix collection in
  let? entries := se_scan_prefix storage DocumentHistory prefix in
  let latest := foldl (latest_step prefix) ∅ entries in
  Ok ((λ e : bytes * (VersionTag * bytes), (e.1, e.2.2)) <$>
      filter (λ e : bytes * (VersionTag * bytes), e.2.1 = Live) (hash_iter 3 0 latest)).

(** ** Rebuilding the pointers *)

Definition Latest := (bytes * Z * VersionTag)%type.

(** Pointer writes not yet issued, and their bytes. *)
Record PointerBatch := mkBatch { pb_ops : list WriteOp; pb_bytes : Z }.

Definition pointer_value (latest : Latest) : bytes :=
  let '(id, timestamp, tag) := latest in
  if bool_decide (tag = Live) then format_sys_from timestamp else [].

Definition pointer_op (collection : bytes) (latest : Latest) : WriteOp :=
  let '(id, timestamp, tag) := latest in
  if bool_decide (tag = Live)
  then Put LatestVersion (latest_version_key collection id) (pointer_value latest)
  else Delete LatestVersion (latest_version_key collection id).

Definition queue_pointer (storage : S) (collection : bytes) (latest : Latest) (batch : PointerBatch)
    (max_records max_bytes : Z) : res PointerBatch * S :=
  let key := latest_version_key collection latest.1.1 in
  let cost := Z.of_nat (length key) + Z.of_nat (length (pointer_value latest)) in
  if max_bytes <? cost then (Err Backpressure, storage)
  else
    let push := λ batch : PointerBatch,
      mkBatch (pb_ops batch ++ [pointer_op collection latest]) (pb_bytes batch + cost) in
    if negb (bool_decide (pb_ops batch = [])) &&
       ((max_records <=? Z.of_nat (length (pb_ops batch))) || (saturating_sub_u64 max_bytes (pb_bytes batch) <? cost))
    then
      match se_batch_write storage (pb_ops batch) with
      | (Err e, storage) => (Err e, storage)
      | (Ok _, storage) => (Ok (push (mkBatch [] 0)), storage)
      end
    else (Ok (push batch), storage).

Record BackfillState := mkBackfill {
  bf_cursor : option bytes;
  bf_latest : option Latest;
  bf_batch : PointerBatch
}.

(** The document, time and tag of a row; rows that do not parse are skipped. *)
Definition row_version (prefix : bytes) (row : KvPair) : option Latest :=
  let suffix := drop (length prefix) row.1 in
  let* separator := position (λ b, bool_decide (b = x00)) suffix in
  let* id := from_utf8 (take separator suffix) in
  let* decoded := r_ok (decode_value row.2) in
  let* timestamp := parse_sys_from row.1 in
  Some (id, timestamp, dv_tag decoded).

Definition merge_latest (latest : option Latest) (v : Latest) : option Latest :=
  match latest with
  | Some (id, previous, tag) => if previous <=? v.1.2 then Some (id, v.1.2, v.2) else latest
  | None => Some v
  end.

Definition backfill_version_row (storage : S) (collection : bytes) (max_records max_bytes : Z)
    (st : BackfillState) (row : KvPair) : res BackfillState * S :=
  let cursor := Some row.1 in
  match row_version (coll_prefix collection) row with
  | None => (Ok (mkBackfill cursor (bf_latest st) (bf_batch st)), storage)
  | Some v =>
      match bf_latest st with
      | Some previous =>
          if bool_decide (previous.1.1 ≠ v.1.1) then
            match queue_pointer storage collection previous (bf_batch st) max_records max_bytes with
            | (Err e, storage) => (Err e, storage)
            | (Ok batch, storage) => (Ok (mkBackfill cursor (Some v) batch), storage)
            end
          else (Ok (mkBackfill cursor (merge_latest (Some previous) v) (bf_batch st)), storage)
      | None => (Ok (mkBackfill cursor (Some v) (bf_batch st)), storage)
      end
  end.

Fixpoint backfill_rows (storage : S) (collection : bytes) (max_records max_bytes : Z)
    (st : BackfillState) (rows : list KvPair) : res BackfillState * S :=
  match rows with
  | [] => (Ok st, storage)
  | row :: rows =>
      match backfill_version_row storage collection max_records max_bytes st row with
      | (Err e, storage) => (Err e, storage)
      | (Ok st, storage) => backfill_rows storage collection max_records max_bytes st rows
      end
  end.

(** The loop over the pages; [None] when [fuel] pages do not reach the end. *)
Fixpoint backfill_loop (fuel : nat) (storage : S) (collection : bytes) (max_records max_bytes : Z)
    (st : BackfillState) : option (res BackfillState * S) :=
  match fuel with
  | O => None
  | Datatypes.S fuel =>
      match se_scan_prefix_from_budgeted storage DocumentHistory (coll_prefix collection) (bf_cursor st)
              max_records max_bytes with
      | Err e => Some (Err e, storage)
      | Ok page =>
          match ps_entries page with
          | [] => Some (Ok st, storage)
          | rows =>
              match backfill_rows storage collection max_records max_bytes st rows with
              | (Err e, storage) => Some (Err e, storage)
              | (Ok st, storage) => backfill_loop fuel storage collection max_records max_bytes st
              end
          end
      end
  end.

Definition backfill_finish (storage : S) (collection : bytes) (max_records max_bytes : Z)
    (st : BackfillState) : res unit * S :=
  match (match bf_latest st with
         | Some previous => queue_pointer storage collection previous (bf_batch st) max_records max_bytes
         | None => (Ok (bf_batch st), storage)
         end) with
  | (Err e, storage) => (Err e, storage)
  | (Ok batch, storage) =>
      match pb_ops batch with
      | [] => (Ok tt, storage)
      | ops => se_batch_write storage ops
      end
  end.

Definition backfill_pages (fuel : nat) (storage : S) (collection : bytes) (max_records max_bytes : Z)
    : option (res unit * S) :=
  let* r := backfill_loop fuel storage collection max_records max_bytes
              (mkBackfill None None (mkBatch [] 0)) in
  match r with
  | (Err e, storage) => Some (Err e, storage)
  | (Ok st, storage) => Some (backfill_finish storage collection max_records max_bytes st)
  end.

Definition backfill_latest_version (fuel : nat) (storage : S) (collection : bytes) : option (res unit * S) :=
  backfill_pages fuel storage collection 128 (8 * 1024 * 1024).
End ops.

(** ** Pages of current documents *)

(** Decoding a body is another crate's: a value, and its fields where it is an object. *)
Class BodyCodec (V Fields : Type) := {
  value_from_msgpack : bytes → option V;
  as_object : V → option Fields;
  no_fields : Fields
}.

Section current_page.
Context {S : Type} `{StorageEngine S} {V Fields : Type} `{BodyCodec V Fields}.

Record CurrentDocumentPage := mkPage {
  cp_entries : list (bytes * bytes * Fields);
  cp_last_key : option bytes
}.

Definition body_fields (body : bytes) : res Fields :=
  if bool_decide (body = []) then Ok no_fields
  else
    let? v := ok_or (value_from_msgpack body) Serialization in
    ok_or (as_object v) Serialization.

(** The loop over the pointers of a page; [used] counts the bytes read so far. *)
Fixpoint current_rows (storage : S) (collection : bytes) (max_bytes used : Z) (result : CurrentDocumentPage)
    (pointers : list KvPair) : res CurrentDocumentPage :=
  match pointers with
  | [] => Ok result
  | (key, pointer) :: rest =>
      let? id := ok_or (from_utf8 (drop (length (coll_prefix collection)) key)) Serialization in
      let? text := ok_or (from_utf8 pointer) Serialization in
      let? timestamp := ok_or (parse_i64 (trim text)) Serialization in
      let? history_key := versioned_doc_key collection id timestamp in
      let pointer_bytes := row_bytes (key, pointer) in
      let remaining := saturating_sub_u64 (saturating_sub_u64 max_bytes used) pointer_bytes in
      match se_scan_prefix_from_budgeted storage DocumentHistory history_key None 1 remaining with
      | Err e =>
          if bool_decide (e = Backpressure) && bool_decide (cp_last_key result ≠ None) then Ok result else Err e
      | Ok history =>
          match ps_entries history with
          | (stored_key, value) :: _ =>
              if bool_decide (stored_key = history_key) then
                let used := used + pointer_bytes + row_bytes (stored_key, value) in
                let? version := decode_value value in
                if is_live version then
                  let? fields := body_fields (dv_body version) in
                  current_rows storage collection max_bytes used
                    (mkPage (cp_entries result ++ [(key, id, fields)]) (Some key)) rest
                else
                  current_rows storage collection max_bytes used (mkPage (cp_entries result) (Some key)) rest
              else Err Serialization
          | [] => Err Serialization
          end
      end
  end.

Definition current_document_page (storage : S) (collection : bytes) (after_key : option bytes)
    (max_records max_bytes : Z) : res CurrentDocumentPage :=
  let? pointers := se_scan_prefix_from_budgeted storage LatestVersion (coll_prefix collection) after_key
                     max_records max_bytes in
  current_rows storage collection max_bytes 0 (mkPage [] None) (ps_entries pointers).
End current_page.
