(* ===== verification/HistorySpec.v ===== *)
(** * The history of documents is a list of versions

    The abstract history of a collection is a list of versions per document, in the
    order of their system times.  The rows of the store represent it; writes extend
    it, and the reads of [History.v] answer from it. *)

From Stdlib Require Import ZArith Lia Strings.Byte.
From stdpp Require Import prelude gmap strings sorting.
From S2P Require Import Prelude Bytes Ordered Text StorageTrait History.

Local Open Scope Z_scope.

#[local] Arguments fmt_dec20 : simpl never.

(** ** Keys and values *)

Definition valid_id (id : bytes) : Prop := x00 ∉ id ∧ utf8_valid id = true.

Lemma dec20_bytes z b : b ∈ fmt_dec20 z → b ≠ x00 ∧ ascii_byte b = true.
Proof.
  intros Hin. pose proof (fmt_dec20_sign_or_digit z) as Hall. rewrite Forall_forall in Hall.
  destruct (Hall b Hin) as [->|Hd]; [done|]. unfold digit_byte in Hd. unfold ascii_byte.
  split; [intros ->; change (bz x00) with 0 in Hd; lia|]. apply Z.ltb_lt. lia.
Qed.

Lemma dec20_utf8 z : from_utf8 (fmt_dec20 z) = Some (fmt_dec20 z).
Proof.
  unfold from_utf8. rewrite utf8_ascii; [done|]. apply Forall_forall. intros b Hb. by apply dec20_bytes in Hb as [_ ?].
Qed.

Lemma doc_key_split coll id t : doc_key coll id t = (coll ++ bs ":" ++ id) ++ x00 :: fmt_dec20 t.
Proof. unfold doc_key, format_sys_from. rewrite <-!app_assoc. done. Qed.

Lemma doc_key_prefix coll id t : doc_key coll id t = doc_prefix coll id ++ fmt_dec20 t.
Proof. unfold doc_key, doc_prefix, format_sys_from. by rewrite <-!app_assoc. Qed.

Lemma parse_doc_key coll id t : i64_ok t → parse_sys_from (doc_key coll id t) = Some t.
Proof.
  intros Ht. unfold parse_sys_from. rewrite doc_key_split, rposition_app_last; [|done|].
  - cbn [mbind option_bind]. generalize (coll ++ bs ":" ++ id). intros p.
    replace (S (length p)) with (length (p ++ [x00])) by (rewrite length_app; cbn [length]; lia).
    rewrite (cons_middle x00 p (fmt_dec20 t)), (app_assoc p [x00]), drop_app_length, dec20_utf8. cbn [mbind option_bind]. by apply parse_fmt_dec20.
  - apply Forall_forall. intros b Hb. apply bool_decide_eq_false. by apply dec20_bytes in Hb as [? _].
Qed.

Lemma nul_split (a b c d : bytes) :
  x00 ∉ a → x00 ∉ b → a ++ x00 :: c = b ++ x00 :: d → a = b ∧ c = d.
Proof.
  revert b. induction a as [|x a IH]; intros [|y b] Ha Hb He; simpl in He.
  - split; congruence.
  - exfalso. apply Hb, elem_of_cons. left. congruence.
  - exfalso. apply Ha, elem_of_cons. left. congruence.
  - destruct (IH b) as [-> ->]; [set_solver..|congruence|]. split; congruence.
Qed.

(** Within a collection, a key determines the document and the time. *)
Lemma doc_key_inj coll id id' t t' :
  x00 ∉ id → x00 ∉ id' → i64_ok t → i64_ok t' → doc_key coll id t = doc_key coll id' t' → id = id' ∧ t = t'.
Proof.
  intros Hi Hi' Ht Ht' He. unfold doc_key in He. apply app_inv_head in He. apply app_inv_head in He.
  cbn [app] in He. apply nul_split in He as [-> He]; [|done..]. split; [done|].
  apply (f_equal parse_i64) in He. unfold format_sys_from in He. rewrite !parse_fmt_dec20 in He by done. congruence.
Qed.

Lemma latest_key_inj coll id id' : latest_version_key coll id = latest_version_key coll id' → id = id'.
Proof. unfold latest_version_key. intros He. by apply app_inv_head, app_inv_head in He. Qed.

Lemma doc_key_in_coll coll id t : starts_with (coll_prefix coll) (doc_key coll id t) = true.
Proof. apply starts_with_spec. unfold coll_prefix, doc_key. eexists. by rewrite <-app_assoc. Qed.

(** Versions sort by their times, which are not negative. *)
Lemma doc_key_order coll id t t' :
  0 ≤ t ≤ i64_max → 0 ≤ t' ≤ i64_max → doc_key coll id t <b doc_key coll id t' ↔ t < t'.
Proof.
  intros Ht Ht'. rewrite !doc_key_prefix. unfold bytes_lt.
  rewrite bytes_cmp_app, fmt_dec20_cmp_nonneg by done. apply Z.compare_lt_iff.
Qed.

Lemma doc_key_of_prefix coll id id' t :
  x00 ∉ id → x00 ∉ id' → starts_with (doc_prefix coll id) (doc_key coll id' t) = true ↔ id = id'.
Proof.
  intros Hi Hi'. rewrite starts_with_spec. split.
  - intros [r He]. unfold doc_prefix, doc_key in He. rewrite <-!app_assoc in He.
    apply app_inv_head in He. apply app_inv_head in He. cbn [app] in He. symmetry in He.
    by apply nul_split in He as [-> _].
  - intros <-. exists (fmt_dec20 t). by rewrite doc_key_prefix.
Qed.

Lemma row_doc_key coll id t : valid_id id → row_doc (coll_prefix coll) (doc_key coll id t) = Some id.
Proof.
  intros [Hn Hu]. unfold row_doc.
  assert (doc_key coll id t = coll_prefix coll ++ id ++ x00 :: fmt_dec20 t) as ->
    by (unfold doc_key, coll_prefix, format_sys_from; by rewrite <-!app_assoc).
  rewrite length_app. destruct (Nat.ltb_spec (length (coll_prefix coll) + length (id ++ x00 :: fmt_dec20 t))
    (length (coll_prefix coll))); [lia|]. rewrite drop_app_length, position_app_first; [|done|].
  - cbn [mbind option_bind]. rewrite take_app_length. unfold from_utf8. by rewrite Hu.
  - apply Forall_forall. intros b Hb. apply bool_decide_eq_false. intros ->. done.
Qed.

Lemma tag_roundtrip t : tag_from_u8 (tag_byte t) = Some t.
Proof. by destruct t. Qed.

Lemma decode_encode tag vf vu body :
  i64_ok vf → i64_ok vu → decode_value (encode_value tag vf vu body) = Ok (mkVersion tag vf vu body).
Proof.
  intros Hf Hu. unfold decode_value, encode_value, HEADER_LEN.
  pose proof (i64_le_val_bytes vf Hf) as Ef. pose proof (i64_le_val_bytes vu Hu) as Eu.
  assert (length (i64_le vf) = 8%nat) as Lf by apply length_le_bytes.
  assert (length (i64_le vu) = 8%nat) as Lu by apply length_le_bytes.
  revert Ef Lf Eu Lu. generalize (i64_le vf) (i64_le vu). intros f u Ef Lf Eu Lu.
  do 8 (destruct f as [|? f]; [discriminate Lf|]). destruct f; [|discriminate Lf].
  do 8 (destruct u as [|? u]; [discriminate Lu|]). destruct u; [|discriminate Lu].
  cbn [app length Nat.ltb Nat.leb]. rewrite tag_roundtrip. cbn [ok_or rbind drop take]. by rewrite Ef, take_0, Eu, drop_0.
Qed.

(** ** The abstract history *)

Notation Versions := (list (Z * DecodedVersion)).
Notation Docs := (gmap bytes Versions).

Definition versions (A : Docs) (id : bytes) : Versions := default [] (A !! id).

(** The version visible at a system time: the last one written by then. *)
Definition visible (l : Versions) (a : Z) : option (Z * DecodedVersion) :=
  last (filter (λ p : Z * DecodedVersion, p.1 ≤ a) l).

Definition covers (v : DecodedVersion) (valid_time : option Z) : bool :=
  match valid_time with
  | Some vt => (dv_valid_from_ms v <=? vt) && (vt <? dv_valid_until_ms v)
  | None => true
  end.

Definition as_of (l : Versions) (a : Z) (valid_time : option Z) : option DecodedVersion :=
  match visible l a with
  | Some (_, v) => if is_live v && covers v valid_time then Some v else None
  | None => None
  end.

Definition current (l : Versions) : option DecodedVersion :=
  match last l with
  | Some (_, v) => if is_live v then Some v else None
  | None => None
  end.

(** The documents whose last version is live, with its body. *)
Definition live_docs (A : Docs) : list (bytes * bytes) :=
  omap (λ e : bytes * Versions, (λ v, (e.1, dv_body v)) <$> current e.2) (map_to_list A).

(** The pointer row of a document. *)
Definition pointer (l : Versions) : option bytes :=
  match last l with
  | Some (t, v) => if is_live v then Some (fmt_dec20 t) else None
  | None => None
  end.

Record docs_ok (A : Docs) : Prop := {
  ok_ids id l : A !! id = Some l → valid_id id;
  ok_times id l t v : A !! id = Some l → (t, v) ∈ l → 0 ≤ t ≤ i64_max;
  ok_order id l : A !! id = Some l → StronglySorted Z.lt l.*1
}.

(** The rows of a store that represent a history. *)
Record represents (m : Store) (coll : bytes) (A : Docs) : Prop := {
  rep_docs : docs_ok A;
  rep_rows k b : m DocumentHistory !! k = Some b → starts_with (coll_prefix coll) k = true →
    ∃ id t v, (t, v) ∈ versions A id ∧ k = doc_key coll id t ∧ decode_value b = Ok v;
  rep_versions id t v : (t, v) ∈ versions A id →
    ∃ b, m DocumentHistory !! doc_key coll id t = Some b ∧ decode_value b = Ok v;
  rep_pointer id : valid_id id →
    m LatestVersion !! latest_version_key coll id = pointer (versions A id)
}.

Section versions.
Context (A : Docs) (HA : docs_ok A).

Lemma versions_id id t v : (t, v) ∈ versions A id → valid_id id ∧ 0 ≤ t ≤ i64_max ∧ i64_ok t.
Proof using HA.
  unfold versions. destruct (A !! id) as [l|] eqn:Hl; [|set_solver]. simpl. intros Hin.
  pose proof (ok_times A HA id l t v Hl Hin). split_and!; [by eapply (ok_ids A HA)|lia..|unfold i64_ok, i64_min; lia].
Qed.

Lemma versions_sorted id : StronglySorted Z.lt (versions A id).*1.
Proof using HA.
  unfold versions. destruct (A !! id) as [l|] eqn:Hl; simpl; [by eapply (ok_order A HA)|constructor].
Qed.
End versions.

(** The rows of one document, in the order of its versions. *)
Definition doc_rows (m : Store) (coll id : bytes) (l : Versions) : list KvPair :=
  (λ p : Z * DecodedVersion, (doc_key coll id p.1, default [] (m DocumentHistory !! doc_key coll id p.1))) <$> l.

Lemma doc_rows_sorted m coll id l :
  StronglySorted Z.lt l.*1 → Forall (λ p : Z * DecodedVersion, 0 ≤ p.1 ≤ i64_max) l → ksorted (doc_rows m coll id l).
Proof.
  intros Hs Hr. unfold ksorted, doc_rows. induction l as [|p l IH]; [constructor|].
  cbn [fmap list_fmap] in Hs |- *. apply StronglySorted_inv in Hs as [Hs Hall]. apply Forall_cons in Hr as [Hp Hr].
  constructor; [by apply IH|]. rewrite Forall_fmap in Hall. apply Forall_fmap. rewrite Forall_forall in Hall, Hr. apply Forall_forall.
  intros q Hq. simpl. apply doc_key_order; [done|by apply Hr|by apply Hall].
Qed.

Lemma doc_scan m coll A id :
  represents m coll A → valid_id id →
  st_scan_prefix m DocumentHistory (doc_prefix coll id) = doc_rows m coll id (versions A id).
Proof.
  intros [HA Hrows Hvers _] Hid. apply ksorted_unique; [apply st_scan_prefix_sorted| |].
  - apply doc_rows_sorted; [by apply versions_sorted|]. apply Forall_forall. intros [t v] Hin.
    by apply (versions_id A HA) in Hin as (_ & ? & _).
  - intros [k b]. rewrite elem_of_st_scan_prefix. unfold doc_rows. rewrite list_elem_of_fmap. split.
    + intros [Hp Hk]. destruct (Hrows k b Hk) as (id' & t & v & Hin & -> & Hd).
      { apply starts_with_spec in Hp as [r ->]. apply starts_with_spec. unfold doc_prefix, coll_prefix.
        eexists. by rewrite <-!app_assoc. }
      destruct (versions_id A HA id' t v Hin) as ([Hn _] & _ & _).
      apply doc_key_of_prefix in Hp as <-; [|apply Hid|done].
      exists (t, v). simpl. rewrite Hk. done.
    + intros ([t v] & [= -> ->] & Hin). simpl. destruct (Hvers id t v Hin) as (b & Hb & _). rewrite Hb. split; [|done].
      apply doc_key_of_prefix; [apply Hid..|done].
Qed.

(** ** Reads *)

(** The map of the scan of a collection holds, for a document, its last row. *)
Lemma latest_lookup prefix (rows : list KvPair) id :
  (∀ row, row ∈ rows → ∃ v, decode_value row.2 = Ok v) →
  foldl (latest_step prefix) ∅ rows !! id =
    (last (filter (λ row : KvPair, row_doc prefix row.1 = Some id) rows) ≫= λ row,
       match decode_value row.2 with Ok v => Some (dv_tag v, dv_body v) | Err _ => None end).
Proof.
  induction rows as [|row rows IH] using rev_ind; intros Hd; [by cbn [foldl]; rewrite lookup_empty|].
  rewrite foldl_app. cbn [foldl]. rewrite filter_app, filter_cons, filter_nil.
  destruct (Hd row) as [v Hv]; [set_solver|]. unfold latest_step at 1. rewrite Hv.
  destruct (row_doc prefix row.1) as [id'|] eqn:Hid.
  - destruct (decide (Some id' = Some id)) as [[= ->]|Hne].
    + rewrite last_snoc. cbn [mbind option_bind]. rewrite Hv. by rewrite lookup_insert_eq.
    + rewrite app_nil_r, lookup_insert_ne by congruence. apply IH. intros. apply Hd. set_solver.
  - rewrite decide_False, app_nil_r by done. apply IH. intros. apply Hd. set_solver.
Qed.

Lemma as_of_walk_spec m coll id (l : Versions) a vt :
  (∀ t v, (t, v) ∈ l → i64_ok t ∧ decode_value (default [] (m DocumentHistory !! doc_key coll id t)) = Ok v) →
  as_of_walk a vt (reverse (doc_rows m coll id l)) = Ok (as_of l a vt).
Proof.
  induction l as [|[t v] l IH] using rev_ind; intros Hl; [done|].
  destruct (Hl t v) as [Ht Hv]; [set_solver|]. unfold doc_rows. rewrite fmap_app, reverse_app. cbn [fmap list_fmap reverse].
  change (reverse [?x]) with [x]. cbn [app as_of_walk fst]. rewrite Hv. cbn [rbind]. rewrite parse_doc_key by done. cbn [ok_or rbind].
  unfold as_of, visible. rewrite filter_app, filter_cons, filter_nil. cbn [fst].
  destruct (Z.ltb_spec a t).
  - rewrite decide_False by lia. rewrite app_nil_r. apply IH. intros. apply Hl. set_solver.
  - rewrite decide_True by lia. rewrite last_snoc. unfold covers.
    destruct (is_live v); cbn [negb andb]; [|done]. destruct vt as [vt|]; [|done].
    destruct (Z.ltb_spec vt (dv_valid_from_ms v)), (Z.leb_spec (dv_valid_until_ms v) vt),
      (Z.leb_spec (dv_valid_from_ms v) vt), (Z.ltb_spec vt (dv_valid_until_ms v)); try lia; done.
Qed.

Lemma elem_omap_fst {X Y} (h : X → option Y) (l : list (bytes * X)) id :
  id ∈ (omap (λ e : bytes * X, (λ y, (e.1, y)) <$> h e.2) l).*1 → id ∈ l.*1.
Proof.
  induction l as [|[i x] l IH]; simpl; [done|]. destruct (h x); simpl; rewrite ?elem_of_cons; naive_solver.
Qed.

Lemma nodup_omap_fst {X Y} (h : X → option Y) (l : list (bytes * X)) :
  NoDup l.*1 → NoDup (omap (λ e : bytes * X, (λ y, (e.1, y)) <$> h e.2) l).*1.
Proof.
  induction l as [|[i x] l IH]; simpl; [done|]. intros [Hi Hl]%NoDup_cons.
  destruct (h x); simpl; [|by apply IH]. apply NoDup_cons. split; [|by apply IH].
  intros Hin%elem_omap_fst. done.
Qed.

Lemma filter_fmap_omap {X Y} (P : X → Prop) `{∀ x, Decision (P x)} (f : X → Y) (l : list X) :
  f <$> filter P l = omap (λ x, if decide (P x) then Some (f x) else None) l.
Proof.
  induction l as [|x l IH]; [done|]. rewrite filter_cons. cbn [omap list_omap].
  destruct (decide (P x)); [rewrite fmap_cons; f_equal|]; exact IH.
Qed.

Lemma omap_pointwise {X Y} (f g : X → option Y) (l : list X) : (∀ x, f x = g x) → omap f l = omap g l.
Proof. intros He. induction l as [|x l IH]; cbn [omap list_omap]; [done|]. rewrite He. destruct (g x); [f_equal|]; exact IH. Qed.

(** Two maps that agree key by key list the same entries. *)
Lemma omap_entries_perm {X Y Z'} (h : X → option Y) (h' : Z' → option Y) (m : gmap bytes X) (m' : gmap bytes Z') :
  (∀ id, m !! id ≫= h = m' !! id ≫= h') →
  omap (λ e : bytes * X, (λ y, (e.1, y)) <$> h e.2) (map_to_list m) ≡ₚ
  omap (λ e : bytes * Z', (λ y, (e.1, y)) <$> h' e.2) (map_to_list m').
Proof.
  intros He. apply NoDup_Permutation;
    [apply (NoDup_fmap_1 fst), nodup_omap_fst, NoDup_fst_map_to_list..|].
  assert (∀ X0 (h0 : X0 → option Y) (m0 : gmap bytes X0) id y,
    (id, y) ∈ omap (λ e : bytes * X0, (λ y, (e.1, y)) <$> h0 e.2) (map_to_list m0) ↔ m0 !! id ≫= h0 = Some y) as Hin.
  { intros X0 h0 m0 id y. rewrite list_elem_of_omap. split.
    - intros ([i x] & Hx & (y' & Hy & [= <- <-])%fmap_Some). apply elem_of_map_to_list in Hx. rewrite Hx. exact Hy.
    - intros (x & Hx & Hy)%bind_Some. exists (id, x). rewrite elem_of_map_to_list. simpl. by rewrite Hy. }
  intros [id y]. by rewrite !Hin, He.
Qed.

Section reads.
Context {S : Type} `{StorageProgress S} (coll : bytes).

Lemma rep_decode m A id t v :
  represents m coll A → (t, v) ∈ versions A id →
  i64_ok t ∧ decode_value (default [] (m DocumentHistory !! doc_key coll id t)) = Ok v.
Proof.
  intros Hr Hin. destruct (versions_id A (rep_docs _ _ _ Hr) id t v Hin) as (_ & _ & Ht).
  destruct (rep_versions _ _ _ Hr id t v Hin) as (b & -> & Hd). done.
Qed.

Lemma get_as_of_spec (s : S) A id a vt :
  healthy s → represents (contents s) coll A → valid_id id →
  versioned_get_as_of s coll id a vt = Ok (as_of (versions A id) a vt).
Proof.
  intros Hh Hr Hid. unfold versioned_get_as_of. rewrite read_scan by done. cbn [rbind].
  rewrite (doc_scan _ _ A) by done. apply as_of_walk_spec. intros t v. by apply rep_decode.
Qed.

Lemma get_current_spec (s : S) A id :
  healthy s → represents (contents s) coll A → valid_id id →
  versioned_get_current s coll id = Ok (current (versions A id)).
Proof.
  intros Hh Hr Hid. unfold versioned_get_current. rewrite read_get by done. cbn [rbind].
  rewrite (rep_pointer _ _ _ Hr) by done. unfold pointer, current.
  destruct (last (versions A id)) as [[t v]|] eqn:Hl; [|done].
  assert ((t, v) ∈ versions A id) as Hin by (by apply last_Some_elem_of).
  destruct (rep_decode _ A id t v Hr Hin) as [Ht Hd]. destruct (is_live v) eqn:Hv; [|done].
  rewrite dec20_utf8. cbn [ok_or rbind]. rewrite trim_fmt_dec20, parse_fmt_dec20 by done. cbn [ok_or rbind].
  unfold versioned_doc_key. rewrite bool_decide_false by apply Hid. cbn [rbind]. rewrite read_get by done. cbn [rbind].
  destruct (rep_versions _ _ _ Hr id t v Hin) as (b & -> & Hb). cbn [ok_or rbind]. rewrite Hb. cbn [rbind]. by rewrite Hv.
Qed.
Lemma coll_row m A k b :
  represents m coll A → (k, b) ∈ st_scan_prefix m DocumentHistory (coll_prefix coll) →
  ∃ id t v, valid_id id ∧ (t, v) ∈ versions A id ∧ k = doc_key coll id t ∧ decode_value b = Ok v.
Proof.
  intros Hr [Hp Hk]%elem_of_st_scan_prefix. destruct (rep_rows _ _ _ Hr k b Hk Hp) as (id & t & v & Hin & -> & Hd).
  destruct (versions_id A (rep_docs _ _ _ Hr) id t v Hin) as (Hid & _). eauto 10.
Qed.

(** The rows of a collection that are versions of a document are those of its prefix. *)
Lemma coll_rows_of_doc m A id :
  represents m coll A → valid_id id →
  filter (λ row : KvPair, row_doc (coll_prefix coll) row.1 = Some id)
    (st_scan_prefix m DocumentHistory (coll_prefix coll)) = doc_rows m coll id (versions A id).
Proof.
  intros Hr Hid. rewrite <-(doc_scan _ _ A) by done.
  apply ksorted_unique; [apply ksorted_filter, st_scan_prefix_sorted|apply st_scan_prefix_sorted|].
  intros [k b]. rewrite list_elem_of_filter. cbn [fst]. split.
  - intros [Hd Hin]. destruct (coll_row m A k b Hr Hin) as (id' & t & v & Hid' & _ & -> & _).
    rewrite row_doc_key in Hd by done. injection Hd as ->. apply elem_of_st_scan_prefix in Hin as [_ Hk].
    apply elem_of_st_scan_prefix. split; [|done]. apply doc_key_of_prefix; [apply Hid..|done].
  - intros [Hp Hk]%elem_of_st_scan_prefix.
    assert (starts_with (coll_prefix coll) k = true) as Hc.
    { apply starts_with_spec in Hp as [r ->]. apply starts_with_spec. unfold doc_prefix, coll_prefix.
      eexists. by rewrite <-!app_assoc. }
    assert ((k, b) ∈ st_scan_prefix m DocumentHistory (coll_prefix coll)) as Hin by (by apply elem_of_st_scan_prefix).
    split; [|done]. destruct (coll_row m A k b Hr Hin) as (id' & t & v & Hid' & _ & -> & _).
    apply doc_key_of_prefix in Hp as <-; [|apply Hid|apply Hid']. by apply row_doc_key.
Qed.

(** The map of the scan, document by document. *)
Lemma latest_spec m A id :
  represents m coll A →
  foldl (latest_step (coll_prefix coll)) ∅ (st_scan_prefix m DocumentHistory (coll_prefix coll)) !! id =
    (λ p : Z * DecodedVersion, (dv_tag p.2, dv_body p.2)) <$> last (versions A id).
Proof.
  intros Hr. rewrite latest_lookup.
  2:{ intros [k b] Hin. destruct (coll_row m A k b Hr Hin) as (? & ? & v & _ & _ & _ & Hd). eauto. }
  destruct (decide (valid_id id)) as [Hid|Hid].
  - rewrite (coll_rows_of_doc m A) by done. unfold doc_rows. rewrite fmap_last.
    destruct (last (versions A id)) as [[t v]|] eqn:Hl; [|done].
    destruct (rep_decode m A id t v Hr) as [_ Hd]; [by apply last_Some_elem_of|]. simpl. by rewrite Hd.
  - assert (versions A id = []) as ->.
    { unfold versions. destruct (A !! id) as [l|] eqn:Hl; [|done].
      destruct Hid. by eapply (ok_ids A (rep_docs _ _ _ Hr)). }
    rewrite filter_none; [done|]. intros [k b] Hin Hd.
    destruct (coll_row m A k b Hr Hin) as (id' & t & v & Hid' & _ & -> & _). simpl in Hd.
    rewrite row_doc_key in Hd by done. injection Hd as ->. done.
Qed.
Context `{HashOrder}.

Lemma scan_live_spec (s : S) A :
  healthy s → represents (contents s) coll A →
  ∃ docs, scan_live_documents s coll = Ok docs ∧ docs ≡ₚ live_docs A.
Proof.
  intros Hh Hr. unfold scan_live_documents. rewrite read_scan by done. cbn [rbind].
  set (latest := foldl _ _ _). eexists. split; [done|].
  assert (∀ id, latest !! id = (λ p : Z * DecodedVersion, (dv_tag p.2, dv_body p.2)) <$> last (versions A id)) as Hl
    by (intros id; by apply latest_spec).
  rewrite hash_iter_perm, filter_fmap_omap. unfold live_docs.
  set (body_of := λ x : VersionTag * bytes, if decide (x.1 = Live) then Some x.2 else None).
  trans (omap (λ e : bytes * (VersionTag * bytes), (λ y, (e.1, y)) <$> body_of e.2) (map_to_list latest)).
  { apply Permutation_refl', omap_pointwise. intros [id [tag body]]. unfold body_of. simpl. by destruct (decide (tag = Live)). }
  rewrite (omap_entries_perm body_of (λ l : Versions, dv_body <$> current l) latest A).
  - apply Permutation_refl', omap_pointwise. intros [id l]. simpl. by destruct (current l).
  - intros id. rewrite Hl. unfold versions, current, is_live, body_of. destruct (A !! id) as [l|]; simpl; [|done].
    destruct (last l) as [[t v]|]; simpl; [|done]. destruct (decide (dv_tag v = Live)) as [Ht|Ht].
    + by rewrite bool_decide_true.
    + by rewrite bool_decide_false.
Qed.
End reads.

(** ** Writes *)

Inductive HistoryOp :=
| HPut (id body : bytes) (t : Z) (valid_from valid_until : option Z)
| HTombstone (id : bytes) (t : Z) (valid_from : option Z).

Definition op_id (op : HistoryOp) : bytes := match op with HPut id _ _ _ _ | HTombstone id _ _ => id end.
Definition op_time (op : HistoryOp) : Z := match op with HPut _ _ t _ _ | HTombstone _ t _ => t end.

(** The version an operation writes. *)
Definition op_version (op : HistoryOp) : DecodedVersion :=
  match op with
  | HPut _ body t vf vu => mkVersion Live (default t vf) (default i64_max vu) body
  | HTombstone _ t vf => mkVersion Tombstone (default t vf) i64_max []
  end.

Definition docs_after (A : Docs) (op : HistoryOp) : Docs :=
  <[op_id op := versions A (op_id op) ++ [(op_time op, op_version op)]]> A.

Definition op_wf (op : HistoryOp) : Prop :=
  valid_id (op_id op) ∧ 0 ≤ op_time op ≤ i64_max ∧
  i64_ok (dv_valid_from_ms (op_version op)) ∧ i64_ok (dv_valid_until_ms (op_version op)).

(** The writes of an operation on the abstract store. *)
Definition op_writes (coll : bytes) (op : HistoryOp) : list WriteOp :=
  let v := op_version op in
  [Put DocumentHistory (doc_key coll (op_id op) (op_time op))
     (encode_value (dv_tag v) (dv_valid_from_ms v) (dv_valid_until_ms v) (dv_body v));
   if is_live v then Put LatestVersion (latest_version_key coll (op_id op)) (fmt_dec20 (op_time op))
   else Delete LatestVersion (latest_version_key coll (op_id op))].

Lemma versions_after A op id :
  versions (docs_after A op) id =
    if decide (id = op_id op) then versions A id ++ [(op_time op, op_version op)] else versions A id.
Proof.
  unfold versions at 1, docs_after. destruct (decide (id = op_id op)) as [->|Hne].
  - by rewrite lookup_insert_eq.
  - by rewrite lookup_insert_ne.
Qed.

Definition times_below (A : Docs) (b : Z) : Prop := ∀ id t v, (t, v) ∈ versions A id → t < b.

Lemma docs_ok_after A op :
  docs_ok A → op_wf op → times_below A (op_time op) → docs_ok (docs_after A op).
Proof.
  intros HA (Hid & Ht & _) Hb. unfold docs_after. split.
  - intros id l. rewrite lookup_insert. case_decide as He; [intros _; by subst|apply (ok_ids A HA)].
  - intros id l t v. rewrite lookup_insert. case_decide as He; [|apply (ok_times A HA)].
    intros [= <-] [Hin|[= -> ->]%list_elem_of_singleton]%elem_of_app; [|done].
    by apply (versions_id A HA) in Hin as (_ & ? & _).
  - intros id l. rewrite lookup_insert. case_decide as He; [|apply (ok_order A HA)].
    intros [= <-]. rewrite fmap_app. apply StronglySorted_app. split_and!.
    + intros t1 t2 Hin Hin2. simpl in Hin2. apply list_elem_of_singleton in Hin2 as ->.
      apply list_elem_of_fmap in Hin as ([t v] & -> & Hin). by apply Hb in Hin.
    + by apply versions_sorted.
    + repeat constructor.
Qed.

Lemma represents_proper m m' coll A : m ≡ m' → represents m coll A → represents m' coll A.
Proof.
  intros He [H1 H2 H3 H4]. split; [done|..].
  - intros k b. rewrite <-(He DocumentHistory). apply H2.
  - intros id t v Hin. rewrite <-(He DocumentHistory). by apply H3.
  - intros id Hid. rewrite <-(He LatestVersion). by apply H4.
Qed.

Lemma represents_after m coll A op :
  represents m coll A → op_wf op → times_below A (op_time op) →
  represents (st_ops m (op_writes coll op)) coll (docs_after A op).
Proof.
  intros Hr Hwf Hb. pose proof Hwf as (Hid & Ht & Hvf & Hvu). pose proof (rep_docs _ _ _ Hr) as HA.
  set (v := op_version op) in *.
  assert (i64_ok (op_time op)) as Hi by (unfold i64_ok, i64_min; lia).
  assert (decode_value (encode_value (dv_tag v) (dv_valid_from_ms v) (dv_valid_until_ms v) (dv_body v)) = Ok v) as Hdec
    by (rewrite decode_encode by done; by destruct v).
  assert (st_ops m (op_writes coll op) DocumentHistory =
    <[doc_key coll (op_id op) (op_time op) :=
      encode_value (dv_tag v) (dv_valid_from_ms v) (dv_valid_until_ms v) (dv_body v)]> (m DocumentHistory)) as Hh.
  { unfold op_writes. fold v. destruct (is_live v); cbn [st_ops foldl st_op]; by store_simpl. }
  assert (st_ops m (op_writes coll op) LatestVersion =
    (if is_live v then <[latest_version_key coll (op_id op) := fmt_dec20 (op_time op)]> (m LatestVersion)
     else delete (latest_version_key coll (op_id op)) (m LatestVersion))) as Hp.
  { unfold op_writes. fold v. destruct (is_live v); cbn [st_ops foldl st_op]; by store_simpl. }
  split.
  - by apply docs_ok_after.
  - intros k b. rewrite Hh, lookup_insert. case_decide as Hk.
    + intros [= <-] _. exists (op_id op), (op_time op), v. rewrite versions_after, decide_True by done. set_solver.
    + intros Hkb Hc. destruct (rep_rows _ _ _ Hr k b Hkb Hc) as (id & t & v' & Hin & -> & Hd).
      exists id, t, v'. rewrite versions_after. split; [case_decide; set_solver|done].
  - intros id t v' Hin. rewrite Hh, lookup_insert.
    assert ((t, v') ∈ versions A id ∨ id = op_id op ∧ t = op_time op ∧ v' = v) as [Hold|(-> & -> & ->)].
    { rewrite versions_after in Hin. destruct (decide (id = op_id op)) as [->|Hne]; [|by left].
      apply elem_of_app in Hin as [Hin|[= -> ->]%list_elem_of_singleton]; [by left|by right]. }
    + destruct (versions_id A HA id t v' Hold) as ([Hn _] & _ & Hti). rewrite decide_False; [by apply (rep_versions _ _ _ Hr)|].
      intros Hk. apply doc_key_inj in Hk as [_ <-]; [|by apply Hid|done..]. apply Hb in Hold. lia.
    + rewrite decide_True by done. eauto.
  - intros id Hid'. rewrite Hp, versions_after.
    destruct (decide (id = op_id op)) as [->|Hne].
    + unfold pointer. rewrite last_snoc. fold v. destruct (is_live v); [by rewrite lookup_insert_eq|by rewrite lookup_delete_eq].
    + assert (latest_version_key coll (op_id op) ≠ latest_version_key coll id) by (intros He%latest_key_inj; congruence).
      rewrite <-(rep_pointer _ _ _ Hr) by done.
      destruct (is_live v); [by rewrite lookup_insert_ne|by rewrite lookup_delete_ne].
Qed.

(** ** Sessions *)

Section session.
Context {S : Type} `{StorageProgress S} `{HashOrder} (coll : bytes).

Definition run_op (s : S) (op : HistoryOp) : res unit * S :=
  match op with
  | HPut id body t vf vu => versioned_put s coll id body t vf vu
  | HTombstone id t vf => versioned_tombstone s coll id t vf
  end.

Fixpoint run_ops (s : S) (ops : list HistoryOp) : list (HistoryOp * res unit) * S :=
  match ops with
  | [] => ([], s)
  | op :: ops => let '(r, s) := run_op s op in let '(tr, s) := run_ops s ops in ((op, r) :: tr, s)
  end.

(** What a session does to the history: a write that succeeds extends it, a write that
    fails may have. *)
Inductive history_trace : Docs → list (HistoryOp * res unit) → Docs → Prop :=
| trace_nil A : history_trace A [] A
| trace_done A op r tr A' : history_trace (docs_after A op) tr A' → history_trace A ((op, r) :: tr) A'
| trace_lost A op e tr A' : history_trace A tr A' → history_trace A ((op, Err e) :: tr) A'.

Lemma run_op_batch (s : S) op : op_wf op → run_op s op = se_batch_write s (op_writes coll op).
Proof.
  intros ([Hn _] & _). destruct op; simpl in *; unfold versioned_put, versioned_tombstone, versioned_doc_key;
    rewrite bool_decide_false by done; done.
Qed.

Lemma run_op_spec (s : S) op A :
  represents (contents s) coll A → op_wf op → times_below A (op_time op) →
  represents (contents (run_op s op).2) coll (docs_after A op) ∨
  (∃ e, (run_op s op).1 = Err e) ∧ represents (contents (run_op s op).2) coll A.
Proof.
  intros Hr Hwf Hb. rewrite run_op_batch by done. pose proof (represents_after _ _ _ op Hr Hwf Hb) as Hr'.
  destruct (se_batch_write s (op_writes coll op)) as [[[]|e] s'] eqn:Hw; simpl.
  - left. apply batch_ok in Hw. by eapply represents_proper; [symmetry|].
  - apply batch_err in Hw as [Hw|Hw]; [right|left]; [split; [eauto|]|]; by eapply represents_proper; [symmetry|].
Qed.

Lemma run_ops_spec (s : S) ops A b :
  represents (contents s) coll A → times_below A b → Forall op_wf ops →
  StronglySorted Z.lt (op_time <$> ops) → Forall (λ op, b ≤ op_time op) ops →
  ∃ A', history_trace A (run_ops s ops).1 A' ∧ represents (contents (run_ops s ops).2) coll A'.
Proof.
  revert s A b. induction ops as [|op ops IH]; intros s A b Hr Hb Hwf Hs Hall; simpl; [exists A; by split; [constructor|]|].
  apply Forall_cons in Hwf as [Hwf Hwfs]. apply Forall_cons in Hall as [Hbo Hall].
  cbn [fmap list_fmap] in Hs. apply StronglySorted_inv in Hs as [Hs Hlt]. rewrite Forall_fmap in Hlt.
  assert (times_below A (op_time op)) as Hb' by (intros id t v Hin; apply Hb in Hin; lia).
  pose proof (run_op_spec s op A Hr Hwf Hb') as Hop. destruct (run_op s op) as [r s1]. simpl in Hop.
  assert (Forall (λ op', op_time op + 1 ≤ op_time op') ops) as Hn
    by (eapply Forall_impl; [exact Hlt|]; simpl; lia).
  assert (times_below A (op_time op + 1) ∧ times_below (docs_after A op) (op_time op + 1)) as [Hb1 Hb2].
  { split; intros id t v Hin; [apply Hb' in Hin; lia|]. rewrite versions_after in Hin.
    destruct (decide (id = op_id op)); [|apply Hb' in Hin; lia].
    apply elem_of_app in Hin as [Hin|[= -> ->]%list_elem_of_singleton]; [apply Hb' in Hin; lia|lia]. }
  destruct Hop as [Hr1|[[e ->] Hr1]].
  - destruct (IH s1 _ _ Hr1 Hb2 Hwfs Hs Hn) as (A' & Ht & Hr'). destruct (run_ops s1 ops) as [tr s2].
    exists A'. split; [by apply trace_done|done].
  - destruct (IH s1 _ _ Hr1 Hb1 Hwfs Hs Hn) as (A' & Ht & Hr'). destruct (run_ops s1 ops) as [tr s2].
    exists A'. split; [by apply trace_lost|done].
Qed.

(** C17: the history of a collection is a list of versions per document.  After a
    session of writes at increasing system times from 1970 on (the keys of negative times
    sort in reverse, [HistoryCases.negative_times_reversed]), whichever of them failed, the store
    holds the history that the writes left: the current version is the last one if it
    is live, the version as of a time is the last one written by then if it is live and
    covers the valid time asked for, and the scan lists each live document once with
    its body. *)
Theorem history_session (s : S) (ops : list HistoryOp) (A : Docs) (b : Z) :
  represents (contents s) coll A → times_below A b → Forall op_wf ops →
  StronglySorted Z.lt (op_time <$> ops) → Forall (λ op, b ≤ op_time op) ops →
  let '(tr, s') := run_ops s ops in
  ∃ A', history_trace A tr A' ∧
    (healthy s' →
      (∀ id, valid_id id → versioned_get_current s' coll id = Ok (current (versions A' id))) ∧
      (∀ id a vt, valid_id id → versioned_get_as_of s' coll id a vt = Ok (as_of (versions A' id) a vt)) ∧
      ∃ docs, scan_live_documents s' coll = Ok docs ∧ docs ≡ₚ live_docs A').
Proof.
  intros Hr Hb Hwf Hs Hall. destruct (run_ops_spec s ops A b Hr Hb Hwf Hs Hall) as (A' & Ht & Hr').
  destruct (run_ops s ops) as [tr s']. exists A'. split; [done|]. intros Hh. split_and!.
  - intros id Hid. by apply get_current_spec.
  - intros id a vt Hid. by apply get_as_of_spec.
  - by apply scan_live_spec.
Qed.
End session.
