(* ===== verification/HistoryBackfill.v ===== *)
(** * Rebuilding the pointers of a collection

    [backfill_latest_version] of [History.v] reads the history of a collection page by
    page and leaves, for every document with a history, the pointer to its last
    version. *)

From Stdlib Require Import ZArith Lia Strings.Byte.
From stdpp Require Import prelude gmap strings sorting.
From S2P Require Import Prelude Bytes Ordered Text StorageTrait Pagedb PagedbMem History HistorySpec.

Local Open Scope Z_scope.

(** ** The pointers a sequence of rows asks for *)

Definition pointer_step (coll : bytes) (g : option Latest * list Latest) (row : KvPair) : option Latest * list Latest :=
  match row_version (coll_prefix coll) row with
  | None => g
  | Some v =>
      match g.1 with
      | Some previous =>
          if bool_decide (previous.1.1 ≠ v.1.1) then (Some v, g.2 ++ [previous])
          else (merge_latest (Some previous) v, g.2)
      | None => (Some v, g.2)
      end
  end.

Definition groups_of (coll : bytes) (rows : list KvPair) : list Latest :=
  let g := foldl (pointer_step coll) (None, []) rows in g.2 ++ option_list g.1.

(** ** The loop issues exactly these *)

Section loop.
Context {S : Type} `{StorageLaws S} (coll : bytes) (max_records max_bytes : Z).
Variable m0 : Store.

(** The writes issued and those waiting are those of the pointers so far. *)
Definition issued (s : S) (batch : PointerBatch) (out : list Latest) : Prop :=
  ∃ ops, contents s ≡ st_ops m0 ops ∧ ops ++ pb_ops batch = pointer_op coll <$> out.

Lemma queue_pointer_ok (s s' : S) latest batch batch' out :
  queue_pointer s coll latest batch max_records max_bytes = (Ok batch', s') →
  issued s batch out → issued s' batch' (out ++ [latest]).
Proof.
  intros Hq (ops & Hc & He). unfold queue_pointer in Hq. destruct (max_bytes <? _); [done|].
  destruct (negb _ && _).
  - destruct (se_batch_write s (pb_ops batch)) as [[[]|e] s1] eqn:Hw; [|done]. injection Hq as <- <-.
    exists (ops ++ pb_ops batch). split; [|simpl; rewrite fmap_app, He; done].
    apply batch_ok in Hw. rewrite Hw. unfold st_ops. rewrite foldl_app. by apply st_ops_proper.
  - injection Hq as <- <-. exists ops. split; [done|]. simpl. by rewrite fmap_app, <-He, <-app_assoc.
Qed.

Lemma backfill_row_ok (s s' : S) st st' row out :
  backfill_version_row s coll max_records max_bytes st row = (Ok st', s') → issued s (bf_batch st) out →
  bf_cursor st' = Some row.1 ∧
  issued s' (bf_batch st') (pointer_step coll (bf_latest st, out) row).2 ∧
  bf_latest st' = (pointer_step coll (bf_latest st, out) row).1.
Proof.
  unfold backfill_version_row, pointer_step. intros Hb Hi. destruct (row_version (coll_prefix coll) row) as [v|];
    [|by injection Hb as <- <-]. cbn [fst snd].
  destruct (bf_latest st) as [p|]; [|by injection Hb as <- <-].
  destruct (bool_decide (p.1.1 ≠ v.1.1)); [|by injection Hb as <- <-].
  destruct (queue_pointer s coll p (bf_batch st) max_records max_bytes) as [[batch|e] s1] eqn:Hq; [|done].
  injection Hb as <- <-. split_and!; [done| |done]. by eapply queue_pointer_ok.
Qed.

Lemma backfill_rows_ok (s s' : S) st st' rows out :
  backfill_rows s coll max_records max_bytes st rows = (Ok st', s') → issued s (bf_batch st) out →
  bf_cursor st' = next_cursor (bf_cursor st) rows ∧
  issued s' (bf_batch st') (foldl (pointer_step coll) (bf_latest st, out) rows).2 ∧
  bf_latest st' = (foldl (pointer_step coll) (bf_latest st, out) rows).1.
Proof.
  revert s st out. induction rows as [|row rows IH]; intros s st out Hb Hi; cbn [backfill_rows] in Hb.
  { by injection Hb as <- <-. }
  destruct (backfill_version_row s coll max_records max_bytes st row) as [[st1|e] s1] eqn:Hr; [|done].
  destruct (backfill_row_ok _ _ _ _ _ _ Hr Hi) as (Hc & Hi1 & Hl).
  destruct (IH _ _ _ Hb Hi1) as (Hc' & Hi' & Hl'). cbn [foldl].
  destruct (pointer_step coll (bf_latest st, out) row) as [l o]. simpl in *. subst l. split_and!; [|done..].
  rewrite Hc', Hc. unfold next_cursor. rewrite last_cons. by destruct (last rows).
Qed.
Lemma pointer_ops_history ops out :
  (∃ rest, ops ++ rest = pointer_op coll <$> out) → ∀ ns, ns ≠ LatestVersion → st_ops m0 ops ns = m0 ns.
Proof.
  intros [rest He] ns Hns. assert (Forall (λ op, op_ns op = LatestVersion) ops) as Hall.
  { assert (Forall (λ op, op_ns op = LatestVersion) (ops ++ rest)) as Hboth; [|by apply Forall_app in Hboth as [? _]].
    rewrite He. apply Forall_fmap, Forall_forall. intros [[id t] tag] _. simpl. by destruct (bool_decide _). }
  clear He. unfold st_ops. revert m0. induction Hall as [|op ops Ho Hall IH]; intros m; simpl; [done|].
  rewrite IH. destruct op; simpl in *; subst; by store_simpl.
Qed.

Lemma issued_history (s : S) batch out ns : issued s batch out → ns ≠ LatestVersion → contents s ns = m0 ns.
Proof. intros (ops & Hc & He) Hns. rewrite Hc. eapply pointer_ops_history; eauto. Qed.

(** The pages read from a cursor on are the rest of the rows. *)
Lemma backfill_loop_ok (fuel : nat) (s : S) st out rest :
  0 < max_records → 0 ≤ max_bytes →
  issued s (bf_batch st) out → st_rows_after m0 DocumentHistory (coll_prefix coll) (bf_cursor st) = rest →
  (length rest < fuel)%nat →
  ∃ r s', backfill_loop fuel s coll max_records max_bytes st = Some (r, s') ∧
    ∀ st', r = Ok st' →
      issued s' (bf_batch st') (foldl (pointer_step coll) (bf_latest st, out) rest).2 ∧
      bf_latest st' = (foldl (pointer_step coll) (bf_latest st, out) rest).1.
Proof.
  intros Hmr Hmb. revert s st out rest. induction fuel as [|fuel IH]; intros s st out rest Hi Hrest Hf; [lia|].
  cbn [backfill_loop].
  destruct (se_scan_prefix_from_budgeted s DocumentHistory (coll_prefix coll) (bf_cursor st) max_records max_bytes)
    as [page|e] eqn:Hpage; [|eexists _, _; split; [done|]; done].
  apply scan_prefix_from_budgeted_ok in Hpage as [Hb He]; [|done..].
  assert (st_rows_after (contents s) DocumentHistory (coll_prefix coll) (bf_cursor st) = rest) as Hrs.
  { rewrite <-Hrest. unfold st_rows_after. by rewrite (issued_history s _ _ DocumentHistory Hi). }
  rewrite Hrs in Hb, He. destruct (bo_prefix _ _ _ _ Hb) as [rest' Hsplit].
  destruct (ps_entries page) as [|row rows] eqn:Hrows.
  { rewrite (He eq_refl). eexists _, _. split; [done|]. intros st' [= <-]. done. }
  destruct (backfill_rows s coll max_records max_bytes st (row :: rows)) as [[st1|e] s1] eqn:Hbr;
    [|eexists _, _; split; [done|]; done].
  destruct (backfill_rows_ok _ _ _ _ _ _ Hbr Hi) as (Hc & Hi1 & Hl1).
  destruct (IH s1 st1 _ rest' Hi1) as (r & s' & Hloop & Hr).
  - rewrite Hc. apply rows_after_cursor. by rewrite Hrest.
  - rewrite Hsplit, length_app in Hf. simpl in Hf. lia.
  - exists r, s'. split; [done|]. intros st' Hst. destruct (Hr st' Hst) as [Hi' Hl'].
    rewrite Hsplit, foldl_app. destruct (foldl (pointer_step coll) (bf_latest st, out) (row :: rows)) as [l o].
    simpl in *. by rewrite Hl1 in *.
Qed.
End loop.

(** ** The groups of a history are its documents *)

Section groups.
Context (m : Store) (coll : bytes) (A : Docs).

(** The history part of [represents]: the pointers may be anything. *)
Record history_rows : Prop := {
  hr_docs : docs_ok A;
  hr_rows k b : m DocumentHistory !! k = Some b → starts_with (coll_prefix coll) k = true →
    ∃ id t v, (t, v) ∈ versions A id ∧ k = doc_key coll id t ∧ decode_value b = Ok v;
  hr_versions id t v : (t, v) ∈ versions A id →
    ∃ b, m DocumentHistory !! doc_key coll id t = Some b ∧ decode_value b = Ok v
}.
Hypothesis Hr : history_rows.

(** Documents by the order of their keys. *)
Definition id_le (a b : bytes) : Prop := (a ++ [x00]) <=b (b ++ [x00]).
#[local] Instance id_le_dec : RelDecision id_le.
Proof. intros a b. unfold id_le. apply _. Defined.
#[local] Instance id_le_total : Total id_le.
Proof. intros a b. unfold id_le. apply (total bytes_le). Qed.
#[local] Instance id_le_trans : Transitive id_le.
Proof. intros a b c. unfold id_le. apply (transitivity (R:=bytes_le)). Qed.

Definition doc_ids : list bytes :=
  stable_sort id_le (filter (λ id, versions A id ≠ []) (map_to_list A).*1).

Lemma nul_cmp (a b f g : bytes) :
  x00 ∉ a → x00 ∉ b → a ≠ b → bytes_cmp (a ++ x00 :: f) (b ++ x00 :: g) = bytes_cmp (a ++ [x00]) (b ++ [x00]).
Proof.
  revert b. induction a as [|x a IH]; intros [|y b] Ha Hb Hne; try done; cbn [app bytes_cmp].
  - assert (x00 ≠ y) as Hy by set_solver. destruct (bz x00 ?= bz y) eqn:Hc; [|done..].
    apply Z.compare_eq_iff in Hc. destruct Hy. by apply bz_inj.
  - assert (x00 ≠ x) as Hx by set_solver. destruct (bz x ?= bz x00) eqn:Hc; [|done..].
    apply Z.compare_eq_iff in Hc. destruct Hx. symmetry. by apply bz_inj.
  - destruct (bz x ?= bz y) eqn:Hc; [|done..]. apply Z.compare_eq_iff, bz_inj in Hc as ->.
    apply IH; [set_solver..|congruence].
Qed.

Lemma doc_ids_elem id : id ∈ doc_ids ↔ versions A id ≠ [].
Proof.
  unfold doc_ids. rewrite stable_sort_perm, list_elem_of_filter, list_elem_of_fmap. split; [naive_solver|].
  intros Hv. split; [done|]. unfold versions in Hv. destruct (A !! id) as [l|] eqn:Hl; [|done].
  exists (id, l). by rewrite elem_of_map_to_list.
Qed.

Lemma doc_ids_nodup : NoDup doc_ids.
Proof. unfold doc_ids. rewrite stable_sort_perm. apply NoDup_filter, NoDup_fst_map_to_list. Qed.

Lemma doc_ids_sorted : StronglySorted (λ a b, (a ++ [x00]) <b (b ++ [x00])) doc_ids.
Proof.
  pose proof doc_ids_nodup as Hnd.
  assert (StronglySorted id_le doc_ids) as Hs by (apply stable_sort_sorted; apply _).
  induction Hs as [|id l Hs IH Hall]; [constructor|]. apply NoDup_cons in Hnd as [Hn Hnd].
  constructor; [by apply IH|]. rewrite Forall_forall in *. intros id' Hin. specialize (Hall id' Hin).
  unfold id_le in Hall. apply bytes_le_lt_or_eq in Hall as [|He]; [done|].
  apply app_inj_tail in He as [-> _]. done.
Qed.
Lemma doc_key_before id id' t t' :
  x00 ∉ id → x00 ∉ id' → (id ++ [x00]) <b (id' ++ [x00]) → doc_key coll id t <b doc_key coll id' t'.
Proof.
  intros Hi Hi' Hlt. unfold doc_key, bytes_lt. rewrite !bytes_cmp_app. cbn [app].
  rewrite nul_cmp; [done..|]. intros ->. by apply bytes_lt_irrefl in Hlt.
Qed.

Lemma all_rows_sorted (ids : list bytes) :
  StronglySorted (λ a b, (a ++ [x00]) <b (b ++ [x00])) ids →
  ksorted (concat ((λ id, doc_rows m coll id (versions A id)) <$> ids)).
Proof using Hr.
  induction 1 as [|id ids Hs IH Hall]; [constructor|]. cbn [fmap list_fmap concat].
  apply ksorted_app; [|done|].
  - apply doc_rows_sorted; [by apply versions_sorted, Hr|]. apply Forall_forall. intros [t v] Hin.
    by apply (versions_id A (hr_docs Hr)) in Hin as (_ & ? & _).
  - intros p q Hp Hq. unfold doc_rows in Hp. apply list_elem_of_fmap in Hp as ([t v] & -> & Hp).
    apply list_elem_of_In, in_concat in Hq as (rows & Hin & Hq).
    apply list_elem_of_In, list_elem_of_fmap in Hin as (id' & -> & Hid').
    apply list_elem_of_In, list_elem_of_fmap in Hq as ([t' v'] & -> & Hq). simpl.
    apply (versions_id A (hr_docs Hr)) in Hp as ([Hn _] & _). apply (versions_id A (hr_docs Hr)) in Hq as ([Hn' _] & _).
    apply doc_key_before; [done..|]. rewrite Forall_forall in Hall. by apply Hall.
Qed.

Lemma all_rows :
  st_scan_prefix m DocumentHistory (coll_prefix coll) =
  concat ((λ id, doc_rows m coll id (versions A id)) <$> doc_ids).
Proof using Hr.
  apply ksorted_unique; [apply st_scan_prefix_sorted|apply all_rows_sorted, doc_ids_sorted|].
  intros [k b]. rewrite elem_of_st_scan_prefix, list_elem_of_In, in_concat. split.
  - intros [Hp Hk]. destruct (hr_rows Hr k b Hk Hp) as (id & t & v & Hin & -> & Hd).
    exists (doc_rows m coll id (versions A id)). split.
    + apply list_elem_of_In, (list_elem_of_fmap_2 (λ id, doc_rows m coll id (versions A id))), doc_ids_elem.
      intros Hn. rewrite Hn in Hin. set_solver.
    + apply list_elem_of_In. unfold doc_rows. apply list_elem_of_fmap. exists (t, v). simpl. by rewrite Hk.
  - intros (rows & Hin & Hk). apply list_elem_of_In, list_elem_of_fmap in Hin as (id & -> & _).
    apply list_elem_of_In, list_elem_of_fmap in Hk as ([t v] & He & Hin). simpl in He. injection He as -> ->.
    destruct (hr_versions Hr id t v Hin) as (b & Hb & _). rewrite Hb. split; [apply doc_key_in_coll|done].
Qed.

(** The pointer of a document with versions. *)
Definition last_version (id : bytes) (l : Versions) : option Latest :=
  (λ p : Z * DecodedVersion, (id, p.1, dv_tag p.2)) <$> last l.

Lemma row_version_key id t v b :
  valid_id id → i64_ok t → decode_value b = Ok v →
  row_version (coll_prefix coll) (doc_key coll id t, b) = Some (id, t, dv_tag v).
Proof.
  intros [Hn Hu] Ht Hd. unfold row_version. cbv zeta. cbn [fst snd].
  assert (doc_key coll id t = coll_prefix coll ++ id ++ x00 :: fmt_dec20 t) as Hk
    by (unfold doc_key, coll_prefix, format_sys_from; by rewrite <-!app_assoc).
  pose proof (parse_doc_key coll id t Ht) as Hp. rewrite Hk in Hp |- *. rewrite drop_app_length, position_app_first; [|done|].
  - cbn [mbind option_bind]. rewrite take_app_length. unfold from_utf8. rewrite Hu. cbn [mbind option_bind].
    rewrite Hd. cbn [r_ok mbind option_bind]. by rewrite Hp.
  - apply Forall_forall. intros x Hx. apply bool_decide_eq_false. intros ->. done.
Qed.

(** Rows of the document at hand: the pointer follows them. *)
Lemma group_doc_rest id (l : Versions) t0 tag0 out :
  valid_id id → (∀ t v, (t, v) ∈ l → (t, v) ∈ versions A id ∧ t0 < t) → StronglySorted Z.lt l.*1 →
  foldl (pointer_step coll) (Some (id, t0, tag0), out) (doc_rows m coll id l) =
    (Some (default (id, t0, tag0) (last_version id l)), out).
Proof using Hr.
  intros Hid. revert t0 tag0. induction l as [|[t v] l IH]; intros t0 tag0 Hl Hs; [done|].
  destruct (Hl t v) as [Hin Hlt]; [set_solver|]. cbn [doc_rows fmap list_fmap foldl fst].
  destruct (hr_versions Hr id t v Hin) as (b & Hb & Hd). rewrite Hb. simpl default.
  destruct (versions_id A (hr_docs Hr) id t v Hin) as (_ & _ & Ht).
  unfold pointer_step at 2. rewrite (row_version_key id t v b) by done. cbn [fst snd].
  rewrite bool_decide_false by (intros Hne; by apply Hne). unfold merge_latest. cbn [fst snd].
  destruct (Z.leb_spec t0 t); [|lia]. cbn [fmap list_fmap] in Hs. apply StronglySorted_inv in Hs as [Hs Hall].
  fold (doc_rows m coll id l). rewrite IH; [|intros t' v' Hin'; split; [apply Hl; set_solver|]|done].
  - unfold last_version. rewrite last_cons. by destruct (last l).
  - rewrite Forall_fmap, Forall_forall in Hall. by apply (Hall (t', v')).
Qed.

Lemma last_version_nonempty id t v (l : Versions) :
  last_version id ((t, v) :: l) = Some (default (id, t, dv_tag v) (last_version id l)).
Proof. unfold last_version. rewrite last_cons. by destruct (last l). Qed.

(** The rows of a document after those of others: the pointer at hand is given out. *)
Lemma group_doc id prev out :
  versions A id ≠ [] → (∀ p : Latest, prev = Some p → p.1.1 ≠ id) →
  ∃ v, last_version id (versions A id) = Some v ∧ v.1.1 = id ∧
    foldl (pointer_step coll) (prev, out) (doc_rows m coll id (versions A id)) = (Some v, out ++ option_list prev).
Proof using Hr.
  intros Hne Hp. destruct (versions A id) as [|[t v] l] eqn:Hv; [done|].
  pose proof (versions_sorted A (hr_docs Hr) id) as Hs. rewrite Hv in Hs. cbn [fmap list_fmap] in Hs.
  apply StronglySorted_inv in Hs as [Hs Hall]. rewrite Forall_fmap, Forall_forall in Hall.
  assert ((t, v) ∈ versions A id) as Hin by (rewrite Hv; set_solver).
  destruct (hr_versions Hr id t v Hin) as (b & Hb & Hd).
  destruct (versions_id A (hr_docs Hr) id t v Hin) as (Hid & _ & Ht).
  eexists. split; [apply last_version_nonempty|]. split.
  { unfold last_version. by destruct (last l). }
  cbn [doc_rows fmap list_fmap foldl fst]. fold (doc_rows m coll id l). rewrite Hb. simpl default.
  rewrite <-(group_doc_rest id l t (dv_tag v)); [|done| |done].
  - f_equal. unfold pointer_step. rewrite (row_version_key id t v b) by done. cbn [fst snd].
    destruct prev as [p|]; [|by rewrite app_nil_r]. by rewrite bool_decide_true by (by apply Hp).
  - intros t' v' Hin'. split; [rewrite Hv; set_solver|]. by apply (Hall (t', v')).
Qed.

Lemma group_docs ids prev out :
  NoDup ids → (∀ id, id ∈ ids → versions A id ≠ []) → (∀ p : Latest, prev = Some p → p.1.1 ∉ ids) →
  let g := foldl (pointer_step coll) (prev, out) (concat ((λ id, doc_rows m coll id (versions A id)) <$> ids)) in
  g.2 ++ option_list g.1 = out ++ option_list prev ++ omap (λ id, last_version id (versions A id)) ids.
Proof using Hr.
  revert prev out. induction ids as [|id ids IH]; intros prev out Hnd Hv Hp; [by rewrite app_nil_r|].
  cbn [fmap list_fmap concat]. rewrite foldl_app. apply NoDup_cons in Hnd as [Hn Hnd].
  destruct (group_doc id prev out) as (v & Hl & Hi & ->); [apply Hv; set_solver|intros p -> He; apply (Hp p eq_refl); rewrite He; set_solver|].
  cbn zeta. rewrite (IH (Some v)); [|done|intros ? ?; apply Hv; set_solver|intros p Hpv; injection Hpv as Hpv; by rewrite <-Hpv, Hi].
  rewrite <-app_assoc. cbn [omap list_omap]. rewrite Hl. done.
Qed.

Lemma groups_of_history :
  groups_of coll (st_scan_prefix m DocumentHistory (coll_prefix coll)) =
  omap (λ id, last_version id (versions A id)) doc_ids.
Proof using Hr.
  rewrite all_rows. unfold groups_of. rewrite (group_docs doc_ids None []); [done| |by intros id ?%doc_ids_elem|done].
  apply doc_ids_nodup.
Qed.
End groups.

(** ** The whole rebuild *)

Section rebuild.
Context {S : Type} `{StorageLaws S} (coll : bytes) (A : Docs).

Lemma backfill_finish_ok m0 (s s' : S) max_records max_bytes st out :
  backfill_finish s coll max_records max_bytes st = (Ok tt, s') → issued coll m0 s (bf_batch st) out →
  contents s' ≡ st_ops m0 (pointer_op coll <$> (out ++ option_list (bf_latest st))).
Proof.
  intros Hf Hi. unfold backfill_finish in Hf.
  assert (∀ (s1 : S) batch out, issued coll m0 s1 batch out →
    match pb_ops batch with [] => (Ok tt, s1) | ops => se_batch_write s1 ops end = (Ok tt, s') →
    contents s' ≡ st_ops m0 (pointer_op coll <$> out)) as Hlast.
  { intros s1 batch out1 (ops & Hc & <-) Hb. destruct (pb_ops batch) as [|op rest].
    - injection Hb as <-. by rewrite app_nil_r.
    - apply batch_ok in Hb. rewrite Hb. unfold st_ops. rewrite foldl_app. by apply st_ops_proper. }
  destruct (bf_latest st) as [p|].
  - destruct (queue_pointer s coll p (bf_batch st) max_records max_bytes) as [[batch|e] s1] eqn:Hq; [|done].
    eapply Hlast; [by eapply queue_pointer_ok|done].
  - rewrite app_nil_r. by eapply Hlast.
Qed.

Lemma pointer_op_key (p : Latest) : op_ns (pointer_op coll p) = LatestVersion ∧ op_key (pointer_op coll p) = latest_version_key coll p.1.1.
Proof. destruct p as [[id t] tag]. simpl. by destruct (bool_decide _). Qed.

(** One pointer row per document. *)
Lemma pointers_lookup m0 id :
  st_ops m0 (pointer_op coll <$> omap (λ id, last_version id (versions A id)) (doc_ids A)) LatestVersion
    !! latest_version_key coll id =
  match versions A id with
  | [] => m0 LatestVersion !! latest_version_key coll id
  | l => pointer l
  end.
Proof.
  set (ops := pointer_op coll <$> _).
  assert (∀ op, op ∈ ops → op_key op = latest_version_key coll id →
    ∃ p, last_version id (versions A id) = Some p ∧ op = pointer_op coll p) as Hops.
  { intros op (p & -> & (id' & _ & Hp)%list_elem_of_omap)%list_elem_of_fmap Hk.
    rewrite (proj2 (pointer_op_key p)) in Hk. apply latest_key_inj in Hk as <-.
    exists p. split; [|done]. revert Hp. unfold last_version. destruct (last (versions A id')) as [[t v]|] eqn:Hv; simpl; [|done].
    intros [= <-]. simpl. by rewrite Hv. }
  destruct (decide (versions A id = [])) as [Hnil|Hne].
  - rewrite Hnil in *. apply st_ops_untouched. intros op Hin _ Hk. by destruct (Hops op Hin Hk) as (p & ? & _).
  - assert (∃ t v, last (versions A id) = Some (t, v)) as (t & v & Hl).
    { destruct (last (versions A id)) as [[t v]|] eqn:Hl; [eauto|]. by apply last_None in Hl. }
    assert (last_version id (versions A id) = Some (id, t, dv_tag v)) as Hp by (unfold last_version; by rewrite Hl).
    assert (∃ op, op ∈ ops ∧ op_ns op = LatestVersion ∧ op_key op = latest_version_key coll id) as Hex.
    { exists (pointer_op coll (id, t, dv_tag v)). split; [|apply (pointer_op_key (id, t, dv_tag v))].
      apply list_elem_of_fmap_2, list_elem_of_omap. exists id. split; [by apply doc_ids_elem|done]. }
    assert (∀ op, op ∈ ops → op_ns op = LatestVersion → op_key op = latest_version_key coll id →
      op = pointer_op coll (id, t, dv_tag v)) as Hall.
    { intros op Hin _ Hk. destruct (Hops op Hin Hk) as (p & Hp' & ->). congruence. }
    assert (match versions A id with [] => m0 LatestVersion !! latest_version_key coll id | l => pointer l end
      = pointer (versions A id)) as -> by (by destruct (versions A id)).
    unfold pointer. rewrite Hl. unfold pointer_op, pointer_value, format_sys_from in Hall. unfold is_live.
    destruct (bool_decide (dv_tag v = Live)); [by eapply st_ops_all_put|by eapply st_ops_all_delete].
Qed.

Lemma backfill_store (s : S) m' ops :
  history_rows (contents s) coll A →
  (∀ id, valid_id id → versions A id = [] → contents s LatestVersion !! latest_version_key coll id = None) →
  ops = (pointer_op coll <$> omap (λ id, last_version id (versions A id)) (doc_ids A)) →
  m' ≡ st_ops (contents s) ops →
  represents m' coll A ∧ ∀ ns, ns ≠ LatestVersion → m' ns = contents s ns.
Proof.
  intros Hr Hnone Ho Hm.
  assert (∀ ns, ns ≠ LatestVersion → m' ns = contents s ns) as Hns.
  { intros ns Hne. rewrite Hm. eapply (pointer_ops_history coll (contents s)); [|done].
    exists []. by rewrite app_nil_r. }
  split; [|done]. destruct Hr as [HA Hrows Hvers]. split; [done|by rewrite Hns|by rewrite Hns|].
  intros id Hid. rewrite (Hm LatestVersion), Ho, pointers_lookup.
  destruct (versions A id) as [|p l] eqn:Hv; [by apply Hnone|done].
Qed.

End rebuild.
