(* ===== verification/HistoryPage.v ===== *)
(** * Pages of current documents

    [current_document_page] of [History.v] follows the pointers of a collection in
    pages bounded in rows and in bytes, the bytes of the history rows included. *)

From Stdlib Require Import ZArith Lia Strings.Byte.
From stdpp Require Import prelude gmap strings sorting.
From S2P Require Import Prelude Bytes Ordered Text StorageTrait Pagedb PagedbMem History HistorySpec.

Local Open Scope Z_scope.

Section pages.
Context {S : Type} `{StorageLaws S} {V Fields : Type} `{BodyCodec V Fields}.
Context (coll : bytes) (A : Docs) (s : S).
Hypothesis Hr : represents (contents s) coll A.

(** Every pointer row of the collection is that of a document. *)
Definition pointers_valid : Prop :=
  ∀ k b, contents s LatestVersion !! k = Some b → starts_with (coll_prefix coll) k = true →
    ∃ id, valid_id id ∧ k = latest_version_key coll id.
Hypothesis Hp : pointers_valid.

Definition pointer_rows (after : option bytes) : list KvPair :=
  st_rows_after (contents s) LatestVersion (coll_prefix coll) after.

(** The history row a pointer row names, and the bytes of both. *)
Definition named_row (row : KvPair) : KvPair :=
  (row.1 ++ x00 :: row.2, default [] (contents s DocumentHistory !! (row.1 ++ x00 :: row.2))).
Definition read_cost (rows : list KvPair) : Z :=
  foldr (λ row n, row_bytes row + row_bytes (named_row row) + n) 0 rows.

(** What a page lists for a pointer row: the document, with the fields of its current version. *)
Definition listed (row : KvPair) (e : bytes * bytes * Fields) : Prop :=
  ∃ v, e.1.1 = row.1 ∧ row.1 = latest_version_key coll e.1.2 ∧ valid_id e.1.2 ∧
    current (versions A e.1.2) = Some v ∧ body_fields (dv_body v) = Ok e.2.

(** A pointer row names the last version of its document, which is live. *)
Lemma pointer_row_spec k b :
  contents s LatestVersion !! k = Some b → starts_with (coll_prefix coll) k = true →
  ∃ id t v, valid_id id ∧ k = latest_version_key coll id ∧ b = fmt_dec20 t ∧ i64_ok t ∧
    current (versions A id) = Some v ∧ is_live v = true ∧ k ++ x00 :: b = doc_key coll id t ∧
    ∃ h, contents s DocumentHistory !! doc_key coll id t = Some h ∧ decode_value h = Ok v.
Proof using Hr Hp.
  intros Hk Hc. destruct (Hp k b Hk Hc) as (id & Hid & ->). rewrite (rep_pointer _ _ _ Hr id Hid) in Hk.
  unfold pointer in Hk. destruct (last (versions A id)) as [[t v]|] eqn:Hl; [|done].
  destruct (is_live v) eqn:Hv; [|done]. injection Hk as <-.
  assert ((t, v) ∈ versions A id) as Hin by (by apply last_Some_elem_of).
  destruct (versions_id A (rep_docs _ _ _ Hr) id t v Hin) as (_ & _ & Ht).
  exists id, t, v. split_and!; try done.
  - unfold current. by rewrite Hl, Hv.
  - by rewrite doc_key_split.
  - by apply (rep_versions _ _ _ Hr).
Qed.

(** The first row that a prefix finds is the row of that key, where there is one. *)
Lemma first_of_key ns k v : contents s ns !! k = Some v →
  ∃ rows, st_rows_after (contents s) ns k None = (k, v) :: rows.
Proof.
  intros Hk. rewrite st_rows_after_None.
  assert ((k, v) ∈ st_scan_prefix (contents s) ns k) as Hin
    by (apply elem_of_st_scan_prefix; split; [apply starts_with_spec; exists []; by rewrite app_nil_r|done]).
  pose proof (st_scan_prefix_sorted (contents s) ns k) as Hs.
  destruct (st_scan_prefix (contents s) ns k) as [|[k' v'] rows] eqn:Hrows; [set_solver|].
  apply elem_of_cons in Hin as [[= <- <-]|Hin]; [by eexists|]. exfalso.
  apply StronglySorted_inv in Hs as [_ Hall]. rewrite Forall_forall in Hall. specialize (Hall _ Hin). simpl in Hall.
  assert ((k', v') ∈ st_scan_prefix (contents s) ns k) as Hk' by (rewrite Hrows; set_solver).
  apply elem_of_st_scan_prefix in Hk' as [Hst _]. apply starts_with_spec in Hst as [r ->].
  revert Hall. unfold bytes_lt. rewrite <-(app_nil_r k) at 2. rewrite bytes_cmp_app. by destruct r.
Qed.

Lemma current_step max_bytes used (result page : CurrentDocumentPage) k b rest :
  contents s LatestVersion !! k = Some b → starts_with (coll_prefix coll) k = true →
  0 ≤ used ≤ max_bytes →
  current_rows s coll max_bytes used result ((k, b) :: rest) = Ok page →
  page = result ∧ cp_last_key result ≠ None ∨
  ∃ e used', listed (k, b) e ∧ used' = used + row_bytes (k, b) + row_bytes (named_row (k, b)) ∧
    0 ≤ used' ≤ max_bytes ∧
    current_rows s coll max_bytes used' (mkPage (cp_entries result ++ [e]) (Some k)) rest = Ok page.
Proof using Hr Hp.
  intros Hk Hc Hu Hrow. destruct (pointer_row_spec k b Hk Hc) as (id & t & v & Hid & -> & -> & Ht & Hcur & Hv & Hkey & h & Hh & Hd).
  cbn [current_rows] in Hrow.
  assert (drop (length (coll_prefix coll)) (latest_version_key coll id) = id) as Hdrop.
  { unfold latest_version_key. rewrite app_assoc. apply drop_app_length. }
  rewrite Hdrop in Hrow. unfold from_utf8 at 1 in Hrow. rewrite (proj2 Hid), dec20_utf8 in Hrow. cbn [ok_or rbind] in Hrow.
  rewrite trim_fmt_dec20, parse_fmt_dec20 in Hrow by done. cbn [ok_or rbind] in Hrow.
  unfold versioned_doc_key in Hrow. rewrite bool_decide_false in Hrow by apply Hid. cbn [rbind] in Hrow.
  set (remaining := saturating_sub_u64 _ _) in Hrow.
  assert (0 ≤ remaining) as Hrem by (unfold remaining, saturating_sub_u64; lia).
  destruct (se_scan_prefix_from_budgeted s DocumentHistory (doc_key coll id t) None 1 remaining) as [hist|e] eqn:Hscan.
  2:{ left. destruct (bool_decide (e = Backpressure)); cbn [andb] in Hrow; [|done].
      destruct (bool_decide (cp_last_key result ≠ None)) eqn:Hb; [|done]. apply bool_decide_eq_true in Hb. by injection Hrow as <-. }
  right. apply scan_prefix_from_budgeted_ok in Hscan as [Hbudget Hempty]; [|lia|done].
  destruct (first_of_key _ _ _ Hh) as [rows Hrows]. rewrite Hrows in Hbudget, Hempty.
  destruct (ps_entries hist) as [|[k' v'] more] eqn:He; [by specialize (Hempty eq_refl)|].
  pose proof (bo_prefix _ _ _ _ Hbudget) as Hpre. rewrite He in Hpre. destruct Hpre as [? [= <- <- _]].
  rewrite bool_decide_true, Hd in Hrow by done. cbn [rbind] in Hrow. rewrite Hv in Hrow.
  destruct (body_fields (dv_body v)) as [fields|] eqn:Hf; [|done]. cbn [rbind] in Hrow.
  assert (named_row (latest_version_key coll id, fmt_dec20 t) = (doc_key coll id t, h)) as Hn
    by (unfold named_row; cbn [fst snd]; by rewrite Hkey, Hh).
  exists (latest_version_key coll id, id, fields), (used + row_bytes (latest_version_key coll id, fmt_dec20 t) + row_bytes (doc_key coll id t, h)).
  rewrite Hn. split_and!; [by exists v|done|..|done].
  - unfold row_bytes. lia.
  - pose proof (bo_bytes _ _ _ _ Hbudget) as Hb. rewrite He in Hb. cbn [rows_bytes foldr] in Hb. fold (rows_bytes more) in Hb.
    pose proof (rows_bytes_nonneg more). assert (0 < row_bytes (doc_key coll id t, h)).
    { unfold row_bytes, doc_key. cbn [fst snd]. rewrite !length_app. cbn [length bs]. lia. }
    unfold remaining, saturating_sub_u64 in Hb. lia.
Qed.

Lemma current_rows_spec max_bytes used (result page : CurrentDocumentPage) rows :
  (∀ k b, (k, b) ∈ rows → contents s LatestVersion !! k = Some b ∧ starts_with (coll_prefix coll) k = true) →
  0 ≤ used ≤ max_bytes →
  current_rows s coll max_bytes used result rows = Ok page →
  ∃ taken left es, rows = taken ++ left ∧ cp_entries page = cp_entries result ++ es ∧ Forall2 listed taken es ∧
    cp_last_key page = next_cursor (cp_last_key result) taken ∧ used + read_cost taken ≤ max_bytes ∧
    (cp_last_key page = None → rows = []).
Proof using Hr Hp.
  revert used result. induction rows as [|[k b] rows IH]; intros used result Hrows Hu Hrun.
  { injection Hrun as <-. exists [], [], []. split_and!; rewrite ?app_nil_r; try done. unfold read_cost. simpl. lia. }
  destruct (Hrows k b) as [Hk Hc]; [set_solver|].
  apply current_step in Hrun as [[-> Hne]|(e & used' & He & Hused & Hu' & Hrun)]; [|..|done|done|done].
  - exists [], ((k, b) :: rows), []. split_and!; rewrite ?app_nil_r; try done. unfold read_cost. simpl. lia.
  - apply IH in Hrun as (taken & left & es & -> & Hes & Hall & Hlast & Hcost & _); [|intros; apply Hrows; set_solver|done].
    simpl in Hes, Hlast. exists ((k, b) :: taken), left, (e :: es). split_and!; [done| |by constructor| | |].
    + by rewrite Hes, <-app_assoc.
    + rewrite Hlast. unfold next_cursor. rewrite last_cons. by destruct (last taken).
    + cbn [read_cost foldr]. fold (read_cost taken). lia.
    + rewrite Hlast. unfold next_cursor. by destruct (last taken).
Qed.

(** C39: a page of current documents lists, in the order of the keys, the live documents
    that follow its cursor, each with the fields of its current version; its last key is
    the cursor of exactly the documents left, it is empty only when none is left, and
    the rows read for it stay within both budgets. *)
Theorem current_page_lists (after : option bytes) (max_records max_bytes : Z) (page : CurrentDocumentPage) :
  0 < max_records → 0 ≤ max_bytes →
  current_document_page s coll after max_records max_bytes = Ok page →
  ∃ taken, pointer_rows after = taken ++ pointer_rows (next_cursor after taken) ∧
    Forall2 listed taken (cp_entries page) ∧ cp_last_key page = fst <$> last taken ∧
    Z.of_nat (length taken) ≤ max_records ∧ read_cost taken ≤ max_bytes ∧
    (cp_last_key page = None → pointer_rows after = []).
Proof using Hr Hp.
  intros Hmr Hmb Hpage. unfold current_document_page in Hpage.
  destruct (se_scan_prefix_from_budgeted s LatestVersion (coll_prefix coll) after max_records max_bytes) as [scan|e] eqn:Hscan; [|done].
  cbn [rbind] in Hpage. apply scan_prefix_from_budgeted_ok in Hscan as [Hb He]; [|done..].
  fold (pointer_rows after) in Hb, He. destruct (bo_prefix _ _ _ _ Hb) as [rest Hrows].
  apply current_rows_spec in Hpage as (taken & left & es & Htaken & Hes & Hall & Hlast & Hcost & Hnone); [| |lia].
  2:{ intros k b Hin. assert ((k, b) ∈ pointer_rows after) as (Hs & _ & Hk)%elem_of_st_rows_after; [|done].
      rewrite Hrows. set_solver. }
  exists taken. simpl in Hes. rewrite Hes. split_and!.
  - assert (pointer_rows after = taken ++ left ++ rest) as Hsplit by (by rewrite Hrows, Htaken, app_assoc).
    rewrite Hsplit. f_equal. symmetry. by apply rows_after_cursor.
  - done.
  - rewrite Hlast. unfold next_cursor. simpl. by destruct (last taken) as [[]|].
  - pose proof (bo_records _ _ _ _ Hb) as Hrec. rewrite Htaken, length_app in Hrec. lia.
  - lia.
  - intros Hn. by apply He, Hnone.
Qed.
End pages.
