(* ===== verification/HistoryCases.v ===== *)
(** * Histories of a small collection

    A session on the store in memory: two documents written, one of them deleted, read
    back now and as of an earlier time, and its pointers lost and rebuilt. *)

From Stdlib Require Import ZArith Lia Strings.Byte.
From stdpp Require Import prelude gmap strings sorting.
From S2P Require Import Prelude Bytes Ordered Text StorageTrait Pagedb PagedbMem.
From S2P Require Import History HistorySpec HistoryBackfill HistoryPage.

Local Open Scope Z_scope.

#[local] Instance entry_order : HashOrder.
Proof. refine {| hash_iter K A _ _ i j m := map_to_list m |}. done. Defined.

Definition notes : bytes := bs "notes".

Definition note_ops : list HistoryOp :=
  [HPut (bs "a") (bs "first") 10 None None; HPut (bs "b") (bs "second") 11 (Some 0) (Some 100);
   HPut (bs "a") (bs "third") 12 None None; HTombstone (bs "b") 13 None].

Definition note_db : MemDb := (run_ops notes (∅ : MemDb) note_ops).2.

(** An empty store holds the empty history. *)
Lemma represents_empty (m : Store) coll :
  (∀ ns, m ns = ∅) → represents m coll ∅.
Proof.
  intros Hm. split.
  - split; intros id l; rewrite lookup_empty; done.
  - intros k b. by rewrite Hm, lookup_empty.
  - intros id t v. unfold versions. rewrite lookup_empty. set_solver.
  - intros id _. unfold versions. by rewrite Hm, !lookup_empty.
Qed.

Lemma times_below_empty b : times_below ∅ b.
Proof. intros id t v. unfold versions. rewrite lookup_empty. set_solver. Qed.

Lemma note_ops_wf : Forall op_wf note_ops.
Proof.
  assert (∀ b : byte, b ≠ x00 → utf8_valid [b] = true → valid_id [b]) as Hid.
  { intros b Hb Hu. split; [|done]. by intros <-%list_elem_of_singleton. }
  unfold note_ops. rewrite !Forall_cons, Forall_nil. unfold op_wf.
  split_and!; try (by apply Hid); cbn; unfold i64_ok, i64_min, i64_max; try lia; done.
Qed.

Example note_session_results : (run_ops notes (∅ : MemDb) note_ops).1.*2 = [Ok tt; Ok tt; Ok tt; Ok tt].
Proof. vm_compute. reflexivity. Qed.

Example note_reads :
  versioned_get_current note_db notes (bs "a") = Ok (Some (mkVersion Live 12 i64_max (bs "third"))) ∧
  versioned_get_current note_db notes (bs "b") = Ok None ∧
  versioned_get_as_of note_db notes (bs "a") 11 None = Ok (Some (mkVersion Live 10 i64_max (bs "first"))) ∧
  versioned_get_as_of note_db notes (bs "b") 12 (Some 50) = Ok (Some (mkVersion Live 0 100 (bs "second"))) ∧
  versioned_get_as_of note_db notes (bs "b") 12 (Some 100) = Ok None ∧
  (versioned_put note_db notes [x41; x00] (bs "x") 14 None None).1 = Err BadRequest.
Proof. split_and!; vm_compute; reflexivity. Qed.

Lemma history_session_witness :
  let '(tr, s') := run_ops notes (∅ : MemDb) note_ops in
  ∃ A', history_trace ∅ tr A' ∧
    (healthy s' →
      (∀ id, valid_id id → versioned_get_current s' notes id = Ok (current (versions A' id))) ∧
      (∀ id a vt, valid_id id → versioned_get_as_of s' notes id a vt = Ok (as_of (versions A' id) a vt)) ∧
      ∃ docs, scan_live_documents s' notes = Ok docs ∧ docs ≡ₚ live_docs A').
Proof.
  apply (history_session notes (∅ : MemDb) note_ops ∅ 0).
  - apply represents_empty, mem_empty_contents.
  - apply times_below_empty.
  - apply note_ops_wf.
  - repeat constructor.
  - repeat constructor; simpl; lia.
Defined.

(** ** Pointers lost *)

Definition note_docs : Docs := foldl docs_after ∅ note_ops.

(** The store of the session with its pointers deleted. *)
Definition bare_db : MemDb :=
  (batch_write_rows note_db [Delete LatestVersion (latest_version_key notes (bs "a"));
                             Delete LatestVersion (latest_version_key notes (bs "b"))]).2.

Example bare_rebuild :
  ((λ r : res unit * MemDb, (r.1, se_get r.2 LatestVersion (latest_version_key notes (bs "a")),
      se_get r.2 LatestVersion (latest_version_key notes (bs "b"))))
    <$> backfill_latest_version 5 bare_db notes) =
  Some (Ok tt, Ok (Some (bs "00000000000000000012")), Ok None).
Proof. vm_compute. reflexivity. Qed.

Lemma note_db_represents : represents (contents note_db) notes note_docs.
Proof.
  destruct (run_ops_spec notes (∅ : MemDb) note_ops ∅ 0) as (A & Ht & Hr).
  - apply represents_empty, mem_empty_contents.
  - apply times_below_empty.
  - apply note_ops_wf.
  - repeat constructor.
  - repeat constructor; simpl; lia.
  - enough (A = note_docs) as -> by exact Hr.
    assert ((run_ops notes (∅ : MemDb) note_ops).1 = (λ op, (op, Ok tt)) <$> note_ops) as Htr by (vm_compute; reflexivity).
    rewrite Htr in Ht. unfold note_docs. clear - Ht.
    revert Ht. generalize (∅ : Docs). generalize note_ops. intros ops. induction ops as [|op ops IH]; intros A0 Ht.
    + by inversion Ht.
    + inversion Ht as [|? ? ? ? ? Ht'|]; subst. by apply IH.
Qed.

Lemma bare_history :
  history_rows (contents bare_db) notes note_docs ∧
  ∀ id, valid_id id → versions note_docs id = [] → contents bare_db LatestVersion !! latest_version_key notes id = None.
Proof.
  set (ops := [Delete LatestVersion (latest_version_key notes (bs "a"));
               Delete LatestVersion (latest_version_key notes (bs "b"))]).
  pose proof note_db_represents as Hr. assert (contents bare_db ≡ st_ops (contents note_db) ops) as Hc.
  { apply (batch_ok note_db ops). apply injective_projections; [|done]. vm_compute. reflexivity. }
  assert (contents bare_db DocumentHistory = contents note_db DocumentHistory) as Hh
    by (rewrite (Hc DocumentHistory); cbn [st_ops foldl st_op]; by store_simpl).
  split.
  - destruct Hr as [HA Hrows Hvers _]. split; [done|by rewrite Hh..].
  - intros id Hid Hv. rewrite (Hc LatestVersion). cbn [ops st_ops foldl st_op]. store_simpl.
    rewrite !lookup_delete_None. right. right. by rewrite (rep_pointer _ _ _ Hr id Hid), Hv.
Qed.


(** ** Pages *)

(** Bodies that are their own fields. *)
#[local] Instance raw_body : BodyCodec bytes bytes := {
  value_from_msgpack b := Some b;
  as_object v := Some v;
  no_fields := []
}.

Example note_page :
  current_document_page note_db notes None 10 1000 =
    Ok (mkPage [(latest_version_key notes (bs "a"), bs "a", bs "third")] (Some (latest_version_key notes (bs "a")))) ∧
  current_document_page note_db notes (Some (latest_version_key notes (bs "a"))) 10 1000 = Ok (mkPage [] None) ∧
  current_document_page note_db notes None 10 40 = Err Backpressure.
Proof. split_and!; vm_compute; reflexivity. Qed.

Lemma note_pointers : pointers_valid notes note_db.
Proof.
  assert (bool_decide (contents note_db LatestVersion = {[latest_version_key notes (bs "a") := fmt_dec20 12]}) = true) as He
    by (vm_compute; reflexivity).
  apply bool_decide_eq_true in He. intros k b. rewrite He. intros [<- _]%lookup_singleton_Some _.
  exists (bs "a"). split; [|done]. split; [|done]. cbn. by intros ?%list_elem_of_singleton.
Qed.

Lemma current_page_lists_witness :
  let page := mkPage [(latest_version_key notes (bs "a"), bs "a", bs "third")] (Some (latest_version_key notes (bs "a"))) in
  ∃ taken, pointer_rows notes note_db None = taken ++ pointer_rows notes note_db (next_cursor None taken) ∧
    Forall2 (listed notes note_docs) taken (cp_entries page) ∧ cp_last_key page = fst <$> last taken ∧
    Z.of_nat (length taken) ≤ 10 ∧ read_cost note_db taken ≤ 1000 ∧
    (cp_last_key page = None → pointer_rows notes note_db None = []).
Proof.
  apply (current_page_lists notes note_docs note_db note_db_represents note_pointers None 10 1000).
  - lia.
  - lia.
  - apply note_page.
Defined.

(** ** Outside the assumptions *)

Definition body_read (r : res (option DecodedVersion)) : option bytes :=
  match r with Ok (Some v) => Some (dv_body v) | _ => None end.

(** Before 1970 the digits of the times sort in reverse: the older of two versions is
    the one read as of a later time. *)
Example negative_times_reversed :
  let s := (run_ops notes (∅ : MemDb) [HPut (bs "a") (bs "old") (-5) None None; HPut (bs "a") (bs "new") (-3) None None]).2 in
  body_read (versioned_get_as_of s notes (bs "a") 0 None) = Some (bs "old") ∧
  body_read (versioned_get_current s notes (bs "a")) = Some (bs "new").
Proof. split; vm_compute; reflexivity. Qed.

(** A colon is not escaped: a document of [a] is read as one of [a:b]. *)
Example colon_shares_keys :
  let s := (run_ops (bs "a") (∅ : MemDb) [HPut (bs "b:c") (bs "x") 1 None None]).2 in
  body_read (versioned_get_current s (bs "a:b") (bs "c")) = Some (bs "x").
Proof. vm_compute. reflexivity. Qed.
