(* ===== verification/IndexDefs.v ===== *)
(** * Index definitions and what an index holds for a row

    [src/nodedb-lite/src/index/catalog.rs] and [document.rs]: definitions of secondary
    indexes, the values an index takes from a document and the entry keys of a
    document.  Expressions, the coerced comparison of values, Unicode lowercase and the
    stored form of a definition are of other crates and of the standard library's
    tables; they are the operations of the class [IndexOps]. *)

From Stdlib Require Import ZArith Lia Strings.Byte.
From stdpp Require Import prelude gmap strings sorting.
From S2P Require Import Prelude Bytes Ordered Text StorageTrait IndexKey SortedKeys.

Local Open Scope Z_scope.

(** ** Definitions *)

Inductive IndexEngine := EDocument | EStrict | EKeyValue.

#[global] Instance IndexEngine_eq_dec : EqDecision IndexEngine.
Proof. solve_decision. Defined.

Record IndexPredicate (E : Type) := mkPredicate { ip_sql : bytes; ip_expr : E }.
Arguments mkPredicate {E}.
Arguments ip_sql {E}.
Arguments ip_expr {E}.

Record IndexDef (E : Type) := mkIndexDef {
  ix_name : bytes;
  ix_collection : bytes;
  ix_path : bytes;
  ix_unique : bool;
  ix_case_insensitive : bool;
  ix_is_array : bool;
  ix_predicate : option (IndexPredicate E);
  ix_engine : IndexEngine
}.
Arguments mkIndexDef {E}.
Arguments ix_name {E}.
Arguments ix_collection {E}.
Arguments ix_path {E}.
Arguments ix_unique {E}.
Arguments ix_case_insensitive {E}.
Arguments ix_is_array {E}.
Arguments ix_predicate {E}.
Arguments ix_engine {E}.

(** What the index layer uses of other crates. *)
Class IndexOps (O E : Type) := {
  eq_coerced : Value O → Value O → bool;
  expr_eval : E → Value O → option (Value O);
  expr_parse : bytes → option E;
  str_lowercase : bytes → bytes;
  def_to_msgpack : IndexDef E → option bytes;
  def_from_msgpack : bytes → option (IndexDef E);
  sorted_to_msgpack : SortedIndexDef → option bytes;
  sorted_from_msgpack : bytes → option SortedIndexDef
}.

Definition field_spec (path : bytes) (is_array : bool) : bytes :=
  if is_array then path ++ bs "[]" else path.

(** [str::strip_suffix]. *)
Definition strip_suffix (suffix s : bytes) : option bytes :=
  reverse <$> strip_prefix (reverse suffix) (reverse s).

Definition canonical_field (field : bytes) : bytes * bool :=
  let '(field, is_array) :=
    match strip_suffix (bs "[]") field with
    | Some inner => (inner, true)
    | None => (field, false)
    end in
  (if starts_with (bs "$") field then field else bs "$." ++ field, is_array).

Definition default_index_name (collection field : bytes) : bytes :=
  bs "idx_" ++ collection ++ bs "_" ++ field.

Definition entry_prefix {E} (def : IndexDef E) : bytes := index_prefix (ix_collection def) (ix_name def).

Definition def_field_spec {E} (def : IndexDef E) : bytes := field_spec (ix_path def) (ix_is_array def).

(** ** Paths *)

(** [str::trim_start_matches] of one character. *)
Fixpoint trim_start (c : byte) (s : bytes) : bytes :=
  match s with
  | [] => []
  | b :: rest => if decide (b = c) then trim_start c rest else s
  end.

(** [str::split] at one character: the segments, at least one. *)
Fixpoint split_at (c : byte) (s : bytes) : list bytes :=
  match s with
  | [] => [[]]
  | b :: rest =>
      if decide (b = c) then [] :: split_at c rest
      else match split_at c rest with
           | seg :: segs => (b :: seg) :: segs
           | [] => [[b]]
           end
  end.

Definition DOLLAR : byte := x24.
Definition DOT : byte := x2e.

Section ops.
Context {O E : Type} `{VC : ValueCodec O} `{IO : IndexOps O E}.

Fixpoint field_walk (current : Value O) (segments : list bytes) : option (Value O) :=
  match segments with
  | [] => Some current
  | segment :: rest =>
      match current with
      | VObject map => let* next := map !! segment in field_walk next rest
      | _ => None
      end
  end.

Definition field_at (row : Value O) (path : bytes) : option (Value O) :=
  let path := trim_start DOT (trim_start DOLLAR path) in
  if bool_decide (path = []) then Some row else field_walk row (split_at DOT path).

(** ** What an index holds *)

Definition predicate_parse (sql : bytes) : res (IndexPredicate E) :=
  let? expr := ok_or (expr_parse sql) BadRequest in Ok (mkPredicate sql expr).

Definition predicate_matches (p : IndexPredicate E) (row : Value O) : bool :=
  match expr_eval (ip_expr p) row with Some (VBool true) => true | _ => false end.

Definition fold_case (def : IndexDef E) (value : Value O) : Value O :=
  match value with
  | VString s => if ix_case_insensitive def then VString (str_lowercase s) else value
  | other => other
  end.

Definition indexable (value : Value O) : bool :=
  match value with VNull | VArray _ | VObject _ => false | _ => true end.

Definition index_values (def : IndexDef E) (row : Value O) : list (Value O) :=
  if match ix_predicate def with Some p => negb (predicate_matches p row) | None => false end then []
  else
    match field_at row (ix_path def) with
    | None => []
    | Some (VArray items) =>
        if ix_is_array def then fold_case def <$> filter (λ v, indexable v = true) items else []
    | Some v => if indexable v then [fold_case def v] else []
    end.

Definition entry_keys (def : IndexDef E) (doc_id : bytes) (row : Value O) : gset bytes :=
  let prefix := entry_prefix def in
  list_to_set ((λ encoded, entry_key prefix encoded doc_id) <$> (index_values def row ≫= encode_coercible)).

Definition matches_probe (def : IndexDef E) (row probe : Value O) : bool :=
  match field_at row (ix_path def) with
  | None => false
  | Some field => eq_coerced (fold_case def field) (fold_case def probe)
  end.

(** The mode of a CRDT row write. *)
Inductive CrdtRowWrite := Upsert | SetFields.

(** The fields are given as values: [loro_value_to_value] converts each. *)
Definition predicted_row (base : option (Value O)) (mode : CrdtRowWrite) (fields : list (bytes * Value O)) : Value O :=
  let map := match mode, base with
             | SetFields, Some (VObject map) => map
             | _, _ => ∅
             end in
  VObject (foldl (λ map f, <[f.1 := f.2]> map) map fields).

(** ** Stored definitions *)

Definition def_encode (def : IndexDef E) : res bytes := ok_or (def_to_msgpack def) Serialization.
Definition def_decode (b : bytes) : res (IndexDef E) := ok_or (def_from_msgpack b) Corrupted.
Definition sorted_encode (def : SortedIndexDef) : res bytes := ok_or (sorted_to_msgpack def) Serialization.
Definition sorted_decode (b : bytes) : res SortedIndexDef := ok_or (sorted_from_msgpack b) Corrupted.
End ops.
