(* ===== verification/IndexStore.v ===== *)
(** * The index catalog

    [src/nodedb-lite/src/index/store.rs], [maintain.rs] and [lookup.rs]: definitions and
    entries in memory, the keys whose stored form is behind, the entry changes a row
    write makes, the unique check and the index reads.  The catalog's mutex makes each
    operation a step of its own. *)

From Stdlib Require Import ZArith Lia Strings.Byte.
From stdpp Require Import prelude gmap strings sorting.
From S2P Require Import Prelude Bytes Ordered Text StorageTrait IndexKey SortedKeys IndexDefs.

Local Open Scope Z_scope.

(** A [BTreeSet] of keys iterates in their order. *)
Definition sorted_elems (X : gset bytes) : list bytes := (entries (gset_to_gmap tt X)).*1.

(** [set.range(prefix..).take_while(|k| k.starts_with(prefix))]. *)
Definition set_prefix (X : gset bytes) (prefix : bytes) : list bytes :=
  take_while (starts_with prefix) (filter (λ k, prefix <=b k) (sorted_elems X)).

Record Dirty := mkDirty { d_seq : Z; d_value : option bytes }.

Record IndexState (E : Type) := mkIndexState {
  is_defs : gmap bytes (IndexDef E);
  is_sorted : gmap bytes SortedIndexDef;
  is_entries : gset bytes;
  is_postings : gmap (bytes * bytes) (gset bytes);
  is_tombstoned : gset (bytes * bytes);
  is_dirty : gmap bytes Dirty;
  is_next_seq : Z;
  is_sink : option (list WriteOp)
}.
Arguments mkIndexState {E}.
Arguments is_defs {E}.
Arguments is_sorted {E}.
Arguments is_entries {E}.
Arguments is_postings {E}.
Arguments is_tombstoned {E}.
Arguments is_dirty {E}.
Arguments is_next_seq {E}.
Arguments is_sink {E}.

Inductive IndexWriteOp := IPut (entry : bytes) | IDelete (entry : bytes).

Section state.
Context {E : Type}.

Definition index_state_default : IndexState E := mkIndexState ∅ ∅ ∅ ∅ ∅ ∅ 0 None.

Definition with_defs (f : gmap bytes (IndexDef E) → gmap bytes (IndexDef E)) (s : IndexState E) : IndexState E :=
  mkIndexState (f (is_defs s)) (is_sorted s) (is_entries s) (is_postings s) (is_tombstoned s) (is_dirty s)
    (is_next_seq s) (is_sink s).
Definition with_sorted (f : gmap bytes SortedIndexDef → gmap bytes SortedIndexDef) (s : IndexState E) : IndexState E :=
  mkIndexState (is_defs s) (f (is_sorted s)) (is_entries s) (is_postings s) (is_tombstoned s) (is_dirty s)
    (is_next_seq s) (is_sink s).
Definition with_entries (f : gset bytes → gset bytes) (s : IndexState E) : IndexState E :=
  mkIndexState (is_defs s) (is_sorted s) (f (is_entries s)) (is_postings s) (is_tombstoned s) (is_dirty s)
    (is_next_seq s) (is_sink s).
Definition with_postings (f : gmap (bytes * bytes) (gset bytes) → gmap (bytes * bytes) (gset bytes))
    (s : IndexState E) : IndexState E :=
  mkIndexState (is_defs s) (is_sorted s) (is_entries s) (f (is_postings s)) (is_tombstoned s) (is_dirty s)
    (is_next_seq s) (is_sink s).
Definition with_tombstoned (f : gset (bytes * bytes) → gset (bytes * bytes)) (s : IndexState E) : IndexState E :=
  mkIndexState (is_defs s) (is_sorted s) (is_entries s) (is_postings s) (f (is_tombstoned s)) (is_dirty s)
    (is_next_seq s) (is_sink s).
Definition with_sink (k : option (list WriteOp)) (s : IndexState E) : IndexState E :=
  mkIndexState (is_defs s) (is_sorted s) (is_entries s) (is_postings s) (is_tombstoned s) (is_dirty s)
    (is_next_seq s) k.
Definition with_dirty (d : gmap bytes Dirty) (seq : Z) (s : IndexState E) : IndexState E :=
  mkIndexState (is_defs s) (is_sorted s) (is_entries s) (is_postings s) (is_tombstoned s) d seq (is_sink s).

(** [BTreeMap::values]: in the order of the names. *)
Definition def_values (s : IndexState E) : list (IndexDef E) := (entries (is_defs s)).*2.

Definition defs_on (s : IndexState E) (collection : bytes) (engine : IndexEngine) : list (IndexDef E) :=
  filter (λ d, ix_collection d = collection ∧ ix_engine d = engine) (def_values s).

(** The write of a key's stored form. *)
Definition index_write (key : bytes) (value : option bytes) : WriteOp :=
  match value with Some v => Put Meta key v | None => Delete Meta key end.

(** The counter is 64 bits wide; it counts the changes of one process. *)
Definition mark (s : IndexState E) (key : bytes) (value : option bytes) : IndexState E :=
  match is_sink s with
  | Some sink => with_sink (Some (sink ++ [index_write key value])) s
  | None =>
      let seq := is_next_seq s + 1 in
      with_dirty (<[key := mkDirty seq value]> (is_dirty s)) seq s
  end.

(** A posting gains an entry, or loses it and goes when it was the last. *)
Definition posting_insert (key : bytes * bytes) (entry : bytes)
    (postings : gmap (bytes * bytes) (gset bytes)) : gmap (bytes * bytes) (gset bytes) :=
  <[key := {[entry]} ∪ default ∅ (postings !! key)]> postings.

Definition posting_remove (key : bytes * bytes) (entry : bytes)
    (postings : gmap (bytes * bytes) (gset bytes)) : gmap (bytes * bytes) (gset bytes) :=
  match postings !! key with
  | Some keys =>
      let keys := keys ∖ {[entry]} in
      if bool_decide (keys = ∅) then delete key postings else <[key := keys]> postings
  | None => postings
  end.

Definition apply_one (posting_key : bytes * bytes) (s : IndexState E) (op : IndexWriteOp) : IndexState E :=
  match op with
  | IPut entry =>
      let s := with_postings (posting_insert posting_key entry) s in
      let s := with_entries (λ es, {[entry]} ∪ es) s in
      mark s entry (Some [])
  | IDelete entry =>
      let s := with_postings (posting_remove posting_key entry) s in
      let s := with_entries (λ es, es ∖ {[entry]}) s in
      mark s entry None
  end.

Definition apply (s : IndexState E) (collection doc_id : bytes) (ops : list IndexWriteOp) : IndexState E :=
  foldl (apply_one (collection, doc_id)) s ops.

Definition clear_one (s : IndexState E) (entry : bytes) : IndexState E :=
  let s := match parse_entry entry with
           | Some parsed => with_postings (posting_remove (pe_collection parsed, pe_doc_id parsed) entry) s
           | None => s
           end in
  let s := with_entries (λ es, es ∖ {[entry]}) s in
  mark s entry None.

Definition clear_prefix (s : IndexState E) (prefix : bytes) : IndexState E :=
  foldl clear_one s (set_prefix (is_entries s) prefix).

(** [scratch]: the definitions [defs] with their entries. *)
Definition scratch_entry (s : IndexState E) (entry : bytes) : IndexState E :=
  let s := match parse_entry entry with
           | Some parsed => with_postings (posting_insert (pe_collection parsed, pe_doc_id parsed) entry) s
           | None => s
           end in
  with_entries (λ es, {[entry]} ∪ es) s.

Definition scratch (s : IndexState E) (defs : list (IndexDef E)) : IndexState E :=
  foldl (λ scratch def,
           foldl scratch_entry (with_defs (<[ix_name def := def]>) scratch)
             (set_prefix (is_entries s) (entry_prefix def)))
        index_state_default defs.

Definition collecting {R} (durable : bool) (f : IndexState E → R * IndexState E) (s : IndexState E)
    : R * list WriteOp * IndexState E :=
  if negb durable then let '(r, s) := f s in (r, [], s)
  else
    let outer := is_sink s in
    let '(r, s) := f (with_sink (Some []) s) in
    (r, default [] (is_sink s), with_sink outer s).
End state.

Section catalog.
Context {O E : Type} `{VC : ValueCodec O} `{IO : IndexOps O E}.

Definition put_def (s : IndexState E) (def : IndexDef E) : res unit * IndexState E :=
  match def_encode def with
  | Err e => (Err e, s)
  | Ok b =>
      let s := mark s (def_key (ix_collection def) (ix_name def)) (Some b) in
      (Ok tt, with_defs (<[ix_name def := def]>) s)
  end.

Definition remove_def (s : IndexState E) (name : bytes) : option (IndexDef E) * IndexState E :=
  match is_defs s !! name with
  | None => (None, s)
  | Some def =>
      let s := with_defs (delete name) s in
      let s := clear_prefix s (entry_prefix def) in
      let s := mark s (def_key (ix_collection def) (ix_name def)) None in
      (Some def, s)
  end.

(** ** Reads of the catalog *)

Definition has_defs (s : IndexState E) (collection : bytes) (engine : IndexEngine) : bool :=
  existsb (λ d, bool_decide (ix_collection d = collection ∧ ix_engine d = engine)) (def_values s).
Definition is_indexed (s : IndexState E) (collection : bytes) : bool := has_defs s collection EDocument.
Definition def_named (s : IndexState E) (name : bytes) : option (IndexDef E) := is_defs s !! name.
Definition def_on_field (s : IndexState E) (collection spec : bytes) : option (IndexDef E) :=
  head (filter (λ d, ix_collection d = collection ∧ def_field_spec d = spec) (def_values s)).
Definition sorted_values (s : IndexState E) : list SortedIndexDef := (entries (is_sorted s)).*2.
Definition sorted_on (s : IndexState E) (collection : bytes) : list SortedIndexDef :=
  filter (λ d, sd_collection d = collection) (sorted_values s).
Definition sorted_named (s : IndexState E) (name : bytes) : option SortedIndexDef := is_sorted s !! name.
Definition has_sorted (s : IndexState E) (collection : bytes) : bool :=
  existsb (λ d, bool_decide (sd_collection d = collection)) (sorted_values s).

(** ** Maintenance *)

Definition new_keys (defs : list (IndexDef E)) (doc_id : bytes) (new : option (Value O)) : gset bytes :=
  match new with
  | Some row => ⋃ ((λ def, entry_keys def doc_id row) <$> defs)
  | None => ∅
  end.

Definition plan_index_ops (defs : list (IndexDef E)) (doc_id : bytes) (old_keys : gset bytes)
    (new : option (Value O)) : list IndexWriteOp :=
  let new_keys := new_keys defs doc_id new in
  (IDelete <$> sorted_elems (old_keys ∖ new_keys)) ++ (IPut <$> sorted_elems (new_keys ∖ old_keys)).

Definition ids_under (s : IndexState E) (index_prefix prefix : bytes) : list bytes :=
  omap (λ k, entry_doc_id k index_prefix) (set_prefix (is_entries s) prefix).

Definition resync_one (defs : list (IndexDef E)) (collection : bytes) (read_row : bytes → option (Value O))
    (s : IndexState E) (id : bytes) : IndexState E :=
  let posting_key := (collection, id) in
  let row := if bool_decide (posting_key ∈ is_tombstoned s) then None else read_row id in
  let old := default ∅ (is_postings s !! posting_key) in
  apply s collection id (plan_index_ops defs id old row).

Definition resync (s : IndexState E) (collection : bytes) (ids : list bytes) (read_row : bytes → option (Value O))
    : IndexState E :=
  let defs := defs_on s collection EDocument in
  if bool_decide (defs = []) then s else foldl (resync_one defs collection read_row) s ids.

Definition tombstone (s : IndexState E) (collection : bytes) (ids : list bytes) : IndexState E :=
  let s := foldl (λ s id, with_tombstoned (λ t, {[(collection, id)]} ∪ t) s) s ids in
  resync s collection ids (λ _, None).

Definition revive (s : IndexState E) (collection id : bytes) : IndexState E :=
  with_tombstoned (λ t, t ∖ {[(collection, id)]}) s.

(** ** Unique indexes *)

Record UniqueCandidate := mkCandidate { uc_def : IndexDef E; uc_value : Value O; uc_other : bytes }.

Definition held_by (c : UniqueCandidate) (stored : Value O) : bool :=
  existsb (λ held, eq_coerced held (uc_value c)) (index_values (uc_def c) stored).

(** The stored documents under the keys of a value, those being written and those gone apart. *)
Definition value_candidates (s : IndexState E) (collection : bytes) (written : list bytes) (def : IndexDef E)
    (value : Value O) : list UniqueCandidate :=
  let prefix := entry_prefix def in
  others ← (λ encoded, ids_under s prefix (prefix ++ encoded)) <$> encode_coercible value;
  mkCandidate def value <$>
    filter (λ other, other ∉ written ∧ (collection, other) ∉ is_tombstoned s) others.

Definition Claims : Type := list (bytes * Value O) * list UniqueCandidate.

(** One value of a row: refused when another row of the write holds it. *)
Definition claim_value (s : IndexState E) (collection : bytes) (written : list bytes) (def : IndexDef E) (id : bytes)
    (c : Claims) (value : Value O) : res Claims :=
  let '(claimed, candidates) := c in
  if existsb (λ p : bytes * Value O, negb (bool_decide (p.1 = id)) && eq_coerced p.2 value) claimed
  then Err UniqueViolation
  else Ok (claimed ++ [(id, value)], candidates ++ value_candidates s collection written def value).

Definition claim_row (s : IndexState E) (collection : bytes) (written : list bytes) (def : IndexDef E)
    (c : Claims) (r : bytes * option (Value O)) : res Claims :=
  let claimed := filter (λ p : bytes * Value O, p.1 ≠ r.1) c.1 in
  match r.2 with
  | None => Ok (claimed, c.2)
  | Some row => rfold (claim_value s collection written def r.1) (claimed, c.2) (index_values def row)
  end.

Definition claim_def (s : IndexState E) (collection : bytes) (rows : list (bytes * option (Value O)))
    (candidates : list UniqueCandidate) (def : IndexDef E) : res (list UniqueCandidate) :=
  let? c := rfold (claim_row s collection rows.*1 def) ([], candidates) rows in
  Ok c.2.

Definition unique_candidates (s : IndexState E) (collection : bytes) (engine : IndexEngine)
    (rows : list (bytes * option (Value O))) : res (list UniqueCandidate) :=
  rfold (claim_def s collection rows) [] (filter (λ d, ix_unique d = true) (defs_on s collection engine)).

Definition refuted (read_row : bytes → option (Value O)) (c : UniqueCandidate) : bool :=
  match read_row (uc_other c) with Some stored => held_by c stored | None => false end.

Definition check_unique (s : IndexState E) (collection : bytes) (rows : list (bytes * option (Value O)))
    (read_row : bytes → option (Value O)) : res unit :=
  let? candidates := unique_candidates s collection EDocument rows in
  if existsb (refuted read_row) candidates then Err UniqueViolation else Ok tt.

(** ** Building an index *)

(** The values of the rows so far, refused when two documents share one. *)
Definition seen_value (id : bytes) (seen : list (bytes * Value O)) (value : Value O) : res (list (bytes * Value O)) :=
  if existsb (λ p : bytes * Value O, negb (bool_decide (p.1 = id)) && eq_coerced p.2 value) seen
  then Err UniqueViolation
  else Ok (seen ++ [(id, value)]).

Definition seen_row (def : IndexDef E) (seen : list (bytes * Value O)) (r : bytes * Value O)
    : res (list (bytes * Value O)) :=
  rfold (seen_value r.1) seen (index_values def r.2).

Definition install_row (def : IndexDef E) (c : Z * IndexState E) (r : bytes * Value O) : Z * IndexState E :=
  let ops := IPut <$> sorted_elems (entry_keys def r.1 r.2) in
  (c.1 + Z.of_nat (length ops), apply c.2 (ix_collection def) r.1 ops).

Definition install_state (def : IndexDef E) (rows : list (bytes * Value O)) (s : IndexState E)
    : res Z * IndexState E :=
  let s := match is_defs s !! ix_name def with
           | Some existing => clear_prefix s (entry_prefix existing)
           | None => s
           end in
  let s := clear_prefix s (entry_prefix def) in
  match put_def s def with
  | (Err e, s) => (Err e, s)
  | (Ok _, s) => let '(count, s) := foldl (install_row def) (0, s) rows in (Ok count, s)
  end.

Definition install (s : IndexState E) (def : IndexDef E) (rows : list (bytes * Value O))
    : res (Z * list WriteOp) * IndexState E :=
  match (if ix_unique def then rfold (seen_row def) [] rows else Ok []) with
  | Err e => (Err e, s)
  | Ok _ =>
      let durable := negb (bool_decide (ix_engine def = EDocument)) in
      let '(built, ops, s) := collecting durable (install_state def rows) s in
      (rmap (λ count, (count, ops)) built, s)
  end.

(** ** Index reads *)

(** Keep the first occurrence of each id. *)
Fixpoint dedup_from (seen : gset bytes) (ids : list bytes) : list bytes :=
  match ids with
  | [] => []
  | id :: rest => if bool_decide (id ∈ seen) then dedup_from seen rest else id :: dedup_from ({[id]} ∪ seen) rest
  end.
Definition dedup (ids : list bytes) : list bytes := dedup_from ∅ ids.

Definition lookup_eq (s : IndexState E) (def : IndexDef E) (probe : Value O) : list bytes :=
  let prefix := entry_prefix def in
  dedup (encode_coercible (fold_case def probe) ≫= λ encoded, ids_under s prefix (prefix ++ encoded)).

Definition ClassRange : Type := byte * option bytes * option bytes.

(** One range per value class the bounds share. *)
Definition class_ranges (lower_keys upper_keys : option (list bytes)) : option (list ClassRange) :=
  match lower_keys, upper_keys with
  | Some lo, Some hi =>
      Some (omap (λ l, let* h := head (filter (λ h, head h = head l) hi) in
                       let* tag := head l in
                       Some (tag, Some l, Some h)) lo)
  | Some lo, None => Some (omap (λ l, let* tag := head l in Some (tag, Some l, None)) lo)
  | None, Some hi => Some (omap (λ h, let* tag := head h in Some (tag, None, Some h)) hi)
  | None, None => None
  end.

Definition range_ids (s : IndexState E) (prefix : bytes) (r : ClassRange) : list bytes :=
  let '(tag, lo, hi) := r in
  let start := prefix ++ default [tag] lo in
  match hi with
  | Some h =>
      let end_ := (prefix ++ h) ++ [xff] in
      if bytes_ltb end_ start then []
      else omap (λ k, entry_doc_id k prefix) (filter (λ k, start <=b k ∧ k <=b end_) (sorted_elems (is_entries s)))
  | None =>
      let end_ := prefix ++ [zb (bz tag + 1)] in
      if bytes_leb end_ start then []
      else omap (λ k, entry_doc_id k prefix) (filter (λ k, start <=b k ∧ k <b end_) (sorted_elems (is_entries s)))
  end.

Definition lookup_range (s : IndexState E) (def : IndexDef E) (lower upper : option (Value O)) : option (list bytes) :=
  let classes := λ bound : option (Value O), (λ v, encode_coercible (fold_case def v)) <$> bound in
  let* ranges := class_ranges (classes lower) (classes upper) in
  if bool_decide (ranges = []) then None
  else Some (dedup (ranges ≫= range_ids s (entry_prefix def))).
End catalog.
