(* ===== verification/IndexDurable.v ===== *)
(** * The stored catalog

    Loading and flushing the catalog ([src/nodedb-lite/src/index/store.rs]), row writes
    whose entries go to storage with the rows ([durable.rs]), changes by DDL ([ddl.rs])
    and the build of strict and key-value indexes ([rebuild.rs]).  The locks [durable_ddl]
    and [durable_rows] are held across an operation, so each is a step of its own. *)

From Stdlib Require Import ZArith Lia Strings.Byte.
From stdpp Require Import prelude gmap strings sorting.
From S2P Require Import Prelude Bytes Ordered Text StorageTrait IndexKey SortedKeys IndexDefs IndexStore.

Local Open Scope Z_scope.

Definition FORMAT_VERSION : Z := 1.

Section durable.
Context {O E : Type} `{VC : ValueCodec O} `{IO : IndexOps O E}.
Context {S : Type} `{StorageEngine S}.

(** ** Loading *)

Definition load_entry (current : bool) (s : IndexState E) (row : KvPair) : IndexState E :=
  match (if current then parse_entry row.1 else None) with
  | Some parsed =>
      let s := with_postings (posting_insert (pe_collection parsed, pe_doc_id parsed) row.1) s in
      with_entries (λ es, {[row.1]} ∪ es) s
  | None => mark s row.1 None
  end.

Definition load (s : IndexState E) (storage : S) : res bool * IndexState E * S :=
  let read :=
    let? format := se_get storage Meta format_key in
    let? defs := se_scan_prefix storage Meta defs_prefix in
    let? entries := se_scan_prefix storage Meta entries_prefix in
    let? sorted_rows := se_scan_prefix storage Meta sorted_defs_prefix in
    let? sorted := rmapM (λ row : KvPair, sorted_decode row.2) sorted_rows in
    let? decoded := rmapM (λ row : KvPair, def_decode row.2) defs in
    Ok (format, defs, entries, sorted, decoded) in
  match read with
  | Err e => (Err e, s, storage)
  | Ok (format, defs, entries, sorted, decoded) =>
      let current := bool_decide (format = Some (u32_be FORMAT_VERSION)) in
      let stored_nothing := bool_decide (defs = []) && bool_decide (entries = []) in
      let s := foldl (λ s def, with_defs (<[ix_name def := def]>) s) s decoded in
      let s := foldl (λ s def, with_sorted (<[sd_name def := def]>) s) s sorted in
      let s := foldl (load_entry current) s entries in
      let rebuild_all := negb current && negb (bool_decide (is_defs s = ∅)) in
      let fresh := negb current && stored_nothing in
      let s := if negb current && negb fresh then mark s format_key (Some (u32_be FORMAT_VERSION)) else s in
      if fresh then
        match se_put storage Meta format_key (u32_be FORMAT_VERSION) with
        | (Err e, storage) => (Err e, s, storage)
        | (Ok _, storage) => (Ok rebuild_all, s, storage)
        end
      else (Ok rebuild_all, s, storage)
  end.

(** ** Flushing *)

Context `{HashOrder}.

Definition IndexFlush : Type := list (bytes * Z).

(** The writes of every dirty key, and the changes they write. *)
Definition stage_flush (s : IndexState E) : list WriteOp * IndexFlush :=
  let rows := hash_iter 5 0 (is_dirty s) in
  ((λ p : bytes * Dirty, index_write p.1 (d_value p.2)) <$> rows,
   (λ p : bytes * Dirty, (p.1, d_seq p.2)) <$> rows).

Definition flushed_one (s : IndexState E) (w : bytes * Z) : IndexState E :=
  match is_dirty s !! w.1 with
  | Some d => if bool_decide (d_seq d = w.2) then with_dirty (delete w.1 (is_dirty s)) (is_next_seq s) s else s
  | None => s
  end.

Definition mark_flushed (s : IndexState E) (flush : IndexFlush) : IndexState E := foldl flushed_one s flush.

(** ** Rows of engines that store every write *)

Record RowImage := mkImage { ri_collection : bytes; ri_doc_id : bytes; ri_row : option (Value O) }.

Definition RowEntryOps : Type := bytes * bytes * list IndexWriteOp.

(** The images by collection, collections in the order of their first image. *)
Fixpoint add_image (collections : list (bytes * list (bytes * option (Value O)))) (image : RowImage)
    : list (bytes * list (bytes * option (Value O))) :=
  match collections with
  | [] => [(ri_collection image, [(ri_doc_id image, ri_row image)])]
  | (c, rows) :: rest =>
      if bool_decide (c = ri_collection image) then (c, rows ++ [(ri_doc_id image, ri_row image)]) :: rest
      else (c, rows) :: add_image rest image
  end.

Definition now_keys (old : gset bytes) (planned : list IndexWriteOp) : gset bytes :=
  foldl (λ now op, match op with IPut k => {[k]} ∪ now | IDelete k => now ∖ {[k]} end) old planned.

(** One image: its entry changes, from the entries the image before it left. *)
Definition plan_image (s : IndexState E) (engine : IndexEngine)
    (c : gmap (bytes * bytes) (gset bytes) * list RowEntryOps) (image : RowImage)
    : gmap (bytes * bytes) (gset bytes) * list RowEntryOps :=
  let defs := defs_on s (ri_collection image) engine in
  if bool_decide (defs = []) then c
  else
    let posting_key := (ri_collection image, ri_doc_id image) in
    let old := match c.1 !! posting_key with
               | Some keys => keys
               | None => default ∅ (is_postings s !! posting_key)
               end in
    let planned := plan_index_ops defs (ri_doc_id image) old (ri_row image) in
    (<[posting_key := now_keys old planned]> c.1, c.2 ++ [(ri_collection image, ri_doc_id image, planned)]).

Definition confirm_one (read_row : bytes → bytes → res (option (Value O))) (_ : unit) (c : UniqueCandidate)
    : res unit :=
  let? stored := read_row (ix_collection (uc_def c)) (uc_other c) in
  match stored with
  | Some row => if held_by c row then Err UniqueViolation else Ok tt
  | None => Ok tt
  end.

Definition plan_checked (s : IndexState E) (engine : IndexEngine) (images : list RowImage)
    (read_row : bytes → bytes → res (option (Value O))) : res (list RowEntryOps) :=
  let collections := foldl add_image [] images in
  let? candidates := rfold (λ acc c, let? cs := unique_candidates s c.1 engine c.2 in Ok (acc ++ cs)) [] collections in
  let changes := (foldl (plan_image s engine) (∅, []) images).2 in
  let? _ := rfold (confirm_one read_row) tt candidates in
  Ok changes.

Definition check_rows (s : IndexState E) (engine : IndexEngine) (images : list RowImage)
    (read_row : bytes → bytes → res (option (Value O))) : res unit :=
  if negb (existsb (λ image, has_defs s (ri_collection image) engine) images) then Ok tt
  else let? _ := plan_checked s engine images read_row in Ok tt.

Definition entry_op (op : IndexWriteOp) : WriteOp :=
  match op with IPut k => Put Meta k [] | IDelete k => Delete Meta k end.

Definition apply_changes (s : IndexState E) (changes : list RowEntryOps) : unit * IndexState E :=
  (tt, foldl (λ s c, apply s c.1.1 c.1.2 c.2) s changes).

(** A batch, unless it is empty. *)
Definition write (storage : S) (ops : list WriteOp) : res unit * S :=
  match ops with [] => (Ok tt, storage) | _ => se_batch_write storage ops end.

Definition commit_rows_held (s : IndexState E) (storage : S) (engine : IndexEngine) (ops : list WriteOp)
    (images : list RowImage) (read_row : bytes → bytes → res (option (Value O)))
    (extra : list WriteOp → res (list WriteOp)) : res unit * IndexState E * S :=
  let indexed := existsb (λ image, has_defs s (ri_collection image) engine) images in
  let sorted_touched := existsb (λ image, has_sorted s (ri_collection image)) images in
  if negb indexed && negb sorted_touched then
    let '(r, storage) := write storage ops in (r, s, storage)
  else
    match (if indexed then plan_checked s engine images read_row else Ok []) with
    | Err e => (Err e, s, storage)
    | Ok changes =>
        match extra (ops ++ (changes ≫= λ c, entry_op <$> c.2)) with
        | Err e => (Err e, s, storage)
        | Ok ops =>
            match write storage ops with
            | (Err e, storage) => (Err e, s, storage)
            | (Ok _, storage) =>
                let '(_, _, s) := collecting true (λ s, apply_changes s changes) s in
                (Ok tt, s, storage)
            end
        end
    end.

(** With [durable_ddl] taken for reading. *)
Definition commit_rows_with := commit_rows_held.

Definition commit_rows (s : IndexState E) (storage : S) (engine : IndexEngine) (ops : list WriteOp)
    (images : list RowImage) (read_row : bytes → bytes → res (option (Value O))) : res unit * IndexState E * S :=
  commit_rows_with s storage engine ops images read_row (λ ops, Ok ops).

(** ** Changes by DDL *)

Definition durable_def (def : IndexDef E) : bool := negb (bool_decide (ix_engine def = EDocument)).

Definition defs_of (s : IndexState E) (collection : bytes) : list (IndexDef E) :=
  filter (λ d, ix_collection d = collection) (def_values s).

(** The change runs on a scratch copy, its writes are stored, then it runs on the catalog. *)
Definition apply_locked {R} (s : IndexState E) (storage : S) (extra : list WriteOp)
    (select : IndexState E → list (IndexDef E))
    (change : IndexState E → list (IndexDef E) → res (R * list WriteOp) * IndexState E)
    : res R * IndexState E * S :=
  let defs := select s in
  match (change (scratch s defs) defs).1 with
  | Err e => (Err e, s, storage)
  | Ok (_, ops) =>
      match write storage (extra ++ ops) with
      | (Err e, storage) => (Err e, s, storage)
      | (Ok _, storage) =>
          match change s defs with
          | (Err e, s) => (Err e, s, storage)
          | (Ok (result, _), s) => (Ok result, s, storage)
          end
      end
  end.

Definition apply_ddl {R} (s : IndexState E) (storage : S) (select : IndexState E → list (IndexDef E))
    (change : IndexState E → list (IndexDef E) → res (R * list WriteOp) * IndexState E)
    : res R * IndexState E * S := apply_locked s storage [] select change.

Definition drop_change (s : IndexState E) (defs : list (IndexDef E))
    : option (IndexDef E) * list WriteOp * IndexState E :=
  foldl (λ c def,
           let '(dropped, ops, s) := c in
           let '(removed, written, s) := collecting (durable_def def) (λ s, remove_def s (ix_name def)) s in
           (removed, ops ++ written, s))
        (None, [], s) defs.

Definition drop_index (s : IndexState E) (storage : S) (name : bytes) : res (option (IndexDef E)) * IndexState E * S :=
  apply_ddl s storage (λ s, option_list (is_defs s !! name))
    (λ s defs, let '(dropped, ops, s) := drop_change s defs in (Ok (dropped, ops), s)).

Definition forget (s : IndexState E) (name : bytes) : IndexState E :=
  let '(_, _, s) := collecting true (λ s, remove_def s name) s in s.

Definition clear_document_entries (s : IndexState E) (collection : bytes) : IndexState E :=
  foldl (λ s def, clear_prefix s (entry_prefix def)) s (defs_on s collection EDocument).

Definition sorted_removal_one (storage : S) (c : list WriteOp * list bytes) (def : SortedIndexDef)
    : res (list WriteOp * list bytes) :=
  let? rows := se_scan_prefix storage Meta (sorted_entries_prefix (sd_name def)) in
  Ok (c.1 ++ ((λ row : KvPair, Delete Meta row.1) <$> rows) ++ [Delete Meta (sorted_def_key (sd_name def))],
      c.2 ++ [sd_name def]).

Definition sorted_removal (storage : S) (defs : list SortedIndexDef) : res (list WriteOp * list bytes) :=
  rfold (sorted_removal_one storage) ([], []) defs.

Definition forget_sorted (s : IndexState E) (names : list bytes) : IndexState E :=
  foldl (λ s name, with_sorted (delete name) s) s names.

Definition drop_collection_with (s : IndexState E) (storage : S) (collection : bytes) (rows : res (list WriteOp))
    : res unit * IndexState E * S :=
  match (let? extra := rows in
         let? sorted := sorted_removal storage (sorted_on s collection) in
         Ok (extra ++ sorted.1, sorted.2)) with
  | Err e => (Err e, s, storage)
  | Ok (extra, names) =>
      match apply_locked s storage extra (λ s, defs_of s collection)
              (λ s defs,
                 let '(_, ops, s) := drop_change s defs in
                 (Ok (tt, ops), with_tombstoned (λ t, filter (λ p, p.1 ≠ collection) t) s)) with
      | (Err e, s, storage) => (Err e, s, storage)
      | (Ok _, s, storage) => (Ok tt, forget_sorted s names, storage)
      end
  end.

Definition install_sorted {R} (s : IndexState E) (storage : S) (def : SortedIndexDef) (entries : res (list WriteOp * R))
    : res R * IndexState E * S :=
  match (let? removal := sorted_removal storage (option_list (sorted_named s (sd_name def))) in
         let? built := entries in
         let? b := sorted_encode def in
         Ok (removal.1 ++ built.1 ++ [Put Meta (sorted_def_key (sd_name def)) b], built.2)) with
  | Err e => (Err e, s, storage)
  | Ok (ops, result) =>
      match write storage ops with
      | (Err e, storage) => (Err e, s, storage)
      | (Ok _, storage) => (Ok result, with_sorted (<[sd_name def := def]>) s, storage)
      end
  end.

Definition drop_sorted (s : IndexState E) (storage : S) (name : bytes)
    : res (option SortedIndexDef) * IndexState E * S :=
  match sorted_named s name with
  | None => (Ok None, s, storage)
  | Some def =>
      match sorted_removal storage [def] with
      | Err e => (Err e, s, storage)
      | Ok (ops, names) =>
          match write storage ops with
          | (Err e, storage) => (Err e, s, storage)
          | (Ok _, storage) => (Ok (Some def), forget_sorted s names, storage)
          end
      end
  end.

(** The definition over the rows of another engine. *)
Definition with_engine (engine : IndexEngine) (def : IndexDef E) : IndexDef E :=
  mkIndexDef (ix_name def) (ix_collection def) (ix_path def) (ix_unique def) (ix_case_insensitive def)
    (ix_is_array def) (ix_predicate def) engine.

Definition move_one (engine : IndexEngine) (c : list (IndexDef E) * list WriteOp * IndexState E) (def : IndexDef E)
    : res unit * (list (IndexDef E) * list WriteOp * IndexState E) :=
  let '(moved, ops, s) := c in
  let '(_, cleared, s) := collecting (durable_def def) (λ s, (tt, clear_prefix s (entry_prefix def))) s in
  let next := with_engine engine def in
  let '(put, declared, s) := collecting (durable_def next) (λ s, put_def s next) s in
  match put with
  | Err e => (Err e, (moved, ops ++ cleared, s))
  | Ok _ => (Ok tt, (moved ++ [next], (ops ++ cleared) ++ declared, s))
  end.

Fixpoint move_defs (engine : IndexEngine) (c : list (IndexDef E) * list WriteOp * IndexState E)
    (defs : list (IndexDef E)) : res (list (IndexDef E) * list WriteOp) * IndexState E :=
  match defs with
  | [] => (Ok c.1, c.2)
  | def :: rest =>
      match move_one engine c def with
      | (Err e, c) => (Err e, c.2)
      | (Ok _, c) => move_defs engine c rest
      end
  end.

Definition move_collection (s : IndexState E) (storage : S) (collection : bytes) (engine : IndexEngine)
    : res (list (IndexDef E)) * IndexState E * S :=
  apply_ddl s storage (λ s, defs_of s collection) (λ s defs, move_defs engine ([], [], s) defs).

(** ** Building *)

(** A strict or key-value index, from its rows. *)
Definition build_durable (s : IndexState E) (storage : S) (def : IndexDef E) (rows : res (list (bytes * Value O)))
    : res Z * IndexState E * S :=
  match rows with
  | Err e => (Err e, s, storage)
  | Ok rows =>
      let fresh := bool_decide (def_named s (ix_name def) = None) in
      match install s def rows with
      | (Err e, s) => (Err e, s, storage)
      | (Ok (built, ops), s) =>
          match se_batch_write storage ops with
          | (Err e, storage) => (Err e, if fresh then forget s (ix_name def) else s, storage)
          | (Ok _, storage) => (Ok built, s, storage)
          end
      end
  end.
End durable.
