(* ===== verification/IndexSpec.v ===== *)
(** * Indexes follow the rows

    The entries of the catalog of [IndexStore.v] are those of the current rows: the
    invariant, that every operation on rows and definitions keeps it, and what the
    index reads find. *)

From Stdlib Require Import ZArith Lia Strings.Byte.
From stdpp Require Import prelude gmap strings sorting.
From S2P Require Import Prelude Bytes Ordered Text StorageTrait IndexKey SortedKeys IndexDefs IndexStore IndexDurable.

Local Open Scope Z_scope.

(** ** Ordered sets of keys *)

Lemma sorted_elems_elem X k : k ∈ sorted_elems X ↔ k ∈ X.
Proof.
  unfold sorted_elems. rewrite list_elem_of_fmap. split.
  - intros ([k' []] & -> & Hin). apply elem_of_entries, lookup_gset_to_gmap_Some in Hin. by destruct Hin.
  - intros Hk. exists (k, tt). split; [done|]. by apply elem_of_entries, lookup_gset_to_gmap_Some.
Qed.

Lemma set_prefix_elem X p k : k ∈ set_prefix X p ↔ k ∈ X ∧ starts_with p k = true.
Proof.
  assert (set_prefix X p = filter (λ k, starts_with p k = true) (sorted_elems X)) as ->.
  { unfold set_prefix, sorted_elems. set (l := entries (gset_to_gmap tt X)).
    assert (take_while (starts_with p) (filter (λ k, p <=b k) l.*1) =
      (take_while (λ q, starts_with p q.1) (filter (λ q : bytes * unit, p <=b q.1) l)).*1) as ->.
    { clear. induction l as [|[k' []] l IH]; [done|]. cbn [fmap list_fmap fst]. rewrite !filter_cons. cbn [fst].
      destruct (decide (p <=b k')); [|done]. cbn [take_while fst]. destruct (starts_with p k'); [|done].
      rewrite fmap_cons. cbn [fst]. by f_equal. }
    rewrite take_while_prefix.
    - rewrite list_filter_filter. assert (∀ k, starts_with p k = true ∧ p <=b k ↔ starts_with p k = true) as Hk.
      { intros k'. split; [naive_solver|]. intros Hs. split; [done|]. apply starts_with_spec in Hs as [r ->]. apply bytes_le_app. }
      clear -Hk. induction l as [|[k' []] l IH]; [done|]. cbn [fmap list_fmap fst]. rewrite !filter_cons. cbn [fst].
      destruct (decide (starts_with p k' = true)) as [Hs|Hs];
        [rewrite decide_True by (by apply Hk)|rewrite decide_False by (by rewrite Hk); done].
      rewrite fmap_cons. by f_equal.
    - apply ksorted_filter, entries_ksorted.
    - intros q Hq. by apply list_elem_of_filter in Hq as [? _]. }
  rewrite list_elem_of_filter, sorted_elems_elem. tauto.
Qed.

(** ** What a change of entries does *)

Section state.
Context {E : Type}.
Implicit Types s : IndexState E.

Definition posted s (c id : bytes) : gset bytes := default ∅ (is_postings s !! (c, id)).

Lemma mark_same s k v :
  is_defs (mark s k v) = is_defs s ∧ is_sorted (mark s k v) = is_sorted s ∧ is_entries (mark s k v) = is_entries s ∧
  is_postings (mark s k v) = is_postings s ∧ is_tombstoned (mark s k v) = is_tombstoned s.
Proof. unfold mark. by destruct (is_sink s). Qed.

Lemma mark_defs s k v : is_defs (mark s k v) = is_defs s.
Proof. apply mark_same. Qed.
Lemma mark_sorted s k v : is_sorted (mark s k v) = is_sorted s.
Proof. apply mark_same. Qed.
Lemma mark_entries s k v : is_entries (mark s k v) = is_entries s.
Proof. apply mark_same. Qed.
Lemma mark_postings s k v : is_postings (mark s k v) = is_postings s.
Proof. apply mark_same. Qed.
Lemma mark_tombstoned s k v : is_tombstoned (mark s k v) = is_tombstoned s.
Proof. apply mark_same. Qed.

Lemma posting_insert_lookup (key key' : bytes * bytes) (entry : bytes) (P : gmap (bytes * bytes) (gset bytes)) :
  default ∅ (posting_insert key entry P !! key') =
    if decide (key' = key) then {[entry]} ∪ default ∅ (P !! key) else default ∅ (P !! key').
Proof.
  unfold posting_insert. rewrite lookup_insert. destruct (decide (key = key')) as [->|Hne].
  - by rewrite decide_True.
  - by rewrite decide_False.
Qed.

Lemma posting_remove_lookup (key key' : bytes * bytes) (entry : bytes) (P : gmap (bytes * bytes) (gset bytes)) :
  default ∅ (posting_remove key entry P !! key') =
    if decide (key' = key) then default ∅ (P !! key) ∖ {[entry]} else default ∅ (P !! key').
Proof.
  unfold posting_remove. destruct (P !! key) as [keys|] eqn:Hk; simpl.
  - destruct (bool_decide (keys ∖ {[entry]} = ∅)) eqn:He.
    + apply bool_decide_eq_true in He. rewrite lookup_delete. destruct (decide (key = key')) as [->|Hne].
      * by rewrite decide_True, He.
      * by rewrite decide_False.
    + rewrite lookup_insert. destruct (decide (key = key')) as [->|Hne]; [by rewrite decide_True|by rewrite decide_False].
  - destruct (decide (key' = key)) as [->|Hne]; [|done]. rewrite Hk. simpl. set_solver.
Qed.

Lemma now_keys_app X ops ops' : now_keys X (ops ++ ops') = now_keys (now_keys X ops) ops'.
Proof. apply foldl_app. Qed.

Lemma now_keys_deletes X l : now_keys X (IDelete <$> l) = X ∖ list_to_set l.
Proof.
  revert X. induction l as [|k l IH]; intros X; cbn [fmap list_fmap].
  - cbn [now_keys foldl list_to_set]. set_solver.
  - change (now_keys (X ∖ {[k]}) (IDelete <$> l) = X ∖ list_to_set (k :: l)). rewrite IH. set_solver.
Qed.

Lemma now_keys_puts X l : now_keys X (IPut <$> l) = X ∪ list_to_set l.
Proof.
  revert X. induction l as [|k l IH]; intros X; cbn [fmap list_fmap].
  - cbn [now_keys foldl list_to_set]. set_solver.
  - change (now_keys ({[k]} ∪ X) (IPut <$> l) = X ∪ list_to_set (k :: l)). rewrite IH. set_solver.
Qed.

Lemma sorted_elems_set X : list_to_set (sorted_elems X) = X.
Proof. apply set_eq. intros k. by rewrite elem_of_list_to_set, sorted_elems_elem. Qed.

Lemma apply_spec s c id ops :
  is_entries (apply s c id ops) = now_keys (is_entries s) ops ∧
  (∀ c' id', posted (apply s c id ops) c' id' =
     if decide ((c', id') = (c, id)) then now_keys (posted s c id) ops else posted s c' id') ∧
  is_defs (apply s c id ops) = is_defs s ∧ is_sorted (apply s c id ops) = is_sorted s ∧
  is_tombstoned (apply s c id ops) = is_tombstoned s.
Proof.
  revert s. induction ops as [|op ops IH]; intros s.
  { split_and!; try done. intros c' id'. by case_decide as He; simplify_eq. }
  change (apply s c id (op :: ops)) with (apply (apply_one (c, id) s op) c id ops).
  destruct (IH (apply_one (c, id) s op)) as (He & Hp & Hd & Hs & Ht).
  rewrite He, Hd, Hs, Ht. unfold posted in *.
  split_and!; [|intros c' id'; rewrite Hp|..]; destruct op as [k|k]; unfold apply_one;
    rewrite ?mark_entries, ?mark_defs, ?mark_sorted, ?mark_tombstoned, ?mark_postings; cbn; try done.
  - rewrite !posting_insert_lookup. destruct (decide ((c', id') = (c, id))); [|done]. by rewrite decide_True.
  - rewrite !posting_remove_lookup. destruct (decide ((c', id') = (c, id))); [|done]. by rewrite decide_True.
Qed.

(** Postings hold the entries of their row, and every entry is in a posting. *)
Record coherent s : Prop := {
  co_parsed c id k : k ∈ posted s c id → parse_entry k = Some (mkParsedEntry c id);
  co_entries k : k ∈ is_entries s ↔ ∃ c id, k ∈ posted s c id
}.

(** Replacing the entries of one row. *)
Lemma replace_spec s (c id : bytes) (ops : list IndexWriteOp) (new : gset bytes) :
  coherent s → (∀ k, k ∈ new → parse_entry k = Some (mkParsedEntry c id)) →
  (∀ X, posted s c id ⊆ X → now_keys X ops = (X ∖ (posted s c id ∖ new)) ∪ (new ∖ posted s c id)) →
  let s' := apply s c id ops in
  coherent s' ∧ posted s' c id = new ∧ (∀ c' id', (c', id') ≠ (c, id) → posted s' c' id' = posted s c' id').
Proof.
  intros [Hparsed Hentries] Hnew Hops. destruct (apply_spec s c id ops) as (He & Hp & _). cbn zeta.
  assert (posted (apply s c id ops) c id = new) as Hmine.
  { rewrite Hp, decide_True by done. rewrite Hops by done. apply set_eq. intros k. set_unfold.
    destruct (decide (k ∈ new)), (decide (k ∈ posted s c id)); naive_solver. }
  assert (∀ c' id', (c', id') ≠ (c, id) → posted (apply s c id ops) c' id' = posted s c' id') as Hother
    by (intros c' id' Hne; by rewrite Hp, decide_False).
  split; [|done]. split.
  - intros c' id' k. destruct (decide ((c', id') = (c, id))) as [[= -> ->]|Hne].
    + rewrite Hmine. apply Hnew.
    + rewrite Hother by done. apply Hparsed.
  - intros k. rewrite He, Hops by (intros k' Hk'; apply Hentries; eauto). set_unfold. split.
    + intros [[Hk Hn]|[Hk _]]; [|exists c, id; by rewrite Hmine].
      apply Hentries in Hk as (c' & id' & Hk). destruct (decide ((c', id') = (c, id))) as [[= -> ->]|Hne].
      * exists c, id. rewrite Hmine. destruct (decide (k ∈ new)); [done|tauto].
      * exists c', id'. by rewrite Hother.
    + intros (c' & id' & Hk). destruct (decide ((c', id') = (c, id))) as [[= -> ->]|Hne].
      * rewrite Hmine in Hk. destruct (decide (k ∈ posted s c id)) as [Ho|Ho]; [left|by right].
        split; [apply Hentries; eauto|tauto].
      * rewrite Hother in Hk by done. left. split; [apply Hentries; eauto|]. intros [Ho _].
        apply Hparsed in Hk. apply Hparsed in Ho. congruence.
Qed.

Lemma clear_list_spec s (l : list bytes) :
  coherent s →
  let s' := foldl clear_one s l in
  is_entries s' = is_entries s ∖ list_to_set l ∧
  (∀ c id, posted s' c id = posted s c id ∖ list_to_set l) ∧
  is_defs s' = is_defs s ∧ is_sorted s' = is_sorted s ∧ is_tombstoned s' = is_tombstoned s.
Proof.
  intros [Hparsed _]. revert s Hparsed. induction l as [|k l IH]; intros s Hparsed.
  { cbn. split_and!; try done; [set_solver|]. intros c id. set_solver. }
  cbn [foldl].
  assert (is_entries (clear_one s k) = is_entries s ∖ {[k]} ∧
    (∀ c id, posted (clear_one s k) c id = posted s c id ∖ {[k]}) ∧ is_defs (clear_one s k) = is_defs s ∧
    is_sorted (clear_one s k) = is_sorted s ∧ is_tombstoned (clear_one s k) = is_tombstoned s) as (He & Hp & Hd & Hs & Ht).
  { unfold clear_one, posted. rewrite mark_entries, mark_defs, mark_sorted, mark_tombstoned.
    destruct (parse_entry k) as [[c0 id0]|] eqn:Hk; cbn; split_and!; try done; intros c id; rewrite mark_postings; cbn.
    - rewrite posting_remove_lookup. destruct (decide ((c, id) = (c0, id0))) as [[= -> ->]|Hne]; [done|].
      apply set_eq. intros k'. set_unfold. split; [|naive_solver]. intros Hk'. split; [done|]. intros ->.
      apply Hparsed in Hk'. congruence.
    - apply set_eq. intros k'. set_unfold. split; [|naive_solver]. intros Hk'. split; [done|]. intros ->.
      apply Hparsed in Hk'. congruence. }
  destruct (IH (clear_one s k)) as (He' & Hp' & Hd' & Hs' & Ht').
  { intros c id k' Hk'. apply Hparsed. rewrite Hp in Hk'. set_solver. }
  cbn zeta in *. rewrite He', Hd', Hs', Ht', He. split_and!; try done; [set_solver|].
  intros c id. rewrite Hp', Hp. set_solver.
Qed.

Lemma clear_prefix_spec s p :
  coherent s →
  let s' := clear_prefix s p in
  coherent s' ∧ (∀ c id k, k ∈ posted s' c id ↔ k ∈ posted s c id ∧ starts_with p k = false) ∧
  is_defs s' = is_defs s ∧ is_sorted s' = is_sorted s ∧ is_tombstoned s' = is_tombstoned s.
Proof.
  intros Hco. unfold clear_prefix. destruct (clear_list_spec s (set_prefix (is_entries s) p) Hco) as (He & Hp & Hd & Hs & Ht).
  cbn zeta in *.
  assert (∀ c id k, k ∈ posted (foldl clear_one s (set_prefix (is_entries s) p)) c id ↔
    k ∈ posted s c id ∧ starts_with p k = false) as Hposted.
  { intros c id k. rewrite Hp, elem_of_difference, elem_of_list_to_set, set_prefix_elem.
    destruct (starts_with p k); [|naive_solver]. split; [|naive_solver]. intros [Hk Hn]. exfalso. apply Hn.
    split; [|done]. apply (co_entries s Hco). eauto. }
  split; [|done]. split.
  - intros c id k [Hk _]%Hposted. by apply (co_parsed s Hco).
  - intros k. rewrite He, elem_of_difference, elem_of_list_to_set, set_prefix_elem, (co_entries s Hco).
    setoid_rewrite Hposted. destruct (starts_with p k); naive_solver.
Qed.
End state.

(** ** The entries of the rows *)

Section rows.
Context {O E : Type} `{VC : ValueCodec O} `{IO : IndexOps O E}.
Implicit Types (s : IndexState E) (d : IndexDef E).

Notation Rows := (gmap (bytes * bytes) (Value O)).

Lemma entry_keys_elem d (id : bytes) (r : Value O) (k : bytes) :
  k ∈ entry_keys d id r ↔
  ∃ v e, v ∈ index_values d r ∧ e ∈ encode_coercible v ∧ k = entry_key (entry_prefix d) e id.
Proof.
  unfold entry_keys. rewrite elem_of_list_to_set, list_elem_of_fmap. setoid_rewrite list_elem_of_bind. naive_solver.
Qed.

Lemma new_keys_elem (ds : list (IndexDef E)) (id : bytes) (row : option (Value O)) (k : bytes) :
  k ∈ new_keys ds id row ↔ ∃ r d, row = Some r ∧ d ∈ ds ∧ k ∈ entry_keys d id r.
Proof.
  unfold new_keys. destruct row as [r|]; [|set_solver]. rewrite elem_of_union_list. split.
  - intros (X & HX & Hk). apply list_elem_of_fmap in HX as (d & -> & Hd). eauto.
  - intros (r' & d & [= <-] & Hd & Hk). exists (entry_keys d id r). split; [|done].
    by apply (list_elem_of_fmap_2 (λ d, entry_keys d id r)).
Qed.

Lemma new_keys_ext (ds ds' : list (IndexDef E)) (id : bytes) (row : option (Value O)) :
  (∀ d, d ∈ ds ↔ d ∈ ds') → new_keys ds id row = new_keys ds' id row.
Proof. intros Hd. apply set_eq. intros k. rewrite !new_keys_elem. by setoid_rewrite Hd. Qed.

Lemma def_values_elem s d : d ∈ def_values s ↔ ∃ n, is_defs s !! n = Some d.
Proof.
  unfold def_values. rewrite list_elem_of_fmap. split.
  - intros ([n d'] & -> & Hin). apply elem_of_entries in Hin. eauto.
  - intros (n & Hn). exists (n, d). by rewrite elem_of_entries.
Qed.

Lemma defs_of_elem s (c : bytes) d : d ∈ defs_of s c ↔ ix_collection d = c ∧ ∃ n, is_defs s !! n = Some d.
Proof. unfold defs_of. by rewrite list_elem_of_filter, def_values_elem. Qed.

Lemma defs_on_elem s (c : bytes) e d :
  d ∈ defs_on s c e ↔ ix_collection d = c ∧ ix_engine d = e ∧ ∃ n, is_defs s !! n = Some d.
Proof. unfold defs_on. rewrite list_elem_of_filter, def_values_elem. tauto. Qed.

(** Definitions are filed under their names and cover the engine of their collection. *)
Definition defs_ok s (eng : bytes → IndexEngine) : Prop :=
  ∀ n d, is_defs s !! n = Some d →
    ix_name d = n ∧ name_ok n ∧ name_ok (ix_collection d) ∧ ix_engine d = eng (ix_collection d).

Lemma defs_on_of s eng (c : bytes) d : defs_ok s eng → d ∈ defs_on s c (eng c) ↔ d ∈ defs_of s c.
Proof.
  intros Hd. rewrite defs_on_elem, defs_of_elem. split; [naive_solver|]. intros (<- & n & Hn).
  split_and!; [done| |eauto]. by apply Hd in Hn as (_ & _ & _ & ?).
Qed.

(** The row an index sees: none when it is deleted in history only. *)
Definition live s (R : Rows) (c id : bytes) : option (Value O) :=
  if bool_decide ((c, id) ∈ is_tombstoned s) then None else R !! (c, id).

Definition want s (R : Rows) (c id : bytes) : gset bytes := new_keys (defs_of s c) id (live s R c id).

Record indexes_ok s (R : Rows) (eng : bytes → IndexEngine) : Prop := {
  io_coherent : coherent s;
  io_defs : defs_ok s eng;
  io_ids c id r : R !! (c, id) = Some r → utf8_valid id = true;
  io_posted c id : posted s c id = want s R c id
}.

Lemma new_keys_parsed s eng (c id : bytes) (row : option (Value O)) k :
  defs_ok s eng → (row ≠ None → utf8_valid id = true) →
  k ∈ new_keys (defs_of s c) id row → parse_entry k = Some (mkParsedEntry c id).
Proof.
  intros Hd Hu (r & d & Hrow & (<- & n & Hn)%defs_of_elem & (v & e & _ & He & ->)%entry_keys_elem)%new_keys_elem.
  destruct (Hd n d Hn) as (<- & Hname & Hcoll & _).
  apply (parse_encoded (ix_collection d) (ix_name d) e id); [done..| |].
  - by eapply encode_coercible_encoding.
  - apply Hu. by rewrite Hrow.
Qed.

Lemma plan_now (ds : list (IndexDef E)) (id : bytes) (old X : gset bytes) (row : option (Value O)) :
  now_keys X (plan_index_ops ds id old row) =
  (X ∖ (old ∖ new_keys ds id row)) ∪ (new_keys ds id row ∖ old).
Proof. unfold plan_index_ops. by rewrite now_keys_app, now_keys_deletes, now_keys_puts, !sorted_elems_set. Qed.

(** One row, brought in line. *)
Lemma plan_row_spec s eng (ds : list (IndexDef E)) (c id : bytes) (row : option (Value O)) :
  coherent s → defs_ok s eng → (∀ d, d ∈ ds ↔ d ∈ defs_of s c) → (row ≠ None → utf8_valid id = true) →
  let s' := apply s c id (plan_index_ops ds id (posted s c id) row) in
  coherent s' ∧ posted s' c id = new_keys (defs_of s c) id row ∧
  (∀ c' id', (c', id') ≠ (c, id) → posted s' c' id' = posted s c' id') ∧
  is_defs s' = is_defs s ∧ is_sorted s' = is_sorted s ∧ is_tombstoned s' = is_tombstoned s.
Proof.
  intros Hco Hd Hds Hu. rewrite <-(new_keys_ext ds (defs_of s c) id row Hds). cbn zeta.
  destruct (apply_spec s c id (plan_index_ops ds id (posted s c id) row)) as (_ & _ & ? & ? & ?).
  destruct (replace_spec s c id (plan_index_ops ds id (posted s c id) row) (new_keys ds id row)) as (? & ? & ?); [done| |intros X _; apply plan_now|done].
  intros k. rewrite (new_keys_ext ds (defs_of s c)) by done. by apply (new_keys_parsed s eng).
Qed.

Lemma resync_rows s eng (ds : list (IndexDef E)) (c : bytes) (rd : bytes → option (Value O)) (ids : list bytes) :
  coherent s → defs_ok s eng → (∀ d, d ∈ ds ↔ d ∈ defs_of s c) → (∀ id, rd id ≠ None → utf8_valid id = true) →
  let s' := foldl (resync_one ds c rd) s ids in
  let row := λ id, if bool_decide ((c, id) ∈ is_tombstoned s) then None else rd id in
  coherent s' ∧ (∀ id, id ∈ ids → posted s' c id = new_keys (defs_of s c) id (row id)) ∧
  (∀ c' id', ¬ (c' = c ∧ id' ∈ ids) → posted s' c' id' = posted s c' id') ∧
  is_defs s' = is_defs s ∧ is_sorted s' = is_sorted s ∧ is_tombstoned s' = is_tombstoned s.
Proof.
  intros Hco Hd Hds Hu. revert s Hco Hd Hds. induction ids as [|id ids IH]; intros s Hco Hd Hds.
  { cbn. split_and!; try done. set_solver. }
  cbn [foldl]. set (row := if bool_decide ((c, id) ∈ is_tombstoned s) then None else rd id).
  assert (row ≠ None → utf8_valid id = true) as Hrow by (unfold row; destruct (bool_decide _); [done|apply Hu]).
  destruct (plan_row_spec s eng ds c id row Hco Hd Hds Hrow) as (Hco1 & Hp1 & Ho1 & Hd1 & Hs1 & Ht1).
  change (apply s c id _) with (resync_one ds c rd s id) in *.
  set (s1 := resync_one ds c rd s id) in *.
  assert (defs_of s1 c = defs_of s c) as Hdc by (unfold defs_of, def_values; by rewrite Hd1).
  destruct (IH s1) as (Hco2 & Hp2 & Ho2 & Hd2 & Hs2 & Ht2); [done|by unfold defs_ok; rewrite Hd1|by rewrite Hdc|].
  cbn zeta in *. rewrite Ht1, Hdc in Hp2. rewrite Hd2, Hs2, Ht2. split_and!; try done.
  - intros id' [->|Hin]%elem_of_cons; [|by apply Hp2].
    destruct (decide (id ∈ ids)) as [Hin|Hin]; [by apply Hp2|]. rewrite Ho2 by naive_solver. exact Hp1.
  - intros c' id' Hn. rewrite Ho2 by set_solver. apply Ho1. set_solver.
Qed.

(** Rows written, then brought in line. *)
Lemma resync_ok s (R : Rows) eng (c : bytes) (ids : list bytes) (rd : bytes → option (Value O)) :
  coherent s → defs_ok s eng → eng c = EDocument →
  (∀ c id r, R !! (c, id) = Some r → utf8_valid id = true) →
  (∀ c' id', ¬ (c' = c ∧ id' ∈ ids) → posted s c' id' = want s R c' id') →
  (∀ id, id ∈ ids → defs_of s c = [] → posted s c id = ∅) →
  (∀ id, rd id ≠ None → utf8_valid id = true) →
  (∀ id, id ∈ ids → (c, id) ∉ is_tombstoned s → rd id = R !! (c, id)) →
  indexes_ok (resync s c ids rd) R eng ∧
  is_defs (resync s c ids rd) = is_defs s ∧ is_tombstoned (resync s c ids rd) = is_tombstoned s.
Proof.
  intros Hco Hd Hc Hu Hother Hnone Hrd Hrow. unfold resync.
  assert (∀ d, d ∈ defs_on s c EDocument ↔ d ∈ defs_of s c) as Hds by (intros d; rewrite <-Hc; by apply defs_on_of).
  destruct (bool_decide_reflect (defs_on s c EDocument = [])) as [Hnil|_].
  - assert (defs_of s c = []) as Hnil'.
    { destruct (defs_of s c) as [|d l]; [done|]. assert (d ∈ defs_on s c EDocument) as Hin by (apply Hds; set_solver).
      rewrite Hnil in Hin. set_solver. }
    split; [|done]. split; [done..|]. intros c' id'. destruct (decide (c' = c ∧ id' ∈ ids)) as [[-> Hin]|Hn]; [|by apply Hother].
    rewrite (Hnone id' Hin Hnil'). unfold want. rewrite Hnil'. unfold new_keys. by destruct (live s R c id').
  - destruct (resync_rows s eng (defs_on s c EDocument) c rd ids Hco Hd Hds Hrd) as (Hco' & Hp & Ho & Hd' & Hs' & Ht').
    cbn zeta in *. split; [|done]. split; [done|by unfold defs_ok; rewrite Hd'|done|].
    intros c' id'. unfold want, live, defs_of, def_values. rewrite Hd', Ht'. fold (def_values s).
    change (filter _ (def_values s)) with (defs_of s c'). fold (live s R c' id').
    destruct (decide (c' = c ∧ id' ∈ ids)) as [[-> Hin]|Hn].
    + rewrite Hp by done. f_equal. unfold live. destruct (bool_decide_reflect ((c, id') ∈ is_tombstoned s)); [done|]. by apply Hrow.
    + rewrite Ho by done. by apply Hother.
Qed.

Lemma no_defs_no_entries s (R : Rows) eng (c id : bytes) : indexes_ok s R eng → defs_of s c = [] → posted s c id = ∅.
Proof. intros Hok Hn. rewrite (io_posted _ _ _ Hok). unfold want. rewrite Hn. unfold new_keys. by destruct (live s R c id). Qed.

Lemma tombstones_spec s (c : bytes) (ids : list bytes) :
  foldl (λ s id, with_tombstoned (λ t, {[(c, id)]} ∪ t) s) s ids =
  with_tombstoned (λ t, list_to_set (pair c <$> ids) ∪ t) s.
Proof.
  revert s. induction ids as [|id ids IH]; intros s; cbn [foldl fmap list_fmap list_to_set].
  - unfold with_tombstoned. destruct s as [? ? ? ? t ? ? ?]. cbn. f_equal. set_solver.
  - rewrite IH. unfold with_tombstoned. destruct s as [? ? ? ? t ? ? ?]. cbn. f_equal. set_solver.
Qed.

Lemma tombstone_ok s (R : Rows) eng (c : bytes) (ids : list bytes) :
  indexes_ok s R eng → eng c = EDocument →
  indexes_ok (tombstone s c ids) R eng ∧ is_defs (tombstone s c ids) = is_defs s ∧
  is_tombstoned (tombstone s c ids) = list_to_set (pair c <$> ids) ∪ is_tombstoned s.
Proof.
  intros Hok Hc. unfold tombstone. rewrite tombstones_spec.
  set (s1 := with_tombstoned _ s). destruct Hok as [[Hpa Hen] Hd Hu Hp].
  apply (resync_ok s1 R eng c ids (λ _, None)); try done.
  - intros c' id' Hn. change (posted s1 c' id') with (posted s c' id'). rewrite Hp. unfold want.
    change (defs_of s1 c') with (defs_of s c'). f_equal. unfold live, s1. cbn.
    destruct (bool_decide_reflect ((c', id') ∈ is_tombstoned s)) as [Ht|Ht].
    + rewrite bool_decide_true; [done|]. apply elem_of_union. by right.
    + rewrite bool_decide_false; [done|]. intros [(id & [= -> ->] & Hin)%elem_of_list_to_set%list_elem_of_fmap|]%elem_of_union; naive_solver.
  - intros id _ Hnil. apply (no_defs_no_entries s R eng); [by split|done].
  - intros id Hin Ht. destruct Ht. unfold s1. cbn. apply elem_of_union. left.
    apply elem_of_list_to_set. by apply (list_elem_of_fmap_2 (pair c)).
Qed.

(** ** Definitions come and go *)

Lemma prefix_of_entry d0 d (id : bytes) (r : Value O) (k : bytes) :
  name_ok (ix_collection d0) → name_ok (ix_name d0) → name_ok (ix_collection d) → name_ok (ix_name d) →
  k ∈ entry_keys d id r →
  starts_with (entry_prefix d0) k = true ↔ ix_collection d0 = ix_collection d ∧ ix_name d0 = ix_name d.
Proof.
  intros H1 H2 H3 H4 (v & e & _ & _ & ->)%entry_keys_elem. unfold entry_prefix, entry_key.
  rewrite starts_with_spec, !index_prefix_eq by done. split.
  - intros [x Hx]. rewrite <-!app_assoc in Hx. apply app_inv_head in Hx.
    apply component_inj in Hx as [-> Hx]; [|done..]. by apply component_inj in Hx as [-> _].
  - intros [-> ->]. by eexists.
Qed.

(** The entries of every definition but [n]. *)
Definition want_but (n : bytes) s (R : Rows) (c id : bytes) : gset bytes :=
  new_keys (filter (λ d, ix_name d ≠ n) (defs_of s c)) id (live s R c id).

Lemma want_split s (R : Rows) eng (c id k : bytes) d0 (n : bytes) :
  defs_ok s eng → (∀ d, is_defs s !! n = Some d → d = d0) → ix_name d0 = n → name_ok n → name_ok (ix_collection d0) →
  k ∈ want s R c id ∧ starts_with (entry_prefix d0) k = false ↔ k ∈ want_but n s R c id.
Proof.
  intros Hd H0 Hn Hname Hcoll. unfold want, want_but. rewrite !new_keys_elem. split.
  - intros [(r & d & Hl & Hin & Hk) Hs]. exists r, d. split; [done|]. split; [|done].
    apply list_elem_of_filter. split; [|done]. apply defs_of_elem in Hin as (Hc & n' & Hn').
    destruct (Hd n' d Hn') as (Hdn & Hdo & Hdc & _). intros He.
    assert (starts_with (entry_prefix d0) k = true); [|congruence].
    apply (prefix_of_entry d0 d id r k); try done; [by rewrite Hn|by rewrite Hdn|].
    rewrite (H0 d) by congruence. done.
  - intros (r & d & Hl & Hin & Hk). apply list_elem_of_filter in Hin as [Hne Hin].
    split; [by exists r, d|]. apply defs_of_elem in Hin as (Hc & n' & Hn').
    destruct (Hd n' d Hn') as (Hdn & Hdo & Hdc & _). apply not_true_is_false. intros Hs.
    apply (prefix_of_entry d0 d id r k) in Hs as [_ Hs]; [|done|by rewrite Hn|done|by rewrite Hdn|done]. congruence.
Qed.

Lemma remove_def_ok s (R : Rows) eng (n : bytes) d :
  indexes_ok s R eng → is_defs s !! n = Some d →
  let '(r, s') := remove_def s n in
  r = Some d ∧ indexes_ok s' R eng ∧ is_defs s' = delete n (is_defs s) ∧ is_tombstoned s' = is_tombstoned s.
Proof.
  intros Hok Hn. unfold remove_def. rewrite Hn. set (s1 := with_defs (delete n) s).
  destruct (io_defs _ _ _ Hok n d Hn) as (Hname & Hno & Hco & _).
  assert (coherent s1) as Hc1 by (destruct (io_coherent _ _ _ Hok); by split).
  destruct (clear_prefix_spec s1 (entry_prefix d) Hc1) as (Hc2 & Hp2 & Hd2 & _ & Ht2). cbn zeta in *.
  set (s2 := clear_prefix s1 (entry_prefix d)) in *.
  split; [done|]. rewrite mark_defs, mark_tombstoned, Hd2, Ht2. split; [|done].
  assert (∀ c id, posted (mark s2 (def_key (ix_collection d) (ix_name d)) None) c id = posted s2 c id) as Hm
    by (intros; unfold posted; by rewrite mark_postings).
  split.
  - destruct Hc2 as [Ha Hb]. split; [intros c id k; rewrite Hm; apply Ha|].
    intros k. rewrite mark_entries, Hb. by setoid_rewrite Hm.
  - intros n' d'. rewrite mark_defs, Hd2. cbn. rewrite lookup_delete_Some. intros [_ Hn']. by apply (io_defs _ _ _ Hok).
  - apply (io_ids _ _ _ Hok).
  - intros c id. rewrite Hm. apply set_eq. intros k. rewrite Hp2. change (posted s1 c id) with (posted s c id).
    rewrite (io_posted _ _ _ Hok), (want_split s R eng c id k d n); [|apply Hok|intros; congruence|done..].
    unfold want_but, want, live. rewrite mark_tombstoned, Ht2. cbn [s1 with_defs is_tombstoned].
    rewrite (new_keys_ext (filter (λ d, ix_name d ≠ n) (defs_of s c)) (defs_of (mark s2 (def_key (ix_collection d) (ix_name d)) None) c)); [done|].
    intros d'. rewrite list_elem_of_filter, !defs_of_elem, mark_defs, Hd2. cbn. split.
    + intros (Hne & Hc & n' & Hn'). split; [done|]. exists n'. rewrite lookup_delete_Some. split; [|done].
      intros ->. apply Hne. by apply (io_defs _ _ _ Hok) in Hn' as (? & _).
    + intros (Hc & n' & Hn'). apply lookup_delete_Some in Hn' as [Hne Hn']. split; [|eauto].
      apply (io_defs _ _ _ Hok) in Hn' as (<- & _). congruence.
Qed.

Lemma want_but_prefix s (R : Rows) eng (c id k : bytes) d0 :
  defs_ok s eng → name_ok (ix_name d0) → name_ok (ix_collection d0) →
  k ∈ want_but (ix_name d0) s R c id → starts_with (entry_prefix d0) k = false.
Proof.
  intros Hd Hn Hc (r & d & _ & Hin & Hk)%new_keys_elem. apply list_elem_of_filter in Hin as [Hne Hin].
  apply defs_of_elem in Hin as (_ & n' & Hn'). destruct (Hd n' d Hn') as (Hdn & Hdo & Hdc & _).
  apply not_true_is_false. intros Hs. apply (prefix_of_entry d0 d id r k) in Hs as [_ Hs]; [|done..|by rewrite Hdn|done]. done.
Qed.

Lemma install_rows_spec s d (rows : list (bytes * Value O)) (n : Z) :
  coherent s → name_ok (ix_name d) → name_ok (ix_collection d) → NoDup rows.*1 →
  (∀ id r, (id, r) ∈ rows → utf8_valid id = true) →
  let '(count, s') := foldl (install_row d) (n, s) rows in
  coherent s' ∧ is_defs s' = is_defs s ∧ is_tombstoned s' = is_tombstoned s ∧
  ∀ c id k, k ∈ posted s' c id ↔
    k ∈ posted s c id ∨ c = ix_collection d ∧ ∃ r, (id, r) ∈ rows ∧ k ∈ entry_keys d id r.
Proof.
  intros Hco Hn Hc. revert s n Hco. induction rows as [|[id r] rows IH]; intros s n Hco Hnd Hu.
  { cbn. split_and!; try done. set_solver. }
  cbn [foldl]. unfold install_row at 2. cbn [fst snd].
  set (ops := IPut <$> sorted_elems (entry_keys d id r)).
  apply NoDup_cons in Hnd as [Hnotin Hnd].
  destruct (apply_spec s (ix_collection d) id ops) as (_ & _ & Hd1 & _ & Ht1).
  destruct (replace_spec s (ix_collection d) id ops (posted s (ix_collection d) id ∪ entry_keys d id r)) as (Hco1 & Hp1 & Ho1).
  { done. }
  { intros k [Hk|Hk]%elem_of_union; [by apply (co_parsed s Hco)|]. apply entry_keys_elem in Hk as (v & e & _ & He & ->).
    apply (parse_encoded (ix_collection d) (ix_name d) e id); [done..|by eapply encode_coercible_encoding|].
    eapply Hu. apply list_elem_of_here. }
  { intros X HX. unfold ops. rewrite now_keys_puts, sorted_elems_set. apply set_eq. intros k. set_unfold.
    destruct (decide (k ∈ posted s (ix_collection d) id)); naive_solver. }
  cbn zeta in *. specialize (IH (apply s (ix_collection d) id ops) (n + Z.of_nat (length ops)) Hco1 Hnd).
  destruct (foldl (install_row d) _ rows) as [count s']. rewrite Hd1, Ht1 in IH.
  destruct IH as (Hco' & Hd' & Ht' & Hp'); [intros id' r' Hin; eapply Hu; by apply list_elem_of_further|].
  split_and!; try done. intros c id' k. rewrite Hp'. destruct (decide ((c, id') = (ix_collection d, id))) as [[= -> ->]|Hne].
  - rewrite Hp1, elem_of_union. split; [|set_solver].
    intros [[Hk|Hk]|(_ & r' & Hin & _)]; [set_solver|set_solver|]. destruct Hnotin. by apply (list_elem_of_fmap_2 fst) in Hin.
  - rewrite Ho1 by done. split; [set_solver|]. intros [Hk|(-> & r' & [[= -> ->]|Hin]%elem_of_cons & Hk)]; [by left|done|right; eauto].
Qed.

Lemma install_state_ok s (R : Rows) eng d (rows : list (bytes * Value O)) b :
  indexes_ok s R eng → name_ok (ix_name d) → name_ok (ix_collection d) → ix_engine d = eng (ix_collection d) →
  def_encode d = Ok b → NoDup rows.*1 →
  (∀ id r, (id, r) ∈ rows ↔ live s R (ix_collection d) id = Some r) →
  let '(r, s') := install_state d rows s in
  (∃ count, r = Ok count) ∧ indexes_ok s' R eng ∧ is_defs s' = <[ix_name d := d]> (is_defs s) ∧
  is_tombstoned s' = is_tombstoned s.
Proof.
  intros Hok Hn Hc He Hb Hnd Hrows. unfold install_state, put_def. rewrite Hb.
  set (s0 := match is_defs s !! ix_name d with Some x => clear_prefix s (entry_prefix x) | None => s end).
  assert (coherent s0 ∧ (∀ c id k, k ∈ posted s0 c id ↔ k ∈ want_but (ix_name d) s R c id) ∧
    is_defs s0 = is_defs s ∧ is_tombstoned s0 = is_tombstoned s) as (Hc0 & Hp0 & Hd0 & Ht0).
  { unfold s0. destruct (is_defs s !! ix_name d) as [x|] eqn:Hx.
    - destruct (clear_prefix_spec s (entry_prefix x) (io_coherent _ _ _ Hok)) as (? & Hp & ? & _ & ?).
      split_and!; try done. intros c id k. rewrite Hp, (io_posted _ _ _ Hok).
      destruct (io_defs _ _ _ Hok _ x Hx) as (Hxn & _ & Hxc & _).
      apply (want_split s R eng); [apply Hok|intros; congruence|done..].
    - split_and!; try done; [apply Hok|]. intros c id k. rewrite (io_posted _ _ _ Hok). unfold want, want_but.
      rewrite (new_keys_ext (defs_of s c) (filter (λ d0, ix_name d0 ≠ ix_name d) (defs_of s c))); [done|].
      intros d'. rewrite list_elem_of_filter. split; [|naive_solver]. intros Hin. split; [|done].
      apply defs_of_elem in Hin as (_ & n' & Hn'). intros Hne. pose proof (io_defs _ _ _ Hok n' d' Hn') as (Hn'' & _). congruence. }
  destruct (clear_prefix_spec s0 (entry_prefix d) Hc0) as (Hc1 & Hp1 & Hd1 & _ & Ht1). cbn zeta in *.
  set (s1 := clear_prefix s0 (entry_prefix d)) in *.
  set (s2 := with_defs (<[ix_name d:=d]>) (mark s1 (def_key (ix_collection d) (ix_name d)) (Some b))).
  assert (∀ c id, posted s2 c id = posted s1 c id) as Hp2 by (intros; unfold posted, s2; cbn; by rewrite mark_postings).
  assert (coherent s2) as Hc2.
  { destruct Hc1 as [Ha Hb1]. split; [intros c id k; rewrite Hp2; apply Ha|]. intros k. unfold s2 at 1. cbn.
    rewrite mark_entries, Hb1. by setoid_rewrite Hp2. }
  pose proof (install_rows_spec s2 d rows 0 Hc2 Hn Hc Hnd) as Hinst.
  destruct (foldl (install_row d) (0, s2) rows) as [count s3]. destruct Hinst as (Hc3 & Hd3 & Ht3 & Hp3).
  { intros id r Hin. apply Hrows in Hin. unfold live in Hin. destruct (bool_decide _); [done|]. by apply (io_ids _ _ _ Hok) in Hin. }
  assert (is_defs s3 = <[ix_name d := d]> (is_defs s)) as Hdefs by (rewrite Hd3; unfold s2; cbn; by rewrite mark_defs, Hd1, Hd0).
  assert (is_tombstoned s3 = is_tombstoned s) as Htomb by (rewrite Ht3; unfold s2; cbn; by rewrite mark_tombstoned, Ht1, Ht0).
  split; [eauto|]. split; [|done]. split; [done| |apply Hok|].
  - intros n' d'. rewrite Hdefs, lookup_insert. case_decide as Heq; [intros [= <-]; by subst|apply Hok].
  - intros c id. apply set_eq. intros k. rewrite Hp3, Hp2, Hp1, Hp0.
    assert (live s3 R c id = live s R c id) as Hlive by (unfold live; by rewrite Htomb).
    unfold want. rewrite Hlive, new_keys_elem. split.
    + intros [[Hk _]|(-> & r & Hin & Hk)].
      * apply new_keys_elem in Hk as (r & d' & Hl & Hin & Hk). apply list_elem_of_filter in Hin as [Hne Hin].
        exists r, d'. split_and!; [done| |done]. apply defs_of_elem in Hin as (Hc' & n' & Hn'). apply defs_of_elem.
        split; [done|]. exists n'. rewrite Hdefs, lookup_insert_ne; [done|].
        intros <-. by apply (io_defs _ _ _ Hok) in Hn' as (? & _).
      * exists r, d. split_and!; [by apply Hrows| |done]. apply defs_of_elem. split; [done|]. exists (ix_name d).
        by rewrite Hdefs, lookup_insert_eq.
    + intros (r & d' & Hl & Hin & Hk). apply defs_of_elem in Hin as (Hc' & n' & Hn'). rewrite Hdefs, lookup_insert in Hn'.
      case_decide as Heq; [injection Hn' as <-; right; split; [done|]; exists r; split; [by apply Hrows; rewrite Hc'|done]|].
      left. assert (k ∈ want_but (ix_name d) s R c id) as Hk'.
      { apply new_keys_elem. exists r, d'. split_and!; [done| |done]. apply list_elem_of_filter. split; [|apply defs_of_elem; eauto].
        apply (io_defs _ _ _ Hok) in Hn' as (<- & _). congruence. }
      split; [done|]. apply (want_but_prefix s R eng c id k d); [apply Hok|done..].
Qed.

(** ** What the reads find *)

(** The documents an index holds an encoded value for. *)
Definition holds s (R : Rows) d (id e : bytes) : Prop :=
  ∃ r v, live s R (ix_collection d) id = Some r ∧ v ∈ index_values d r ∧ e ∈ encode_coercible v.

Lemma entries_of_rows s (R : Rows) eng (k : bytes) :
  indexes_ok s R eng →
  k ∈ is_entries s ↔ ∃ n d id e, is_defs s !! n = Some d ∧ holds s R d id e ∧ k = entry_key (entry_prefix d) e id.
Proof.
  intros Hok. rewrite (co_entries s (io_coherent _ _ _ Hok)). setoid_rewrite (io_posted _ _ _ Hok). split.
  - intros (c & id & Hk). apply new_keys_elem in Hk as (r & d & Hl & Hin & Hk).
    apply defs_of_elem in Hin as (<- & n & Hn). apply entry_keys_elem in Hk as (v & e & Hv & He & ->).
    exists n, d, id, e. split_and!; [done|by exists r, v|done].
  - intros (n & d & id & e & Hn & (r & v & Hl & Hv & He) & ->). exists (ix_collection d), id. apply new_keys_elem.
    exists r, d. split_and!; [done|apply defs_of_elem; eauto|apply entry_keys_elem; eauto].
Qed.

Lemma holds_utf8 s (R : Rows) eng d (id e : bytes) : indexes_ok s R eng → holds s R d id e → utf8_valid id = true ∧ encoding e.
Proof.
  intros Hok (r & v & Hl & _ & He). unfold live in Hl. destruct (bool_decide _); [done|].
  split; [by eapply (io_ids _ _ _ Hok)|by eapply encode_coercible_encoding].
Qed.

Lemma ids_under_spec s (R : Rows) eng (n : bytes) d (e id : bytes) :
  indexes_ok s R eng → is_defs s !! n = Some d → encoding e →
  id ∈ ids_under s (entry_prefix d) (entry_prefix d ++ e) ↔ holds s R d id e.
Proof.
  intros Hok Hn He. destruct (io_defs _ _ _ Hok n d Hn) as (Hdn & Hno & Hco & _). rewrite <-Hdn in Hno.
  unfold ids_under. rewrite list_elem_of_omap. setoid_rewrite set_prefix_elem. setoid_rewrite (entries_of_rows s R eng _ Hok). split.
  - intros (k & ((n' & d' & id' & e' & Hn' & Hh & ->) & Hs) & Hid).
    destruct (io_defs _ _ _ Hok n' d' Hn') as (Hdn' & Hno' & Hco' & _). rewrite <-Hdn' in Hno'.
    destruct (holds_utf8 _ _ _ _ _ _ Hok Hh) as [Hu He'].
    apply scan_encoded in Hs as (Hc & Hnn & <-); [|done..].
    assert (d' = d) as -> by (rewrite Hdn, Hdn' in Hnn; subst n'; congruence).
    unfold entry_prefix in Hid. rewrite (proj2 (parse_encoded _ _ e id' Hco Hno He Hu)) in Hid. by injection Hid as ->.
  - intros Hh. destruct (holds_utf8 _ _ _ _ _ _ Hok Hh) as [Hu _]. exists (entry_key (entry_prefix d) e id). split.
    + split; [by exists n, d, id, e|]. apply scan_encoded; done.
    + apply (parse_encoded (ix_collection d) (ix_name d) e id); done.
Qed.

Lemma dedup_spec (seen : gset bytes) (l : list bytes) :
  NoDup (dedup_from seen l) ∧ ∀ id, id ∈ dedup_from seen l ↔ id ∈ l ∧ id ∉ seen.
Proof.
  revert seen. induction l as [|x l IH]; intros seen; cbn [dedup_from]; [split; [constructor|set_solver]|].
  destruct (bool_decide_reflect (x ∈ seen)) as [Hx|Hx].
  - destruct (IH seen) as [Hnd Hin]. split; [done|]. intros id. rewrite Hin, elem_of_cons. naive_solver.
  - destruct (IH ({[x]} ∪ seen)) as [Hnd Hin]. split.
    + constructor; [|done]. rewrite Hin. set_solver.
    + intros id. rewrite !elem_of_cons, Hin. destruct (decide (id = x)); set_solver.
Qed.

Lemma lookup_eq_spec s (R : Rows) eng (n : bytes) d (probe : Value O) :
  indexes_ok s R eng → is_defs s !! n = Some d →
  NoDup (lookup_eq s d probe) ∧
  ∀ id, id ∈ lookup_eq s d probe ↔ ∃ e, e ∈ encode_coercible (fold_case d probe) ∧ holds s R d id e.
Proof.
  intros Hok Hn. unfold lookup_eq, dedup. destruct (dedup_spec ∅ (encode_coercible (fold_case d probe) ≫=
    λ e, ids_under s (entry_prefix d) (entry_prefix d ++ e))) as [Hnd Hin]. split; [done|].
  intros id. rewrite Hin, list_elem_of_bind. split.
  - intros ((e & Hid & He) & _). exists e. split; [done|]. apply (ids_under_spec s R eng n d); [done..|by eapply encode_coercible_encoding|done].
  - intros (e & He & Hh). split; [|set_solver]. exists e. split; [|done].
    apply (ids_under_spec s R eng n d); [done..|by eapply encode_coercible_encoding|done].
Qed.
End rows.
