(* ===== verification/IndexUnique.v ===== *)
(** * Unique indexes

    The unique check of [IndexStore.v] lets through only writes after which no two
    documents hold equal values, whichever keys equal values share. *)

From Stdlib Require Import ZArith Lia Strings.Byte Floats.SpecFloat.
From stdpp Require Import prelude gmap strings sorting.
From S2P Require Import Prelude Bytes F64 Ordered Text StorageTrait IndexKey SortedKeys IndexDefs IndexStore IndexDurable IndexSpec.

Local Open Scope Z_scope.

(** ** Coerced equality

    [Value::eq_coerced] is of the crate [nodedb_types].  The source says of it that a
    string compares with a number as the number it spells, with a timestamp as the
    timestamp it spells, and that a decimal is read as the f64 it denotes. *)

Section coercion.
Context {O : Type} `{VC : ValueCodec O}.

(** The number or the time coerced comparison reads a value as. *)
Definition coerced_number (v : Value O) : option Z :=
  match v with
  | VInteger i => Some (i64_as_f64 i)
  | VFloat f => Some f
  | VDecimal text | VString text => parse_f64 text
  | _ => None
  end.
Definition coerced_time (v : Value O) : option Z :=
  match v with VDateTime t | VNaiveDateTime t => Some t | VString s => parse_datetime s | _ => None end.

(** Equal as numbers: as IEEE compares them, or both NaN. *)
Definition f64_same (f g : Z) : Prop :=
  SFcompare (sf_of_bits f) (sf_of_bits g) = Some Eq ∧ f64_is_nan f = false ∧ f64_is_nan g = false ∨
  f64_is_nan f = true ∧ f64_is_nan g = true.

(** The ways two scalars are equal: the same boolean or text, equal numbers or times, or
    values of another kind with one stored form. *)
Inductive coerced_match (v w : Value O) : Prop :=
| cm_bool b : v = VBool b → w = VBool b → coerced_match v w
| cm_text s : v = VString s → w = VString s → coerced_match v w
| cm_number f g :
    coerced_number v = Some f → coerced_number w = Some g → u64_ok f → u64_ok g → f64_same f g → coerced_match v w
| cm_time t : coerced_time v = Some t → coerced_time w = Some t → coerced_match v w
| cm_other o o' b :
    v = VOther o → w = VOther o' → to_msgpack v = Some b → to_msgpack w = Some b → coerced_match v w.

Lemma f64_same_key f g : u64_ok f → u64_ok g → f64_same f g → encode_number f = encode_number g.
Proof.
  intros Hf Hg [(Hc & Nf & Ng)|[Nf Ng]].
  - rewrite encode_number_cmp in Hc by done. injection Hc as Hc. by apply bytes_cmp_eq.
  - unfold encode_number. rewrite Nf, Ng. unfold f64_is_zero, f64_is_nan in *.
    destruct (Z.eqb_spec (f64_mag f) 0) as [Hz|_]; [rewrite Hz in Nf; done|].
    destruct (Z.eqb_spec (f64_mag g) 0) as [Hz|_]; [rewrite Hz in Ng; done|]. done.
Qed.

Lemma coerced_number_key (v : Value O) f : coerced_number v = Some f → encode_number f ∈ encode_coercible v.
Proof.
  destruct v; cbn; try done; [intros [= <-]; by left|intros [= <-]; by left|intros ->; by left|].
  intros ->. apply elem_of_cons. right. apply elem_of_app. left. by left.
Qed.

Lemma coerced_time_key (v : Value O) t : coerced_time v = Some t → encode_datetime t ∈ encode_coercible v.
Proof.
  destruct v; cbn; try done; [intros [= <-]; by left|intros [= <-]; by left|].
  intros ->. apply elem_of_cons. right. apply elem_of_app. right. by left.
Qed.

(** Values equal under coercion share a key. *)
Lemma coerced_match_keys (v w : Value O) :
  coerced_match v w → ∃ e, e ∈ encode_coercible v ∧ e ∈ encode_coercible w.
Proof.
  intros [b -> ->|s -> ->|f g Hv Hw Hf Hg Hs|t Hv Hw|o o' b -> -> Hv Hw].
  - eexists. split; by left.
  - eexists. split; by left.
  - exists (encode_number f). split; [by apply coerced_number_key|].
    rewrite (f64_same_key f g) by done. by apply coerced_number_key.
  - exists (encode_datetime t). split; by apply coerced_time_key.
  - exists (encode_escaped TAG_OTHER b). cbn. rewrite Hv, Hw. split; by left.
Qed.
End coercion.

(** What is assumed of the comparison: it is symmetric, and scalars it equates match. *)
Class CoercedLaws (O E : Type) `{VC : ValueCodec O} `{IO : IndexOps O E} := {
  eq_coerced_sym (v w : Value O) : eq_coerced v w = eq_coerced w v;
  eq_coerced_match (v w : Value O) :
    eq_coerced v w = true → indexable v = true → indexable w = true → coerced_match v w
}.

Section unique.
Context {O E : Type} `{VC : ValueCodec O} `{IO : IndexOps O E} `{!CoercedLaws O E}.
Implicit Types (s : IndexState E) (d : IndexDef E).

Notation Rows := (gmap (bytes * bytes) (Value O)).
Notation RowWrites := (list (bytes * option (Value O))).

Lemma eq_coerced_keys (v w : Value O) :
  eq_coerced v w = true → indexable v = true → indexable w = true →
  ∃ e, e ∈ encode_coercible v ∧ e ∈ encode_coercible w.
Proof. intros He Hv Hw. by apply coerced_match_keys, eq_coerced_match. Qed.

(** No two live documents hold equal values of a unique index. *)
Definition unique_ok s (R : Rows) : Prop :=
  ∀ n d id1 id2 r1 r2 v1 v2, is_defs s !! n = Some d → ix_unique d = true → id1 ≠ id2 →
    live s R (ix_collection d) id1 = Some r1 → live s R (ix_collection d) id2 = Some r2 →
    v1 ∈ index_values d r1 → v2 ∈ index_values d r2 → eq_coerced v1 v2 = false.

Lemma index_values_indexable d (r v : Value O) : v ∈ index_values d r → indexable v = true.
Proof.
  assert (∀ w, indexable (fold_case d w) = indexable w) as Hfold
    by (intros w; destruct w; simpl; try done; by destruct (ix_case_insensitive d)).
  unfold index_values. destruct (match ix_predicate d with Some p => _ | None => _ end); [set_solver|].
  destruct (field_at r (ix_path d)) as [f|]; [|set_solver].
  assert (∀ w, v ∈ (if indexable w then [fold_case d w] else []) → indexable v = true) as Hone.
  { intros w. destruct (indexable w) eqn:Hw; [|set_solver]. intros ->%list_elem_of_singleton. by rewrite Hfold. }
  destruct f; try (by apply Hone). destruct (ix_is_array d); [|set_solver].
  intros (w & -> & [Hw _]%list_elem_of_filter)%list_elem_of_fmap. by rewrite Hfold.
Qed.

(** ** The claims of a write *)

(** The rows of a write, the last one of each document. *)
Definition last_rows (rows : RowWrites) : gmap bytes (Value O) :=
  foldl (λ M p, match p.2 with Some r => <[p.1 := r]> M | None => delete p.1 M end) ∅ rows.

Lemma claim_values s (c : bytes) (written : list bytes) d (id : bytes) (vals : list (Value O)) (k k' : Claims) :
  rfold (claim_value s c written d id) k vals = Ok k' →
  k'.1 = k.1 ++ (pair id <$> vals) ∧ k'.2 = k.2 ++ (vals ≫= value_candidates s c written d) ∧
  ∀ v b w, v ∈ vals → (b, w) ∈ k.1 → b ≠ id → eq_coerced w v = false.
Proof.
  revert k. induction vals as [|v vals IH]; intros [claimed cands] Hr; cbn [rfold] in Hr.
  { injection Hr as <-. cbn. rewrite !app_nil_r. split_and!; [done..|set_solver]. }
  unfold claim_value at 1 in Hr. destruct (existsb _ claimed) eqn:Hex; [done|]. cbn [rbind] in Hr.
  destruct (IH _ Hr) as (H1 & H2 & H3). cbn [fst snd] in *. rewrite H1, H2, <-!app_assoc. split_and!; [done..|].
  intros v' b w Hv Hin Hne. apply elem_of_cons in Hv as [->|Hv]; [|by eapply H3; [..|done]; [done|set_solver]].
  apply not_true_is_false. intros Heq. assert (existsb (λ p : bytes * Value O, negb (bool_decide (p.1 = id)) && eq_coerced p.2 v) claimed = true) as Ht; [|congruence].
  apply existsb_exists. exists (b, w). split; [by apply list_elem_of_In|]. cbn [fst snd]. by rewrite bool_decide_false.
Qed.

(** What the claims of the rows so far say: the values of the last rows are claimed, no
    two of them are equal, and the candidates of each are known. *)
Record claims_ok s (c : bytes) (written : list bytes) d (rows : RowWrites) (cands0 : list UniqueCandidate) (k : Claims) : Prop := {
  cl_claimed id v : (id, v) ∈ k.1 ↔ ∃ r, last_rows rows !! id = Some r ∧ v ∈ index_values d r;
  cl_distinct a v b w : (a, v) ∈ k.1 → (b, w) ∈ k.1 → a ≠ b → eq_coerced v w = false;
  cl_cands id v : (id, v) ∈ k.1 → value_candidates s c written d v ⊆ k.2;
  cl_more : cands0 ⊆ k.2
}.

Lemma claim_row_ok s (c : bytes) (written : list bytes) d (rows : RowWrites) cands0 (k k' : Claims) (p : bytes * option (Value O)) :
  claims_ok s c written d rows cands0 k → claim_row s c written d k p = Ok k' →
  claims_ok s c written d (rows ++ [p]) cands0 k'.
Proof.
  intros [Hc Hd Hk Hm] Hr. destruct p as [id row]. unfold claim_row in Hr. cbn [fst snd] in Hr.
  assert (last_rows (rows ++ [(id, row)]) = match row with Some r => <[id := r]> (last_rows rows) | None => delete id (last_rows rows) end) as Hlast
    by (unfold last_rows; by rewrite foldl_app).
  assert (∀ b w, (b, w) ∈ filter (λ q : bytes * Value O, q.1 ≠ id) k.1 ↔ b ≠ id ∧ (b, w) ∈ k.1) as Hf
    by (intros b w; by rewrite list_elem_of_filter).
  destruct row as [r|].
  - apply claim_values in Hr as (H1 & H2 & H3). cbn [fst snd] in *.
    assert (∀ b w, (b, w) ∈ k'.1 ↔ b ≠ id ∧ (b, w) ∈ k.1 ∨ b = id ∧ w ∈ index_values d r) as Hin.
    { intros b w. rewrite H1, elem_of_app, Hf, list_elem_of_fmap. naive_solver. }
    split.
    + intros b w. rewrite Hin, Hlast. destruct (decide (b = id)) as [->|Hne].
      * rewrite lookup_insert_eq. naive_solver.
      * rewrite lookup_insert_ne by done. rewrite Hc. naive_solver.
    + intros a v b w [[Ha Hav]|[-> Hav]]%Hin [[Hb Hbw]|[-> Hbw]]%Hin Hne; [by eapply Hd| | |done].
      * by apply (H3 w a v); [|apply Hf|].
      * rewrite eq_coerced_sym. by apply (H3 v b w); [|apply Hf|].
    + intros b w [[_ Hbw]|[-> Hbw]]%Hin; rewrite H2.
      * intros x Hx. apply elem_of_app. left. by eapply Hk.
      * intros x Hx. apply elem_of_app. right. apply list_elem_of_bind. eauto.
    + rewrite H2. set_solver.
  - injection Hr as <-. cbn [fst snd]. split; cbn [fst snd]; [|intros a v b w [_ ?]%Hf [_ ?]%Hf; by apply Hd|intros b w [_ ?]%Hf; by eapply Hk|done].
    intros b w. rewrite Hf, Hlast. destruct (decide (b = id)) as [->|Hne].
    + rewrite lookup_delete_eq. naive_solver.
    + rewrite lookup_delete_ne by done. rewrite Hc. naive_solver.
Qed.

Lemma claim_rows_ok s (c : bytes) (written : list bytes) d cands0 (rows done' : RowWrites) (k k' : Claims) :
  claims_ok s c written d done' cands0 k → rfold (claim_row s c written d) k rows = Ok k' →
  claims_ok s c written d (done' ++ rows) cands0 k'.
Proof.
  revert done' k. induction rows as [|p rows IH]; intros done' k Hk Hr; cbn [rfold] in Hr.
  { injection Hr as <-. by rewrite app_nil_r. }
  destruct (claim_row s c written d k p) as [k1|e] eqn:H1; [|done]. cbn [rbind] in Hr.
  rewrite cons_middle, app_assoc. eapply IH; [|done]. by eapply claim_row_ok.
Qed.

Lemma claim_defs_ok s (c : bytes) (rows : RowWrites) (ds : list (IndexDef E)) cands0 cands :
  rfold (claim_def s c rows) cands0 ds = Ok cands →
  cands0 ⊆ cands ∧ ∀ d, d ∈ ds →
    (∀ a b r1 r2 v w, last_rows rows !! a = Some r1 → last_rows rows !! b = Some r2 → a ≠ b →
       v ∈ index_values d r1 → w ∈ index_values d r2 → eq_coerced v w = false) ∧
    (∀ a r v, last_rows rows !! a = Some r → v ∈ index_values d r → value_candidates s c rows.*1 d v ⊆ cands).
Proof.
  revert cands0. induction ds as [|d ds IH]; intros cands0 Hr; cbn [rfold] in Hr.
  { injection Hr as <-. split; [done|set_solver]. }
  destruct (claim_def s c rows cands0 d) as [cands1|e] eqn:H1; [|done]. cbn [rbind] in Hr.
  unfold claim_def in H1. destruct (rfold (claim_row s c rows.*1 d) ([], cands0) rows) as [k|e] eqn:Hk; [|done].
  injection H1 as <-. apply (claim_rows_ok _ _ _ _ cands0 _ []) in Hk as [Hc Hd Hv Hm].
  2:{ split; cbn; [|set_solver..|done]. intros id v. unfold last_rows. cbn. rewrite lookup_empty. set_solver. }
  rewrite app_nil_l in *. destruct (IH k.2 Hr) as [Hsub Hrest]. split; [set_solver|].
  intros d' [->|Hin]%elem_of_cons; [|by apply Hrest]. split.
  - intros a b r1 r2 v w Ha Hb Hne Hav Hbw. apply (Hd a v b w); [apply Hc; eauto..|done].
  - intros a r v Ha Hav x Hx. apply Hsub. apply (Hv a v); [apply Hc; eauto|done].
Qed.

(** ** Writes *)

Definition write_rows (R : Rows) (c : bytes) (rows : RowWrites) : Rows :=
  foldl (λ R p, match p.2 with Some r => <[(c, p.1) := r]> R | None => delete (c, p.1) R end) R rows.

Lemma last_rows_snoc (rows : RowWrites) (id : bytes) (row : option (Value O)) :
  last_rows (rows ++ [(id, row)]) =
  match row with Some r => <[id := r]> (last_rows rows) | None => delete id (last_rows rows) end.
Proof using Type. unfold last_rows. by rewrite foldl_app. Qed.

Lemma write_rows_lookup (R : Rows) (c c' id : bytes) (rows : RowWrites) :
  write_rows R c rows !! (c', id) =
    if decide (c' = c ∧ id ∈ rows.*1) then last_rows rows !! id else R !! (c', id).
Proof using Type.
  clear CoercedLaws0 IO VC E.
  induction rows as [|[i row] rows IH] using rev_ind; [by rewrite decide_False by set_solver|].
  unfold write_rows. rewrite foldl_app. fold (write_rows R c rows). cbn [foldl fst snd].
  rewrite last_rows_snoc, fmap_app. cbn [fmap list_fmap fst].
  destruct (decide ((c, i) = (c', id))) as [[= -> ->]|Hne].
  - rewrite decide_True by set_solver. destruct row as [r|]; [by rewrite !lookup_insert_eq|by rewrite !lookup_delete_eq].
  - assert (∀ P : Prop, (c' = c ∧ id ∈ rows.*1 ++ [i]) ↔ (c' = c ∧ id ∈ rows.*1)) as Hiff.
    { intros _. rewrite elem_of_app, list_elem_of_singleton. naive_solver. }
    destruct row as [r|].
    + rewrite lookup_insert_ne, IH by done. destruct (decide (c' = c ∧ id ∈ rows.*1)) as [[-> Hin]|Hn].
      * rewrite decide_True by (by apply (Hiff True)). by rewrite lookup_insert_ne by congruence.
      * by rewrite decide_False by (by rewrite (Hiff True)).
    + rewrite lookup_delete_ne, IH by done. destruct (decide (c' = c ∧ id ∈ rows.*1)) as [[-> Hin]|Hn].
      * rewrite decide_True by (by apply (Hiff True)). by rewrite lookup_delete_ne by congruence.
      * by rewrite decide_False by (by rewrite (Hiff True)).
Qed.

(** A document that holds a value equal to [v] is among the candidates. *)
Lemma candidate_found s (R : Rows) eng (n : bytes) d (written : list bytes) (other : bytes) (r v w : Value O) :
  indexes_ok s R eng → is_defs s !! n = Some d →
  live s R (ix_collection d) other = Some r → w ∈ index_values d r → other ∉ written →
  indexable v = true → eq_coerced v w = true →
  mkCandidate d v other ∈ value_candidates s (ix_collection d) written d v ∧
  refuted (λ id, R !! (ix_collection d, id)) (mkCandidate d v other) = true.
Proof.
  intros Hok Hn Hl Hw Hnw Hv Heq.
  destruct (eq_coerced_keys v w) as (e & Hev & Hew); [done..|by eapply index_values_indexable|].
  assert ((ix_collection d, other) ∉ is_tombstoned s ∧ R !! (ix_collection d, other) = Some r) as [Ht HR].
  { unfold live in Hl. destruct (bool_decide_reflect ((ix_collection d, other) ∈ is_tombstoned s)); [done|]. done. }
  split.
  - unfold value_candidates. apply list_elem_of_bind. exists (ids_under s (entry_prefix d) (entry_prefix d ++ e)). split.
    + apply list_elem_of_fmap_2, list_elem_of_filter. split; [done|].
      apply (ids_under_spec s R eng n d); [done..|by eapply encode_coercible_encoding|]. by exists r, w.
    + by apply (list_elem_of_fmap_2 (λ e, ids_under s (entry_prefix d) (entry_prefix d ++ e))).
  - unfold refuted. cbn [uc_other]. rewrite HR. unfold held_by. cbn [uc_def uc_value]. apply existsb_exists.
    exists w. split; [by apply list_elem_of_In|]. by rewrite eq_coerced_sym.
Qed.

Lemma unique_write s s' (R : Rows) eng (c : bytes) (rows : RowWrites) cands :
  indexes_ok s R eng → unique_ok s R →
  unique_candidates s c (eng c) rows = Ok cands →
  (∀ x, x ∈ cands → uc_other x ∉ rows.*1 → refuted (λ id, R !! (c, id)) x = false) →
  is_defs s' = is_defs s → is_tombstoned s' = is_tombstoned s →
  unique_ok s' (write_rows R c rows).
Proof.
  intros Hok Huniq Hcands Href Hd Ht n d id1 id2 r1 r2 v1 v2 Hn Hu Hne Hl1 Hl2 Hv1 Hv2. rewrite Hd in Hn.
  unfold live in Hl1, Hl2. rewrite Ht, write_rows_lookup in Hl1, Hl2.
  destruct (bool_decide_reflect ((ix_collection d, id1) ∈ is_tombstoned s)) as [|Ht1]; [done|].
  destruct (bool_decide_reflect ((ix_collection d, id2) ∈ is_tombstoned s)) as [|Ht2]; [done|].
  assert (ix_collection d = c → d ∈ filter (λ d, ix_unique d = true) (defs_on s c (eng c))) as Hin.
  { intros Hc. apply list_elem_of_filter. split; [done|]. apply defs_on_of; [apply Hok|]. apply defs_of_elem. eauto. }
  apply claim_defs_ok in Hcands as [_ Hcl].
  assert (∀ a b ra rb va vb, ix_collection d = c → a ∈ rows.*1 → b ∉ rows.*1 → last_rows rows !! a = Some ra →
    R !! (ix_collection d, b) = Some rb → (ix_collection d, b) ∉ is_tombstoned s →
    va ∈ index_values d ra → vb ∈ index_values d rb → eq_coerced va vb = false) as Hmixed.
  { intros a b ra rb va vb Hc Ha Hb Hra Hrb Htb Hva Hvb. apply not_true_is_false. intros Heq.
    destruct (candidate_found s R eng n d rows.*1 b rb va vb) as [Hx Hy]; try done.
    - unfold live. by rewrite bool_decide_false.
    - by eapply index_values_indexable.
    - rewrite Hc in Hx, Hy. apply (proj2 (Hcl d (Hin Hc)) a ra va Hra Hva), Href in Hx; [congruence|done]. }
  destruct (decide (ix_collection d = c ∧ id1 ∈ rows.*1)) as [[Hc1 Hw1]|Hn1], (decide (ix_collection d = c ∧ id2 ∈ rows.*1)) as [[Hc2 Hw2]|Hn2].
  - by eapply (proj1 (Hcl d (Hin Hc1)) id1 id2).
  - eapply (Hmixed id1 id2 r1 r2 v1 v2); try done; naive_solver.
  - rewrite eq_coerced_sym. eapply (Hmixed id2 id1 r2 r1 v2 v1); try done; naive_solver.
  - eapply (Huniq n d id1 id2 r1 r2); unfold live; rewrite ?bool_decide_false by done; done.
Qed.

(** ** Building a unique index *)

Lemma seen_values (id : bytes) (vals : list (Value O)) (seen seen' : list (bytes * Value O)) :
  rfold (seen_value id) seen vals = Ok seen' →
  seen' = seen ++ (pair id <$> vals) ∧ ∀ v b w, v ∈ vals → (b, w) ∈ seen → b ≠ id → eq_coerced w v = false.
Proof.
  revert seen. induction vals as [|v vals IH]; intros seen Hr; cbn [rfold] in Hr.
  { injection Hr as <-. cbn. rewrite app_nil_r. split; [done|set_solver]. }
  unfold seen_value at 1 in Hr. destruct (existsb _ seen) eqn:Hex; [done|]. cbn [rbind] in Hr.
  destruct (IH _ Hr) as [H1 H3]. rewrite H1, <-app_assoc. split; [done|].
  intros v' b w Hv Hin Hne. apply elem_of_cons in Hv as [->|Hv]; [|by eapply H3; [..|done]; [done|set_solver]].
  apply not_true_is_false. intros Heq. assert (existsb (λ p : bytes * Value O, negb (bool_decide (p.1 = id)) && eq_coerced p.2 v) seen = true) as Ht; [|congruence].
  apply existsb_exists. exists (b, w). split; [by apply list_elem_of_In|]. cbn [fst snd]. by rewrite bool_decide_false.
Qed.

Lemma seen_rows d (rows : list (bytes * Value O)) (seen seen' : list (bytes * Value O)) :
  rfold (seen_row d) seen rows = Ok seen' →
  (∀ a v b w, (a, v) ∈ seen → (b, w) ∈ seen → a ≠ b → eq_coerced v w = false) →
  (∀ a v b w, (a, v) ∈ seen' → (b, w) ∈ seen' → a ≠ b → eq_coerced v w = false) ∧ seen ⊆ seen' ∧
  ∀ id r v, (id, r) ∈ rows → v ∈ index_values d r → (id, v) ∈ seen'.
Proof.
  revert seen. induction rows as [|[id r] rows IH]; intros seen Hr Hs; cbn [rfold] in Hr.
  { injection Hr as <-. split_and!; [done..|set_solver]. }
  destruct (seen_row d seen (id, r)) as [seen1|e] eqn:H1; [|done]. cbn [rbind] in Hr.
  apply seen_values in H1 as [-> H1]. cbn [fst snd] in H1.
  assert (∀ b w, (b, w) ∈ seen ++ (pair id <$> index_values d r) ↔ (b, w) ∈ seen ∨ b = id ∧ w ∈ index_values d r) as Hin.
  { intros b w. rewrite elem_of_app, list_elem_of_fmap. naive_solver. }
  destruct (IH _ Hr) as (H2 & H3 & H4).
  { intros a v b w [Ha|[-> Ha]]%Hin [Hb|[-> Hb]]%Hin Hne; [by eapply Hs|by eapply H1| |done].
    rewrite eq_coerced_sym. by eapply H1. }
  split_and!; [done|set_solver|]. intros id' r' v [[= -> ->]|Hin']%elem_of_cons Hv; [|by eapply H4].
  apply H3, Hin. by right.
Qed.
End unique.
