(* ===== verification/IndexSession.v ===== *)
(** * Sessions of the document indexes

    Any sequence of row writes, deletions in history, creations and drops of indexes
    leaves the indexes in line with the rows and the unique indexes unique. *)

From Stdlib Require Import ZArith Lia Strings.Byte.
From stdpp Require Import prelude gmap strings sorting.
From S2P Require Import Prelude Bytes Ordered Text StorageTrait IndexKey SortedKeys.
From S2P Require Import IndexDefs IndexStore IndexDurable IndexSpec IndexUnique.

Local Open Scope Z_scope.

(** ** Clearing a collection *)

Section cleared.
Context {O E : Type}.
Implicit Types (s : IndexState E).

Notation Rows := (gmap (bytes * bytes) (Value O)).

Lemma clear_prefixes_spec s (ds : list (IndexDef E)) :
  coherent s →
  let s' := foldl (λ s d, clear_prefix s (entry_prefix d)) s ds in
  coherent s' ∧
  (∀ c id k, k ∈ posted s' c id ↔ k ∈ posted s c id ∧ ∀ d, d ∈ ds → starts_with (entry_prefix d) k = false) ∧
  is_defs s' = is_defs s ∧ is_tombstoned s' = is_tombstoned s.
Proof.
  revert s. induction ds as [|d ds IH]; intros s Hco; cbn [foldl].
  { split_and!; try done. set_solver. }
  destruct (clear_prefix_spec s (entry_prefix d) Hco) as (Hc1 & Hp1 & Hd1 & _ & Ht1). cbn zeta in *.
  destruct (IH _ Hc1) as (Hc2 & Hp2 & Hd2 & Ht2). cbn zeta in *. rewrite Hd2, Ht2. split_and!; try done.
  intros c id k. rewrite Hp2, Hp1. setoid_rewrite elem_of_cons. naive_solver.
Qed.

Definition clear_rows (R : Rows) (c : bytes) : Rows := filter (λ p : bytes * bytes * Value O, p.1.1 ≠ c) R.

Lemma clear_rows_lookup (R : Rows) (c c' id : bytes) :
  clear_rows R c !! (c', id) = if decide (c' = c) then None else R !! (c', id).
Proof.
  unfold clear_rows. rewrite map_lookup_filter. destruct (R !! (c', id)) as [r|]; cbn; [|by case_decide].
  destruct (decide (c' = c)) as [->|Hne]; [by rewrite option_guard_False by naive_solver|by rewrite option_guard_True].
Qed.

End cleared.

Section session.
Context {O E : Type} `{VC : ValueCodec O} `{IO : IndexOps O E} `{!CoercedLaws O E}.
Implicit Types (s : IndexState E) (d : IndexDef E).

Notation Rows := (gmap (bytes * bytes) (Value O)).
Notation RowWrites := (list (bytes * option (Value O))).

Lemma clear_collection_ok s (R : Rows) eng (c : bytes) :
  indexes_ok s R eng → eng c = EDocument →
  indexes_ok (clear_document_entries s c) (clear_rows R c) eng ∧
  is_defs (clear_document_entries s c) = is_defs s ∧ is_tombstoned (clear_document_entries s c) = is_tombstoned s.
Proof.
  intros Hok Hc. unfold clear_document_entries.
  destruct (clear_prefixes_spec s (defs_on s c EDocument) (io_coherent _ _ _ Hok)) as (Hco & Hp & Hd & Ht).
  cbn zeta in *. split; [|done]. split; [done|by unfold defs_ok; rewrite Hd; apply Hok| |].
  { intros c' id r. rewrite clear_rows_lookup. case_decide; [done|]. apply Hok. }
  intros c' id. apply set_eq. intros k. rewrite Hp, (io_posted _ _ _ Hok).
  assert (∀ R, want (foldl (λ s d, clear_prefix s (entry_prefix d)) s (defs_on s c EDocument)) R c' id =
    want s R c' id) as -> by (intros R0; unfold want, live, defs_of, def_values; by rewrite Hd, Ht).
  unfold want, live. rewrite !new_keys_elem, clear_rows_lookup. split.
  - intros [(r & d & Hl & Hin & Hk) Hno]. exists r, d. split_and!; [|done..].
    destruct (bool_decide ((c', id) ∈ is_tombstoned s)); [done|]. rewrite decide_False; [done|]. intros ->.
    assert (starts_with (entry_prefix d) k = true) as Hpre; [|rewrite Hno in Hpre; [done|rewrite <-Hc; by apply defs_on_of; [apply Hok|]]].
    apply defs_of_elem in Hin as (Hdc & n & Hn). destruct (io_defs _ _ _ Hok n d Hn) as (Hdn & Hno' & Hco' & _).
    apply (prefix_of_entry d d id r k); try done; by rewrite Hdn.
  - intros (r & d & Hl & Hin & Hk). destruct (bool_decide ((c', id) ∈ is_tombstoned s)); [done|].
    destruct (decide (c' = c)) as [|Hne]; [done|]. split; [by exists r, d|]. intros d0 Hin0.
    apply defs_on_elem in Hin0 as (Hc0 & _ & n0 & Hn0). apply defs_of_elem in Hin as (Hdc & n & Hn).
    destruct (io_defs _ _ _ Hok n d Hn) as (Hdn & Hno & Hco1 & _), (io_defs _ _ _ Hok n0 d0 Hn0) as (Hdn0 & Hno0 & Hco0 & _).
    apply not_true_is_false. intros Hs. apply (prefix_of_entry d0 d id r k) in Hs as [Hs _]; [congruence|..]; try done; by rewrite ?Hdn, ?Hdn0.
Qed.

(** ** Acts *)

Inductive IndexAct :=
| AWrite (c : bytes) (rows : RowWrites)
| ARevive (c id : bytes) (row : Value O)
| ATombstone (c : bytes) (ids : list bytes)
| ACreate (d : IndexDef E)
| ADrop (n : bytes)
| AClear (c : bytes).

Definition World : Type := Rows * IndexState E.

(** The live rows of a collection: of the CRDT store, or of the history where a
    collection keeps one. *)
Definition live_rows s (R : Rows) (c : bytes) : list (bytes * Value O) :=
  omap (λ p : bytes * bytes * Value O,
          if bool_decide (p.1.1 = c ∧ p.1 ∉ is_tombstoned s) then Some (p.1.2, p.2) else None) (map_to_list R).

(** A checked row write: refused, or written and brought in line. *)
Definition checked_write (w : World) (c : bytes) (rows : RowWrites) : res unit * World :=
  let '(R, s) := w in
  match check_unique s c rows (λ id, R !! (c, id)) with
  | Err e => (Err e, w)
  | Ok _ => let R := write_rows R c rows in (Ok tt, (R, resync s c rows.*1 (λ id, R !! (c, id))))
  end.

Definition run_act (w : World) (a : IndexAct) : res unit * World :=
  let '(R, s) := w in
  match a with
  | AWrite c rows => checked_write (R, s) c rows
  | ARevive c id row => checked_write (R, revive s c id) c [(id, Some row)]
  | ATombstone c ids => (Ok tt, (R, tombstone s c ids))
  | ACreate d =>
      let '(r, s) := install s d (live_rows s R (ix_collection d)) in
      (rmap (λ _, tt) r, (R, s))
  | ADrop n => let '(_, _, s) := drop_change s (option_list (is_defs s !! n)) in (Ok tt, (R, s))
  | AClear c => (Ok tt, (clear_rows R c, clear_document_entries s c))
  end.

Fixpoint run_acts (w : World) (acts : list IndexAct) : list (IndexAct * res unit) * World :=
  match acts with
  | [] => ([], w)
  | a :: acts => let '(r, w) := run_act w a in let '(tr, w) := run_acts w acts in ((a, r) :: tr, w)
  end.

(** Acts on the documents of collections that hold documents. *)
Definition act_ok (eng : bytes → IndexEngine) (a : IndexAct) : Prop :=
  match a with
  | AWrite c rows => eng c = EDocument ∧ ∀ id, id ∈ rows.*1 → utf8_valid id = true
  | ARevive c id _ => eng c = EDocument ∧ utf8_valid id = true
  | ATombstone c _ | AClear c => eng c = EDocument
  | ACreate d => name_ok (ix_name d) ∧ name_ok (ix_collection d) ∧ eng (ix_collection d) = EDocument ∧
                 ix_engine d = EDocument ∧ def_encode d ≠ Err Serialization
  | ADrop _ => True
  end.

(** A refused write of a deleted row has already made it live. *)
Definition revived_ok (t : IndexAct * res unit) : Prop :=
  match t.1 with ARevive _ _ _ => t.2 = Ok tt | _ => True end.

Definition world_ok (eng : bytes → IndexEngine) (w : World) : Prop :=
  indexes_ok w.2 w.1 eng ∧ unique_ok w.2 w.1.

Lemma checked_write_ok s (R0 R : Rows) eng (c : bytes) (rows : RowWrites) :
  indexes_ok s R0 eng → unique_ok s R0 → eng c = EDocument →
  (∀ id, id ∈ rows.*1 → utf8_valid id = true) →
  (∀ c' id, ¬ (c' = c ∧ id ∈ rows.*1) → R0 !! (c', id) = R !! (c', id)) →
  check_unique s c rows (λ id, R !! (c, id)) = Ok tt →
  world_ok eng (checked_write (R, s) c rows).2.
Proof.
  intros Hok Hu Hc Hids Hsame Hcheck. unfold checked_write. rewrite Hcheck. cbn [snd].
  set (R' := write_rows R c rows). unfold check_unique in Hcheck.
  destruct (unique_candidates s c EDocument rows) as [cands|e] eqn:Hcands; [|done]. cbn [rbind] in Hcheck.
  destruct (existsb _ cands) eqn:Hex; [done|].
  assert (∀ c' id, R' !! (c', id) = write_rows R0 c rows !! (c', id)) as HR'.
  { intros c' id. unfold R'. rewrite !write_rows_lookup. case_decide; [done|]. by rewrite Hsame. }
  assert (∀ c' id r, R' !! (c', id) = Some r → utf8_valid id = true) as Hutf.
  { intros c' id r. rewrite HR', write_rows_lookup. case_decide as Hin; [intros _; by apply Hids, Hin|apply Hok]. }
  destruct (resync_ok s R' eng c rows.*1 (λ id, R' !! (c, id))) as (Hok' & Hd' & Ht'); try done; [apply Hok|apply Hok|..].
  - intros c' id Hn. rewrite (io_posted _ _ _ Hok). unfold want, live. f_equal.
    rewrite HR', write_rows_lookup, decide_False by done. done.
  - intros id _ Hnil. by apply (no_defs_no_entries s R0 eng).
  - intros id Hne. destruct (R' !! (c, id)) as [r|] eqn:Hr; [|done]. by eapply Hutf.
  - split; [done|]. cbn [fst snd]. assert (R' = write_rows R0 c rows) as ->.
    { apply map_eq. intros [c' id]. apply HR'. }
    rewrite <-Hc in Hcands. eapply (unique_write s _ R0 eng c rows cands); try done.
    intros x Hx Hnw. assert (refuted (λ id, R !! (c, id)) x = false) as Hf.
    { apply not_true_is_false. intros Ht. assert (existsb (refuted (λ id, R !! (c, id))) cands = true); [|congruence].
      apply existsb_exists. exists x. split; [by apply list_elem_of_In|done]. }
    unfold refuted in *. by rewrite Hsame by naive_solver.
Qed.

(** Reviving a deleted row: as if its old contents were gone. *)
Lemma revive_ok s (R : Rows) eng (c id : bytes) :
  indexes_ok s R eng → unique_ok s R →
  ∃ R0, (∀ c' id', (c', id') ≠ (c, id) → R0 !! (c', id') = R !! (c', id')) ∧
    indexes_ok (revive s c id) R0 eng ∧ unique_ok (revive s c id) R0.
Proof.
  intros Hok Hu. set (s1 := revive s c id).
  assert (∃ R0 : Rows, (∀ c' id', (c', id') ≠ (c, id) → R0 !! (c', id') = R !! (c', id')) ∧
    (∀ c' id', live s1 R0 c' id' = live s R c' id') ∧
    (∀ c' id' r, R0 !! (c', id') = Some r → R !! (c', id') = Some r)) as (R0 & Hsame & Hlive & Hsub).
  { destruct (decide ((c, id) ∈ is_tombstoned s)) as [Ht|Ht].
    - exists (delete (c, id) R). split_and!.
      + intros c' id' Hne. by rewrite lookup_delete_ne.
      + intros c' id'. unfold live, s1, revive. cbn. destruct (decide ((c', id') = (c, id))) as [[= -> ->]|Hne].
        * rewrite lookup_delete_eq, (bool_decide_true ((c, id) ∈ is_tombstoned s)) by done. by destruct (bool_decide _).
        * rewrite lookup_delete_ne by done. rewrite (bool_decide_ext _ ((c', id') ∈ is_tombstoned s)); [done|set_solver].
      + intros c' id' r. rewrite lookup_delete_Some. naive_solver.
    - exists R. split_and!; try done. intros c' id'. unfold live, s1, revive. cbn.
      rewrite (bool_decide_ext _ ((c', id') ∈ is_tombstoned s)); [done|set_solver]. }
  exists R0. split; [done|]. split.
  - destruct Hok as [[Ha Hb] Hd Hi Hp]. split; [by split|done|naive_solver|].
    intros c' id'. change (posted s1 c' id') with (posted s c' id'). rewrite Hp. unfold want. by rewrite Hlive.
  - intros n d id1 id2 r1 r2 v1 v2 Hn Hq Hne Hl1 Hl2. rewrite Hlive in Hl1, Hl2. by eapply Hu.
Qed.

Lemma live_rows_spec s (R : Rows) (c : bytes) :
  NoDup (live_rows s R c).*1 ∧ ∀ id r, (id, r) ∈ live_rows s R c ↔ live s R c id = Some r.
Proof.
  assert (∀ id r, (id, r) ∈ live_rows s R c ↔ live s R c id = Some r) as Hin.
  { intros id r. unfold live_rows, live. rewrite list_elem_of_omap. split.
    - intros ([[c' id'] r'] & Hx & He). apply elem_of_map_to_list in Hx. cbn in He.
      destruct (bool_decide_reflect (c' = c ∧ (c', id') ∉ is_tombstoned s)) as [[-> Ht]|]; [|done].
      injection He as -> ->. by rewrite bool_decide_false.
    - intros Hl. destruct (bool_decide_reflect ((c, id) ∈ is_tombstoned s)) as [|Ht]; [done|].
      exists ((c, id), r). rewrite elem_of_map_to_list. cbn. by rewrite bool_decide_true. }
  split; [|done]. unfold live_rows. pose proof (NoDup_fst_map_to_list R) as Hnd. clear Hin.
  induction (map_to_list R) as [|[[c' id'] r'] l IH]; [constructor|]. cbn [fmap list_fmap fst] in Hnd.
  apply NoDup_cons in Hnd as [Hn Hnd]. cbn [omap list_omap fst snd].
  destruct (bool_decide_reflect (c' = c ∧ (c', id') ∉ is_tombstoned s)) as [[-> Ht]|]; [|by apply IH].
  cbn [fmap list_fmap fst]. constructor; [|by apply IH]. intros ([i r] & Hi & Hx)%list_elem_of_fmap. cbn in Hi. subst i.
  apply list_elem_of_omap in Hx as ([[c2 i2] r2] & Hx & He). cbn in He.
  destruct (bool_decide_reflect (c2 = c ∧ (c2, i2) ∉ is_tombstoned s)) as [[-> _]|]; [|done]. injection He as -> ->.
  destruct Hn. by apply (list_elem_of_fmap_2 fst) in Hx.
Qed.

Lemma unique_less s s' (R : Rows) :
  unique_ok s R → (∀ n d, is_defs s' !! n = Some d → is_defs s !! n = Some d) →
  is_tombstoned s ⊆ is_tombstoned s' → unique_ok s' R.
Proof.
  intros Hu Hd Ht n d id1 id2 r1 r2 v1 v2 Hn Hq Hne Hl1 Hl2.
  assert (∀ c id r, live s' R c id = Some r → live s R c id = Some r) as Hlive.
  { intros c id r. unfold live. destruct (bool_decide_reflect ((c, id) ∈ is_tombstoned s')) as [|Hn']; [done|].
    by rewrite bool_decide_false by set_solver. }
  eapply Hu; eauto.
Qed.

Lemma create_ok s (R : Rows) eng d :
  world_ok eng (R, s) → act_ok eng (ACreate d) → world_ok eng (run_act (R, s) (ACreate d)).2.
Proof.
  intros [Hok Hu] (Hn & Hc & He & Hde & Henc). cbn [run_act fst snd] in *. cbn [fst snd] in Hok, Hu.
  destruct (live_rows_spec s R (ix_collection d)) as [Hnd Hrows]. set (rows := live_rows s R (ix_collection d)) in *.
  unfold install. destruct (if ix_unique d then rfold (seen_row d) [] rows else Ok []) as [seen|e] eqn:Hseen; [|done].
  rewrite Hde, bool_decide_true by done. unfold collecting. cbn [negb].
  assert (∃ b, def_encode d = Ok b) as [b Hb].
  { unfold def_encode in *. destruct (def_to_msgpack d) as [b|]; [by exists b|done]. }
  pose proof (install_state_ok s R eng d rows b Hok Hn Hc ltac:(congruence) Hb Hnd Hrows) as Hinst.
  destruct (install_state d rows s) as [r s']. destruct Hinst as (_ & Hok' & Hd' & Ht'). split; [done|]. cbn [fst snd].
  intros n' d' id1 id2 r1 r2 v1 v2 Hn' Hq Hne Hl1 Hl2 Hv1 Hv2. unfold live in Hl1, Hl2. rewrite Ht' in Hl1, Hl2.
  fold (live s R (ix_collection d') id1) in Hl1. fold (live s R (ix_collection d') id2) in Hl2.
  rewrite Hd', lookup_insert in Hn'. case_decide as Heq; [|by eapply Hu].
  injection Hn' as <-. rewrite Hq in Hseen. apply seen_rows in Hseen as (Hpair & _ & Hall); [|set_solver].
  apply (Hpair id1 v1 id2 v2); [eapply Hall; [by apply Hrows|done]..|done].
Qed.

Lemma sink_ok s (R : Rows) eng k : indexes_ok s R eng → indexes_ok (with_sink k s) R eng.
Proof. intros [[Ha Hb] Hd Hi Hp]. by split; [split|..]. Qed.

Lemma drop_ok s (R : Rows) eng (n : bytes) :
  world_ok eng (R, s) → world_ok eng (run_act (R, s) (ADrop n)).2.
Proof.
  intros [Hok Hu]. cbn [run_act fst snd] in *. cbn [fst snd] in Hok, Hu.
  destruct (is_defs s !! n) as [d|] eqn:Hn; [|done]. unfold drop_change. change (option_list (Some d)) with [d]. cbn [foldl].
  assert (ix_name d = n) as -> by (by apply (io_defs _ _ _ Hok) in Hn as (? & _)).
  assert (∀ k, let s' := (remove_def (with_sink k s) n).2 in indexes_ok s' R eng ∧ unique_ok s' R) as Hrem.
  { intros k. pose proof (remove_def_ok (with_sink k s) R eng n d (sink_ok _ _ _ k Hok) Hn) as Hrd.
    destruct (remove_def (with_sink k s) n) as [r s']. destruct Hrd as (_ & Hok' & Hd' & Ht'). cbn [snd]. split; [done|].
    eapply unique_less; [exact Hu| |by rewrite Ht'].
    intros n' d'. rewrite Hd'. cbn. rewrite lookup_delete_Some. naive_solver. }
  unfold collecting. destruct (durable_def d); cbn [negb].
  - specialize (Hrem (Some [])). destruct (remove_def (with_sink (Some []) s) n) as [r s']. destruct Hrem as [Hok' Hu'].
    split; [by apply sink_ok|exact Hu'].
  - specialize (Hrem (is_sink s)). replace (with_sink (is_sink s) s) with s in Hrem by (by destruct s).
    by destruct (remove_def s n) as [r s'].
Qed.

Lemma run_act_ok eng (w : World) (a : IndexAct) :
  world_ok eng w → act_ok eng a → revived_ok (a, (run_act w a).1) → world_ok eng (run_act w a).2.
Proof.
  destruct w as [R s]. intros Hw Ha Hrev. pose proof Hw as [Hok Hu]. cbn [fst snd] in Hok, Hu.
  destruct a as [c rows|c id row|c ids|d|n|c]; [| | |by apply create_ok|by apply drop_ok|].
  - cbn [run_act]. destruct Ha as [Hc Hids]. destruct (check_unique s c rows (λ id, R !! (c, id))) as [[]|e] eqn:Hch.
    + by apply (checked_write_ok s R R eng).
    + unfold checked_write. by rewrite Hch.
  - cbn [run_act] in *. destruct Ha as [Hc Hid]. destruct (revive_ok s R eng c id Hok Hu) as (R0 & Hsame & Hok0 & Hu0).
    destruct (check_unique (revive s c id) c [(id, Some row)] (λ id, R !! (c, id))) as [[]|e] eqn:Hch.
    + apply (checked_write_ok (revive s c id) R0 R eng); try done.
      * intros id' Hin. by apply list_elem_of_singleton in Hin as ->.
      * intros c' id' Hn. apply Hsame. intros [= -> ->]. apply Hn. split; [done|]. apply list_elem_of_here.
    + unfold checked_write, revived_ok in Hrev. rewrite Hch in Hrev. done.
  - cbn [run_act]. destruct (tombstone_ok s R eng c ids Hok Ha) as (Hok' & Hd' & Ht'). split; [done|].
    cbn [fst snd]. eapply unique_less; [exact Hu|by rewrite Hd'|rewrite Ht'; set_solver].
  - cbn [run_act]. destruct (clear_collection_ok s R eng c Hok Ha) as (Hok' & Hd' & Ht'). split; [done|].
    cbn [fst snd]. intros n d id1 id2 r1 r2 v1 v2 Hn Hq Hne Hl1 Hl2. rewrite Hd' in Hn. unfold live in Hl1, Hl2.
    rewrite Ht', clear_rows_lookup in Hl1, Hl2.
    eapply Hu; [done..| |]; unfold live; repeat case_match; naive_solver.
Qed.

Lemma run_acts_ok eng (w : World) (acts : list IndexAct) :
  world_ok eng w → Forall (act_ok eng) acts → Forall revived_ok (run_acts w acts).1 →
  world_ok eng (run_acts w acts).2.
Proof.
  revert w. induction acts as [|a acts IH]; intros w Hw Ha Hrev; [done|]. cbn [run_acts] in *.
  apply Forall_cons in Ha as [Ha Has]. pose proof (run_act_ok eng w a Hw Ha) as Hstep.
  destruct (run_act w a) as [r w1]. specialize (IH w1). destruct (run_acts w1 acts) as [tr w2]. cbn [fst snd] in *.
  apply Forall_cons in Hrev as [Hr Hrs]. by apply IH; [apply Hstep|..].
Qed.

(** C5: an index is a view of the rows.  After any session of checked row writes,
    deletions in history, creations and drops of indexes and clearings of collections, in
    which no write that brings back a deleted document is refused by a unique index (such
    a write leaves the document live without entries,
    [IndexCases.refused_write_revives]), an equality lookup returns each live document once
    that holds a value sharing a key with the probe; among them is every document that
    holds a value equal to the probe under coerced comparison. *)
Theorem index_lookup_session (eng : bytes → IndexEngine) (w : World) (acts : list IndexAct) :
  world_ok eng w → Forall (act_ok eng) acts → Forall revived_ok (run_acts w acts).1 →
  let '(R, s) := (run_acts w acts).2 in
  ∀ (n : bytes) d (probe : Value O), is_defs s !! n = Some d →
    NoDup (lookup_eq s d probe) ∧
    (∀ id, id ∈ lookup_eq s d probe ↔
       ∃ r v e, live s R (ix_collection d) id = Some r ∧ v ∈ index_values d r ∧
         e ∈ encode_coercible v ∧ e ∈ encode_coercible (fold_case d probe)) ∧
    (∀ id r v, live s R (ix_collection d) id = Some r → v ∈ index_values d r → indexable (fold_case d probe) = true →
       eq_coerced v (fold_case d probe) = true → id ∈ lookup_eq s d probe).
Proof.
  intros Hw Ha Hrev. pose proof (run_acts_ok eng w acts Hw Ha Hrev) as [Hok _].
  destruct (run_acts w acts).2 as [R s]. cbn [fst snd] in Hok. intros n d probe Hn.
  destruct (lookup_eq_spec s R eng n d probe Hok Hn) as [Hnd Hin]. split; [done|]. split.
  - intros id. rewrite Hin. unfold holds. naive_solver.
  - intros id r v Hl Hv Hi Heq. rewrite Hin. destruct (eq_coerced_keys v (fold_case d probe)) as (e & He & He'); try done.
    { by eapply index_values_indexable. }
    exists e. split; [done|]. by exists r, v.
Qed.

(** C6: unique indexes stay unique.  After any session of checked row writes, deletions,
    creations and drops of indexes and clearings, in which no write that brings back a
    deleted document is refused, no two live documents hold equal values of a unique
    index, for writes of several rows at once and for indexes created over rows already
    there. *)
Theorem unique_session (eng : bytes → IndexEngine) (w : World) (acts : list IndexAct) :
  world_ok eng w → Forall (act_ok eng) acts → Forall revived_ok (run_acts w acts).1 →
  let '(R, s) := (run_acts w acts).2 in
  ∀ (n : bytes) d (id1 id2 : bytes) r1 r2 v1 v2, is_defs s !! n = Some d → ix_unique d = true → id1 ≠ id2 →
    live s R (ix_collection d) id1 = Some r1 → live s R (ix_collection d) id2 = Some r2 →
    v1 ∈ index_values d r1 → v2 ∈ index_values d r2 → eq_coerced v1 v2 = false.
Proof.
  intros Hw Ha Hrev. pose proof (run_acts_ok eng w acts Hw Ha Hrev) as [_ Hu].
  destruct (run_acts w acts).2 as [R s]. exact Hu.
Qed.
End session.
