(* ===== verification/IndexFlush.v ===== *)
(** * The stored catalog follows memory

    Changes of document indexes are marked dirty and written by a flush.  In every
    interleaving of changes with the steps of a flush, what the store holds, with the
    dirty keys written over it, is the catalog in memory; a flush that runs alone
    followed by a load restores the catalog. *)

From Stdlib Require Import ZArith Lia Strings.Byte.
From stdpp Require Import prelude gmap strings sorting.
From S2P Require Import Prelude Bytes Ordered Text StorageTrait IndexKey SortedKeys.
From S2P Require Import IndexDefs IndexStore IndexDurable IndexSpec IndexUnique IndexSession.

Local Open Scope Z_scope.

Section sync.
Context {O E : Type} `{VC : ValueCodec O} `{IO : IndexOps O E}.
Implicit Types (s : IndexState E) (d : IndexDef E) (m : Store).

(** What the store holds of a key once every mark is flushed. *)
Definition pending s m (k : bytes) : option bytes :=
  match is_dirty s !! k with Some x => d_value x | None => m Meta !! k end.

Definition defined s (k b : bytes) : Prop :=
  ∃ n d, is_defs s !! n = Some d ∧ k = def_key (ix_collection d) n ∧ def_encode d = Ok b.

Record in_sync s m : Prop := {
  sy_entries k : starts_with entries_prefix k = true →
    pending s m k = if bool_decide (k ∈ is_entries s) then Some [] else None;
  sy_defs k b : starts_with defs_prefix k = true → pending s m k = Some b ↔ defined s k b
}.

(** Marks are numbered below the counter. *)
Definition seqs_ok s : Prop := ∀ k x, is_dirty s !! k = Some x → d_seq x ≤ is_next_seq s.

(** Marks stay, or give way to later ones. *)
Record later s s' : Prop := {
  la_next : is_next_seq s ≤ is_next_seq s';
  la_marks k x : is_dirty s !! k = Some x → is_Some (is_dirty s' !! k);
  la_new k x : is_dirty s' !! k = Some x → is_dirty s !! k = Some x ∨ is_next_seq s < d_seq x
}.

Lemma later_refl s : later s s.
Proof. split; [done|eauto|eauto]. Qed.

Lemma later_trans s1 s2 s3 : later s1 s2 → later s2 s3 → later s1 s3.
Proof.
  intros [N1 M1 W1] [N2 M2 W2]. split; [lia| |].
  - intros k x Hx. destruct (M1 k x Hx) as [y Hy]. by eapply M2.
  - intros k x Hx. destruct (W2 k x Hx) as [Hy|Hy]; [by apply W1|right; lia].
Qed.

(** A change that is marked. *)
Definition tracked s s' : Prop :=
  is_sink s = None → seqs_ok s →
  is_sink s' = None ∧ seqs_ok s' ∧ later s s' ∧ ∀ m, in_sync s m → in_sync s' m.

Lemma tracked_refl s : tracked s s.
Proof. intros ? ?. split_and!; try done. apply later_refl. Qed.

Lemma tracked_trans s1 s2 s3 : tracked s1 s2 → tracked s2 s3 → tracked s1 s3.
Proof.
  intros H1 H2 Hs Hq. destruct (H1 Hs Hq) as (Hs2 & Hq2 & Hl2 & Hm2). destruct (H2 Hs2 Hq2) as (Hs3 & Hq3 & Hl3 & Hm3).
  split_and!; [done|done|by eapply later_trans|auto].
Qed.

Lemma mark_pending s m (k k' : bytes) v :
  is_sink s = None → pending (mark s k v) m k' = if decide (k' = k) then v else pending s m k'.
Proof.
  intros Hs. unfold pending, mark. rewrite Hs. cbn. rewrite lookup_insert.
  destruct (decide (k = k')) as [->|Hne]; [by rewrite decide_True|by rewrite decide_False].
Qed.

Lemma mark_later s (k : bytes) v : is_sink s = None → seqs_ok s → later s (mark s k v) ∧ seqs_ok (mark s k v) ∧ is_sink (mark s k v) = None.
Proof.
  intros Hs Hq. unfold mark. rewrite Hs. split_and!; [split|..]; cbn; [lia|..|done].
  - intros k' x Hx. rewrite lookup_insert. case_decide; eauto.
  - intros k' x. rewrite lookup_insert. case_decide; [|by left]. intros [= <-]. right. cbn. lia.
  - intros k' x. cbn. rewrite lookup_insert. case_decide; [intros [= <-]; cbn; lia|]. intros Hx. apply Hq in Hx. lia.
Qed.

(** A mark that tells what memory now holds of its key. *)
Lemma tracked_mark s s1 (k : bytes) v :
  is_dirty s1 = is_dirty s → is_next_seq s1 = is_next_seq s → is_sink s1 = is_sink s →
  (∀ m, in_sync s m → in_sync (mark s1 k v) m) → tracked s (mark s1 k v).
Proof.
  intros Hd Hn Hk Hsync Hs Hq. rewrite <-Hk in Hs.
  assert (seqs_ok s1) as Hq1 by (unfold seqs_ok; by rewrite Hd, Hn).
  destruct (mark_later s1 k v Hs Hq1) as ([N M W] & Hq' & Hs'). split_and!; try done.
  split; [by rewrite <-Hn|by rewrite <-Hd|by rewrite <-Hd, <-Hn].
Qed.

Lemma prefixes_apart k : starts_with entries_prefix k = true → starts_with defs_prefix k = true → False.
Proof. intros [x ->]%starts_with_spec [y Hy]%starts_with_spec. done. Qed.

Lemma tracked_same s s1 :
  is_dirty s1 = is_dirty s → is_next_seq s1 = is_next_seq s → is_sink s1 = is_sink s →
  is_entries s1 = is_entries s → is_defs s1 = is_defs s → tracked s s1.
Proof.
  intros Hd Hn Hk He Hf Hs Hq. split_and!.
  - by rewrite Hk.
  - unfold seqs_ok. by rewrite Hd, Hn.
  - split; [by rewrite Hn|rewrite Hd; eauto|rewrite Hd; eauto].
  - intros m [H1 H2]. split; unfold pending, defined; rewrite Hd, ?He, ?Hf; done.
Qed.

(** An entry comes or goes. *)
Lemma tracked_entry s s1 (k : bytes) (b : bool) :
  starts_with entries_prefix k = true →
  is_dirty s1 = is_dirty s → is_next_seq s1 = is_next_seq s → is_sink s1 = is_sink s → is_defs s1 = is_defs s →
  is_entries s1 = (if b then {[k]} ∪ is_entries s else is_entries s ∖ {[k]}) →
  tracked s (mark s1 k (if b then Some [] else None)).
Proof.
  intros Hk Hd Hn Hs Hf He Hs0 Hq. apply tracked_mark; try done. intros m [H1 H2]. rewrite <-Hs in Hs0.
  assert (∀ k', pending s1 m k' = pending s m k') as Hp by (intros k'; unfold pending; by rewrite Hd).
  split; intros k' *; rewrite mark_pending by done; rewrite Hp.
  - intros Hk'. rewrite mark_entries, He. destruct (decide (k' = k)) as [->|Hne].
    + destruct b; [rewrite bool_decide_true by set_solver|rewrite bool_decide_false by set_solver]; done.
    + rewrite H1 by done. destruct b; erewrite bool_decide_ext; [done|set_solver|done|set_solver].
  - intros Hk'. unfold defined. rewrite mark_defs, Hf. destruct (decide (k' = k)) as [->|Hne]; [by destruct (prefixes_apart k)|by apply H2].
Qed.

Lemma entry_prefix_of_parse (k : bytes) p : parse_entry k = Some p → starts_with entries_prefix k = true.
Proof.
  unfold parse_entry. destruct (strip_prefix entries_prefix k) as [r|] eqn:Hs; [|done]. intros _.
  apply strip_prefix_Some in Hs as ->. apply starts_with_app.
Qed.

Lemma tracked_apply s (c id : bytes) (ops : list IndexWriteOp) :
  (∀ k, IPut k ∈ ops ∨ IDelete k ∈ ops → starts_with entries_prefix k = true) → tracked s (apply s c id ops).
Proof.
  revert s. induction ops as [|op ops IH]; intros s Hops; [apply tracked_refl|].
  change (apply s c id (op :: ops)) with (apply (apply_one (c, id) s op) c id ops).
  eapply tracked_trans; [|apply IH; set_solver]. destruct op as [k|k]; unfold apply_one.
  - apply (tracked_entry s _ k true); [apply Hops; set_solver|done..].
  - apply (tracked_entry s _ k false); [apply Hops; set_solver|done..].
Qed.

Lemma tracked_clear s (p : bytes) : coherent s → tracked s (clear_prefix s p).
Proof.
  intros Hco. unfold clear_prefix.
  assert (∀ k, k ∈ set_prefix (is_entries s) p → starts_with entries_prefix k = true) as Hk.
  { intros k [Hin _]%set_prefix_elem. apply (co_entries s Hco) in Hin as (c & id & Hin).
    eapply entry_prefix_of_parse. by apply (co_parsed s Hco). }
  revert Hk. generalize (set_prefix (is_entries s) p). intros l. clear Hco. revert s.
  induction l as [|k l IH]; intros s Hk; cbn [foldl]; [apply tracked_refl|].
  eapply tracked_trans; [|apply IH; set_solver]. unfold clear_one.
  destruct (parse_entry k); apply (tracked_entry s _ k false); try done; apply Hk; set_solver.
Qed.

Lemma def_key_eq (c n : bytes) : name_ok c → name_ok n → def_key c n = defs_prefix ++ component c ++ component n.
Proof. intros Hc Hn. unfold def_key. rewrite !push_component_ok by done. by rewrite app_assoc. Qed.

Lemma def_key_inj (c n c' n' : bytes) :
  name_ok c → name_ok n → name_ok c' → name_ok n' → def_key c n = def_key c' n' → c = c' ∧ n = n'.
Proof.
  intros. rewrite !def_key_eq in * by done. match goal with H : _ ++ _ = _ |- _ => apply app_inv_head in H end.
  match goal with H : _ ++ _ = _ |- _ => apply component_inj in H as [-> H]; [|done..]; rewrite <-(app_nil_r (component n)), <-(app_nil_r (component n')) in H; by apply component_inj in H as [-> _] end.
Qed.

Lemma def_key_prefix (c n : bytes) : starts_with defs_prefix (def_key c n) = true.
Proof. apply starts_with_spec. unfold def_key, push_component. eexists. by rewrite <-!app_assoc. Qed.

(** A definition comes or goes. *)
Lemma tracked_def s eng f (c n : bytes) (v : option bytes) :
  defs_ok s eng → name_ok c → name_ok n →
  (∀ n', n' ≠ n → f (is_defs s) !! n' = is_defs s !! n') →
  (∀ d, is_defs s !! n = Some d → ix_collection d = c) →
  (∀ b, v = Some b ↔ ∃ d, f (is_defs s) !! n = Some d ∧ ix_collection d = c ∧ def_encode d = Ok b) →
  (∀ d, f (is_defs s) !! n = Some d → ix_collection d = c) →
  tracked s (mark (with_defs f s) (def_key c n) v).
Proof.
  intros Hok Hc Hn Hf Hold Hv Hnew Hs Hq. apply tracked_mark; try done. intros m [H1 H2].
  assert (∀ k, pending (with_defs f s) m k = pending s m k) as Hp by done.
  split; intros k *; rewrite mark_pending by done; rewrite Hp.
  - intros Hk. rewrite mark_entries. rewrite decide_False; [by apply H1|]. intros ->.
    by eapply prefixes_apart, def_key_prefix.
  - intros Hk. unfold defined. rewrite mark_defs. cbn [with_defs is_defs]. destruct (decide (k = def_key c n)) as [->|Hne].
    + etransitivity; [apply Hv|]. split.
      * intros (d & Hd & Hdc & Hb). exists n, d. by rewrite Hdc.
      * intros (n' & d & Hd & He & Hb). destruct (decide (n' = n)) as [->|Hnn]; [exists d; eauto|].
        rewrite Hf in Hd by done. destruct (Hok n' d Hd) as (_ & Hno & Hco & _).
        apply def_key_inj in He as [_ He]; done.
    + rewrite H2 by done. unfold defined. split; intros (n' & d & Hd & -> & Hb); exists n', d; split_and!; try done.
      * rewrite Hf; [done|]. intros ->. apply Hne. by rewrite (Hold d Hd).
      * rewrite <-Hf; [done|]. intros ->. apply Hne. by rewrite (Hnew d Hd).
Qed.

Lemma clear_prefix_defs s f (p : bytes) : clear_prefix (with_defs f s) p = with_defs f (clear_prefix s p).
Proof.
  unfold clear_prefix. change (is_entries (with_defs f s)) with (is_entries s). generalize (set_prefix (is_entries s) p).
  intros l. revert s. induction l as [|k l IH]; intros s; cbn [foldl]; [done|]. rewrite <-IH. f_equal.
  unfold clear_one, mark. destruct (parse_entry k); cbn; by destruct (is_sink s).
Qed.

Lemma mark_with_defs s f (k : bytes) v : with_defs f (mark s k v) = mark (with_defs f s) k v.
Proof. unfold mark. cbn. by destruct (is_sink s). Qed.

Lemma tracked_remove s eng (n : bytes) : coherent s → defs_ok s eng → tracked s (remove_def s n).2.
Proof.
  intros Hco Hok. unfold remove_def. destruct (is_defs s !! n) as [d|] eqn:Hn; [|apply tracked_refl]. cbn [snd].
  destruct (Hok n d Hn) as (Hname & Hno & Hcol & _). rewrite Hname, clear_prefix_defs.
  eapply tracked_trans; [by apply tracked_clear|].
  destruct (clear_prefix_spec s (entry_prefix d) Hco) as (_ & _ & Hd & _).
  apply (tracked_def _ eng); try done; rewrite ?Hd.
  - by unfold defs_ok; rewrite Hd.
  - intros n' Hne. by rewrite lookup_delete_ne.
  - intros d' Hd'. congruence.
  - intros b. rewrite lookup_delete_eq. naive_solver.
  - intros d'. by rewrite lookup_delete_eq.
Qed.

Lemma tracked_put s eng d b :
  defs_ok s eng → name_ok (ix_collection d) → name_ok (ix_name d) → def_encode d = Ok b →
  (∀ d', is_defs s !! ix_name d = Some d' → ix_collection d' = ix_collection d) → tracked s (put_def s d).2.
Proof.
  intros Hok Hc Hn Hb Hold. unfold put_def. rewrite Hb. cbn [snd]. rewrite mark_with_defs.
  apply (tracked_def s eng); try done.
  - intros n' Hne. by rewrite lookup_insert_ne.
  - intros b'. rewrite lookup_insert_eq. split; [intros [= <-]; eauto|]. intros (d' & [= <-] & _ & He). congruence.
  - intros d'. rewrite lookup_insert_eq. by intros [= <-].
Qed.

(** ** Rows *)

Lemma plan_entries s eng (ds : list (IndexDef E)) (c id k : bytes) (row : option (Value O)) :
  coherent s → defs_ok s eng → (∀ d, d ∈ ds → d ∈ defs_of s c) →
  IPut k ∈ plan_index_ops ds id (posted s c id) row ∨ IDelete k ∈ plan_index_ops ds id (posted s c id) row →
  starts_with entries_prefix k = true.
Proof.
  intros Hco Hd Hds. unfold plan_index_ops. rewrite !elem_of_app, !list_elem_of_fmap. setoid_rewrite sorted_elems_elem.
  intros [[(? & [=] & _)|(k' & [= <-] & Hin)]|[(k' & [= <-] & Hin)|(? & [=] & _)]].
  - apply elem_of_difference in Hin as [Hin _]. apply new_keys_elem in Hin as (r & d & _ & Hdin & Hk).
    apply Hds, defs_of_elem in Hdin as (_ & n & Hn). destruct (Hd n d Hn) as (<- & Hno & Hcol & _).
    apply entry_keys_elem in Hk as (v & e & _ & _ & ->). unfold entry_key, entry_prefix.
    rewrite index_prefix_eq by done. apply starts_with_spec. eexists. by rewrite <-!app_assoc.
  - apply elem_of_difference in Hin as [Hin _]. eapply entry_prefix_of_parse. by apply (co_parsed s Hco).
Qed.

Lemma tracked_resync s eng (c : bytes) (ids : list bytes) (rd : bytes → option (Value O)) :
  coherent s → defs_ok s eng → eng c = EDocument → (∀ id, rd id ≠ None → utf8_valid id = true) →
  tracked s (resync s c ids rd).
Proof.
  intros Hco Hd Hc Hu. unfold resync. destruct (bool_decide_reflect (defs_on s c EDocument = [])); [apply tracked_refl|].
  assert (∀ d, d ∈ defs_on s c EDocument ↔ d ∈ defs_of s c) as Hds by (intros d; rewrite <-Hc; by apply defs_on_of).
  revert Hds. generalize (defs_on s c EDocument). clear n. intros ds. revert s Hco Hd.
  induction ids as [|id ids IH]; intros s Hco Hd Hds; cbn [foldl]; [apply tracked_refl|].
  destruct (resync_rows s eng ds c rd [id] Hco Hd Hds Hu) as (Hco1 & _ & _ & Hd1 & _). cbn [foldl] in Hco1, Hd1.
  eapply tracked_trans.
  - apply tracked_apply. intros k. apply (plan_entries s eng); [done..|]. intros d. by apply Hds.
  - apply IH; [done|by unfold defs_ok; rewrite Hd1|]. intros d. unfold defs_of, def_values. rewrite Hd1. apply Hds.
Qed.

Lemma tracked_install_rows s d (n : Z) (rows : list (bytes * Value O)) :
  name_ok (ix_collection d) → name_ok (ix_name d) → tracked s (foldl (install_row d) (n, s) rows).2.
Proof.
  intros Hc Hn. revert s n. induction rows as [|[id r] rows IH]; intros s n; cbn [foldl]; [apply tracked_refl|].
  unfold install_row at 2. cbn [fst snd]. eapply tracked_trans; [|apply IH]. apply tracked_apply.
  intros k [Hin|Hin]; apply list_elem_of_fmap in Hin as (k' & [= ->] & Hin).
  apply sorted_elems_elem, entry_keys_elem in Hin as (v & e & _ & _ & ->). unfold entry_key, entry_prefix.
  rewrite index_prefix_eq by done. apply starts_with_spec. eexists. by rewrite <-!app_assoc.
Qed.

Lemma tracked_install s eng d (rows : list (bytes * Value O)) b :
  coherent s → defs_ok s eng → name_ok (ix_collection d) → name_ok (ix_name d) → def_encode d = Ok b →
  (∀ d', is_defs s !! ix_name d = Some d' → ix_collection d' = ix_collection d) →
  tracked s (install_state d rows s).2.
Proof.
  intros Hco Hok Hc Hn Hb Hold. unfold install_state.
  set (s0 := match is_defs s !! ix_name d with Some x => clear_prefix s (entry_prefix x) | None => s end).
  assert (coherent s0 ∧ is_defs s0 = is_defs s ∧ tracked s s0) as (Hc0 & Hd0 & Ht0).
  { unfold s0. destruct (is_defs s !! ix_name d) as [x|]; [|split_and!; [done..|apply tracked_refl]].
    destruct (clear_prefix_spec s (entry_prefix x) Hco) as (? & _ & ? & _). split_and!; [done..|by apply tracked_clear]. }
  destruct (clear_prefix_spec s0 (entry_prefix d) Hc0) as (_ & _ & Hd1 & _). cbn zeta.
  pose proof (tracked_put (clear_prefix s0 (entry_prefix d)) eng d b) as Hput.
  unfold put_def in *. rewrite Hb in *. cbn [snd] in Hput.
  pose proof (tracked_install_rows (with_defs (<[ix_name d:=d]>) (mark (clear_prefix s0 (entry_prefix d)) (def_key (ix_collection d) (ix_name d)) (Some b))) d 0 rows Hc Hn) as Hrows.
  destruct (foldl (install_row d) _ rows) as [count s3]. cbn [snd] in *.
  eapply tracked_trans; [exact Ht0|]. eapply tracked_trans; [by apply tracked_clear|]. eapply tracked_trans; [|exact Hrows].
  apply Hput; try done; [by unfold defs_ok; rewrite Hd1, Hd0|by rewrite Hd1, Hd0].
Qed.

Lemma tracked_clear_all s (ds : list (IndexDef E)) :
  coherent s → tracked s (foldl (λ s d, clear_prefix s (entry_prefix d)) s ds).
Proof.
  revert s. induction ds as [|d ds IH]; intros s Hco; cbn [foldl]; [apply tracked_refl|].
  destruct (clear_prefix_spec s (entry_prefix d) Hco) as (Hco1 & _).
  eapply tracked_trans; [by apply tracked_clear|by apply IH].
Qed.

(** ** Acts *)

Notation documents := (λ _ : bytes, EDocument).

(** The form of a catalog and the rows beside it, whatever the entries say. *)
Record shape_ok (w : World (O:=O) (E:=E)) : Prop := {
  sh_coherent : coherent w.2;
  sh_defs : defs_ok w.2 documents;
  sh_ids c id r : w.1 !! (c, id) = Some r → utf8_valid id = true
}.

Lemma resync_shape s (R : gmap (bytes * bytes) (Value O)) (c : bytes) (ids : list bytes) (rd : bytes → option (Value O)) :
  shape_ok (R, s) → (∀ id, rd id ≠ None → utf8_valid id = true) → shape_ok (R, resync s c ids rd).
Proof.
  intros [Hco Hd Hi] Hrd. cbn [fst snd] in *. unfold resync. destruct (bool_decide (defs_on s c EDocument = [])); [done|].
  destruct (resync_rows s documents (defs_on s c EDocument) c rd ids) as (Hco' & _ & _ & Hd' & _ & _); [done..| |done|].
  { intros d. by apply (defs_on_of s documents). }
  split; cbn [fst snd]; [done|unfold defs_ok; by rewrite Hd'|done].
Qed.

Lemma write_shape s (R : gmap (bytes * bytes) (Value O)) (c : bytes) (rows : list (bytes * option (Value O))) :
  shape_ok (R, s) → (∀ id, id ∈ rows.*1 → utf8_valid id = true) → shape_ok (checked_write (R, s) c rows).2.
Proof.
  intros Hs Hids. unfold checked_write. destruct (check_unique s c rows _) as [u|e]; [|done]. cbn [snd].
  assert (∀ c' id r, write_rows R c rows !! (c', id) = Some r → utf8_valid id = true) as Hutf.
  { intros c' id r. rewrite write_rows_lookup. case_decide as Hin; [intros _; by apply Hids, Hin|apply (sh_ids _ Hs)]. }
  apply resync_shape.
  - destruct Hs as [? ? _]. by split.
  - intros id Hne. destruct (write_rows R c rows !! (c, id)) as [r|] eqn:Hr; [by eapply Hutf|done].
Qed.

Lemma mark_coherent s k (v : option bytes) : coherent s → coherent (mark s k v).
Proof.
  intros [Ha Hb]. assert (∀ c id, posted (mark s k v) c id = posted s c id) as Hp by (intros; unfold posted; by rewrite mark_postings).
  split; [intros c id x; rewrite Hp; apply Ha|]. intros x. rewrite mark_entries, Hb. by setoid_rewrite Hp.
Qed.

Lemma install_shape s (R : gmap (bytes * bytes) (Value O)) d (rows : list (bytes * Value O)) :
  shape_ok (R, s) → act_ok (O:=O) documents (ACreate d) → NoDup rows.*1 → (∀ id r, (id, r) ∈ rows → utf8_valid id = true) →
  shape_ok (R, (install_state d rows s).2).
Proof.
  intros [Hco Hd Hi] (Hn & Hc & _ & He & Henc) Hnd Hu. cbn [fst snd] in *. unfold install_state, put_def.
  destruct (def_encode d) as [b|e] eqn:Hb; [|unfold def_encode in Hb; by destruct (def_to_msgpack d)].
  set (s0 := match is_defs s !! ix_name d with Some x => clear_prefix s (entry_prefix x) | None => s end).
  assert (coherent s0 ∧ is_defs s0 = is_defs s) as [Hc0 Hd0].
  { unfold s0. destruct (is_defs s !! ix_name d) as [x|]; [|done].
    by destruct (clear_prefix_spec s (entry_prefix x) Hco) as (? & _ & ? & _). }
  destruct (clear_prefix_spec s0 (entry_prefix d) Hc0) as (Hc1 & _ & Hd1 & _ & _). cbn zeta in *.
  set (s1 := clear_prefix s0 (entry_prefix d)) in *.
  pose proof (mark_coherent s1 (def_key (ix_collection d) (ix_name d)) (Some b) Hc1) as [Ha Hb2].
  set (s2 := with_defs (<[ix_name d:=d]>) (mark s1 (def_key (ix_collection d) (ix_name d)) (Some b))).
  pose proof (install_rows_spec s2 d rows 0 ltac:(by split) Hn Hc Hnd Hu) as Hinst.
  destruct (foldl (install_row d) (0, s2) rows) as [count s3]. destruct Hinst as (Hc3 & Hd3 & _). cbn [snd].
  split; cbn [fst snd]; [done| |done]. intros n' d'. rewrite Hd3. unfold s2. cbn. rewrite mark_defs, Hd1, Hd0, lookup_insert.
  case_decide as Heq; [intros [= <-]; by subst|apply Hd].
Qed.

Lemma run_act_shape (w : World (O:=O) (E:=E)) (a : IndexAct (O:=O) (E:=E)) :
  shape_ok w → act_ok documents a → shape_ok (run_act w a).2.
Proof.
  destruct w as [R s]. intros Hs Ha. pose proof Hs as [Hco Hd Hi]. cbn [fst snd] in Hco, Hd, Hi.
  destruct a as [c rows|c id row|c ids|d|n|c]; cbn [run_act].
  - apply write_shape; [done|apply Ha].
  - apply write_shape; [destruct Hco; by split; [split|..]|]. intros id' Hin. apply list_elem_of_singleton in Hin as ->. apply Ha.
  - unfold tombstone. rewrite tombstones_spec. cbn [snd]. apply resync_shape; [destruct Hco; by split; [split|..]|]. done.
  - destruct (live_rows_spec s R (ix_collection d)) as [Hnd Hrows]. unfold install.
    destruct (if ix_unique d then _ else _) as [seen|e]; [|done]. pose proof Ha as (_ & _ & _ & Hde & _).
    rewrite Hde, bool_decide_true by done. unfold collecting. cbn [negb].
    pose proof (install_shape s R d (live_rows s R (ix_collection d)) Hs Ha Hnd) as Hin.
    destruct (install_state d _ s) as [r s']. cbn [snd] in *. apply Hin. intros id r' Hr%Hrows. unfold live in Hr.
    destruct (bool_decide _); [done|by eapply Hi].
  - destruct (is_defs s !! n) as [d|] eqn:Hn; [|done]. unfold drop_change. change (option_list (Some d)) with [d]. cbn [foldl].
    destruct (Hd n d Hn) as (-> & _ & _ & He). unfold durable_def, collecting. rewrite He, bool_decide_true by done. cbn [negb].
    unfold remove_def. rewrite Hn. set (s1 := with_defs (delete n) s).
    destruct (clear_prefix_spec s1 (entry_prefix d)) as (Hc2 & _ & Hd2 & _ & _); [destruct Hco; by split|]. cbn zeta in *. cbn [snd].
    split; cbn [fst snd]; [by apply mark_coherent| |done]. intros n' d'. rewrite mark_defs, Hd2. cbn. rewrite lookup_delete_Some.
    intros [_ Hn']. by apply Hd.
  - unfold clear_document_entries. destruct (clear_prefixes_spec s (defs_on s c EDocument) Hco) as (Hco' & _ & Hd' & _).
    cbn zeta in *. cbn [snd]. split; cbn [fst snd]; [done|unfold defs_ok; by rewrite Hd'|].
    intros c' id r. rewrite clear_rows_lookup. case_decide; [done|apply Hi].
Qed.

(** A created index takes the name of no index of another collection. *)
Definition name_free s (a : IndexAct (O:=O) (E:=E)) : Prop :=
  match a with
  | ACreate d => ∀ d', is_defs s !! ix_name d = Some d' → ix_collection d' = ix_collection d
  | _ => True
  end.

Lemma tracked_act (w : World (O:=O) (E:=E)) (a : IndexAct (O:=O) (E:=E)) :
  shape_ok w → act_ok documents a → name_free w.2 a → tracked w.2 (run_act w a).2.2.
Proof.
  destruct w as [R s]. cbn [fst snd]. intros [Hco Hd Hu] Ha Hfree. cbn [fst snd] in Hco, Hd, Hu.
  assert (∀ s1 c rows, coherent s1 → defs_ok s1 documents → (∀ id, id ∈ rows.*1 → utf8_valid id = true) →
    tracked s1 (checked_write (R, s1) c rows).2.2) as Hwrite.
  { intros s1 c rows Hc1 Hd1 Hids. unfold checked_write.
    destruct (check_unique s1 c rows _) as [u|e]; cbn [snd]; [|apply tracked_refl].
    apply (tracked_resync s1 documents); try done. intros id. rewrite write_rows_lookup.
    case_decide as Hin; [intros _; by apply Hids, Hin|]. destruct (R !! (c, id)) eqn:Hr; [intros _; by eapply Hu|done]. }
  destruct a as [c rows|c id row|c ids|d|n|c]; cbn [run_act].
  - apply Hwrite; [done..|apply Ha].
  - eapply tracked_trans; [by apply (tracked_same s (revive s c id))|]. apply Hwrite; [destruct Hco; by split|done|].
    intros id' Hin. apply list_elem_of_singleton in Hin as ->. apply Ha.
  - unfold tombstone. rewrite tombstones_spec. cbn [snd].
    eapply tracked_trans; [by apply (tracked_same s (with_tombstoned (λ t, list_to_set (pair c <$> ids) ∪ t) s))|].
    apply (tracked_resync _ documents); try done. destruct Hco; by split.
  - destruct Ha as (Hn & Hc & _ & Hde & Henc). unfold install.
    destruct (if ix_unique d then _ else _) as [seen|e]; [|apply tracked_refl].
    rewrite Hde, bool_decide_true by done. unfold collecting. cbn [negb].
    assert (∃ b, def_encode d = Ok b) as [b Hb].
    { unfold def_encode in *. destruct (def_to_msgpack d) as [b|]; [by exists b|done]. }
    pose proof (tracked_install s documents d (live_rows s R (ix_collection d)) b Hco Hd Hc Hn Hb Hfree) as Ht.
    by destruct (install_state d (live_rows s R (ix_collection d)) s) as [r s'].
  - destruct (is_defs s !! n) as [d|] eqn:Hn; [|apply tracked_refl]. unfold drop_change.
    change (option_list (Some d)) with [d]. cbn [foldl]. destruct (Hd n d Hn) as (-> & _ & _ & He).
    unfold durable_def, collecting. rewrite He, bool_decide_true by done. cbn [negb].
    pose proof (tracked_remove s documents n Hco Hd) as Ht. by destruct (remove_def s n).
  - by apply tracked_clear_all.
Qed.
End sync.
