(* ===== verification/IndexRestart.v ===== *)
(** * Flushes of the index catalog

    The steps of a flush interleaved with changes, and the catalog a restart loads. *)

From Stdlib Require Import ZArith Lia Strings.Byte.
From stdpp Require Import prelude gmap strings sorting.
From S2P Require Import Prelude Bytes Ordered Text StorageTrait IndexKey SortedKeys.
From S2P Require Import IndexDefs IndexStore IndexDurable IndexSpec IndexUnique IndexSession IndexFlush.

Local Open Scope Z_scope.

Section flush.
Context {O E : Type} `{VC : ValueCodec O} `{IO : IndexOps O E} `{HashOrder}.
Implicit Types (s : IndexState E) (m : Store).

Notation documents := (λ _ : bytes, EDocument).

(** ** The steps *)

Inductive Phase :=
| Idle
| Staged (ops : list WriteOp) (flush : IndexFlush)
| Committed (flush : IndexFlush).

Record System := mkSystem { sys_world : World (O:=O) (E:=E); sys_store : Store; sys_phase : Phase }.

(** A flush stages, its batch commits or fails (and may have committed), and a committed
    flush clears the marks it wrote; row writes and DDL come in between. *)
Inductive flush_step : System → System → Prop :=
| fs_act w m p a :
    act_ok documents a → name_free w.2 a →
    flush_step (mkSystem w m p) (mkSystem (run_act w a).2 m p)
| fs_stage w m :
    flush_step (mkSystem w m Idle) (mkSystem w m (Staged (stage_flush w.2).1 (stage_flush w.2).2))
| fs_commit w m ops fl :
    flush_step (mkSystem w m (Staged ops fl)) (mkSystem w (st_ops m ops) (Committed fl))
| fs_fail w m ops fl :
    flush_step (mkSystem w m (Staged ops fl)) (mkSystem w m Idle)
| fs_unknown w m ops fl :
    flush_step (mkSystem w m (Staged ops fl)) (mkSystem w (st_ops m ops) Idle)
| fs_finish R s m fl :
    flush_step (mkSystem (R, s) m (Committed fl)) (mkSystem (R, mark_flushed s fl) m Idle).

(** What is known of a flush under way: the state [s0] it staged. *)
Definition phase_ok (w : World (O:=O) (E:=E)) m (p : Phase) : Prop :=
  match p with
  | Idle => True
  | Staged ops fl => ∃ s0, seqs_ok s0 ∧ later s0 w.2 ∧ (ops, fl) = stage_flush s0
  | Committed fl => ∃ s0, seqs_ok s0 ∧ later s0 w.2 ∧ fl = (stage_flush s0).2 ∧
      ∀ k x, is_dirty s0 !! k = Some x → m Meta !! k = d_value x
  end.

Record sys_ok (y : System) : Prop := {
  so_world : shape_ok (sys_world y);
  so_sink : is_sink (sys_world y).2 = None;
  so_seqs : seqs_ok (sys_world y).2;
  so_sync : in_sync (sys_world y).2 (sys_store y);
  so_phase : phase_ok (sys_world y) (sys_store y) (sys_phase y)
}.

Lemma staged_elem s k (x : Dirty) : (k, x) ∈ hash_iter 5 0 (is_dirty s) ↔ is_dirty s !! k = Some x.
Proof. by rewrite hash_iter_perm, elem_of_map_to_list. Qed.

Lemma staged_ops s op :
  op ∈ (stage_flush s).1 → ∃ k x, is_dirty s !! k = Some x ∧ op = index_write k (d_value x).
Proof. unfold stage_flush. intros ([k x] & -> & Hin%staged_elem)%list_elem_of_fmap. eauto. Qed.

Lemma index_write_key k v : op_ns (index_write k v) = Meta ∧ op_key (index_write k v) = k.
Proof. by destruct v. Qed.

(** The batch writes the value of every staged key and touches no other key. *)
Lemma staged_lookup s m k :
  st_ops m (stage_flush s).1 Meta !! k =
    match is_dirty s !! k with Some x => d_value x | None => m Meta !! k end.
Proof.
  assert (∀ op, op ∈ (stage_flush s).1 → op_key op = k → ∃ x, is_dirty s !! k = Some x ∧ op = index_write k (d_value x)) as Hops.
  { intros op Hin Hk. destruct (staged_ops s op Hin) as (k' & x & Hx & ->).
    rewrite (proj2 (index_write_key k' (d_value x))) in Hk. subst k'. eauto. }
  destruct (is_dirty s !! k) as [x|] eqn:Hx.
  - assert (∃ op, op ∈ (stage_flush s).1 ∧ op_ns op = Meta ∧ op_key op = k) as Hex.
    { exists (index_write k (d_value x)). split; [|apply index_write_key].
      apply staged_elem, (list_elem_of_fmap_2 (λ p : bytes * Dirty, index_write p.1 (d_value p.2))) in Hx. exact Hx. }
    assert (∀ op, op ∈ (stage_flush s).1 → op_ns op = Meta → op_key op = k → op = index_write k (d_value x)) as Hall.
    { intros op Hin _ Hk. destruct (Hops op Hin Hk) as (y & Hy & ->). congruence. }
    destruct (d_value x) as [v|]; [by eapply st_ops_all_put|by eapply st_ops_all_delete].
  - apply st_ops_untouched. intros op Hin _ Hk. by destruct (Hops op Hin Hk) as (y & Hy & _).
Qed.

Lemma commit_sync s s0 m : later s0 s → in_sync s m → in_sync s (st_ops m (stage_flush s0).1).
Proof.
  intros Hl Hs. assert (∀ k, pending s (st_ops m (stage_flush s0).1) k = pending s m k) as Hp.
  { intros k. unfold pending. destruct (is_dirty s !! k) as [x|] eqn:Hx; [done|]. rewrite staged_lookup.
    destruct (is_dirty s0 !! k) as [y|] eqn:Hy; [|done]. apply (la_marks s0 s Hl) in Hy as [? ?]. congruence. }
  destruct Hs as [H1 H2]. by split; intros; rewrite Hp; [apply H1|apply H2].
Qed.

Lemma mark_flushed_spec s (fl : IndexFlush) :
  let s' := mark_flushed s fl in
  is_defs s' = is_defs s ∧ is_entries s' = is_entries s ∧ is_postings s' = is_postings s ∧
  is_tombstoned s' = is_tombstoned s ∧ is_sink s' = is_sink s ∧ is_next_seq s' = is_next_seq s ∧
  is_sorted s' = is_sorted s ∧
  (∀ k, is_dirty s' !! k = is_dirty s !! k ∨
        is_dirty s' !! k = None ∧ ∃ x, is_dirty s !! k = Some x ∧ (k, d_seq x) ∈ fl) ∧
  (∀ k x, is_dirty s !! k = Some x → (k, d_seq x) ∈ fl → is_dirty s' !! k = None).
Proof.
  revert s. induction fl as [|[k seq] fl IH]; intros s; [cbn; split_and!; try done; [by left|set_solver]|].
  cbn [mark_flushed foldl]. fold (mark_flushed (flushed_one s (k, seq)) fl).
  assert (let s1 := flushed_one s (k, seq) in
    is_defs s1 = is_defs s ∧ is_entries s1 = is_entries s ∧ is_postings s1 = is_postings s ∧
    is_tombstoned s1 = is_tombstoned s ∧ is_sink s1 = is_sink s ∧ is_next_seq s1 = is_next_seq s ∧ is_sorted s1 = is_sorted s ∧
    (is_dirty s1 = is_dirty s ∧ (∀ x, is_dirty s !! k = Some x → d_seq x ≠ seq) ∨
     is_dirty s1 = delete k (is_dirty s) ∧ ∃ x, is_dirty s !! k = Some x ∧ d_seq x = seq)) as Hone.
  { unfold flushed_one. cbn [fst snd]. destruct (is_dirty s !! k) as [x|] eqn:Hx.
    - destruct (bool_decide_reflect (d_seq x = seq)); cbn; split_and!; try done; [right; eauto|left; split; [done|naive_solver]].
    - cbn. split_and!; try done. left. split; [done|naive_solver]. }
  destruct (IH (flushed_one s (k, seq))) as (-> & -> & -> & -> & -> & -> & -> & Hk1 & Hk2).
  destruct Hone as (-> & -> & -> & -> & -> & -> & -> & Hd). split_and!; try done.
  - intros k'. destruct (Hk1 k') as [->|[-> (x & Hx & Hin)]].
    + destruct Hd as [[-> _]|[-> (x & Hx & <-)]]; [by left|]. rewrite lookup_delete.
      destruct (decide (k = k')) as [<-|]; [right; split; [done|]; exists x; set_solver|by left].
    + right. split; [done|]. exists x. split; [|set_solver].
      destruct Hd as [[He _]|[He _]]; rewrite He in Hx; [done|]. by apply lookup_delete_Some in Hx as [_ ?].
  - intros k' x Hx Hin. destruct Hd as [[He Hne]|[He (y & Hy & Hseq)]].
    + apply (Hk2 k' x); [by rewrite He|]. apply elem_of_cons in Hin as [[= -> Hq]|Hin]; [|done]. by apply Hne in Hx.
    + destruct (decide (k = k')) as [<-|Hne].
      * destruct (Hk1 k) as [->|[-> _]]; [|done]. rewrite He. apply lookup_delete_eq.
      * apply (Hk2 k' x); [by rewrite He, lookup_delete_ne|]. apply elem_of_cons in Hin as [[= -> _]|Hin]; done.
Qed.

Lemma shape_ok_same (R : gmap (bytes * bytes) (Value O)) s s' :
  is_defs s' = is_defs s → is_entries s' = is_entries s → is_postings s' = is_postings s →
  shape_ok (R, s) → shape_ok (R, s').
Proof.
  intros Hd He Hp [[Hpa Hen] Hdo Hi].
  assert (∀ c id, posted s' c id = posted s c id) as Hposted by (intros; unfold posted; by rewrite Hp).
  split; cbn [fst snd] in *; [split| |].
  - intros c id k. rewrite Hposted. apply Hpa.
  - intros k. rewrite He, Hen. by setoid_rewrite Hposted.
  - intros n d. rewrite Hd. apply Hdo.
  - exact Hi.
Qed.

(** Clearing the marks a committed batch wrote. *)
Lemma finish_sync s s0 m :
  seqs_ok s0 → later s0 s → (∀ k x, is_dirty s0 !! k = Some x → m Meta !! k = d_value x) →
  in_sync s m → in_sync (mark_flushed s (stage_flush s0).2) m.
Proof.
  intros Hq Hl Hm [H1 H2].
  destruct (mark_flushed_spec s (stage_flush s0).2) as (Hd & He & _ & _ & _ & _ & _ & Hk & _). cbn zeta in *.
  assert (∀ k, pending (mark_flushed s (stage_flush s0).2) m k = pending s m k) as Hp.
  { intros k. unfold pending. destruct (Hk k) as [->|[-> (y & Hy & Hin)]]; [done|]. rewrite Hy.
    apply list_elem_of_fmap in Hin as ([k' x] & [= <- Hseq] & Hx%staged_elem).
    destruct (la_new s0 s Hl k y Hy) as [Hy0|Hlt]; [assert (x = y) as <- by congruence; by apply Hm|].
    apply Hq in Hx. lia. }
  split; intros; rewrite Hp; unfold defined; rewrite ?He, ?Hd; [by apply H1|by apply H2].
Qed.

Lemma flush_step_ok y y' : flush_step y y' → sys_ok y → sys_ok y'.
Proof.
  intros Hstep [Hw Hk Hq Hs Hp]. destruct Hstep as [w m p a Ha Hfree|w m|w m ops fl|w m ops fl|w m ops fl|R s m fl]; cbn [sys_world sys_store sys_phase fst snd phase_ok] in *.
  - destruct (tracked_act w a Hw Ha Hfree Hk Hq) as (Hk' & Hq' & Hl & Hs').
    split; cbn [sys_world sys_store sys_phase fst snd phase_ok]; [by apply run_act_shape|done|done|by apply Hs'|].
    destruct p as [|ops fl|fl]; [done| |]; destruct Hp as (s0 & H0 & Hl0 & Hrest); exists s0;
      (split; [done|]; split; [by eapply later_trans|exact Hrest]).
  - split; cbn [sys_world sys_store sys_phase fst snd phase_ok]; try done. exists w.2. split_and!; [done|apply later_refl|by rewrite <-surjective_pairing].
  - destruct Hp as (s0 & H0 & Hl0 & Hst). assert (ops = (stage_flush s0).1) as -> by (by rewrite <-Hst). assert (fl = (stage_flush s0).2) as -> by (by rewrite <-Hst). split; cbn [sys_world sys_store sys_phase fst snd phase_ok]; try done; [by apply commit_sync|].
    exists s0. split_and!; try done. intros k x Hx. by rewrite staged_lookup, Hx.
  - by split.
  - destruct Hp as (s0 & H0 & Hl0 & Hst). assert (ops = (stage_flush s0).1) as -> by (by rewrite <-Hst). assert (fl = (stage_flush s0).2) as -> by (by rewrite <-Hst). split; cbn [sys_world sys_store sys_phase fst snd phase_ok]; try done. by apply commit_sync.
  - destruct Hp as (s0 & H0 & Hl0 & -> & Hm).
    destruct (mark_flushed_spec s (stage_flush s0).2) as (Hd & He & Hpo & Ht & Hsk & Hn & _ & Hdk & _). cbn zeta in *.
    split; cbn [sys_world sys_store sys_phase fst snd phase_ok]; [by eapply shape_ok_same|by rewrite Hsk| |by apply finish_sync|done].
    intros k x Hx. rewrite Hn. destruct (Hdk k) as [Hx'|[Hx' _]]; rewrite Hx' in Hx; [by apply Hq in Hx|done].
Qed.

Lemma flush_steps_ok y y' : rtc flush_step y y' → sys_ok y → sys_ok y'.
Proof. induction 1; eauto using flush_step_ok. Qed.

(** ** Loading *)

Context {S : Type} `{StorageProgress S}.

(** The stored form of each definition decodes to it. *)
Definition defs_codec s : Prop :=
  ∀ n d, is_defs s !! n = Some d → ∃ b, def_encode d = Ok b ∧ def_decode b = Ok d.

Lemma load_defs s (l : list (IndexDef E)) :
  let s' := foldl (λ s d, with_defs (<[ix_name d := d]>) s) s l in
  (∀ n, is_defs s' !! n = match last (filter (λ d, ix_name d = n) l) with Some d => Some d | None => is_defs s !! n end) ∧
  is_entries s' = is_entries s ∧ is_postings s' = is_postings s ∧ is_dirty s' = is_dirty s ∧ is_sink s' = is_sink s.
Proof.
  induction l as [|d l IH] using rev_ind; [done|]. rewrite foldl_app. cbn [foldl].
  destruct IH as (Hn & He & Hp & Hd & Hk). cbn zeta in *. cbn [with_defs is_defs is_entries is_postings is_dirty is_sink].
  split_and!; try done. intros n. rewrite filter_app, filter_cons, filter_nil, lookup_insert.
  destruct (decide (ix_name d = n)) as [Heq|Hne]; [by rewrite last_snoc|by rewrite app_nil_r].
Qed.

Lemma load_sorted s (l : list SortedIndexDef) :
  let s' := foldl (λ s d, with_sorted (<[sd_name d := d]>) s) s l in
  is_defs s' = is_defs s ∧ is_entries s' = is_entries s ∧ is_postings s' = is_postings s ∧
  is_dirty s' = is_dirty s ∧ is_sink s' = is_sink s.
Proof.
  cbn zeta. revert s. induction l as [|d l IH]; intros s; [done|]. cbn [foldl].
  destruct (IH (with_sorted (<[sd_name d := d]>) s)) as (-> & -> & -> & -> & ->). done.
Qed.

Lemma load_entries s (rows : list KvPair) :
  (∀ k b, (k, b) ∈ rows → is_Some (parse_entry k)) →
  let s' := foldl (load_entry true) s rows in
  is_entries s' = is_entries s ∪ list_to_set rows.*1 ∧ is_defs s' = is_defs s ∧ is_dirty s' = is_dirty s ∧
  (∀ c id k, k ∈ posted s' c id ↔ k ∈ posted s c id ∨ k ∈ rows.*1 ∧ parse_entry k = Some (mkParsedEntry c id)).
Proof.
  revert s. induction rows as [|[k b] rows IH]; intros s Hrows; [cbn; split_and!; try done; set_solver|].
  destruct (Hrows k b) as [[c0 id0] Hk]; [by left|]. cbn zeta. cbn [foldl].
  set (s1 := load_entry true s (k, b)). destruct (IH s1) as (He & Hd & Hq & Hp); [intros k1 b1 Hin; apply (Hrows k1 b1); by right|].
  cbn zeta in *.
  assert (s1 = with_entries (λ es, {[k]} ∪ es) (with_postings (posting_insert (c0, id0) k) s)) as Hs1
    by (unfold s1, load_entry; cbn [fst]; by rewrite Hk).
  rewrite He, Hd, Hq. split_and!; [rewrite Hs1; cbn; set_solver|by rewrite Hs1|by rewrite Hs1|].
  intros c id k'. rewrite Hp. cbn [fmap list_fmap fst]. rewrite elem_of_cons.
  assert (k' ∈ posted s1 c id ↔ k' ∈ posted s c id ∨ k' = k ∧ (c, id) = (c0, id0)) as ->.
  { rewrite Hs1. unfold posted. cbn. rewrite posting_insert_lookup.
    destruct (decide ((c, id) = (c0, id0))) as [[= -> ->]|Hne]; set_solver. }
  naive_solver.
Qed.

(** A catalog whose marks are all flushed, over the store a load reads. *)
Definition stored_in s m : Prop := in_sync s m ∧ is_dirty s = ∅.

Lemma alone_stored s m : in_sync s m →
  stored_in (mark_flushed s (stage_flush s).2) (st_ops m (stage_flush s).1).
Proof.
  intros Hs. destruct (mark_flushed_spec s (stage_flush s).2) as (Hd & He & _ & _ & _ & _ & _ & Hk1 & Hk2). cbn zeta in *.
  assert (is_dirty (mark_flushed s (stage_flush s).2) = ∅) as Hdirty.
  { apply map_empty. intros k. destruct (is_dirty s !! k) as [x|] eqn:Hx.
    - apply (Hk2 k x Hx). apply staged_elem in Hx.
      exact (list_elem_of_fmap_2 (λ p : bytes * Dirty, (p.1, d_seq p.2)) _ _ Hx).
    - destruct (Hk1 k) as [->|[-> _]]; done. }
  split; [|done]. destruct Hs as [He0 Hd0].
  assert (∀ k, pending (mark_flushed s (stage_flush s).2) (st_ops m (stage_flush s).1) k = pending s m k) as Hp.
  { intros k. unfold pending. rewrite Hdirty, lookup_empty. by rewrite staged_lookup. }
  split; intros; rewrite Hp; unfold defined; rewrite ?He, ?Hd; [by apply He0|by apply Hd0].
Qed.

Lemma stored_entry s m k : stored_in s m → starts_with entries_prefix k = true →
  m Meta !! k = if bool_decide (k ∈ is_entries s) then Some [] else None.
Proof. intros [Hs Hd] Hk. rewrite <-(sy_entries s m Hs k Hk). unfold pending. by rewrite Hd, lookup_empty. Qed.

Lemma stored_def s m k b : stored_in s m → starts_with defs_prefix k = true → m Meta !! k = Some b ↔ defined s k b.
Proof. intros [Hs Hd] Hk. rewrite <-(sy_defs s m Hs k b Hk). unfold pending. by rewrite Hd, lookup_empty. Qed.

(** The definitions a load decodes. *)
Lemma decoded_defs s m eng :
  defs_codec s → defs_ok s eng → stored_in s m →
  ∃ ds, rmapM (λ row : KvPair, def_decode row.2) (st_scan_prefix m Meta defs_prefix) = Ok ds ∧
    ∀ d, d ∈ ds ↔ is_defs s !! ix_name d = Some d.
Proof.
  intros Hcodec Hok Hst.
  assert (∀ n d b, is_defs s !! n = Some d → def_encode d = Ok b → def_decode b = Ok d) as Hdec'.
  { intros n d b Hn Hb. destruct (Hcodec n d Hn) as (b' & Hb' & Hd'). congruence. }
  assert (∀ row : KvPair, row ∈ st_scan_prefix m Meta defs_prefix → defined s row.1 row.2) as Hrows.
  { intros [k b] [Hk Hm]%elem_of_st_scan_prefix. by apply (stored_def s m). }
  assert (∃ ds, rmapM (λ row : KvPair, def_decode row.2) (st_scan_prefix m Meta defs_prefix) = Ok ds) as [ds Hds].
  { revert Hrows. generalize (st_scan_prefix m Meta defs_prefix). intros l. induction l as [|row l IH]; intros Hl; [by exists []|].
    destruct IH as [ds Hds]; [intros; apply Hl; by right|]. destruct (Hl row) as (n & d & Hn & _ & Hb); [by left|].
    exists (d :: ds). cbn [rmapM]. by rewrite (Hdec' n d _ Hn Hb), Hds. }
  exists ds. split; [done|]. apply rmapM_Ok in Hds. intros d. split.
  - intros [i Hi]%list_elem_of_lookup. destruct (Forall2_lookup_r _ _ _ _ _ Hds Hi) as (row & Hrow & Hdec).
    apply list_elem_of_lookup_2 in Hrow. destruct (Hrows row Hrow) as (n & d' & Hn & _ & Hb).
    apply (Hdec' n) in Hb; [|done]. rewrite Hb in Hdec. injection Hdec as ->. by destruct (Hok n d Hn) as (-> & _).
  - intros Hn. destruct (Hcodec _ d Hn) as (b & Hb & Hbd).
    assert (∃ k, (k, b) ∈ st_scan_prefix m Meta defs_prefix) as [k Hk].
    { exists (def_key (ix_collection d) (ix_name d)). apply elem_of_st_scan_prefix. split; [apply def_key_prefix|].
      apply (stored_def s m); [done|apply def_key_prefix|]. by exists (ix_name d), d. }
    apply list_elem_of_lookup in Hk as [i Hi]. destruct (Forall2_lookup_l _ _ _ _ _ Hds Hi) as (d' & Hd' & Hdec).
    cbn in Hdec. rewrite Hbd in Hdec. injection Hdec as <-. by eapply list_elem_of_lookup_2.
Qed.

Lemma last_named (ds : list (IndexDef E)) (n : bytes) (F : gmap bytes (IndexDef E)) :
  (∀ n d, F !! n = Some d → ix_name d = n) → (∀ d, d ∈ ds ↔ F !! ix_name d = Some d) →
  last (filter (λ d, ix_name d = n) ds) = F !! n.
Proof.
  intros Hname Hds. destruct (last _) as [d|] eqn:Hl.
  - apply last_Some_elem_of in Hl. apply list_elem_of_filter in Hl as [<- Hin]. symmetry. by apply Hds.
  - apply last_None in Hl. symmetry. apply eq_None_not_Some. intros [d Hd]. pose proof (Hname n d Hd) as <-.
    apply Hds in Hd. assert (d ∈ filter (λ x, ix_name x = ix_name d) ds) as Hin by (by apply list_elem_of_filter).
    rewrite Hl in Hin. by apply elem_of_nil in Hin.
Qed.

(** A load of a store that holds a catalog. *)
Lemma load_stored s (st : S) eng :
  coherent s → defs_ok s eng → defs_codec s → stored_in s (contents st) → healthy st →
  contents st Meta !! format_key = Some (u32_be FORMAT_VERSION) →
  (∃ l, rmapM (λ row : KvPair, sorted_decode row.2) (st_scan_prefix (contents st) Meta sorted_defs_prefix) = Ok l) →
  ∃ s', load index_state_default st = (Ok false, s', st) ∧ is_defs s' = is_defs s ∧ is_entries s' = is_entries s ∧
    is_dirty s' = ∅ ∧ ∀ c id, posted s' c id = posted s c id.
Proof.
  intros Hco Hok Hcodec Hst Hh Hf [sl Hsl]. destruct (decoded_defs s (contents st) eng Hcodec Hok Hst) as (ds & Hds & Hdin).
  unfold load. rewrite read_get, !read_scan by done. cbn [rbind]. rewrite Hsl. cbn [rbind]. rewrite Hds. cbn [rbind].
  rewrite Hf, bool_decide_true by done. cbn [negb andb].
  destruct (load_defs index_state_default ds) as (Hd1 & He1 & Hp1 & Hq1 & _). cbn zeta in *.
  set (s1 := foldl _ index_state_default ds) in *.
  destruct (load_sorted s1 sl) as (Hd2 & He2 & Hp2 & Hq2 & _). cbn zeta in *. set (s2 := foldl _ s1 sl) in *.
  set (rows := st_scan_prefix (contents st) Meta entries_prefix).
  assert (∀ k, k ∈ rows.*1 ↔ k ∈ is_entries s) as Hrows.
  { intros k. rewrite list_elem_of_fmap. split.
    - intros ([k' b] & -> & [Hk Hm]%elem_of_st_scan_prefix). rewrite (stored_entry s _ _ Hst Hk) in Hm. cbn [fst].
      by destruct (bool_decide_reflect (k' ∈ is_entries s)).
    - intros Hk. exists (k, []). split; [done|]. apply elem_of_st_scan_prefix.
      assert (starts_with entries_prefix k = true) as Hpre.
      { apply (co_entries s Hco) in Hk as (c & id & Hk). eapply entry_prefix_of_parse. by apply (co_parsed s Hco). }
      split; [done|]. rewrite (stored_entry s _ _ Hst Hpre). by rewrite bool_decide_true. }
  destruct (load_entries s2 rows) as (He3 & Hd3 & Hq3 & Hp3).
  { intros k b Hin. apply (list_elem_of_fmap_2 fst), Hrows, (co_entries s Hco) in Hin as (c & id & Hin).
    cbn [fst] in Hin. rewrite (co_parsed s Hco _ _ _ Hin). by eexists. }
  cbn zeta in *. eexists. split; [reflexivity|]. rewrite Hd3, He3, Hq3, Hd2, He2, Hq2, He1, Hq1. split_and!; [| |done|].
  - apply map_eq. intros n. rewrite Hd1, (last_named ds n (is_defs s)); [by destruct (is_defs s !! n)| |done].
    intros n' d Hn. by destruct (Hok n' d Hn).
  - apply set_eq. intros k. rewrite elem_of_union, elem_of_list_to_set, Hrows. set_solver.
  - intros c id. apply set_eq. intros k. rewrite Hp3. unfold posted at 1. rewrite Hp2, Hp1. cbn. rewrite Hrows. split.
    + intros [Hk|[Hk He]]; [set_solver|]. apply (co_entries s Hco) in Hk as (c' & id' & Hk).
      rewrite (co_parsed s Hco _ _ _ Hk) in He. by injection He as -> ->.
    + intros Hk. right. split; [apply (co_entries s Hco); eauto|by apply (co_parsed s Hco)].
Qed.

(** C7: a restart restores the index catalog of a database of documents.  Row writes
    (refused ones too), deletions, revivals, index creations, drops and clears of a
    collection interleave in any order with the steps of flushes, whose batches fail or
    commit without an answer; a created index takes the name of no other collection's
    index, and no index is moved between collections ([IndexCases.moved_index_reverts]).
    At any moment, the batch of a flush staged now followed by a load of the store, which
    says the format is current, reads back without a rebuild every definition and every
    entry: lookups answer as before. *)
Theorem flush_then_load (y0 y : System) (st : S) :
  sys_ok y0 → rtc flush_step y0 y → defs_codec (sys_world y).2 → healthy st →
  contents st ≡ st_ops (sys_store y) (stage_flush (sys_world y).2).1 →
  contents st Meta !! format_key = Some (u32_be FORMAT_VERSION) →
  (∃ l, rmapM (λ row : KvPair, sorted_decode row.2) (st_scan_prefix (contents st) Meta sorted_defs_prefix) = Ok l) →
  let s := (sys_world y).2 in
  ∃ s', load index_state_default st = (Ok false, s', st) ∧
    is_defs s' = is_defs s ∧ is_entries s' = is_entries s ∧ is_dirty s' = ∅ ∧
    (∀ c id, posted s' c id = posted s c id) ∧
    ∀ (d : IndexDef E) (probe : Value O), lookup_eq s' d probe = lookup_eq s d probe.
Proof.
  intros Hy0 Hsteps Hcodec Hh Hc Hf Hsl s. destruct (flush_steps_ok _ _ Hsteps Hy0) as [[Hco Hok _] _ _ Hsy _].
  destruct (mark_flushed_spec s (stage_flush s).2) as (Hd & He & Hpo & _). cbn zeta in *.
  set (s1 := mark_flushed s (stage_flush s).2) in *.
  assert (∀ c id, posted s1 c id = posted s c id) as Hposted by (intros; unfold posted; by rewrite Hpo).
  assert (coherent s1) as Hco1.
  { destruct Hco as [Hpa Hen]. split; [intros c id k; rewrite Hposted; apply Hpa|].
    intros k. rewrite He. setoid_rewrite Hposted. apply Hen. }
  destruct (load_stored s1 st documents) as (s' & Hl & Hd' & He' & Hq' & Hp'); try done.
  - unfold defs_ok. by rewrite Hd.
  - unfold defs_codec. by rewrite Hd.
  - destruct (alone_stored s _ Hsy) as [[Ha Hb] Hdirty]. split; [|done].
    assert (∀ k, pending s1 (contents st) k = pending s1 (st_ops (sys_store y) (stage_flush s).1) k) as Hpend
      by (intros k; unfold pending; by rewrite (Hc Meta)).
    by split; intros; rewrite Hpend; [apply Ha|apply Hb].
  - exists s'. split_and!; [done|congruence|congruence|done|intros; by rewrite Hp'|].
    intros d probe. unfold lookup_eq, ids_under. by rewrite He', He.
Qed.
End flush.
