(* ===== verification/IndexRange.v ===== *)
(** * Range lookups

    The documents a range of an index returns ([lookup_range] of
    [src/nodedb-lite/src/index/lookup.rs]): those that hold a value of a class both bounds
    have, between them in the order of that class. *)

From Stdlib Require Import ZArith Lia Strings.Byte.
From stdpp Require Import prelude gmap strings sorting.
From S2P Require Import Prelude Bytes Ordered Text StorageTrait IndexKey SortedKeys.
From S2P Require Import IndexDefs IndexStore IndexDurable IndexSpec IndexUnique IndexSession.

Local Open Scope Z_scope.

(** ** Bounds of entry keys *)

Lemma head_encoding e : encoding e → ∃ t n, e = t :: n ∧ bz t < 255.
Proof.
  intros (t & n & -> & He). exists t, n. split; [done|].
  destruct He as [[-> _]|[[[->| ->] _]|[[->| ->] _]]]; by vm_compute.
Qed.

Lemma encoding_lower l e x : encoding l → encoding e → l <=b e ++ x ↔ l <=b e.
Proof.
  intros Hl He. unfold bytes_le. rewrite <-(app_nil_r l) at 1. rewrite encoding_cmp by done.
  destruct (bytes_cmp l e); [|done..]. by destruct x.
Qed.

Lemma utf8_below_ff x : utf8_valid x = true → bytes_cmp x [xff] = Lt.
Proof.
  destruct x as [|b x]; [done|]. intros Hu. cbn [bytes_cmp].
  destruct (Z.compare_spec (bz b) (bz xff)) as [Heq|Hlt|Hgt]; [|done|].
  - apply (inj bz) in Heq as ->. assert (utf8_char (xff :: x) = None) as Hn by (by destruct x as [|? [|? [|? ?]]]).
    unfold utf8_valid in Hu. cbn [length utf8_chars] in Hu. by rewrite Hn in Hu.
  - pose proof (bz_range b) as Hb. change (bz xff) with 255 in Hgt. lia.
Qed.

Lemma encoding_upper h e x : encoding h → encoding e → utf8_valid x = true → e ++ x <=b h ++ [xff] ↔ e <=b h.
Proof.
  intros Hh He Hx. unfold bytes_le. rewrite encoding_cmp by done.
  destruct (bytes_cmp e h); [|done..]. by rewrite utf8_below_ff.
Qed.

Lemma class_lower (t t' : byte) n : [t] <=b t' :: n ↔ bz t ≤ bz t'.
Proof.
  unfold bytes_le. cbn [bytes_cmp]. destruct (Z.compare_spec (bz t) (bz t')); [destruct n|..]; split; intros ?; try done; lia.
Qed.

Lemma class_upper (t t' : byte) n : bz t < 255 → t' :: n <b [zb (bz t + 1)] ↔ bz t' ≤ bz t.
Proof.
  intros Ht. pose proof (bz_range t). unfold bytes_lt. cbn [bytes_cmp]. rewrite bz_zb_small by lia.
  destruct (Z.compare_spec (bz t') (bz t + 1)); [destruct n|..]; split; intros ?; try done; lia.
Qed.

Lemma head_le e1 e2 t1 t2 n1 n2 : e1 = t1 :: n1 → e2 = t2 :: n2 → e1 <=b e2 → bz t1 ≤ bz t2.
Proof. intros -> ->. unfold bytes_le. cbn [bytes_cmp]. destruct (Z.compare_spec (bz t1) (bz t2)); [lia|lia|done]. Qed.

Section range.
Context {O E : Type} `{VC : ValueCodec O} `{IO : IndexOps O E} `{!CoercedLaws O E}.
Implicit Types (s : IndexState E) (d : IndexDef E).

Notation Rows := (gmap (bytes * bytes) (Value O)).

(** The entries of one index. *)
Lemma index_entries s (R : Rows) (eng : bytes → IndexEngine) (n : bytes) d (k id : bytes) :
  indexes_ok s R eng → is_defs s !! n = Some d →
  (k ∈ is_entries s ∧ entry_doc_id k (entry_prefix d) = Some id) ↔
  ∃ e, holds s R d id e ∧ k = entry_key (entry_prefix d) e id.
Proof.
  intros Hok Hn. destruct (io_defs _ _ _ Hok n d Hn) as (Hdn & Hno & Hco & _). rewrite <-Hdn in Hno.
  rewrite (entries_of_rows s R eng _ Hok). split.
  - intros [(n' & d' & id' & e & Hn' & Hh & ->) Hid].
    destruct (io_defs _ _ _ Hok n' d' Hn') as (Hdn' & Hno' & Hco' & _). rewrite <-Hdn' in Hno'.
    destruct (holds_utf8 _ _ _ _ _ _ Hok Hh) as [Hu He].
    assert (starts_with (entry_prefix d) (entry_key (entry_prefix d') e id') = true) as Hs.
    { unfold entry_doc_id in Hid. destruct (strip_prefix _ _) as [rest|] eqn:Hp; [|done].
      apply strip_prefix_Some in Hp as ->. apply starts_with_app. }
    destruct Hh as (r & v & Hl & Hv & Hev).
    apply (prefix_of_entry d d' id' r) in Hs as [Hc Hnn]; [|done..|by apply entry_keys_elem; eauto].
    assert (d' = d) as -> by (rewrite Hdn, Hdn' in Hnn; subst n'; congruence).
    unfold entry_prefix in Hid. rewrite (proj2 (parse_encoded _ _ e id' Hco Hno He Hu)) in Hid. injection Hid as ->.
    exists e. split; [by exists r, v|done].
  - intros (e & Hh & ->). destruct (holds_utf8 _ _ _ _ _ _ Hok Hh) as [Hu He]. split; [by exists n, d, id, e|].
    by apply parse_encoded.
Qed.

(** An encoded value of the class of a range, between its bounds. *)
Definition in_class (r : ClassRange) (e : bytes) : Prop :=
  let '(tag, lo, hi) := r in
  head e = Some tag ∧ (∀ l, lo = Some l → l <=b e) ∧ (∀ h, hi = Some h → e <=b h).

(** A range whose bounds are encodings of its class. *)
Definition range_wf (r : ClassRange) : Prop :=
  let '(tag, lo, hi) := r in
  (∀ l, lo = Some l → encoding l ∧ head l = Some tag) ∧ (∀ h, hi = Some h → encoding h ∧ head h = Some tag) ∧
  (lo ≠ None ∨ hi ≠ None).

Lemma range_tag r : range_wf r → bz r.1.1 < 255.
Proof.
  destruct r as [[tag lo] hi]. intros (Hl & Hh & Hne). cbn.
  assert (∃ b, encoding b ∧ head b = Some tag) as (b & Hb & Ht).
  { destruct lo as [l|]; [exists l; by apply Hl|]. destruct hi as [h|]; [exists h; by apply Hh|]. by destruct Hne. }
  apply head_encoding in Hb as (t & x & -> & Hlt). by injection Ht as ->.
Qed.

(** The key range of a class. *)
Lemma class_keys (p e id : bytes) (r : ClassRange) :
  range_wf r → encoding e → utf8_valid id = true →
  let '(tag, lo, hi) := r in
  (p ++ default [tag] lo <=b entry_key p e id ∧
   match hi with
   | Some h => entry_key p e id <=b (p ++ h) ++ [xff]
   | None => entry_key p e id <b p ++ [zb (bz tag + 1)]
   end) ↔ in_class r e.
Proof.
  intros Hwf He Hid. pose proof (range_tag r Hwf) as Htag. destruct r as [[tag lo] hi]. cbn in Htag.
  destruct Hwf as (Hl & Hh & Hne). destruct (head_encoding e He) as (t & x & Het & _).
  unfold entry_key, in_class.
  assert (∀ a b, p ++ a <=b p ++ b ↔ a <=b b) as Hle by (intros; unfold bytes_le; by rewrite bytes_cmp_app).
  assert (∀ a b, p ++ a <b p ++ b ↔ a <b b) as Hlt by (intros; unfold bytes_lt; by rewrite bytes_cmp_app).
  assert (p ++ default [tag] lo <=b p ++ e ++ id ↔ bz tag ≤ bz t ∧ ∀ l, lo = Some l → l <=b e) as ->.
  { rewrite Hle. destruct lo as [l|]; cbn [default].
    - destruct (Hl l eq_refl) as [Hle' Hlt']. rewrite encoding_lower by done. split; [|naive_solver]. intros Hc.
      destruct (head_encoding l Hle') as (t' & y & -> & _). injection Hlt' as ->. split; [by eapply (head_le (tag :: y) e)|naive_solver].
    - rewrite Het. cbn [app]. rewrite class_lower. naive_solver. }
  assert (match hi with Some h => p ++ e ++ id <=b (p ++ h) ++ [xff] | None => p ++ e ++ id <b p ++ [zb (bz tag + 1)] end ↔
    bz t ≤ bz tag ∧ ∀ h, hi = Some h → e <=b h) as Hup.
  { destruct hi as [h|].
    - rewrite <-app_assoc, Hle. destruct (Hh h eq_refl) as [Hhe Hht]. rewrite encoding_upper by done. split; [|naive_solver]. intros Hc.
      destruct (head_encoding h Hhe) as (t' & y & -> & _). injection Hht as ->. split; [by eapply (head_le e (tag :: y))|naive_solver].
    - rewrite Hlt, Het. cbn [app]. rewrite class_upper by done. naive_solver. }
  rewrite Hup, Het. cbn [head]. split.
  - intros [[H1 Hlo] [H2 Hhi]]. split_and!; [f_equal; apply (inj bz); lia|exact Hlo|exact Hhi].
  - intros (Ht & Hlo & Hhi). injection Ht as ->. split_and!; [lia|exact Hlo|lia|exact Hhi].
Qed.

Lemma ids_between s (R : Rows) (eng : bytes → IndexEngine) (n : bytes) d (id : bytes) (P Q : bytes → Prop) `{∀ k, Decision (P k)} :
  indexes_ok s R eng → is_defs s !! n = Some d →
  (∀ e, encoding e → utf8_valid id = true → P (entry_key (entry_prefix d) e id) ↔ Q e) →
  id ∈ omap (λ k, entry_doc_id k (entry_prefix d)) (filter P (sorted_elems (is_entries s))) ↔ ∃ e, holds s R d id e ∧ Q e.
Proof.
  intros Hok Hn HP. rewrite list_elem_of_omap. setoid_rewrite list_elem_of_filter. setoid_rewrite sorted_elems_elem. split.
  - intros (k & [Hk Hin] & Hid). destruct (proj1 (index_entries s R eng n d k id Hok Hn) (conj Hin Hid)) as (e & Hh & ->).
    destruct (holds_utf8 _ _ _ _ _ _ Hok Hh) as [Hu He]. exists e. split; [done|]. by apply HP.
  - intros (e & Hh & He). destruct (holds_utf8 _ _ _ _ _ _ Hok Hh) as [Hu Henc].
    destruct (proj2 (index_entries s R eng n d (entry_key (entry_prefix d) e id) id Hok Hn)) as [Hin Hid]; [eauto|].
    exists (entry_key (entry_prefix d) e id). split; [split; [by apply HP|done]|done].
Qed.

Lemma range_ids_spec s (R : Rows) (eng : bytes → IndexEngine) (n : bytes) d (id : bytes) (r : ClassRange) :
  indexes_ok s R eng → is_defs s !! n = Some d → range_wf r →
  id ∈ range_ids s (entry_prefix d) r ↔ ∃ e, holds s R d id e ∧ in_class r e.
Proof.
  intros Hok Hn Hwf.
  assert (∀ e, encoding e → utf8_valid id = true → let '(tag, lo, hi) := r in
    (entry_prefix d ++ default [tag] lo <=b entry_key (entry_prefix d) e id ∧
     match hi with
     | Some h => entry_key (entry_prefix d) e id <=b (entry_prefix d ++ h) ++ [xff]
     | None => entry_key (entry_prefix d) e id <b entry_prefix d ++ [zb (bz tag + 1)]
     end) ↔ in_class r e) as Hkeys by (intros e He Hu; by apply (class_keys (entry_prefix d) e id r)).
  destruct r as [[tag lo] hi]. unfold range_ids. destruct hi as [h|].
  - destruct (bytes_ltb _ _) eqn:Hx; [|by apply (ids_between s R eng n)]. split; [set_solver|]. intros (e & Hh & He). exfalso.
    destruct (holds_utf8 _ _ _ _ _ _ Hok Hh) as [Hu Henc]. apply (Hkeys e Henc Hu) in He as [H1 H2]. apply bytes_ltb_lt in Hx.
    eapply bytes_lt_irrefl, bytes_lt_le_trans; [|exact H2]. by eapply bytes_lt_le_trans.
  - destruct (bytes_leb _ _) eqn:Hx; [|by apply (ids_between s R eng n)]. split; [set_solver|]. intros (e & Hh & He). exfalso.
    destruct (holds_utf8 _ _ _ _ _ _ Hok Hh) as [Hu Henc]. apply (Hkeys e Henc Hu) in He as [H1 H2]. apply bytes_leb_le in Hx.
    eapply bytes_lt_irrefl, bytes_lt_le_trans; [|exact Hx]. by eapply bytes_le_lt_trans.
Qed.

(** ** The classes of the bounds *)

(** Keys of one value: encodings of different classes. *)
Definition keys_wf (ks : list bytes) : Prop :=
  (∀ k, k ∈ ks → encoding k) ∧ ∀ k k', k ∈ ks → k' ∈ ks → head k = head k' → k = k'.

Lemma coercible_wf (v : Value O) : keys_wf (encode_coercible v).
Proof.
  split; [intros k; apply encode_coercible_encoding|].
  assert (∀ k k' (o : option bytes), k ∈ match o with Some e => [e] | None => [] end →
    k' ∈ match o with Some e => [e] | None => [] end → k = k') as Hone.
  { intros k k' [e|]; [|set_solver]. by intros ->%list_elem_of_singleton ->%list_elem_of_singleton. }
  destruct v; try (intros k k' Hk Hk' _; by eapply Hone).
  intros k k'. cbn [encode_coercible]. rewrite !elem_of_app, !list_elem_of_singleton.
  destruct (parse_f64 _) as [f|], (parse_datetime _) as [t|]; rewrite ?list_elem_of_singleton, ?elem_of_nil; intros; destruct_or?; subst; done.
Qed.

(** An encoded value within the bounds, each read in its class. *)
Definition between (lower_keys upper_keys : option (list bytes)) (e : bytes) : Prop :=
  (∀ lo, lower_keys = Some lo → ∃ l, l ∈ lo ∧ head l = head e ∧ l <=b e) ∧
  (∀ hi, upper_keys = Some hi → ∃ h, h ∈ hi ∧ head h = head e ∧ e <=b h).

Lemma class_ranges_spec (lower_keys upper_keys : option (list bytes)) (ranges : list ClassRange) :
  (∀ ks, lower_keys = Some ks → keys_wf ks) → (∀ ks, upper_keys = Some ks → keys_wf ks) →
  class_ranges lower_keys upper_keys = Some ranges →
  (∀ r, r ∈ ranges → range_wf r) ∧
  ∀ e, encoding e → (∃ r, r ∈ ranges ∧ in_class r e) ↔ between lower_keys upper_keys e.
Proof.
  intros Hl Hu. unfold class_ranges, between.
  destruct lower_keys as [lo|], upper_keys as [hi|]; [| | |done]; intros [= <-]; setoid_rewrite list_elem_of_omap.
  - destruct (Hl lo eq_refl) as [Hle Hld], (Hu hi eq_refl) as [Hue Hud].
    assert (∀ l r, l ∈ lo → (let* h := head (filter (λ h, head h = head l) hi) in let* tag := head l in Some (tag, Some l, Some h)) = Some r ↔
      ∃ h tag, h ∈ hi ∧ head h = head l ∧ head l = Some tag ∧ r = (tag, Some l, Some h)) as Hr.
    { intros l r Hin. destruct (head_encoding l (Hle l Hin)) as (t & x & -> & _). cbn [head].
      destruct (filter _ hi) as [|h hs] eqn:Hf; cbn [head mbind option_bind].
      - split; [done|]. intros (h & tag & Hh & Hhd & _). assert (h ∈ filter (λ h, head h = Some t) hi) as Hc by (by apply list_elem_of_filter).
        rewrite Hf in Hc. by apply elem_of_nil in Hc.
      - assert (h ∈ filter (λ h, head h = Some t) hi) as Hc by (rewrite Hf; by left). apply list_elem_of_filter in Hc as [Hhd Hh].
        split; [intros [= <-]; by exists h, t|]. intros (h' & tag & Hh' & Hhd' & [= <-] & ->). do 3 f_equal. apply Hud; [done..|congruence]. }
    split.
    + intros r (l & Hin & He). apply Hr in He as (h & tag & Hh & Hhd & Ht & ->); [|done].
      split_and!; [intros ? [= <-]; auto|intros ? [= <-]; split; [auto|congruence]|by left].
    + intros e He. split.
      * intros (r & (l & Hin & Hrr) & Hc). apply Hr in Hrr as (h & tag & Hh & Hhd & Ht & ->); [|done]. destruct Hc as (Het & H1 & H2).
        split; [intros ? [= <-]; exists l|intros ? [= <-]; exists h]; split_and!; try done; [congruence|by apply H1|congruence|by apply H2].
      * intros [H1 H2]. destruct (H1 lo eq_refl) as (l & Hin & Hlh & Hll), (H2 hi eq_refl) as (h & Hh & Hhh & Hhl).
        destruct (head_encoding e He) as (t & x & Het & _). exists (t, Some l, Some h). split.
        -- exists l. split; [done|]. apply Hr; [done|]. exists h, t. split_and!; try done; [congruence|by rewrite Hlh, Het].
        -- split_and!; [by rewrite Het|by intros ? [= <-]|by intros ? [= <-]].
  - destruct (Hl lo eq_refl) as [Hle _]. split.
    + intros r (l & Hin & He). destruct (head_encoding l (Hle l Hin)) as (t & x & -> & _). injection He as <-.
      split_and!; [intros ? [= <-]; auto|done|by left].
    + intros e He. split.
      * intros (r & (l & Hin & Hrr) & Hc). destruct (head l) as [t|] eqn:Hlh; [|done]. injection Hrr as <-. destruct Hc as (Het & H1 & _).
        split; [|done]. intros ? [= <-]. exists l. split_and!; [done|congruence|by apply H1].
      * intros [H1 _]. destruct (H1 lo eq_refl) as (l & Hin & Hlh & Hll). destruct (head_encoding e He) as (t & x & -> & _). cbn [head] in Hlh.
        exists (t, Some l, None). split; [exists l; by rewrite Hlh|]. split_and!; [done|by intros ? [= <-]|done].
  - destruct (Hu hi eq_refl) as [Hue _]. split.
    + intros r (h & Hin & He). destruct (head_encoding h (Hue h Hin)) as (t & x & -> & _). injection He as <-.
      split_and!; [done|intros ? [= <-]; auto|by right].
    + intros e He. split.
      * intros (r & (h & Hin & Hrr) & Hc). destruct (head h) as [t|] eqn:Hhh; [|done]. injection Hrr as <-. destruct Hc as (Het & _ & H2).
        split; [done|]. intros ? [= <-]. exists h. split_and!; [done|congruence|by apply H2].
      * intros [_ H2]. destruct (H2 hi eq_refl) as (h & Hin & Hhh & Hhl). destruct (head_encoding e He) as (t & x & -> & _). cbn [head] in Hhh.
        exists (t, None, Some h). split; [exists h; by rewrite Hhh|]. split_and!; [done|done|by intros ? [= <-]].
Qed.

Definition bound_keys d (bound : option (Value O)) : option (list bytes) :=
  (λ v, encode_coercible (fold_case d v)) <$> bound.

Lemma lookup_range_spec s (R : Rows) (eng : bytes → IndexEngine) (n : bytes) d (lower upper : option (Value O)) :
  indexes_ok s R eng → is_defs s !! n = Some d →
  match lookup_range s d lower upper with
  | Some ids => NoDup ids ∧ ∀ id, id ∈ ids ↔ ∃ e, holds s R d id e ∧ between (bound_keys d lower) (bound_keys d upper) e
  | None => (lower = None ∧ upper = None) ∨ ∀ e, encoding e → ¬ between (bound_keys d lower) (bound_keys d upper) e
  end.
Proof.
  intros Hok Hn. unfold lookup_range. fold (bound_keys d lower). fold (bound_keys d upper).
  assert (∀ b ks, bound_keys d b = Some ks → keys_wf ks) as Hwf.
  { intros [b|] ks; [|done]. intros [= <-]. apply coercible_wf. }
  destruct (class_ranges (bound_keys d lower) (bound_keys d upper)) as [ranges|] eqn:Hr; cbn [mbind option_bind].
  2:{ left. unfold class_ranges, bound_keys in Hr. by destruct lower, upper. }
  destruct (class_ranges_spec _ _ _ (Hwf lower) (Hwf upper) Hr) as [Hrw Hb].
  destruct (bool_decide_reflect (ranges = [])) as [->|_].
  { right. intros e He (r & Hin & _)%Hb; [|done]. by apply elem_of_nil in Hin. }
  unfold dedup. destruct (dedup_spec ∅ (ranges ≫= range_ids s (entry_prefix d))) as [Hnd Hin]. split; [done|].
  intros id. rewrite Hin, list_elem_of_bind. split.
  - intros ((r & Hid & Hr') & _). apply (range_ids_spec s R eng n d) in Hid as (e & Hh & Hc); [|by auto..].
    exists e. split; [done|]. apply Hb; [by eapply holds_utf8|eauto].
  - intros (e & Hh & Hbt). split; [|set_solver]. apply Hb in Hbt as (r & Hr' & Hc); [|by eapply holds_utf8].
    exists r. split; [|done]. apply (range_ids_spec s R eng n d); eauto.
Qed.

(** ** Values between bounds *)

(** A value of the class of each bound, on its side of it. *)
Definition within d (lower upper : option (Value O)) (k : IndexClass) : Prop :=
  (∀ b, lower = Some b → ∃ kb c, index_class (fold_case d b) = Some kb ∧ class_ok kb ∧ class_rank kb = class_rank k ∧
     class_cmp kb k = Some c ∧ c ≠ Gt) ∧
  (∀ b, upper = Some b → ∃ kb c, index_class (fold_case d b) = Some kb ∧ class_ok kb ∧ class_rank kb = class_rank k ∧
     class_cmp k kb = Some c ∧ c ≠ Gt).

Lemma class_head k k' : class_rank k = class_rank k' → head (encode_class (VC:=VC) k) = head (encode_class (VC:=VC) k').
Proof. by destruct k, k'. Qed.

Lemma class_coercible (v : Value O) k : index_class v = Some k → encode_class k ∈ encode_coercible v.
Proof.
  intros Hk. pose proof (encode_typed_class v k Hk) as He. destruct v; cbn [encode_coercible]; rewrite ?He; try by left.
  cbn in Hk. injection Hk as <-. by left.
Qed.

Lemma within_between d (lower upper : option (Value O)) k :
  class_ok k → within d lower upper k → between (bound_keys d lower) (bound_keys d upper) (encode_class k).
Proof.
  intros Hk [Hl Hu]. split.
  - destruct lower as [b|]; [|done]. intros ? [= <-]. destruct (Hl b eq_refl) as (kb & c & Hb & Hok & Hr & Hc & Hne).
    exists (encode_class kb). split_and!; [by apply class_coercible|by apply class_head|].
    rewrite class_cmp_encode in Hc by done. injection Hc as <-. exact Hne.
  - destruct upper as [b|]; [|done]. intros ? [= <-]. destruct (Hu b eq_refl) as (kb & c & Hb & Hok & Hr & Hc & Hne).
    exists (encode_class kb). split_and!; [by apply class_coercible|by apply class_head|].
    rewrite class_cmp_encode in Hc by done. injection Hc as <-. exact Hne.
Qed.

(** C9: ranges of an index.  After any session of writes and index changes in which no
    write that brings back a deleted document is refused, a range lookup with a bound
    returns each live document once that holds a value with a key of a class
    both bounds have and between their keys; among them is every document that holds a
    boolean, number, time or text within the bounds.  It returns nothing to scan instead
    only without bounds or when no key lies between them. *)
Theorem index_range_session (eng : bytes → IndexEngine) (w : World (O:=O) (E:=E)) (acts : list (IndexAct (O:=O) (E:=E))) :
  world_ok eng w → Forall (act_ok eng) acts → Forall revived_ok (run_acts w acts).1 →
  let '(R, s) := (run_acts w acts).2 in
  ∀ (n : bytes) d (lower upper : option (Value O)), is_defs s !! n = Some d →
    match lookup_range s d lower upper with
    | Some ids => NoDup ids ∧
        (∀ id, id ∈ ids ↔ ∃ r v e, live s R (ix_collection d) id = Some r ∧ v ∈ index_values d r ∧
           e ∈ encode_coercible v ∧ between (bound_keys d lower) (bound_keys d upper) e) ∧
        (∀ id r v k, live s R (ix_collection d) id = Some r → v ∈ index_values d r → index_class v = Some k →
           class_ok k → within d lower upper k → id ∈ ids)
    | None => (lower = None ∧ upper = None) ∨
        ∀ e, encoding e → ¬ between (bound_keys d lower) (bound_keys d upper) e
    end.
Proof.
  intros Hw Ha Hrev. pose proof (run_acts_ok eng w acts Hw Ha Hrev) as [Hok _].
  destruct (run_acts w acts).2 as [R s]. cbn [fst snd] in Hok. intros n d lower upper Hn.
  pose proof (lookup_range_spec s R eng n d lower upper Hok Hn) as Hspec.
  destruct (lookup_range s d lower upper) as [ids|]; [|done]. destruct Hspec as [Hnd Hin]. split_and!; [done|..].
  - intros id. rewrite Hin. unfold holds. naive_solver.
  - intros id r v k Hl Hv Hk Hok' Hwi. apply Hin. exists (encode_class k). split; [|by apply within_between].
    exists r, v. split_and!; [done..|by apply class_coercible].
Qed.
End range.
