(* ===== verification/IndexRows.v ===== *)
(** * Row writes of engines that store every write

    Strict and key-value rows commit with their index entries in one batch
    ([src/nodedb-lite/src/index/durable.rs]): memory, store and rows stay in line, or the
    write is refused and memory keeps what it held. *)

From Stdlib Require Import ZArith Lia Strings.Byte.
From stdpp Require Import prelude gmap strings sorting.
From S2P Require Import Prelude Bytes Ordered Text StorageTrait IndexKey SortedKeys.
From S2P Require Import IndexDefs IndexStore IndexDurable IndexSpec IndexUnique IndexSession IndexFlush.

Local Open Scope Z_scope.

Section rows.
Context {O E : Type} `{VC : ValueCodec O} `{IO : IndexOps O E} `{!CoercedLaws O E}.
Implicit Types (s t : IndexState E) (d : IndexDef E) (m : Store) (i : RowImage (O:=O)).

Notation Rows := (gmap (bytes * bytes) (Value O)).
Notation Images := (list (RowImage (O:=O))).

(** ** Rows after a write *)

Definition write_image (R : Rows) i : Rows :=
  match ri_row i with
  | Some r => <[(ri_collection i, ri_doc_id i) := r]> R
  | None => delete (ri_collection i, ri_doc_id i) R
  end.
Definition write_images (R : Rows) (images : Images) : Rows := foldl write_image R images.

(** The images of a collection. *)
Definition images_of (c : bytes) (images : Images) : list (bytes * option (Value O)) :=
  (λ i, (ri_doc_id i, ri_row i)) <$> filter (λ i, ri_collection i = c) images.

Lemma images_of_snoc (c : bytes) (images : Images) i :
  images_of c (images ++ [i]) =
    if decide (ri_collection i = c) then images_of c images ++ [(ri_doc_id i, ri_row i)] else images_of c images.
Proof.
  unfold images_of. rewrite filter_app, filter_cons, filter_nil, fmap_app. case_decide; [done|by rewrite app_nil_r].
Qed.

Lemma write_images_rows (R : Rows) (images : Images) (c id : bytes) :
  write_images R images !! (c, id) = write_rows R c (images_of c images) !! (c, id).
Proof.
  induction images as [|i images IH] using rev_ind; [done|]. unfold write_images. rewrite foldl_app.
  fold (write_images R images). cbn [foldl]. unfold write_image. rewrite images_of_snoc.
  destruct (decide (ri_collection i = c)) as [<-|Hc].
  - unfold write_rows. rewrite foldl_app. fold (write_rows R (ri_collection i) (images_of (ri_collection i) images)).
    cbn [foldl fst snd]. destruct (ri_row i) as [r|]; rewrite ?lookup_insert, ?lookup_delete; case_decide; done.
  - destruct (ri_row i) as [r|]; [rewrite lookup_insert_ne by congruence|rewrite lookup_delete_ne by congruence]; done.
Qed.

(** The groups of a write are the images of each collection. *)
Lemma add_image_elem (G : list (bytes * list (bytes * option (Value O)))) i (c : bytes) rows :
  NoDup G.*1 → (c, rows) ∈ add_image G i →
  (c = ri_collection i ∧ ∃ old, rows = old ++ [(ri_doc_id i, ri_row i)] ∧ ((c, old) ∈ G ∨ old = [] ∧ c ∉ G.*1)) ∨
  (c ≠ ri_collection i ∧ (c, rows) ∈ G).
Proof.
  induction G as [|[c0 rows0] G IH]; cbn [add_image fmap list_fmap fst]; intros Hnd.
  - intros [= -> ->]%list_elem_of_singleton. left. split; [done|]. exists []. split; [done|]. right. split; [done|set_solver].
  - apply NoDup_cons in Hnd as [Hn Hnd]. destruct (bool_decide_reflect (c0 = ri_collection i)) as [->|Hc].
    + intros [[= -> ->]|Hin]%elem_of_cons; [left; split; [done|]; exists rows0; split; [done|left; by left]|].
      right. split; [|by right]. intros ->. apply (list_elem_of_fmap_2 fst) in Hin. by apply Hn.
    + rewrite elem_of_cons. intros [[= -> ->]|Hin]; [by right; split; [|left]|].
      destruct (IH Hnd Hin) as [(-> & old & -> & [Ho|[-> Hno]])|[Hne Ho]]; [left..|right; split; [done|by right]].
      * split; [done|]. exists old. split; [done|]. left. by right.
      * split; [done|]. exists []. split; [done|]. right. split; [done|]. intros [?|?]%elem_of_cons; [congruence|done].
Qed.

Lemma add_image_keys (G : list (bytes * list (bytes * option (Value O)))) i :
  NoDup G.*1 → NoDup (add_image G i).*1 ∧ ∀ c, c ∈ (add_image G i).*1 ↔ c = ri_collection i ∨ c ∈ G.*1.
Proof.
  induction G as [|[c0 rows0] G IH]; cbn [add_image fmap list_fmap fst]; intros Hnd.
  - split; [apply NoDup_singleton|set_solver].
  - apply NoDup_cons in Hnd as [Hn Hnd]. destruct (IH Hnd) as [Hnd' Hin].
    destruct (bool_decide_reflect (c0 = ri_collection i)) as [->|Hc]; cbn [fmap list_fmap fst].
    + split; [by apply NoDup_cons|set_solver].
    + split; [apply NoDup_cons; split; [|done]; rewrite Hin; naive_solver|].
      intros c. rewrite !elem_of_cons, Hin. naive_solver.
Qed.

Lemma groups_spec (images : Images) :
  let G := foldl add_image [] images in
  NoDup G.*1 ∧ (∀ c, c ∈ G.*1 ↔ c ∈ ri_collection <$> images) ∧
  ∀ c rows, (c, rows) ∈ G → rows = images_of c images.
Proof.
  cbn zeta. induction images as [|i images IH] using rev_ind; [split_and!; [constructor|done|set_solver]|].
  rewrite foldl_app. cbn [foldl]. destruct IH as (Hnd & Hk & Hrows). destruct (add_image_keys _ i Hnd) as [Hnd' Hk'].
  split_and!; [done|intros c; rewrite Hk', Hk, fmap_app, elem_of_app; cbn [fmap list_fmap]; rewrite list_elem_of_singleton; tauto|].
  intros c rows. intros Hin. rewrite images_of_snoc.
  destruct (add_image_elem _ i c rows Hnd Hin) as [(-> & old & -> & [Ho|[-> Hno]])|[Hne Ho]]; [rewrite decide_True by done..|rewrite decide_False by done; by apply Hrows].
  - by rewrite (Hrows _ _ Ho).
  - f_equal. unfold images_of. destruct (filter _ images) as [|j l] eqn:Hf; [done|].
    assert (j ∈ filter (λ j, ri_collection j = ri_collection i) images) as Hj by (rewrite Hf; by left).
    apply list_elem_of_filter in Hj as [Hc Hj]. destruct Hno. apply Hk. rewrite <-Hc. by apply list_elem_of_fmap_2.
Qed.

(** ** Entry changes *)

Lemma apply_sink s (c id : bytes) (ops : list IndexWriteOp) :
  is_sink s ≠ None → is_dirty (apply s c id ops) = is_dirty s ∧ is_sink (apply s c id ops) ≠ None.
Proof.
  revert s. induction ops as [|op ops IH]; intros s Hs; [done|].
  change (apply s c id (op :: ops)) with (apply (apply_one (c, id) s op) c id ops).
  assert (is_dirty (apply_one (c, id) s op) = is_dirty s ∧ is_sink (apply_one (c, id) s op) ≠ None) as [Hd Hk].
  { destruct (is_sink s) as [l|] eqn:Hl; [|done]. destruct op; unfold apply_one, mark; cbn; by rewrite Hl. }
  destruct (IH _ Hk) as [Hd' Hk']. by rewrite Hd', Hd.
Qed.

Definition applied s (changes : list RowEntryOps) : IndexState E := (apply_changes s changes).2.

Lemma applied_snoc s (changes : list RowEntryOps) c :
  applied s (changes ++ [c]) = apply (applied s changes) c.1.1 c.1.2 c.2.
Proof. unfold applied, apply_changes. cbn [snd]. by rewrite foldl_app. Qed.

Lemma applied_entries s (changes : list RowEntryOps) :
  is_entries (applied s changes) = now_keys (is_entries s) (changes ≫= snd).
Proof.
  induction changes as [|c changes IH] using rev_ind; [done|]. rewrite applied_snoc, bind_app.
  destruct (apply_spec (applied s changes) c.1.1 c.1.2 c.2) as (-> & _). rewrite IH, now_keys_app. cbn. by rewrite app_nil_r.
Qed.

Lemma applied_sink s (changes : list RowEntryOps) :
  is_sink s ≠ None → is_dirty (applied s changes) = is_dirty s ∧ is_sink (applied s changes) ≠ None.
Proof.
  intros Hs. induction changes as [|c changes [Hd Hk]] using rev_ind; [done|]. rewrite applied_snoc.
  destruct (apply_sink (applied s changes) c.1.1 c.1.2 c.2 Hk) as [-> ?]. done.
Qed.

(** The store follows memory when it takes the same entry changes. *)
Lemma entries_stored m (X : gset bytes) (es : list IndexWriteOp) k :
  m Meta !! k = (if bool_decide (k ∈ X) then Some [] else None) →
  st_ops m (entry_op <$> es) Meta !! k = if bool_decide (k ∈ now_keys X es) then Some [] else None.
Proof.
  revert m X. induction es as [|op es IH]; intros m X Hk; [done|]. cbn [fmap list_fmap].
  change (st_ops m (entry_op op :: (entry_op <$> es))) with (st_ops (st_op m (entry_op op)) (entry_op <$> es)).
  destruct op as [k'|k']; cbn [entry_op st_op now_keys foldl].
  - apply (IH _ ({[k']} ∪ X)). rewrite st_put_eq, lookup_insert. destruct (decide (k' = k)) as [->|Hne].
    + by rewrite bool_decide_true by set_solver.
    + rewrite Hk. erewrite bool_decide_ext; [done|set_solver].
  - apply (IH _ (X ∖ {[k']})). rewrite st_delete_eq, lookup_delete. destruct (decide (k' = k)) as [->|Hne].
    + by rewrite bool_decide_false by set_solver.
    + rewrite Hk. erewrite bool_decide_ext; [done|set_solver].
Qed.

Definition entry_changes (changes : list RowEntryOps) : Prop :=
  ∀ k, IPut k ∈ (changes ≫= snd) ∨ IDelete k ∈ (changes ≫= snd) → starts_with entries_prefix k = true.

(** Images of rows of one engine. *)
Definition images_ok s (eng : bytes → IndexEngine) (e : IndexEngine) (images : Images) : Prop :=
  ∀ i, i ∈ images → eng (ri_collection i) = e ∧ utf8_valid (ri_doc_id i) = true ∧
    (ri_collection i, ri_doc_id i) ∉ is_tombstoned s.

(** One image: the entries follow the row. *)
Lemma image_applied t (eng : bytes → IndexEngine) (R : Rows) (ds : list (IndexDef E)) i :
  indexes_ok t R eng → (∀ d, d ∈ ds ↔ d ∈ defs_of t (ri_collection i)) → utf8_valid (ri_doc_id i) = true →
  (ri_collection i, ri_doc_id i) ∉ is_tombstoned t →
  let c := ri_collection i in let id := ri_doc_id i in
  let t' := apply t c id (plan_index_ops ds id (posted t c id) (ri_row i)) in
  indexes_ok t' (write_image R i) eng ∧ is_defs t' = is_defs t ∧ is_tombstoned t' = is_tombstoned t.
Proof.
  intros [Hco Hd Hu Hp] Hds Hid Ht. cbn zeta.
  destruct (plan_row_spec t eng ds (ri_collection i) (ri_doc_id i) (ri_row i) Hco Hd Hds (λ _, Hid)) as (Hco' & Hmine & Hother & Hd' & _ & Ht').
  set (t' := apply _ _ _ _) in *. split; [|done]. split; [done|by unfold defs_ok; rewrite Hd'| |].
  - intros c id r. unfold write_image. destruct (ri_row i); [rewrite lookup_insert|rewrite lookup_delete]; case_decide; simplify_eq; eauto.
  - intros c id. unfold want, live, defs_of, def_values. rewrite Hd', Ht'. fold (def_values t). fold (defs_of t c).
    destruct (decide ((c, id) = (ri_collection i, ri_doc_id i))) as [[= -> ->]|Hne].
    + rewrite Hmine, bool_decide_false by done. f_equal. unfold write_image.
      destruct (ri_row i); [by rewrite lookup_insert_eq|by rewrite lookup_delete_eq].
    + rewrite Hother, Hp by done. unfold want, live. f_equal. case_bool_decide; [done|]. unfold write_image.
      destruct (ri_row i); [by rewrite lookup_insert_ne by congruence|by rewrite lookup_delete_ne by congruence].
Qed.

Lemma no_defs_image t (eng : bytes → IndexEngine) (R : Rows) i :
  indexes_ok t R eng → defs_of t (ri_collection i) = [] → utf8_valid (ri_doc_id i) = true → indexes_ok t (write_image R i) eng.
Proof.
  intros [Hco Hd Hu Hp] Hnil Hid. split; [done|done| |].
  - intros c id r. unfold write_image. destruct (ri_row i); [rewrite lookup_insert|rewrite lookup_delete]; case_decide; simplify_eq; eauto.
  - intros c id. rewrite Hp. unfold want. destruct (decide (c = ri_collection i)) as [->|Hne].
    + rewrite Hnil. unfold new_keys. by repeat case_match.
    + f_equal. unfold live, write_image. case_bool_decide; [done|].
      destruct (ri_row i); [by rewrite lookup_insert_ne by congruence|by rewrite lookup_delete_ne by congruence].
Qed.

(** The plan of a write, applied: each image starts from the entries the one before left. *)
Lemma plan_images_ok s (eng : bytes → IndexEngine) (e : IndexEngine) (images : Images) (R : Rows) held changes t0 :
  indexes_ok (applied t0 changes) R eng → is_defs (applied t0 changes) = is_defs s →
  is_tombstoned (applied t0 changes) = is_tombstoned s →
  (∀ c id, posted (applied t0 changes) c id = match held !! (c, id) with Some X => X | None => posted s c id end) →
  entry_changes changes → images_ok s eng e images →
  let changes' := (foldl (plan_image s e) (held, changes) images).2 in
  indexes_ok (applied t0 changes') (write_images R images) eng ∧ is_defs (applied t0 changes') = is_defs s ∧
  is_tombstoned (applied t0 changes') = is_tombstoned s ∧ entry_changes changes'.
Proof.
  cbn zeta. revert R held changes. induction images as [|i images IH]; intros R held changes Hok Hd Ht Hheld Hch Him; [done|].
  cbn [foldl]. change (write_images R (i :: images)) with (write_images (write_image R i) images).
  destruct (Him i) as (He & Hid & Hnt); [by left|]. assert (images_ok s eng e images) as Him' by (intros j Hj; apply Him; by right).
  assert (∀ d, d ∈ defs_on s (ri_collection i) e ↔ d ∈ defs_of (applied t0 changes) (ri_collection i)) as Hds.
  { intros d. rewrite <-He, defs_on_of by (unfold defs_ok; rewrite <-Hd; apply Hok). by rewrite !defs_of_elem, Hd. }
  unfold plan_image at 2 4 6 8. destruct (bool_decide_reflect (defs_on s (ri_collection i) e = [])) as [Hnil|Hne]; cbn [fst snd].
  - apply IH; try done. apply no_defs_image; [done| |done].
    destruct (defs_of _ _) as [|d l] eqn:Hl; [done|]. exfalso. assert (d ∈ defs_on s (ri_collection i) e) as Hin by (apply Hds; rewrite ?Hl; by left).
    rewrite Hnil in Hin. by apply elem_of_nil in Hin.
  - set (old := match held !! (ri_collection i, ri_doc_id i) with Some keys => keys | None => default ∅ (is_postings s !! (ri_collection i, ri_doc_id i)) end).
    assert (old = posted (applied t0 changes) (ri_collection i) (ri_doc_id i)) as Hold by (by rewrite Hheld).
    set (planned := plan_index_ops _ _ old (ri_row i)).
    destruct (image_applied (applied t0 changes) eng R (defs_on s (ri_collection i) e) i) as (Hok' & Hd' & Ht'); [done|done|done|by rewrite Ht|].
    cbn zeta in *. rewrite <-Hold in Hok', Hd', Ht'. fold planned in Hok', Hd', Ht'.
    assert (applied t0 (changes ++ [(ri_collection i, ri_doc_id i, planned)]) = apply (applied t0 changes) (ri_collection i) (ri_doc_id i) planned) as Happ
      by apply applied_snoc.
    apply IH; rewrite ?Happ; try done; [by rewrite Hd'|by rewrite Ht'| |].
    + intros c id. destruct (apply_spec (applied t0 changes) (ri_collection i) (ri_doc_id i) planned) as (_ & -> & _).
      rewrite lookup_insert. destruct (decide ((c, id) = (ri_collection i, ri_doc_id i))) as [[= -> ->]|Hne'].
      * by rewrite decide_True, <-Hold by done.
      * rewrite decide_False by congruence. apply Hheld.
    + intros k. rewrite bind_app, !elem_of_app. cbn. rewrite app_nil_r. intros Hin.
      assert ((IPut k ∈ (changes ≫= snd) ∨ IDelete k ∈ (changes ≫= snd)) ∨ (IPut k ∈ planned ∨ IDelete k ∈ planned)) as [Hc|Hc] by tauto; [by apply Hch|].
      apply (plan_entries (applied t0 changes) eng (defs_on s (ri_collection i) e) (ri_collection i) (ri_doc_id i) k (ri_row i));
        [apply Hok|apply Hok|intros d; apply Hds|by rewrite <-Hold].
Qed.

(** ** Unique indexes *)

Lemma candidate_defs s (c : bytes) (e : IndexEngine) (rows : list (bytes * option (Value O))) cands :
  unique_candidates s c e rows = Ok cands → Forall (λ x, ix_collection (uc_def x) = c) cands.
Proof.
  apply (rfold_ind (Forall (λ x, ix_collection (uc_def x) = c))); [|constructor].
  intros cs d cs' (_ & Hd%defs_on_elem)%list_elem_of_filter Hcs. destruct Hd as (Hd & _).
  unfold claim_def. destruct (rfold _ _ rows) as [k|] eqn:Hk; [|done]. intros [= <-]. revert Hk.
  apply (rfold_ind (λ k : Claims, Forall (λ x, ix_collection (uc_def x) = c) k.2)); [|done].
  intros k1 r k2 _ Hk1. unfold claim_row. destruct (r.2) as [row|]; [|by intros [= <-]].
  intros (_ & -> & _)%claim_values. cbn [snd]. apply Forall_app. split; [done|]. apply Forall_forall.
  intros x (v & Hx & _)%list_elem_of_bind. unfold value_candidates in Hx.
  apply list_elem_of_bind in Hx as (other & Hx & _). by apply list_elem_of_fmap in Hx as (o & -> & _).
Qed.

(** A read that answers, answers the row. *)
Definition reads_rows (R : Rows) (read_row : bytes → bytes → res (option (Value O))) : Prop :=
  ∀ c id r, read_row c id = Ok r → r = R !! (c, id).

(** The candidates of every group, each confirmed. *)
Lemma plan_checked_groups s (e : IndexEngine) (images : Images) (R : Rows) read_row changes :
  reads_rows R read_row → plan_checked s e images read_row = Ok changes →
  changes = (foldl (plan_image s e) (∅, []) images).2 ∧
  ∀ c, c ∈ ri_collection <$> images → ∃ cands, unique_candidates s c e (images_of c images) = Ok cands ∧
    ∀ x, x ∈ cands → refuted (λ id, R !! (c, id)) x = false.
Proof.
  intros Hread. unfold plan_checked. destruct (groups_spec images) as (_ & Hkeys & Hrows). cbn zeta in *.
  set (G := foldl add_image [] images) in *.
  destruct (rfold _ [] G) as [cands|] eqn:Hc; [|done]. cbn [rbind].
  destruct (rfold (confirm_one read_row) tt cands) as [u|] eqn:Hconf; [|done]. intros [= <-]. split; [done|].
  assert (∀ x, x ∈ cands → refuted (λ id, R !! (ix_collection (uc_def x), id)) x = false) as Href.
  { clear Hc. induction cands as [|y cands IH]; [set_solver|]. cbn [rfold] in Hconf.
    unfold confirm_one at 1 in Hconf. destruct (read_row (ix_collection (uc_def y)) (uc_other y)) as [r|] eqn:Hr; [|done].
    cbn [rbind] in Hconf. apply Hread in Hr. intros x [->|Hx]%elem_of_cons.
    - unfold refuted. rewrite <-Hr. destruct r as [row|]; [|done]. by destruct (held_by y row).
    - apply IH; [|done]. destruct r as [row|]; [|done]. by destruct (held_by y row). }
  assert (∀ c rows, (c, rows) ∈ G → ∃ cs, unique_candidates s c e rows = Ok cs ∧ cs ⊆ cands) as Hall.
  { clear Href Hconf Hkeys Hrows. revert Hc. generalize (@nil (UniqueCandidate (O:=O) (E:=E))).
    assert (∀ acc, rfold (λ acc c, let? cs := unique_candidates s c.1 e c.2 in Ok (acc ++ cs)) acc G = Ok cands →
      acc ⊆ cands ∧ ∀ c rows, (c, rows) ∈ G → ∃ cs, unique_candidates s c e rows = Ok cs ∧ cs ⊆ cands) as Hgen; [|by intros acc [_ H]%Hgen].
    induction G as [|[c0 rows0] G IH]; intros acc; cbn [rfold fst snd]; [intros [= ->]; split; [done|set_solver]|].
    destruct (unique_candidates s c0 e rows0) as [cs|] eqn:H0; [|done]. cbn [rbind]. intros [Hsub Hrest]%IH.
    split; [set_solver|]. intros c rows [[= -> ->]|Hin]%elem_of_cons; [exists cs; split; [done|set_solver]|by apply Hrest]. }
  intros c Hin. apply Hkeys, list_elem_of_fmap in Hin as ([c' rows] & -> & Hin). cbn [fst].
  rewrite <-(Hrows c' rows Hin). destruct (Hall c' rows Hin) as (cs & Hcs & Hsub). exists cs. split; [done|].
  intros x Hx. pose proof (candidate_defs _ _ _ _ _ Hcs) as Hdefs. rewrite Forall_forall in Hdefs.
  rewrite <-(Hdefs x Hx). apply Href, Hsub, Hx.
Qed.

Lemma images_of_nil (c : bytes) (images : Images) : c ∉ ri_collection <$> images → images_of c images = [].
Proof.
  intros Hc. unfold images_of. destruct (filter _ images) as [|j l] eqn:Hf; [done|].
  assert (j ∈ filter (λ j, ri_collection j = c) images) as Hj by (rewrite Hf; by left).
  apply list_elem_of_filter in Hj as [<- Hj]. destruct Hc. by apply list_elem_of_fmap_2.
Qed.

(** A confirmed write keeps unique indexes unique. *)
Lemma unique_images s s' (eng : bytes → IndexEngine) (e : IndexEngine) (images : Images) (R : Rows) :
  indexes_ok s R eng → unique_ok s R → images_ok s eng e images →
  (∀ c, c ∈ ri_collection <$> images → (∀ d, d ∉ defs_of s c) ∨
     ∃ cands, unique_candidates s c e (images_of c images) = Ok cands ∧ ∀ x, x ∈ cands → refuted (λ id, R !! (c, id)) x = false) →
  is_defs s' = is_defs s → is_tombstoned s' = is_tombstoned s → unique_ok s' (write_images R images).
Proof.
  intros Hok Hu Him Hall Hd Ht n d id1 id2 r1 r2 v1 v2 Hn Hq Hne Hl1 Hl2. rewrite Hd in Hn.
  assert (∀ id, live s' (write_images R images) (ix_collection d) id = live s (write_rows R (ix_collection d) (images_of (ix_collection d) images)) (ix_collection d) id) as Hlive.
  { intros id. unfold live. by rewrite Ht, write_images_rows. }
  rewrite Hlive in Hl1, Hl2. assert (unique_ok s (write_rows R (ix_collection d) (images_of (ix_collection d) images)) ) as Hu'; [|by eapply Hu'].
  destruct (decide (ix_collection d ∈ ri_collection <$> images)) as [Hin|Hin]; [|by rewrite images_of_nil].
  destruct (Hall _ Hin) as [Hno|(cands & Hc & Hx)].
  - destruct (Hno d). apply defs_of_elem. eauto.
  - apply list_elem_of_fmap in Hin as (i & Hi & Hin). destruct (Him i Hin) as (He & _ & _). rewrite <-Hi in He.
    rewrite <-He in Hc. eapply (unique_write s s R eng _ _ cands); try done. intros x Hxin _. by apply Hx.
Qed.

(** ** Commits *)

(** The keys of entries of strict and key-value indexes. *)
Definition durable_key s (k : bytes) : Prop :=
  ∃ n d, is_defs s !! n = Some d ∧ ix_engine d ≠ EDocument ∧ starts_with (entry_prefix d) k = true.

(** Their stored form is that of memory, with nothing left for a flush. *)
Definition durable_ok s m : Prop :=
  ∀ k, durable_key s k →
    is_dirty s !! k = None ∧ m Meta !! k = if bool_decide (k ∈ is_entries s) then Some [] else None.

Record rows_ok (eng : bytes → IndexEngine) (R : Rows) s m : Prop := {
  ro_indexes : indexes_ok s R eng;
  ro_unique : unique_ok s R;
  ro_durable : durable_ok s m
}.

(** Row writes leave the index entries alone. *)
Definition row_ops (ops : list WriteOp) : Prop :=
  ∀ op, op ∈ ops → op_ns op = Meta → starts_with entries_prefix (op_key op) = false.

Definition entry_ops (changes : list RowEntryOps) : list WriteOp := changes ≫= λ c, entry_op <$> c.2.

Lemma entry_ops_flat (changes : list RowEntryOps) : entry_ops changes = entry_op <$> (changes ≫= snd).
Proof.
  unfold entry_ops. induction changes as [|c changes IH]; [done|]. cbn [mbind list_bind]. by rewrite fmap_app, IH.
Qed.

Lemma durable_key_prefix s eng k : defs_ok s eng → durable_key s k → starts_with entries_prefix k = true.
Proof.
  intros Hd (n & d & Hn & _ & Hk). destruct (Hd n d Hn) as (<- & Hno & Hco & _). apply starts_with_spec in Hk as [x ->].
  unfold entry_prefix. rewrite index_prefix_eq by done. apply starts_with_spec. eexists. by rewrite <-!app_assoc.
Qed.

Definition committed s (changes : list RowEntryOps) : IndexState E :=
  with_sink (is_sink s) (applied (with_sink (Some []) s) changes).

(** A write that is in memory and in the store: the same indexes, in line with the rows
    the images describe, and outside the index entries what the row operations [ops] make
    of the store [m]. *)
Record wrote (eng : bytes → IndexEngine) (R : Rows) (images : Images) (ops : list WriteOp) s m s' (m' : Store) : Prop := {
  wr_defs : is_defs s' = is_defs s;
  wr_tombstoned : is_tombstoned s' = is_tombstoned s;
  wr_rows : rows_ok eng (write_images R images) s' m';
  wr_store ns k : ns ≠ Meta ∨ starts_with entries_prefix k = false → m' ns !! k = st_ops m ops ns !! k
}.

Lemma committed_ok s m (eng : bytes → IndexEngine) (e : IndexEngine) (images : Images) (R : Rows) ops changes :
  rows_ok eng R s m → images_ok s eng e images → row_ops ops →
  changes = (foldl (plan_image s e) (∅, []) images).2 →
  (∀ c, c ∈ ri_collection <$> images → (∀ d, d ∉ defs_of s c) ∨
     ∃ cands, unique_candidates s c e (images_of c images) = Ok cands ∧ ∀ x, x ∈ cands → refuted (λ id, R !! (c, id)) x = false) →
  wrote eng R images ops s m (committed s changes) (st_ops m (ops ++ entry_ops changes)).
Proof.
  intros [Hok Hu Hdur] Him Hops -> Hall. set (changes := (foldl _ _ images).2). set (s0 := with_sink (Some []) s).
  destruct (plan_images_ok s eng e images R ∅ [] s0) as (Hok' & Hd' & Ht' & Hch);
    [by apply sink_ok|done|done|done|intros k; cbn; set_solver|done|].
  cbn zeta in *. fold changes in Hok', Hd', Ht', Hch.
  assert (st_ops m (ops ++ entry_ops changes) = st_ops (st_ops m ops) (entry_ops changes)) as Hsplit by apply foldl_app.
  split; [done|done| |intros ns k Hk; rewrite Hsplit; apply st_ops_untouched].
  - split.
    + by apply sink_ok.
    + eapply (unique_images s _ eng e); done.
    + intros k (n & d & Hn & He & Hk). change (is_defs (applied s0 changes) !! n = Some d) in Hn. rewrite Hd' in Hn.
      assert (durable_key s k) as Hkey by (by exists n, d). destruct (Hdur k Hkey) as [Hdirty Hm].
      change (is_dirty (committed s changes)) with (is_dirty (applied s0 changes)).
      change (is_entries (committed s changes)) with (is_entries (applied s0 changes)). rewrite applied_entries.
      destruct (applied_sink s0 changes) as [-> _]; [done|]. split; [done|].
      rewrite Hsplit, entry_ops_flat. apply entries_stored. rewrite st_ops_untouched; [done|].
      intros op Hop Hns <-. apply (Hops op Hop) in Hns. apply (durable_key_prefix s eng) in Hkey; [congruence|apply Hok].
  - intros op Hin Hns Heq. rewrite entry_ops_flat in Hin. apply list_elem_of_fmap in Hin as (op' & -> & Hin).
    assert (op_ns (entry_op op') = Meta ∧ starts_with entries_prefix (op_key (entry_op op')) = true) as [Hm Hp].
    { destruct op' as [k'|k']; cbn; (split; [done|]); apply Hch; [by left|by right]. }
    destruct Hk as [Hk|Hk]; congruence.
Qed.

Context {S : Type} `{StorageLaws S}.

Lemma write_ok (st : S) ops r st' : write st ops = (r, st') →
  match r with
  | Ok _ => contents st' ≡ st_ops (contents st) ops
  | Err _ => contents st' ≡ contents st ∨ contents st' ≡ st_ops (contents st) ops
  end.
Proof.
  unfold write. destruct ops as [|op ops]; [by intros [= <- <-]|]. destruct r as [[]|err]; [apply batch_ok|apply batch_err].
Qed.

#[local] Instance rows_ok_proper (eng : bytes → IndexEngine) (R : Rows) s : Proper ((≡) ==> iff) (rows_ok eng R s).
Proof.
  intros m1 m2 Hm. split; intros [Hok Hu Hd]; (split; [done..|]); intros k Hk; [rewrite <-(Hm Meta)|rewrite (Hm Meta)]; by apply Hd.
Qed.

#[local] Instance wrote_proper (eng : bytes → IndexEngine) (R : Rows) (images : Images) ops s m s' :
  Proper ((≡) ==> iff) (wrote eng R images ops s m s').
Proof.
  intros m1 m2 Hm. split; intros [Hd Ht Hr Hs]; (split; [done|done| |]).
  - by rewrite <-Hm.
  - intros ns k Hk. by rewrite <-(Hs ns k Hk), (Hm ns).
  - by rewrite Hm.
  - intros ns k Hk. by rewrite <-(Hs ns k Hk), (Hm ns).
Qed.

Lemma not_indexed s (eng : bytes → IndexEngine) (e : IndexEngine) (images : Images) :
  defs_ok s eng → images_ok s eng e images → existsb (λ i, has_defs s (ri_collection i) e) images = false →
  (foldl (plan_image s e) (∅, []) images).2 = [] ∧ ∀ c, c ∈ ri_collection <$> images → ∀ d, d ∉ defs_of s c.
Proof.
  intros Hd Him Hex. assert (∀ i, i ∈ images → defs_on s (ri_collection i) e = []) as Hnone.
  { intros i Hi. destruct (defs_on s (ri_collection i) e) as [|d l] eqn:Hds; [done|]. exfalso.
    assert (d ∈ defs_on s (ri_collection i) e) as Hin by (rewrite Hds; by left). apply defs_on_elem in Hin as (Hc & He & n & Hn).
    assert (existsb (λ i, has_defs s (ri_collection i) e) images = true); [|congruence].
    apply existsb_exists. exists i. split; [by apply list_elem_of_In|]. apply existsb_exists. exists d.
    rewrite <-list_elem_of_In, def_values_elem. split; [eauto|by apply bool_decide_eq_true]. }
  split.
  - clear Him Hex. induction images as [|i images IH] using rev_ind; [done|]. rewrite foldl_app. cbn [foldl].
    unfold plan_image at 1. rewrite bool_decide_true by (apply Hnone; set_solver). apply IH. intros j Hj. apply Hnone. set_solver.
  - intros c (i & -> & Hi)%list_elem_of_fmap d Hin. destruct (Him i Hi) as (He & _ & _).
    apply (defs_on_of s eng) in Hin; [|done]. rewrite He, Hnone in Hin by done. by apply elem_of_nil in Hin.
Qed.

(** C8: rows commit with their index entries.  A write of rows of one engine that
    succeeds leaves every index in line with the rows, unique indexes unique, the stored
    entries of strict and key-value indexes those of memory with nothing left for a
    flush, and the rest of the store as the row operations make it.  One that fails
    leaves memory as it was, and the store either as it was or with both the row
    operations and the entries of every image, never with one without the other. *)
Theorem commit_rows_atomic (eng : bytes → IndexEngine) (e : IndexEngine) s (st : S) (ops : list WriteOp) (images : Images) (R : Rows)
    (read_row : bytes → bytes → res (option (Value O))) :
  rows_ok eng R s (contents st) → images_ok s eng e images → row_ops ops → reads_rows R read_row →
  let '(r, s', st') := commit_rows s st e ops images read_row in
  match r with
  | Ok _ => wrote eng R images ops s (contents st) s' (contents st')
  | Err _ => s' = s ∧
      (contents st' ≡ contents st ∨ ∃ s1, wrote eng R images ops s (contents st) s1 (contents st'))
  end.
Proof.
  intros Hok Him Hops Hread. pose proof (io_defs _ _ _ (ro_indexes _ _ _ _ Hok)) as Hd.
  assert (∀ changes, changes = (foldl (plan_image s e) (∅, []) images).2 → 
    (∀ c, c ∈ ri_collection <$> images → (∀ d, d ∉ defs_of s c) ∨
     ∃ cands, unique_candidates s c e (images_of c images) = Ok cands ∧ ∀ x, x ∈ cands → refuted (λ id, R !! (c, id)) x = false) →
    ∀ r st', write st (ops ++ entry_ops changes) = (r, st') →
    match r with
    | Ok _ => wrote eng R images ops s (contents st) (committed s changes) (contents st')
    | Err _ => contents st' ≡ contents st ∨ ∃ s1, wrote eng R images ops s (contents st) s1 (contents st')
    end) as Hwrite.
  { intros changes Hch Hall r st' Hw%write_ok.
    pose proof (committed_ok s (contents st) eng e images R ops changes Hok Him Hops Hch Hall) as Hc.
    destruct r as [u|err]; [by rewrite Hw|].
    destruct Hw as [Hw|Hw]; [by left|right; exists (committed s changes); by rewrite Hw]. }
  unfold commit_rows, commit_rows_with, commit_rows_held.
  destruct (existsb (λ i, has_defs s (ri_collection i) e) images) eqn:Hidx; cbn [negb andb].
  - destruct (plan_checked s e images read_row) as [changes|err] eqn:Hplan; [|by split; [|left]].
    apply (plan_checked_groups s e images R) in Hplan as [Hch Hall]; [|done].
    fold (entry_ops changes). destruct (write st (ops ++ entry_ops changes)) as [r st'] eqn:Hw.
    specialize (Hwrite changes Hch (λ c Hc, or_intror (Hall c Hc)) r st' Hw). by destruct r as [u|err].
  - destruct (not_indexed s eng e images Hd Him Hidx) as [Hnil Hno]. 
    specialize (Hwrite [] (eq_sym Hnil) (λ c Hc, or_introl (Hno c Hc))). cbn in Hwrite. rewrite app_nil_r in Hwrite.
    assert (committed s [] = s) as Hsame by (by destruct s). rewrite Hsame in Hwrite.
    destruct (existsb (λ i, has_sorted s (ri_collection i)) images); cbn [negb andb mbind list_bind]; rewrite ?app_nil_r;
      destruct (write st ops) as [r st'] eqn:Hw; specialize (Hwrite r st' eq_refl); destruct r as [u|err]; try done; by destruct s.
Qed.
End rows.
