(* ===== verification/IndexLegacy.v ===== *)
(** * Entries of older index layouts

    [src/nodedb-lite/src/index/legacy.rs]: the removal, once, of index entries written
    before definitions were stored.  The decoding of a list of ids is of another crate and
    is a parameter. *)

From Stdlib Require Import ZArith Lia Strings.Byte.
From stdpp Require Import prelude gmap strings sorting.
From S2P Require Import Prelude Bytes Ordered Text StorageTrait IndexKey IndexStore IndexSpec.

Local Open Scope Z_scope.

#[local] Instance WriteOp_eq_dec : EqDecision WriteOp.
Proof. solve_decision. Defined.

Definition RESERVED_FIRST_SEGMENTS : list bytes :=
  bs <$> ["kv"; "kv_sorted"; "meta"; "crdt"; "collection"; "graph"; "fts"; "catalog"; "manifest"; "strict_schema";
          "columnar_schema"; "document_bitemporal"; "graph_bitemporal"; "vr"; "v"]%string.

Definition COLON : byte := x3a.

(** [str::split_once] at one character. *)
Fixpoint split_once (c : byte) (s : bytes) : option (bytes * bytes) :=
  match s with
  | [] => None
  | b :: rest =>
      if decide (b = c) then Some ([], rest)
      else let* p := split_once c rest in Some (b :: p.1, p.2)
  end.

Definition legacy_prefixes (collection : bytes) : list bytes :=
  [bs "kv:" ++ collection ++ [COLON]] ++
  (if bool_decide (collection ∈ RESERVED_FIRST_SEGMENTS) then [] else [collection ++ [COLON]]).

Section legacy.
Variable ids_from_msgpack : bytes → option (list bytes).

Definition is_legacy_entry (key value prefix : bytes) : bool :=
  match from_utf8 key with
  | None => false
  | Some key =>
      match strip_prefix prefix key with
      | None => false
      | Some rest =>
          match split_once COLON rest with
          | None => false
          | Some (path, _) =>
              if bool_decide (path = []) then false
              else match ids_from_msgpack value with
                   | Some ids => negb (bool_decide (ids = [])) && forallb (λ id, negb (bool_decide (id = []))) ids
                   | None => false
                   end
          end
      end
  end.

Context {S : Type} `{StorageEngine S}.

Definition legacy_scan (storage : S) (ops : list WriteOp) (prefix : bytes) : res (list WriteOp) :=
  let? rows := se_scan_prefix storage Meta prefix in
  Ok (ops ++ ((λ row : KvPair, Delete Meta row.1) <$> filter (λ row : KvPair, is_legacy_entry row.1 row.2 prefix = true) rows)).

Definition clear_legacy_entries (storage : S) (collections : gset bytes) : res Z * S :=
  let marker := legacy_cleared_key in
  match se_get storage Meta marker with
  | Err e => (Err e, storage)
  | Ok (Some _) => (Ok 0, storage)
  | Ok None =>
      match rfold (λ ops collection, rfold (legacy_scan storage) ops (legacy_prefixes collection)) []
              (sorted_elems collections) with
      | Err e => (Err e, storage)
      | Ok ops =>
          let removed := Z.of_nat (length ops) in
          match se_batch_write storage (ops ++ [Put Meta marker []]) with
          | (Err e, storage) => (Err e, storage)
          | (Ok _, storage) => (Ok removed, storage)
          end
      end
  end.

(** ** What is removed *)

Context `{!StorageLaws S}.
Implicit Types (m : Store) (collections : gset bytes).

(** Names that start a key of another component of the store. *)
Definition reserved_name (c : bytes) : Prop :=
  ∃ name, c = bs name ∧
    In name ["kv"; "kv_sorted"; "meta"; "crdt"; "collection"; "graph"; "fts"; "catalog"; "manifest"; "strict_schema";
             "columnar_schema"; "document_bitemporal"; "graph_bitemporal"; "vr"; "v"]%string.

(** An entry of an older layout of one of the collections: its key is
    [<collection>:<path>:<value>], of a collection without a reserved name, or
    [kv:<collection>:<path>:<value>], with a path that is not empty, and it lists ids, one
    at least, none empty. *)
Definition legacy_of collections (k v : bytes) : Prop :=
  ∃ c path value ids,
    c ∈ collections ∧
    (k = bs "kv:" ++ c ++ bs ":" ++ path ++ bs ":" ++ value ∨
     k = c ++ bs ":" ++ path ++ bs ":" ++ value ∧ ¬ reserved_name c) ∧
    path ≠ [] ∧ x3a ∉ path ∧ utf8_valid k = true ∧
    ids_from_msgpack v = Some ids ∧ ids ≠ [] ∧ [] ∉ ids.

Lemma split_once_Some (c : byte) (s a b : bytes) : split_once c s = Some (a, b) ↔ s = a ++ c :: b ∧ c ∉ a.
Proof.
  revert a. induction s as [|x s IH]; intros a; cbn [split_once].
  { split; [done|]. intros [Ha _]. by destruct a. }
  destruct (decide (x = c)) as [->|Hne].
  - split; [intros [= <- <-]; split; [done|set_solver]|]. destruct a as [|y a]; [by intros [[= ->] _]|].
    intros [[= <- _] Hn]. destruct Hn. by left.
  - destruct (split_once c s) as [[a' b']|] eqn:Hs; cbn.
    + split.
      * intros [= <- <-]. destruct (proj1 (IH a') eq_refl) as [-> Hn]. split; [done|set_solver].
      * destruct a as [|y a]; [by intros [[= ->] _]|]. intros [[= <- ->] Hn].
        assert (Some (a', b') = Some (a, b)) as [= -> ->]; [|done]. apply IH. split; [done|set_solver].
    + split; [done|]. destruct a as [|y a]; [by intros [[= ->] _]|]. intros [[= <- ->] Hn].
      assert (None = Some (a, b)); [|done]. apply IH. split; [done|set_solver].
Qed.

Lemma is_legacy_entry_spec k v p :
  is_legacy_entry k v p = true ↔
  ∃ path value ids, k = p ++ path ++ bs ":" ++ value ∧ path ≠ [] ∧ x3a ∉ path ∧ utf8_valid k = true ∧
    ids_from_msgpack v = Some ids ∧ ids ≠ [] ∧ [] ∉ ids.
Proof.
  assert (∀ ids : list bytes, forallb (λ id, negb (bool_decide (id = []))) ids = true ↔ [] ∉ ids) as Hids.
  { intros ids. rewrite forallb_forall. setoid_rewrite negb_true_iff. setoid_rewrite bool_decide_eq_false.
    setoid_rewrite <-list_elem_of_In. naive_solver. }
  unfold is_legacy_entry, from_utf8. split.
  - destruct (utf8_valid k) eqn:Hu; [|done]. destruct (strip_prefix p k) as [rest|] eqn:Hp; [|done].
    apply strip_prefix_Some in Hp as ->. destruct (split_once COLON rest) as [[path value]|] eqn:Hs; [|done].
    apply split_once_Some in Hs as [-> Hn]. case_bool_decide; [done|]. destruct (ids_from_msgpack v) as [ids|] eqn:Hv; [|done].
    rewrite andb_true_iff, negb_true_iff, bool_decide_eq_false, Hids. intros [Hne Hno]. by exists path, value, ids.
  - intros (path & value & ids & -> & Hpath & Hn & -> & Hv & Hne & Hno).
    assert (strip_prefix p (p ++ path ++ bs ":" ++ value) = Some (path ++ bs ":" ++ value)) as -> by (by apply strip_prefix_Some).
    assert (split_once COLON (path ++ bs ":" ++ value) = Some (path, value)) as -> by (by apply split_once_Some).
    rewrite bool_decide_false, Hv by done. apply andb_true_iff. split; [|by apply Hids].
    by apply negb_true_iff, bool_decide_eq_false.
Qed.

Lemma reserved_name_spec (c : bytes) : c ∈ RESERVED_FIRST_SEGMENTS ↔ reserved_name c.
Proof. unfold RESERVED_FIRST_SEGMENTS, reserved_name. rewrite list_elem_of_fmap. by setoid_rewrite list_elem_of_In. Qed.

Lemma legacy_of_iff collections k v :
  legacy_of collections k v ↔ ∃ c p, c ∈ collections ∧ p ∈ legacy_prefixes c ∧ is_legacy_entry k v p = true.
Proof.
  assert (∀ c p, p ∈ legacy_prefixes c ↔ p = bs "kv:" ++ c ++ bs ":" ∨ p = c ++ bs ":" ∧ ¬ reserved_name c) as Hp.
  { intros c p. unfold legacy_prefixes. rewrite elem_of_app, list_elem_of_singleton, <-reserved_name_spec.
    case_bool_decide; set_solver. }
  unfold legacy_of. setoid_rewrite Hp. setoid_rewrite is_legacy_entry_spec. split.
  - intros (c & path & value & ids & Hc & [->|[-> Hr]] & Hrest).
    + exists c, (bs "kv:" ++ c ++ bs ":"). split_and!; [done|by left|]. exists path, value, ids. by rewrite <-!app_assoc.
    + exists c, (c ++ bs ":"). split_and!; [done|by right|]. exists path, value, ids. by rewrite <-!app_assoc.
  - intros (c & p & Hc & Hcp & path & value & ids & Hk & Hrest). exists c, path, value, ids. split_and!; [done| |apply Hrest..].
    rewrite Hk. destruct Hcp as [->|[-> Hr]]; [left|right; split; [|done]]; by rewrite <-!app_assoc.
Qed.

Lemma legacy_prefix k v p : is_legacy_entry k v p = true → starts_with p k = true ∧ utf8_valid k = true.
Proof.
  unfold is_legacy_entry, from_utf8. destruct (utf8_valid k); [|done]. destruct (strip_prefix p k) as [rest|] eqn:Hp; [|done].
  intros _. apply strip_prefix_Some in Hp as ->. split; [apply starts_with_app|done].
Qed.

(** The removals planned so far: of entries of the collections seen. *)
Definition removals (m : Store) (P : bytes → Prop) (ops : list WriteOp) : Prop :=
  ∀ op, op ∈ ops ↔ ∃ k v p, op = Delete Meta k ∧ P p ∧ m Meta !! k = Some v ∧ is_legacy_entry k v p = true.

Lemma scan_removals (storage : S) (P : bytes → Prop) ops prefix ops' :
  removals (contents storage) P ops → legacy_scan storage ops prefix = Ok ops' →
  removals (contents storage) (λ p, P p ∨ p = prefix) ops'.
Proof.
  intros Hops. unfold legacy_scan. destruct (se_scan_prefix storage Meta prefix) as [rows|] eqn:Hr; [|done].
  intros [= <-] op. apply scan_prefix_ok in Hr as ->. rewrite elem_of_app, (Hops op), list_elem_of_fmap. split.
  - intros [(k & v & p & -> & Hp & Hk & Hl)|([k v] & -> & Hin)]; [exists k, v, p; eauto 10|].
    apply list_elem_of_filter in Hin as [Hl [_ Hk]%elem_of_st_scan_prefix]. exists k, v, prefix. eauto.
  - intros (k & v & p & -> & [Hp| ->] & Hk & Hl); [left; exists k, v, p; done|right]. exists (k, v). split; [done|].
    apply list_elem_of_filter. split; [done|]. apply elem_of_st_scan_prefix. split; [by eapply legacy_prefix|done].
Qed.

Lemma fold_removals {A} (storage : S) (f : list WriteOp → A → res (list WriteOp)) (Q : A → bytes → Prop) (l : list A) :
  (∀ P ops a ops', removals (contents storage) P ops → f ops a = Ok ops' → removals (contents storage) (λ p, P p ∨ Q a p) ops') →
  ∀ P ops ops', removals (contents storage) P ops → rfold f ops l = Ok ops' →
    removals (contents storage) (λ p, P p ∨ ∃ a, a ∈ l ∧ Q a p) ops'.
Proof.
  intros Hf. induction l as [|a l IH]; intros P ops ops' Hops Hr; cbn [rfold] in Hr.
  - injection Hr as <-. intros op. rewrite (Hops op). set_solver.
  - destruct (f ops a) as [ops1|] eqn:H1; [|done]. cbn [rbind] in Hr. intros op. rewrite (IH _ _ _ (Hf _ _ _ _ Hops H1) Hr op).
    setoid_rewrite elem_of_cons. naive_solver.
Qed.

Lemma removals_iff m (P Q : bytes → Prop) ops : (∀ p, P p ↔ Q p) → removals m P ops → removals m Q ops.
Proof. intros Hpq Hops op. rewrite (Hops op). by setoid_rewrite Hpq. Qed.

Lemma planned_removals (storage : S) collections ops :
  rfold (λ ops collection, rfold (legacy_scan storage) ops (legacy_prefixes collection)) [] (sorted_elems collections) = Ok ops →
  ∀ op, op ∈ ops ↔ ∃ k v, op = Delete Meta k ∧ contents storage Meta !! k = Some v ∧ legacy_of collections k v.
Proof.
  intros Hr. assert (removals (contents storage) (λ _, False) []) as H0.
  { intros op. rewrite elem_of_nil. naive_solver. }
  eapply (fold_removals storage _ (λ c p, p ∈ legacy_prefixes c)) in Hr; [| |exact H0].
  - intros op. rewrite (Hr op). setoid_rewrite legacy_of_iff. setoid_rewrite sorted_elems_elem. naive_solver.
  - intros P ops0 c ops1 Hops Ho. eapply (fold_removals storage _ (λ b p, p = b)) in Ho; [|apply scan_removals|exact Hops].
    eapply removals_iff; [|exact Ho]. naive_solver.
Qed.

(** What the removal leaves: the marker, and every row that is not such an entry. *)
Definition cleared collections m m' : Prop :=
  (∀ ns, ns ≠ Meta → m' ns = m ns) ∧ m' Meta !! legacy_cleared_key = Some [] ∧
  ∀ k v, k ≠ legacy_cleared_key → m' Meta !! k = Some v ↔ m Meta !! k = Some v ∧ ¬ legacy_of collections k v.

Lemma removal_batch m collections ops :
  (∀ op, op ∈ ops ↔ ∃ k v, op = Delete Meta k ∧ m Meta !! k = Some v ∧ legacy_of collections k v) →
  cleared collections m (st_ops m (ops ++ [Put Meta legacy_cleared_key []])).
Proof.
  intros Hops. assert (st_ops m (ops ++ [Put Meta legacy_cleared_key []]) = st_put (st_ops m ops) Meta legacy_cleared_key []) as ->
    by (unfold st_ops; by rewrite foldl_app).
  split_and!.
  - intros ns Hns. rewrite st_put_ne by done. apply map_eq. intros k. apply st_ops_untouched.
    intros op (k' & v & -> & _)%Hops Hop. by destruct Hns.
  - by rewrite st_put_eq, lookup_insert_eq.
  - intros k v Hk. rewrite st_put_eq, lookup_insert_ne by done. destruct (decide (Delete Meta k ∈ ops)) as [Hin|Hin].
    + rewrite st_ops_all_delete; [|by exists (Delete Meta k)|by intros op (k' & v' & -> & _)%Hops _ <-].
      split; [done|]. intros [Hm Hno]. apply Hops in Hin as (k' & v' & [= <-] & Hm' & Hl). congruence.
    + rewrite st_ops_untouched by (intros op Hop Hns <-; apply Hops in Hop as Hop'; by destruct Hop' as (k' & v' & -> & _)).
      split; [|naive_solver]. intros Hm. split; [done|]. intros Hl. apply Hin, Hops. eauto.
Qed.
End legacy.

Section once.
Context (ids_from_msgpack : bytes → option (list bytes)) {S : Type} `{StorageProgress S}.

(** C40: entries of older layouts are removed once.  On a healthy store without the marker
    the removal succeeds; whenever it succeeds without the marker, exactly the entries
    shown to be of an older layout of a known collection are gone, every other row of
    every namespace stays, and the next run does nothing.  One that fails leaves the store
    as it was, or as a run that succeeds leaves it. *)
Theorem legacy_removed_once (storage : S) (collections collections' : gset bytes) :
  contents storage Meta !! legacy_cleared_key = None →
  let '(r, storage') := clear_legacy_entries ids_from_msgpack storage collections in
  (healthy storage → ∃ n, r = Ok n) ∧
  match r with
  | Ok _ => cleared ids_from_msgpack collections (contents storage) (contents storage') ∧
      (healthy storage' → clear_legacy_entries ids_from_msgpack storage' collections' = (Ok 0, storage'))
  | Err _ => contents storage' ≡ contents storage ∨
      cleared ids_from_msgpack collections (contents storage) (contents storage')
  end.
Proof.
  intros Hm. unfold clear_legacy_entries at 1. destruct (se_get storage Meta legacy_cleared_key) as [o|e] eqn:Hg.
  2:{ split; [|by left]. intros Hh. by rewrite read_get in Hg. }
  apply get_ok in Hg. rewrite Hm in Hg. subst o.
  destruct (rfold _ [] (sorted_elems collections)) as [ops|e] eqn:Hr.
  2:{ split; [|by left]. intros Hh. exfalso.
      assert (∀ l ops, ∃ ops', rfold (legacy_scan ids_from_msgpack storage) ops l = Ok ops') as Hin.
      { induction l as [|p l IH]; intros ops; cbn [rfold]; [eauto|]. unfold legacy_scan at 1. rewrite read_scan by done. cbn [rbind]. apply IH. }
      assert (∀ l ops, ∃ ops', rfold (λ ops c, rfold (legacy_scan ids_from_msgpack storage) ops (legacy_prefixes c)) ops l = Ok ops') as Hout.
      { induction l as [|c l IH]; intros ops; cbn [rfold]; [eauto|]. destruct (Hin (legacy_prefixes c) ops) as [ops' ->]. apply IH. }
      destruct (Hout (sorted_elems collections) []) as [ops' Ho]. congruence. }
  pose proof (removal_batch ids_from_msgpack _ _ _ (planned_removals ids_from_msgpack storage collections ops Hr)) as Hc.
  assert (∀ m, m ≡ st_ops (contents storage) (ops ++ [Put Meta legacy_cleared_key []]) → cleared ids_from_msgpack collections (contents storage) m) as Heq.
  { intros m Hm'. destruct Hc as (H1' & H2' & H3'). split_and!; [intros ns Hns|..|intros k v Hk]; rewrite Hm'; auto. }
  destruct (se_batch_write storage _) as [[u|e] storage'] eqn:Hb; (split; [intros Hh|]).
  - eauto.
  - destruct u. apply batch_ok in Hb. split; [by apply Heq|]. intros Hh. unfold clear_legacy_entries. rewrite read_get by done.
    by rewrite (Hb Meta), (proj1 (proj2 Hc)).
  - destruct (healthy_batch storage (ops ++ [Put Meta legacy_cleared_key []]) Hh) as [st' Hst]. congruence.
  - apply batch_err in Hb as [Hb|Hb]; [by left|right; by apply Heq].
Qed.
End once.
