(* ===== verification/IndexCases.v ===== *)
(** * Index catalogs of a small collection

    Users with a unique index on their addresses: the sessions, flushes and restarts the
    theorems speak of, and two sequences that leave the indexes behind the rows. *)

From Stdlib Require Import ZArith Lia Strings.Byte.
From stdpp Require Import prelude gmap strings sorting.
From S2P Require Import Prelude Bytes Ordered Text StorageTrait Pagedb PagedbMem IndexKey SortedKeys.
From S2P Require Import IndexDefs IndexStore IndexDurable IndexSpec IndexUnique IndexSession IndexFlush IndexRestart.
From S2P Require Import IndexRange IndexRows IndexLegacy.

Local Open Scope Z_scope.

#[local] Instance mark_order : HashOrder.
Proof. refine {| hash_iter K A _ _ i j m := map_to_list m |}. done. Defined.

#[local] Program Instance text_codec : ValueCodec unit := {|
  parse_f64 _ := None;
  parse_datetime _ := None;
  to_msgpack _ := None;
  F64_NAN := 0x7FF8000000000000
|}.
Next Obligation. split; [|done]. by compute. Qed.
Next Obligation. done. Qed.
Next Obligation. done. Qed.

Definition users : bytes := bs "users".
Definition by_email : bytes := bs "by_email".

(** A unique index on the address. *)
Definition email_index (engine : IndexEngine) : IndexDef unit :=
  mkIndexDef by_email users (bs "$.email") true false false None engine.

(** Texts and booleans compare as themselves; the stored form of a definition here is its engine. *)
#[local] Instance text_ops : IndexOps unit unit := {|
  eq_coerced v w :=
    match v, w with
    | VString s, VString t => bool_decide (s = t)
    | VBool a, VBool b => bool_decide (a = b)
    | _, _ => false
    end;
  expr_eval _ _ := None;
  expr_parse _ := None;
  str_lowercase s := s;
  def_to_msgpack d :=
    Some [match ix_engine d with EDocument => x00 | EStrict => x01 | EKeyValue => x02 end];
  def_from_msgpack b :=
    match b with
    | [x00] => Some (email_index EDocument)
    | [x01] => Some (email_index EStrict)
    | [x02] => Some (email_index EKeyValue)
    | _ => None
    end;
  sorted_to_msgpack _ := None;
  sorted_from_msgpack _ := None
|}.

#[local] Instance text_laws : CoercedLaws unit unit.
Proof.
  split.
  - intros v w. destruct v, w; try done; cbn; apply bool_decide_ext; by split.
  - intros v w. destruct v, w; try done; cbn; intros ->%bool_decide_eq_true _ _; [by eapply cm_bool|by eapply cm_text].
Qed.

Definition user (email : bytes) : Value unit := VObject {[bs "email" := VString email]}.

(** ** The empty catalog *)

Lemma empty_world_ok (eng : bytes → IndexEngine) : world_ok eng (∅ : gmap (bytes * bytes) (Value unit), index_state_default (E:=unit)).
Proof.
  split; cbn [fst snd].
  - split.
    + split; [intros c id k; unfold posted; cbn; by rewrite lookup_empty|].
      intros k. unfold posted. cbn. setoid_rewrite lookup_empty. cbn. set_solver.
    + intros n d. cbn. by rewrite lookup_empty.
    + intros c id r. by rewrite lookup_empty.
    + intros c id. unfold want, live, posted. cbn. rewrite !lookup_empty. by rewrite bool_decide_false by set_solver.
  - intros n d id1 id2 r1 r2 v1 v2. cbn. by rewrite lookup_empty.
Qed.

Lemma empty_sys_ok (m : Store) :
  (∀ k, starts_with entries_prefix k = true ∨ starts_with defs_prefix k = true → m Meta !! k = None) →
  sys_ok (mkSystem (∅ : gmap (bytes * bytes) (Value unit), index_state_default (E:=unit)) m Idle).
Proof.
  intros Hm. split; cbn [sys_world sys_store sys_phase phase_ok fst snd]; try done.
  - destruct (empty_world_ok (λ _, EDocument)) as [[? ? ? _] _]. by split.
  - split; intros k; unfold pending, defined; cbn.
    + rewrite lookup_empty. intros Hk. rewrite Hm by auto. by rewrite bool_decide_false by set_solver.
    + intros b Hk. rewrite lookup_empty, Hm by auto. setoid_rewrite lookup_empty. naive_solver.
Qed.

(** ** A session *)

Definition user_acts : list (IndexAct (O:=unit) (E:=unit)) :=
  [AWrite users [(bs "u1", Some (user (bs "ann@x")))]; ACreate (email_index EDocument);
   AWrite users [(bs "u2", Some (user (bs "ann@x")))];
   AWrite users [(bs "u2", Some (user (bs "bob@x"))); (bs "u3", Some (user (bs "eve@x")))];
   ATombstone users [bs "u1"]; AWrite users [(bs "u3", Some (user (bs "ann@x")))];
   ARevive users (bs "u1") (user (bs "eve@x"))].

Definition user_run := run_acts (∅, index_state_default) user_acts.

(** The second write is refused, the others are accepted. *)
Example user_answers :
  (λ t, match t.2 with Ok _ => true | Err _ => false end) <$> user_run.1 = [true; true; false; true; true; true; true].
Proof. by vm_compute. Qed.

Lemma name_users : name_ok users.
Proof. by apply name_ok_ex. Qed.
Lemma name_by_email : name_ok by_email.
Proof. by apply name_ok_ex. Qed.

Lemma user_acts_ok : Forall (act_ok (λ _, EDocument)) user_acts.
Proof.
  repeat constructor; cbn; try done; try apply name_users; try apply name_by_email;
    intros id; rewrite ?elem_of_cons, elem_of_nil; naive_solver.
Qed.

Definition revived_b (t : IndexAct (O:=unit) (E:=unit) * res unit) : bool :=
  match t.1, t.2 with ARevive _ _ _, Err _ => false | _, _ => true end.

Lemma revived_b_ok (l : list (IndexAct (O:=unit) (E:=unit) * res unit)) : forallb revived_b l = true → Forall revived_ok l.
Proof.
  intros Hl. apply Forall_forall. intros [a r] Hin. apply list_elem_of_In in Hin. rewrite forallb_forall in Hl.
  apply Hl in Hin. unfold revived_ok, revived_b in *. destruct a; cbn in *; try done. by destruct r as [[]|].
Qed.

Lemma user_revived : Forall revived_ok user_run.1.
Proof. apply revived_b_ok. by vm_compute. Qed.

Lemma index_lookup_session_witness :
  NoDup (lookup_eq user_run.2.2 (email_index EDocument) (VString (bs "ann@x") : Value unit)) ∧
  bs "u3" ∈ lookup_eq user_run.2.2 (email_index EDocument) (VString (bs "ann@x") : Value unit).
Proof.
  pose proof (index_lookup_session (λ _, EDocument) (∅, index_state_default) user_acts
    (empty_world_ok _) user_acts_ok user_revived) as Hs.
  rewrite (surjective_pairing (run_acts (∅, index_state_default) user_acts).2) in Hs. fold user_run in Hs.
  destruct (Hs by_email (email_index EDocument) (VString (bs "ann@x"))) as (Hnd & _ & Heq); [by vm_compute|].
  split; [exact Hnd|]. apply (Heq _ (user (bs "ann@x")) (VString (bs "ann@x"))); [by vm_compute|by left|by vm_compute..].
Defined.

Lemma unique_session_witness :
  eq_coerced (E:=unit) (VString (bs "ann@x") : Value unit) (VString (bs "eve@x")) = false.
Proof.
  pose proof (unique_session (λ _, EDocument) (∅, index_state_default) user_acts
    (empty_world_ok _) user_acts_ok user_revived) as Hs.
  rewrite (surjective_pairing (run_acts (∅, index_state_default) user_acts).2) in Hs. fold user_run in Hs.
  apply (Hs by_email (email_index EDocument) (bs "u3") (bs "u1") (user (bs "ann@x")) (user (bs "eve@x")));
    [by vm_compute|done|done|by vm_compute|by vm_compute|by left|by left].
Defined.

Lemma index_range_session_witness :
  ∃ ids, lookup_range user_run.2.2 (email_index EDocument) (Some (VString (bs "a") : Value unit)) (Some (VString (bs "b"))) = Some ids ∧
    NoDup ids ∧ bs "u3" ∈ ids.
Proof.
  pose proof (index_range_session (λ _, EDocument) (∅, index_state_default) user_acts
    (empty_world_ok _) user_acts_ok user_revived) as Hs.
  rewrite (surjective_pairing (run_acts (∅, index_state_default) user_acts).2) in Hs. fold user_run in Hs.
  specialize (Hs by_email (email_index EDocument) (Some (VString (bs "a"))) (Some (VString (bs "b"))) ltac:(by vm_compute)).
  assert (is_Some (lookup_range user_run.2.2 (email_index EDocument) (Some (VString (bs "a") : Value unit)) (Some (VString (bs "b"))))) as [ids Hids]
    by (apply (bool_decide_unpack _); vm_compute; exact I).
  rewrite Hids in Hs. destruct Hs as (Hnd & _ & Hin). exists ids. split_and!; [exact Hids|exact Hnd|].
  apply (Hin _ (user (bs "ann@x")) (VString (bs "ann@x")) (KText (bs "ann@x"))); [by vm_compute|by left|done|done|].
  split; intros b Hb; injection Hb as <-; eexists _, Lt; (split_and!; [reflexivity|done|done|by vm_compute|done]).
Defined.

(** ** A flush and a restart *)

Definition formatted : MemDb := (se_put (∅ : MemDb) Meta format_key (u32_be FORMAT_VERSION)).2.

Definition create_act : IndexAct (O:=unit) (E:=unit) := ACreate (email_index EDocument).
Definition write_act : IndexAct (O:=unit) (E:=unit) := AWrite users [(bs "u1", Some (user (bs "ann@x")))].
Definition world1 : World (O:=unit) (E:=unit) := (run_act (∅, index_state_default) create_act).2.
Definition world2 : World (O:=unit) (E:=unit) := (run_act world1 write_act).2.

(** The write comes while the flush that stored the definition is under way. *)
Definition flushed_db : MemDb := (se_batch_write formatted (stage_flush world1.2).1).2.
Definition flushed_state : IndexState unit := mark_flushed world2.2 (stage_flush world1.2).2.
Definition flushed_again : MemDb := (se_batch_write flushed_db (stage_flush flushed_state).1).2.

Lemma formatted_none k :
  starts_with entries_prefix k = true ∨ starts_with defs_prefix k = true → contents formatted Meta !! k = None.
Proof.
  intros Hk.
  assert (contents formatted ≡ st_put (contents (∅ : MemDb)) Meta format_key (u32_be FORMAT_VERSION)) as Hc.
  { destruct (healthy_put (∅ : MemDb) Meta format_key (u32_be FORMAT_VERSION)) as [st Hst]; [by vm_compute|].
    unfold formatted. rewrite Hst. by apply put_ok. }
  rewrite (Hc Meta), st_put_eq, lookup_insert_ne, mem_empty_contents, lookup_empty; [done|]. intros <-. by destruct Hk.
Qed.

Lemma formatted_ok : sys_ok (mkSystem (∅ : gmap (bytes * bytes) (Value unit), index_state_default (E:=unit)) (contents formatted) Idle).
Proof. apply empty_sys_ok, formatted_none. Qed.

Lemma batch_contents (st : MemDb) ops : healthy st → contents (se_batch_write st ops).2 ≡ st_ops (contents st) ops.
Proof. intros Hh. destruct (healthy_batch st ops Hh) as [st' Hst]. rewrite Hst. by apply batch_ok. Qed.

Lemma flushed_reach :
  rtc flush_step (mkSystem (∅, index_state_default) (contents formatted) Idle)
    (mkSystem (world2.1, flushed_state) (st_ops (contents formatted) (stage_flush world1.2).1) Idle).
Proof.
  eapply rtc_l; [apply (fs_act _ _ _ create_act)|]; [by apply (proj1 (Forall_lookup _ user_acts) user_acts_ok 1%nat)|done|].
  eapply rtc_l; [apply fs_stage|].
  eapply rtc_l; [apply (fs_act _ _ _ write_act)|]; [by apply (proj1 (Forall_lookup _ user_acts) user_acts_ok 0%nat)|done|].
  eapply rtc_l; [apply fs_commit|].
  fold world1. fold world2. rewrite (surjective_pairing world2) at 1.
  apply rtc_once. exact (fs_finish world2.1 world2.2 _ (stage_flush world1.2).2).
Qed.

Lemma flushed_codec : defs_codec flushed_state.
Proof.
  intros n d Hn. assert (map_to_list (is_defs flushed_state) = [(by_email, email_index EDocument)]) as Hone by (by vm_compute).
  apply elem_of_map_to_list in Hn. rewrite Hone in Hn. apply list_elem_of_singleton in Hn as [= -> ->].
  clear. exists [x00]. split; reflexivity.
Qed.

Lemma flushed_contents :
  contents flushed_again ≡ st_ops (st_ops (contents formatted) (stage_flush world1.2).1) (stage_flush flushed_state).1.
Proof.
  unfold flushed_again, flushed_db. rewrite batch_contents by (by vm_compute). by rewrite batch_contents by (by vm_compute).
Qed.

Lemma flushed_format : contents flushed_again Meta !! format_key = Some (u32_be FORMAT_VERSION).
Proof. symmetry. apply get_ok. by vm_compute. Qed.

Lemma flushed_sorted :
  ∃ l, rmapM (λ row : KvPair, sorted_decode row.2) (st_scan_prefix (contents flushed_again) Meta sorted_defs_prefix) = Ok l.
Proof. exists []. by rewrite <-(scan_prefix_ok flushed_again Meta sorted_defs_prefix []) by (by vm_compute). Qed.

Lemma flush_then_load_witness :
  ∃ s', load index_state_default flushed_again = (Ok false, s', flushed_again) ∧ is_defs s' = is_defs flushed_state.
Proof.
  assert (healthy flushed_again) as Hh by (by vm_compute).
  destruct (flush_then_load _ _ flushed_again formatted_ok flushed_reach flushed_codec Hh flushed_contents
    flushed_format flushed_sorted) as (s' & Hl & Hd & _).
  exists s'. split; [exact Hl|exact Hd].
Defined.

(** ** Strict rows *)

(** An index declared on strict rows, before the first of them. *)
Definition declared : IndexState unit := with_defs (<[by_email := email_index EStrict]>) index_state_default.

Lemma declared_ok : rows_ok (λ _, EStrict) (∅ : gmap (bytes * bytes) (Value unit)) declared (contents formatted).
Proof.
  assert (∀ n d, is_defs declared !! n = Some d → n = by_email ∧ d = email_index EStrict) as Hdefs.
  { intros n d. unfold declared. cbn. rewrite lookup_insert, lookup_empty. case_decide; naive_solver. }
  split.
  - split.
    + split; [intros c id k; unfold posted; cbn; by rewrite lookup_empty|].
      intros k. unfold posted. cbn. setoid_rewrite lookup_empty. cbn. set_solver.
    + intros n d [-> ->]%Hdefs. split_and!; [done|apply name_by_email|apply name_users|done].
    + intros c id r. by rewrite lookup_empty.
    + intros c id. unfold want, live, posted. rewrite lookup_empty. by destruct (bool_decide _).
  - intros n d id1 id2 r1 r2 v1 v2 _ _ _. unfold live. rewrite lookup_empty. by destruct (bool_decide _).
  - intros k Hk. split; [done|]. rewrite formatted_none; [by rewrite bool_decide_false by set_solver|left].
    destruct Hk as (n & d & [-> ->]%Hdefs & _ & Hp). apply starts_with_spec in Hp as [x ->].
    unfold entry_prefix. rewrite index_prefix_eq by (apply name_users || apply name_by_email). apply starts_with_spec. eexists. by rewrite <-!app_assoc.
Qed.

Definition strict_images : list (RowImage (O:=unit)) :=
  [mkImage users (bs "u1") (Some (user (bs "ann@x"))); mkImage users (bs "u2") (Some (user (bs "bob@x")))].
Definition strict_ops : list WriteOp := [Put Strict (bs "users:u1") (bs "ann@x"); Put Strict (bs "users:u2") (bs "bob@x")].

Lemma commit_rows_atomic_witness :
  ∃ s' st', commit_rows declared formatted EStrict strict_ops strict_images (λ _ _, Ok None) = (Ok tt, s', st') ∧
    rows_ok (λ _, EStrict) (write_images ∅ strict_images) s' (contents st').
Proof.
  assert (images_ok declared (λ _, EStrict) EStrict strict_images) as Him.
  { intros i Hi. apply elem_of_cons in Hi as [->|Hi%list_elem_of_singleton]; [|subst i]; (split_and!; [done|done|set_solver]). }
  assert (row_ops strict_ops) as Hops.
  { intros op Hop. apply elem_of_cons in Hop as [->|Hop%list_elem_of_singleton]; [|subst op]; done. }
  assert (reads_rows (∅ : gmap (bytes * bytes) (Value unit)) (λ _ _, Ok None)) as Hread by (by intros c id r [= <-]).
  pose proof (commit_rows_atomic (λ _, EStrict) EStrict declared formatted strict_ops strict_images ∅ (λ _ _, Ok None)
    declared_ok Him Hops Hread) as Hc.
  assert (match (commit_rows declared formatted EStrict strict_ops strict_images (λ _ _, Ok None)).1.1 with Ok _ => true | Err _ => false end = true) as Hr
    by (by vm_compute).
  destruct (commit_rows declared formatted EStrict strict_ops strict_images (λ _ _, Ok None)) as [[r s'] st'].
  destruct r as [[]|]; [|discriminate Hr]. exists s', st'. split; [reflexivity|exact (wr_rows _ _ _ _ _ _ _ _ Hc)].
Defined.

(** ** Entries of older layouts *)

Definition one_id (b : bytes) : option (list bytes) := Some [b].

Definition old_db : MemDb := (se_put (∅ : MemDb) Meta (bs "users:email:ann") (bs "u1")).2.

Lemma legacy_removed_once_witness :
  cleared one_id {[users]} (contents old_db) (contents (clear_legacy_entries one_id old_db {[users]}).2).
Proof.
  pose proof (legacy_removed_once one_id old_db {[users]} ∅) as Hl.
  destruct (clear_legacy_entries one_id old_db {[users]}) as [r st'] eqn:Hc. cbn [snd].
  destruct Hl as [_ Hl]; [symmetry; apply get_ok; by vm_compute|].
  assert (match (clear_legacy_entries one_id old_db {[users]}).1 with Ok _ => true | Err _ => false end = true) as Hr by (by vm_compute).
  rewrite Hc in Hr. destruct r as [n|e]; [exact (proj1 Hl)|discriminate Hr].
Defined.

(** ** Sequences that leave an index behind *)

Definition engine_of (s : IndexState unit) : option IndexEngine := ix_engine <$> is_defs s !! by_email.

(** An index created on documents, moved to strict rows before a flush: memory and store
    agree until the flush writes the definition of before the move again. *)
Example moved_index_reverts :
  let '(r, s, st) := move_collection world1.2 formatted users EStrict in
  engine_of s = Some EStrict ∧ engine_of (load index_state_default st).1.2 = Some EStrict ∧
  engine_of (load index_state_default (se_batch_write st (stage_flush s).1).2).1.2 = Some EDocument.
Proof. by vm_compute. Qed.

Definition deleted_acts : list (IndexAct (O:=unit) (E:=unit)) :=
  [create_act; write_act; ATombstone users [bs "u1"]; AWrite users [(bs "u2", Some (user (bs "ann@x")))];
   ARevive users (bs "u1") (user (bs "ann@x"))].

Definition deleted_run := run_acts (∅, index_state_default) deleted_acts.

(** A deleted document is written again with an address another took: the write is refused. *)
Example deleted_answers :
  (λ t, match t.2 with Ok _ => true | Err _ => false end) <$> deleted_run.1 = [true; true; true; true; false].
Proof. by vm_compute. Qed.

(** The document no longer counts as deleted, and the next time it is brought in line the
    unique index holds both. *)
Example refused_write_revives :
  let '(R, s) := deleted_run.2 in
  bool_decide ((users, bs "u1") ∈ is_tombstoned s) = false ∧
  lookup_eq (resync s users [bs "u1"] (λ id, R !! (users, id))) (email_index EDocument) (VString (bs "ann@x") : Value unit)
    = [bs "u1"; bs "u2"].
Proof. by vm_compute. Qed.
