(* ===== verification/ArrayQueue.v ===== *)
(** * The queue of array operations

    [src/nodedb-lite/src/sync/array/pending.rs]: operations on arrays that wait for
    Origin, one row each under the bytes of its clock.  Clocks ([Hlc]), operations and
    their encodings are of the crates [nodedb_array] and [zerompk]; the classes [HlcOps]
    and [ArrayCodec] state what the source says of them. *)

From Stdlib Require Import ZArith Lia Strings.Byte.
From stdpp Require Import prelude gmap sorting.
From S2P Require Import Prelude Bytes Ordered StorageTrait.

Local Open Scope Z_scope.

(** A hybrid logical clock: 18 bytes that compare as clocks do. *)
Class HlcOps := {
  Hlc : Type;
  hlc_eq_dec :: EqDecision Hlc;
  hlc_countable :: Countable Hlc;
  hlc_cmp : Hlc → Hlc → comparison;
  HLC_ZERO : Hlc;
  hlc_to_bytes : Hlc → bytes;
  hlc_from_bytes : bytes → Hlc;
  hlc_to_bytes_length h : length (hlc_to_bytes h) = 18%nat;
  hlc_from_to h : hlc_from_bytes (hlc_to_bytes h) = h;
  hlc_bytes_cmp a b : bytes_cmp (hlc_to_bytes a) (hlc_to_bytes b) = hlc_cmp a b
}.

Record StoredOp := mkStored { so_seq : Z; so_op : bytes }.

Class ArrayCodec `{HlcOps} := {
  ArrayOp : Type;
  op_array : ArrayOp → bytes;
  op_hlc : ArrayOp → Hlc;
  encode_op : ArrayOp → option bytes;
  decode_op : bytes → option ArrayOp;
  decode_encode_op op b : encode_op op = Some b → decode_op b = Some op;
  stored_to_msgpack : StoredOp → option bytes;
  stored_from_msgpack : bytes → option StoredOp;
  stored_from_to x b : stored_to_msgpack x = Some b → stored_from_msgpack b = Some x
}.

#[global] Instance hlc_to_bytes_inj `{HlcOps} : Inj (=) (=) hlc_to_bytes.
Proof. intros a b Hab. by rewrite <-(hlc_from_to a), Hab, hlc_from_to. Qed.

Section queue.
Context `{AC : ArrayCodec}.

Record PendingArrayOp := mkPending {
  pa_array : bytes;
  pa_hlc : Hlc;
  pa_payload : bytes;
  pa_seq : Z
}.

Definition decode_stored (value : bytes) : res StoredOp := ok_or (stored_from_msgpack value) Storage.
Definition encode_stored (stored : StoredOp) : res bytes := ok_or (stored_to_msgpack stored) Serialization.
Definition decode_payload (payload : bytes) : res ArrayOp := ok_or (decode_op payload) Storage.

Definition key_after (hlc : Hlc) : bytes := hlc_to_bytes hlc ++ [x00].

Context {S : Type} `{StorageEngine S}.

Definition queue_len (st : S) : res Z := se_count st ArrayDelta.

Definition enqueue (cap : Z) (st : S) (op : ArrayOp) : res unit * S :=
  match (let? current := queue_len st in
         if cap <=? current then Err Backpressure
         else
           let? payload := ok_or (encode_op op) Storage in
           encode_stored (mkStored 0 payload)) with
  | Err e => (Err e, st)
  | Ok value => se_put st ArrayDelta (hlc_to_bytes (op_hlc op)) value
  end.

Definition pending_of (value : bytes) : res PendingArrayOp :=
  let? stored := decode_stored value in
  let? op := decode_payload (so_op stored) in
  Ok (mkPending (op_array op) (op_hlc op) (so_op stored) (so_seq stored)).

Definition scan_after (st : S) (after : option Hlc) (limit : Z) : res (list PendingArrayOp) :=
  let start := default [] (key_after <$> after) in
  let? pairs := se_scan_range st ArrayDelta start limit in
  rmapM (λ row : KvPair, pending_of row.2) pairs.

Definition set_seq (st : S) (hlc : Hlc) (seq : Z) : res bool * S :=
  let key := hlc_to_bytes hlc in
  match se_get st ArrayDelta key with
  | Err e => (Err e, st)
  | Ok None => (Ok false, st)
  | Ok (Some value) =>
      match (let? stored := decode_stored value in encode_stored (mkStored seq (so_op stored))) with
      | Err e => (Err e, st)
      | Ok value =>
          match se_put st ArrayDelta key value with
          | (Err e, st) => (Err e, st)
          | (Ok _, st) => (Ok true, st)
          end
      end
  end.

(** The deletion of an operation that is still queued. *)
Definition retire_one (st : S) (deletes : list WriteOp) (hlc : Hlc) : res (list WriteOp) :=
  let key := hlc_to_bytes hlc in
  let? value := se_get st ArrayDelta key in
  Ok (if bool_decide (value = None) then deletes else deletes ++ [Delete ArrayDelta key]).

Definition retire (st : S) (hlcs : list Hlc) : res Z * S :=
  match rfold (retire_one st) [] hlcs with
  | Err e => (Err e, st)
  | Ok deletes =>
      let count := Z.of_nat (length deletes) in
      if bool_decide (deletes = []) then (Ok count, st)
      else match se_batch_write st deletes with
           | (Err e, st) => (Err e, st)
           | (Ok _, st) => (Ok count, st)
           end
  end.

Definition drain_batch (st : S) (limit : Z) : res (list ArrayOp) :=
  let? pairs := se_scan_range st ArrayDelta [] limit in
  rmapM (λ row : KvPair, let? stored := decode_stored row.2 in decode_payload (so_op stored)) pairs.

Definition ack_through (st : S) (ack_hlc : Hlc) : res Z * S :=
  match se_scan_range st ArrayDelta [] usize_max with
  | Err e => (Err e, st)
  | Ok pairs =>
      let deletes := (λ row : KvPair, Delete ArrayDelta row.1) <$>
        take_while (λ row : KvPair, bool_decide (length row.1 = 18%nat) && bytes_leb row.1 (hlc_to_bytes ack_hlc)) pairs in
      let count := Z.of_nat (length deletes) in
      if bool_decide (deletes = []) then (Ok count, st)
      else match se_batch_write st deletes with
           | (Err e, st) => (Err e, st)
           | (Ok _, st) => (Ok count, st)
           end
  end.

Definition queue_is_empty (st : S) : res bool := let? n := queue_len st in Ok (bool_decide (n = 0)).

Definition remove (st : S) (hlc : Hlc) : res bool * S :=
  let key := hlc_to_bytes hlc in
  match se_get st ArrayDelta key with
  | Err e => (Err e, st)
  | Ok None => (Ok false, st)
  | Ok (Some _) =>
      match se_delete st ArrayDelta key with
      | (Err e, st) => (Err e, st)
      | (Ok _, st) => (Ok true, st)
      end
  end.

(** ** What the rows hold *)

Context `{!StorageLaws S}.
Implicit Types (m : Store) (h : Hlc) (st : S).

(** What a row says of the operation queued under a clock. *)
Definition queued m h : option StoredOp := let* b := m ArrayDelta !! hlc_to_bytes h in stored_from_msgpack b.

(** Every row is an operation under its own clock. *)
Definition queue_wf m : Prop :=
  ∀ k b, m ArrayDelta !! k = Some b →
    ∃ op x, k = hlc_to_bytes (op_hlc op) ∧ stored_from_msgpack b = Some x ∧ decode_op (so_op x) = Some op.

Lemma queued_op m h x : queue_wf m → queued m h = Some x → ∃ op, decode_op (so_op x) = Some op ∧ op_hlc op = h.
Proof.
  intros Hwf. unfold queued. destruct (m ArrayDelta !! hlc_to_bytes h) as [b|] eqn:Hb; [|done]. cbn. intros Hx.
  destruct (Hwf _ _ Hb) as (op & x' & Hk & Hx' & Hop). exists op. apply (inj hlc_to_bytes) in Hk. split; congruence.
Qed.

Lemma queued_none m h : queue_wf m → queued m h = None → m ArrayDelta !! hlc_to_bytes h = None.
Proof.
  intros Hwf. unfold queued. destruct (m ArrayDelta !! hlc_to_bytes h) as [b|] eqn:Hb; [|done]. cbn. intros Hx.
  destruct (Hwf _ _ Hb) as (op & x' & Hk & Hx' & Hop). congruence.
Qed.

(** A write that fails may have happened. *)
Definition outcome {A} (r : res A) m0 m1 m : Prop :=
  match r with Ok _ => m ≡ m1 | Err _ => m ≡ m0 ∨ m ≡ m1 end.

(** The queue with one operation written, or some gone. *)
Definition queue_put m m' h x : Prop :=
  (queue_wf m → queue_wf m') ∧ queued m' h = Some x ∧ ∀ h', h' ≠ h → queued m' h' = queued m h'.
Definition queue_without m m' (P : Hlc → Prop) : Prop :=
  (queue_wf m → queue_wf m') ∧ ∀ h, (P h → queued m' h = None) ∧ (¬ P h → queued m' h = queued m h).

Lemma queued_equiv m m' h : m ≡ m' → queued m h = queued m' h.
Proof. intros Hm. unfold queued. by rewrite (Hm ArrayDelta). Qed.
Lemma queue_wf_equiv m m' : m ≡ m' → queue_wf m → queue_wf m'.
Proof. intros Hm Hwf k b. rewrite <-(Hm ArrayDelta). apply Hwf. Qed.

Lemma st_put_queue m h x b op :
  stored_to_msgpack x = Some b → decode_op (so_op x) = Some op → op_hlc op = h →
  queue_put m (st_put m ArrayDelta (hlc_to_bytes h) b) h x.
Proof.
  intros Hb Hop <-. apply stored_from_to in Hb. split_and!.
  - intros Hwf k b'. rewrite st_put_eq, lookup_insert. case_decide as Hk; [intros [= <-]; exists op, x; done|apply Hwf].
  - unfold queued. by rewrite st_put_eq, lookup_insert_eq.
  - intros h' Hne. unfold queued. rewrite st_put_eq, lookup_insert_ne; [done|]. intros Hk. by apply (inj hlc_to_bytes) in Hk.
Qed.

Lemma enqueue_spec cap st op r st' :
  enqueue cap st op = (r, st') →
  (r ≠ Ok tt ∧ st' = st) ∨ ∃ payload m1, encode_op op = Some payload ∧
    queue_put (contents st) m1 (op_hlc op) (mkStored 0 payload) ∧ outcome r (contents st) m1 (contents st').
Proof.
  unfold enqueue. destruct (queue_len st) as [n|e]; cbn [rbind]; [|intros [= <- <-]; by left].
  destruct (cap <=? n); [intros [= <- <-]; by left|].
  destruct (encode_op op) as [payload|] eqn:Hp; cbn [ok_or rbind]; [|intros [= <- <-]; by left].
  unfold encode_stored. destruct (stored_to_msgpack _) as [b|] eqn:Hb; cbn [ok_or]; [|intros [= <- <-]; by left].
  intros Hput. right. exists payload, (st_put (contents st) ArrayDelta (hlc_to_bytes (op_hlc op)) b). split_and!; [done|..].
  - eapply st_put_queue; [done|by apply decode_encode_op|done].
  - destruct r as [[]|e]; [by apply put_ok|by eapply put_err].
Qed.

Lemma scan_after_spec st after limit ops :
  queue_wf (contents st) → scan_after st after limit = Ok ops →
  Forall (λ p, queued (contents st) (pa_hlc p) = Some (mkStored (pa_seq p) (pa_payload p)) ∧
               ∃ op, decode_op (pa_payload p) = Some op ∧ pa_hlc p = op_hlc op ∧ pa_array p = op_array op) ops ∧
  NoDup (pa_hlc <$> ops).
Proof.
  intros Hwf. unfold scan_after. destruct (se_scan_range _ _ _ _) as [rows|] eqn:Hr; [|done]. cbn [rbind].
  apply scan_range_ok in Hr as [Hrows _]. intros Hops%rmapM_Ok.
  assert (Forall2 (λ (row : KvPair) p, contents st ArrayDelta !! row.1 = Some row.2 ∧ row.1 = hlc_to_bytes (pa_hlc p) ∧
     stored_from_msgpack row.2 = Some (mkStored (pa_seq p) (pa_payload p)) ∧
     ∃ op, decode_op (pa_payload p) = Some op ∧ pa_hlc p = op_hlc op ∧ pa_array p = op_array op) rows ops) as Hall.
  { apply Forall2_same_length_lookup_2; [by eapply Forall2_length|]. intros i [k b] p Hk Hp.
    pose proof (Forall2_lookup_lr _ _ _ _ _ _ Hops Hk Hp) as Hdec. cbn [fst snd] in *.
    assert (contents st ArrayDelta !! k = Some b) as Hkb.
    { apply list_elem_of_lookup_2 in Hk. subst rows. rewrite takeZ_take in Hk. apply elem_of_take in Hk as (j & Hj & _).
      apply list_elem_of_lookup_2 in Hj. unfold st_scan_from in Hj. apply list_elem_of_filter in Hj as [_ Hj]. by apply elem_of_entries. }
    destruct (Hwf k b Hkb) as (op & x & Hko & Hx & Hop). unfold pending_of, decode_stored, decode_payload in Hdec.
    rewrite Hx in Hdec. cbn in Hdec. rewrite Hop in Hdec. cbn in Hdec. injection Hdec as <-. destruct x as [seq payload].
    cbn in *. split_and!; [done|done|done|]. by exists op. }
  split.
  - apply Forall_forall. intros p [i Hp]%list_elem_of_lookup. destruct (Forall2_lookup_r _ _ _ _ _ Hall Hp) as (row & _ & Hrow & Hk & Hx & Hop).
    split; [|done]. unfold queued. by rewrite <-Hk, Hrow.
  - assert (NoDup rows.*1) as Hnd.
    { assert (NoDup (entries (contents st ArrayDelta)).*1) as Hnd by (rewrite entries_perm; apply NoDup_fst_map_to_list).
      eapply sublist_NoDup; [exact Hnd|]. apply fmap_sublist. subst rows. rewrite takeZ_take.
      etrans; [apply sublist_take|apply sublist_filter]. }
    assert (hlc_to_bytes <$> (pa_hlc <$> ops) = rows.*1) as Heq.
    { clear Hnd Hops. subst. induction Hall as [|row p rs ps (_ & Hk & _) _ IH]; [done|]. cbn. by rewrite Hk, <-IH. }
    rewrite <-Heq in Hnd. by apply NoDup_fmap_1 in Hnd.
Qed.

Lemma set_seq_spec st h seq r st' :
  queue_wf (contents st) → set_seq st h seq = (r, st') →
  (r ≠ Ok true ∧ st' = st) ∨ ∃ x m1, queued (contents st) h = Some x ∧
    queue_put (contents st) m1 h (mkStored seq (so_op x)) ∧ outcome r (contents st) m1 (contents st') ∧ r ≠ Ok false.
Proof.
  intros Hwf. unfold set_seq. destruct (se_get _ _ _) as [o|e] eqn:Hg; [|intros [= <- <-]; by left]. apply get_ok in Hg.
  destruct o as [b|]; [|intros [= <- <-]; by left]. symmetry in Hg.
  destruct (Hwf _ _ Hg) as (op & x & Hk & Hx & Hop). unfold decode_stored. rewrite Hx. cbn [ok_or rbind]. unfold encode_stored.
  destruct (stored_to_msgpack _) as [b'|] eqn:Hb; cbn [ok_or]; [|intros [= <- <-]; by left].
  destruct (se_put _ _ _ _) as [rp stp] eqn:Hput. intros Heq. right.
  exists x, (st_put (contents st) ArrayDelta (hlc_to_bytes h) b'). split_and!.
  - unfold queued. by rewrite Hg.
  - apply (inj hlc_to_bytes) in Hk. by eapply st_put_queue.
  - destruct rp as [[]|e]; injection Heq as <- <-; [by apply put_ok|by eapply put_err].
  - destruct rp as [[]|e]; by injection Heq as <- <-.
Qed.

Lemma st_ops_deletes m (ks : list bytes) k :
  st_ops m (Delete ArrayDelta <$> ks) ArrayDelta !! k = if decide (k ∈ ks) then None else m ArrayDelta !! k.
Proof.
  destruct (decide (k ∈ ks)) as [Hin|Hin].
  - apply st_ops_all_delete; [exists (Delete ArrayDelta k); split; [by apply list_elem_of_fmap_2|done]|].
    by intros op (k' & -> & _)%list_elem_of_fmap _ <-.
  - apply st_ops_untouched. intros op (k' & -> & Hk')%list_elem_of_fmap _ Hk. cbn in Hk. by subst.
Qed.

Lemma deletes_queue m (ks : list bytes) (P : Hlc → Prop) :
  (∀ h, P h → hlc_to_bytes h ∈ ks ∨ queued m h = None) → (∀ h, hlc_to_bytes h ∈ ks → P h) →
  queue_without m (st_ops m (Delete ArrayDelta <$> ks)) P.
Proof.
  intros Hin Hout. split.
  - intros Hwf k b. rewrite st_ops_deletes. case_decide; [done|apply Hwf].
  - intros h. unfold queued. rewrite st_ops_deletes. split; intros Hp; case_decide as Hd; try done.
    + destruct (Hin h Hp) as [?|Hq]; [done|exact Hq].
    + by apply Hout in Hd.
Qed.

Lemma queue_without_refl m : queue_without m m (λ _, False).
Proof. split; [done|]. intros h. by split. Qed.

Lemma retire_keys st (hs : list Hlc) ks0 ds :
  rfold (retire_one st) (Delete ArrayDelta <$> ks0) hs = Ok ds →
  ∃ ks, ds = Delete ArrayDelta <$> ks ∧ (∀ k, k ∈ ks0 → k ∈ ks) ∧
    (∀ h, h ∈ hs → hlc_to_bytes h ∈ ks ∨ queued (contents st) h = None) ∧
    (∀ k, k ∈ ks → k ∈ ks0 ∨ ∃ h, h ∈ hs ∧ k = hlc_to_bytes h).
Proof.
  revert ks0. induction hs as [|h hs IH]; intros ks0; cbn [rfold].
  - intros [= <-]. exists ks0. split_and!; [done|done|set_solver|by left].
  - unfold retire_one at 1. destruct (se_get _ _ _) as [o|e] eqn:Hg; [|done]. apply get_ok in Hg. cbn [rbind].
    destruct (bool_decide_reflect (o = None)) as [->|Hne].
    + intros (ks & -> & Hs & Hi & Ho)%IH. exists ks. split_and!; [done|done| |set_solver].
      intros h' [->|Hh]%elem_of_cons; [right; unfold queued; by rewrite <-Hg|by apply Hi].
    + change [Delete ArrayDelta (hlc_to_bytes h)] with (Delete ArrayDelta <$> [hlc_to_bytes h]). rewrite <-fmap_app.
      intros (ks & -> & Hs & Hi & Ho)%IH. exists ks. split_and!; [done|set_solver| |].
      * intros h' [->|Hh]%elem_of_cons; [left; apply Hs; set_solver|by apply Hi].
      * intros k [Hk|(h' & Hh' & ->)]%Ho; [|right; set_solver]. apply elem_of_app in Hk as [?|Hk%list_elem_of_singleton]; [by left|right; exists h; set_solver].
Qed.

(** Operations named in a retirement leave, or a failed one leaves them all. *)
Lemma retire_queue_spec st (hs : list Hlc) r st' :
  retire st hs = (r, st') →
  ∃ m1, queue_without (contents st) m1 (λ h, h ∈ hs) ∧ outcome r (contents st) m1 (contents st').
Proof.
  unfold retire. destruct (rfold (retire_one st) [] hs) as [ds|e] eqn:Hr.
  2:{ intros [= <- <-]. exists (st_ops (contents st) (Delete ArrayDelta <$> (hlc_to_bytes <$> hs))). split; [|by left].
      apply deletes_queue; [intros h Hh; left; by apply list_elem_of_fmap_2|]. intros h (h' & Hk & Hh)%list_elem_of_fmap.
      by apply (inj hlc_to_bytes) in Hk as ->. }
  destruct (retire_keys st hs [] ds Hr) as (ks & -> & _ & Hi & Ho).
  intros Hb. exists (st_ops (contents st) (Delete ArrayDelta <$> ks)). split.
  - apply deletes_queue; [done|]. intros h [Hh|(h' & Hh' & Hk)]%Ho; [set_solver|]. by apply (inj hlc_to_bytes) in Hk as ->.
  - destruct (bool_decide_reflect (Delete ArrayDelta <$> ks = [])) as [Hnil|_].
    + injection Hb as <- <-. by rewrite Hnil.
    + destruct (se_batch_write _ _) as [[[]|e] st''] eqn:Hw; injection Hb as <- <-; [by apply batch_ok|by eapply batch_err].
Qed.

Lemma remove_spec st h r st' :
  remove st h = (r, st') →
  ∃ m1, queue_without (contents st) m1 (λ h', h' = h) ∧ outcome r (contents st) m1 (contents st').
Proof.
  assert (queue_without (contents st) (st_delete (contents st) ArrayDelta (hlc_to_bytes h)) (λ h', h' = h)) as Hdel.
  { apply (deletes_queue (contents st) [hlc_to_bytes h]).
    - intros h' ->. left. by left.
    - intros h' Hk%list_elem_of_singleton. by apply (inj hlc_to_bytes) in Hk. }
  unfold remove. destruct (se_get _ _ _) as [o|e] eqn:Hg; [|intros [= <- <-]; eexists; split; [exact Hdel|by left]].
  apply get_ok in Hg. destruct o as [b|].
  - destruct (se_delete _ _ _) as [[[]|e] st''] eqn:Hw; intros [= <- <-]; eexists; (split; [exact Hdel|]); [by apply delete_ok|by eapply delete_err].
  - intros [= <- <-]. exists (contents st). split; [|done]. split; [done|]. intros h'. split; [|done]. intros ->.
    unfold queued. by rewrite <-Hg.
Qed.
End queue.
