(* ===== verification/ArrayWindow.v ===== *)
(** * The window of the array push

    [src/nodedb-lite/src/sync/client/array_push.rs] and
    [src/nodedb-lite/src/sync/array/reject_policy.rs]: what one session has sent, what
    Origin refused, and which operations a pong confirms.  The reasons of a refusal are of
    the crate [nodedb_types]; the class [RejectReasons] gives each its class. *)

From Stdlib Require Import ZArith Lia Strings.Byte.
From stdpp Require Import prelude gmap sorting.
From S2P Require Import Prelude Bytes Ordered StorageTrait ArrayQueue.

Local Open Scope Z_scope.

Inductive ArrayRejectClass := SchemaRequired | CatchUpClass | Permanent | Transient | Reauthenticate.

Class RejectReasons := {
  ArrayRejectReason : Type;
  reason_class : ArrayRejectReason → ArrayRejectClass
}.

Inductive RejectDisposition := ResendSchema | CatchUp | DropOp | Park.

#[global] Instance RejectDisposition_eq_dec : EqDecision RejectDisposition.
Proof. solve_decision. Defined.

Definition ARRAY_PUSH_WINDOW : Z := 256.
(** Milliseconds. *)
Definition ARRAY_BARRIER_TIMEOUT : Z := 30000.
Definition MAX_SCHEMA_ANNOUNCES : Z := 3.
Definition BARRIER_TOKEN_TAG : Z := Z.shiftl 1 63.

Section window.
Context `{HlcOps} `{RejectReasons}.

Definition reject_disposition (reason : ArrayRejectReason) : RejectDisposition :=
  match reason_class reason with
  | SchemaRequired => ResendSchema
  | CatchUpClass => CatchUp
  | Permanent => DropOp
  | Transient | Reauthenticate => Park
  end.

Record ArrayRejectMsg := mkReject {
  rj_array : bytes;
  rj_hlc_bytes : bytes;
  rj_reason : ArrayRejectReason
}.

Inductive TickPlan := TWait | TDrain (after : option Hlc).
Inductive AnnounceStep := AReady | ASend | AGiveUp.

Record WindowOutcome := mkOutcome { wo_confirmed : list Hlc; wo_parked_unattributed : Z }.

Record ArrayPushWindow := mkWindow {
  aw_announced : gmap bytes Hlc;
  aw_announce_count : gmap bytes Z;
  aw_reannounce : gset bytes;
  aw_parked_arrays : gset bytes;
  aw_parked_ops : gset bytes;
  aw_cursor : option Hlc;
  aw_rewind : bool;
  aw_in_flight : list Hlc;
  aw_rejected : gset bytes;
  aw_unattributed : bool;
  aw_barrier : option (Z * Z);
  aw_next_token : Z
}.

Definition window_default : ArrayPushWindow := mkWindow ∅ ∅ ∅ ∅ ∅ None false [] ∅ false None 0.

Definition reset (w : ArrayPushWindow) : ArrayPushWindow :=
  mkWindow ∅ ∅ ∅ ∅ ∅ None false [] ∅ false None (aw_next_token w).

Definition with_cursor (cursor : option Hlc) (rewind : bool) (w : ArrayPushWindow) : ArrayPushWindow :=
  mkWindow (aw_announced w) (aw_announce_count w) (aw_reannounce w) (aw_parked_arrays w) (aw_parked_ops w) cursor rewind
    (aw_in_flight w) (aw_rejected w) (aw_unattributed w) (aw_barrier w) (aw_next_token w).
Definition with_parked (arrays : gset bytes) (ops : gset bytes) (w : ArrayPushWindow) : ArrayPushWindow :=
  mkWindow (aw_announced w) (aw_announce_count w) (aw_reannounce w) arrays ops (aw_cursor w) (aw_rewind w)
    (aw_in_flight w) (aw_rejected w) (aw_unattributed w) (aw_barrier w) (aw_next_token w).
Definition with_announce (announced : gmap bytes Hlc) (count : gmap bytes Z) (reannounce : gset bytes)
    (w : ArrayPushWindow) : ArrayPushWindow :=
  mkWindow announced count reannounce (aw_parked_arrays w) (aw_parked_ops w) (aw_cursor w) (aw_rewind w)
    (aw_in_flight w) (aw_rejected w) (aw_unattributed w) (aw_barrier w) (aw_next_token w).
(** What is known of the open window. *)
Definition with_open (in_flight : list Hlc) (rejected : gset bytes) (unattributed : bool) (barrier : option (Z * Z))
    (w : ArrayPushWindow) : ArrayPushWindow :=
  mkWindow (aw_announced w) (aw_announce_count w) (aw_reannounce w) (aw_parked_arrays w) (aw_parked_ops w) (aw_cursor w)
    (aw_rewind w) in_flight rejected unattributed barrier (aw_next_token w).
Definition with_token (token : Z) (w : ArrayPushWindow) : ArrayPushWindow :=
  mkWindow (aw_announced w) (aw_announce_count w) (aw_reannounce w) (aw_parked_arrays w) (aw_parked_ops w) (aw_cursor w)
    (aw_rewind w) (aw_in_flight w) (aw_rejected w) (aw_unattributed w) (aw_barrier w) token.

Definition abandon_window (w : ArrayPushWindow) : ArrayPushWindow :=
  with_cursor None false (with_open [] ∅ false None w).

(** [Instant::duration_since] is zero for an earlier instant. *)
Definition begin_tick (now : Z) (w : ArrayPushWindow) : TickPlan * ArrayPushWindow :=
  match aw_barrier w with
  | Some (_, sent_at) =>
      if Z.max 0 (now - sent_at) <? ARRAY_BARRIER_TIMEOUT then (TWait, w)
      else let w := abandon_window w in (TDrain (aw_cursor w), w)
  | None => (TDrain (aw_cursor w), w)
  end.

Definition is_held (w : ArrayPushWindow) (op : PendingArrayOp) : bool :=
  bool_decide (pa_array op ∈ aw_parked_arrays w) || bool_decide (hlc_to_bytes (pa_hlc op) ∈ aw_parked_ops w).

Definition advance (hlc : Hlc) (w : ArrayPushWindow) : ArrayPushWindow :=
  if match aw_cursor w with None => true | Some cursor => bool_decide (hlc_cmp hlc cursor = Gt) end
  then with_cursor (Some hlc) (aw_rewind w) w else w.

Definition announce_step (array : bytes) (w : ArrayPushWindow) : AnnounceStep * ArrayPushWindow :=
  if bool_decide (array ∈ aw_parked_arrays w) then (AGiveUp, w)
  else if bool_decide (is_Some (aw_announced w !! array)) && negb (bool_decide (array ∈ aw_reannounce w)) then (AReady, w)
  else
    let sent := default 0 (aw_announce_count w !! array) in
    if MAX_SCHEMA_ANNOUNCES <=? sent then (AGiveUp, with_parked ({[array]} ∪ aw_parked_arrays w) (aw_parked_ops w) w)
    else (ASend, w).

Definition record_announced (array : bytes) (schema_hlc : Hlc) (w : ArrayPushWindow) : ArrayPushWindow :=
  with_announce (<[array := schema_hlc]> (aw_announced w))
    (<[array := default 0 (aw_announce_count w !! array) + 1]> (aw_announce_count w)) (aw_reannounce w ∖ {[array]}) w.

Definition park_array (array : bytes) (w : ArrayPushWindow) : ArrayPushWindow :=
  with_parked ({[array]} ∪ aw_parked_arrays w) (aw_parked_ops w) w.

Definition request_rewind (w : ArrayPushWindow) : ArrayPushWindow := with_cursor (aw_cursor w) true w.

Definition record_sent (hlc : Hlc) (w : ArrayPushWindow) : ArrayPushWindow :=
  with_open (aw_in_flight w ++ [hlc]) (aw_rejected w) (aw_unattributed w) (aw_barrier w) w.

Definition has_in_flight (w : ArrayPushWindow) : bool := negb (bool_decide (aw_in_flight w = [])).

Definition open_barrier (now : Z) (w : ArrayPushWindow) : Z * ArrayPushWindow :=
  let token := Z.lor BARRIER_TOKEN_TAG (Z.land (aw_next_token w) (Z.lxor BARRIER_TOKEN_TAG (2 ^ 64 - 1))) in
  let w := with_token ((aw_next_token w + 1) mod 2 ^ 64) w in
  (token, with_open (aw_in_flight w) (aw_rejected w) (aw_unattributed w) (Some (token, now)) w).

Definition finish_idle_tick (w : ArrayPushWindow) : ArrayPushWindow :=
  if bool_decide (aw_barrier w = None) && aw_rewind w then with_cursor None false w else w.

Definition record_reject (msg : ArrayRejectMsg) (w : ArrayPushWindow) : ArrayPushWindow :=
  let disposition := reject_disposition (rj_reason msg) in
  if bool_decide (disposition = CatchUp) then w
  else
    let key := rj_hlc_bytes msg in
    if bool_decide (key = hlc_to_bytes HLC_ZERO) then
      if has_in_flight w then with_open (aw_in_flight w) (aw_rejected w) true (aw_barrier w) w else w
    else if bool_decide (hlc_to_bytes <$> (aw_announced w !! rj_array msg) = Some key) then
      park_array (rj_array msg) w
    else
      let w := with_open (aw_in_flight w) ({[key]} ∪ aw_rejected w) (aw_unattributed w) (aw_barrier w) w in
      match disposition with
      | ResendSchema =>
          if bool_decide (rj_array msg ∈ aw_parked_arrays w) then w
          else with_cursor (aw_cursor w) true
                 (with_announce (aw_announced w) (aw_announce_count w) ({[rj_array msg]} ∪ aw_reannounce w) w)
      | Park => with_parked (aw_parked_arrays w) ({[key]} ∪ aw_parked_ops w) w
      | DropOp | CatchUp => w
      end.

Definition complete_barrier (token : Z) (w : ArrayPushWindow) : option WindowOutcome * ArrayPushWindow :=
  match aw_barrier w with
  | None => (None, w)
  | Some (open_token, _) =>
      if bool_decide (open_token = token) then
        let in_flight := aw_in_flight w in
        let '(outcome, w) :=
          if aw_unattributed w then
            (mkOutcome [] (Z.of_nat (length in_flight)),
             with_parked (aw_parked_arrays w) (aw_parked_ops w ∪ list_to_set (hlc_to_bytes <$> in_flight)) w)
          else
            (mkOutcome (filter (λ hlc, hlc_to_bytes hlc ∉ aw_rejected w) in_flight) 0, w) in
        let w := with_open [] ∅ false None w in
        (Some outcome, if aw_rewind w then with_cursor None false w else w)
      else (None, w)
  end.
End window.
