(* ===== verification/ArrayPush.v ===== *)
(** * Pushing array operations to Origin

    [src/nodedb-lite/src/sync/transport/push/array.rs],
    [src/nodedb-lite/src/sync/transport/dispatch_array.rs], the reject handler of
    [src/nodedb-lite/src/sync/array/inbound/reject.rs] and the delegate functions of
    [src/nodedb-lite/src/nodedb/sync_delegate/array.rs] they call.  The push loop and the
    receive loop are two tasks that share the window and the queue: a step is what a task
    does between two points where it can be suspended, a call of the queue being one step.
    Origin handles the frames of a session in order, answers a refused frame with a reject
    and a ping with a pong; its frames decode.  A client opens fewer than 2^63 windows. *)

From Stdlib Require Import ZArith Lia Strings.Byte.
From stdpp Require Import prelude gmap sorting.
From S2P Require Import Prelude Bytes Ordered StorageTrait ArrayQueue ArrayWindow.

Local Open Scope Z_scope.

Section push.
Context `{AC : ArrayCodec} `{RR : RejectReasons} {S : Type} `{StorageEngine S}.

(** ** What the tasks do *)

Definition select_one (c : list PendingArrayOp * ArrayPushWindow) (op : PendingArrayOp)
    : list PendingArrayOp * ArrayPushWindow :=
  let w := advance (pa_hlc op) c.2 in
  (if is_held w op then c.1 else c.1 ++ [op], w).

Definition select_sendable (w : ArrayPushWindow) (scanned : list PendingArrayOp) : list PendingArrayOp * ArrayPushWindow :=
  foldl select_one ([], w) scanned.

(** The arrays of the operations, in the order they first appear. *)
Definition seen_arrays (ops : list PendingArrayOp) : list bytes :=
  foldl (λ seen op, if bool_decide (pa_array op ∈ seen) then seen else seen ++ [pa_array op]) [] ops.

Definition persist_array_op_seq (st : S) (op : PendingArrayOp) : res unit * S :=
  match set_seq st (pa_hlc op) (pa_seq op) with
  | (Err e, st) => (Err e, st)
  | (Ok true, st) => (Ok tt, st)
  | (Ok false, st) => (Err Storage, st)
  end.

Definition with_seq (op : PendingArrayOp) (seq : Z) : PendingArrayOp :=
  mkPending (pa_array op) (pa_hlc op) (pa_payload op) seq.

Inductive UpFrame := UDelta (op : PendingArrayOp) | USchema (array : bytes) (schema_hlc : Hlc) | UPing (token : Z).
Inductive DownFrame := DReject (msg : ArrayRejectMsg) | DPong (token : Z).

(** Where the push loop is: between ticks, stopped until the next connection, or within
    a tick. *)
Inductive PushPc :=
| PIdle
| PBroken
| PScan (after : option Hlc)
| PSelect (scanned : list PendingArrayOp)
| PAnnounce (todo ready : list bytes) (ops : list PendingArrayOp)
| PSchema (array : bytes) (todo ready : list bytes) (ops : list PendingArrayOp)
| PSchemaSend (array : bytes) (schema_hlc : Hlc) (todo ready : list bytes) (ops : list PendingArrayOp)
| PSend (ready : list bytes) (ops : list PendingArrayOp)
| PPersist (op : PendingArrayOp) (ready : list bytes) (ops : list PendingArrayOp)
| PDelta (op : PendingArrayOp) (ready : list bytes) (ops : list PendingArrayOp)
| PDeltaSend (op : PendingArrayOp) (ready : list bytes) (ops : list PendingArrayOp)
| PPing (token : Z).

(** Where the receive loop is. *)
Inductive RxPhase := RxIdle | RxRemove (hlc : Hlc) | RxRetire (hlcs : list Hlc).

Definition after_reject (msg : ArrayRejectMsg) : RxPhase :=
  if bool_decide (reject_disposition (rj_reason msg) = DropOp) then RxRemove (hlc_from_bytes (rj_hlc_bytes msg)) else RxIdle.

Definition after_pong (outcome : option WindowOutcome) : RxPhase :=
  match outcome with
  | Some o => if bool_decide (wo_confirmed o = []) then RxIdle else RxRetire (wo_confirmed o)
  | None => RxIdle
  end.

(** What happened: clocks minted, operations whose emission succeeded, clocks of schemas
    announced, and what became of operations. *)
Record Ghost := mkGhost {
  g_minted : gset Hlc;
  g_emitted : gset Hlc;
  g_schemas : gset Hlc;
  g_applied : gset Hlc;
  g_refused : gset Hlc;
  g_unsendable : gset Hlc;
  g_sent : list (Hlc * Z);
  g_lost : list PendingArrayOp
}.

Definition g_mint (h : Hlc) (ok : bool) (g : Ghost) : Ghost :=
  mkGhost ({[h]} ∪ g_minted g) (if ok then {[h]} ∪ g_emitted g else g_emitted g) (g_schemas g) (g_applied g) (g_refused g)
    (g_unsendable g) (g_sent g) (g_lost g).
Definition g_schema (h : Hlc) (g : Ghost) : Ghost :=
  mkGhost (g_minted g) (g_emitted g) ({[h]} ∪ g_schemas g) (g_applied g) (g_refused g) (g_unsendable g) (g_sent g) (g_lost g).
Definition g_apply (h : Hlc) (g : Ghost) : Ghost :=
  mkGhost (g_minted g) (g_emitted g) (g_schemas g) ({[h]} ∪ g_applied g) (g_refused g) (g_unsendable g) (g_sent g) (g_lost g).
Definition g_refuse (h : Hlc) (g : Ghost) : Ghost :=
  mkGhost (g_minted g) (g_emitted g) (g_schemas g) (g_applied g) ({[h]} ∪ g_refused g) (g_unsendable g) (g_sent g) (g_lost g).
Definition g_unsend (h : Hlc) (g : Ghost) : Ghost :=
  mkGhost (g_minted g) (g_emitted g) (g_schemas g) (g_applied g) (g_refused g) ({[h]} ∪ g_unsendable g) (g_sent g) (g_lost g).
Definition g_send (op : PendingArrayOp) (g : Ghost) : Ghost :=
  mkGhost (g_minted g) (g_emitted g) (g_schemas g) (g_applied g) (g_refused g) (g_unsendable g)
    (g_sent g ++ [(pa_hlc op, pa_seq op)]) (g_lost g).
Definition g_lose (up : list UpFrame) (g : Ghost) : Ghost :=
  mkGhost (g_minted g) (g_emitted g) (g_schemas g) (g_applied g) (g_refused g) (g_unsendable g) (g_sent g)
    (g_lost g ++ omap (λ f, match f with UDelta op => Some op | _ => None end) up).

Record Client := mkClient { cl_st : S; cl_win : ArrayPushWindow; cl_pc : PushPc; cl_rx : RxPhase }.
Record Sys := mkSys { y_client : Client; y_up : list UpFrame; y_down : list DownFrame; y_ghost : Ghost }.

(** ** The push loop *)

(** A step of the push loop, the frame it sends and what is recorded of it.  The schema of
    an array, its stream number and whether a frame encodes are answers of other parts. *)
Inductive push_step : Client → Client → option UpFrame → (Ghost → Ghost) → Prop :=
| ps_wait now st w w' rx :
    begin_tick now w = (TWait, w') → push_step (mkClient st w PIdle rx) (mkClient st w' PIdle rx) None id
| ps_begin now st w after w' rx :
    begin_tick now w = (TDrain after, w') →
    push_step (mkClient st w PIdle rx) (mkClient st w' (PScan after) rx) None id
| ps_scan_failed st w after rx e :
    scan_after st after ARRAY_PUSH_WINDOW = Err e →
    push_step (mkClient st w (PScan after) rx) (mkClient st w PIdle rx) None id
| ps_scan st w after rx scanned :
    scan_after st after ARRAY_PUSH_WINDOW = Ok scanned →
    push_step (mkClient st w (PScan after) rx) (mkClient st w (PSelect scanned) rx) None id
| ps_select st w scanned rx ops w' :
    select_sendable w scanned = (ops, w') →
    push_step (mkClient st w (PSelect scanned) rx) (mkClient st w' (PAnnounce (seen_arrays ops) [] ops) rx) None id
| ps_announce st w array todo ready ops rx step w' :
    announce_step array w = (step, w') →
    push_step (mkClient st w (PAnnounce (array :: todo) ready ops) rx)
      (mkClient st w' match step with
                      | AReady => PAnnounce todo (ready ++ [array]) ops
                      | AGiveUp => PAnnounce todo ready ops
                      | ASend => PSchema array todo ready ops
                      end rx) None id
| ps_schema_missing st w array todo ready ops rx :
    push_step (mkClient st w (PSchema array todo ready ops) rx)
      (mkClient st (park_array array w) (PAnnounce todo ready ops) rx) None id
| ps_schema_failed st w array todo ready ops rx :
    push_step (mkClient st w (PSchema array todo ready ops) rx)
      (mkClient st (request_rewind w) (PAnnounce todo ready ops) rx) None id
| ps_schema st w array schema_hlc todo ready ops rx :
    push_step (mkClient st w (PSchema array todo ready ops) rx)
      (mkClient st (record_announced array schema_hlc w) (PSchemaSend array schema_hlc todo ready ops) rx) None (g_schema schema_hlc)
| ps_schema_send st w array schema_hlc todo ready ops rx :
    push_step (mkClient st w (PSchemaSend array schema_hlc todo ready ops) rx)
      (mkClient st w (PAnnounce todo (ready ++ [array]) ops) rx) (Some (USchema array schema_hlc)) id
| ps_schema_broken st w array schema_hlc todo ready ops rx :
    push_step (mkClient st w (PSchemaSend array schema_hlc todo ready ops) rx) (mkClient st w PBroken rx) None id
| ps_announced st w ready ops rx :
    push_step (mkClient st w (PAnnounce [] ready ops) rx) (mkClient st w (PSend ready ops) rx) None id
| ps_skip st w op ready ops rx :
    pa_array op ∉ ready →
    push_step (mkClient st w (PSend ready (op :: ops)) rx) (mkClient st w (PSend ready ops) rx) None id
| ps_numbered st w op ready ops rx :
    pa_array op ∈ ready → pa_seq op ≠ 0 →
    push_step (mkClient st w (PSend ready (op :: ops)) rx) (mkClient st w (PDelta op ready ops) rx) None id
| ps_number st w op seq ready ops rx :
    pa_array op ∈ ready → pa_seq op = 0 →
    push_step (mkClient st w (PSend ready (op :: ops)) rx) (mkClient st w (PPersist (with_seq op seq) ready ops) rx) None id
| ps_persist st w op ready ops rx st' :
    persist_array_op_seq st op = (Ok tt, st') →
    push_step (mkClient st w (PPersist op ready ops) rx) (mkClient st' w (PDelta op ready ops) rx) None id
| ps_persist_failed st w op ready ops rx e st' :
    persist_array_op_seq st op = (Err e, st') →
    push_step (mkClient st w (PPersist op ready ops) rx) (mkClient st' (request_rewind w) (PSend ready ops) rx) None id
| ps_unencodable st w op ready ops rx r st' :
    retire st [pa_hlc op] = (r, st') →
    push_step (mkClient st w (PDelta op ready ops) rx) (mkClient st' w (PSend ready ops) rx) None (g_unsend (pa_hlc op))
| ps_record st w op ready ops rx :
    push_step (mkClient st w (PDelta op ready ops) rx)
      (mkClient st (record_sent (pa_hlc op) w) (PDeltaSend op ready ops) rx) None (g_send op)
| ps_send st w op ready ops rx :
    push_step (mkClient st w (PDeltaSend op ready ops) rx) (mkClient st w (PSend ready ops) rx) (Some (UDelta op)) id
| ps_send_broken st w op ready ops rx (delivered : bool) :
    push_step (mkClient st w (PDeltaSend op ready ops) rx) (mkClient st w PBroken rx)
      (if delivered then Some (UDelta op) else None) id
| ps_idle st w ready rx :
    has_in_flight w = false →
    push_step (mkClient st w (PSend ready []) rx) (mkClient st (finish_idle_tick w) PIdle rx) None id
| ps_open now st w ready rx token w' :
    has_in_flight w = true → aw_next_token w < 2 ^ 63 → open_barrier now w = (token, w') →
    push_step (mkClient st w (PSend ready []) rx) (mkClient st w' (PPing token) rx) None id
| ps_ping st w token rx :
    push_step (mkClient st w (PPing token) rx) (mkClient st w PIdle rx) (Some (UPing token)) id
| ps_ping_unencodable st w token rx :
    push_step (mkClient st w (PPing token) rx) (mkClient st (abandon_window w) PIdle rx) None id
| ps_ping_broken st w token rx (delivered : bool) :
    push_step (mkClient st w (PPing token) rx) (mkClient st w PBroken rx) (if delivered then Some (UPing token) else None) id.

(** ** The receive loop *)

Inductive receive_step : Client → list DownFrame → Client → list DownFrame → Prop :=
| rs_reject st w pc msg down :
    receive_step (mkClient st w pc RxIdle) (DReject msg :: down) (mkClient st (record_reject msg w) pc (after_reject msg)) down
| rs_remove st w pc h down r st' :
    remove st h = (r, st') →
    receive_step (mkClient st w pc (RxRemove h)) down (mkClient st' w pc RxIdle) down
| rs_pong st w pc token down outcome w' :
    complete_barrier token w = (outcome, w') →
    receive_step (mkClient st w pc RxIdle) (DPong token :: down) (mkClient st w' pc (after_pong outcome)) down
| rs_retire st w pc hs down r st' :
    retire st hs = (r, st') →
    receive_step (mkClient st w pc (RxRetire hs)) down (mkClient st' w pc RxIdle) down.

(** ** Origin *)

(** The refusal of a frame sent under a clock names it, or nothing when the frame did not
    decode; a catch-up reject answers another request. *)
Definition refusal_of (h : Hlc) (msg : ArrayRejectMsg) : Prop :=
  reason_class (rj_reason msg) ≠ CatchUpClass ∧ (rj_hlc_bytes msg = hlc_to_bytes h ∨ rj_hlc_bytes msg = hlc_to_bytes HLC_ZERO).

(** A refusal for good that names the operation. *)
Definition refused_for_good (h : Hlc) (msg : ArrayRejectMsg) : bool :=
  bool_decide (reject_disposition (rj_reason msg) = DropOp) && bool_decide (rj_hlc_bytes msg = hlc_to_bytes h).

Inductive origin_step : UpFrame → option DownFrame → (Ghost → Ghost) → Prop :=
| os_apply op : origin_step (UDelta op) None (g_apply (pa_hlc op))
| os_refuse op msg :
    refusal_of (pa_hlc op) msg →
    origin_step (UDelta op) (Some (DReject msg)) (if refused_for_good (pa_hlc op) msg then g_refuse (pa_hlc op) else id)
| os_schema array h : origin_step (USchema array h) None id
| os_schema_refuse array h msg : refusal_of h msg → origin_step (USchema array h) (Some (DReject msg)) id
| os_ping token : origin_step (UPing token) (Some (DPong token)) id.

(** ** The system *)

Inductive sys_step : Sys → Sys → Prop :=
| ss_emit cap st w pc rx up down g op r st' :
    op_hlc op ∉ g_minted g → op_hlc op ∉ g_schemas g → op_hlc op ≠ HLC_ZERO → enqueue cap st op = (r, st') →
    sys_step (mkSys (mkClient st w pc rx) up down g)
      (mkSys (mkClient st' w pc rx) up down (g_mint (op_hlc op) match r with Ok _ => true | Err _ => false end g))
| ss_push c c' frame f up down g :
    push_step c c' frame f → (∀ h, h ∈ g_schemas (f g) → h ∉ g_minted g) →
    sys_step (mkSys c up down g) (mkSys c' (up ++ option_list frame) down (f g))
| ss_receive c c' up down down' g :
    receive_step c down c' down' → sys_step (mkSys c up down g) (mkSys c' up down' g)
| ss_origin c frame up down g answer f :
    origin_step frame answer f →
    sys_step (mkSys c (frame :: up) down g) (mkSys c up (down ++ option_list answer) (f g))
| ss_other_reject c up down g msg :
    reason_class (rj_reason msg) = CatchUpClass → sys_step (mkSys c up down g) (mkSys c up (down ++ [DReject msg]) g)
| ss_other_pong c up down g time :
    0 ≤ time < 2 ^ 63 → sys_step (mkSys c up down g) (mkSys c up (down ++ [DPong time]) g)
| ss_late c up down g op : op ∈ g_lost g → sys_step (mkSys c up down g) (mkSys c up down (g_apply (pa_hlc op) g))
| ss_reconnect st w pc rx up down g (restart : bool) :
    sys_step (mkSys (mkClient st w pc rx) up down g)
      (mkSys (mkClient st (if restart then window_default else reset w) PIdle RxIdle) [] [] (g_lose up g)).
End push.
