(* ===== verification/ArrayDelivery.v ===== *)
(** * Array operations are not lost

    In every interleaving of emissions, push ticks, refusals, pongs, timeouts, lost
    connections and restarts, an operation leaves the queue only once Origin applied or
    refused it, or no frame can carry it. *)

From Stdlib Require Import ZArith Lia Strings.Byte.
From stdpp Require Import prelude gmap sorting.
From S2P Require Import Prelude Bytes Ordered StorageTrait ArrayQueue ArrayWindow ArrayPush.

Local Open Scope Z_scope.

Section delivery.
Context `{AC : ArrayCodec} `{RR : RejectReasons} {S : Type} `{StorageLaws S}.
Implicit Types (w : ArrayPushWindow) (g : Ghost) (h : Hlc) (m : Store) (pc : PushPc).

(** ** The stream

    What Origin answered and the client has not read, then what the client sent and
    Origin has not read.  Origin's step replaces an item where it stands. *)

Inductive Item := IDown (f : DownFrame) | IUp (f : UpFrame).

Definition stream (up : list UpFrame) (down : list DownFrame) : list Item := (IDown <$> down) ++ (IUp <$> up).

(** The items that settle an operation of the window, or will. *)
Definition covers h (i : Item) : Prop :=
  match i with
  | IDown (DReject msg) => refusal_of h msg
  | IUp (UDelta op) => pa_hlc op = h
  | _ => False
  end.

Definition token_of (i : Item) : option Z :=
  match i with IDown (DPong t) | IUp (UPing t) => Some t | _ => None end.

(** The ping of the open window, or its answer. *)
Definition hits (o : option Z) (i : Item) : bool := bool_decide (is_Some o ∧ token_of i = o).

(** The items read before the answer that closes the window: all, when no ping is out. *)
Fixpoint before (o : option Z) (l : list Item) : list Item :=
  match l with
  | [] => []
  | i :: l => if hits o i then [] else i :: before o l
  end.

Definition settled w g h : Prop := h ∈ g_applied g ∨ hlc_to_bytes h ∈ aw_rejected w ∨ aw_unattributed w = true.
Definition covered w g h (l : list Item) : Prop := settled w g h ∨ ∃ i, i ∈ l ∧ covers h i.

Lemma hits_none i : hits None i = false.
Proof. unfold hits. apply bool_decide_false. intros [[? ?] _]. done. Qed.
Lemma hits_no o i : token_of i = None → hits o i = false.
Proof. intros Hi. unfold hits. apply bool_decide_false. rewrite Hi. intros [[t ->] ?]. done. Qed.
Lemma hits_token o i j : token_of i = token_of j → hits o i = hits o j.
Proof. unfold hits. by intros ->. Qed.
Lemma covers_no h i o : covers h i → hits o i = false.
Proof. intros Hi. apply hits_no. by destruct i as [[]|[]]. Qed.

Lemma before_app_no o l l' : (∀ i, i ∈ l → hits o i = false) → before o (l ++ l') = l ++ before o l'.
Proof.
  induction l as [|i l IH]; intros Hl; [done|]. cbn [app before]. rewrite (Hl i) by (by left).
  f_equal. apply IH. intros j Hj. apply Hl. by right.
Qed.

Lemma before_none l : before None l = l.
Proof. induction l as [|i l IH]; [done|]. cbn [before]. by rewrite hits_none, IH. Qed.

Lemma before_fresh t l : (∀ i, i ∈ l → token_of i ≠ Some t) → before (Some t) l = l.
Proof.
  intros Hl. rewrite <-(app_nil_r l) at 1. rewrite before_app_no; [cbn; by rewrite app_nil_r|].
  intros i Hi. unfold hits. apply bool_decide_false. intros [_ ?]. by apply (Hl i).
Qed.

Lemma before_cons o x l : hits o x = false → before o (x :: l) = x :: before o l.
Proof. intros Hx. cbn [before]. by rewrite Hx. Qed.

Lemma before_end o l l' i : i ∈ before o l → i ∈ before o (l ++ l').
Proof.
  intros Hi. induction l as [|j l IH]; cbn [app before] in *; [by apply elem_of_nil in Hi|].
  destruct (hits o j); [done|]. apply elem_of_cons in Hi as [->|Hi]; [by left|right; auto].
Qed.

Lemma before_insert o l1 l2 i x : hits o x = false → i ∈ before o (l1 ++ l2) → i ∈ before o (l1 ++ x :: l2).
Proof.
  intros Hx. induction l1 as [|j l1 IH]; cbn [app before]; [rewrite Hx; by right|].
  destruct (hits o j); [done|]. intros [->|Hi]%elem_of_cons; [by left|right; auto].
Qed.

(** Replacing an item keeps what else comes before the answer. *)
Lemma before_replace o l1 x ys l2 i :
  (∀ y, y ∈ ys → token_of y = token_of x) →
  i ∈ before o (l1 ++ x :: l2) → i = x ∨ i ∈ before o (l1 ++ ys ++ l2).
Proof.
  intros Hys. induction l1 as [|j l1 IH]; cbn [app before].
  - destruct (hits o x) eqn:Hx; [by intros ?%elem_of_nil|]. intros [->|Hi]%elem_of_cons; [by left|right].
    rewrite before_app_no by (intros y Hy; rewrite <-Hx; by apply hits_token, Hys). apply elem_of_app. by right.
  - destruct (hits o j); [by intros ?%elem_of_nil|]. intros [->|Hi]%elem_of_cons; [right; by left|].
    destruct (IH Hi); [by left|right; by right].
Qed.

Lemma before_at o l1 x y l2 :
  x ∉ l1 → hits o y = false → x ∈ before o (l1 ++ x :: l2) → y ∈ before o (l1 ++ y :: l2).
Proof.
  intros Hx Hy. induction l1 as [|j l1 IH]; cbn [app before].
  - intros _. rewrite Hy. by left.
  - destruct (hits o j); [by intros ?%elem_of_nil|]. intros [->|Hi]%elem_of_cons; [set_solver|right; apply IH; set_solver].
Qed.

Lemma stream_end up down f : stream (up ++ option_list f) down = stream up down ++ (IUp <$> option_list f).
Proof. unfold stream. by rewrite fmap_app, app_assoc. Qed.

(** Origin's step, seen in the stream. *)
Lemma stream_cons up down f : stream (f :: up) down = (IDown <$> down) ++ IUp f :: (IUp <$> up).
Proof. done. Qed.
Lemma stream_answer up down answer :
  stream up (down ++ answer) = (IDown <$> down) ++ (IDown <$> answer) ++ (IUp <$> up).
Proof. unfold stream. by rewrite fmap_app, <-app_assoc. Qed.
Lemma up_not_down f (down : list DownFrame) : IUp f ∉ (IDown <$> down).
Proof. intros (? & ? & _)%list_elem_of_fmap. done. Qed.

(** ** Local operations *)

Definition pc_ops pc : list PendingArrayOp :=
  match pc with
  | PSelect ops | PAnnounce _ _ ops | PSchema _ _ _ ops | PSchemaSend _ _ _ _ ops | PSend _ ops => ops
  | PPersist op _ ops | PDelta op _ ops | PDeltaSend op _ ops => op :: ops
  | PIdle | PBroken | PScan _ | PPing _ => []
  end.

(** An operation recorded as sent whose frame is not out. *)
Definition unsent pc h : Prop :=
  match pc with PDeltaSend op _ _ => pa_hlc op = h | PBroken => True | _ => False end.

(** ** The invariant *)

Definition delivered g h : Prop := h ∈ g_applied g ∨ h ∈ g_refused g ∨ h ∈ g_unsendable g.

Record queue_inv m g : Prop := {
  qi_wf : queue_wf m;
  qi_queued h : is_Some (queued m h) → h ∈ g_minted g;
  qi_emitted h : h ∈ g_emitted g → is_Some (queued m h) ∨ delivered g h;
  qi_minted : g_emitted g ⊆ g_minted g;
  qi_apart h : h ∈ g_minted g → h ∉ g_schemas g ∧ h ≠ HLC_ZERO
}.

(** A refusal for good names an operation Origin refused, a schema, or nothing. *)
Definition drop_ok g h : Prop := h = HLC_ZERO ∨ h ∈ g_refused g ∨ h ∈ g_schemas g.

Definition down_ok g (f : DownFrame) : Prop :=
  match f with
  | DReject msg => reject_disposition (rj_reason msg) = DropOp → drop_ok g (hlc_from_bytes (rj_hlc_bytes msg))
  | DPong _ => True
  end.
Definition up_ok g (f : UpFrame) : Prop := match f with USchema _ h => h ∈ g_schemas g | _ => True end.

Definition rx_ok g (rx : RxPhase) : Prop :=
  match rx with
  | RxIdle => True
  | RxRemove h => drop_ok g h
  | RxRetire hs => ∀ h, h ∈ hs → h ∈ g_applied g
  end.

Definition pc_ok g pc : Prop :=
  (∀ op, op ∈ pc_ops pc → pa_hlc op ∈ g_minted g) ∧
  match pc with PSchemaSend _ h _ _ _ => h ∈ g_schemas g | _ => True end.

Record win_ok w g : Prop := {
  wk_flight h : h ∈ aw_in_flight w → h ∈ g_minted g;
  wk_announced a h : aw_announced w !! a = Some h → h ∈ g_schemas g
}.

Definition below w (t : Z) : Prop := t < 2 ^ 63 + aw_next_token w.

Record tokens_ok w pc (l : list Item) : Prop := {
  tk_next : 0 ≤ aw_next_token w ≤ 2 ^ 63;
  tk_items i t : i ∈ l → token_of i = Some t → below w t;
  tk_ping t : pc = PPing t → below w t;
  tk_open t : fst <$> aw_barrier w = Some t → (pc = PIdle ∨ pc = PBroken ∨ pc = PPing t) ∧ 2 ^ 63 ≤ t
}.

Definition cover_ok w g pc (l : list Item) : Prop :=
  ∀ h, h ∈ aw_in_flight w →
    covered w g h (before (fst <$> aw_barrier w) l) ∨ (aw_barrier w = None ∧ unsent pc h).

Record sys_inv (y : Sys (S:=S)) : Prop := {
  iv_queue : queue_inv (contents (cl_st (y_client y))) (y_ghost y);
  iv_pc : pc_ok (y_ghost y) (cl_pc (y_client y));
  iv_rx : rx_ok (y_ghost y) (cl_rx (y_client y));
  iv_win : win_ok (cl_win (y_client y)) (y_ghost y);
  iv_up f : f ∈ y_up y → up_ok (y_ghost y) f;
  iv_down f : f ∈ y_down y → down_ok (y_ghost y) f;
  iv_tokens : tokens_ok (cl_win (y_client y)) (cl_pc (y_client y)) (stream (y_up y) (y_down y));
  iv_cover : cover_ok (cl_win (y_client y)) (y_ghost y) (cl_pc (y_client y)) (stream (y_up y) (y_down y))
}.

(** ** The parts of the invariant *)

(** What is recorded only grows. *)
Record grows g g' : Prop := {
  gr_minted : g_minted g ⊆ g_minted g';
  gr_schemas : g_schemas g ⊆ g_schemas g';
  gr_applied : g_applied g ⊆ g_applied g';
  gr_refused : g_refused g ⊆ g_refused g'
}.

Lemma drop_ok_grows g g' h : grows g g' → drop_ok g h → drop_ok g' h.
Proof. intros []. unfold drop_ok. set_solver. Qed.
Lemma down_ok_grows g g' f : grows g g' → down_ok g f → down_ok g' f.
Proof. intros Hg. destruct f; [|done]. intros Hd Hr. eapply drop_ok_grows; [done|by apply Hd]. Qed.
Lemma up_ok_grows g g' f : grows g g' → up_ok g f → up_ok g' f.
Proof. intros []. destruct f; set_solver. Qed.
Lemma rx_ok_grows g g' rx : grows g g' → rx_ok g rx → rx_ok g' rx.
Proof. intros Hg. destruct rx; [done|by apply drop_ok_grows|]. destruct Hg. set_solver. Qed.
Lemma pc_ok_grows g g' pc : grows g g' → pc_ok g pc → pc_ok g' pc.
Proof. intros [] [Ho Hs]. split; [set_solver|]. destruct pc; set_solver. Qed.
Lemma win_ok_grows w g g' : grows g g' → win_ok w g → win_ok w g'.
Proof. intros [] [Hf Ha]. split; [set_solver|]. intros a h Hh. by eapply gr_schemas0, Ha. Qed.
Lemma covered_grows w g g' h l : grows g g' → covered w g h l → covered w g' h l.
Proof. intros [] [[?|[?|?]]|?]; [left; left; set_solver|left; right; by left|left; by do 2 right|by right]. Qed.
Lemma cover_ok_grows w g g' pc l : grows g g' → cover_ok w g pc l → cover_ok w g' pc l.
Proof. intros Hg Hc h Hh. destruct (Hc h Hh) as [?|?]; [left; by eapply covered_grows|by right]. Qed.

Lemma grows_refl g : grows g g.
Proof. done. Qed.
Lemma grows_ghost g :
  (∀ h ok, grows g (g_mint h ok g)) ∧ (∀ h, grows g (g_schema h g)) ∧ (∀ h, grows g (g_apply h g)) ∧
  (∀ h, grows g (g_refuse h g)) ∧ (∀ h, grows g (g_unsend h g)) ∧ (∀ op, grows g (g_send op g)) ∧ (∀ up, grows g (g_lose up g)).
Proof. split_and!; intros; split; cbn; set_solver. Qed.

(** *** The queue *)

Lemma queue_inv_outcome {A} (r : res A) m0 m1 m g :
  outcome r m0 m1 m → queue_inv m0 g → queue_inv m1 g → queue_inv m g.
Proof.
  intros Ho Hq0 Hq1. assert (m ≡ m0 ∨ m ≡ m1) as [Hm|Hm] by (destruct r; [by right|done]).
  - destruct Hq0 as [Hw Hq He ? ?]. split; [by eapply queue_wf_equiv| |..|done|done]; intros h; rewrite (queued_equiv _ _ h Hm); eauto.
  - destruct Hq1 as [Hw Hq He ? ?]. split; [by eapply queue_wf_equiv| |..|done|done]; intros h; rewrite (queued_equiv _ _ h Hm); eauto.
Qed.

Lemma queue_inv_without m m1 (P : Hlc → Prop) g :
  queue_without m m1 P → (∀ h, P h ∨ ¬ P h) → (∀ h, P h → h ∈ g_emitted g → delivered g h) → queue_inv m g → queue_inv m1 g.
Proof.
  intros [Hw Hq] Hdec Hd [? Hi He ? ?]. split; [auto|..|done|done]; intros h Hh; destruct (Hdec h) as [Hp|Hp].
  - rewrite (proj1 (Hq h) Hp) in Hh. by destruct Hh.
  - rewrite (proj2 (Hq h) Hp) in Hh. auto.
  - right. auto.
  - rewrite (proj2 (Hq h) Hp). auto.
Qed.

Lemma queue_inv_put m m1 h x g : queue_put m m1 h x → h ∈ g_minted g → queue_inv m g → queue_inv m1 g.
Proof.
  intros (Hw & Hh & Hq) Hm [? Hi He ? ?]. split; [auto|..|done|done]; intros h' Hh'; destruct (decide (h' = h)) as [->|Hne]; [done| | |].
  - rewrite Hq in Hh' by done. auto.
  - left. by rewrite Hh.
  - rewrite Hq by done. auto.
Qed.

(** Records that leave what is minted, emitted and announced alone. *)
Lemma queue_inv_more m g g' :
  g_minted g' = g_minted g → g_emitted g' = g_emitted g → g_schemas g' = g_schemas g →
  (∀ h, delivered g h → delivered g' h) → queue_inv m g → queue_inv m g'.
Proof.
  intros Hm He Hs Hd [? ? Hemit ? ?]. split; rewrite ?Hm, ?He, ?Hs; auto. intros h Hh. destruct (Hemit h Hh); auto.
Qed.

Lemma queue_inv_mint m g h (ok : bool) :
  (ok = true → is_Some (queued m h)) → queue_inv m (g_mint h false g) → queue_inv m (g_mint h ok g).
Proof.
  intros Hq [? Hi He Hm ?]. destruct ok; [|done]. split; cbn in *; [done|done| |set_solver|done].
  intros h' [->%elem_of_singleton|Hh]%elem_of_union; [by left; apply Hq|auto].
Qed.

Lemma queue_inv_minted m g h : h ∉ g_schemas g → h ≠ HLC_ZERO → queue_inv m g → queue_inv m (g_mint h false g).
Proof.
  intros Hs Hz [? Hi He Hm Ha]. split; cbn; [done| |done|set_solver|].
  - intros h' Hh. apply elem_of_union. right. auto.
  - intros h' [->%elem_of_singleton|Hh]%elem_of_union; [done|auto].
Qed.

Lemma queue_inv_enqueue cap st st' op r g :
  op_hlc op ∉ g_schemas g → op_hlc op ≠ HLC_ZERO → enqueue cap st op = (r, st') →
  queue_inv (contents st) g → queue_inv (contents st') (g_mint (op_hlc op) match r with Ok _ => true | Err _ => false end g).
Proof.
  intros Hs Hz Hq Hinv. apply queue_inv_minted with (h:=op_hlc op) in Hinv; [|done..].
  apply enqueue_spec in Hq as [[Hr ->]|(payload & m1 & _ & Hput & Ho)].
  - destruct r as [[]|e]; [done|exact Hinv].
  - apply queue_inv_mint.
    + destruct r as [u|e]; [|done]. intros _. cbn in Ho. rewrite (queued_equiv _ _ _ Ho). destruct Hput as (_ & -> & _). done.
    + eapply queue_inv_outcome; [done..|]. eapply queue_inv_put; [done|cbn; set_solver|done].
Qed.

Lemma queue_inv_retire st st' hs r g :
  retire st hs = (r, st') → (∀ h, h ∈ hs → delivered g h) → queue_inv (contents st) g → queue_inv (contents st') g.
Proof.
  intros (m1 & Hw & Ho)%retire_queue_spec Hd Hinv. eapply queue_inv_outcome; [done..|].
  eapply queue_inv_without; [done| |auto|done]. intros h. destruct (decide (h ∈ hs)); auto.
Qed.

Lemma queue_inv_remove st st' h r g :
  remove st h = (r, st') → drop_ok g h → queue_inv (contents st) g → queue_inv (contents st') g.
Proof.
  intros (m1 & Hw & Ho)%remove_spec Hd Hinv. eapply queue_inv_outcome; [done..|].
  eapply queue_inv_without; [done| | |done].
  - intros h'. destruct (decide (h' = h)); auto.
  - intros h' -> He. destruct Hinv as [_ _ _ Hm Ha]. destruct (Ha h) as [? ?]; [set_solver|].
    destruct Hd as [?|[?|?]]; [done|right; by left|done].
Qed.

Lemma queue_inv_persist st st' op r g :
  persist_array_op_seq st op = (r, st') → queue_inv (contents st) g → queue_inv (contents st') g.
Proof.
  intros Hp Hinv. unfold persist_array_op_seq in Hp. destruct (set_seq st (pa_hlc op) (pa_seq op)) as [rs st''] eqn:Hs.
  assert (st'' = st') as -> by (destruct rs as [[]|]; congruence).
  apply set_seq_spec in Hs as [[_ ->]|(x & m1 & Hx & Hput & Ho & _)]; [done| |by destruct Hinv].
  eapply queue_inv_outcome; [done..|]. eapply queue_inv_put; [done| |done]. apply (qi_queued _ _ Hinv). by rewrite Hx.
Qed.

(** *** The window *)

(** A window that differs in its cursor and its parked and announced arrays. *)
Record same_open w w' : Prop := {
  so_flight : aw_in_flight w' = aw_in_flight w;
  so_rejected : aw_rejected w' = aw_rejected w;
  so_unattributed : aw_unattributed w' = aw_unattributed w;
  so_barrier : aw_barrier w' = aw_barrier w;
  so_next : aw_next_token w' = aw_next_token w
}.

Lemma cover_ok_same w w' g pc l : same_open w w' → cover_ok w g pc l → cover_ok w' g pc l.
Proof. intros [Hf Hr Hu Hb _]. unfold cover_ok, covered, settled. by rewrite Hf, Hr, Hu, Hb. Qed.

Lemma win_ok_same w w' g :
  aw_in_flight w' = aw_in_flight w → aw_announced w' = aw_announced w → win_ok w g → win_ok w' g.
Proof. intros Hf Ha [? ?]. split; by rewrite ?Hf, ?Ha. Qed.

Lemma tokens_ok_same w w' pc l :
  aw_barrier w' = aw_barrier w ∨ aw_barrier w' = None → aw_next_token w' = aw_next_token w → tokens_ok w pc l → tokens_ok w' pc l.
Proof.
  intros Hb Hn [? Hi Hp Ho]. split; unfold below in *; rewrite ?Hn; [done|done|done|].
  destruct Hb as [->| ->]; [done|intros t; done].
Qed.

(** Points of the push loop where no ping is out. *)
Definition busy pc : bool := match pc with PIdle | PBroken | PPing _ => false | _ => true end.

Lemma tokens_ok_closed w pc l : tokens_ok w pc l → busy pc = true → aw_barrier w = None.
Proof.
  intros [_ _ _ Ho] Hpc. destruct (aw_barrier w) as [[t a]|]; [|done]. exfalso.
  destruct (Ho t) as [[->|[->| ->]] _]; done.
Qed.

Lemma tokens_ok_step w w' pc pc' l :
  tokens_ok w pc l → (∀ t, pc' ≠ PPing t) → aw_next_token w' = aw_next_token w →
  aw_barrier w' = None ∨ (aw_barrier w' = aw_barrier w ∧ (pc' = PIdle ∨ pc' = PBroken ∨ busy pc = true)) →
  tokens_ok w' pc' l.
Proof.
  intros Hok Hp Hn Hb. assert (aw_barrier w' = None ∨ pc' = PIdle ∨ pc' = PBroken) as Hb'.
  { destruct Hb as [?|[Hb [?|[?|Hbusy]]]]; [by left|right; by left|by do 2 right|left]. rewrite Hb. by eapply tokens_ok_closed. }
  destruct Hok as [? Hi Hping Ho]. split; unfold below in *; rewrite ?Hn; [done|done|by intros t ?%Hp|].
  intros t Ht. destruct (aw_barrier w') as [b|] eqn:Hbw; [|done]. destruct Hb as [?|[Hb _]]; [done|].
  rewrite Hb in Ht. split; [|by apply Ho]. destruct Hb' as [Hb'|[?|?]]; [done|by left|right; by left].
Qed.

Lemma tokens_ok_items w pc l l' :
  (∀ i t, i ∈ l' → token_of i = Some t → (i ∈ l ∨ below w t)) → tokens_ok w pc l → tokens_ok w pc l'.
Proof. intros Hl [? Hi Hp Ho]. split; [done| |done|done]. intros i t Hil Ht. destruct (Hl i t Hil Ht); [eauto|done]. Qed.

Lemma cover_ok_pc w g pc pc' l : (∀ h, unsent pc h → unsent pc' h) → cover_ok w g pc l → cover_ok w g pc' l.
Proof. intros Hu Hc h Hh. destruct (Hc h Hh) as [?|[? ?]]; [by left|right; auto]. Qed.

Lemma cover_ok_sub w g pc l l' :
  (∀ h i, h ∈ aw_in_flight w → covers h i →
     i ∈ before (fst <$> aw_barrier w) l → covered w g h (before (fst <$> aw_barrier w) l')) →
  cover_ok w g pc l → cover_ok w g pc l'.
Proof.
  intros Hl Hc h Hh. destruct (Hc h Hh) as [[?|(i & Hi & Hcov)]|?]; [left; by left|left; eauto|by right].
Qed.

Lemma cover_ok_end w g pc l l' : cover_ok w g pc l → cover_ok w g pc (l ++ l').
Proof. apply cover_ok_sub. intros h i _ Hc Hi. right. exists i. split; [by apply before_end|done]. Qed.

Lemma cover_ok_nil w g pc l : aw_in_flight w = [] → cover_ok w g pc l.
Proof. intros Hf h. rewrite Hf. by intros ?%elem_of_nil. Qed.

Lemma advance_same h w : same_open w (advance h w) ∧ aw_announced (advance h w) = aw_announced w.
Proof. unfold advance. destruct (aw_cursor w); [destruct (bool_decide _)|]; done. Qed.

Lemma select_sendable_spec scanned acc ops w w' :
  foldl select_one (acc, w) scanned = (ops, w') →
  same_open w w' ∧ aw_announced w' = aw_announced w ∧ ∃ sent, ops = acc ++ sent ∧ sent `sublist_of` scanned.
Proof.
  revert acc w. induction scanned as [|op scanned IH]; intros acc w; cbn [foldl].
  - intros [= <- <-]. split; [done|]. split; [done|]. exists []. by rewrite app_nil_r.
  - destruct (select_one (acc, w) op) as [acc1 w1] eqn:Hsel. intros ([] & Hann & sent & -> & Hs)%IH.
    unfold select_one in Hsel. cbn [fst snd] in Hsel. destruct (advance_same (pa_hlc op) w) as [[] Ha].
    injection Hsel as <- <-. split; [split; congruence|]. split; [congruence|].
    destruct (is_held _ _); [exists sent; split; [done|by constructor]|].
    exists (op :: sent). rewrite <-app_assoc. split; [done|by constructor].
Qed.

Lemma announce_same a w step w' :
  announce_step a w = (step, w') → same_open w w' ∧ aw_announced w' = aw_announced w.
Proof.
  unfold announce_step. repeat case_match; intros [= <- <-]; done.
Qed.

Lemma begin_tick_spec now w plan w' :
  begin_tick now w = (plan, w') →
  (w' = w ∧ ∀ after, plan = TDrain after → aw_barrier w = None) ∨
  (aw_in_flight w' = [] ∧ aw_barrier w' = None ∧ aw_announced w' = aw_announced w ∧ aw_next_token w' = aw_next_token w).
Proof.
  unfold begin_tick. destruct (aw_barrier w) as [[t at_]|]; [|intros [= <- <-]; left; done].
  destruct (_ <? _); intros [= <- <-]; [left; done|right; done].
Qed.

(** The token of the next window. *)
Lemma open_barrier_spec now w token w' :
  0 ≤ aw_next_token w < 2 ^ 63 → open_barrier now w = (token, w') →
  token = 2 ^ 63 + aw_next_token w ∧ aw_next_token w' = aw_next_token w + 1 ∧ aw_barrier w' = Some (token, now) ∧
  aw_in_flight w' = aw_in_flight w ∧ aw_rejected w' = aw_rejected w ∧ aw_unattributed w' = aw_unattributed w ∧
  aw_announced w' = aw_announced w.
Proof.
  intros Hn [= <- <-]. cbn [aw_next_token aw_barrier aw_in_flight aw_rejected aw_unattributed aw_announced with_open with_token].
  split_and!; [|apply Z.mod_small; lia|done..].
  change (Z.lxor BARRIER_TOKEN_TAG (2 ^ 64 - 1)) with (Z.ones 63). rewrite Z.land_ones, Z.mod_small by lia.
  rewrite <-(Z.add_lor_land (2 ^ 63)).
  change BARRIER_TOKEN_TAG with (2 ^ 63).
  assert (Z.land (2 ^ 63) (aw_next_token w) = 0) as ->; [|lia].
  apply Z.bits_inj'. intros i Hi. rewrite Z.land_spec, Z.bits_0, Z.pow2_bits_eqb by lia.
  destruct (Z.eqb_spec 63 i) as [<-|]; [|done]. cbn [andb]. apply Z.testbit_false; [lia|]. rewrite Z.div_small; [done|lia].
Qed.

(** ** The push loop keeps the invariant *)

Lemma option_list_elem {A} (o : option A) x : x ∈ option_list o → o = Some x.
Proof. destruct o; [by intros ->%list_elem_of_singleton|by intros ?%elem_of_nil]. Qed.

Lemma begin_win now w plan w' g : begin_tick now w = (plan, w') → win_ok w g → win_ok w' g.
Proof.
  intros Hb Hw. apply begin_tick_spec in Hb as [[-> _]|(Hf & _ & Hann & _)]; [done|].
  destruct Hw as [? Hs]. split; rewrite ?Hf, ?Hann; [by intros ? ?%elem_of_nil|exact Hs].
Qed.

Section push_step.
Context (c c' : Client (S:=S)) (frame : option UpFrame) (f : Ghost → Ghost) (g : Ghost).
Hypothesis Hstep : push_step c c' frame f.

Lemma push_grows : grows g (f g).
Proof using Hstep. destruct (grows_ghost g) as (? & ? & ? & ? & ? & ? & ?). destruct Hstep; try apply grows_refl; auto. Qed.

Lemma push_queue :
  (∀ h, h ∈ g_schemas (f g) → h ∉ g_minted g) →
  queue_inv (contents (cl_st c)) g → queue_inv (contents (cl_st c')) (f g).
Proof using Hstep.
  intros Hs Hinv. destruct Hstep; cbn [cl_st] in *; try exact Hinv.
  - destruct Hinv as [? ? ? ? Ha]. split; [done|done|done|done|]. intros h Hh. split; [|by apply Ha]. intros Hh'. by apply (Hs h).
  - by eapply queue_inv_persist.
  - by eapply queue_inv_persist.
  - eapply queue_inv_retire; [done| |].
    + intros h ->%list_elem_of_singleton. do 2 right. cbn. set_solver.
    + eapply queue_inv_more; [..|exact Hinv]; [done|done|done|]. intros h [?|[?|?]]; [by left|right; by left|].
      do 2 right. cbn. set_solver.
  - eapply queue_inv_more; [..|exact Hinv]; done.
Qed.

Lemma push_pc : queue_inv (contents (cl_st c)) g → pc_ok g (cl_pc c) → pc_ok (f g) (cl_pc c').
Proof using Hstep.
  intros Hinv Hpc. eapply (pc_ok_grows g) in Hpc as [Ho Hs]; [|apply push_grows]. revert Ho Hs. unfold pc_ok.
  destruct Hstep as [| | |? ? ? ? ? Hscan|? ? ? ? ? ? Hsel|? ? ? ? ? ? ? step ? ?| | | | | | | | | | | | | | | | | | | |];
    cbn [cl_pc cl_st pc_ops] in *; intros Ho Hs; try (split; [set_solver|done]).
  - split; [|done]. apply scan_after_spec in Hscan as [Hq _]; [|by destruct Hinv]. intros op Hop.
    rewrite Forall_forall in Hq. destruct (Hq op Hop) as [Hop' _]. apply (qi_queued _ _ Hinv). by rewrite Hop'.
  - split; [|done]. destruct (select_sendable_spec _ _ _ _ _ Hsel) as (_ & _ & sent & -> & Hsub). intros op Hop. apply Ho.
    eapply elem_of_sublist; [|done]. done.
  - destruct step; (split; [exact Ho|done]).
  - split; [done|]. cbn. set_solver.
Qed.

Lemma push_win : pc_ok g (cl_pc c) → win_ok (cl_win c) g → win_ok (cl_win c') (f g).
Proof using Hstep.
  intros Hpc Hwin. pose proof (win_ok_grows _ _ _ push_grows Hwin) as Hwin'. revert Hwin'.
  destruct Hstep as [now st w w' rx Hb|now st w after w' rx Hb| | |? ? ? ? ? ? Hsel|? ? ? ? ? ? ? step ? Ha| | | | | | | | | | | | | | | | |now st w ready rx token w' Hf Hn Hop| | |];
    cbn [cl_win] in *; intros Hwin'; try exact Hwin'; try (eapply win_ok_same; [| |exact Hwin']; done).
  - eapply begin_win; [exact Hb|done].
  - eapply begin_win; [exact Hb|done].
  - apply select_sendable_spec in Hsel as ([] & ? & _). by eapply win_ok_same.
  - apply announce_same in Ha as ([] & ?). by eapply win_ok_same.
  - destruct Hwin' as [? Hs]. split; [done|]. intros a h. cbn. rewrite lookup_insert. case_decide; [intros [= <-]; set_solver|apply Hs].
  - destruct Hwin' as [Hfl ?], Hpc as [Ho _]. split; [|done]. cbn. intros h [Hin|Hin]%elem_of_app; [|apply list_elem_of_singleton in Hin as ->]; [by apply Hfl|].
    apply Ho. by left.
  - unfold finish_idle_tick. destruct (_ && _); [|done]. eapply win_ok_same; [..|exact Hwin']; done.
  - injection Hop as <- <-. eapply win_ok_same; [..|exact Hwin']; done.
  - destruct Hwin' as [? Hs]. split; [by intros h ?%elem_of_nil|exact Hs].
Qed.

Lemma push_up : pc_ok g (cl_pc c) → ∀ fr, frame = Some fr → up_ok (f g) fr.
Proof using Hstep.
  intros [_ Hs] fr. destruct Hstep; cbn [cl_pc] in *; intros Hfr; try done; try (injection Hfr as <-; done).
  - destruct delivered0; [|done]. by injection Hfr as <-.
  - destruct delivered0; [|done]. by injection Hfr as <-.
Qed.

Lemma push_frame_token fr t : frame = Some fr → token_of (IUp fr) = Some t → cl_pc c = PPing t ∧ cl_win c' = cl_win c.
Proof using Hstep.
  intros Hfr Ht. destruct Hstep; try done; try (destruct delivered0; [|done]); injection Hfr as <-; try done; by injection Ht as <-.
Qed.

Lemma push_tokens_pc l : tokens_ok (cl_win c) (cl_pc c) l → tokens_ok (cl_win c') (cl_pc c') l.
Proof using Hstep.
  intros Hok.
  destruct Hstep as [now st w w' rx Hb|now st w after w' rx Hb| | |? ? ? ? ? ? Hsel|? ? ? ? ? ? ? step ? Ha| | | | | | | | | | | | | | | | |now st w ready rx token w' Hf Hn Hop| | |];
    cbn [cl_win cl_pc] in *; try (eapply tokens_ok_step; [exact Hok|done|done|right; split; [done|tauto]]).
  - apply begin_tick_spec in Hb as [[-> _]|(_ & Hb & _ & Hn)]; [done|]. eapply tokens_ok_step; [exact Hok|done|done|by left].
  - apply begin_tick_spec in Hb as [[-> Hd]|(_ & Hb & _ & Hn)]; (eapply tokens_ok_step; [exact Hok|done|done|left; eauto]).
  - apply select_sendable_spec in Hsel as ([] & _). eapply tokens_ok_step; [exact Hok|done|done|right; tauto].
  - apply announce_same in Ha as ([] & _). eapply tokens_ok_step; [exact Hok|by destruct step|done|right; tauto].
  - unfold finish_idle_tick. destruct (_ && _); (eapply tokens_ok_step; [exact Hok|done|done|right; split; [done|tauto]]).
  - destruct Hok as [Hr Hi Hp Ho]. apply open_barrier_spec in Hop as (-> & Hnext & Hbar & _); [|lia]. split; unfold below in *; rewrite ?Hnext.
    + lia.
    + intros i t Hil Ht. specialize (Hi i t Hil Ht). lia.
    + intros t [= <-]. lia.
    + rewrite Hbar. intros t [= <-]. split; [by do 2 right|lia].
  - eapply tokens_ok_step; [exact Hok|done|done|by left].
Qed.

Lemma push_tokens l :
  tokens_ok (cl_win c) (cl_pc c) l → tokens_ok (cl_win c') (cl_pc c') (l ++ (IUp <$> option_list frame)).
Proof using Hstep.
  intros Hok. apply (tokens_ok_items _ _ l); [|by apply push_tokens_pc].
  intros i t [Hi|(fr & -> & Hfr)%list_elem_of_fmap]%elem_of_app Ht; [by left|right].
  destruct (push_frame_token fr t) as [Hpc ->]; [by apply option_list_elem|done|]. by apply (tk_ping _ _ _ Hok).
Qed.

Lemma push_cover l :
  tokens_ok (cl_win c) (cl_pc c) l → cover_ok (cl_win c) g (cl_pc c) l →
  cover_ok (cl_win c') (f g) (cl_pc c') (l ++ (IUp <$> option_list frame)).
Proof using Hstep.
  intros Hok Hcov0. pose proof (cover_ok_grows _ _ _ _ _ push_grows Hcov0) as Hcov. clear Hcov0. revert Hcov. generalize (f g). clear g. intros g Hcov.
  destruct Hstep as [now st w w' rx Hb|now st w after w' rx Hb| | |? ? ? ? ? ? Hsel|? ? ? ? ? ? ? step ? Ha| | | | | | | | | | | | | | | | |now st w ready rx token w' Hf Hn Hop| | |];
    cbn [cl_win cl_pc] in *; try (apply cover_ok_end; eapply cover_ok_pc; [|eapply cover_ok_same; [|exact Hcov]; done]; done).
  - apply cover_ok_end. apply begin_tick_spec in Hb as [[-> _]|(? & _)]; [done|by apply cover_ok_nil].
  - apply cover_ok_end. apply begin_tick_spec in Hb as [[-> _]|(? & _)]; [|by apply cover_ok_nil]. by eapply cover_ok_pc; [|done].
  - apply cover_ok_end. apply select_sendable_spec in Hsel as (Hs & _). eapply cover_ok_pc; [|by eapply cover_ok_same]. done.
  - apply cover_ok_end. apply announce_same in Ha as (Hs & _). eapply cover_ok_pc; [|by eapply cover_ok_same]. done.
  - apply cover_ok_end. pose proof (tokens_ok_closed _ _ _ Hok eq_refl) as Hbar. intros h. cbn [aw_in_flight aw_barrier record_sent with_open].
    intros [Hh|Hh]%elem_of_app.
    + destruct (Hcov h Hh) as [?|[_ []]]. by left.
    + apply list_elem_of_singleton in Hh as ->. right. split; [exact Hbar|done].
  - pose proof (tokens_ok_closed _ _ _ Hok eq_refl) as Hbar. intros h Hh. left. unfold cover_ok in Hcov. rewrite Hbar in *.
    cbn [fmap option_fmap option_map] in *. rewrite before_none in *. destruct (Hcov h Hh) as [[?|(i & Hi & ?)]|[_ Hu]].
    + by left.
    + right. exists i. split; [apply elem_of_app; by left|done].
    + right. exists (IUp (UDelta op)). split; [apply elem_of_app; right; by left|exact Hu].
  - apply cover_ok_end. unfold finish_idle_tick. destruct (_ && _); (eapply cover_ok_pc; [|eapply cover_ok_same; [|exact Hcov]; done]; done).
  - apply cover_ok_end. pose proof (tokens_ok_closed _ _ _ Hok eq_refl) as Hbar. destruct Hok as [Hr Hi _ _].
    apply open_barrier_spec in Hop as (-> & _ & Hb & Hfl & Hrej & Hun & _); [|lia].
    intros h. unfold covered, settled. rewrite Hb, Hfl, Hrej, Hun. intros Hh. left. cbn [fmap option_fmap option_map fst].
    rewrite before_fresh. 2:{ intros i Hil Ht. specialize (Hi i _ Hil Ht). unfold below in Hi. lia. }
    destruct (Hcov h Hh) as [Hc|[_ []]]. rewrite Hbar in Hc. cbn [fmap option_fmap option_map] in Hc. by rewrite before_none in Hc.
  - by apply cover_ok_nil.
Qed.
End push_step.

Lemma push_step_inv c c' frame f up down g :
  push_step c c' frame f → (∀ h, h ∈ g_schemas (f g) → h ∉ g_minted g) →
  sys_inv (mkSys c up down g) → sys_inv (mkSys c' (up ++ option_list frame) down (f g)).
Proof.
  intros Hs Hsch [Hq Hpc Hrx Hw Hu Hd Ht Hc]. cbn [y_client y_up y_down y_ghost] in *.
  pose proof (push_grows _ _ _ _ g Hs) as Hg. split; cbn [y_client y_up y_down y_ghost].
  - by eapply push_queue.
  - by eapply push_pc.
  - assert (cl_rx c' = cl_rx c) as -> by (by destruct Hs). by eapply rx_ok_grows.
  - by eapply push_win.
  - intros fr [?|Hfr%option_list_elem]%elem_of_app; [by eapply up_ok_grows, Hu|by eapply push_up].
  - intros fr Hfr. by eapply down_ok_grows, Hd.
  - rewrite stream_end. by eapply push_tokens.
  - rewrite stream_end. by eapply push_cover.
Qed.

(** ** The receive loop keeps it *)

Lemma record_reject_keeps msg w :
  aw_in_flight (record_reject msg w) = aw_in_flight w ∧ aw_barrier (record_reject msg w) = aw_barrier w ∧
  aw_next_token (record_reject msg w) = aw_next_token w ∧ aw_announced (record_reject msg w) = aw_announced w ∧
  aw_rejected w ⊆ aw_rejected (record_reject msg w) ∧
  (aw_unattributed w = true → aw_unattributed (record_reject msg w) = true).
Proof.
  unfold record_reject. repeat case_match; split_and!; cbn; try done; set_solver.
Qed.

(** A refusal of an operation of the window is remembered. *)
Lemma record_reject_settles msg w g h :
  win_ok w g → (h ∉ g_schemas g) → h ≠ HLC_ZERO → h ∈ aw_in_flight w → refusal_of h msg →
  settled (record_reject msg w) g h.
Proof.
  intros [_ Ha] Hs Hz Hh [Hr Hk]. unfold record_reject.
  rewrite bool_decide_false by (unfold reject_disposition; by destruct (reason_class _)).
  destruct (bool_decide_reflect (rj_hlc_bytes msg = hlc_to_bytes HLC_ZERO)) as [Hzero|Hzero].
  - assert (has_in_flight w = true) as ->; [|by do 2 right]. unfold has_in_flight. rewrite bool_decide_false; [done|].
    intros Hnil. rewrite Hnil in Hh. by apply elem_of_nil in Hh.
  - destruct Hk as [Hk|?]; [|done]. rewrite Hk. rewrite bool_decide_false.
    + right; left. repeat case_match; cbn; set_solver.
    + intros Heq. destruct (aw_announced w !! rj_array msg) as [h'|] eqn:Hann; [|done]. cbn in Heq.
      injection Heq as Heq%(inj hlc_to_bytes). subst h'. by apply Ha in Hann.
Qed.

Lemma settled_keeps msg w g h : settled w g h → settled (record_reject msg w) g h.
Proof. destruct (record_reject_keeps msg w) as (_ & _ & _ & _ & ? & ?). unfold settled. set_solver. Qed.

Lemma reject_cover msg w g pc l :
  win_ok w g → (∀ h, h ∈ g_minted g → h ∉ g_schemas g ∧ h ≠ HLC_ZERO) →
  cover_ok w g pc (IDown (DReject msg) :: l) → cover_ok (record_reject msg w) g pc l.
Proof.
  intros Hw Hap Hc h. destruct (record_reject_keeps msg w) as (Hf & Hb & _). rewrite Hf, Hb. intros Hh.
  destruct (Hap h (wk_flight _ _ Hw h Hh)) as [? ?]. destruct (Hc h Hh) as [[?|(i & Hi & Hcov)]|?]; [|left|by right].
  - left; left. by apply settled_keeps.
  - rewrite before_cons in Hi by (by apply hits_no). apply elem_of_cons in Hi as [->|Hi]; [|right; by exists i].
    left. by apply record_reject_settles.
Qed.

(** A pong closes the window with the operations Origin applied, or is another's. *)
Lemma complete_barrier_spec token w outcome w' g pc l :
  complete_barrier token w = (outcome, w') → cover_ok w g pc (IDown (DPong token) :: l) →
  aw_announced w' = aw_announced w ∧ aw_next_token w' = aw_next_token w ∧
  ((w' = w ∧ outcome = None ∧ cover_ok w g pc l) ∨
   (aw_in_flight w' = [] ∧ aw_barrier w' = None ∧
    ∃ o, outcome = Some o ∧ ∀ h, h ∈ wo_confirmed o → h ∈ g_applied g)).
Proof.
  intros Hcb Hc. unfold complete_barrier in Hcb. destruct (aw_barrier w) as [[t at_]|] eqn:Hb.
  - destruct (bool_decide_reflect (t = token)) as [->|Hne].
    + destruct (aw_unattributed w) eqn:Hun.
      * injection Hcb as <- <-. split_and!; [by destruct (aw_rewind _)..|]. right.
        split; [by destruct (aw_rewind _)|]. split; [by destruct (aw_rewind _)|]. eexists. split; [done|]. by intros h ?%elem_of_nil.
      * injection Hcb as <- <-. split_and!; [by destruct (aw_rewind _)..|]. right.
        split; [by destruct (aw_rewind _)|]. split; [by destruct (aw_rewind _)|]. eexists. split; [done|].
        cbn [wo_confirmed]. intros h [Hr Hh]%list_elem_of_filter. destruct (Hc h Hh) as [[[?|[?|?]]|(i & Hi & _)]|[? _]]; [done|done|congruence| |congruence].
        exfalso. rewrite Hb in Hi. cbn [before fmap option_fmap option_map fst] in Hi. unfold hits in Hi.
        rewrite bool_decide_true in Hi by done. by apply elem_of_nil in Hi.
    + injection Hcb as <- <-. split_and!; [done|done|left]. split_and!; [done|done|]. eapply cover_ok_sub, Hc.
      intros h i _ Hcov. rewrite Hb. cbn [fmap option_fmap option_map fst]. rewrite before_cons.
      2:{ unfold hits. apply bool_decide_false. intros [_ [= <-]]. done. }
      intros [->|Hi]%elem_of_cons; [done|right; by exists i].
  - injection Hcb as <- <-. split_and!; [done|done|left]. split_and!; [done|done|]. eapply cover_ok_sub, Hc.
    intros h i _ Hcov. rewrite Hb. cbn [fmap option_fmap option_map]. rewrite !before_none.
    intros [->|Hi]%elem_of_cons; [done|right; by exists i].
Qed.

Lemma stream_tail up (f : DownFrame) down : stream up (f :: down) = IDown f :: stream up down.
Proof. done. Qed.

Lemma receive_step_inv c c' up down down' g :
  receive_step c down c' down' → sys_inv (mkSys c up down g) → sys_inv (mkSys c' up down' g).
Proof.
  intros Hs [Hq Hpc Hrx Hw Hu Hd Ht Hc]. cbn [y_client y_up y_down y_ghost] in *.
  destruct Hs as [st w pc msg down|st w pc h down r st' Hr|st w pc token down outcome w' Hcb|st w pc hs down r st' Hr];
    cbn [cl_st cl_win cl_pc cl_rx] in *; rewrite ?stream_tail in *.
  - destruct (record_reject_keeps msg w) as (Hf & Hb & Hn & Ha & _). split; cbn [y_client y_up y_down y_ghost cl_st cl_win cl_pc cl_rx]; try done.
    + unfold after_reject. destruct (bool_decide_reflect (reject_disposition (rj_reason msg) = DropOp)) as [Hdrop|]; [|done].
      apply (Hd (DReject msg)); [by left|done].
    + by eapply win_ok_same.
    + intros f Hf'. apply Hd. by right.
    + apply tokens_ok_same with w; [by left|done|]. eapply tokens_ok_items, Ht. intros i t Hi _. left. by right.
    + eapply reject_cover; [done| |done]. by destruct Hq.
  - split; cbn [y_client y_up y_down y_ghost cl_st cl_win cl_pc cl_rx]; try done. by eapply queue_inv_remove.
  - destruct (complete_barrier_spec _ _ _ _ _ _ _ Hcb Hc) as (Ha & Hn & Hcase).
    assert (tokens_ok w pc (stream up down)) as Ht'.
    { eapply tokens_ok_items, Ht. intros i t Hi _. left. by right. }
    assert (∀ f, f ∈ down → down_ok g f) as Hd' by (intros f Hf'; apply Hd; by right).
    destruct Hcase as [(-> & -> & Hc')|(Hf & Hb & o & -> & Ho)]; split; cbn [y_client y_up y_down y_ghost cl_st cl_win cl_pc cl_rx]; try done.
    + cbn [after_pong]. case_bool_decide; [done|exact Ho].
    + destruct Hw as [? Hann]. split; [rewrite Hf; by intros ? ?%elem_of_nil|by rewrite Ha].
    + apply tokens_ok_same with w; [by right|done|done].
    + by apply cover_ok_nil.
  - split; cbn [y_client y_up y_down y_ghost cl_st cl_win cl_pc cl_rx]; try done.
    eapply queue_inv_retire; [done| |done]. intros h Hh. left. by apply Hrx.
Qed.

(** ** Origin keeps it *)

Section origin_step.
Context (frame : UpFrame) (answer : option DownFrame) (f : Ghost → Ghost) (g : Ghost).
Hypothesis Hstep : origin_step frame answer f.

Lemma origin_grows : grows g (f g).
Proof using Hstep.
  destruct (grows_ghost g) as (? & ? & ? & ? & ?). destruct Hstep; try apply grows_refl; [auto|].
  destruct (refused_for_good _ _); [auto|apply grows_refl].
Qed.

Lemma origin_queue m : queue_inv m g → queue_inv m (f g).
Proof using Hstep.
  assert (g_minted (f g) = g_minted g ∧ g_emitted (f g) = g_emitted g ∧ g_schemas (f g) = g_schemas g ∧
    g_unsendable (f g) = g_unsendable g) as (? & ? & ? & Hu).
  { destruct Hstep; try done. by destruct (refused_for_good _ _). }
  destruct origin_grows. apply queue_inv_more; [done..|]. intros h. unfold delivered. rewrite Hu. set_solver.
Qed.

Lemma origin_down : up_ok g frame → ∀ d, answer = Some d → down_ok (f g) d.
Proof using Hstep.
  intros Hup d Hd. destruct Hstep as [op|op msg [_ Hk]|array h|array h msg [_ Hk]|token]; try done; injection Hd as <-; [| |done].
  - intros Hdrop. destruct Hk as [Hk|Hk]; [|rewrite Hk, hlc_from_to; by left].
    unfold refused_for_good. rewrite Hk, hlc_from_to, !bool_decide_true by done. right; left. cbn. set_solver.
  - intros Hdrop. destruct Hk as [Hk|Hk]; rewrite Hk, hlc_from_to; [do 2 right; exact Hup|by left].
Qed.

Lemma origin_tokens d : answer = Some d → token_of (IDown d) = token_of (IUp frame).
Proof using Hstep. intros Hd. by destruct Hstep; try done; injection Hd as <-. Qed.

(** What covered an operation covers it in its new form. *)
Lemma origin_cover w pc up down :
  cover_ok w g pc (stream (frame :: up) down) → cover_ok w (f g) pc (stream up (down ++ option_list answer)).
Proof using Hstep.
  intros Hc. apply (cover_ok_grows _ _ _ _ _ origin_grows) in Hc. revert Hc. rewrite stream_cons, stream_answer.
  apply cover_ok_sub. intros h i Hh Hcov Hi.
  destruct (before_replace _ _ _ (IDown <$> option_list answer) _ _ ltac:(intros y (d & -> & Hd%option_list_elem)%list_elem_of_fmap; by apply origin_tokens) Hi)
    as [->|Hi']; [|right; by exists i].
  destruct Hstep as [op|op msg Hr|array h'|array h' msg Hr|token]; cbn in Hcov; try done.
  - subst h. left; left. cbn. set_solver.
  - subst h. right. exists (IDown (DReject msg)). split; [|done]. cbn [option_list fmap list_fmap app].
    eapply before_at; [apply up_not_down| |exact Hi]. by apply hits_no.
Qed.
End origin_step.

Lemma origin_step_inv c frame up down g answer f :
  origin_step frame answer f → sys_inv (mkSys c (frame :: up) down g) →
  sys_inv (mkSys c up (down ++ option_list answer) (f g)).
Proof.
  intros Hs [Hq Hpc Hrx Hw Hu Hd Ht Hc]. cbn [y_client y_up y_down y_ghost] in *.
  pose proof (origin_grows _ _ _ g Hs) as Hg. split; cbn [y_client y_up y_down y_ghost].
  - by eapply origin_queue.
  - by eapply pc_ok_grows.
  - by eapply rx_ok_grows.
  - by eapply win_ok_grows.
  - intros fr Hfr. eapply up_ok_grows, Hu; [done|by right].
  - intros d [Hin|Hin%option_list_elem]%elem_of_app; [by eapply down_ok_grows, Hd|].
    eapply origin_down; [done| |done]. apply Hu. by left.
  - eapply tokens_ok_items, Ht. rewrite stream_cons, stream_answer. intros i t Hi Hti.
    apply elem_of_app in Hi as [Hi|[Hi|Hi]%elem_of_app]; [left; apply elem_of_app; by left| |left; apply elem_of_app; right; by right].
    apply list_elem_of_fmap in Hi as (d & -> & Hd'%option_list_elem). right. apply (tk_items _ _ _ Ht (IUp frame)).
    + rewrite stream_cons. apply elem_of_app. right. by left.
    + by rewrite <-(origin_tokens _ _ _ Hs d Hd').
  - by eapply origin_cover.
Qed.

(** Another party's message does not disturb it. *)
Lemma other_down_inv c up down g d :
  down_ok g d → (∀ t, token_of (IDown d) = Some t → t < 2 ^ 63) →
  sys_inv (mkSys c up down g) → sys_inv (mkSys c up (down ++ [d]) g).
Proof.
  intros Hd Ht [? ? ? ? ? Hdown Htok Hc]. cbn [y_client y_up y_down y_ghost] in *. split; cbn [y_client y_up y_down y_ghost]; try done.
  - intros d' [?|Hin]%elem_of_app; [by apply Hdown|by apply list_elem_of_singleton in Hin as ->].
  - eapply tokens_ok_items, Htok. intros i t. rewrite stream_answer. intros [Hi|[Hi|Hi]%elem_of_app]%elem_of_app Hti.
    + left. apply elem_of_app. by left.
    + apply list_elem_of_singleton in Hi as ->. right. specialize (Ht t Hti). destruct Htok as [? _ _ _]. unfold below. lia.
    + left. apply elem_of_app. by right.
  - eapply cover_ok_sub, Hc. intros h i Hh Hcov Hi. right. exists i. split; [|done]. revert Hi.
    rewrite stream_answer. apply before_insert. destruct (aw_barrier (cl_win c)) as [[t a]|] eqn:Hb; [|apply hits_none].
    unfold hits. apply bool_decide_false. intros [_ Hd']. specialize (Ht _ Hd'). destruct Htok as [_ _ _ Ho]. rewrite Hb in Ho.
    destruct (Ho t eq_refl). cbn in Ht. lia.
Qed.

(** ** The system *)

Lemma ghost_grows_inv st st' w pc rx up down g g' :
  grows g g' → queue_inv (contents st') g' →
  sys_inv (mkSys (mkClient st w pc rx) up down g) → sys_inv (mkSys (mkClient st' w pc rx) up down g').
Proof.
  intros Hg Hq [? ? ? ? Hu Hd ? ?]. cbn [y_client y_up y_down y_ghost cl_win cl_pc cl_rx] in *.
  split; cbn [y_client y_up y_down y_ghost cl_st cl_win cl_pc cl_rx]; try done.
  - by eapply pc_ok_grows.
  - by eapply rx_ok_grows.
  - by eapply win_ok_grows.
  - intros f Hf. by eapply up_ok_grows, Hu.
  - intros f Hf. by eapply down_ok_grows, Hd.
  - by eapply cover_ok_grows.
Qed.

(** An empty window and no frame: where a session starts. *)
Lemma fresh_session_inv st w g :
  queue_inv (contents st) g → aw_in_flight w = [] → aw_announced w = ∅ → aw_barrier w = None → 0 ≤ aw_next_token w ≤ 2 ^ 63 →
  sys_inv (mkSys (mkClient st w PIdle RxIdle) [] [] g).
Proof.
  intros Hq Hf Ha Hb Hn. split; cbn [y_client y_up y_down y_ghost cl_st cl_win cl_pc cl_rx]; try done.
  - split; [by intros op ?%elem_of_nil|done].
  - split; rewrite ?Hf, ?Ha; [by intros h ?%elem_of_nil|]. intros a h. by rewrite lookup_empty.
  - by intros f ?%elem_of_nil.
  - by intros f ?%elem_of_nil.
  - split; [done|by intros i t ?%elem_of_nil|done|]. intros t. by rewrite Hb.
  - by apply cover_ok_nil.
Qed.

Lemma array_step_inv y y' : sys_step y y' → sys_inv y → sys_inv y'.
Proof.
  intros Hs Hinv. pose proof (iv_queue _ Hinv) as Hq.
  destruct Hs as [cap st w pc rx up down g op r st' Hm Hsch Hz He|c c' frame f up down g Hp Hsch|c c' up down down' g Hr|
    c frame up down g answer f Ho|c up down g msg Hc|c up down g time Ht|c up down g op Hl|st w pc rx up down g restart];
    cbn [y_client y_ghost] in *.
  - eapply ghost_grows_inv; [apply grows_ghost|by eapply queue_inv_enqueue|exact Hinv].
  - by eapply push_step_inv.
  - by eapply receive_step_inv.
  - by eapply origin_step_inv.
  - apply other_down_inv; [|done|done]. intros Hd. exfalso. unfold reject_disposition in Hd. by rewrite Hc in Hd.
  - apply other_down_inv; [done| |done]. intros t [= <-]. lia.
  - destruct c. eapply ghost_grows_inv; [apply grows_ghost| |done]. eapply queue_inv_more; [..|exact Hq]; [done..|]. unfold delivered. cbn. set_solver.
  - assert (queue_inv (contents st) (g_lose up g)) as Hq' by (eapply queue_inv_more; [..|exact Hq]; done).
    pose proof (tk_next _ _ _ (iv_tokens _ Hinv)) as Hn. cbn in Hn.
    destruct restart; (apply fresh_session_inv; [done|done|done|done|cbn; lia]).
Qed.

(** An empty queue and nothing recorded. *)
Definition sys_start (st : S) : Sys := mkSys (mkClient st window_default PIdle RxIdle) [] [] (mkGhost ∅ ∅ ∅ ∅ ∅ ∅ [] []).

Lemma sys_start_inv st : contents st ArrayDelta = ∅ → sys_inv (sys_start st).
Proof.
  intros He. apply fresh_session_inv; [|done|done|done|cbn; lia]. split; cbn.
  - intros k b. by rewrite He, lookup_empty.
  - intros h. unfold queued. rewrite He, lookup_empty. by intros [? ?].
  - intros h ?. set_solver.
  - done.
  - intros h. set_solver.
Qed.

Lemma reachable_inv st y : contents st ArrayDelta = ∅ → rtc sys_step (sys_start st) y → sys_inv y.
Proof.
  intros He Hr. remember (sys_start st) as y0 eqn:Hy0. assert (sys_inv y0) as Hinv by (subst; by apply sys_start_inv). clear Hy0.
  induction Hr as [|y0 y1 y2 Hs _ IH]; [done|]. apply IH. by eapply array_step_inv.
Qed.

(** C4: In every run of the client against Origin, from an empty queue and through any
    interleaving of emissions, push ticks, schema announcements, refusals, pongs, timed-out
    windows, failed writes, broken connections and restarts, an array operation whose
    emission succeeded is still queued, or Origin applied it, or Origin refused it for
    good, or no frame could carry it. *)
Theorem array_ops_accounted (st : S) (y : Sys (S:=S)) (h : Hlc) :
  contents st ArrayDelta = ∅ → rtc sys_step (sys_start st) y → h ∈ g_emitted (y_ghost y) →
  is_Some (queued (contents (cl_st (y_client y))) h) ∨ h ∈ g_applied (y_ghost y) ∨ h ∈ g_refused (y_ghost y) ∨
  h ∈ g_unsendable (y_ghost y).
Proof. intros He Hr Hh. destruct (reachable_inv st y He Hr) as [Hq]. by apply (qi_emitted _ _ Hq). Qed.
End delivery.
