(* ===== verification/ArraySeq.v ===== *)
(** * One number per array operation

    An operation that is sent again carries the stream number it was first sent under, in
    one session, across sessions and across restarts: Origin recognises the copy. *)

From Stdlib Require Import ZArith Lia Strings.Byte.
From stdpp Require Import prelude gmap sorting.
From S2P Require Import Prelude Bytes Ordered StorageTrait ArrayQueue ArrayWindow ArrayPush ArrayDelivery.

Local Open Scope Z_scope.

Section seqs.
Context `{AC : ArrayCodec} `{RR : RejectReasons} {S : Type} `{StorageLaws S}.
Implicit Types (m : Store) (g : Ghost) (h : Hlc) (pc : PushPc) (sent : list (Hlc * Z)) (op : PendingArrayOp).

(** A number sent is the row's, while the row is there. *)
Definition row_agrees m h (s : Z) : Prop := ∀ x, queued m h = Some x → so_seq x = s.

(** A scanned operation carries the number it was sent under, and so does its row. *)
Definition local_ok m sent op : Prop :=
  (∀ s, (pa_hlc op, s) ∈ sent → s ≠ 0 → pa_seq op = s) ∧ (pa_seq op ≠ 0 → row_agrees m (pa_hlc op) (pa_seq op)).

(** A number about to be persisted is of an operation no frame numbered. *)
Definition head_ok m sent pc : Prop :=
  match pc with
  | PPersist op _ _ => ∀ s, (pa_hlc op, s) ∈ sent → s = 0
  | PDelta op _ _ => local_ok m sent op
  | PDeltaSend op _ _ => (pa_hlc op, pa_seq op) ∈ sent
  | _ => True
  end.

Definition rest_ops pc : list PendingArrayOp :=
  match pc with PPersist _ _ ops | PDelta _ _ ops | PDeltaSend _ _ ops => ops | _ => pc_ops pc end.

Record seq_inv m sent pc : Prop := {
  sv_one h s s' : (h, s) ∈ sent → (h, s') ∈ sent → s ≠ 0 → s' ≠ 0 → s = s';
  sv_row h s : (h, s) ∈ sent → s ≠ 0 → row_agrees m h s;
  sv_nodup : NoDup (pa_hlc <$> pc_ops pc);
  sv_head : head_ok m sent pc;
  sv_rest op : op ∈ rest_ops pc → local_ok m sent op
}.

(** Rows that only go keep it. *)
Lemma row_agrees_sub m m' h s : (∀ x, queued m' h = Some x → queued m h = Some x) → row_agrees m h s → row_agrees m' h s.
Proof. intros Hq Hr x Hx. auto. Qed.

Lemma local_ok_sub m m' sent op :
  (∀ x, queued m' (pa_hlc op) = Some x → queued m (pa_hlc op) = Some x) → local_ok m sent op → local_ok m' sent op.
Proof. intros Hq [? Hr]. split; [done|]. intros Hs. by eapply row_agrees_sub, Hr. Qed.

Lemma seq_inv_sub m m' sent pc :
  (∀ h x, queued m' h = Some x → queued m h = Some x) → seq_inv m sent pc → seq_inv m' sent pc.
Proof.
  intros Hq [Ho Hr Hn Hh Hl]. split; [done| |done| |].
  - intros h s Hs Hz. eapply row_agrees_sub, Hr; eauto.
  - destruct pc; try done. eapply local_ok_sub; [|exact Hh]. eauto.
  - intros op Hop. eapply local_ok_sub, Hl; eauto.
Qed.

(** What an outcome says of a row. *)
Lemma outcome_without {A} (r : res A) m m1 m' (P : Hlc → Prop) :
  queue_without m m1 P → (∀ h, P h ∨ ¬ P h) → outcome r m m1 m' → ∀ h x, queued m' h = Some x → queued m h = Some x.
Proof.
  intros [_ Hw] Hd Ho h x. assert (m' ≡ m ∨ m' ≡ m1) as [Hm|Hm] by (destruct r; [by right|done]); rewrite (queued_equiv _ _ h Hm); [done|].
  destruct (Hd h) as [Hp|Hp]; [by rewrite (proj1 (Hw h) Hp)|by rewrite (proj2 (Hw h) Hp)].
Qed.

Lemma retire_rows st st' (hs : list Hlc) r h x :
  retire st hs = (r, st') → queued (contents st') h = Some x → queued (contents st) h = Some x.
Proof.
  intros (m1 & Hw & Ho)%retire_queue_spec. eapply outcome_without; [done| |done]. intros h'. destruct (decide (h' ∈ hs)); auto.
Qed.

Lemma remove_rows st st' h' r h x :
  remove st h' = (r, st') → queued (contents st') h = Some x → queued (contents st) h = Some x.
Proof.
  intros (m1 & Hw & Ho)%remove_spec. eapply outcome_without; [done| |done]. intros h1. destruct (decide (h1 = h')); auto.
Qed.

(** One row is written. *)
Definition only_row m m' h : Prop := ∀ h', h' ≠ h → queued m' h' = queued m h'.

Lemma outcome_put {A} (r : res A) m m1 m' h x : queue_put m m1 h x → outcome r m m1 m' → only_row m m' h.
Proof.
  intros (_ & _ & Hp) Ho h' Hne. assert (m' ≡ m ∨ m' ≡ m1) as [Hm|Hm] by (destruct r; [by right|done]); rewrite (queued_equiv _ _ h' Hm); [done|].
  by apply Hp.
Qed.

Lemma persist_rows st st' op r :
  queue_wf (contents st) → persist_array_op_seq st op = (r, st') →
  only_row (contents st) (contents st') (pa_hlc op) ∧ (r = Ok tt → row_agrees (contents st') (pa_hlc op) (pa_seq op)).
Proof.
  intros Hwf. unfold persist_array_op_seq. destruct (set_seq st (pa_hlc op) (pa_seq op)) as [rs st''] eqn:Hs.
  intros Hp. assert (st'' = st') as -> by (destruct rs as [[]|]; congruence).
  apply set_seq_spec in Hs as [[Hne ->]|(x & m1 & Hx & Hput & Ho & Hnf)]; [| |done].
  - split; [done|]. intros ->. destruct rs as [[]|]; [done|congruence|congruence].
  - split; [by eapply outcome_put|]. intros ->. destruct rs as [[]|]; [|done|congruence]. cbn in Ho.
    intros y. rewrite (queued_equiv _ _ _ Ho). destruct Hput as (_ & -> & _). by intros [= <-].
Qed.

Lemma seq_inv_write m m' sent pc h :
  only_row m m' h → (∀ s, (h, s) ∈ sent → s = 0) → (∀ op, op ∈ rest_ops pc → pa_hlc op ≠ h) → head_ok m' sent pc →
  seq_inv m sent pc → seq_inv m' sent pc.
Proof.
  intros Hw Hz Hr Hhead [Ho Hrow Hn Hh Hl]. split; [done| |done|done|].
  - intros h' s Hs Hs0 x. rewrite Hw; [by apply Hrow|]. intros ->. by apply Hs0, Hz.
  - intros op Hop. eapply local_ok_sub, Hl, Hop. intros x. by rewrite Hw by (by apply Hr).
Qed.

(** ** The steps keep it *)

(** The next point of the push loop, with operations of the last. *)
Lemma seq_inv_pc m sent pc pc' :
  pc_ops pc' `sublist_of` pc_ops pc → head_ok m sent pc' → (∀ op, op ∈ rest_ops pc' → op ∈ rest_ops pc) →
  seq_inv m sent pc → seq_inv m sent pc'.
Proof.
  intros Hs Hhead Hr [? ? Hn _ Hl]. split; [done|done| |done|auto].
  eapply sublist_NoDup; [exact Hn|]. by apply fmap_sublist.
Qed.

Lemma seq_inv_scanned st sent after limit scanned :
  queue_wf (contents st) → scan_after st after limit = Ok scanned →
  seq_inv (contents st) sent (PScan after) → seq_inv (contents st) sent (PSelect scanned).
Proof.
  intros Hwf Hscan [Ho Hrow _ _ _]. apply scan_after_spec in Hscan as [Hq Hn]; [|done]. split; [done|done|exact Hn|done|].
  intros op Hop. cbn in Hop. rewrite Forall_forall in Hq. destruct (Hq op Hop) as [Hx _]. split.
  - intros s Hs Hz. by apply (Hrow _ _ Hs Hz) in Hx.
  - intros _ x. rewrite Hx. by intros [= <-].
Qed.

(** A number taken for an operation no frame numbered. *)
Lemma seq_inv_number m sent op (seq : Z) ready ops :
  pa_seq op = 0 → seq_inv m sent (PSend ready (op :: ops)) → seq_inv m sent (PPersist (with_seq op seq) ready ops).
Proof.
  intros Hz [Ho Hrow Hn _ Hl]. split; [done|done|exact Hn| |].
  - intros s Hs. cbn in Hs. destruct (decide (s = 0)) as [?|Hne]; [done|]. destruct (Hl op) as [Hloc _]; [by left|].
    rewrite <-(Hloc s Hs Hne). exact Hz.
  - intros op' Hop. apply Hl. by right.
Qed.

Lemma seq_inv_record m sent op ready ops :
  seq_inv m sent (PDelta op ready ops) → seq_inv m (sent ++ [(pa_hlc op, pa_seq op)]) (PDeltaSend op ready ops).
Proof.
  intros [Ho Hrow Hn [Hloc Hr] Hl].
  assert (∀ h s, (h, s) ∈ sent ++ [(pa_hlc op, pa_seq op)] → (h, s) ∈ sent ∨ (h = pa_hlc op ∧ s = pa_seq op)) as Hin.
  { intros h s [?|Hh]%elem_of_app; [by left|right]. by apply list_elem_of_singleton in Hh as [= -> ->]. }
  split.
  - intros h s s' [?|[-> ->]]%Hin [?|[? ->]]%Hin Hs Hs'; subst; [by eapply Ho|symmetry; by apply Hloc|by apply Hloc|done].
  - intros h s [?|[-> ->]]%Hin Hs; [by apply Hrow|by apply Hr].
  - exact Hn.
  - apply elem_of_app. right. by left.
  - intros op' Hop. destruct (Hl op' Hop) as [Hloc' Hr']. split; [|done].
    intros s [?|[Hh ->]]%Hin Hs; [by apply Hloc'|]. exfalso. cbn in Hn. apply NoDup_cons in Hn as [Hn _].
    apply Hn. rewrite <-Hh. by apply list_elem_of_fmap_2.
Qed.

Lemma seq_inv_persisted st st' sent op ready ops r :
  queue_wf (contents st) → persist_array_op_seq st op = (r, st') → seq_inv (contents st) sent (PPersist op ready ops) →
  seq_inv (contents st') sent (if r then PDelta op ready ops else PSend ready ops).
Proof.
  intros Hwf Hp Hinv. destruct (persist_rows _ _ _ _ Hwf Hp) as [Hrow Hok]. pose proof (sv_head _ _ _ Hinv) as Hz. cbn in Hz.
  assert (∀ op', op' ∈ ops → pa_hlc op' ≠ pa_hlc op) as Hne.
  { pose proof (sv_nodup _ _ _ Hinv) as Hn. cbn in Hn. apply NoDup_cons in Hn as [Hn _]. intros op' Hop Heq.
    apply Hn. rewrite <-Heq. by apply list_elem_of_fmap_2. }
  apply (seq_inv_write _ _ _ (PPersist op ready ops) _ Hrow Hz Hne Hz) in Hinv. destruct r as [[]|e].
  - eapply seq_inv_pc, Hinv; [done| |done]. split; [|auto]. intros s Hs Hs0. by apply Hz in Hs.
  - eapply seq_inv_pc, Hinv; [cbn; by constructor|done|done].
Qed.

Lemma push_seq c c' frame f g :
  push_step c c' frame f → queue_wf (contents (cl_st c)) →
  seq_inv (contents (cl_st c)) (g_sent g) (cl_pc c) → seq_inv (contents (cl_st c')) (g_sent (f g)) (cl_pc c').
Proof.
  intros Hs Hwf Hinv.
  destruct Hs as [| | |? ? ? ? ? Hscan|? ? ? ? ? ? Hsel|? ? ? ? ? ? ? step ? ?| | | | | | | |st w op ready ops rx Hin Hz| |? ? ? ? ? ? ? Hp|? ? ? ? ? ? ? ? Hp|? ? ? ? ? ? ? ? Hret| | | | | | | |];
    cbn [cl_st cl_pc] in *; try (eapply seq_inv_pc; [..|exact Hinv]; [done|done|done]);
    try (eapply seq_inv_pc; [..|exact Hinv]; [apply sublist_nil_l|done|by intros ? ?%elem_of_nil]).
  - by eapply seq_inv_scanned.
  - destruct (select_sendable_spec _ _ _ _ _ Hsel) as (_ & _ & ops' & -> & Hsub). eapply seq_inv_pc; [..|exact Hinv]; [exact Hsub|done|].
    intros op Hop. by eapply elem_of_sublist.
  - destruct step; (eapply seq_inv_pc; [..|exact Hinv]; done).
  - eapply seq_inv_pc; [..|exact Hinv]; [cbn; by constructor|done|by right].
  - eapply seq_inv_pc; [..|exact Hinv]; [done| |by right]. apply (sv_rest _ _ _ Hinv). by left.
  - by apply seq_inv_number.
  - by apply (seq_inv_persisted _ _ _ _ _ _ _ Hwf Hp).
  - by apply (seq_inv_persisted _ _ _ _ _ _ _ Hwf Hp).
  - eapply seq_inv_sub; [intros h x; by eapply retire_rows|]. eapply seq_inv_pc; [..|exact Hinv]; [cbn; by constructor|done|done].
  - by apply seq_inv_record.
  - eapply seq_inv_pc; [..|exact Hinv]; [cbn; by constructor|done|done].
Qed.

Record seq_sys (y : Sys (S:=S)) : Prop := {
  sq_inv : seq_inv (contents (cl_st (y_client y))) (g_sent (y_ghost y)) (cl_pc (y_client y));
  sq_up op : UDelta op ∈ y_up y → (pa_hlc op, pa_seq op) ∈ g_sent (y_ghost y);
  sq_minted h s : (h, s) ∈ g_sent (y_ghost y) → h ∈ g_minted (y_ghost y)
}.

Lemma push_sent c c' frame f g :
  push_step c c' frame f →
  g_minted (f g) = g_minted g ∧ (∀ p, p ∈ g_sent g → p ∈ g_sent (f g)) ∧
  (∀ h s, (h, s) ∈ g_sent (f g) → (h, s) ∈ g_sent g ∨ ∃ op, op ∈ pc_ops (cl_pc c) ∧ pa_hlc op = h).
Proof.
  intros Hs. destruct Hs; (split; [done|]); cbn [g_sent id g_schema g_unsend g_send]; try (split; [done|by left]).
  split; [intros p Hp; apply elem_of_app; by left|]. intros h s [?|Hh]%elem_of_app; [by left|right].
  apply list_elem_of_singleton in Hh as [= -> ->]. exists op. split; [by left|done].
Qed.

Lemma push_frame_sent c c' frame f m sent op :
  push_step c c' frame f → frame = Some (UDelta op) → head_ok m sent (cl_pc c) → (pa_hlc op, pa_seq op) ∈ sent.
Proof.
  intros Hs Hf. destruct Hs; try done; try (destruct delivered; [|done]); injection Hf as Hf; subst; done.
Qed.

(** A row written for a clock no one has seen. *)
Lemma seq_inv_enqueue cap st st' (op : ArrayOp) r g pc :
  enqueue cap st op = (r, st') → op_hlc op ∉ g_minted g → (∀ h s, (h, s) ∈ g_sent g → h ∈ g_minted g) → pc_ok g pc →
  seq_inv (contents st) (g_sent g) pc → seq_inv (contents st') (g_sent g) pc.
Proof.
  intros He Hm Hs [Hops _] Hinv. apply enqueue_spec in He as [[_ ->]|(payload & m1 & _ & Hput & Ho)]; [done|].
  apply outcome_put with (x:=mkStored 0 payload) (h:=op_hlc op) in Ho; [|done]. eapply seq_inv_write; [exact Ho|..|exact Hinv].
  - intros s Hin. by apply Hs in Hin.
  - intros op' Hop Heq. apply Hm. rewrite <-Heq. apply Hops. destruct pc; cbn in *; try done; by right.
  - pose proof (sv_head _ _ _ Hinv) as Hh. destruct pc as [| | | | | | | | |op1| |]; try done. cbn in *. eapply local_ok_sub, Hh.
    intros x. rewrite Ho; [done|]. intros Heq. apply Hm. rewrite <-Heq. apply Hops. by left.
Qed.

Lemma sys_step_seq y y' : sys_step y y' → sys_inv y → seq_sys y → seq_sys y'.
Proof.
  intros Hs Hinv [Hq Hu Hm].
  destruct Hs as [cap st w pc rx up down g op r st' Hmint Hsch Hz He|c c' frame f up down g Hp Hsch|c c' up down down' g Hr|
    c frame up down g answer f Ho|c up down g msg Hc|c up down g time Ht|c up down g op Hl|st w pc rx up down g restart];
    cbn [y_client y_ghost y_up cl_st cl_pc] in *.
  - split; cbn; [|done|intros h s Hin; apply elem_of_union; right; by eapply Hm].
    eapply seq_inv_enqueue; [done..|exact (iv_pc _ Hinv)|done].
  - pose proof (push_sent _ _ _ _ g Hp) as (Hmint & Hsub & Hnew). split; cbn [y_client y_ghost y_up].
    + eapply push_seq; [done| |done]. exact (qi_wf _ _ (iv_queue _ Hinv)).
    + intros op [Hop|Hop%option_list_elem]%elem_of_app; [by apply Hsub, Hu|]. apply Hsub.
      eapply push_frame_sent; [done|done|exact (sv_head _ _ _ Hq)].
    + intros h s Hin. rewrite Hmint. destruct (Hnew h s Hin) as [?|(op & Hop & <-)]; [by eapply Hm|].
      by apply (proj1 (iv_pc _ Hinv)).
  - split; cbn [y_client y_ghost y_up]; [|done|done].
    destruct Hr; cbn [cl_st cl_pc] in *; try done; (eapply seq_inv_sub, Hq); intros h0 x; [by eapply remove_rows|by eapply retire_rows].
  - assert (g_sent (f g) = g_sent g ∧ g_minted (f g) = g_minted g) as [Hs Hmn].
    { destruct Ho; try done. by destruct (refused_for_good _ _). }
    split; cbn [y_client y_ghost y_up]; rewrite ?Hs, ?Hmn; [done| |done]. intros op Hop. apply Hu. by right.
  - by split.
  - by split.
  - by split.
  - split; cbn [y_client y_ghost y_up cl_st cl_pc]; [|by intros op ?%elem_of_nil|done].
    eapply seq_inv_pc; [..|exact Hq]; [apply sublist_nil_l|done|by intros ? ?%elem_of_nil].
Qed.

Lemma reachable_seq st y : contents st ArrayDelta = ∅ → rtc sys_step (sys_start st) y → seq_sys y.
Proof.
  intros He Hr. assert (seq_sys (sys_start st)) as Hstart.
  { split; cbn; [|by intros op ?%elem_of_nil|by intros h s ?%elem_of_nil].
    split; cbn; [by intros ? ? ? ?%elem_of_nil|by intros ? ? ?%elem_of_nil|constructor|done|by intros ? ?%elem_of_nil]. }
  pose proof (sys_start_inv st He) as Hinv. revert Hstart Hinv.
  induction Hr as [|y0 y1 y2 Hs _ IH]; [done|]. intros Hseq Hinv. apply IH; [by eapply sys_step_seq|by eapply array_step_inv].
Qed.

(** C21: In every run of the client against Origin, from an empty queue, all the frames that
    carried one array operation under a stream number carried the same number: the number
    is in the row before the first frame leaves, and later sessions and restarts read it
    back.  (Zero is the number of an operation whose counter could not be advanced.)  Every
    frame in transit is such a frame. *)
Theorem array_seq_stable (st : S) (y : Sys (S:=S)) (h : Hlc) (s s' : Z) :
  contents st ArrayDelta = ∅ → rtc sys_step (sys_start st) y →
  (h, s) ∈ g_sent (y_ghost y) → (h, s') ∈ g_sent (y_ghost y) → s ≠ 0 → s' ≠ 0 →
  s = s' ∧ ∀ op, UDelta op ∈ y_up y → pa_hlc op = h → pa_seq op ≠ 0 → pa_seq op = s.
Proof.
  intros He Hr Hs Hs' Hz Hz'. destruct (reachable_seq st y He Hr) as [[Hone _ _ _ _] Hu _]. split; [by eapply Hone|].
  intros op Hop <- Hne. eapply Hone; [by apply Hu|done|done|done].
Qed.
End seqs.
