(* ===== verification/ArrayCases.v ===== *)
(** * Runs of the array push

    A scheduler that takes the choices of the environment one by one, and runs: a window
    with an operation Origin applies, one it refuses for good and one it parks, and a
    connection lost between a frame and its answer, with and without a stream number. *)

From Stdlib Require Import ZArith Lia Strings.Byte.
From stdpp Require Import prelude gmap strings sorting.
From S2P Require Import Prelude Bytes Ordered StorageTrait Pagedb PagedbMem SyncDelivery.
From S2P Require Import ArrayQueue ArrayWindow ArrayPush ArrayDelivery ArraySeq.

Local Open Scope Z_scope.

Section scheduler.
Context `{AC : ArrayCodec} `{RR : RejectReasons} {S : Type} `{StorageEngine S}.

(** What the push loop is told: the time, the schema of an array and its clock, the next
    stream number, whether a frame encodes, and whether the connection broke with the
    frame delivered or not. *)
Record Answers := mkAnswers {
  an_now : Z;
  an_schema : res (option Hlc);
  an_seq : Z;
  an_encodes : bool;
  an_broken : option bool
}.

Definition sent_if {A} (b : bool) (x : A) : option A := if b then Some x else None.

Definition push_exec (a : Answers) (c : Client (S:=S)) : option (Client (S:=S) * option UpFrame * (Ghost → Ghost)) :=
  let '(mkClient st w pc rx) := c in
  match pc with
  | PIdle =>
      match begin_tick (an_now a) w with
      | (TWait, w) => Some (mkClient st w PIdle rx, None, id)
      | (TDrain after, w) => Some (mkClient st w (PScan after) rx, None, id)
      end
  | PBroken => None
  | PScan after =>
      match scan_after st after ARRAY_PUSH_WINDOW with
      | Err _ => Some (mkClient st w PIdle rx, None, id)
      | Ok scanned => Some (mkClient st w (PSelect scanned) rx, None, id)
      end
  | PSelect scanned =>
      let '(ops, w) := select_sendable w scanned in
      Some (mkClient st w (PAnnounce (seen_arrays ops) [] ops) rx, None, id)
  | PAnnounce (array :: todo) ready ops =>
      let '(step, w) := announce_step array w in
      Some (mkClient st w match step with
                          | AReady => PAnnounce todo (ready ++ [array]) ops
                          | AGiveUp => PAnnounce todo ready ops
                          | ASend => PSchema array todo ready ops
                          end rx, None, id)
  | PAnnounce [] ready ops => Some (mkClient st w (PSend ready ops) rx, None, id)
  | PSchema array todo ready ops =>
      match an_schema a with
      | Err _ => Some (mkClient st (request_rewind w) (PAnnounce todo ready ops) rx, None, id)
      | Ok None => Some (mkClient st (park_array array w) (PAnnounce todo ready ops) rx, None, id)
      | Ok (Some h) => Some (mkClient st (record_announced array h w) (PSchemaSend array h todo ready ops) rx, None, g_schema h)
      end
  | PSchemaSend array h todo ready ops =>
      match an_broken a with
      | None => Some (mkClient st w (PAnnounce todo (ready ++ [array]) ops) rx, Some (USchema array h), id)
      | Some _ => Some (mkClient st w PBroken rx, None, id)
      end
  | PSend ready (op :: ops) =>
      if negb (bool_decide (pa_array op ∈ ready)) then Some (mkClient st w (PSend ready ops) rx, None, id)
      else if bool_decide (pa_seq op = 0) then Some (mkClient st w (PPersist (with_seq op (an_seq a)) ready ops) rx, None, id)
      else Some (mkClient st w (PDelta op ready ops) rx, None, id)
  | PSend ready [] =>
      if has_in_flight w then
        if aw_next_token w <? 2 ^ 63 then
          let '(token, w) := open_barrier (an_now a) w in Some (mkClient st w (PPing token) rx, None, id)
        else None
      else Some (mkClient st (finish_idle_tick w) PIdle rx, None, id)
  | PPersist op ready ops =>
      match persist_array_op_seq st op with
      | (Ok _, st) => Some (mkClient st w (PDelta op ready ops) rx, None, id)
      | (Err _, st) => Some (mkClient st (request_rewind w) (PSend ready ops) rx, None, id)
      end
  | PDelta op ready ops =>
      if an_encodes a then Some (mkClient st (record_sent (pa_hlc op) w) (PDeltaSend op ready ops) rx, None, g_send op)
      else Some (mkClient (retire st [pa_hlc op]).2 w (PSend ready ops) rx, None, g_unsend (pa_hlc op))
  | PDeltaSend op ready ops =>
      match an_broken a with
      | None => Some (mkClient st w (PSend ready ops) rx, Some (UDelta op), id)
      | Some delivered => Some (mkClient st w PBroken rx, sent_if delivered (UDelta op), id)
      end
  | PPing token =>
      if negb (an_encodes a) then Some (mkClient st (abandon_window w) PIdle rx, None, id)
      else match an_broken a with
           | None => Some (mkClient st w PIdle rx, Some (UPing token), id)
           | Some delivered => Some (mkClient st w PBroken rx, sent_if delivered (UPing token), id)
           end
  end.

Lemma push_exec_sound a c c' frame f : push_exec a c = Some (c', frame, f) → push_step c c' frame f.
Proof.
  destruct c as [st w pc rx]. destruct pc as [| | |scanned|[|array todo] ready ops| | |ready [|op ops]| | | |]; cbn [push_exec].
  6:{ destruct (announce_step array w) as [step w'] eqn:Ha. intros [= <- <- <-]. by apply ps_announce. }
  4:{ destruct (select_sendable w scanned) as [ops w'] eqn:Hs. intros [= <- <- <-]. by apply ps_select. }
  7:{ destruct (has_in_flight w) eqn:Hf; [|intros [= <- <- <-]; by constructor]. destruct (Z.ltb_spec (aw_next_token w) (2 ^ 63)); [|done].
      destruct (open_barrier (an_now a) w) as [token w'] eqn:Ho. intros [= <- <- <-]. by eapply ps_open. }
  7:{ destruct (bool_decide_reflect (pa_array op ∈ ready)); cbn [negb]; [|intros [= <- <- <-]; by constructor].
      case_bool_decide; intros [= <- <- <-]; by constructor. }
  7:{ destruct (persist_array_op_seq st _) as [[[]|e] st'] eqn:Hp; intros [= <- <- <-]; by econstructor. }
  7:{ destruct (an_encodes a); intros [= <- <- <-]; [by constructor|]. eapply ps_unencodable. apply surjective_pairing. }
  all: repeat case_match; intros [= <- <- <-]; simplify_eq; try by econstructor.
Qed.

Inductive Choice :=
| CEmit (cap : Z) (op : ArrayOp)
| CPush (a : Answers)
| CReceive
| COrigin (refusal : option ArrayRejectMsg)
| CReconnect (restart : bool).

Definition receive_exec (c : Client (S:=S)) (down : list DownFrame) : option (Client (S:=S) * list DownFrame) :=
  let '(mkClient st w pc rx) := c in
  match rx, down with
  | RxIdle, [] => None
  | RxIdle, DReject msg :: down => Some (mkClient st (record_reject msg w) pc (after_reject msg), down)
  | RxIdle, DPong token :: down => let '(outcome, w) := complete_barrier token w in Some (mkClient st w pc (after_pong outcome), down)
  | RxRemove h, _ => Some (mkClient (remove st h).2 w pc RxIdle, down)
  | RxRetire hs, _ => Some (mkClient (retire st hs).2 w pc RxIdle, down)
  end.

Lemma receive_exec_sound c down c' down' : receive_exec c down = Some (c', down') → receive_step c down c' down'.
Proof.
  destruct c as [st w pc rx]. destruct rx as [|h|hs]; cbn [receive_exec].
  - destruct down as [|[msg|token] down]; [done|intros [= <- <-]; constructor|].
    destruct (complete_barrier token w) eqn:Hc. intros [= <- <-]. by constructor.
  - intros [= <- <-]. apply (rs_remove _ _ _ _ _ (remove st h).1). apply surjective_pairing.
  - intros [= <- <-]. apply (rs_retire _ _ _ _ _ (retire st hs).1). apply surjective_pairing.
Qed.

Definition refusal_b (h : Hlc) (msg : ArrayRejectMsg) : bool :=
  negb (bool_decide (reject_disposition (rj_reason msg) = CatchUp)) &&
  (bool_decide (rj_hlc_bytes msg = hlc_to_bytes h) || bool_decide (rj_hlc_bytes msg = hlc_to_bytes HLC_ZERO)).

Lemma refusal_b_ok h msg : refusal_b h msg = true → refusal_of h msg.
Proof.
  unfold refusal_b, refusal_of. intros [Hr Hk]%andb_true_iff. split.
  - apply negb_true_iff, bool_decide_eq_false in Hr. intros Hc. apply Hr. unfold reject_disposition. by rewrite Hc.
  - apply orb_true_iff in Hk as [?%bool_decide_eq_true|?%bool_decide_eq_true]; auto.
Qed.

Definition origin_exec (refusal : option ArrayRejectMsg) (frame : UpFrame) : option (option DownFrame * (Ghost → Ghost)) :=
  match frame, refusal with
  | UDelta op, None => Some (None, g_apply (pa_hlc op))
  | UDelta op, Some msg =>
      if refusal_b (pa_hlc op) msg
      then Some (Some (DReject msg), if refused_for_good (pa_hlc op) msg then g_refuse (pa_hlc op) else id) else None
  | USchema _ h, None => Some (None, id)
  | USchema _ h, Some msg => if refusal_b h msg then Some (Some (DReject msg), id) else None
  | UPing token, _ => Some (Some (DPong token), id)
  end.

Lemma origin_exec_sound refusal frame answer f : origin_exec refusal frame = Some (answer, f) → origin_step frame answer f.
Proof.
  destruct frame as [op|a h|token], refusal as [msg|]; cbn [origin_exec].
  all: try (intros [= <- <-]; constructor).
  - destruct (refusal_b _ _) eqn:Hr; [|done]. intros [= <- <-]. constructor. by apply refusal_b_ok.
  - destruct (refusal_b _ _) eqn:Hr; [|done]. intros [= <- <-]. constructor. by apply refusal_b_ok.
Qed.

Definition sys_exec (y : Sys (S:=S)) (ch : Choice) : option (Sys (S:=S)) :=
  let '(mkSys c up down g) := y in
  match ch with
  | CEmit cap op =>
      if bool_decide (op_hlc op ∉ g_minted g ∧ op_hlc op ∉ g_schemas g ∧ op_hlc op ≠ HLC_ZERO) then
        let '(r, st) := enqueue cap (cl_st c) op in
        Some (mkSys (mkClient st (cl_win c) (cl_pc c) (cl_rx c)) up down
                (g_mint (op_hlc op) match r with Ok _ => true | Err _ => false end g))
      else None
  | CPush a =>
      let* x := push_exec a c in
      if bool_decide (set_Forall (λ h, h ∉ g_minted g) (g_schemas (x.2 g)))
      then Some (mkSys x.1.1 (up ++ option_list x.1.2) down (x.2 g)) else None
  | CReceive => let* x := receive_exec c down in Some (mkSys x.1 up x.2 g)
  | COrigin refusal =>
      match up with
      | [] => None
      | frame :: up => let* x := origin_exec refusal frame in Some (mkSys c up (down ++ option_list x.1) (x.2 g))
      end
  | CReconnect restart =>
      Some (mkSys (mkClient (cl_st c) (if restart then window_default else reset (cl_win c)) PIdle RxIdle) [] [] (g_lose up g))
  end.

Lemma sys_exec_sound y y' ch : sys_exec y ch = Some y' → sys_step y y'.
Proof.
  destruct y as [[st w pc rx] up down g]. destruct ch as [cap op|a| |refusal|restart]; cbn [sys_exec cl_st cl_win cl_pc cl_rx].
  - case_bool_decide as Hf; [|done]. destruct Hf as (? & ? & ?). destruct (enqueue cap st op) as [r st'] eqn:He.
    intros [= <-]. by eapply ss_emit.
  - destruct (push_exec _ _) as [[[c' frame] f]|] eqn:Hp; [|done]. cbn [mbind option_bind fst snd].
    case_bool_decide as Hs; [|done]. intros [= <-]. apply ss_push; [by eapply push_exec_sound|exact Hs].
  - destruct (receive_exec _ _) as [[c' down']|] eqn:Hr; [|done]. intros [= <-]. apply ss_receive. by apply receive_exec_sound.
  - destruct up as [|frame up]; [done|]. destruct (origin_exec _ _) as [[answer f]|] eqn:Ho; [|done].
    intros [= <-]. apply ss_origin. by eapply origin_exec_sound.
  - intros [= <-]. apply ss_reconnect.
Qed.

Fixpoint sys_run (y : Sys (S:=S)) (l : list Choice) : option (Sys (S:=S)) :=
  match l with [] => Some y | ch :: l => let* y := sys_exec y ch in sys_run y l end.

Lemma sys_run_sound y y' l : sys_run y l = Some y' → rtc sys_step y y'.
Proof.
  revert y. induction l as [|ch l IH]; intros y; cbn [sys_run]; [by intros [= <-]|].
  destruct (sys_exec y ch) as [y1|] eqn:He; [|done]. intros Hr. eapply rtc_l; [by eapply sys_exec_sound|by apply IH].
Qed.
End scheduler.

(** ** Clocks as their bytes *)

Notation clock_bytes := (dsig (λ b : bytes, length b = 18%nat)).

Definition clock_zero : clock_bytes := dexist (P:=λ b : bytes, length b = 18%nat) (replicate 18 x00) eq_refl.

#[local] Program Instance clocks : HlcOps := {|
  Hlc := clock_bytes;
  hlc_cmp a b := bytes_cmp (proj1_sig a) (proj1_sig b);
  HLC_ZERO := clock_zero;
  hlc_to_bytes a := proj1_sig a;
  hlc_from_bytes b := match decide (length b = 18%nat) with left Hb => dexist b Hb | right _ => clock_zero end
|}.
Next Obligation. intros h. exact (proj2_dsig h). Qed.
Next Obligation. intros h. cbn beta. destruct (decide _) as [Hl|Hl]; [by apply dsig_eq|]. by destruct (Hl (proj2_dsig h)). Qed.
Next Obligation. done. Qed.

Definition clock (n : Z) : Hlc := hlc_from_bytes (replicate 10 x00 ++ u64_be n).

(** An operation here is its array and its clock. *)
#[local] Program Instance ops_codec : ArrayCodec := {|
  ArrayOp := bytes * Hlc;
  op_array op := op.1;
  op_hlc op := op.2;
  encode_op op := Some (hlc_to_bytes op.2 ++ op.1);
  decode_op b := if bool_decide (18 ≤ length b)%nat then Some (drop 18 b, hlc_from_bytes (take 18 b)) else None;
  stored_to_msgpack x := pack (so_seq x) [] (so_op x);
  stored_from_msgpack b := (λ x, mkStored x.1.1 x.2) <$> unpack b
|}.
Next Obligation.
  intros [a h] b [= <-]. cbn [fst snd]. pose proof (hlc_to_bytes_length h) as Hl.
  change (proj1_sig h) with (hlc_to_bytes h). rewrite bool_decide_true by (rewrite length_app; lia).
  by rewrite drop_app_length', take_app_length', hlc_from_to by lia.
Qed.
Next Obligation. intros [s o] b Hb%unpack_pack. cbn beta. by rewrite Hb. Qed.

(** A reason is its class. *)
#[local] Instance classes : RejectReasons := {| ArrayRejectReason := ArrayRejectClass; reason_class c := c |}.

(** ** A window: one operation applied, one refused for good, one parked *)

Definition temps : bytes := bs "temps".
Definition quiet : Answers := mkAnswers 0 (Ok (Some (clock 7))) 1 true None.
Definition numbered (seq : Z) : Answers := mkAnswers 0 (Ok (Some (clock 7))) seq true None.
Definition refuse (n : Z) (class : ArrayRejectClass) : Choice := COrigin (Some (mkReject temps (hlc_to_bytes (clock n)) class)).

Definition one_window : list (Choice (RR:=classes)) :=
  [CEmit 10 (temps, clock 1); CEmit 10 (temps, clock 2); CEmit 10 (temps, clock 3)] ++
  replicate 7 (CPush quiet) ++
  [CPush (numbered 1); CPush quiet; CPush quiet; CPush quiet] ++
  [CPush (numbered 2); CPush quiet; CPush quiet; CPush quiet] ++
  [CPush (numbered 3); CPush quiet; CPush quiet; CPush quiet; CPush quiet; CPush quiet] ++
  [COrigin None; COrigin None; refuse 2 Permanent; refuse 3 Transient; COrigin None] ++
  [CReceive; CReceive; CReceive; CReceive; CReceive].

Definition start : Sys (S:=MemDb) := sys_start (∅ : MemDb).
Definition after_window : option (Sys (S:=MemDb)) := sys_run start one_window.

Definition queued_now (y : Sys (S:=MemDb)) (h : Hlc) : option Z :=
  match se_get (cl_st (y_client y)) ArrayDelta (hlc_to_bytes h) with Ok (Some b) => so_seq <$> stored_from_msgpack b | _ => None end.

Definition fates (y : Sys (S:=MemDb)) (h : Hlc) : bool * bool * bool * option Z :=
  (bool_decide (h ∈ g_emitted (y_ghost y)), bool_decide (h ∈ g_applied (y_ghost y)), bool_decide (h ∈ g_refused (y_ghost y)), queued_now y h).

Example window_fates :
  (λ y, (fates y <$> [clock 1; clock 2; clock 3], length (y_up y), length (y_down y), cl_pc (y_client y), cl_rx (y_client y))) <$> after_window =
  Some ([(true, true, false, None); (true, false, true, None); (true, false, false, Some 3)], 0%nat, 0%nat, PIdle, RxIdle).
Proof. vm_compute. reflexivity. Qed.

(** What a run reached. *)
Definition reached (l : list (Choice (RR:=classes))) : Sys (S:=MemDb) := default start (sys_run start l).

Lemma reached_steps l : is_Some (sys_run start l) → rtc sys_step start (reached l).
Proof. intros [y Hy]. unfold reached. rewrite Hy. by apply (sys_run_sound _ _ l). Qed.

Lemma reached_b l : bool_decide (is_Some (sys_run start l)) = true → rtc sys_step start (reached l).
Proof. intros Hb%bool_decide_eq_true. by apply reached_steps. Qed.

Lemma array_ops_accounted_witness :
  is_Some (queued (contents (cl_st (y_client (reached one_window)))) (clock 3)).
Proof.
  pose proof (array_ops_accounted (∅ : MemDb) (reached one_window) (clock 3) (mem_empty_contents _)
    (reached_b one_window ltac:(by vm_compute)) ltac:(apply (bool_decide_unpack _); vm_compute; exact I)) as Hacc.
  destruct Hacc as [Hq|Hrest]; [exact Hq|exfalso]. revert Hrest. apply (bool_decide_unpack _). vm_compute. exact I.
Defined.

(** ** A connection lost between a frame and its answer

    The client cannot tell whether Origin read the frame.  The operation stays queued, and
    after a restart it goes out again under the number of the first frame. *)
Definition lost_answer : list (Choice (RR:=classes)) :=
  [CEmit 10 (temps, clock 1)] ++ replicate 7 (CPush quiet) ++
  [CPush (numbered 5); CPush quiet; CPush quiet; CPush (mkAnswers 0 (Ok None) 0 true (Some true))] ++
  [CReconnect true] ++ replicate 10 (CPush (numbered 6)).

Example lost_answer_resent :
  (λ y, (fates y (clock 1), (λ p, p.2) <$> g_sent (y_ghost y), length (y_up y))) <$> sys_run start lost_answer =
  Some ((true, false, false, Some 5), [5; 5], 2%nat).
Proof. vm_compute. reflexivity. Qed.

(** When the counter could not be advanced the frame goes out under zero, and the next one
    under another number. *)
Definition lost_zero : list (Choice (RR:=classes)) :=
  [CEmit 10 (temps, clock 1)] ++ replicate 7 (CPush quiet) ++
  [CPush (numbered 0); CPush quiet; CPush quiet; CPush (mkAnswers 0 (Ok None) 0 true (Some true))] ++
  [CReconnect true] ++ replicate 11 (CPush (numbered 6)).

Example zero_then_numbered :
  (λ y, (fates y (clock 1), (λ p, p.2) <$> g_sent (y_ghost y), length (y_up y))) <$> sys_run start lost_zero =
  Some ((true, false, false, Some 6), [0; 6], 2%nat).
Proof. vm_compute. reflexivity. Qed.

Lemma array_seq_stable_witness :
  (5 = 5 ∧ ∀ op, UDelta op ∈ y_up (reached lost_answer) → pa_hlc op = clock 1 → pa_seq op ≠ 0 → pa_seq op = 5).
Proof.
  apply (array_seq_stable (∅ : MemDb) (reached lost_answer) (clock 1) 5 5 (mem_empty_contents _)
    (reached_b lost_answer ltac:(by vm_compute))); try done; apply (bool_decide_unpack _); vm_compute; exact I.
Defined.
